(* ===== verification/_CoqProject ===== *)
-Q . S2P
Prelude.v
BTree.v
Os.v
Item.v
Vlog.v
VlogIter.v
Heap.v
Index.v
IndexRecover.v
IndexFile.v
Options.v
Bucket.v
IndexSlices.v
BucketPeek.v
BucketShare.v
BucketPop.v
BucketQueue.v
BucketForks.v
BucketDelete.v
BucketOpen.v
BucketFaults.v
BucketCycle.v
BucketCrash.v
Names.v
Buckets.v
BucketForkCycle.v
BucketsLoad.v
BucketsSplit.v
BucketsClose.v
BucketsQueue.v
BucketsPush.v
BucketsSpec.v
BucketsRead.v
BucketsClear.v
BucketsDelete.v
BucketsFork.v
BucketsOpen.v
BucketsShovel.v
BucketsMove.v
Api.v
Queue.v
QueueCrash.v
QueueForks.v
QueueLimits.v
QueueShovel.v
QueueProgress.v
Cmd.v
CmdRun.v
TestUtils.v
