(* ===== verification/Prelude.v ===== *)
(** * A verification development for timeq

    timeq is a priority queue in files.  A queue is a directory of buckets; a
    bucket holds the items of a range of keys in a value log ([dat.log], a
    memory map that batches of items are appended to), and for each consumer
    (the queue itself, with the name [""], and its forks) an index: a b-tree in
    memory from the first key of a batch to its location in the log, and a file
    of records that is replayed when the bucket is opened.  Pushing appends a
    sorted batch to the log and its location to the indexes; reading merges the
    batches of an index with a heap of iterators and then replaces the locations
    of the batches it has begun; deleting does the latter for a range of keys.

    ** How the code is modelled

    Pure functions are functions; fallible ones return [res], which tells a
    returned error, a run-time panic and a loop without fuel apart.  Stateful
    code is in the state monad [M St] of this file, on the state of its component
    and on the operating system [OS]: a file system and a schedule that decides
    which of the next system calls fail.  An error keeps the state it was raised
    in.  A callback that can reach the queue it is called from (the callback of
    [Read]) runs in the state of its caller, which has the bucket list in it
    through [view] and [upd].  Machine integers are [Z] with the wrap-around
    written out ([int64], [uint64], [uint32]).  [keeps R m] says that [m] relates
    the states before and after by [R] on every branch, [returns m] that it
    neither panics nor runs out of fuel.

    Code that is not in the repository is a class with the laws that it
    documents: the b-tree ([BTree.BTree]), memory maps and failing writes
    ([Os.Unix]), the page size ([Vlog.Host]), the order in which Go visits a map
    ([Bucket.MapRange]), the growth of slices ([Host.append_cap]), sorting
    ([Buckets.SortFunc]), replacing a file ([BucketsLoad.RenameIO]), copying
    ([Buckets.CopyPkg]), devices ([BucketsShovel.Devices]), the letters of
    Unicode ([Names.Unicode]), the names of files ([Cmd.Paths]) and the parsing of
    arguments ([Cmd.Cli]).  Each class has an instance that computes, which
    the witnesses use.

    The slices of an index are lists, with an account of where they end in which
    array ([idx_backing]): the copy that [Fork] makes of an index uses the same
    arrays, and an [append] of one consumer then writes into the list of another
    one if there is room behind it ([bucket_Set], [overwrite]).  [IndexSlices.v]
    proves that this account is right.  The invariants of a bucket ([bucket_ok],
    [serving], and all that are built on them, up to [holds_queue]) say that no two
    of its indexes share an array with room ([unshared]): so it is after a bucket
    was opened, every operation but [Fork] keeps it so, and [Fork] does if the
    lists of the source have no room ([no_room], for a queue [roomless]).  Without
    that batches can be lost after a [Fork] ([fork_shared_loses] in
    [BucketCrash.v]).

    ** The files

    - [Prelude.v]: integers, bytes, errors, the monad, automation.
    - [BTree.v]: interface of the ordered map of tidwall/btree, an instance.
    - [Os.v]: the calls of package os; frames ([only_files]).
    - [Item.v] (src/item/item.go): keys as directory names, items, locations,
      sizes, copies.  Names are read back for every int64 and sort like their
      keys where that is so; [Items_Copy] returns equal items.
    - [Vlog.v] (src/vlog/vlog.go): the log.  All outcomes of [Push], with what is
      in the log and in the file after each ([vlog_Push_outcome]); reopening;
      what [readItemAt] accepts; resynchronisation behind damaged entries.
    - [VlogIter.v] (src/vlog/iter.go): iterators.  A batch is read back as it was
      pushed; on any bytes whatsoever [Next] terminates without a panic.
    - [Heap.v] (src/vlog/heap.go): [Push] and [Fix] keep the heap order.
    - [Index.v] (src/index/index.go): the index as a first-in-first-out multimap,
      its iteration, its arrays, and [holds]: the items an index makes reachable.
    - [IndexRecover.v]: [FromVlog] finds all items of an undamaged log.
    - [IndexFile.v] (src/index/reader.go, writer.go, and [Load]): records;
      replaying a file gives back the index that wrote it; torn files; trailers.
    - [Options.v] (src/options.go): modes, validation, split functions; what the
      bucket list relies on is the class [SplitFunc], of which the two functions
      of the library are instances.
    - [Bucket.v] (src/bucket.go): the operations of a bucket.
    - [IndexSlices.v] (src/index/index.go again): the operations on indexes with
      slices over a shared memory, and the proof that the lists of a bucket are
      what the slices of its consumers stand for ([indexes_refine]).
    - [BucketPeek.v]: [peek] returns the smallest items in order, and is safe on
      damaged logs.
    - [BucketShare.v]: consumers that share no array ([unshared]); their operations
      are operations on one index ([owns]), which the next files are about.
    - [BucketPop.v]: what [popSync] leaves in the index and its file.
    - [BucketQueue.v]: the specification of a bucket, a map from consumers to
      multisets of items ([bucket_ok]); [Push] and [Read] implement it.
    - [BucketForks.v]: lengths, emptiness and forking.
    - [BucketDelete.v]: [Delete] removes a range of keys of one consumer.
    - [BucketOpen.v] (the rest of src/bucket.go): opening a bucket with the
      recovery of its indexes, its removal; what an index file says about the
      consumer ([file_state]).
    - [BucketFaults.v]: [Push] and [Read] of a bucket when any of the system calls
      fails or writes only a part: what is in memory and in each file then, and
      which items the consumers have ([BPush_faults], [BRead_faults]).
    - [BucketCycle.v]: [durable] buckets, whose files alone determine their
      queues; [Push] and [Read] keep a bucket durable, and a durable bucket that is
      closed and opened again has the same queues.
    - [BucketCrash.v]: the program stops in the middle of [Push] or [Read] of a bucket
      and is started again ([restart]); what the bucket that is opened then has
      ([BPush_crash], [BRead_crash]), and examples in which items are lost, all
      with batches that have the same first key: after a failed write, after a
      [Fork], and by a [Delete].
    - [Names.v] (src/api.go): the names that a fork may have.
    - [Buckets.v] (src/buckets.go): the list of buckets and its operations.  The
      buckets that were opened are in a heap, and the b-tree has pointers.
    - [BucketForkCycle.v]: forking and removing a fork, for a bucket that is open
      and for one that is closed, where the copy package copies the index file.
    - [BucketsLoad.v] (src/buckets.go, src/index/reader.go): [ReadTrailers],
      [loadAllBuckets], [ValidateBucketKeys].
    - [BucketsSplit.v]: [binsplit]; pushing a batch is pushing its parts.
    - [BucketsClose.v]: [closeUnused]; closing always returns.
    - [BucketsQueue.v]: the invariant [queue_ok] of a list of buckets for a
      specification [Q], a map from keys to the queues of a bucket; opening and
      closing buckets keeps it.
    - [BucketsPush.v], [BucketsRead.v]: [Push] and [Read] on the list of buckets;
      [BucketsSpec.v] has what this means for [Q].
    - [BucketsClear.v]: [Sync] and [Clear] on the list of buckets.
    - [BucketsDelete.v]: [Delete] on the list of buckets, for consumers no two of
      whose batches share a first key ([apart_batches]).
    - [BucketsFork.v]: operations that go over all buckets, one after the other
      ([turns]); [Fork] and [RemoveFork] on the list of buckets.
    - [BucketsOpen.v]: what is on disk ([stored]); closing a queue, loading it.
    - [BucketsShovel.v] (src/util.go, src/buckets.go): moving files, [Shovel].
    - [BucketsMove.v]: moving the directory of a bucket, by a rename or, between
      two devices, by a copy ([CopyTreeLaws]); two queues in directories of their
      own, each of which keeps its invariant while the other one changes ([half]).
    - [Api.v] (src/api.go): queues, forks, the interface of a consumer.
    - [Queue.v]: the specification of the public interface, a family of multisets
      with one member for each consumer ([qstep]); sequences of calls refine it
      ([queue_refines]), also across a restart ([queue_life]).
    - [QueueCrash.v]: the program stops in a [Push] that goes over several buckets;
      [Open] succeeds, and the queue has lost nothing ([Push_crash]).
    - [QueueForks.v]: forks of a queue ([Fork_queue], [Fork_Remove_queue]) and a
      queue that is forked for a while ([fork_life]); [Open] forgets the forks
      that are still there, and an example in which the items of one are lost.
    - [QueueLimits.v]: the number of open buckets is bounded, whatever operations do
      or fail to do ([open_buckets_bounded]).
    - [QueueShovel.v]: [Shovel] of a queue to another one gives it all items
      ([Shovel_queue]); for whichever consumer it is called, it clears the queue for
      all of them ([Shovel_clears_all]).
    - [QueueProgress.v]: consequences of the refinement for a client: every call is
      answered in its own way and in range ([exec_typed]), and a consumer that goes
      on popping gets everything and comes to an end ([drain]).
    - [Cmd.v] (src/cmd): options, arguments, the handlers of the commands, the
      table of commands.
    - [CmdRun.v]: a sequence of commands prints what the specification of the
      queue says ([cmd_refines]), for buckets of one key; with larger ones the
      client cannot open its queues again ([cmd_locked_out]); dumping a log.
    - [TestUtils.v] (src/item/testutils): the items that the tests push.

    The theorems build on each other in this order: a bucket implements a map from
    consumers to multisets ([bucket_ok]); it does so durably ([durable],
    [offline]); a list of buckets implements a map from keys to such maps
    ([queue_ok], [stored]); and the public interface hides the keys ([qsteps]).
    A fork of a queue is a fork of each of its buckets, whose file survives the
    closing of the bucket if the source has items in it: hence the assumptions
    [lively] and [covers] of [Fork_queue], which hold for the first fork.

    ** Bounds and fuel

    Loops that are not structural have fuel, and for each there is a theorem that
    the fuel it is called with is enough: the loops over a log are bounded by its
    size, those over an index by its entries, [peek_loop] by the number of
    entries times the size of the log, [binsplit] and [pushSorted] by the length of
    the batch.  Theorems about the log assume that it stays below 2^61 bytes, so
    that no size overflows; theorems about index files assume fewer than 2^32
    items per consumer, the width of the length in a record, and fewer than 2^63
    items in all records of a file together.  A [cap] bounds these two for every
    bucket of a queue, [fits] says that there is room for a sequence of calls; its
    last field, [separate], is what [Delete] needs.  [cap_told] says whether the
    trailers of all files tell their lengths, which [Len] relies on for the buckets
    that are closed: behind a fork they do not.
    [separate] says that if a range is deleted, no item (also of those to be pushed)
    is below the key of its bucket, and no two items of a consumer below the range
    have the same key; [Delete] does lose items otherwise
    ([delete_takes_other]).  [recoverable], in the theorems about crashes, says that the
    first key of a log is not negative, since recovery is wrong otherwise.
    Functional theorems about several calls assume that no system call fails; the
    failing cases are in [vlog_Push_outcome], [BPush_faults], [BRead_faults], [peek_safe],
    [closeUnused_spec] and [open_buckets_bounded].  The theorems about a crash are
    about a call on one bucket, or a [Push] to buckets that are open; between two
    calls the program can be killed at any time, since [Close] changes no file of
    a bucket that is [durable].  [BRead_faults] and [BRead_crash] assume that no two batches of the
    consumer have the same first key; without that they do not hold
    ([pop_interrupted_loses]).

    ** What is not modelled

    The contents of log messages, file permissions and the time at which the kernel
    writes back a map or a file.  A crash of the program is modelled between two
    system calls and in the middle of a write, not in the middle of the copying
    to a map; a crash of the machine is not modelled.  Concurrency: every operation
    but [buckets.Fork] runs under the mutex of the queue, which is left out.  Of the
    client, the texts of its help and the
    package that parses its arguments; of the test utilities, [WithTempMount], which
    mounts a file system with programs of the operating system.

    ** Plan

    Reads of no items; [Len] behind a fork; the client's command shovel; crashes
    while buckets are opened or removed. *)

From stdpp Require Export base list gmap strings sorting.
From Stdlib Require Export ZArith Lia ZifyBool.
From Stdlib.Strings Require Byte.

#[global] Open Scope Z_scope.
#[global] Set Default Goal Selector "!".

(** ** Machine integers

    Go's [int], [int64], [uint32] and [uint64] are integers of [Z] kept in
    range by the conversions below, which wrap around the way Go's do. *)

Definition int64 (z : Z) : Z := (z + 2 ^ 63) `mod` 2 ^ 64 - 2 ^ 63.

Definition uint64 (z : Z) : Z := z `mod` 2 ^ 64.

Definition uint32 (z : Z) : Z := z `mod` 2 ^ 32.

(** The range of a value of type [int64] (and of [int] on a 64-bit machine). *)
Definition is_int64 (z : Z) : Prop := - 2 ^ 63 ≤ z < 2 ^ 63.

(** ** Bytes and [encoding/binary]'s big-endian order *)

Abbreviation byte := Byte.byte.

#[global] Instance byte_eq_dec : EqDecision byte := Byte.byte_eq_dec.

Definition Z_of_byte (b : byte) : Z := Z.of_N (Byte.to_N b).

Definition byte_of_Z (z : Z) : byte :=
  default Byte.x00 (Byte.of_N (Z.to_N (z `mod` 256))).

(** [PutUint32] and [PutUint64] write [be_encode 4] and [be_encode 8]. *)
Fixpoint be_encode (n : nat) (z : Z) : list byte :=
  match n with
  | O => []
  | S n => byte_of_Z (z `div` 256 ^ Z.of_nat n) :: be_encode n z
  end.

(** [Uint32] and [Uint64] are [be_decode] of the first 4 and 8 bytes. *)
Fixpoint be_decode (bs : list byte) : Z :=
  match bs with
  | [] => 0
  | b :: bs => Z_of_byte b * 256 ^ Z.of_nat (length bs) + be_decode bs
  end.

(** ** Errors, panics and loops that run out of fuel

    [Err] is a returned [error]; [Panic] is a run-time panic (an index out of
    range, a fault on the memory map), which unwinds to the next [recover];
    [NoFuel] marks a loop whose fuel was too small and never occurs in a run
    of the program: every loop has a theorem that rules it out. *)

Inductive error :=
  | EIO (call : string)
  | EClosed
  | ENotExist
  | EUnexpectedEOF
  | ENoSuchFork
  | EAllocTooBig
  | EBadOffset
  | EMissingTrailer
  | EToLtFrom
  | ERecovered
  | ESyntax
  | ERange
  | EChangedSplitFunc
  | EInvalid (what : string)
  | EUser (code : Z)
  | EWrap (context : string) (e : error)
  | EJoin (e1 e2 : error).

#[global] Instance error_eq_dec : EqDecision error.
Proof. solve_decision. Defined.

Inductive res (A : Type) : Type :=
  | Ok (a : A)
  | Err (e : error)
  | Panic
  | NoFuel.
Arguments Ok {A} a.
Arguments Err {A} e.
Arguments Panic {A}.
Arguments NoFuel {A}.

#[global] Instance res_ret : MRet res := λ A a, Ok a.

#[global] Instance res_bind : MBind res := λ A B f r,
  match r with
  | Ok a => f a
  | Err e => Err e
  | Panic => Panic
  | NoFuel => NoFuel
  end.

Definition of_option {A} (o : option A) : res A :=
  match o with Some a => Ok a | None => Panic end.

(** ** The operating system

    Files are named by the list of their path components ([filepath.Join]
    appends one).  [os_faults] decides which of the next system calls fail:
    each call takes one Boolean, [true] for a failure; when the list is
    exhausted all further calls succeed.  The theorems quantify over it. *)

Definition path := list string.

Inductive node :=
  | NFile (data : list byte)
  | NDir.

#[global] Instance node_eq_dec : EqDecision node.
Proof. solve_decision. Defined.

Record OS := mkOS {
  os_fs : gmap path node;
  os_faults : list bool;
}.

Definition set_fs (fs : gmap path node) (os : OS) : OS :=
  mkOS fs (os_faults os).

Definition read_file (os : OS) (p : path) : option (list byte) :=
  match os_fs os !! p with
  | Some (NFile data) => Some data
  | _ => None
  end.

(** Replace the contents of an existing file; a file that was unlinked while
    it is open keeps no name, so there is nothing to update. *)
Definition write_file (p : path) (data : list byte) (os : OS) : OS :=
  match os_fs os !! p with
  | Some (NFile _) => set_fs (<[p := NFile data]> (os_fs os)) os
  | _ => os
  end.

(** ** The monad of the stateful code

    [M St A] is a computation on the state [St] of a component and on the
    operating system.  An error or a panic keeps the state reached so far, as
    Go does. *)

Definition M (St A : Type) : Type := St → OS → res A * St * OS.

#[global] Instance M_ret St : MRet (M St) := λ A a s os, (Ok a, s, os).

#[global] Instance M_bind St : MBind (M St) := λ A B f m s os,
  match m s os with
  | (Ok a, s', os') => f a s' os'
  | (Err e, s', os') => (Err e, s', os')
  | (Panic, s', os') => (Panic, s', os')
  | (NoFuel, s', os') => (NoFuel, s', os')
  end.

Definition get {St} : M St St := λ s os, (Ok s, s, os).

Definition put {St} (s' : St) : M St unit := λ _ os, (Ok tt, s', os).

Definition modify {St} (f : St → St) : M St unit := λ s os, (Ok tt, f s, os).

Definition fail {St A} (e : error) : M St A := λ s os, (Err e, s, os).

Definition lift {St A} (r : res A) : M St A := λ s os, (r, s, os).

Definition get_os {St} : M St OS := λ s os, (Ok os, s, os).

Definition modify_os {St} (f : OS → OS) : M St unit := λ s os, (Ok tt, s, f os).

(** A system call named [call], which fails when the fault schedule says so. *)
Definition sys {St} (call : string) : M St unit := λ s os,
  match os_faults os with
  | [] => (Ok tt, s, os)
  | b :: faults =>
      (if b : bool then Err (EIO call) else Ok tt, s, mkOS (os_fs os) faults)
  end.

(** Go's [x, err := m()]: the error becomes a value; a panic does not. *)
Definition attempt {St A} (m : M St A) : M St (error + A) := λ s os,
  match m s os with
  | (Ok a, s', os') => (Ok (inr a), s', os')
  | (Err e, s', os') => (Ok (inl e), s', os')
  | (Panic, s', os') => (Panic, s', os')
  | (NoFuel, s', os') => (NoFuel, s', os')
  end.

(** [fmt.Errorf("context: %w", err)] *)
Definition wrap_err {St A} (context : string) (m : M St A) : M St A := λ s os,
  match m s os with
  | (Err e, s', os') => (Err (EWrap context e), s', os')
  | r => r
  end.

(** Run a computation on a component of the state. *)
Definition zoom {St T A} (view : St → T) (update : T → St → St) (m : M T A) : M St A :=
  λ s os,
  match m (view s) os with
  | (r, t, os') => (r, update t s, os')
  end.

(** Run a computation on local variables, which start as [t]. *)
Definition with_local {St T A} (t : T) (m : M T A) : M St (A * T) := λ s os,
  match m t os with
  | (Ok a, t', os') => (Ok (a, t'), s, os')
  | (Err e, _, os') => (Err e, s, os')
  | (Panic, _, os') => (Panic, s, os')
  | (NoFuel, _, os') => (NoFuel, s, os')
  end.

(** [for _, x := range l { f(x) }] *)
Fixpoint each {St A} (f : A → M St unit) (l : list A) : M St unit :=
  match l with
  | [] => mret tt
  | x :: l => f x ;; each f l
  end.

(** ** Automation

    [run] executes the monad's plumbing in the goal, without unfolding the
    operations of the components; [run in H] does so in a hypothesis. *)

Create HintDb timeq.

Ltac run :=
  cbv beta iota delta [mbind M_bind res_bind mret M_ret res_ret get put modify fail lift
    get_os modify_os zoom with_local andb orb negb].

Ltac run_in H :=
  cbv beta iota delta [mbind M_bind res_bind mret M_ret res_ret get put modify fail lift
    get_os modify_os zoom with_local andb orb negb] in H.

Tactic Notation "run" "in" hyp(H) := run_in H.

(** ** Lemmas on machine integers *)

Lemma int64_id z : is_int64 z → int64 z = z.
Proof. unfold is_int64, int64. intros. rewrite Z.mod_small; lia. Qed.

Lemma uint64_id z : 0 ≤ z < 2 ^ 64 → uint64 z = z.
Proof. apply Z.mod_small. Qed.

Lemma uint32_id z : 0 ≤ z < 2 ^ 32 → uint32 z = z.
Proof. apply Z.mod_small. Qed.

Lemma int64_range z : is_int64 (int64 z).
Proof.
  unfold is_int64, int64.
  pose proof (Z.mod_pos_bound (z + 2 ^ 63) (2 ^ 64) eq_refl). lia.
Qed.

Lemma int64_uint64 z : is_int64 z → int64 (uint64 z) = z.
Proof.
  unfold is_int64, int64, uint64. intros.
  rewrite Z.add_mod_idemp_l by lia. rewrite Z.mod_small; lia.
Qed.

(** ** Lemmas on the big-endian encoding *)

Lemma Z_of_byte_range b : 0 ≤ Z_of_byte b < 256.
Proof. unfold Z_of_byte. pose proof (Byte.to_N_bounded b). lia. Qed.

Lemma Z_of_byte_of_Z z : Z_of_byte (byte_of_Z z) = z `mod` 256.
Proof.
  unfold Z_of_byte, byte_of_Z.
  pose proof (Z.mod_pos_bound z 256 eq_refl) as Hb.
  destruct (Byte.of_N (Z.to_N (z `mod` 256))) eqn:E; simpl.
  - apply Byte.to_of_N in E. rewrite E. lia.
  - apply Byte.of_N_None_iff in E. lia.
Qed.

Lemma byte_of_Z_of_byte b : byte_of_Z (Z_of_byte b) = b.
Proof.
  unfold byte_of_Z. rewrite Z.mod_small by apply Z_of_byte_range.
  unfold Z_of_byte. rewrite N2Z.id, Byte.of_to_N. done.
Qed.

Lemma length_be_encode n z : length (be_encode n z) = n.
Proof. induction n; simpl; congruence. Qed.

Lemma be_decode_range bs : 0 ≤ be_decode bs < 256 ^ Z.of_nat (length bs).
Proof.
  induction bs as [|b bs IH]; simpl length; cbn [be_decode]; [done|].
  pose proof (Z_of_byte_range b).
  rewrite Nat2Z.inj_succ, Z.pow_succ_r by lia. nia.
Qed.

Lemma be_decode_encode n z : be_decode (be_encode n z) = z `mod` 256 ^ Z.of_nat n.
Proof.
  induction n as [|n IH]; cbn [be_encode be_decode]; [by rewrite Z.mod_1_r|].
  rewrite IH, length_be_encode, Z_of_byte_of_Z.
  rewrite Nat2Z.inj_succ, Z.pow_succ_r by lia.
  set (p := 256 ^ Z.of_nat n). assert (0 < p) by (apply Z.pow_pos_nonneg; lia).
  rewrite (Z.mul_comm 256 p), Z.rem_mul_r by lia. lia.
Qed.

Lemma be_encode_decode bs : be_encode (length bs) (be_decode bs) = bs.
Proof.
  cut (∀ k, 0 ≤ k →
    be_encode (length bs) (k * 256 ^ Z.of_nat (length bs) + be_decode bs) = bs).
  { intros H. specialize (H 0 ltac:(lia)). by rewrite Z.mul_0_l in H. }
  induction bs as [|b bs IH]; intros k Hk; [done|].
  cbn [length be_encode be_decode].
  pose proof (be_decode_range bs) as Hr. pose proof (Z_of_byte_range b) as Hb.
  rewrite Nat2Z.inj_succ, Z.pow_succ_r by lia.
  set (p := 256 ^ Z.of_nat (length bs)) in *.
  replace (k * (256 * p) + (Z_of_byte b * p + be_decode bs))
    with ((k * 256 + Z_of_byte b) * p + be_decode bs) by lia.
  f_equal.
  - rewrite Z.div_add_l by lia. rewrite (Z.div_small (be_decode bs)) by lia.
    rewrite <- (byte_of_Z_of_byte b) at 2. unfold byte_of_Z. do 3 f_equal.
    rewrite Z.add_0_r, Z.add_comm, Z.mod_add; lia.
  - apply IH. lia.
Qed.

(** ** Lemmas on lists *)

Lemma increasing_NoDup (l : list Z) : StronglySorted Z.lt l → NoDup l.
Proof.
  intros Hs. induction Hs as [|x l _ IH Hx]; constructor; [|done]. rewrite Forall_forall in Hx. intros Hin.
  specialize (Hx x Hin). lia.
Qed.

(** ** What a computation does not change

    [keeps R m]: whatever the outcome of [m], the states before and after it are
    related by [R]. *)
Definition keeps {St A} (R : St → St → Prop) (m : M St A) : Prop := ∀ s os, R s (m s os).1.2.

Section keeps.
Context {St : Type} (R : St → St → Prop) `{!PreOrder R}.

Lemma keeps_ret {A} (a : A) : keeps R (mret a).
Proof. intros s os. cbn. reflexivity. Qed.

Lemma keeps_bind {A B} (m : M St A) (f : A → M St B) :
  keeps R m → (∀ a, keeps R (f a)) → keeps R (m ≫= f).
Proof.
  intros Hm Hf s os. specialize (Hm s os). run. destruct (m s os) as [[[a|e| |] s1] os1]; try done.
  cbn in Hm. transitivity s1; [done|]. apply Hf.
Qed.

Lemma keeps_get : keeps R get.
Proof. intros s os. cbn. reflexivity. Qed.

Lemma keeps_get_os : keeps R get_os.
Proof. intros s os. cbn. reflexivity. Qed.

Lemma keeps_modify_os f : keeps R (modify_os f).
Proof. intros s os. cbn. reflexivity. Qed.

Lemma keeps_fail {A} e : keeps R (fail (A := A) e).
Proof. intros s os. cbn. reflexivity. Qed.

Lemma keeps_lift {A} (r : res A) : keeps R (lift r).
Proof. intros s os. cbn. reflexivity. Qed.

Lemma keeps_sys call : keeps R (sys call).
Proof. intros s os. unfold sys. destruct (os_faults os); cbn; reflexivity. Qed.

Lemma keeps_modify f : (∀ s, R s (f s)) → keeps R (modify f).
Proof. intros Hf s os. apply Hf. Qed.

Lemma keeps_attempt {A} (m : M St A) : keeps R m → keeps R (attempt m).
Proof. intros Hm s os. specialize (Hm s os). unfold attempt. by destruct (m s os) as [[[a|e| |] s1] os1]. Qed.

Lemma keeps_wrap_err {A} c (m : M St A) : keeps R m → keeps R (wrap_err c m).
Proof. intros Hm s os. specialize (Hm s os). unfold wrap_err. by destruct (m s os) as [[[a|e| |] s1] os1]. Qed.

Lemma keeps_with_local {U A} (u : U) (m : M U A) : keeps R (with_local u m).
Proof. intros s os. unfold with_local. destruct (m u os) as [[[a|e| |] s1] os1]; cbn; reflexivity. Qed.

Lemma keeps_zoom {U A} (view : St → U) (update : U → St → St) (m : M U A) :
  (∀ s u, R s (update u s)) → keeps R (zoom view update m).
Proof. intros Hu s os. unfold zoom. destruct (m (view s) os) as [[r u] os1]. apply Hu. Qed.

Lemma keeps_each {A} (f : A → M St unit) l : (∀ a, keeps R (f a)) → keeps R (each f l).
Proof. intros Hf. induction l as [|a l IH]; cbn [each]; [apply keeps_ret|]. by apply keeps_bind. Qed.

Lemma keeps_eq {A} (m : M St A) : keeps eq m → keeps R m.
Proof. intros Hm s os. rewrite <- (Hm s os). reflexivity. Qed.
End keeps.

Create HintDb keeps.
Create HintDb returns.
#[export] Hint Resolve keeps_ret keeps_get keeps_get_os keeps_modify_os keeps_fail keeps_lift keeps_sys
  keeps_with_local : keeps.

(** Take a computation apart; the lemmas on the operations that it calls are in
    the database. *)
Ltac keeps :=
  intros; repeat first
    [ solve [eauto 2 with keeps typeclass_instances]
    | apply keeps_bind; [apply _| |intros ?]
    | apply keeps_attempt | apply keeps_wrap_err | apply keeps_each; [apply _|intros ?]
    | case_match ].

(** ** Computations that return

    [returns m]: [m] ends with a value or an error; it does not panic, and no loop
    in it lacks fuel. *)
Definition returns {St A} (m : M St A) : Prop :=
  ∀ s os, (∃ a, (m s os).1.1 = Ok a) ∨ (∃ e, (m s os).1.1 = Err e).

Section returns.
Context {St : Type}.

Lemma returns_ret {A} (a : A) : returns (St := St) (mret a).
Proof. intros s os. left. by exists a. Qed.

Lemma returns_bind {A B} (m : M St A) (f : A → M St B) :
  returns m → (∀ a, returns (f a)) → returns (m ≫= f).
Proof.
  intros Hm Hf s os. specialize (Hm s os). run. destruct (m s os) as [[[a|e| |] s1] os1]; cbn in Hm.
  - apply Hf.
  - right. by exists e.
  - by destruct Hm as [[? ?]|[? ?]].
  - by destruct Hm as [[? ?]|[? ?]].
Qed.

Lemma returns_get : returns (St := St) get.
Proof. intros s os. left. by exists s. Qed.

Lemma returns_put s' : returns (St := St) (put s').
Proof. intros s os. left. by exists tt. Qed.

Lemma returns_modify f : returns (St := St) (modify f).
Proof. intros s os. left. by exists tt. Qed.

Lemma returns_fail {A} e : returns (St := St) (fail (A := A) e).
Proof. intros s os. right. by exists e. Qed.

Lemma returns_sys call : returns (St := St) (sys call).
Proof. intros s os. unfold sys. destruct (os_faults os) as [|[] fs]; [left|right|left]; by eexists. Qed.

(** After [attempt] there is a value. *)
Lemma attempt_Ok {A} (m : M St A) s os : returns m → ∃ r s' os', attempt m s os = (Ok r, s', os').
Proof.
  intros Hm. specialize (Hm s os). unfold attempt. destruct (m s os) as [[[a|e| |] s1] os1]; cbn in Hm; eauto.
  all: by destruct Hm as [[? ?]|[? ?]].
Qed.

Lemma returns_attempt {A} (m : M St A) : returns m → returns (attempt m).
Proof. intros Hm s os. destruct (attempt_Ok m s os Hm) as (r & s' & os' & ->). left. by exists r. Qed.

Lemma returns_zoom {U A} (view : St → U) update (m : M U A) : returns m → returns (zoom view update m).
Proof. intros Hm s os. specialize (Hm (view s) os). unfold zoom. by destruct (m (view s) os) as [[r u] os1]. Qed.
End returns.

#[export] Hint Resolve returns_ret returns_get returns_put returns_modify returns_fail returns_sys : returns.

Ltac returns :=
  intros; repeat first
    [ solve [eauto 2 with returns]
    | apply returns_bind; [|intros ?]
    | apply returns_attempt | apply returns_zoom
    | case_match ].

(** ** Results

    [yields P m]: every value that [m] ends with satisfies [P]. *)
Definition yields {St A} (P : A → Prop) (m : M St A) : Prop :=
  ∀ s os, match (m s os).1.1 with Ok a => P a | _ => True end.

Section yields.
Context {St : Type}.

Lemma yields_bind {A B} (P : A → Prop) (Q : B → Prop) (m : M St A) (f : A → M St B) :
  yields P m → (∀ a, P a → yields Q (f a)) → yields Q (m ≫= f).
Proof.
  intros Hm Hf s os. unfold mbind, M_bind. specialize (Hm s os). destruct (m s os) as [[[a| | |] s1] os1]; cbn in *; try done.
  by apply Hf.
Qed.

Lemma yields_any {A} (m : M St A) : yields (λ _, True) m.
Proof. intros s os. by destruct (m s os) as [[[] ?] ?]. Qed.

Lemma yields_then {A B} (Q : B → Prop) (m : M St A) (f : A → M St B) : (∀ a, yields Q (f a)) → yields Q (m ≫= f).
Proof. intros Hf. eapply yields_bind; [apply yields_any|]. auto. Qed.

Lemma yields_ret {A} (P : A → Prop) a : P a → yields (St := St) P (mret a).
Proof. by intros Ha s os. Qed.

Lemma yields_lift {A} (P : A → Prop) (r : res A) : (∀ a, r = Ok a → P a) → yields (St := St) P (lift r).
Proof. intros Hr s os. destruct r; cbn; auto. Qed.

Lemma yields_with_local {U A} (P : A → Prop) (u : U) (m : M U A) :
  yields P m → yields (St := St) (λ au, P au.1) (with_local u m).
Proof. intros Hm s os. specialize (Hm u os). unfold with_local. by destruct (m u os) as [[[] ?] ?]. Qed.

Lemma yields_wrap_err {A} (P : A → Prop) c (m : M St A) : yields P m → yields P (wrap_err c m).
Proof. intros Hm s os. specialize (Hm s os). unfold wrap_err. by destruct (m s os) as [[[] ?] ?]. Qed.

Lemma yields_Ok {A} (P : A → Prop) (m : M St A) s os a s' os' : yields P m → m s os = (Ok a, s', os') → P a.
Proof. intros Hm Heq. specialize (Hm s os). by rewrite Heq in Hm. Qed.
End yields.

(** ** Filters that keep everything or nothing *)

Lemma filter_none {A} (P : A → Prop) `{∀ x, Decision (P x)} (its : list A) :
  (∀ it, it ∈ its → ¬ P it) → filter P its = [].
Proof.
  intros Hn. induction its as [|it its IH]; [done|]. rewrite filter_cons_False by (apply Hn; by left).
  apply IH. intros x Hx. apply Hn. by right.
Qed.

Lemma filter_all {A} (P : A → Prop) `{∀ x, Decision (P x)} (its : list A) :
  (∀ it, it ∈ its → P it) → filter P its = its.
Proof.
  intros Hn. induction its as [|it its IH]; [done|]. rewrite filter_cons_True by (apply Hn; by left).
  f_equal. apply IH. intros x Hx. apply Hn. by right.
Qed.

Lemma elem_of_concat {A} (x : A) (ls : list (list A)) : x ∈ concat ls ↔ ∃ l, x ∈ l ∧ l ∈ ls.
Proof.
  induction ls as [|l ls IH]; cbn [concat]; [rewrite elem_of_nil; split; [done|by intros (l & _ & ?%elem_of_nil)]|].
  rewrite elem_of_app, IH. split.
  - intros [Hx|(l' & Hx & Hl')]; [exists l; split; [done|by left]|]. exists l'. split; [done|by right].
  - intros (l' & Hx & [->|Hl']%elem_of_cons); [by left|right]. by exists l'.
Qed.

Lemma last_Some_elem_of {A} (l : list A) x : last l = Some x → x ∈ l.
Proof. intros Hl. apply last_Some in Hl as [l' ->]. set_solver. Qed.
