(* ===== verification/BTree.v ===== *)
(** * The interface of the ordered map

    timeq keeps its bucket tree and its in-memory indexes in a
    [btree.Map[item.Key, V]] of github.com/tidwall/btree, a third-party
    package.  [BTree] lists the operations the source uses and [BTreeLaws]
    what the package documents of them: a map from keys to values whose
    iteration is in ascending key order.  All components are proved against
    these two classes.  [slist], a sorted association list, is an
    implementation that satisfies them; the witnesses compute with it. *)

From S2P Require Import Prelude.

Class BTree (T : Type → Type) := {
  bt_empty : ∀ {V}, T V;
  bt_get : ∀ {V}, Z → T V → option V;
  bt_set : ∀ {V}, Z → V → T V → T V;
  bt_delete : ∀ {V}, Z → T V → T V;
  (** The pairs in the order of [Iter], [Scan], [Keys] and [GetAt]. *)
  bt_items : ∀ {V}, T V → list (Z * V);
}.

Class BTreeLaws (T : Type → Type) `{BTree T} : Prop := {
  bt_get_empty : ∀ {V} k, bt_get k (bt_empty : T V) = None;
  bt_get_set : ∀ {V} k k' (v : V) (t : T V),
    bt_get k' (bt_set k v t) = if decide (k = k') then Some v else bt_get k' t;
  bt_get_delete : ∀ {V} k k' (t : T V),
    bt_get k' (bt_delete k t) = if decide (k = k') then None else bt_get k' t;
  bt_items_sorted : ∀ {V} (t : T V), StronglySorted Z.lt (bt_items t).*1;
  bt_items_get : ∀ {V} k (v : V) (t : T V), (k, v) ∈ bt_items t ↔ bt_get k t = Some v;
}.

(** Derived observations: [Keys] and [Len]. *)
Definition bt_keys {T V} `{BTree T} (t : T V) : list Z := (bt_items t).*1.

Definition bt_len {T V} `{BTree T} (t : T V) : nat := length (bt_items t).

(** ** Sorted association lists *)

Fixpoint al_get {V} (k : Z) (l : list (Z * V)) : option V :=
  match l with
  | [] => None
  | (k', v) :: l => if decide (k = k') then Some v else al_get k l
  end.

Fixpoint al_set {V} (k : Z) (v : V) (l : list (Z * V)) : list (Z * V) :=
  match l with
  | [] => [(k, v)]
  | (k', v') :: l' =>
      if decide (k < k') then (k, v) :: l
      else if decide (k = k') then (k, v) :: l'
      else (k', v') :: al_set k v l'
  end.

Fixpoint al_delete {V} (k : Z) (l : list (Z * V)) : list (Z * V) :=
  match l with
  | [] => []
  | (k', v') :: l' => if decide (k = k') then l' else (k', v') :: al_delete k l'
  end.

Abbreviation al_sorted l := (StronglySorted Z.lt (fst <$> l)).

Lemma al_set_keys {V} k (v : V) l x : x ∈ (al_set k v l).*1 ↔ x = k ∨ x ∈ l.*1.
Proof.
  induction l as [|[k' v'] l IH]; simpl; [set_solver|].
  repeat case_decide; simpl; subst; rewrite ?elem_of_cons, ?IH; set_solver.
Qed.

Lemma al_set_sorted {V} k (v : V) l : al_sorted l → al_sorted (al_set k v l).
Proof.
  induction l as [|[k' v'] l IH]; simpl; intros Hs; [repeat constructor|].
  inversion Hs as [|? ? Hs' Hf]; subst. rewrite Forall_forall in Hf.
  repeat case_decide; simpl; constructor; try done.
  - constructor; [done|]. apply Forall_forall. intros x Hx. specialize (Hf x Hx). lia.
  - apply Forall_forall. subst. apply Hf.
  - by apply IH.
  - apply Forall_forall. intros x [->|Hx]%al_set_keys; [lia|]. by apply Hf.
Qed.

Lemma al_delete_sorted {V} k (l : list (Z * V)) : al_sorted l → al_sorted (al_delete k l).
Proof.
  induction l as [|[k' v'] l IH]; simpl; intros Hs; [constructor|].
  inversion Hs as [|? ? Hs' Hf]; subst. case_decide; [done|]. simpl.
  constructor; [by apply IH|]. rewrite Forall_forall in Hf |- *. intros x Hx. apply Hf.
  clear -Hx. induction l as [|[k1 v1] l IH]; simpl in *; [done|].
  case_decide; simpl in *; set_solver.
Qed.

Definition slist (V : Type) : Type := {l : list (Z * V) | al_sorted l}.

#[global] Instance slist_btree : BTree slist := {
  bt_empty V := exist _ [] (SSorted_nil _);
  bt_get V k t := al_get k (proj1_sig t);
  bt_set V k v t := exist _ _ (al_set_sorted k v _ (proj2_sig t));
  bt_delete V k t := exist _ _ (al_delete_sorted k _ (proj2_sig t));
  bt_items V t := proj1_sig t;
}.

Lemma al_get_elem {V} k (v : V) l :
  al_sorted l → (k, v) ∈ l ↔ al_get k l = Some v.
Proof.
  induction l as [|[k' v'] l IH]; simpl; intros Hs; [set_solver|].
  inversion Hs as [|? ? Hs' Hf]; subst. rewrite Forall_forall in Hf.
  rewrite elem_of_cons. case_decide as Hk; subst.
  - split; [|intros [= ->]; by left]. intros [[= ->]|Hin]; [done|].
    specialize (Hf k' ltac:(by apply (list_elem_of_fmap_2 fst) in Hin)). lia.
  - rewrite <- IH by done. split; [intros [[= -> ->]|]; done|by right].
Qed.

Lemma al_get_set {V} k k' (v : V) l :
  al_get k' (al_set k v l) = if decide (k = k') then Some v else al_get k' l.
Proof.
  induction l as [|[k1 v1] l IH]; simpl; [by repeat case_decide; subst|].
  repeat case_decide; simpl; repeat case_decide; subst; try done; lia.
Qed.

Lemma al_get_delete {V} k k' (l : list (Z * V)) :
  al_sorted l →
  al_get k' (al_delete k l) = if decide (k = k') then None else al_get k' l.
Proof.
  induction l as [|[k1 v1] l IH]; simpl; intros Hs; [by case_decide|].
  inversion Hs as [|? ? Hs' Hf]; subst. rewrite Forall_forall in Hf.
  repeat case_decide; simpl; repeat case_decide; subst; try done;
    try (rewrite IH by done; by rewrite ?decide_True, ?decide_False by done).
  destruct (al_get k1 l) as [v|] eqn:E; [|done].
  apply al_get_elem in E; [|done].
  specialize (Hf k1 ltac:(by apply (list_elem_of_fmap_2 fst) in E)). lia.
Qed.

#[global] Instance slist_btree_laws : BTreeLaws slist.
Proof.
  split; simpl.
  - done.
  - intros. apply al_get_set.
  - intros V k k' [l Hl]. by apply al_get_delete.
  - intros V [l Hl]. done.
  - intros V k v [l Hl]. by apply al_get_elem.
Qed.

(** ** Consequences of the laws *)

Section laws.
Context {T : Type → Type} `{BTreeLaws T} {V : Type}.
Implicit Types (t : T V) (k : Z) (v : V).

Lemma al_sorted_ext (l1 l2 : list (Z * V)) :
  al_sorted l1 → al_sorted l2 → (∀ p, p ∈ l1 ↔ p ∈ l2) → l1 = l2.
Proof.
  intros Hs1 Hs2 Heq.
  assert (∀ l : list (Z * V), al_sorted l → NoDup l) as Hnd.
  { induction l as [|[k v] l IH]; simpl; intros Hs; [constructor|].
    inversion Hs as [|? ? Hs' Hf]; subst. rewrite Forall_forall in Hf.
    constructor; [|by apply IH]. intros Hin.
    apply (list_elem_of_fmap_2 fst) in Hin. specialize (Hf _ Hin). simpl in Hf. lia. }
  set (R := λ p q : Z * V, p.1 < q.1).
  assert (∀ l : list (Z * V), al_sorted l → StronglySorted R l) as HR.
  { induction l as [|[k v] l IH]; simpl; intros Hs; [constructor|].
    inversion Hs as [|? ? Hs' Hf]; subst. constructor; [by apply IH|].
    rewrite Forall_fmap in Hf. done. }
  apply (StronglySorted_unique_strong R); [|by apply HR..|].
  - unfold R. lia.
  - apply NoDup_Permutation; by auto.
Qed.

Lemma bt_items_set k v t : bt_items (bt_set k v t) = al_set k v (bt_items t).
Proof.
  pose proof (bt_items_sorted t) as Hs.
  apply al_sorted_ext; [apply bt_items_sorted|by apply al_set_sorted|].
  intros [k' v']. rewrite bt_items_get, bt_get_set.
  rewrite al_get_elem by (by apply al_set_sorted). rewrite al_get_set.
  case_decide; [done|]. rewrite <- al_get_elem by done. by rewrite bt_items_get.
Qed.

Lemma bt_items_delete k t : bt_items (bt_delete k t) = al_delete k (bt_items t).
Proof.
  pose proof (bt_items_sorted t) as Hs.
  apply al_sorted_ext; [apply bt_items_sorted|by apply al_delete_sorted|].
  intros [k' v']. rewrite bt_items_get, bt_get_delete.
  rewrite al_get_elem by (by apply al_delete_sorted). rewrite al_get_delete by done.
  case_decide; [done|]. rewrite <- al_get_elem by done. by rewrite bt_items_get.
Qed.

Lemma bt_items_empty : bt_items (bt_empty : T V) = [].
Proof.
  destruct (bt_items (bt_empty : T V)) as [|[k v] l] eqn:E; [done|].
  assert ((k, v) ∈ bt_items (bt_empty : T V)) as Hin by (rewrite E; set_solver).
  apply bt_items_get in Hin. by rewrite bt_get_empty in Hin.
Qed.

Lemma bt_get_items k t : bt_get k t = al_get k (bt_items t).
Proof.
  destruct (al_get k (bt_items t)) as [v|] eqn:E.
  - apply al_get_elem, bt_items_get in E; [done|apply bt_items_sorted].
  - destruct (bt_get k t) as [v|] eqn:E'; [|done].
    apply bt_items_get, al_get_elem in E'; [congruence|apply bt_items_sorted].
Qed.

Lemma bt_keys_get k t : k ∈ bt_keys t ↔ is_Some (bt_get k t).
Proof.
  unfold bt_keys. rewrite list_elem_of_fmap. split.
  - intros ((k' & v) & -> & Hin). apply bt_items_get in Hin. by eexists.
  - intros [v Hv]. exists (k, v). split; [done|]. by apply bt_items_get.
Qed.

Lemma bt_keys_NoDup t : NoDup (bt_keys t).
Proof. apply increasing_NoDup. exact (bt_items_sorted t). Qed.
End laws.
