(* ===== verification/Os.v ===== *)
(** * The file system calls of the Go standard library

    The part of package [os] that timeq uses, on the file system of
    [Prelude.OS]: each call first asks the fault schedule whether it fails.
    Permissions are not modelled (a permission error is a fault). *)

From S2P Require Import Prelude.

(** [filepath.Join(dir, name)] *)
Definition Join (dir : path) (name : string) : path := dir ++ [name].

(** The parent directory; the root has none and always exists. *)
Definition parent_exists (os : OS) (p : path) : bool :=
  match removelast p with
  | [] => true
  | d => bool_decide (os_fs os !! d = Some NDir)
  end.

(** [os.OpenFile] with [O_CREATE]: the contents of the file, created empty
    when there is none. *)
Definition OpenCreate {St} (p : path) : M St (list byte) :=
  sys "open" ;;
  os ← get_os;
  match os_fs os !! p with
  | Some (NFile data) => mret data
  | Some NDir => fail (EIO "open: is a directory")
  | None =>
      if parent_exists os p then
        modify_os (set_fs (<[p := NFile []]> (os_fs os))) ;; mret []
      else fail ENotExist
  end.

(** [os.Open], for reading only. *)
Definition OpenRead {St} (p : path) : M St (list byte) :=
  sys "open" ;;
  os ← get_os;
  match os_fs os !! p with
  | Some (NFile data) => mret data
  | Some NDir => fail (EIO "open: is a directory")
  | None => fail ENotExist
  end.

(** [fd.Truncate(n)]: cut the file or pad it with zeros. *)
Definition resize_file (n : nat) (data : list byte) : list byte :=
  take n data ++ replicate (n - length data) Byte.x00.

Definition Truncate {St} (p : path) (n : nat) : M St unit :=
  sys "truncate" ;;
  os ← get_os;
  match read_file os p with
  | Some data => modify_os (write_file p (resize_file n data))
  | None => mret tt
  end.

(** [os.Remove]: files, and directories that are empty. *)
Definition has_children (fs : gmap path node) (d : path) : bool :=
  existsb (λ kv, bool_decide (removelast kv.1 = d ∧ kv.1 ≠ [])) (map_to_list fs).

Definition Remove {St} (p : path) : M St unit :=
  sys "remove" ;;
  os ← get_os;
  match os_fs os !! p with
  | None => fail ENotExist
  | Some NDir =>
      if has_children (os_fs os) p then fail (EIO "remove: directory not empty")
      else modify_os (set_fs (delete p (os_fs os)))
  | Some (NFile _) => modify_os (set_fs (delete p (os_fs os)))
  end.

(** [os.MkdirAll]: a directory and its missing parents. *)
Fixpoint mkdir_parents (d rest : path) (fs : gmap path node) : option (gmap path node) :=
  match rest with
  | [] => Some fs
  | c :: rest =>
      let d : path := d ++ [c] in
      match fs !! d with
      | Some NDir => mkdir_parents d rest fs
      | None => mkdir_parents d rest (<[d := NDir]> fs)
      | Some (NFile _) => None
      end
  end.

Definition MkdirAll {St} (p : path) : M St unit :=
  sys "mkdir" ;;
  os ← get_os;
  match os_fs os !! p with
  | Some NDir => mret tt
  | _ =>
      match mkdir_parents [] p (os_fs os) with
      | Some fs => modify_os (set_fs fs)
      | None => fail (EIO "mkdir: not a directory")
      end
  end.

(** ** Code outside of the repository

    The memory mapping calls of golang.org/x/sys/unix: the map that a
    successful call returns, and the slice that comes with an error; and the
    number of bytes that a failing [write] has appended nevertheless. *)

Class Unix := {
  unix_Mmap : list byte → Z → list byte;
  unix_Mremap : list byte → Z → list byte;
  unix_Mremap_failed : list byte → Z → list byte;
  unix_Write_short : list byte → list byte → nat;
}.

Class UnixLaws `{Unix} : Prop := {
  (** A file mapped in full shows its contents. *)
  unix_Mmap_full : ∀ data, unix_Mmap data (Z.of_nat (length data)) = data;
  (** A map that grows along with its file shows zeros in the new part. *)
  unix_Mremap_grow : ∀ data n, Z.of_nat (length data) ≤ n →
    unix_Mremap data n = data ++ replicate (Z.to_nat n - length data) Byte.x00;
}.

(** [fd.Write(bs)] on a file opened with [O_APPEND]. *)
Definition WriteAppend `{Unix} {St} (p : path) (bs : list byte) : M St unit :=
  r ← attempt (sys "write");
  os ← get_os;
  match read_file os p, r with
  | Some data, inr _ => modify_os (write_file p (data ++ bs))
  | Some data, inl e =>
      modify_os (write_file p (data ++ take (unix_Write_short data bs) bs)) ;; fail e
  | None, inr _ => mret tt
  | None, inl e => fail e
  end.

(** ** Lemmas *)

Lemma write_file_write_file p a b os : write_file p b (write_file p a os) = write_file p b os.
Proof.
  unfold write_file. destruct (os_fs os !! p) as [[d|]|] eqn:E; rewrite ?E; try done.
  unfold set_fs; simpl. by rewrite lookup_insert_eq, insert_insert_eq.
Qed.

Lemma os_faults_write_file p a os : os_faults (write_file p a os) = os_faults os.
Proof. unfold write_file. by destruct (os_fs os !! p) as [[]|]. Qed.

Lemma read_write_file p a os d :
  read_file os p = Some d → read_file (write_file p a os) p = Some a.
Proof.
  unfold read_file, write_file. destruct (os_fs os !! p) as [[]|] eqn:E; try done.
  intros _. unfold set_fs; simpl. by rewrite lookup_insert_eq.
Qed.

Lemma read_file_Some os p data : read_file os p = Some data → os_fs os !! p = Some (NFile data).
Proof. unfold read_file. intros Hf. destruct (os_fs os !! p) as [[]|]; congruence. Qed.

Lemma write_file_other p q a os : p ≠ q → os_fs (write_file p a os) !! q = os_fs os !! q.
Proof.
  intros. unfold write_file. destruct (os_fs os !! p) as [[]|]; try done.
  unfold set_fs; simpl. by rewrite lookup_insert_ne.
Qed.

(** ** Frames

    [only_files P os os'] says that a computation which led from [os] to [os']
    changed no file outside of [P] and fails no call when none was scheduled to
    fail. *)
Definition only_files (P : path → Prop) (os os' : OS) : Prop :=
  (∀ q, ¬ P q → os_fs os' !! q = os_fs os !! q) ∧
  (os_faults os = [] → os_faults os' = []).

#[global] Instance only_files_preorder P : PreOrder (only_files P).
Proof.
  split; [done|]. intros os1 os2 os3 [H1 H1'] [H2 H2']. split; [|by auto].
  intros q Hq. by rewrite H2, H1.
Qed.

Lemma only_files_mono (P Q : path → Prop) os os' :
  (∀ p, P p → Q p) → only_files P os os' → only_files Q os os'.
Proof. intros HPQ [H1 H2]. split; [|done]. intros q Hq. apply H1. by auto. Qed.

Lemma only_files_write p a os : only_files (eq p) os (write_file p a os).
Proof.
  split; [|by rewrite os_faults_write_file]. intros q Hq. by apply write_file_other.
Qed.

(** A system call changes the fault schedule only. *)
Lemma sys_spec {St} call (s : St) os :
  ∃ r os', sys call s os = (r, s, os') ∧ os_fs os' = os_fs os ∧
    (r = Ok tt ∨ r = Err (EIO call)) ∧
    (os_faults os = [] → r = Ok tt ∧ os_faults os' = []).
Proof.
  unfold sys. destruct (os_faults os) as [|[] faults] eqn:E.
  - exists (Ok tt), os. by auto.
  - eexists _, _. split; [done|]. naive_solver.
  - eexists _, _. split; [done|]. naive_solver.
Qed.

Lemma only_files_same_fs P os os' :
  os_fs os' = os_fs os → (os_faults os = [] → os_faults os' = []) → only_files P os os'.
Proof. intros Hfs Hf. split; [|done]. intros. by rewrite Hfs. Qed.

Lemma read_file_same_fs os os' p : os_fs os' = os_fs os → read_file os' p = read_file os p.
Proof. unfold read_file. by intros ->. Qed.

Lemma write_file_same_fs p a os os' :
  os_fs os' = os_fs os → os_fs (write_file p a os') = os_fs (write_file p a os).
Proof.
  unfold write_file, set_fs. intros E. rewrite E. by destruct (os_fs os !! p) as [[]|].
Qed.

(** Case analysis on the outcome of the next system call of the goal. *)
Ltac sys_case r os' :=
  lazymatch goal with
  | |- context [sys ?c ?s ?os] =>
      let Hfs := fresh "Hfs" in let Hr := fresh "Hr" in let Hnf := fresh "Hnf" in
      destruct (sys_spec c s os) as (r & os' & -> & Hfs & [-> | ->] & Hnf); run
  end.

Lemma sys_ok {St} call (s : St) os : os_faults os = [] → sys call s os = (Ok tt, s, os).
Proof. unfold sys. by intros ->. Qed.

(** Execute the next system calls of the goal, which no fault is scheduled for. *)
Ltac sys_ok := repeat progress (run; rewrite ?sys_ok by done); run.

(** ** Directories *)

(** The directories above [p] exist, and [p] is not a file. *)
Record dirs_ok (os : OS) (p : path) : Prop := {
  do_above : ∀ d : path, d `prefix_of` p → d ≠ p → d ≠ [] → os_fs os !! d = Some NDir;
  do_dir : os_fs os !! p = None ∨ os_fs os !! p = Some NDir;
}.

Lemma mkdir_parents_spec (d rest : path) fs :
  (∀ (e : path) data, ¬ e `prefix_of` d → e `prefix_of` d ++ rest → fs !! e ≠ Some (NFile data)) →
  ∃ fs', mkdir_parents d rest fs = Some fs' ∧ (rest ≠ [] → fs' !! (d ++ rest : path) = Some NDir) ∧
    (∀ e : path, e `prefix_of` d ∨ ¬ e `prefix_of` d ++ rest → fs' !! e = fs !! e) ∧
    (∀ e : path, fs !! e = Some NDir → fs' !! e = Some NDir).
Proof.
  revert d fs. induction rest as [|c rest IH]; intros d fs Hok; cbn [mkdir_parents]; [by exists fs|].
  assert (d ++ c :: rest = (d ++ [c]) ++ rest) as Happ by (by rewrite <- app_assoc). rewrite Happ in *.
  assert (¬ d ++ [c] `prefix_of` d) as Hlong.
  { intros He%prefix_length. rewrite length_app in He. cbn in He. lia. }
  assert (∀ fs0, fs0 !! (d ++ [c] : path) = Some NDir → (∀ e : path, e ≠ d ++ [c] → fs0 !! e = fs !! e) →
    ∃ fs', mkdir_parents (d ++ [c]) rest fs0 = Some fs' ∧ fs' !! ((d ++ [c]) ++ rest : path) = Some NDir ∧
      (∀ e : path, e `prefix_of` d ∨ ¬ e `prefix_of` (d ++ [c]) ++ rest → fs' !! e = fs !! e) ∧
      (∀ e : path, fs !! e = Some NDir → fs' !! e = Some NDir)) as Hstep.
  { intros fs0 Hd Hother. destruct (IH (d ++ [c]) fs0) as (fs' & -> & Hdir & Hout & Hkeep).
    - intros e data He1 He2. assert (e ≠ d ++ [c]) by (by intros ->).
      rewrite Hother by done. apply Hok; [|done]. intros Hed. by apply He1, prefix_app_r.
    - exists fs'. split; [done|]. split.
      { destruct rest as [|c' rest]; [|by apply Hdir]. rewrite app_nil_r. by apply Hkeep. }
      split; intros e He.
      + rewrite Hout by (destruct He; [left; by apply prefix_app_r|by right]).
        apply Hother. intros ->. destruct He as [He|He]; [done|]. by apply He, prefix_app_r.
      + destruct (decide (e = d ++ [c])) as [->|Hne]; [by apply Hkeep|]. apply Hkeep. by rewrite Hother. }
  destruct (fs !! (d ++ [c] : path)) as [[data|]|] eqn:E.
  - exfalso. apply (Hok (d ++ [c]) data); [done|by apply prefix_app_r|done].
  - destruct (Hstep fs) as (fs' & -> & ? & ? & ?); try done. by exists fs'.
  - destruct (Hstep (<[(d ++ [c] : path) := NDir]> fs)) as (fs' & -> & ? & ? & ?);
      [by rewrite lookup_insert_eq|intros e He; by rewrite lookup_insert_ne|]. by exists fs'.
Qed.

Lemma MkdirAll_existing {St} (s : St) p os :
  os_faults os = [] → os_fs os !! p = Some NDir → MkdirAll p s os = (Ok tt, s, os).
Proof. intros Hno Hd. unfold MkdirAll. sys_ok. by rewrite Hd. Qed.

Lemma MkdirAll_spec {St} (s : St) (p : path) os :
  os_faults os = [] → p ≠ [] → dirs_ok os p →
  ∃ os', MkdirAll p s os = (Ok tt, s, os') ∧ os_fs os' !! p = Some NDir ∧
    only_files (eq p) os os' ∧ os_faults os' = [].
Proof.
  intros Hno Hne [Habove Hp]. unfold MkdirAll. sys_ok.
  destruct (mkdir_parents_spec [] p (os_fs os)) as (fs' & -> & Hd & Hout & Hkeep).
  { intros e data He0 He. cbn in He. destruct (decide (e = p)) as [->|Hep]; [by destruct Hp as [-> | ->]|].
    rewrite Habove; try done. by intros ->. }
  destruct Hp as [Hp|Hp]; rewrite Hp; [|by exists os].
  eexists. split; [done|]. split; [by apply Hd|]. split; [|done]. split; [|done].
  intros q Hq. cbn. destruct (decide (q `prefix_of` p)) as [Hpre|Hpre]; [|apply Hout; by right].
  destruct (decide (q = [])) as [->|Hq0]; [apply Hout; by left|].
  rewrite (Habove q); [|done..]. apply Hkeep. by apply Habove.
Qed.

Lemma Remove_file {St} (s : St) p data os :
  os_faults os = [] → os_fs os !! p = Some (NFile data) →
  Remove p s os = (Ok tt, s, set_fs (delete p (os_fs os)) os).
Proof. intros Hno Hf. unfold Remove. sys_ok. by rewrite Hf. Qed.

Lemma has_children_false fs d : (∀ name, fs !! Join d name = None) → has_children fs d = false.
Proof.
  intros Hnone. apply not_true_iff_false. unfold has_children. rewrite existsb_exists.
  intros ([p n] & Hin%list_elem_of_In%elem_of_map_to_list & [Hd Hne]%bool_decide_eq_true). cbn in *.
  destruct (exists_last Hne) as (d' & name & ->). rewrite removelast_last in Hd. subst d'.
  pose proof (Hnone name) as Heq. unfold Join, path in *. by rewrite Heq in Hin.
Qed.
