(* ===== verification/Item.v ===== *)
(** * item/item.go: keys, items, locations and lists of items *)

From S2P Require Import Prelude.
From Stdlib Require Import Ascii.

(** ** Constants and data *)

Definition HeaderSize : Z := 12.

Definition TrailerSize : Z := 2.

(** [Key] is Go's [int64] and [Off] its [uint64]; both are [Z] here. *)
Definition Key : Type := Z.

Definition Off : Type := Z.

Record Item := mkItem {
  it_Key : Key;
  it_Blob : list byte;
}.

(** Where a batch lives in dat.log: its first key, the offset of its first
    byte and its number of items. *)
Record Location := mkLocation {
  loc_Key : Key;
  loc_Off : Off;
  loc_Len : Off;
}.

Abbreviation Items := (list Item).

(** Go's zero values. *)
Definition zero_Item : Item := mkItem 0 [].

Definition zero_Location : Location := mkLocation 0 0 0.

#[global] Instance Item_eq_dec : EqDecision Item.
Proof. solve_decision. Defined.

#[global] Instance Location_eq_dec : EqDecision Location.
Proof. solve_decision. Defined.

(** ** Keys as directory names *)

Definition chars : string → list ascii := String.list_ascii_of_string.

Definition str : list ascii → string := String.string_of_list_ascii.

Definition digit_char (d : Z) : ascii := ascii_of_nat (48 + Z.to_nat d).

(** The [n] last decimal digits of [z], the most significant first. *)
Fixpoint digits (n : nat) (z : Z) : list ascii :=
  match n with
  | O => []
  | S n => digit_char (z `div` 10 ^ Z.of_nat n `mod` 10) :: digits n z
  end.

(** [fmt.Sprintf("K%020d", int64(k))]: zero padding to 20 columns, of which a
    minus sign takes one; 19 digits are enough for every [int64]. *)
Definition Key_String (k : Key) : string :=
  str ("K"%char ::
    (if k <? 0 then "-"%char :: digits 19 (- k) else digits 20 k)).

Definition TrimPrefix_K (s : list ascii) : list ascii :=
  match s with
  | c :: s' => if decide (c = "K"%char) then s' else s
  | [] => []
  end.

Fixpoint drop_while (P : ascii → bool) (s : list ascii) : list ascii :=
  match s with
  | c :: s' => if P c then drop_while P s' else s
  | [] => []
  end.

Fixpoint take_while (P : ascii → bool) (s : list ascii) : list ascii :=
  match s with
  | c :: s' => if P c then c :: take_while P s' else []
  | [] => []
  end.

Definition is_slash (c : ascii) : bool := bool_decide (c = "/"%char).

(** [path/filepath.Base] on Unix. *)
Definition Base (s : list ascii) : list ascii :=
  match s with
  | [] => ["."%char]
  | _ =>
      match drop_while is_slash (reverse s) with
      | [] => ["/"%char]
      | r => reverse (take_while (λ c, negb (is_slash c)) r)
      end
  end.

Definition digit_val (c : ascii) : option Z :=
  let n := Z.of_nat (nat_of_ascii c) in
  if (48 <=? n) && (n <=? 57) then Some (n - 48) else None.

(** The loop of [strconv.ParseUint(s, 10, 64)]. *)
Fixpoint ParseUint_loop (n : Z) (s : list ascii) : res Z :=
  match s with
  | [] => Ok n
  | c :: s =>
      match digit_val c with
      | None => Err ESyntax
      | Some d => if 2 ^ 64 <=? n * 10 + d then Err ERange else ParseUint_loop (n * 10 + d) s
      end
  end.

Definition ParseUint (s : list ascii) : res Z :=
  match s with [] => Err ESyntax | _ => ParseUint_loop 0 s end.

(** [strconv.ParseInt(s, 10, 64)] *)
Definition ParseInt (s : list ascii) : res Z :=
  match s with
  | [] => Err ESyntax
  | c :: s' =>
      let neg := bool_decide (c = "-"%char) in
      let signed := neg || bool_decide (c = "+"%char) in
      un ← ParseUint (if signed then s' else s);
      if negb neg && (2 ^ 63 <=? un) then Err ERange
      else if neg && (2 ^ 63 <? un) then Err ERange
      else Ok (if neg then - un else un)
  end.

Definition KeyFromString (s : string) : res Key :=
  let s := TrimPrefix_K (chars s) in
  ParseInt (Base s).

(** ** Sizes *)

Definition blob_len (it : Item) : Z := Z.of_nat (length (it_Blob it)).

Definition Item_StorageSize (it : Item) : Off :=
  uint64 (uint64 (HeaderSize + uint64 (blob_len it)) + TrailerSize).

Definition Items_StorageSize (its : Items) : Off :=
  foldl (λ sum it, uint64 (sum + uint64 (blob_len it)))
    (uint64 (uint64 (Z.of_nat (length its)) * (HeaderSize + TrailerSize))) its.

(** ** Copying

    [Item.Copy] allocates one blob.  [Items.Copy] allocates one buffer for
    all blobs and hands out consecutive slices of it; the copies are modelled
    as windows of that buffer, which are read only once all writes are done. *)

Definition Item_Copy (it : Item) : Item :=
  let blob := replicate (length (it_Blob it)) Byte.x00 in
  let n := (length blob `min` length (it_Blob it))%nat in
  mkItem (it_Key it) (take n (it_Blob it) ++ drop n blob).

Record window := mkWindow { win_Key : Key; win_off : nat; win_len : nat }.

Definition read_window (buf : list byte) (w : window) : Item :=
  mkItem (win_Key w) (take (win_len w) (drop (win_off w) buf)).

(** One iteration over [items[idx]]: [pos] is where [copyBuf] starts in the
    buffer; slicing it beyond its end panics. *)
Fixpoint Items_Copy_loop (its : Items) (buf : list byte) (pos : nat) : res (list window * list byte) :=
  match its with
  | [] => Ok ([], buf)
  | it :: its =>
      let n := length (it_Blob it) in
      if decide (n ≤ length buf - pos)%nat then
        '(ws, buf') ← Items_Copy_loop its (take pos buf ++ it_Blob it ++ drop (pos + n) buf) (pos + n);
        Ok (mkWindow (it_Key it) pos n :: ws, buf')
      else Panic
  end.

Definition Items_Copy (its : Items) : res Items :=
  let bufSize := foldl (λ n it, (n + length (it_Blob it))%nat) O its in
  '(ws, buf) ← Items_Copy_loop its (replicate bufSize Byte.x00) 0;
  Ok (map (read_window buf) ws).

(** ** Lemmas: keys *)

Lemma digit_val_char d : 0 ≤ d < 10 → digit_val (digit_char d) = Some d.
Proof.
  intros Hd. unfold digit_val, digit_char.
  rewrite nat_ascii_embedding by lia.
  replace ((48 <=? Z.of_nat (48 + Z.to_nat d)) && (Z.of_nat (48 + Z.to_nat d) <=? 57)) with true by lia.
  f_equal. lia.
Qed.

(** The last [m] digits of [z] only depend on [z] modulo [10 ^ m]. *)
Lemma digits_mod k m z : (m ≤ k)%nat → digits m (z `mod` 10 ^ Z.of_nat k) = digits m z.
Proof.
  induction m as [|m IH]; intros Hm; [done|]. cbn [digits]. rewrite IH by lia.
  do 2 f_equal.
  replace (Z.of_nat k) with (Z.of_nat m + (1 + (Z.of_nat k - Z.of_nat m - 1))) by lia.
  rewrite !Z.pow_add_r by lia. rewrite Z.pow_1_r.
  set (q := 10 ^ Z.of_nat m). set (r := 10 ^ (Z.of_nat k - Z.of_nat m - 1)).
  assert (0 < q) by (apply Z.pow_pos_nonneg; lia).
  assert (0 < r) by (apply Z.pow_pos_nonneg; lia).
  rewrite (Z.rem_mul_r z q (10 * r)) by lia.
  rewrite Z.add_comm, (Z.mul_comm q), Z.div_add_l by lia.
  rewrite (Z.div_small (z `mod` q)) by (apply Z.mod_pos_bound; lia).
  rewrite Z.add_0_r, (Z.rem_mul_r _ 10 r) by lia.
  rewrite (Z.mul_comm 10), Z.mod_add by lia. by rewrite Z.mod_mod by lia.
Qed.

Lemma digits_div_range n z :
  0 ≤ z < 10 ^ Z.of_nat (S n) → 0 ≤ z `div` 10 ^ Z.of_nat n < 10.
Proof.
  rewrite Nat2Z.inj_succ, Z.pow_succ_r by lia. intros Hz.
  assert (0 < 10 ^ Z.of_nat n) by (apply Z.pow_pos_nonneg; lia).
  split; [apply Z.div_pos|apply Z.div_lt_upper_bound]; lia.
Qed.

Lemma ParseUint_loop_digits n z a :
  0 ≤ a → 0 ≤ z < 10 ^ Z.of_nat n → a * 10 ^ Z.of_nat n + z < 2 ^ 64 →
  ParseUint_loop a (digits n z) = Ok (a * 10 ^ Z.of_nat n + z).
Proof.
  revert z a. induction n as [|n IH]; intros z a Ha Hz Hlt; cbn [digits ParseUint_loop].
  { f_equal. simpl in *. lia. }
  pose proof (digits_div_range n z Hz).
  rewrite Nat2Z.inj_succ, Z.pow_succ_r in * by lia.
  set (p := 10 ^ Z.of_nat n) in *. assert (0 < p) by (apply Z.pow_pos_nonneg; lia).
  rewrite digit_val_char, Z.mod_small by (try apply Z.mod_pos_bound; lia).
  pose proof (Z.div_mod z p ltac:(lia)). pose proof (Z.mod_pos_bound z p ltac:(lia)).
  replace (2 ^ 64 <=? a * 10 + z `div` p) with false by (symmetry; apply Z.leb_gt; nia).
  rewrite <- (digits_mod n n z) by lia. fold p.
  rewrite IH; [f_equal; nia|nia|lia|nia].
Qed.

Lemma ParseUint_digits n z :
  0 ≤ z < 10 ^ Z.of_nat (S n) → z < 2 ^ 64 → ParseUint (digits (S n) z) = Ok z.
Proof.
  intros. change (ParseUint (digits (S n) z)) with (ParseUint_loop 0 (digits (S n) z)).
  rewrite ParseUint_loop_digits by lia. f_equal.
Qed.

(** A character a decimal digit can be. *)
Definition is_digit (c : ascii) : bool := bool_decide (is_Some (digit_val c)).

Lemma digits_are_digits n z c : c ∈ digits n z → is_digit c = true.
Proof.
  induction n as [|n IH]; cbn [digits]; rewrite ?elem_of_nil, ?elem_of_cons; [done|].
  intros [->|Hc]; [|by apply IH]. unfold is_digit. apply bool_decide_eq_true_2.
  rewrite digit_val_char by (apply Z.mod_pos_bound; lia). done.
Qed.

Lemma drop_while_none P s : (∀ c, c ∈ s → P c = false) → drop_while P s = s.
Proof. destruct s as [|c s]; simpl; intros H; [done|]. by rewrite H by set_solver. Qed.

Lemma take_while_all P s : (∀ c, c ∈ s → P c = true) → take_while P s = s.
Proof.
  induction s as [|c s IH]; simpl; intros H; [done|]. rewrite H by set_solver.
  f_equal. apply IH. set_solver.
Qed.

(** A name without slash is its own base name. *)
Lemma Base_no_slash s : s ≠ [] → (∀ c, c ∈ s → is_slash c = false) → Base s = s.
Proof.
  intros Hne Hs. unfold Base. destruct s as [|c s]; [done|].
  assert (∀ c', c' ∈ reverse (c :: s) → is_slash c' = false) as Hr
    by (intros c' Hc'; apply Hs; by rewrite elem_of_reverse in Hc').
  rewrite drop_while_none by done.
  destruct (reverse (c :: s)) as [|c1 r] eqn:E.
  { apply (f_equal length) in E. by rewrite length_reverse in E. }
  rewrite take_while_all, <- E, reverse_involutive; [done|].
  intros c' Hc'. by rewrite Hr.
Qed.

Lemma digit_not_slash c : is_digit c = true → is_slash c = false.
Proof.
  unfold is_digit, is_slash. rewrite bool_decide_eq_true, bool_decide_eq_false.
  by intros [d Hd] ->.
Qed.

Lemma chars_str s : chars (str s) = s.
Proof. unfold chars, str. apply String.list_ascii_of_string_of_list_ascii. Qed.

Lemma ParseInt_minus s z :
  ParseUint s = Ok z → z ≤ 2 ^ 63 → ParseInt ("-"%char :: s) = Ok (- z).
Proof.
  intros Hp Hz. unfold ParseInt. rewrite bool_decide_true by done.
  rewrite orb_true_l, Hp. cbn [mbind res_bind negb andb].
  by replace (2 ^ 63 <? z) with false by lia.
Qed.

Lemma ParseInt_plain c s z :
  is_digit c = true → ParseUint (c :: s) = Ok z → z < 2 ^ 63 → ParseInt (c :: s) = Ok z.
Proof.
  intros Hc Hp Hz. unfold ParseInt.
  rewrite !bool_decide_false by (intros ->; done).
  rewrite orb_false_l, Hp. cbn [mbind res_bind negb andb].
  by replace (2 ^ 63 <=? z) with false by lia.
Qed.

Lemma KeyFromString_holds k : is_int64 k → KeyFromString (Key_String k) = Ok k.
Proof.
  unfold is_int64, KeyFromString, Key_String. intros Hk. rewrite chars_str.
  unfold TrimPrefix_K. rewrite decide_True by done.
  destruct (Z.ltb_spec k 0) as [Hneg|Hpos].
  - rewrite Base_no_slash; [|done|].
    + rewrite (ParseInt_minus _ (- k)); [f_equal; lia|apply ParseUint_digits; lia|lia].
    + intros c [->|Hc]%elem_of_cons; [done|]. eapply digit_not_slash, digits_are_digits, Hc.
  - rewrite Base_no_slash; [|done|intros c Hc; eapply digit_not_slash, digits_are_digits, Hc].
    apply ParseInt_plain; [|by apply (ParseUint_digits 19); lia|lia].
    apply (digits_are_digits 20 k). left.
Qed.

(** [KeyFromString] is the reverse of [String]: every [int64] key is read
    back from the name of its bucket directory. *)
Theorem KeyFromString_String k : is_int64 k → KeyFromString (Key_String k) = Ok k.
Proof. apply KeyFromString_holds. Qed.

Lemma KeyFromString_String_witness :
  is_int64 (-5) ∧ KeyFromString (Key_String (-5)) = Ok (-5).
Proof. split; [done|]. apply (KeyFromString_String (-5)). done. Defined.

(** ** Lemmas: sizes and copies *)

(** The bytes an item takes in the log, before any wrap-around. *)
Definition storage (it : Item) : Z := HeaderSize + blob_len it + TrailerSize.

Definition storages (its : Items) : Z := foldr (λ it n, storage it + n) 0 its.

Lemma blob_len_nonneg it : 0 ≤ blob_len it.
Proof. unfold blob_len. lia. Qed.

Lemma storage_ge it : 14 ≤ storage it.
Proof. unfold storage, HeaderSize, TrailerSize. pose proof (blob_len_nonneg it). lia. Qed.

Lemma storages_app its1 its2 : storages (its1 ++ its2) = storages its1 + storages its2.
Proof. induction its1; simpl; lia. Qed.

#[global] Instance storages_perm : Proper (Permutation ==> eq) storages.
Proof. intros its its' Hp. unfold storages. induction Hp; cbn in *; lia. Qed.

Lemma storages_ge its : 14 * Z.of_nat (length its) ≤ storages its.
Proof. induction its as [|it its IH]; simpl; [lia|]. pose proof (storage_ge it). lia. Qed.

Lemma Item_StorageSize_spec it : storage it < 2 ^ 64 → Item_StorageSize it = storage it.
Proof.
  intros. unfold Item_StorageSize, storage, HeaderSize, TrailerSize in *.
  pose proof (blob_len_nonneg it).
  unfold uint64. rewrite (Z.mod_small (blob_len it)), (Z.mod_small (12 + _)), Z.mod_small; lia.
Qed.

Lemma Items_StorageSize_mod its : Items_StorageSize its = storages its `mod` 2 ^ 64.
Proof.
  unfold Items_StorageSize, uint64.
  cut (∀ a, 0 ≤ a < 2 ^ 64 →
    foldl (λ sum it, (sum + blob_len it `mod` 2 ^ 64) `mod` 2 ^ 64) a its
    = (a + (storages its - 14 * Z.of_nat (length its))) `mod` 2 ^ 64).
  { intros Hc. rewrite Hc by (apply Z.mod_pos_bound; lia).
    rewrite Z.mul_mod_idemp_l, Z.add_mod_idemp_l by lia.
    f_equal. unfold HeaderSize, TrailerSize. lia. }
  induction its as [|it its IH]; intros a Ha; simpl.
  { rewrite Z.mod_small; lia. }
  rewrite IH by (apply Z.mod_pos_bound; lia).
  rewrite Z.add_mod_idemp_l by lia. unfold storage, HeaderSize, TrailerSize.
  rewrite Z.add_shuffle0, Z.add_mod_idemp_r by lia. f_equal. lia.
Qed.

(** The batch size is the sum of the item sizes (both wrap around alike). *)
Lemma Items_StorageSize_spec its :
  storages its < 2 ^ 64 → Items_StorageSize its = storages its.
Proof.
  intros. rewrite Items_StorageSize_mod. pose proof (storages_ge its).
  apply Z.mod_small. lia.
Qed.

Lemma Item_Copy_id it : Item_Copy it = it.
Proof.
  unfold Item_Copy. destruct it as [k b]; simpl. rewrite length_replicate, Nat.min_id.
  rewrite take_ge, drop_ge by (rewrite ?length_replicate; lia). by rewrite app_nil_r.
Qed.

Definition blob_sum (its : Items) : nat := foldr (λ it n, (length (it_Blob it) + n)%nat) O its.

Lemma blob_sum_foldl its n :
  foldl (λ n it, (n + length (it_Blob it))%nat) n its = (n + blob_sum its)%nat.
Proof. revert n. induction its as [|it its IH]; intros n; simpl; [lia|]. rewrite IH. lia. Qed.

(** What the loop has written stays as it is: only bytes from [pos] on change. *)
Lemma Items_Copy_loop_spec its buf pos :
  (pos + blob_sum its ≤ length buf)%nat →
  ∃ ws buf', Items_Copy_loop its buf pos = Ok (ws, buf') ∧
    take pos buf' = take pos buf ∧ length buf' = length buf ∧
    map (read_window buf') ws = its.
Proof.
  revert buf pos. induction its as [|[k b] its IH]; intros buf pos Hlen; simpl in *.
  { by exists [], buf. }
  rewrite decide_True by lia.
  destruct (IH (take pos buf ++ b ++ drop (pos + length b) buf) (pos + length b)%nat)
    as (ws & buf' & -> & Htake & Hlen' & Hws).
  { rewrite !length_app, length_take, length_drop. lia. }
  eexists _, _. split; [done|].
  assert (take (pos + length b) buf' = take pos buf ++ b) as Htake2.
  { rewrite Htake, app_assoc, take_app_length' by (rewrite length_app, length_take; lia). done. }
  repeat split.
  - apply (f_equal (take pos)) in Htake2. rewrite take_take, Nat.min_l in Htake2 by lia.
    rewrite Htake2, take_app_length' by (rewrite length_take; lia). done.
  - rewrite Hlen', !length_app, length_take, length_drop. lia.
  - simpl. f_equal; [|done]. unfold read_window; simpl. f_equal.
    rewrite take_drop_commute, Htake2, drop_app_length' by (rewrite length_take; lia). done.
Qed.

(** [Items.Copy] never panics and returns items with the same keys and the
    same payloads, although all copies share one buffer. *)
Theorem Items_Copy_id its : Items_Copy its = Ok its.
Proof.
  unfold Items_Copy. rewrite blob_sum_foldl. simpl.
  destruct (Items_Copy_loop_spec its (replicate (blob_sum its) Byte.x00) 0)
    as (ws & buf' & -> & _ & _ & Hws); [by rewrite length_replicate|].
  simpl. by rewrite Hws.
Qed.

(** ** Lemmas: the order of directory names *)

Lemma digit_char_compare d1 d2 :
  0 ≤ d1 < 10 → 0 ≤ d2 < 10 → Ascii.compare (digit_char d1) (digit_char d2) = (d1 ?= d2).
Proof.
  intros H1 H2. unfold Ascii.compare, digit_char, N_of_ascii.
  fold (N_of_ascii (ascii_of_nat (48 + Z.to_nat d1))).
  fold (N_of_ascii (ascii_of_nat (48 + Z.to_nat d2))).
  unfold ascii_of_nat. rewrite !N_ascii_embedding by lia.
  rewrite <- N2Z.inj_compare. destruct (Z.compare_spec d1 d2);
    [apply Z.compare_eq_iff|apply Z.compare_lt_iff|apply Z.compare_gt_iff]; lia.
Qed.

Lemma digits_compare n a b :
  0 ≤ a < 10 ^ Z.of_nat n → 0 ≤ b < 10 ^ Z.of_nat n →
  String.compare (str (digits n a)) (str (digits n b)) = (a ?= b).
Proof.
  revert a b. induction n as [|n IH]; intros a b Ha Hb; cbn [digits].
  { simpl in *. symmetry. apply Z.compare_eq_iff. lia. }
  pose proof (digits_div_range n a Ha). pose proof (digits_div_range n b Hb).
  cbn [str String.string_of_list_ascii String.compare].
  rewrite !(Z.mod_small (_ `div` _)) by lia. rewrite digit_char_compare by lia.
  set (p := 10 ^ Z.of_nat n) in *. assert (0 < p) by (apply Z.pow_pos_nonneg; lia).
  pose proof (Z.div_mod a p ltac:(lia)). pose proof (Z.mod_pos_bound a p ltac:(lia)).
  pose proof (Z.div_mod b p ltac:(lia)). pose proof (Z.mod_pos_bound b p ltac:(lia)).
  destruct (Z.compare_spec (a `div` p) (b `div` p)).
  - change (String.compare (str (digits n a)) (str (digits n b)) = (a ?= b)).
    rewrite <- (digits_mod n n a), <- (digits_mod n n b) by lia. fold p. rewrite IH by lia.
    destruct (Z.compare_spec a b);
      [apply Z.compare_eq_iff|apply Z.compare_lt_iff|apply Z.compare_gt_iff]; nia.
  - symmetry. apply Z.compare_lt_iff. nia.
  - symmetry. apply Z.compare_gt_iff. nia.
Qed.

(** The padding makes the file system list bucket directories in key order,
    as the comment of [String] wants, for all keys that are not negative. *)
Theorem Key_String_order a b :
  0 ≤ a < 2 ^ 63 → 0 ≤ b < 2 ^ 63 →
  String.compare (Key_String a) (Key_String b) = (a ?= b).
Proof.
  intros Ha Hb. unfold Key_String.
  replace (a <? 0) with false by lia. replace (b <? 0) with false by lia.
  apply (digits_compare 20); lia.
Qed.

Lemma Key_String_order_witness :
  String.compare (Key_String 9) (Key_String 10) = Lt.
Proof. apply (Key_String_order 9 10); lia. Defined.
