(* ===== verification/Vlog.v ===== *)
(** * vlog/vlog.go: the value log

    The memory map is a list of bytes, shared with the file it maps: every
    store goes to both.  A read or a write outside of the map, or after it was
    unmapped, is a panic. *)

From S2P Require Import Prelude Os Item.

(** The page size of the host ([os.Getpagesize]), and the capacity that [append]
    of the Go runtime allocates for a slice of so many elements. *)

Class Host := {
  PageSize : Z;
  PageSize_range : 0 < PageSize ≤ 2 ^ 20;
  append_cap : nat → nat;
  append_cap_ge : ∀ n, (n ≤ append_cap n)%nat;
}.

(** A capacity that is rounded up to a power of two. *)
Definition pow2_cap (n : nat) : nat := (2 ^ Nat.log2_up n)%nat.

Lemma pow2_cap_ge n : (n ≤ pow2_cap n)%nat.
Proof. unfold pow2_cap. destruct n as [|[|n]]; [cbn; lia..|]. apply Nat.log2_up_spec. lia. Qed.

Record Log := mkLog {
  log_path : path;
  log_open : bool;      (* the descriptor is open and the file mapped *)
  log_mmap : list byte;
  log_size : Z;
  log_syncOnWrite : bool;
  log_isEmpty : bool;
}.

Definition set_mmap (m : list byte) (l : Log) : Log :=
  mkLog (log_path l) (log_open l) m (log_size l) (log_syncOnWrite l) (log_isEmpty l).

Definition set_size (n : Z) (l : Log) : Log :=
  mkLog (log_path l) (log_open l) (log_mmap l) n (log_syncOnWrite l) (log_isEmpty l).

Definition set_isEmpty (b : bool) (l : Log) : Log :=
  mkLog (log_path l) (log_open l) (log_mmap l) (log_size l) (log_syncOnWrite l) b.

Definition set_open (b : bool) (l : Log) : Log :=
  mkLog (log_path l) b (log_mmap l) (log_size l) (log_syncOnWrite l) (log_isEmpty l).

Definition mmap_len (l : Log) : Z := Z.of_nat (length (log_mmap l)).

(** ** Access to the map *)

(** [l.mmap[off:off+n]], read *)
Definition mmap_read (l : Log) (off n : Z) : res (list byte) :=
  if log_open l && (0 <=? off) && (0 <=? n) && (off + n <=? mmap_len l)
  then Ok (take (Z.to_nat n) (drop (Z.to_nat off) (log_mmap l)))
  else Panic.

(** [l.mmap[i]] *)
Definition mmap_at (l : Log) (i : Z) : res Z :=
  if log_open l && (0 <=? i) then
    match log_mmap l !! Z.to_nat i with
    | Some b => Ok (Z_of_byte b)
    | None => Panic
    end
  else Panic.

(** The bytes [bs] at offset [off] of [m]. *)
Definition splice (m : list byte) (off : nat) (bs : list byte) : list byte :=
  take off m ++ bs ++ drop (off + length bs) m.

(** A store of [bs] at [l.mmap[off:]] *)
Definition mmap_write (off : Z) (bs : list byte) : M Log unit :=
  l ← get;
  if log_open l && (0 <=? off) && (off + Z.of_nat (length bs) <=? mmap_len l) then
    let m := splice (log_mmap l) (Z.to_nat off) bs in
    put (set_mmap m l) ;;
    modify_os (write_file (log_path l) m)
  else lift Panic.

(** [copy(l.mmap[off:], bs)]: as much as fits, and how much that was *)
Definition mmap_copy (off : Z) (bs : list byte) : M Log Z :=
  l ← get;
  if (0 <=? off) && (off <=? mmap_len l) then
    let n := Z.min (mmap_len l - off) (Z.of_nat (length bs)) in
    mmap_write off (take (Z.to_nat n) bs) ;;
    mret n
  else lift Panic.

Section vlog.
Context `{Host, Unix}.

(** ** Sizes *)

Definition nextSize (size : Z) : Z :=
  if size <? 0 then 0
  else
    let currPages := Z.quot size PageSize in
    let mb := 1024 * 1024 in
    let shift :=
      if 100 * mb <=? size then 7
      else if 10 * mb <=? size then 6
      else if 1 * mb <=? size then 5
      else if 200 * 1024 <=? size then 4
      else 3 in
    int64 (int64 (Z.shiftl (int64 (Z.shiftr currPages shift + 1)) shift) * PageSize).

(** The loop of [shrink], with [n = idx + 1]. *)
Fixpoint shrink_loop (l : Log) (n : nat) : res Z :=
  match n with
  | O => Ok 0
  | S idx =>
      b ← mmap_at l (Z.of_nat idx);
      if b =? 0 then shrink_loop l idx else Ok (Z.of_nat idx + 1)
  end.

Definition shrink (l : Log) : res Z := shrink_loop l (Z.to_nat (log_size l)).

Definition Open {St} (p : path) (syncOnWrite : bool) : M St Log :=
  data ← wrap_err "log: open" (OpenCreate p);
  wrap_err "log: stat" (sys "stat") ;;
  let infoSize := Z.of_nat (length data) in
  let isEmpty := infoSize =? 0 in
  let mmapSize := if isEmpty then nextSize 0 else infoSize in
  (if isEmpty then wrap_err "truncate" (Truncate p (Z.to_nat mmapSize)) else mret tt) ;;
  wrap_err "log: mmap" (sys "mmap") ;;
  let mmap := unix_Mmap (resize_file (Z.to_nat mmapSize) data) mmapSize in
  let l := mkLog p true mmap infoSize syncOnWrite isEmpty in
  size ← lift (shrink l);
  mret (set_size size l).

(** ** Writing *)

Definition writeItem (it : Item) : M Log unit :=
  l ← get;
  let off := log_size l in
  mmap_write off (be_encode 4 (uint32 (blob_len it))) ;;
  let off := int64 (off + 4) in
  mmap_write off (be_encode 8 (uint64 (it_Key it))) ;;
  let off := int64 (off + 8) in
  n ← mmap_copy off (it_Blob it);
  let off := int64 (off + n) in
  mmap_write off [byte_of_Z 255] ;;
  mmap_write (int64 (off + 1)) [byte_of_Z 255] ;;
  modify (set_size (int64 (off + TrailerSize))).

Definition Sync (force : bool) : M Log unit :=
  l ← get;
  if negb (log_syncOnWrite l) && negb force then mret tt
  else sys "msync".

(** The assignment [l.mmap, err = unix.Mremap(l.mmap, n, MREMAP_MAYMOVE)]. *)
Definition remap (n : Z) : M Log unit :=
  r ← attempt (sys "mremap");
  match r with
  | inr _ => modify (λ l, set_mmap (unix_Mremap (log_mmap l) n) l)
  | inl e => modify (λ l, set_mmap (unix_Mremap_failed (log_mmap l) n) l) ;; fail e
  end.

Definition Push (items : Items) : M Log Location :=
  l ← get;
  let addSize := Items_StorageSize items in
  match items with
  | [] => lift Panic (* items[0] *)
  | first :: _ =>
      let loc := mkLocation (it_Key first) (uint64 (log_size l))
                   (uint64 (Z.of_nat (length items))) in
      let nextMmapSize := nextSize (int64 (log_size l + int64 addSize)) in
      (if mmap_len l <? nextMmapSize then
         wrap_err "truncate" (Truncate (log_path l) (Z.to_nat nextMmapSize)) ;;
         wrap_err "remap" (remap nextMmapSize)
       else mret tt) ;;
      each writeItem items ;;
      wrap_err "sync" (Sync false) ;;
      modify (λ l, if log_isEmpty l && (0 <? Z.of_nat (length items))
                   then set_isEmpty false l else l) ;;
      mret loc
  end.

(** [Close] joins the errors of its three calls. *)
Definition join_errs (errs : list (option error)) : option error :=
  match omap id errs with
  | [] => None
  | e :: es => Some (foldl EJoin e es)
  end.

Definition err_of {A} (r : error + A) : option error :=
  match r with inl e => Some e | inr _ => None end.

Definition Close : M Log unit :=
  syncErr ← attempt (sys "msync");
  unmapErr ← attempt (sys "munmap");
  closeErr ← attempt (sys "close");
  modify (set_open false) ;;
  match join_errs [err_of syncErr; err_of unmapErr; err_of closeErr] with
  | Some e => fail e
  | None => mret tt
  end.

Definition IsEmpty (l : Log) : bool := log_isEmpty l.

(** ** Reading *)

(** The loop of [findNextItem]; [fuel] bounds [offSize - idx]. *)
Fixpoint findNextItem_loop (fuel : nat) (l : Log) (offSize idx : Off) : res Off :=
  match fuel with
  | O => NoFuel
  | S fuel =>
      if idx <? uint64 (offSize - 1) then
        b ← mmap_at l idx;
        m ← (if b =? 255 then b' ← mmap_at l (uint64 (idx + 1)); Ok (b' =? 255) else Ok false);
        if m : bool then
          let nextItemIdx := uint64 (idx + 2) in
          if offSize <=? nextItemIdx then Ok offSize else Ok nextItemIdx
        else findNextItem_loop fuel l offSize (uint64 (idx + 1))
      else Ok offSize
  end.

Definition findNextItem (l : Log) (off : Off) : res Off :=
  let offSize := uint64 (log_size l) in
  findNextItem_loop (S (Z.to_nat (log_size l))) l offSize (uint64 (off + 1)).

(** [readItemAt(off, &it)]: the new value of [it], which is the old one when
    there is no room for a header behind [off]. *)
Definition readItemAt (l : Log) (off : Off) (it : Item) : res Item :=
  if log_size l <=? int64 (int64 off + HeaderSize) then Ok it
  else
    h ← mmap_read l off 4;
    let siz := be_decode h in
    k ← mmap_read l (uint64 (off + 4)) 8;
    let key := be_decode k in
    if 64 * 1024 * 1024 <? siz then Err EAllocTooBig
    else if log_size l <? int64 (int64 off + HeaderSize + siz + TrailerSize) then Err EBadOffset
    else
      let blobOff := uint64 (off + HeaderSize) in
      let trailerOff := uint64 (blobOff + siz) in
      t0 ← mmap_at l trailerOff;
      bad ← (if negb (t0 =? 255) then t1 ← mmap_at l (uint64 (trailerOff + 1)); Ok (negb (t1 =? 255))
             else Ok false);
      if bad : bool then Err EMissingTrailer
      else
        blob ← mmap_read l blobOff (trailerOff - blobOff);
        Ok (mkItem (int64 key) blob).
End vlog.

(** ** The bounds of [nextSize] *)

Definition nextSize_shift (size : Z) : Z :=
  let mb := 1024 * 1024 in
  if 100 * mb <=? size then 7
  else if 10 * mb <=? size then 6
  else if 1 * mb <=? size then 5
  else if 200 * 1024 <=? size then 4
  else 3.

Section nextSize.
Context `{Host}.

Lemma nextSize_shift_range size : 3 ≤ nextSize_shift size ≤ 7.
Proof. unfold nextSize_shift. repeat case_match; lia. Qed.

(** The multiple of [2 ^ s] pages above [size]. *)
Lemma round_up_bounds size s :
  0 ≤ size → 0 ≤ s →
  let b := 2 ^ s * PageSize in
  size < (size `div` PageSize `div` 2 ^ s + 1) * b ≤ size + b.
Proof.
  intros Hsize Hs b. pose proof PageSize_range as HP.
  assert (0 < 2 ^ s) by (apply Z.pow_pos_nonneg; lia).
  rewrite Z.div_div by lia. rewrite (Z.mul_comm PageSize). fold b.
  assert (0 < b) by (unfold b; nia).
  pose proof (Z.div_mod size b ltac:(lia)). pose proof (Z.mod_pos_bound size b ltac:(lia)). nia.
Qed.

Lemma nextSize_eq size :
  0 ≤ size < 2 ^ 62 →
  nextSize size =
    (size `div` PageSize `div` 2 ^ nextSize_shift size + 1) * (2 ^ nextSize_shift size * PageSize).
Proof.
  intros Hsize. unfold nextSize. replace (size <? 0) with false by lia.
  fold (nextSize_shift size). pose proof (nextSize_shift_range size) as Hs.
  set (s := nextSize_shift size) in *. pose proof PageSize_range as HP.
  assert (8 ≤ 2 ^ s ≤ 128).
  { change 8 with (2 ^ 3). change 128 with (2 ^ 7). split; apply Z.pow_le_mono_r; lia. }
  rewrite Z.quot_div_nonneg by lia. rewrite Z.shiftr_div_pow2, Z.shiftl_mul_pow2 by lia.
  pose proof (round_up_bounds size s ltac:(lia) ltac:(lia)) as Hb. simpl in Hb.
  set (q := size `div` PageSize `div` 2 ^ s) in *.
  assert (0 ≤ q) by (apply Z.div_pos; [apply Z.div_pos|]; lia).
  assert (2 ^ s * PageSize ≤ 2 ^ 27) by nia.
  rewrite (int64_id (q + 1)) by (unfold is_int64; nia).
  rewrite (int64_id ((q + 1) * 2 ^ s)) by (unfold is_int64; nia).
  rewrite int64_id by (unfold is_int64; nia). lia.
Qed.

Lemma nextSize_room size :
  0 ≤ size < 2 ^ 62 →
  size < nextSize size ≤ size + 128 * PageSize ∧ nextSize size `mod` (8 * PageSize) = 0.
Proof.
  intros Hsize. rewrite nextSize_eq by done.
  pose proof (nextSize_shift_range size) as Hs. set (s := nextSize_shift size) in *.
  pose proof PageSize_range as HP.
  pose proof (round_up_bounds size s ltac:(lia) ltac:(lia)) as Hb. simpl in Hb.
  assert (2 ^ s ≤ 2 ^ 7) by (apply Z.pow_le_mono_r; lia).
  split; [nia|].
  replace s with (3 + (s - 3)) by lia. rewrite Z.pow_add_r by lia.
  set (q := _ + 1). replace (q * _) with ((q * 2 ^ (s - 3)) * (8 * PageSize)) by lia.
  apply Z.mod_mul. lia.
Qed.

(** [nextSize] always leaves room: the new size is larger than the one
    asked for, is a multiple of 8 pages and exceeds the request by at most 128
    pages. *)
Theorem nextSize_bounds size :
  0 ≤ size < 2 ^ 62 →
  size < nextSize size ≤ size + 128 * PageSize ∧ nextSize size `mod` (8 * PageSize) = 0.
Proof. apply nextSize_room. Qed.
End nextSize.

Definition Host_linux : Host := {|
  PageSize := 4096;
  PageSize_range := ltac:(lia);
  append_cap := pow2_cap;
  append_cap_ge := pow2_cap_ge;
|}.
#[local] Existing Instance Host_linux.

Lemma nextSize_bounds_witness :
  nextSize 40000 = 65536 ∧
  (40000 < nextSize 40000 ≤ 40000 + 128 * PageSize ∧ nextSize 40000 `mod` (8 * PageSize) = 0).
Proof. split; [reflexivity|]. apply (nextSize_bounds 40000). lia. Defined.

(** ** What a log holds *)

(** The bytes of one entry of dat.log: size, key, payload and end marker. *)
Definition enc_item (it : Item) : list byte :=
  be_encode 4 (uint32 (blob_len it)) ++ be_encode 8 (uint64 (it_Key it)) ++
  it_Blob it ++ [byte_of_Z 255; byte_of_Z 255].

Definition enc_items (its : Items) : list byte := concat (map enc_item its).

(** The part of the map that was written. *)
Definition contents (l : Log) : list byte := take (Z.to_nat (log_size l)) (log_mmap l).

(** An open log whose size fits its map, which is never empty. *)
Record readable (l : Log) : Prop := {
  rd_open : log_open l = true;
  rd_size : 0 ≤ log_size l ≤ mmap_len l;
  rd_mmap : 0 < mmap_len l ≤ 2 ^ 62;
}.

Definition all_zero (bs : list byte) : Prop := Forall (eq Byte.x00) bs.

(** Moreover the part that was not written yet is zero, and the map is the
    image of its file. *)
Record wf_log (l : Log) (os : OS) : Prop := {
  wf_readable : readable l;
  wf_tail : all_zero (drop (Z.to_nat (log_size l)) (log_mmap l));
  wf_file : read_file os (log_path l) = Some (log_mmap l);
}.

(** ** Lemmas on [splice] *)

Lemma length_splice m off bs :
  (off + length bs ≤ length m)%nat → length (splice m off bs) = length m.
Proof. intros. unfold splice. rewrite !length_app, length_take, length_drop. lia. Qed.

Lemma splice_splice m off a b :
  (off + length a + length b ≤ length m)%nat →
  splice (splice m off a) (off + length a) b = splice m off (a ++ b).
Proof.
  intros Hlen. unfold splice. rewrite (app_assoc (take off m) a).
  rewrite take_app_length' by (rewrite length_app, length_take; lia).
  rewrite (drop_app_ge (take off m ++ a)) by (rewrite length_app, length_take; lia).
  rewrite drop_drop, !length_app, length_take, <- !app_assoc.
  do 4 f_equal. lia.
Qed.

Lemma take_splice m off bs n :
  (off + length bs ≤ length m)%nat → n = (off + length bs)%nat →
  take n (splice m off bs) = take off m ++ bs.
Proof.
  intros Hlen ->. unfold splice. rewrite app_assoc.
  apply take_app_length'. rewrite length_app, length_take. lia.
Qed.

Lemma drop_splice m off bs n :
  (off + length bs ≤ length m)%nat → n = (off + length bs)%nat →
  drop n (splice m off bs) = drop n m.
Proof.
  intros Hlen ->. unfold splice. rewrite app_assoc.
  apply drop_app_length'. rewrite length_app, length_take. lia.
Qed.

Lemma splice_nil m off : (off ≤ length m)%nat → splice m off [] = m.
Proof. intros. unfold splice. simpl. rewrite Nat.add_0_r. apply take_drop. Qed.

Lemma length_enc_item it : Z.of_nat (length (enc_item it)) = storage it.
Proof.
  unfold enc_item, storage, HeaderSize, TrailerSize, blob_len.
  rewrite !length_app, !length_be_encode. simpl. lia.
Qed.

Lemma enc_items_cons it its : enc_items (it :: its) = enc_item it ++ enc_items its.
Proof. done. Qed.

Lemma length_enc_items its : Z.of_nat (length (enc_items its)) = storages its.
Proof.
  induction its as [|it its IH]; [done|].
  by rewrite enc_items_cons, length_app, Nat2Z.inj_add, length_enc_item, IH.
Qed.

Lemma enc_items_app a b : enc_items (a ++ b) = enc_items a ++ enc_items b.
Proof. unfold enc_items. by rewrite map_app, concat_app. Qed.

(** ** Writing *)

(** The log after [bs] was written at its end, and its file. *)
Definition extend (l : Log) (bs : list byte) : Log :=
  set_size (log_size l + Z.of_nat (length bs))
    (set_mmap (splice (log_mmap l) (Z.to_nat (log_size l)) bs) l).

Definition has_room (l : Log) (n : Z) : Prop :=
  log_open l = true ∧ 0 ≤ log_size l ∧ log_size l + n ≤ mmap_len l ∧ mmap_len l ≤ 2 ^ 62.

Lemma mmap_write_spec l os off bs :
  log_open l = true → 0 ≤ off → off + Z.of_nat (length bs) ≤ mmap_len l →
  let m := splice (log_mmap l) (Z.to_nat off) bs in
  mmap_write off bs l os = (Ok tt, set_mmap m l, write_file (log_path l) m os).
Proof.
  intros Ho Hoff Hlen m. unfold mmap_write. run.
  rewrite Ho. replace (0 <=? off) with true by lia.
  by replace (off + Z.of_nat (length bs) <=? mmap_len l) with true by lia.
Qed.

Lemma mmap_copy_spec l os off bs :
  log_open l = true → 0 ≤ off → off + Z.of_nat (length bs) ≤ mmap_len l →
  let m := splice (log_mmap l) (Z.to_nat off) bs in
  mmap_copy off bs l os = (Ok (Z.of_nat (length bs)), set_mmap m l, write_file (log_path l) m os).
Proof.
  intros Ho Hoff Hlen m. unfold mmap_copy. run.
  replace (0 <=? off) with true by lia. replace (off <=? mmap_len l) with true by lia. run.
  rewrite Z.min_r by lia. rewrite take_ge by lia. by rewrite mmap_write_spec by lia.
Qed.

(** Writing [b] right behind [a] is writing [a ++ b]. *)
Lemma splice_behind l os off a b p :
  log_open l = true → 0 ≤ off → p = off + Z.of_nat (length a) →
  p + Z.of_nat (length b) ≤ mmap_len l →
  let m := splice (log_mmap l) (Z.to_nat off) (a ++ b) in
  mmap_write p b (set_mmap (splice (log_mmap l) (Z.to_nat off) a) l)
    (write_file (log_path l) (splice (log_mmap l) (Z.to_nat off) a) os)
  = (Ok tt, set_mmap m l, write_file (log_path l) m os).
Proof.
  intros Ho Hoff -> Hlen m. unfold mmap_len in Hlen.
  rewrite mmap_write_spec; unfold mmap_len; simpl;
    [|done|lia|rewrite length_splice; lia].
  replace (Z.to_nat (off + Z.of_nat (length a))) with (Z.to_nat off + length a)%nat by lia.
  rewrite splice_splice by lia. by rewrite write_file_write_file.
Qed.

Lemma copy_behind l os off a b p :
  log_open l = true → 0 ≤ off → p = off + Z.of_nat (length a) →
  p + Z.of_nat (length b) ≤ mmap_len l →
  let m := splice (log_mmap l) (Z.to_nat off) (a ++ b) in
  mmap_copy p b (set_mmap (splice (log_mmap l) (Z.to_nat off) a) l)
    (write_file (log_path l) (splice (log_mmap l) (Z.to_nat off) a) os)
  = (Ok (Z.of_nat (length b)), set_mmap m l, write_file (log_path l) m os).
Proof.
  intros Ho Hoff -> Hlen m. unfold mmap_len in Hlen.
  rewrite mmap_copy_spec; unfold mmap_len; simpl;
    [|done|lia|rewrite length_splice; lia].
  replace (Z.to_nat (off + Z.of_nat (length a))) with (Z.to_nat off + length a)%nat by lia.
  rewrite splice_splice by lia. by rewrite write_file_write_file.
Qed.

Lemma writeItem_spec it l os :
  has_room l (storage it) →
  let l' := extend l (enc_item it) in
  writeItem it l os = (Ok tt, l', write_file (log_path l) (log_mmap l') os).
Proof.
  intros (Ho & Hs & Hroom & Hmax) l'. unfold writeItem. run.
  pose proof (length_enc_item it) as Hlen. unfold storage, HeaderSize, TrailerSize, blob_len in *.
  rewrite mmap_write_spec by (rewrite ?length_be_encode; lia).
  rewrite (int64_id (log_size l + 4)) by (unfold is_int64; lia).
  rewrite splice_behind by (rewrite ?length_be_encode; lia).
  rewrite (int64_id (log_size l + 4 + 8)) by (unfold is_int64; lia).
  rewrite copy_behind by (rewrite ?length_app, ?length_be_encode; lia).
  rewrite (int64_id (log_size l + 4 + 8 + _)) by (unfold is_int64; lia).
  rewrite splice_behind by (rewrite ?length_app, ?length_be_encode; simpl; lia).
  rewrite (int64_id (log_size l + 4 + 8 + _ + 1)) by (unfold is_int64; lia).
  rewrite splice_behind by (rewrite ?length_app, ?length_be_encode; simpl; lia).
  rewrite int64_id by (unfold is_int64; lia).
  unfold l', extend. rewrite Hlen. unfold enc_item, blob_len.
  rewrite <- !app_assoc. simpl. do 3 f_equal. lia.
Qed.

Lemma extend_app l a b :
  0 ≤ log_size l → log_size l + Z.of_nat (length a) + Z.of_nat (length b) ≤ mmap_len l →
  extend (extend l a) b = extend l (a ++ b).
Proof.
  unfold mmap_len. intros. unfold extend, set_size, set_mmap; simpl.
  rewrite length_app, Nat2Z.inj_add. f_equal; [|by lia].
  replace (Z.to_nat (log_size l + Z.of_nat (length a)))
    with (Z.to_nat (log_size l) + length a)%nat by lia.
  by rewrite splice_splice by lia.
Qed.

Lemma mmap_len_extend l bs :
  0 ≤ log_size l → log_size l + Z.of_nat (length bs) ≤ mmap_len l →
  mmap_len (extend l bs) = mmap_len l.
Proof. unfold mmap_len. intros. simpl. rewrite length_splice; lia. Qed.

Lemma has_room_extend l bs n :
  0 ≤ n → has_room l (Z.of_nat (length bs) + n) → has_room (extend l bs) n.
Proof.
  intros Hn (Ho & Hs & Hroom & Hmax). unfold has_room. rewrite mmap_len_extend by lia.
  change (log_size (extend l bs)) with (log_size l + Z.of_nat (length bs)).
  repeat split; [done|lia..].
Qed.

Lemma write_all_spec its l os :
  its ≠ [] → has_room l (storages its) →
  let l' := extend l (enc_items its) in
  each writeItem its l os = (Ok tt, l', write_file (log_path l) (log_mmap l') os).
Proof.
  destruct its as [|it its]; [done|]. intros _.
  revert it l os. induction its as [|it' its IH]; intros it l os Hroom.
  - cbn [each]. run. rewrite writeItem_spec; [|by rewrite <- (Z.add_0_r (storage it))].
    unfold enc_items. simpl. by rewrite app_nil_r.
  - change (storages (it :: it' :: its)) with (storage it + storages (it' :: its)) in Hroom.
    pose proof (length_enc_item it) as Hl. pose proof (storages_ge (it' :: its)).
    pose proof Hroom as (Ho & Hs & Hr & Hmax).
    remember (it' :: its) as tl. cbn [each]. run. rewrite writeItem_spec by (repeat split; [done|lia..]).
    subst tl. rewrite IH by (apply has_room_extend; [lia|by rewrite Hl]).
    cbv zeta. rewrite extend_app; [|lia|rewrite length_enc_items; lia].
    rewrite <- enc_items_cons. by rewrite write_file_write_file.
Qed.

Lemma contents_extend l bs :
  0 ≤ log_size l → log_size l + Z.of_nat (length bs) ≤ mmap_len l →
  contents (extend l bs) = contents l ++ bs.
Proof.
  unfold mmap_len, contents. intros. simpl. rewrite take_splice by lia. done.
Qed.

(** ** [Push] *)

Section push.
Context `{Host, Unix, !UnixLaws}.

(** The location [Push] returns for [items]. *)
Definition push_loc (l : Log) (items : Items) : Location :=
  mkLocation (it_Key (default zero_Item (head items))) (log_size l) (Z.of_nat (length items)).

(** [l'] is [l] with [items] appended to what it holds. *)
Record pushed (l : Log) (items : Items) (l' : Log) (os' : OS) : Prop := {
  pushed_contents : contents l' = contents l ++ enc_items items;
  pushed_size : log_size l' = log_size l + storages items;
  pushed_wf : wf_log l' os';
  pushed_path : log_path l' = log_path l;
  pushed_sync : log_syncOnWrite l' = log_syncOnWrite l;
}.

Lemma wf_log_same_fs l os os' : os_fs os' = os_fs os → wf_log l os → wf_log l os'.
Proof. intros Hfs [? ? ?]. split; try done. by rewrite (read_file_same_fs os). Qed.

(** The map of [l] grown to [n] bytes. *)
Definition grown (l : Log) (n : Z) : Log := set_mmap (resize_file (Z.to_nat n) (log_mmap l)) l.

(** All the ways a push can end.  When the map is lost, the file is as it would
    have been with the map in place. *)
Inductive push_outcome (l : Log) (items : Items) : res Location → Log → OS → Prop :=
  | push_done l' os' :
      pushed l items l' os' → log_isEmpty l' = false →
      push_outcome l items (Ok (push_loc l items)) l' os'
  | push_not_grown os' :
      wf_log l os' →
      push_outcome l items (Err (EWrap "truncate" (EIO "truncate"))) l os'
  | push_unmapped n os' :
      mmap_len l ≤ n → wf_log (grown l n) os' →
      push_outcome l items (Err (EWrap "remap" (EIO "mremap")))
        (set_mmap (unix_Mremap_failed (log_mmap l) n) l) os'
  | push_not_synced l' os' :
      pushed l items l' os' → log_isEmpty l' = log_isEmpty l →
      push_outcome l items (Err (EWrap "sync" (EIO "msync"))) l' os'.

Lemma resize_file_grow n data :
  (length data ≤ n)%nat → resize_file n data = data ++ replicate (n - length data) Byte.x00.
Proof. intros. unfold resize_file. by rewrite take_ge by lia. Qed.

Lemma Truncate_spec {St} (s : St) p n os data :
  read_file os p = Some data →
  ∃ r os', Truncate p n s os = (r, s, os') ∧
    ((r = Err (EIO "truncate") ∧ os_fs os' = os_fs os) ∨
     (r = Ok tt ∧ os_fs os' = os_fs (write_file p (resize_file n data) os))) ∧
    (os_faults os = [] → r = Ok tt ∧ os_faults os' = []).
Proof.
  intros Hf. unfold Truncate. run. sys_case r os1.
  - rewrite (read_file_same_fs os os1), Hf by done. run. eexists _, _. split; [done|].
    split; [right; split; [done|by apply write_file_same_fs]|].
    rewrite os_faults_write_file. intuition.
  - eexists _, _. split; [done|]. split; [by left|]. intros Hno. by destruct (Hnf Hno).
Qed.

(** Growing file and map: all three outcomes. *)
Lemma grow_spec l os n :
  wf_log l os → mmap_len l ≤ n ≤ 2 ^ 62 →
  ∃ r l' os',
    (wrap_err "truncate" (Truncate (log_path l) (Z.to_nat n)) ;; wrap_err "remap" (remap n)) l os
      = (r, l', os') ∧
    only_files (eq (log_path l)) os os' ∧
    ((r = Ok tt ∧ l' = grown l n ∧ wf_log (grown l n) os') ∨
     (r = Err (EWrap "truncate" (EIO "truncate")) ∧ l' = l ∧ wf_log l os') ∨
     (r = Err (EWrap "remap" (EIO "mremap")) ∧
      l' = set_mmap (unix_Mremap_failed (log_mmap l) n) l ∧ wf_log (grown l n) os')) ∧
    (os_faults os = [] → r = Ok tt).
Proof.
  intros Hwf Hn. pose proof Hwf as [[Ho Hs Hm] Hz Hf]. unfold wrap_err. run.
  destruct (Truncate_spec l (log_path l) (Z.to_nat n) os _ Hf)
    as (r1 & os1 & -> & [[-> Hfs1]|[-> Hfs1]] & Hnf1).
  { eexists _, _, _. split; [done|].
    assert (os_faults os = [] → False) as Hno by (intros E; by destruct (Hnf1 E)).
    split; [apply only_files_same_fs; [done|by intros ?%Hno]|]. split; [|by intros ?%Hno].
    right; left. split_and!; [done..|]. by apply (wf_log_same_fs _ os). }
  assert (only_files (eq (log_path l)) os os1) as Hof1.
  { split; [|by intros E; destruct (Hnf1 E)]. intros q Hq. rewrite Hfs1. by apply write_file_other. }
  assert (mmap_len (grown l n) = n) as Hlen.
  { unfold mmap_len in *. cbn. unfold resize_file. rewrite length_app, length_take, length_replicate. lia. }
  assert (∀ os2, os_fs os2 = os_fs os1 → wf_log (grown l n) os2) as Hwf2.
  { intros os2 Hfs2. split; [split; [done|rewrite Hlen; simpl; lia|rewrite Hlen; lia]| |].
    - unfold mmap_len in *. cbn. unfold all_zero in *. rewrite resize_file_grow by lia.
      rewrite drop_app_le by lia. apply Forall_app; split; [done|]. by apply Forall_replicate.
    - rewrite (read_file_same_fs os1), (read_file_same_fs _ os1 _ Hfs1) by done. by eapply read_write_file. }
  unfold remap, attempt. run. sys_case r2 os2.
  - eexists _, _, _. split; [done|].
    assert (unix_Mremap (log_mmap l) n = resize_file (Z.to_nat n) (log_mmap l)) as ->.
    { rewrite unix_Mremap_grow, resize_file_grow by (unfold mmap_len in *; lia). done. }
    split; [transitivity os1; [done|apply only_files_same_fs; [done|tauto]]|].
    split; [|done]. left. split_and!; [done..|]. by apply Hwf2.
  - eexists _, _, _. split; [done|].
    assert (os_faults os = [] → False) as Hno
      by (intros E; destruct (Hnf1 E) as [_ E1]; by destruct (Hnf E1)).
    split; [transitivity os1; [done|apply only_files_same_fs; [done|]]|].
    + intros E1. by destruct (Hnf E1).
    + split; [|by intros ?%Hno]. right; right. split_and!; [done..|]. by apply Hwf2.
Qed.
End push.

Section push_theorem.
Context `{Host, Unix, !UnixLaws}.

Lemma contents_grown l n :
  0 ≤ log_size l ≤ mmap_len l → mmap_len l ≤ n → contents (grown l n) = contents l.
Proof.
  unfold mmap_len, contents. intros. cbn. rewrite resize_file_grow by lia.
  rewrite take_app_le by lia. done.
Qed.

(** Writing the items and syncing, once the map is large enough. *)
Lemma write_and_sync_spec l os items :
  items ≠ [] → wf_log l os → has_room l (storages items) →
  let m : M Log Location :=
    each writeItem items ;;
    wrap_err "sync" (Sync false) ;;
    modify (λ l, if log_isEmpty l && (0 <? Z.of_nat (length items))
                 then set_isEmpty false l else l) ;;
    mret (push_loc l items) in
  ∃ r l' os', m l os = (r, l', os') ∧
    pushed l items l' os' ∧ only_files (eq (log_path l)) os os' ∧
    ((r = Ok (push_loc l items) ∧ log_isEmpty l' = false) ∨
     (r = Err (EWrap "sync" (EIO "msync")) ∧ log_isEmpty l' = log_isEmpty l)) ∧
    (os_faults os = [] → r = Ok (push_loc l items)).
Proof.
  intros Hne [[Ho Hs Hm] Hz Hf] Hroom m. unfold m, wrap_err, Sync. run.
  rewrite write_all_spec by done. cbv zeta.
  set (l1 := extend l (enc_items items)). set (os1 := write_file _ _ os).
  pose proof (length_enc_items items) as Hlen. destruct Hroom as (_ & _ & Hr & _).
  assert (only_files (eq (log_path l)) os os1) as Hof by apply only_files_write.
  assert (log_size l1 = log_size l + storages items) as Hsz by (cbn; lia).
  assert (mmap_len l1 = mmap_len l) as Hml by (apply mmap_len_extend; lia).
  assert (∀ os', os_fs os' = os_fs os1 → pushed l items l1 os') as Hp.
  { intros os' Hfs. split; try done.
    - apply contents_extend; lia.
    - split; [split; [done|rewrite Hml, Hsz; pose proof (storages_ge items); lia|by rewrite Hml]| |].
      { unfold mmap_len in *. cbn. rewrite drop_splice by lia.
        replace (Z.to_nat (log_size l + _))
          with (Z.to_nat (log_size l) + length (enc_items items))%nat by lia.
        rewrite <- drop_drop. by apply Forall_drop. }
      rewrite (read_file_same_fs os1) by done. by eapply read_write_file. }
  assert (∀ os', pushed l items l1 os' → pushed l items (set_isEmpty false l1) os') as Hp'.
  { intros os' [? ? [[? ? ?] ? ?] ? ?]. by split. }
  set (l2 := if log_isEmpty l1 && (0 <? Z.of_nat (length items)) then set_isEmpty false l1 else l1).
  assert (log_isEmpty l2 = false ∧ ∀ os', pushed l items l1 os' → pushed l items l2 os') as [He Hp2].
  { unfold l2. destruct items as [|it items]; [done|]. simpl length.
    replace (0 <? Z.of_nat (S (length items))) with true by lia.
    destruct (log_isEmpty l1) eqn:E; simpl; [|done]. split; [done|by apply Hp']. }
  destruct (log_syncOnWrite l1) eqn:Esync; run.
  - sys_case r os2.
    + eexists _, _, _. split; [done|]. split; [by apply Hp2, Hp|]. split; [|by auto].
      transitivity os1; [done|]. apply only_files_same_fs; tauto.
    + eexists _, _, _. split; [done|]. split; [by apply Hp|].
      assert (os_faults os = [] → False) as Hno.
      { intros E. destruct Hof as [_ Hof]. by destruct (Hnf (Hof E)). }
      split; [|split; [by right|by intros ?%Hno]]. transitivity os1; [done|].
      apply only_files_same_fs; [done|]. intros E. by destruct (Hnf E).
  - eexists _, _, _. split; [done|]. split; [by apply Hp2, Hp|]. by auto.
Qed.

Lemma Push_unfold l os items :
  items ≠ [] → is_int64 (storages items) → is_int64 (log_size l + storages items) →
  0 ≤ log_size l → Z.of_nat (length items) < 2 ^ 64 →
  let n := nextSize (log_size l + storages items) in
  Push items l os =
    ((if mmap_len l <? n then
        wrap_err "truncate" (Truncate (log_path l) (Z.to_nat n)) ;; wrap_err "remap" (remap n)
      else mret tt) ;;
     each writeItem items ;;
     wrap_err "sync" (Sync false) ;;
     modify (λ l, if log_isEmpty l && (0 <? Z.of_nat (length items))
                  then set_isEmpty false l else l) ;;
     mret (push_loc l items)) l os.
Proof.
  intros Hne ????. cbv zeta. pose proof (storages_ge items).
  assert (log_size l < 2 ^ 63) by (unfold is_int64 in *; lia).
  assert (storages items < 2 ^ 64) by (unfold is_int64 in *; lia).
  unfold Push. run.
  rewrite Items_StorageSize_spec, (int64_id (storages items)), (int64_id (log_size l + _)) by (done || lia).
  destruct items as [|it items]; [done|].
  by rewrite (uint64_id (log_size l)), (uint64_id (Z.of_nat _)) by lia.
Qed.

Lemma Push_outcome_holds l os items :
  wf_log l os → items ≠ [] → log_size l + storages items ≤ 2 ^ 61 →
  ∃ r l' os', Push items l os = (r, l', os') ∧
    push_outcome l items r l' os' ∧ only_files (eq (log_path l)) os os' ∧
    (os_faults os = [] → r = Ok (push_loc l items)).
Proof.
  intros Hwf Hne Hmax. pose proof Hwf as [[Ho Hs Hm] Hz Hf]. pose proof (storages_ge items) as Hge.
  rewrite Push_unfold by (unfold is_int64; lia || done). cbv zeta.
  pose proof (nextSize_room (log_size l + storages items) ltac:(lia)) as [Hnext _].
  pose proof PageSize_range as HP. set (n := nextSize _) in *.
  destruct (Z.ltb_spec (mmap_len l) n) as [Hgrow|Hfitems].
  - pose proof (grow_spec l os n Hwf ltac:(lia)) as (r1 & l1 & os1 & Heq & Hof & Hr & Hno).
    run in Heq. run. rewrite Heq. clear Heq. run.
    destruct Hr as [(-> & -> & Hwf1)|[(-> & -> & Hwf1)|(-> & -> & Hwf1)]].
    + assert (mmap_len (grown l n) = n) as Hlen.
      { unfold mmap_len in *. cbn. unfold resize_file.
        rewrite length_app, length_take, length_replicate. lia. }
      destruct (write_and_sync_spec (grown l n) os1 items) as (r & l' & os' & Heq & Hp & Hof' & Hr & Hok);
        [done|done|split_and!; cbn -[storages]; lia|].
      run in Heq. change (push_loc (grown l n) items) with (push_loc l items) in *.
      run. rewrite Heq. eexists _, _, _. split; [done|].
      assert (pushed l items l' os') as Hp'.
      { destruct Hp as [Hc ? ? ? ?]. split; try done. by rewrite Hc, contents_grown by lia. }
      split; [destruct Hr as [[-> He]|[-> He]]; [by apply push_done|by apply push_not_synced]|].
      split; [by transitivity os1|]. intros E. apply Hok. by apply Hof.
    + eexists _, _, _. split; [done|]. split; [by apply push_not_grown|]. split; [done|by intros ?%Hno].
    + eexists _, _, _. split; [done|]. split; [apply push_unmapped; [lia|done]|]. split; [done|by intros ?%Hno].
  - destruct (write_and_sync_spec l os items) as (r & l' & os' & Heq & Hp & Hof & Hr & Hok);
      [done|done|split_and!; cbn -[storages]; lia|].
    run in Heq. run. rewrite Heq. eexists _, _, _. split; [done|].
    split; [destruct Hr as [[-> He]|[-> He]]; [by apply push_done|by apply push_not_synced]|by auto].
Qed.

(** C36. [Push] on a well-formed log ends in one of four ways, whatever system
    calls fail: done (the items are appended, the log stays well-formed and the
    returned location describes them), not grown (nothing changed), unmapped
    (nothing is lost in the file), or written but not synced.  It touches no
    other file, never panics, and succeeds when no call fails. *)
Theorem vlog_Push_outcome l os items :
  wf_log l os → items ≠ [] → log_size l + storages items ≤ 2 ^ 61 →
  ∃ r l' os', Push items l os = (r, l', os') ∧
    push_outcome l items r l' os' ∧ only_files (eq (log_path l)) os os' ∧
    (os_faults os = [] → r = Ok (push_loc l items)).
Proof. apply Push_outcome_holds. Qed.
End push_theorem.

(** ** Reading *)

(** What [Push] may be given so that it can be read back: keys are [int64] and
    payloads have at most 64 MiB. *)
Definition valid_item (it : Item) : Prop :=
  is_int64 (it_Key it) ∧ blob_len it ≤ 64 * 1024 * 1024.

(** The [n] bytes from offset [off] on. *)
Definition segment (m : list byte) (off n : Z) : list byte :=
  take (Z.to_nat n) (drop (Z.to_nat off) m).

(** The items [its] are stored one after the other from offset [off] on. *)
Definition items_at (l : Log) (off : Off) (its : Items) : Prop :=
  0 ≤ off ∧ off + storages its ≤ log_size l ∧
  segment (log_mmap l) off (storages its) = enc_items its.

Lemma segment_app m off n a b :
  segment m off n = a ++ b → 0 ≤ off →
  segment m off (Z.of_nat (length a)) = a ∧
  segment m (off + Z.of_nat (length a)) (Z.of_nat (length b)) = b.
Proof.
  unfold segment. intros Hseg Hoff. rewrite !Nat2Z.id.
  replace (Z.to_nat (off + Z.of_nat (length a))) with (Z.to_nat off + length a)%nat by lia.
  rewrite <- drop_drop. set (x := drop (Z.to_nat off) m) in *.
  pose proof (f_equal length Hseg) as Hlen. rewrite length_take, length_app in Hlen. split.
  - apply (f_equal (take (length a))) in Hseg.
    by rewrite take_take, Nat.min_l, take_app_length in Hseg by lia.
  - apply (f_equal (drop (length a))) in Hseg.
    rewrite drop_app_length, skipn_firstn_comm in Hseg.
    apply (f_equal (take (length b))) in Hseg.
    by rewrite take_take, Nat.min_l, firstn_all in Hseg by lia.
Qed.

Lemma segment_contents l off n :
  0 ≤ off → 0 ≤ n → off + n ≤ log_size l →
  segment (contents l) off n = segment (log_mmap l) off n.
Proof.
  intros. unfold segment, contents. rewrite skipn_firstn_comm, take_take. f_equal. lia.
Qed.

Section reading.
Context (l : Log) (Hl : readable l).

Lemma length_contents : Z.of_nat (length (contents l)) = log_size l.
Proof. destruct Hl as [_ ? _]. unfold contents, mmap_len in *. rewrite length_take. lia. Qed.

(** The items of a log are stored from its start on. *)
Lemma contents_items_at its : contents l = enc_items its → items_at l 0 its ∧ log_size l = storages its.
Proof.
  intros Hc. destruct Hl as [_ [Hs _] _]. pose proof (length_enc_items its) as Hlen. rewrite <- Hc, length_contents in Hlen.
  split; [|done]. split; [done|]. split; [lia|]. rewrite <- segment_contents by lia. rewrite Hc. unfold segment.
  by rewrite <- length_enc_items, drop_0, Nat2Z.id, firstn_all.
Qed.

Lemma mmap_read_segment off n :
  0 ≤ off → 0 ≤ n → off + n ≤ log_size l → mmap_read l off n = Ok (segment (log_mmap l) off n).
Proof.
  intros. destruct Hl as [Ho Hs Hm]. unfold mmap_read. rewrite Ho.
  by replace (true && (0 <=? off) && (0 <=? n) && (off + n <=? mmap_len l)) with true by lia.
Qed.

Lemma mmap_at_segment off b :
  0 ≤ off → off + 1 ≤ log_size l → segment (log_mmap l) off 1 = [b] →
  mmap_at l off = Ok (Z_of_byte b).
Proof.
  intros Hoff Hlt Hseg. destruct Hl as [Ho Hs Hm]. unfold mmap_at. rewrite Ho.
  replace (true && (0 <=? off)) with true by lia.
  unfold segment in Hseg. change (Z.to_nat 1) with 1%nat in Hseg.
  apply (f_equal (.!! 0%nat)) in Hseg. rewrite lookup_take_lt, lookup_drop, Nat.add_0_r in Hseg by lia.
  by rewrite Hseg.
Qed.

(** An entry for [it] at offset [off] whose end marker is [b1 b2]. *)
Definition entry_at (off : Off) (it : Item) (b1 b2 : byte) : Prop :=
  0 ≤ off ∧ off + storage it ≤ log_size l ∧
  segment (log_mmap l) off (storage it) =
    be_encode 4 (uint32 (blob_len it)) ++ be_encode 8 (uint64 (it_Key it)) ++
    it_Blob it ++ [b1; b2].

(** The fields of such an entry. *)
Lemma entry_fields off it b1 b2 :
  entry_at off it b1 b2 →
  0 ≤ off ∧ off + 14 + blob_len it ≤ log_size l ∧
  segment (log_mmap l) off 4 = be_encode 4 (uint32 (blob_len it)) ∧
  segment (log_mmap l) (off + 4) 8 = be_encode 8 (uint64 (it_Key it)) ∧
  segment (log_mmap l) (off + 12) (blob_len it) = it_Blob it ∧
  segment (log_mmap l) (off + 12 + blob_len it) 1 = [b1] ∧
  segment (log_mmap l) (off + 12 + blob_len it + 1) 1 = [b2].
Proof.
  intros (Hoff & Hend & Hseg). pose proof (blob_len_nonneg it) as Hb.
  destruct (segment_app _ _ _ _ _ Hseg Hoff) as [Hsiz Hseg1].
  rewrite length_be_encode in Hsiz, Hseg1.
  destruct (segment_app _ _ _ _ _ Hseg1 ltac:(lia)) as [Hk Hseg2].
  rewrite length_be_encode in Hk, Hseg2.
  destruct (segment_app _ _ _ _ _ Hseg2 ltac:(lia)) as [Hbl Hseg3].
  destruct (segment_app _ _ _ [_] [_] Hseg3 ltac:(lia)) as [Hf1 Hf2].
  unfold storage, HeaderSize, TrailerSize in *.
  replace (off + 12) with (off + Z.of_nat 4 + Z.of_nat 8) by lia.
  split_and!; try done. lia.
Qed.

Definition is_marker (b : byte) : bool := Z_of_byte b =? 255.

(** The check of the end marker. *)
Lemma trailer_check off it b1 b2 {A} (k : bool → res A) :
  entry_at off it b1 b2 →
  (t0 ← mmap_at l (off + 12 + blob_len it);
   bad ← (if negb (t0 =? 255)
          then t1 ← mmap_at l (uint64 (off + 12 + blob_len it + 1)); Ok (negb (t1 =? 255))
          else Ok false);
   k bad) = k (negb (is_marker b1) && negb (is_marker b2)).
Proof.
  intros (Hoff & Hend & _ & _ & _ & Hf1 & Hf2)%entry_fields.
  pose proof Hl as [Ho Hs Hm]. pose proof (blob_len_nonneg it) as Hb.
  rewrite (mmap_at_segment (off + 12 + blob_len it) b1) by (done || lia).
  cbn [mbind res_bind]. unfold is_marker.
  destruct (Z_of_byte b1 =? 255); cbn [negb mbind res_bind andb]; [done|].
  rewrite uint64_id by lia. rewrite (mmap_at_segment _ b2) by (done || lia). done.
Qed.

Lemma readItemAt_entry_cases off it b1 b2 it0 :
  entry_at off it b1 b2 → is_int64 (it_Key it) → blob_len it < 2 ^ 32 →
  readItemAt l off it0 =
    if 64 * 1024 * 1024 <? blob_len it then Err EAllocTooBig
    else if negb (is_marker b1) && negb (is_marker b2) then Err EMissingTrailer
    else Ok it.
Proof.
  intros He Hkey Hblob. pose proof (entry_fields _ _ _ _ He) as (Hoff & Hend & Hsiz & Hk & Hbl & _).
  pose proof Hl as [Ho Hs Hm]. pose proof (blob_len_nonneg it) as Hb.
  unfold readItemAt, HeaderSize, TrailerSize.
  rewrite (int64_id off), (int64_id (off + 12)) by (unfold is_int64; lia).
  replace (log_size l <=? off + 12) with false by lia.
  rewrite (mmap_read_segment off 4) by lia. rewrite Hsiz. cbn [mbind res_bind].
  rewrite (uint64_id (off + 4)), (mmap_read_segment (off + 4) 8) by lia.
  rewrite Hk. cbn [mbind res_bind]. rewrite !be_decode_encode.
  change (256 ^ Z.of_nat 4) with (2 ^ 32). change (256 ^ Z.of_nat 8) with (2 ^ 64).
  rewrite (uint32_id (blob_len it)), Z.mod_small by lia.
  destruct (64 * 1024 * 1024 <? blob_len it); [done|].
  rewrite int64_id by (unfold is_int64; lia).
  replace (log_size l <? off + 12 + blob_len it + 2) with false by lia.
  rewrite (uint64_id (off + 12)), (uint64_id (off + 12 + _)) by lia.
  rewrite (trailer_check _ _ _ _ _ He). destruct (_ && _); [done|].
  replace (off + 12 + blob_len it - (off + 12)) with (blob_len it) by lia.
  rewrite mmap_read_segment by lia. rewrite Hbl. cbn [mbind res_bind].
  unfold uint64. rewrite Z.mod_mod by lia.
  fold (uint64 (it_Key it)). rewrite int64_uint64 by done. by destruct it.
Qed.

(** [readItemAt] on a completely stored entry: a payload above 64 MiB is
    refused, and so is an entry of whose end marker both bytes are wrong;
    otherwise the item is returned, even if one of the two bytes is wrong. *)
Theorem readItemAt_entry off it b1 b2 it0 :
  entry_at off it b1 b2 → is_int64 (it_Key it) → blob_len it < 2 ^ 32 →
  readItemAt l off it0 =
    if 64 * 1024 * 1024 <? blob_len it then Err EAllocTooBig
    else if negb (is_marker b1) && negb (is_marker b2) then Err EMissingTrailer
    else Ok it.
Proof. apply readItemAt_entry_cases. Qed.

Lemma items_at_entry off it :
  items_at l off [it] → entry_at off it (byte_of_Z 255) (byte_of_Z 255).
Proof.
  unfold items_at, entry_at, enc_items. cbn [map concat].
  change (storages [it]) with (storage it + 0). by rewrite app_nil_r, Z.add_0_r.
Qed.

(** An item that was pushed is read back. *)
Lemma readItemAt_item off it it0 :
  items_at l off [it] → valid_item it → readItemAt l off it0 = Ok it.
Proof.
  intros He%items_at_entry [Hk Hb]. rewrite (readItemAt_entry_cases _ _ _ _ _ He) by (done || lia).
  replace (64 * 1024 * 1024 <? blob_len it) with false by lia.
  unfold is_marker. by rewrite Z_of_byte_of_Z.
Qed.
End reading.

(** ** Stored items stay where they are *)

Lemma items_at_app l off a b :
  items_at l off (a ++ b) ↔
  items_at l off a ∧ items_at l (off + storages a) b ∧ off + storages a + storages b ≤ log_size l.
Proof.
  unfold items_at. rewrite storages_app, enc_items_app.
  pose proof (storages_ge a). pose proof (storages_ge b).
  pose proof (length_enc_items a) as Ha. pose proof (length_enc_items b) as Hb. split.
  - intros (Hoff & Hend & Hseg). destruct (segment_app _ _ _ _ _ Hseg Hoff) as [H1 H2].
    rewrite Ha in H1, H2. rewrite Hb in H2. split_and!; done || lia.
  - intros ((Hoff & _ & H1) & (_ & _ & H2) & Hend). split_and!; [done|lia|].
    unfold segment in *. rewrite <- H1, <- H2.
    replace (Z.to_nat (off + storages a)) with (Z.to_nat off + Z.to_nat (storages a))%nat by lia.
    rewrite <- drop_drop, take_take_drop. f_equal. lia.
Qed.

Lemma items_at_cons l off it its :
  items_at l off (it :: its) → items_at l off [it] ∧ items_at l (off + storage it) its.
Proof.
  change (it :: its) with ([it] ++ its). rewrite items_at_app.
  change (storages [it]) with (storage it + 0). rewrite Z.add_0_r. tauto.
Qed.

(** Appending to what a log holds keeps everything below its old end. *)
Lemma segment_prefix l l' x off n :
  readable l → contents l' = contents l ++ x → log_size l ≤ log_size l' →
  0 ≤ off → 0 ≤ n → off + n ≤ log_size l →
  segment (log_mmap l') off n = segment (log_mmap l) off n.
Proof.
  intros Hl Hc Hs Hoff Hn Hend.
  rewrite <- (segment_contents l'), <- (segment_contents l), Hc by lia.
  pose proof (length_contents l Hl). unfold segment.
  rewrite drop_app_le by lia. rewrite take_app_le; [done|]. rewrite length_drop. lia.
Qed.

Lemma items_at_pushed l items l' os' off its :
  readable l → pushed l items l' os' → items_at l off its → items_at l' off its.
Proof.
  intros Hl [Hc Hs Hwf _ _] (Hoff & Hend & Hseg).
  pose proof (storages_ge items). pose proof (storages_ge its).
  split_and!; [done|lia|]. by rewrite (segment_prefix l l' (enc_items items)) by (done || lia).
Qed.

(** The pushed items are at the old end of the log. *)
Lemma items_at_new l items l' os' :
  readable l → pushed l items l' os' → items_at l' (log_size l) items.
Proof.
  intros Hl [Hc Hs Hwf _ _]. pose proof Hl as [_ ? _]. pose proof (storages_ge items).
  split_and!; [lia|lia|]. rewrite <- segment_contents by lia. rewrite Hc.
  pose proof (length_contents l Hl) as Hlen. unfold segment.
  rewrite drop_app_length' by lia. rewrite <- length_enc_items, Nat2Z.id. by rewrite take_ge.
Qed.

(** ** Opening *)

(** A log whose last entry ends in a marker (or that is empty). *)
Definition ends_marked (bs : list byte) : Prop :=
  bs = [] ∨ ∃ bs', bs = bs' ++ [byte_of_Z 255].

Lemma enc_items_marked its : ends_marked (enc_items its).
Proof.
  destruct its as [|it its] using rev_ind; [by left|right].
  rewrite enc_items_app. unfold enc_items at 2. simpl. unfold enc_item.
  eexists (enc_items its ++ be_encode 4 _ ++ be_encode 8 _ ++ it_Blob it ++ [byte_of_Z 255]).
  rewrite app_nil_r. rewrite <- !app_assoc. done.
Qed.

Lemma mmap_at_lookup l i b :
  log_open l = true → log_mmap l !! i = Some b → mmap_at l (Z.of_nat i) = Ok (Z_of_byte b).
Proof.
  intros Ho Hb. unfold mmap_at. rewrite Ho, Nat2Z.id, Hb.
  by replace (true && (0 <=? Z.of_nat i)) with true by lia.
Qed.

Lemma shrink_loop_spec l n c z :
  log_open l = true → log_mmap l = c ++ z → all_zero z → ends_marked c →
  (length c ≤ n ≤ length (c ++ z))%nat →
  shrink_loop l n = Ok (Z.of_nat (length c)).
Proof.
  intros Ho Hm Hz Hc. induction n as [|n IH]; intros Hn; cbn [shrink_loop].
  { f_equal. lia. }
  rewrite length_app in Hn, IH.
  destruct (decide (length c = S n)) as [Heq|Hne].
  - destruct Hc as [->|[c' ->]]; [done|]. rewrite length_app in Heq. simpl in Heq.
    assert (length c' = n) as Hlen by lia. subst n.
    rewrite (mmap_at_lookup l _ (byte_of_Z 255)); [|done|].
    + cbn [mbind res_bind]. rewrite Z_of_byte_of_Z. cbn. f_equal. rewrite length_app. simpl. lia.
    + rewrite Hm, <- app_assoc. by apply list_lookup_middle.
  - destruct (lookup_lt_is_Some_2 z (n - length c)) as [b Hb]; [lia|].
    rewrite (mmap_at_lookup l _ b); [|done|].
    + cbn [mbind res_bind]. unfold all_zero in Hz. rewrite Forall_lookup in Hz.
      rewrite <- (Hz _ _ Hb). cbn. apply IH. lia.
    + rewrite Hm, lookup_app_r by lia. done.
Qed.

Section reopen.
Context `{Host, Unix, !UnixLaws}.

Lemma Open_existing {St} (s : St) l os its sync :
  wf_log l os → contents l = enc_items its → os_faults os = [] →
  Open (log_path l) sync s os =
    (Ok (mkLog (log_path l) true (log_mmap l) (log_size l) sync false), s, os).
Proof.
  intros [[Ho Hs Hm] Hz Hf] Hc Hno. unfold mmap_len in *.
  unfold read_file in Hf. destruct (os_fs os !! log_path l) as [[data|]|] eqn:Efs; try done.
  injection Hf as ->.
  unfold Open, wrap_err, OpenCreate. sys_ok. rewrite Efs. sys_ok.
  replace (Z.of_nat (length (log_mmap l)) =? 0) with false by lia. sys_ok.
  rewrite Nat2Z.id. unfold resize_file. rewrite firstn_all, Nat.sub_diag, app_nil_r.
  rewrite unix_Mmap_full. unfold shrink. cbn [log_size]. rewrite Nat2Z.id.
  rewrite (shrink_loop_spec _ _ (contents l) (drop (Z.to_nat (log_size l)) (log_mmap l)));
    [|done|by unfold contents; rewrite take_drop|done|rewrite Hc; apply enc_items_marked|].
  - unfold contents. rewrite length_take. do 3 f_equal. unfold set_size; cbn. f_equal. lia.
  - unfold contents. rewrite take_drop, length_take. lia.
Qed.

Lemma Truncate_ok {St} (s : St) (p : path) n data os :
  os_faults os = [] → os_fs os !! p = Some (NFile data) →
  Truncate p n s os = (Ok tt, s, set_fs (<[p := NFile (resize_file n data)]> (os_fs os)) os).
Proof.
  intros Hno Hf. unfold Truncate, read_file, write_file. sys_ok. rewrite Hf. run. by rewrite Hf.
Qed.

Lemma nextSize_fresh : 0 < nextSize 0 ≤ 2 ^ 62.
Proof. pose proof (nextSize_room 0 ltac:(lia)). pose proof PageSize_range. lia. Qed.

(** A file that is not there yet is created, and a map with room follows. *)
Lemma Open_fresh {St} (s : St) (p : path) os sync :
  os_fs os !! p = None → parent_exists os p = true → os_faults os = [] →
  ∃ l os', Open p sync s os = (Ok l, s, os') ∧ wf_log l os' ∧ contents l = [] ∧ log_path l = p ∧
    log_isEmpty l = true ∧ only_files (eq p) os os' ∧ os_faults os' = [].
Proof.
  intros Hnone Hpar Hno. unfold Open, wrap_err, OpenCreate. sys_ok. rewrite Hnone, Hpar. sys_ok.
  pose proof nextSize_fresh as Hroom.
  change (Z.of_nat (length (@nil byte))) with 0. change (0 =? 0) with true. cbv iota.
  set (n := nextSize 0) in *. set (os1 := set_fs _ os). assert (os_faults os1 = []) as Hno1 by done.
  cbv beta. rewrite (Truncate_ok _ _ _ []) by (done || unfold os1; cbn; apply lookup_insert_eq).
  set (os2 := set_fs _ os1). assert (os_faults os2 = []) as Hno2 by done.
  sys_ok. assert (resize_file (Z.to_nat n) [] = replicate (Z.to_nat n) Byte.x00) as Hz
    by (unfold resize_file; rewrite firstn_nil; cbn; by rewrite Nat.sub_0_r).
  rewrite Hz. set (m := replicate (Z.to_nat n) Byte.x00) in *.
  assert (n = Z.of_nat (length m)) as Hlen by (unfold m; rewrite length_replicate; lia).
  assert (unix_Mmap m n = m) as Hmap by (rewrite Hlen; apply unix_Mmap_full).
  rewrite Hmap. eexists _, os2. split; [done|]. split_and!; try done.
  - split; [split; cbn; [done|split; [done|unfold mmap_len; cbn; lia]|unfold mmap_len; cbn; lia]| |].
    + cbn. apply Forall_replicate. done.
    + unfold read_file, os2. cbn [os_fs set_fs log_path log_mmap set_size]. by rewrite lookup_insert_eq, Hz.
  - split; [|done]. intros q Hq. unfold os2, os1. cbn. by rewrite !lookup_insert_ne.
Qed.

(** Reopening: opening the file of a log that holds the items [its] finds
    the same items and the same end, with nothing to repair. *)
Theorem vlog_Open_reopen {St} (s : St) l os its sync :
  wf_log l os → contents l = enc_items its → os_faults os = [] →
  Open (log_path l) sync s os =
    (Ok (mkLog (log_path l) true (log_mmap l) (log_size l) sync false), s, os).
Proof. apply Open_existing. Qed.
End reopen.

(** ** Resynchronisation after a damaged entry *)

Definition marker_at (l : Log) (i : Z) : Prop :=
  mmap_at l i = Ok 255 ∧ mmap_at l (i + 1) = Ok 255.

Lemma mmap_at_ok l i : readable l → 0 ≤ i < log_size l → ∃ b, mmap_at l i = Ok b.
Proof.
  intros [Ho Hs Hm] Hi. unfold mmap_at, mmap_len in *. rewrite Ho.
  replace (true && (0 <=? i)) with true by lia.
  destruct (lookup_lt_is_Some_2 (log_mmap l) (Z.to_nat i)) as [b ->]; [lia|by eexists].
Qed.

(** The first position behind a marker that starts at [i] or later. *)
Definition next_marker (l : Log) (i r : Z) : Prop :=
  (r = log_size l ∧ ∀ j, i ≤ j → j + 1 < log_size l → ¬ marker_at l j) ∨
  (∃ j, i ≤ j ∧ j + 1 < log_size l ∧ marker_at l j ∧ r = j + 2 ∧ ∀ j', i ≤ j' < j → ¬ marker_at l j').

Lemma next_marker_step l i r : ¬ marker_at l i → next_marker l (i + 1) r → next_marker l i r.
Proof.
  intros Hi [[-> Hno]|(j & Hj & Hend & Hm & -> & Hno)]; [left|right].
  - split; [done|]. intros j Hj Hend. destruct (decide (j = i)) as [->|]; [done|]. apply Hno; lia.
  - exists j. split_and!; try done; [lia|]. intros j' Hj'.
    destruct (decide (j' = i)) as [->|]; [done|]. apply Hno. lia.
Qed.

(** The test for a marker at [i], on a log that has bytes [i] and [i + 1]. *)
Lemma marker_test l i :
  readable l → 0 ≤ i → i + 1 < log_size l →
  ∃ m, (b ← mmap_at l i;
        if b =? 255 then b' ← mmap_at l (uint64 (i + 1)); Ok (b' =? 255) else Ok false) = Ok m
       ∧ (m = true ↔ marker_at l i).
Proof.
  intros Hl Hi Hend. pose proof Hl as [Ho Hs Hm].
  destruct (mmap_at_ok l i Hl ltac:(lia)) as [b Hb].
  destruct (mmap_at_ok l (i + 1) Hl ltac:(lia)) as [b' Hb'].
  unfold marker_at. rewrite uint64_id by lia. rewrite Hb, Hb'. cbn [mbind res_bind].
  destruct (Z.eqb_spec b 255) as [->|Hne]; cbn [mbind res_bind]; eexists; (split; [done|]).
  - rewrite Z.eqb_eq. split; [by intros ->|by intros [_ [= ->]]].
  - split; [done|]. by intros [[= ->] _].
Qed.

Lemma findNextItem_loop_spec l fuel i :
  readable l → 0 ≤ i → 0 < log_size l → log_size l - i < Z.of_nat fuel → i ≤ log_size l →
  ∃ r, findNextItem_loop fuel l (log_size l) i = Ok r ∧ i ≤ r ≤ log_size l ∧ next_marker l i r.
Proof.
  intros Hl. pose proof Hl as [Ho Hs Hm]. revert i.
  induction fuel as [|fuel IH]; intros i Hi Hpos Hfuel Hle; [lia|]. cbn [findNextItem_loop].
  rewrite (uint64_id (log_size l - 1)) by lia.
  destruct (Z.ltb_spec i (log_size l - 1)) as [Hlt|Hge].
  - destruct (marker_test l i Hl Hi ltac:(lia)) as (m & Heq & Hmark).
    destruct (mmap_at l i) as [b| | |]; try done. cbn [mbind res_bind] in *. rewrite Heq.
    cbn [mbind res_bind]. destruct m.
    + assert (marker_at l i) as Hmk by (by apply Hmark).
      rewrite uint64_id by lia.
      assert (next_marker l i (i + 2)).
      { right. exists i. split_and!; done || lia || (intros; lia). }
      destruct (Z.leb_spec (log_size l) (i + 2)); eexists; (split; [done|]); [|split; [lia|done]].
      replace (log_size l) with (i + 2) by lia. split; [lia|done].
    + rewrite uint64_id by lia. destruct (IH (i + 1)) as (r & -> & Hr & Hn); [lia..|].
      exists r. split; [done|]. split; [lia|]. apply next_marker_step; [|done].
      intros Hmk. by apply Hmark in Hmk.
  - exists (log_size l). split; [done|]. split; [lia|]. left. split; [done|]. lia.
Qed.

Lemma findNextItem_ok l off :
  readable l → 0 ≤ off < log_size l →
  ∃ r, findNextItem l off = Ok r ∧ off < r ≤ log_size l ∧ next_marker l (off + 1) r.
Proof.
  intros Hl Hoff. pose proof Hl as [Ho Hs Hm]. unfold findNextItem.
  rewrite (uint64_id (log_size l)), (uint64_id (off + 1)) by lia.
  destruct (findNextItem_loop_spec l (S (Z.to_nat (log_size l))) (off + 1) Hl)
    as (r & Heq & Hr & Hn); [lia..|].
  exists r. split; [done|]. split; [lia|done].
Qed.

(** [findNextItem] terminates inside the log: it returns the position
    behind the first end marker that starts after [off], or the end of the log
    when there is none, and so always moves forward. *)
Theorem findNextItem_spec l off :
  readable l → 0 ≤ off < log_size l →
  ∃ r, findNextItem l off = Ok r ∧ off < r ≤ log_size l ∧ next_marker l (off + 1) r.
Proof. apply findNextItem_ok. Qed.

(** ** Concrete instances, used by the witnesses *)

(** A host with tiny pages, so that the witnesses compute on small maps. *)
Definition Host_tiny : Host := {|
  PageSize := 4;
  PageSize_range := ltac:(lia);
  append_cap := pow2_cap;
  append_cap_ge := pow2_cap_ge;
|}.

(** Maps that are always as large as asked for. *)
Definition Unix_plain : Unix := {|
  unix_Mmap data n := resize_file (Z.to_nat n) data;
  unix_Mremap data n := resize_file (Z.to_nat n) data;
  unix_Mremap_failed data n := [];
  unix_Write_short data bs := 0%nat;
|}.

Lemma Unix_plain_laws : @UnixLaws Unix_plain.
Proof.
  split; intros; simpl.
  - unfold resize_file. by rewrite Nat2Z.id, firstn_all, Nat.sub_diag, app_nil_r.
  - apply resize_file_grow. lia.
Qed.

Definition ex_path : path := ["q"; "dat.log"].

(** A freshly created log and its file. *)
Definition ex_log : Log := mkLog ex_path true (replicate 32 Byte.x00) 0 true true.

Definition ex_os (faults : list bool) : OS :=
  mkOS {[ ex_path := NFile (replicate 32 Byte.x00) ]} faults.

Definition ex_items : Items := [mkItem 3 [Byte.x61]; mkItem 5 [Byte.x62; Byte.x63]].

Lemma ex_readable : readable ex_log.
Proof. by split. Qed.

Lemma ex_wf_log faults : wf_log ex_log (ex_os faults).
Proof. split; [apply ex_readable|by repeat constructor|vm_compute; reflexivity]. Qed.

(** The log after [ex_items] was pushed, as computed by [Push]. *)
Definition ex_pushed : Log := Eval vm_compute in
  (@Push Host_tiny Unix_plain ex_items ex_log (ex_os [])).1.2.

Definition ex_pushed_os : OS := mkOS {[ ex_path := NFile (log_mmap ex_pushed) ]} [].

Lemma ex_pushed_readable : readable ex_pushed.
Proof. split; vm_compute; [done|split; discriminate|split; [reflexivity|discriminate]]. Qed.

Lemma ex_pushed_items_at : items_at ex_pushed 0 ex_items.
Proof. split_and!; vm_compute; [discriminate|discriminate|reflexivity]. Qed.

Lemma vlog_Push_outcome_witness :
  wf_log ex_log (ex_os [false; true]) ∧
  ∃ r l' os', @Push Host_tiny Unix_plain ex_items ex_log (ex_os [false; true]) = (r, l', os') ∧
    @push_outcome Unix_plain ex_log ex_items r l' os' ∧
    only_files (eq (log_path ex_log)) (ex_os [false; true]) os' ∧
    (os_faults (ex_os [false; true]) = [] → r = Ok (push_loc ex_log ex_items)).
Proof.
  split; [apply ex_wf_log|].
  apply (@vlog_Push_outcome Host_tiny Unix_plain Unix_plain_laws); [apply ex_wf_log|done|].
  vm_compute. discriminate.
Defined.

Lemma readItemAt_entry_witness :
  entry_at ex_pushed 0 (mkItem 3 [Byte.x61]) (byte_of_Z 255) (byte_of_Z 255) ∧
  readItemAt ex_pushed 0 zero_Item = Ok (mkItem 3 [Byte.x61]).
Proof.
  assert (entry_at ex_pushed 0 (mkItem 3 [Byte.x61]) (byte_of_Z 255) (byte_of_Z 255)) as He.
  { apply items_at_entry, (items_at_cons _ _ _ [mkItem 5 [Byte.x62; Byte.x63]]), ex_pushed_items_at. }
  split; [done|].
  rewrite (readItemAt_entry _ ex_pushed_readable 0 _ _ _ zero_Item He); vm_compute; done.
Defined.

Lemma ex_pushed_wf_log : wf_log ex_pushed ex_pushed_os.
Proof. split; [apply ex_pushed_readable|by repeat constructor|vm_compute; reflexivity]. Qed.

Lemma vlog_Open_reopen_witness :
  wf_log ex_pushed ex_pushed_os ∧
  @Open Host_tiny Unix_plain unit ex_path false tt ex_pushed_os =
    (Ok (mkLog ex_path true (log_mmap ex_pushed) (log_size ex_pushed) false false), tt, ex_pushed_os).
Proof.
  split; [apply ex_pushed_wf_log|].
  apply (@vlog_Open_reopen Host_tiny Unix_plain Unix_plain_laws _ tt ex_pushed _ ex_items);
    [apply ex_pushed_wf_log|vm_compute; reflexivity|reflexivity].
Defined.

Lemma findNextItem_spec_witness :
  readable ex_pushed ∧
  ∃ r, findNextItem ex_pushed 0 = Ok r ∧ 0 < r ≤ log_size ex_pushed ∧
    next_marker ex_pushed (0 + 1) r.
Proof.
  split; [apply ex_pushed_readable|].
  apply findNextItem_spec; [apply ex_pushed_readable|vm_compute; split; [discriminate|reflexivity]].
Defined.
