(* ===== verification/VlogIter.v ===== *)
(** * vlog/iter.go: iterators over a batch of the value log

    An iterator of the source holds a pointer to its log; here the log is an
    argument of the operations that read it. *)

From S2P Require Import Prelude Os Item Vlog.

Record Iter := mkIter {
  li_firstKey : Key;
  li_currOff : Off;
  li_prevOff : Off;
  li_item : Item;
  li_err : option error;
  li_currLen : Off;
  li_prevLen : Off;
  li_exhausted : bool;
  li_continueOnErr : bool;
}.

(** [Log.At] of vlog.go *)
Definition At (loc : Location) (continueOnErr : bool) : Iter :=
  mkIter (loc_Key loc) (loc_Off loc) 0 zero_Item None (loc_Len loc) 0 false continueOnErr.

Definition set_exhausted (li : Iter) : Iter :=
  mkIter (li_firstKey li) (li_currOff li) (li_prevOff li) (li_item li) (li_err li)
    (li_currLen li) (li_prevLen li) true (li_continueOnErr li).

Definition set_err (e : error) (li : Iter) : Iter :=
  mkIter (li_firstKey li) (li_currOff li) (li_prevOff li) (li_item li) (Some e)
    (li_currLen li) (li_prevLen li) (li_exhausted li) (li_continueOnErr li).

Definition set_currOff (off : Off) (li : Iter) : Iter :=
  mkIter (li_firstKey li) off (li_prevOff li) (li_item li) (li_err li)
    (li_currLen li) (li_prevLen li) (li_exhausted li) (li_continueOnErr li).

Definition set_item (it : Item) (li : Iter) : Iter :=
  mkIter (li_firstKey li) (li_currOff li) (li_prevOff li) it (li_err li)
    (li_currLen li) (li_prevLen li) (li_exhausted li) (li_continueOnErr li).

(** The loop of [Next]: try to read at [currOff], skip damaged entries if
    [continueOnErr].  [true] when an item was read.  [fuel] bounds the bytes
    from [currOff] to the end of the log. *)
Fixpoint Next_loop (fuel : nat) (l : Log) (li : Iter) : res (bool * Iter) :=
  match fuel with
  | O => NoFuel
  | S fuel =>
      match readItemAt l (li_currOff li) (li_item li) with
      | Ok it => Ok (true, set_item it li)
      | Err e =>
          if negb (li_continueOnErr li) then Ok (false, set_exhausted (set_err e li))
          else
            off ← findNextItem l (li_currOff li);
            let li := set_currOff off li in
            if uint64 (log_size l) <=? off then Ok (false, set_exhausted li)
            else Next_loop fuel l li
      | Panic => Panic
      | NoFuel => NoFuel
      end
  end.

(** The assignments at the end of [Next]. *)
Definition advance (li : Iter) : Iter :=
  mkIter (li_firstKey li)
    (uint64 (li_currOff li + Item_StorageSize (li_item li))) (li_currOff li)
    (li_item li) (li_err li)
    (uint64 (li_currLen li - 1)) (li_currLen li)
    (li_exhausted li) (li_continueOnErr li).

Definition Next (l : Log) (li : Iter) : res (bool * Iter) :=
  if (li_currLen li =? 0) || li_exhausted li then Ok (false, set_exhausted li)
  else if (0 <? mmap_len l) && (uint64 (log_size l) <=? li_currOff li) then
    Ok (false, set_exhausted li)
  else
    '(found, li) ← Next_loop (S (Z.to_nat (log_size l))) l li;
    if found : bool then Ok (true, advance li) else Ok (false, li).

Definition Exhausted (li : Iter) : bool := li_exhausted li.

Definition FirstKey (li : Iter) : Key := li_firstKey li.

Definition Iter_Item (li : Iter) : Item := li_item li.

Definition CurrentLocation (li : Iter) : Location :=
  mkLocation (it_Key (li_item li)) (li_prevOff li) (li_prevLen li).

Definition Iter_Err (li : Iter) : option error := li_err li.

(** All remaining items, as a loop [for iter.Next() { iter.Item() }] yields
    them, and the iterator it ends with. *)
Fixpoint collect (fuel : nat) (l : Log) (li : Iter) : res (Items * Iter) :=
  match fuel with
  | O => NoFuel
  | S fuel =>
      '(ok, li) ← Next l li;
      if ok : bool then
        '(its, li') ← collect fuel l li;
        Ok (Iter_Item li :: its, li')
      else Ok ([], li)
  end.

(** ** Iterating over a batch that is stored completely *)

(** The iterator stands on [it]; [rest] are the items it has not read yet. *)
Record iter_on (l : Log) (li : Iter) (it : Item) (rest : Items) : Prop := {
  on_item : li_item li = it;
  on_running : li_exhausted li = false;
  on_err : li_err li = None;
  on_currOff : li_currOff li = li_prevOff li + storage it;
  on_currLen : li_currLen li = Z.of_nat (length rest);
  on_prevLen : li_prevLen li = Z.of_nat (length (it :: rest));
  on_items : items_at l (li_prevOff li) (it :: rest);
  on_valid : Forall valid_item (it :: rest);
}.

(** [loc] describes the batch [its] of the log. *)
Record loc_ok (l : Log) (loc : Location) (its : Items) : Prop := {
  loc_nonempty : its ≠ [];
  loc_ok_Len : loc_Len loc = Z.of_nat (length its);
  loc_ok_Key : it_Key <$> head its = Some (loc_Key loc);
  loc_items : items_at l (loc_Off loc) its;
  loc_valid : Forall valid_item its;
}.

Section batch.
Context (l : Log) (Hl : readable l).

Lemma items_at_bounds off it its :
  items_at l off (it :: its) →
  0 ≤ off < log_size l ∧ off + storage it ≤ log_size l ∧
  14 * Z.of_nat (length (it :: its)) ≤ log_size l.
Proof.
  intros (Hoff & Hend & _). cbn [storages foldr] in Hend. fold (storages its) in Hend.
  pose proof (storages_ge its). pose proof (storage_ge it). cbn [length]. lia.
Qed.

(** One successful step. *)
Lemma Next_item li it rest :
  li_exhausted li = false → li_err li = None → li_currLen li = Z.of_nat (length (it :: rest)) →
  items_at l (li_currOff li) (it :: rest) → Forall valid_item (it :: rest) →
  ∃ li', Next l li = Ok (true, li') ∧ iter_on l li' it rest ∧ li_firstKey li' = li_firstKey li ∧
    li_prevOff li' = li_currOff li.
Proof.
  intros Hrun Herr Hlen Hat Hval. pose proof Hl as [Ho Hs Hm].
  destruct (items_at_bounds _ _ _ Hat) as (Hoff & Hend & Hcount).
  destruct (items_at_cons _ _ _ _ Hat) as [Hit Hrest].
  unfold Next. rewrite Hrun, Hlen. rewrite (uint64_id (log_size l)) by lia.
  replace (Z.of_nat (length (it :: rest)) =? 0) with false by (cbn [length]; lia).
  replace ((0 <? mmap_len l) && (log_size l <=? li_currOff li)) with false by lia.
  cbn [orb Next_loop]. inversion Hval as [|? ? Hv Hvs]; subst.
  rewrite (readItemAt_item l Hl _ it) by done. cbn [mbind res_bind].
  eexists. split; [done|]. unfold advance; cbn.
  pose proof (storage_ge it). rewrite Item_StorageSize_spec by lia.
  cbn [length] in *. split; [|done]. split; cbn; try done.
  - rewrite uint64_id by lia. done.
  - rewrite Hlen, uint64_id; lia.
Qed.

Lemma Next_start loc its c it rest :
  loc_ok l loc its → its = it :: rest →
  ∃ li, Next l (At loc c) = Ok (true, li) ∧ iter_on l li it rest ∧
    li_firstKey li = loc_Key loc ∧ li_prevOff li = loc_Off loc.
Proof.
  intros [Hne Hlen Hkey Hat Hval] ->.
  destruct (Next_item (At loc c) it rest) as (li & Heq & Hon & Hk & Hp); try done.
  by exists li.
Qed.

Lemma Next_step li it x rest :
  iter_on l li it (x :: rest) →
  ∃ li', Next l li = Ok (true, li') ∧ iter_on l li' x rest ∧ li_firstKey li' = li_firstKey li.
Proof.
  intros [Hit Hrun Herr Hoff Hlen _ Hat Hval].
  destruct (items_at_cons _ _ _ _ Hat) as [_ Hrest].
  destruct (Next_item li x rest) as (li' & Heq & Hon & Hk & _); try done.
  - by rewrite Hoff.
  - by inversion Hval.
  - by exists li'.
Qed.

Lemma Next_end li it : iter_on l li it [] → Next l li = Ok (false, set_exhausted li).
Proof. intros [_ _ _ _ Hlen _ _ _]. unfold Next. by rewrite Hlen. Qed.

Lemma collect_on fuel li it rest :
  iter_on l li it rest → (length rest < fuel)%nat →
  ∃ li', collect fuel l li = Ok (rest, li') ∧ li_err li' = None ∧ li_exhausted li' = true.
Proof.
  revert fuel li it. induction rest as [|x rest IH]; intros [|fuel] li it Hon Hf;
    cbn [length] in Hf; try lia; cbn [collect].
  - rewrite (Next_end _ _ Hon). destruct Hon. by eexists.
  - destruct (Next_step _ _ _ _ Hon) as (li' & -> & Hon' & _). cbn [mbind res_bind].
    destruct (IH fuel li' x Hon' ltac:(lia)) as (li2 & -> & He). cbn [mbind res_bind].
    unfold Iter_Item. rewrite (on_item _ _ _ _ Hon'). by exists li2.
Qed.

Lemma collect_At_holds loc its c :
  loc_ok l loc its →
  ∃ li, collect (S (length its)) l (At loc c) = Ok (its, li) ∧
    li_err li = None ∧ li_exhausted li = true.
Proof.
  intros Hloc. destruct its as [|it rest]; [by destruct Hloc|].
  destruct (Next_start _ _ c it rest Hloc eq_refl) as (li & Heq & Hon & _).
  cbn [length]. remember (S (length rest)) as n. cbn [collect]. rewrite Heq. cbn [mbind res_bind].
  destruct (collect_on n li it rest Hon ltac:(lia)) as (li' & -> & He). cbn [mbind res_bind].
  unfold Iter_Item. rewrite (on_item _ _ _ _ Hon). by exists li'.
Qed.

(** Iterating from the location of a batch yields exactly the items of
    the batch, in order and without error, and then stops. *)
Theorem collect_At loc its c :
  loc_ok l loc its →
  ∃ li, collect (S (length its)) l (At loc c) = Ok (its, li) ∧
    li_err li = None ∧ li_exhausted li = true.
Proof. apply collect_At_holds. Qed.

(** The location of an iterator that stands on [it] describes what is left. *)
Lemma CurrentLocation_ok li it rest :
  iter_on l li it rest → loc_ok l (CurrentLocation li) (it :: rest).
Proof. intros [Hit _ _ _ _ Hlen Hat Hval]. split; cbn; try done. by rewrite Hit. Qed.
End batch.

(** ** Push, then iterate *)

Lemma loc_ok_pushed l items l' os' loc its :
  readable l → pushed l items l' os' → loc_ok l loc its → loc_ok l' loc its.
Proof. intros Hl Hp [? ? ? ? ?]. split; try done. by eapply items_at_pushed. Qed.

Lemma push_loc_ok l items l' os' :
  readable l → pushed l items l' os' → items ≠ [] → Forall valid_item items →
  loc_ok l' (push_loc l items) items.
Proof.
  intros Hl Hp Hne Hval. split; try done.
  - by destruct items.
  - by eapply items_at_new.
Qed.

Section roundtrip.
Context `{Host, Unix, !UnixLaws}.

(** C37. A pushed batch can be read back from the location [Push] returned, and
    every batch that was in the log before still reads the same. *)
Theorem vlog_Push_At_roundtrip l os items loc0 its0 c :
  wf_log l os → items ≠ [] → Forall valid_item items →
  log_size l + storages items ≤ 2 ^ 61 → os_faults os = [] → loc_ok l loc0 its0 →
  ∃ loc l' os' li li0, Push items l os = (Ok loc, l', os') ∧
    collect (S (length items)) l' (At loc c) = Ok (items, li) ∧ li_err li = None ∧
    collect (S (length its0)) l' (At loc0 c) = Ok (its0, li0) ∧ li_err li0 = None.
Proof.
  intros Hwf Hne Hval Hmax Hno Hloc0. pose proof Hwf as [Hl _ _].
  destruct (Push_outcome_holds l os items Hwf Hne Hmax) as (r & l' & os' & Heq & Hout & _ & Hok).
  rewrite (Hok Hno) in *. inversion Hout as [l1 os1 Hp He| | |]; subst.
  pose proof Hp as [_ _ [Hl' _ _] _ _].
  destruct (collect_At_holds l' Hl' _ _ c (push_loc_ok _ _ _ _ Hl Hp Hne Hval)) as (li & Hc & He1 & _).
  destruct (collect_At_holds l' Hl' _ _ c (loc_ok_pushed _ _ _ _ _ _ Hl Hp Hloc0)) as (li0 & Hc0 & He0 & _).
  by exists (push_loc l items), l', os', li, li0.
Qed.
End roundtrip.

(** ** Iterating over arbitrary bytes *)

Definition small_item (it : Item) : Prop := blob_len it ≤ 64 * 1024 * 1024.

Lemma mmap_read_ok l off n :
  readable l → 0 ≤ off → 0 ≤ n → off + n ≤ log_size l →
  ∃ bs, mmap_read l off n = Ok bs ∧ Z.of_nat (length bs) = n.
Proof.
  intros Hl Hoff Hn Hend. pose proof Hl as [Ho Hs Hm].
  exists (segment (log_mmap l) off n). split; [by apply mmap_read_segment|].
  unfold segment, mmap_len in *. rewrite length_take, length_drop. lia.
Qed.

(** Reading anywhere below the end of any log either gives the old item, or an
    item of at most 64 MiB, or an error. *)
Lemma readItemAt_total l off it :
  readable l → 0 ≤ off < log_size l → small_item it →
  (∃ it', readItemAt l off it = Ok it' ∧ small_item it') ∨ (∃ e, readItemAt l off it = Err e).
Proof.
  intros Hl Hoff Hsmall. pose proof Hl as [Ho Hs Hm].
  unfold readItemAt, HeaderSize, TrailerSize.
  rewrite (int64_id off), (int64_id (off + 12)) by (unfold is_int64; lia).
  destruct (Z.leb_spec (log_size l) (off + 12)); [left; by exists it|].
  destruct (mmap_read_ok l off 4) as (h & Hh & Hlh); [done|lia..|].
  rewrite Hh. cbn [mbind res_bind]. rewrite (uint64_id (off + 4)) by lia.
  destruct (mmap_read_ok l (off + 4) 8) as (k & Hk & Hlk); [done|lia..|].
  rewrite Hk. cbn [mbind res_bind].
  pose proof (be_decode_range h) as Hr. rewrite Hlh in Hr. change (256 ^ 4) with (2 ^ 32) in Hr.
  destruct (Z.ltb_spec (64 * 1024 * 1024) (be_decode h)); [right; by eexists|].
  rewrite int64_id by (unfold is_int64; lia).
  destruct (Z.ltb_spec (log_size l) (off + 12 + be_decode h + 2)); [right; by eexists|].
  rewrite (uint64_id (off + 12)), (uint64_id (off + 12 + _)), uint64_id by lia.
  destruct (mmap_at_ok l (off + 12 + be_decode h)) as [t0 Ht0]; [done|lia|].
  destruct (mmap_at_ok l (off + 12 + be_decode h + 1)) as [t1 Ht1]; [done|lia|].
  destruct (mmap_read_ok l (off + 12) (off + 12 + be_decode h - (off + 12))) as (b & Hb & Hlb);
    [done|lia..|].
  rewrite Ht0, Ht1, Hb. cbn [mbind res_bind].
  assert (small_item (mkItem (int64 (be_decode k)) b)) by (unfold small_item, blob_len; cbn; lia).
  destruct (t0 =? 255), (t1 =? 255); cbn [negb mbind res_bind]; by eauto.
Qed.

(** What [Next] and its loop keep true of an iterator. *)
Definition iter_sane (li : Iter) : Prop :=
  small_item (li_item li) ∧ 0 ≤ li_currOff li < 2 ^ 64.

Lemma Next_loop_total l fuel li :
  readable l → iter_sane li → li_currOff li < log_size l →
  log_size l - li_currOff li < Z.of_nat fuel →
  ∃ found li', Next_loop fuel l li = Ok (found, li') ∧ iter_sane li' ∧
    li_currOff li ≤ li_currOff li' ∧ li_exhausted li' = negb found || li_exhausted li ∧
    (found = true → li_currOff li' < log_size l).
Proof.
  intros Hl. pose proof Hl as [Ho Hs Hm]. revert li.
  induction fuel as [|fuel IH]; intros li [Hsm Hoff] Hlt Hfuel; [lia|]. cbn [Next_loop].
  destruct (readItemAt_total l (li_currOff li) (li_item li) Hl ltac:(lia) Hsm)
    as [(it & -> & Hit)|(e & ->)].
  { eexists _, _. split; [done|]. split; [by split|]. by split_and!. }
  destruct (li_continueOnErr li); cbn [negb].
  2: { eexists _, _. split; [done|]. by split_and!. }
  destruct (findNextItem_ok l (li_currOff li) Hl ltac:(lia)) as (r & -> & Hr & _).
  cbn [mbind res_bind]. rewrite uint64_id by lia.
  destruct (Z.leb_spec (log_size l) r).
  { eexists _, _. split; [done|]. split; [split; [done|cbn; lia]|]. split_and!; cbn; done || lia. }
  destruct (IH (set_currOff r li)) as (found & li' & Heq & Hsane & Hge & Hex & Hf);
    [split; cbn; [done|lia]|cbn; lia|cbn; lia|].
  exists found, li'. split; [done|]. cbn in *. split_and!; try done. lia.
Qed.

Lemma Next_safe l li :
  readable l → iter_sane li →
  ∃ ok li', Next l li = Ok (ok, li') ∧ iter_sane li' ∧
    (if ok then
       li_currOff li ≤ li_prevOff li' < log_size l ∧ li_prevOff li' + 14 ≤ li_currOff li' ∧
       li_exhausted li' = false
     else li_exhausted li' = true).
Proof.
  intros Hl Hsane. pose proof Hl as [Ho Hs Hm]. pose proof Hsane as [Hsm Hoff]. unfold Next.
  destruct ((li_currLen li =? 0) || li_exhausted li) eqn:E; [by eexists false, _|].
  apply orb_false_iff in E as [_ Hrun].
  rewrite uint64_id by lia. replace (0 <? mmap_len l) with true by lia. cbn [andb].
  destruct (Z.leb_spec (log_size l) (li_currOff li)); [by eexists false, _|].
  destruct (Next_loop_total l (S (Z.to_nat (log_size l))) li Hl Hsane)
    as (found & li' & -> & [Hsm' Hoff'] & Hge & Hex & Hf); [lia..|].
  cbn [mbind res_bind]. destruct found; cbn [negb orb] in *; [|by eexists false, _].
  specialize (Hf eq_refl). eexists true, _. split; [done|].
  unfold iter_sane, advance; cbn. unfold small_item in *. pose proof (storage_ge (li_item li')).
  rewrite Item_StorageSize_spec by (unfold storage, HeaderSize, TrailerSize in *; lia).
  rewrite uint64_id by (unfold storage, HeaderSize, TrailerSize in *; lia).
  rewrite Hex, Hrun. unfold storage, HeaderSize, TrailerSize in *. split_and!; done || lia.
Qed.

(** [Next] is safe on every log, however damaged, and every iterator: it
    never panics and never loops for ever, and each call that yields an item
    moves the iterator at least 14 bytes forward, inside the log. *)
Theorem Next_total l li :
  readable l → iter_sane li →
  ∃ ok li', Next l li = Ok (ok, li') ∧ iter_sane li' ∧
    (if ok then
       li_currOff li ≤ li_prevOff li' < log_size l ∧ li_prevOff li' + 14 ≤ li_currOff li' ∧
       li_exhausted li' = false
     else li_exhausted li' = true).
Proof. apply Next_safe. Qed.

(** ** Witnesses *)

Lemma ex_loc_ok : loc_ok ex_pushed (mkLocation 3 0 2) ex_items.
Proof.
  split; [done..|apply ex_pushed_items_at|].
  repeat constructor; vm_compute; done.
Qed.

Lemma collect_At_witness :
  ∃ li, collect 3 ex_pushed (At (mkLocation 3 0 2) true) = Ok (ex_items, li) ∧
    li_err li = None ∧ li_exhausted li = true.
Proof. exact (collect_At ex_pushed ex_pushed_readable _ ex_items true ex_loc_ok). Defined.

Lemma vlog_Push_At_roundtrip_witness :
  ∃ loc l' os' li li0, @Push Host_tiny Unix_plain ex_items ex_pushed ex_pushed_os = (Ok loc, l', os') ∧
    collect 3 l' (At loc true) = Ok (ex_items, li) ∧ li_err li = None ∧
    collect 3 l' (At (mkLocation 3 0 2) true) = Ok (ex_items, li0) ∧ li_err li0 = None.
Proof.
  apply (@vlog_Push_At_roundtrip Host_tiny Unix_plain Unix_plain_laws ex_pushed _ ex_items _ ex_items true);
    [apply ex_pushed_wf_log|done|repeat constructor; vm_compute; done|vm_compute; discriminate|done
    |apply ex_loc_ok].
Defined.

Lemma Next_total_witness :
  iter_sane (At (mkLocation 0 5 9) true) ∧
  ∃ ok li', Next ex_pushed (At (mkLocation 0 5 9) true) = Ok (ok, li') ∧ iter_sane li' ∧
    (if ok then
       5 ≤ li_prevOff li' < log_size ex_pushed ∧ li_prevOff li' + 14 ≤ li_currOff li' ∧
       li_exhausted li' = false
     else li_exhausted li' = true).
Proof.
  assert (iter_sane (At (mkLocation 0 5 9) true)) as Hs by (split; vm_compute; [discriminate|split; [discriminate|reflexivity]]).
  split; [done|]. apply (Next_total _ _ ex_pushed_readable Hs).
Defined.
