(* ===== verification/Heap.v ===== *)
(** * vlog/heap.go: the heap of batch iterators

    A copy of Go's [container/heap] specialised to iterators, ordered by the
    key of their current item, exhausted iterators last. *)

From S2P Require Import Prelude Item VlogIter.

Abbreviation Iters := (list Iter).

(** [less] on two elements *)
Definition iter_less (a b : Iter) : bool :=
  if negb (Bool.eqb (li_exhausted a) (li_exhausted b)) then negb (li_exhausted a)
  else it_Key (li_item a) <? it_Key (li_item b).

Definition less (hs : Iters) (i j : nat) : res bool :=
  a ← of_option (hs !! i);
  b ← of_option (hs !! j);
  Ok (iter_less a b).

Definition swap (hs : Iters) (i j : nat) : res Iters :=
  a ← of_option (hs !! i);
  b ← of_option (hs !! j);
  Ok (<[j := a]> (<[i := b]> hs)).

(** Go's [(j - 1) / 2], which rounds towards zero: the root is its own parent. *)
Definition parent (j : nat) : nat := Z.to_nat (Z.quot (Z.of_nat j - 1) 2).

Fixpoint up_loop (fuel : nat) (hs : Iters) (j : nat) : res Iters :=
  match fuel with
  | O => NoFuel
  | S fuel =>
      let i := parent j in
      if decide (i = j) then Ok hs
      else
        lt ← less hs j i;
        if negb lt then Ok hs
        else hs ← swap hs i j; up_loop fuel hs i
  end.

Definition up (hs : Iters) (j : nat) : res Iters := up_loop (S j) hs j.

(** The loop of [down] returns the slice and the final [i]; [j1] is computed
    as an [int] and the test [j1 < 0] guards its overflow. *)
Fixpoint down_loop (fuel : nat) (hs : Iters) (i n : nat) : res (Iters * nat) :=
  match fuel with
  | O => NoFuel
  | S fuel =>
      let j1 := int64 (2 * Z.of_nat i + 1) in
      if (Z.of_nat n <=? j1) || (j1 <? 0) then Ok (hs, i)
      else
        let j1 := Z.to_nat j1 in
        let j2 := S j1 in
        right ← (if decide (j2 < n)%nat then less hs j2 j1 else Ok false);
        let j := if right : bool then j2 else j1 in
        lt ← less hs j i;
        if negb lt then Ok (hs, i)
        else hs ← swap hs i j; down_loop fuel hs j n
  end.

Definition down (hs : Iters) (i0 n : nat) : res (Iters * bool) :=
  '(hs, i) ← down_loop (S n) hs i0 n;
  Ok (hs, bool_decide (i0 < i)%nat).

Definition Iters_Len (hs : Iters) : nat := length hs.

Definition Iters_Push (hs : Iters) (li : Iter) : res Iters :=
  let hs := hs ++ [li] in
  up hs (Iters_Len hs - 1).

Definition Iters_Fix (hs : Iters) (i : nat) : res Iters :=
  '(hs, moved) ← down hs i (Iters_Len hs);
  if negb moved then up hs i else Ok hs.

(** ** The order *)

Definition iter_le (a b : Iter) : Prop := iter_less b a = false.

Lemma iter_less_spec a b :
  iter_less a b = true ↔
  (li_exhausted a = false ∧ li_exhausted b = true) ∨
  (li_exhausted a = li_exhausted b ∧ it_Key (li_item a) < it_Key (li_item b)).
Proof.
  unfold iter_less. destruct (li_exhausted a), (li_exhausted b); simpl; rewrite ?Z.ltb_lt; naive_solver lia.
Qed.

Lemma iter_le_spec a b :
  iter_le a b ↔
  (li_exhausted a = false ∧ li_exhausted b = true) ∨
  (li_exhausted a = li_exhausted b ∧ it_Key (li_item a) ≤ it_Key (li_item b)).
Proof.
  unfold iter_le. rewrite <- not_true_iff_false, iter_less_spec.
  destruct (li_exhausted a), (li_exhausted b); naive_solver lia.
Qed.

#[global] Instance iter_le_preorder : PreOrder iter_le.
Proof.
  split.
  - intros a. apply iter_le_spec. right. split; [done|lia].
  - intros a b c. rewrite !iter_le_spec.
    destruct (li_exhausted a), (li_exhausted b), (li_exhausted c); naive_solver lia.
Qed.

Lemma iter_less_le a b : iter_less a b = true → iter_le a b.
Proof.
  rewrite iter_less_spec, iter_le_spec.
  destruct (li_exhausted a), (li_exhausted b); naive_solver lia.
Qed.

(** ** Positions in the tree *)

Lemma parent_spec c i : (0 < c)%nat → parent c = i ↔ (c = 2 * i + 1 ∨ c = 2 * i + 2)%nat.
Proof.
  intros Hc. unfold parent. rewrite Z.quot_div_nonneg by lia.
  pose proof (Z.div_mod (Z.of_nat c - 1) 2). pose proof (Z.mod_pos_bound (Z.of_nat c - 1) 2).
  lia.
Qed.

Lemma parent_lt c : (0 < c)%nat → (parent c < c)%nat.
Proof. intros Hc. pose proof (proj1 (parent_spec c _ Hc) eq_refl). lia. Qed.

Lemma parent_0 : parent 0 = 0%nat.
Proof. done. Qed.

(** The edge above position [c] is in order. *)
Definition edge_ok (hs : Iters) (c : nat) : Prop :=
  ∀ a p, hs !! c = Some a → hs !! parent c = Some p → iter_le p a.

Definition heap (hs : Iters) : Prop := ∀ c, (0 < c)%nat → edge_ok hs c.

(** All edges are in order except those at [i], and the children of [i] are not
    below the parent of [i]. *)
Record heap_but (hs : Iters) (i : nat) : Prop := {
  but_edges : ∀ c, (0 < c)%nat → c ≠ i → parent c ≠ i → edge_ok hs c;
  but_skip : ∀ c a p, (0 < i)%nat → (0 < c)%nat → parent c = i →
    hs !! c = Some a → hs !! parent i = Some p → iter_le p a;
}.

(** The edges below [i] are in order. *)
Definition below_ok (hs : Iters) (i : nat) : Prop :=
  ∀ c, (0 < c)%nat → parent c = i → edge_ok hs c.

Lemma heap_but_heap hs i : heap_but hs i → below_ok hs i → edge_ok hs i → heap hs.
Proof.
  intros [He _] Hb Hi c Hc. destruct (decide (c = i)) as [->|]; [done|].
  destruct (decide (parent c = i)); [by apply Hb|by apply He].
Qed.

Lemma heap_root hs r i a :
  heap hs → hs !! 0%nat = Some r → hs !! i = Some a → iter_le r a.
Proof.
  intros Hh Hr. revert a. induction (lt_wf i) as [i _ IH]. intros a Ha.
  destruct (decide (i = 0%nat)) as [->|Hi]; [by simplify_eq|].
  pose proof (parent_lt i ltac:(lia)) as Hp.
  destruct (lookup_lt_is_Some_2 hs (parent i)) as [p Hpi].
  { apply lookup_lt_Some in Ha. lia. }
  transitivity p; [by eapply IH|]. eapply Hh; [|done..]. lia.
Qed.

(** ** Swapping *)

Lemma swap_spec hs i j a b :
  hs !! i = Some a → hs !! j = Some b → i ≠ j →
  ∃ hs', swap hs i j = Ok hs' ∧ hs' !! i = Some b ∧ hs' !! j = Some a ∧
    (∀ k, k ≠ i → k ≠ j → hs' !! k = hs !! k) ∧ hs' ≡ₚ hs.
Proof.
  intros Hi Hj Hne. unfold swap. rewrite Hi, Hj. cbn [of_option mbind res_bind].
  pose proof (lookup_lt_Some _ _ _ Hi). pose proof (lookup_lt_Some _ _ _ Hj).
  eexists. split; [done|].
  assert (<[j := a]> (<[i := b]> hs) !! i = Some b) as H1
    by (rewrite list_lookup_insert_ne, list_lookup_insert_eq by done; done).
  assert (<[j := a]> (<[i := b]> hs) !! j = Some a) as H2
    by (rewrite list_lookup_insert_eq by (rewrite length_insert; done); done).
  assert (∀ k, k ≠ i → k ≠ j → <[j := a]> (<[i := b]> hs) !! k = hs !! k) as H3
    by (intros k Hki Hkj; rewrite !list_lookup_insert_ne by done; done).
  split_and!; [done..|].
  apply Permutation_inj. split; [by rewrite !length_insert|].
  exists (λ k, if decide (k = i) then j else if decide (k = j) then i else k). split.
  - intros x y. repeat case_decide; congruence.
  - intros k. repeat case_decide; subst; [by rewrite H1|by rewrite H2|by apply H3].
Qed.

Lemma less_spec hs i j a b : hs !! i = Some a → hs !! j = Some b → less hs i j = Ok (iter_less a b).
Proof. intros Hi Hj. unfold less. by rewrite Hi, Hj. Qed.

(** ** Sifting up *)

(** Swapping a child [j] with its parent [i], when the child is smaller. *)
Lemma swap_up hs hs' i j a b :
  (0 < j)%nat → parent j = i → heap_but hs j → below_ok hs j →
  hs !! i = Some a → hs !! j = Some b → iter_le b a →
  hs' !! i = Some b → hs' !! j = Some a → (∀ k, k ≠ i → k ≠ j → hs' !! k = hs !! k) →
  heap_but hs' i ∧ below_ok hs' i.
Proof.
  intros Hj Hp [He Hs] Hb Hi Hj' Hle Hi1 Hj1 Hk.
  pose proof (parent_lt j Hj) as Hlt. rewrite Hp in Hlt.
  assert (∀ c, (0 < c)%nat → parent c = i → edge_ok hs' c) as Hbelow.
  { intros c Hc Hpc x p Hx Hpx. rewrite Hpc, Hi1 in Hpx. injection Hpx as <-.
    destruct (decide (c = j)) as [->|Hcj]; [by simplify_eq|].
    assert (c ≠ i) by (pose proof (parent_lt c Hc); lia).
    rewrite Hk in Hx by done. transitivity a; [done|].
    eapply (He c Hc Hcj); [lia|done|by rewrite Hpc]. }
  split; [split|exact Hbelow].
  - intros c Hc Hci Hpc x p Hx Hpx.
    destruct (decide (c = j)) as [->|Hcj]; [by rewrite Hp in Hpc|].
    rewrite Hk in Hx by done. destruct (decide (parent c = j)) as [Hpj|Hpj].
    + rewrite Hpj, Hj1 in Hpx. injection Hpx as <-.
      eapply (Hs c x a); [done..|]. by rewrite Hp.
    + rewrite Hk in Hpx by done. by eapply (He c).
  - intros c x p Hi0 Hc Hpc Hx Hpx.
    pose proof (parent_lt i Hi0) as Hpi. rewrite Hk in Hpx by lia.
    assert (iter_le p a) as Hpa.
    { eapply (He i); [done|lia|lia|done|done]. }
    destruct (decide (c = j)) as [->|Hcj]; [by simplify_eq|].
    assert (c ≠ i) by (pose proof (parent_lt c Hc); lia).
    rewrite Hk in Hx by done. transitivity a; [done|].
    eapply (He c Hc Hcj); [lia|done|by rewrite Hpc].
Qed.

Lemma up_loop_spec fuel hs j :
  (j < fuel)%nat → (j < length hs)%nat → heap_but hs j → below_ok hs j →
  ∃ hs', up_loop fuel hs j = Ok hs' ∧ heap hs' ∧ hs' ≡ₚ hs.
Proof.
  revert hs j. induction fuel as [|fuel IH]; intros hs j Hf Hj Hbut Hbelow; [lia|]. cbn [up_loop].
  destruct (decide (parent j = j)) as [Hp|Hp].
  { assert (j = 0%nat) as -> by (destruct j; [done|]; pose proof (parent_lt (S j)); lia).
    exists hs. split; [done|]. split; [|done]. apply (heap_but_heap _ 0); try done.
    intros a p Ha Hpa. rewrite parent_0 in Hpa. by simplify_eq. }
  assert (0 < j)%nat as Hj0 by (destruct j; [by rewrite parent_0 in Hp|lia]).
  pose proof (parent_lt j Hj0) as Hlt.
  destruct (lookup_lt_is_Some_2 hs (parent j)) as [a Ha]; [lia|].
  destruct (lookup_lt_is_Some_2 hs j) as [b Hb]; [lia|].
  rewrite (less_spec _ _ _ b a) by done. cbn [mbind res_bind].
  destruct (iter_less b a) eqn:Hless; cbn [negb].
  - destruct (swap_spec hs (parent j) j a b) as (hs1 & -> & H1 & H2 & Hk & Hperm); [done..|].
    cbn [mbind res_bind].
    destruct (swap_up hs hs1 (parent j) j a b) as [Hbut1 Hbelow1]; try done.
    { by apply iter_less_le. }
    destruct (IH hs1 (parent j)) as (hs' & -> & Hh & Hp'); [lia| |done..|].
    + by apply lookup_lt_is_Some_1.
    + exists hs'. split; [done|]. split; [done|]. by rewrite Hp'.
  - exists hs. split; [done|]. split; [|done]. apply (heap_but_heap _ j); try done.
    intros x p Hx Hpx. by simplify_eq.
Qed.

(** ** Sifting down *)

Lemma swap_down hs hs' i j a b :
  (0 < j)%nat → parent j = i → heap_but hs i →
  hs !! i = Some a → hs !! j = Some b → iter_le b a →
  (∀ c x, (0 < c)%nat → parent c = i → hs !! c = Some x → iter_le b x) →
  hs' !! i = Some b → hs' !! j = Some a → (∀ k, k ≠ i → k ≠ j → hs' !! k = hs !! k) →
  heap_but hs' j ∧ edge_ok hs' j.
Proof.
  intros Hj Hp [He Hs] Hi Hj' Hle Hmin Hi1 Hj1 Hk.
  pose proof (parent_lt j Hj) as Hlt. rewrite Hp in Hlt. split; [split|].
  - intros c Hc Hcj Hpc x p Hx Hpx. destruct (decide (c = i)) as [->|Hci].
    + rewrite Hi1 in Hx. injection Hx as <-. pose proof (parent_lt i Hc).
      rewrite Hk in Hpx by lia. by eapply (Hs j).
    + rewrite Hk in Hx by done. destruct (decide (parent c = i)) as [Hpi|Hpi].
      * rewrite Hpi, Hi1 in Hpx. injection Hpx as <-. by eapply Hmin.
      * rewrite Hk in Hpx by done. by eapply (He c).
  - intros c x p _ Hc Hpc Hx Hpx. rewrite Hp, Hi1 in Hpx. injection Hpx as <-.
    pose proof (parent_lt c Hc). rewrite Hk in Hx by lia.
    eapply (He c); [done|lia|lia|done|by rewrite Hpc].
  - intros x p Hx Hpx. rewrite Hp in Hpx. by simplify_eq.
Qed.

(** The choice of the smaller child. *)
Lemma smaller_child hs j1 :
  (j1 < length hs)%nat →
  ∃ right j b, (if decide (S j1 < length hs)%nat then less hs (S j1) j1 else Ok false) = Ok right ∧
    j = (if right : bool then S j1 else j1) ∧ (j1 ≤ j ≤ S j1)%nat ∧ hs !! j = Some b ∧
    ∀ c x, (j1 ≤ c ≤ S j1)%nat → hs !! c = Some x → iter_le b x.
Proof.
  intros Hj1. destruct (lookup_lt_is_Some_2 hs j1 Hj1) as [a Ha].
  case_decide as Hj2.
  - destruct (lookup_lt_is_Some_2 hs (S j1) Hj2) as [b Hb].
    rewrite (less_spec _ _ _ b a) by done. destruct (iter_less b a) eqn:Hless.
    + eexists true, _, b. split_and!; try done; [lia..|]. intros c x Hc Hx.
      destruct (decide (c = j1)) as [->|]; [simplify_eq; by apply iter_less_le|].
      replace c with (S j1) in Hx by lia. by simplify_eq.
    + eexists false, _, a. split_and!; try done; [lia..|]. intros c x Hc Hx.
      destruct (decide (c = j1)) as [->|]; [by simplify_eq|].
      replace c with (S j1) in Hx by lia. by simplify_eq.
  - eexists false, _, a. split_and!; try done; [lia..|]. intros c x Hc Hx.
    apply lookup_lt_Some in Hx as Hlt. replace c with j1 in Hx by lia. by simplify_eq.
Qed.

(** A slice of iterators is far too short for an index to overflow. *)
Definition fits (hs : Iters) : Prop := Z.of_nat (length hs) ≤ 2 ^ 61.

Lemma down_loop_spec fuel hs i :
  fits hs → (length hs < fuel + i)%nat → (i < length hs)%nat → heap_but hs i →
  ∃ hs' i', down_loop fuel hs i (length hs) = Ok (hs', i') ∧ hs' ≡ₚ hs ∧ (i ≤ i')%nat ∧
    (i' = i → hs' = hs ∧ below_ok hs i) ∧
    (i < i' → heap hs')%nat ∧ (edge_ok hs i → heap hs').
Proof.
  unfold fits. revert hs i. induction fuel as [|fuel IH]; intros hs i Hfit Hf Hi Hbut; [lia|].
  cbn [down_loop]. rewrite int64_id by (unfold is_int64; lia).
  replace (2 * Z.of_nat i + 1 <? 0) with false by lia. rewrite orb_false_r.
  assert (∀ c, (0 < c)%nat → parent c = i → (2 * i + 1 ≤ c ≤ S (2 * i + 1))%nat) as Hch.
  { intros c Hc Hp%parent_spec; lia. }
  assert (∀ hs', below_ok hs i → hs' = hs → heap_but hs i → edge_ok hs i → heap hs') as Hstay.
  { intros hs' Hb -> Hbt He. by eapply heap_but_heap. }
  destruct (Z.leb_spec (Z.of_nat (length hs)) (2 * Z.of_nat i + 1)) as [Hend|Hend].
  { assert (below_ok hs i) as Hb.
    { intros c Hc Hp a p Ha. apply lookup_lt_Some in Ha. specialize (Hch c Hc Hp). lia. }
    exists hs, i. split_and!; try done; [lia..|]. by apply Hstay. }
  replace (Z.to_nat (2 * Z.of_nat i + 1)) with (2 * i + 1)%nat by lia.
  destruct (smaller_child hs (2 * i + 1)) as (right & j & b & -> & Hj & Hjr & Hb & Hmin); [lia|].
  cbn [mbind res_bind]. rewrite <- Hj.
  assert (parent j = i) as Hp by (apply parent_spec; lia).
  destruct (lookup_lt_is_Some_2 hs i Hi) as [a Ha].
  rewrite (less_spec _ _ _ b a) by done. cbn [mbind res_bind].
  destruct (iter_less b a) eqn:Hless; cbn [negb].
  - destruct (swap_spec hs i j a b) as (hs1 & -> & H1 & H2 & Hk & Hperm); [done|done|lia|].
    cbn [mbind res_bind]. rewrite <- (Permutation_length Hperm).
    destruct (swap_down hs hs1 i j a b) as [Hbut1 Hedge1]; try done; [lia|by apply iter_less_le|..].
    { intros c x Hc Hpc. apply Hmin. by apply Hch. }
    pose proof (Permutation_length Hperm) as Hlen. apply lookup_lt_Some in Hb.
    destruct (IH hs1 j) as (hs' & i' & -> & Hp' & Hle & _ & _ & Hheap); [lia..|done|].
    exists hs', i'. split_and!; try done; try lia; [by rewrite Hp'|..]; intros; by apply Hheap.
  - assert (below_ok hs i) as Hbl.
    { intros c Hc Hpc x p Hx Hpx. rewrite Hpc in Hpx. simplify_eq.
      transitivity b; [done|]. eapply Hmin; [|done]. by apply Hch. }
    exists hs, i. split_and!; try done; [lia..|]. by apply Hstay.
Qed.

(** ** [Push] and [Fix] *)

Lemma heap_app_but hs li : heap hs → heap_but (hs ++ [li]) (length hs) ∧ below_ok (hs ++ [li]) (length hs).
Proof.
  intros Hh. assert (∀ c, (0 < c)%nat → parent c = length hs → (hs ++ [li]) !! c = None) as Hnone.
  { intros c Hc Hp. apply lookup_ge_None_2. pose proof (parent_lt c Hc). rewrite length_app; simpl. lia. }
  split; [split|].
  - intros c Hc Hne Hpc a p Ha Hp. pose proof (parent_lt c Hc).
    apply lookup_lt_Some in Ha as Hlt. rewrite length_app in Hlt. simpl in Hlt.
    rewrite lookup_app_l in Ha, Hp by lia. by eapply Hh.
  - intros c a p _ Hc Hp Ha. by rewrite Hnone in Ha.
  - intros c Hc Hp a p Ha. by rewrite Hnone in Ha.
Qed.

Lemma Iters_Push_heap hs li :
  heap hs → ∃ hs', Iters_Push hs li = Ok hs' ∧ heap hs' ∧ hs' ≡ₚ li :: hs.
Proof.
  intros Hh. destruct (heap_app_but hs li Hh) as [Hbut Hbelow].
  unfold Iters_Push, Iters_Len, up.
  replace (length (hs ++ [li]) - 1)%nat with (length hs) by (rewrite length_app; simpl; lia).
  destruct (up_loop_spec (S (length hs)) (hs ++ [li]) (length hs)) as (hs' & -> & Hh' & Hp);
    [lia|rewrite length_app; simpl; lia|done..|].
  exists hs'. split; [done|]. split; [done|]. rewrite Hp. symmetry. apply Permutation_cons_append.
Qed.

Lemma Iters_Fix_heap hs i :
  fits hs → (i < length hs)%nat → heap_but hs i →
  ∃ hs', Iters_Fix hs i = Ok hs' ∧ heap hs' ∧ hs' ≡ₚ hs.
Proof.
  intros Hfit Hi Hbut. unfold Iters_Fix, down, Iters_Len.
  destruct (down_loop_spec (S (length hs)) hs i) as (hs' & i' & -> & Hp & Hle & Hstay & Hmove & _);
    [done|lia|done..|].
  cbn [mbind res_bind]. destruct (decide (i < i')%nat) as [Hlt|Hge].
  - rewrite bool_decide_true by done. simpl. exists hs'. by auto.
  - rewrite bool_decide_false by done. simpl. destruct (Hstay ltac:(lia)) as [-> Hbelow].
    apply up_loop_spec; done || lia.
Qed.

(** Replacing the element at [i] of a heap leaves a heap except at [i]. *)
Lemma heap_insert_but hs i x : heap hs → (i < length hs)%nat → heap_but (<[i := x]> hs) i.
Proof.
  intros Hh Hi. split.
  - intros c Hc Hci Hpi a p Ha Hp. rewrite list_lookup_insert_ne in Ha, Hp by done. by eapply Hh.
  - intros c a p Hi0 Hc Hpc Ha Hp. pose proof (parent_lt c Hc). pose proof (parent_lt i Hi0).
    rewrite list_lookup_insert_ne in Ha, Hp by lia.
    destruct (lookup_lt_is_Some_2 hs i Hi) as [y Hy]. transitivity y.
    + by eapply (Hh i).
    + eapply (Hh c); [done|done|by rewrite Hpc].
Qed.

(** [Push] keeps the heap order and adds exactly the new iterator. *)
Theorem Iters_Push_spec hs li :
  heap hs → ∃ hs', Iters_Push hs li = Ok hs' ∧ heap hs' ∧ hs' ≡ₚ li :: hs.
Proof. apply Iters_Push_heap. Qed.

(** C39. After the iterator at any position of a heap was replaced, [Fix] at
    that position restores the heap order and keeps the iterators; the root is
    then a smallest iterator, and exhausted only when all of them are. *)
Theorem Iters_Fix_spec hs i x :
  fits hs → heap hs → (i < length hs)%nat →
  ∃ hs', Iters_Fix (<[i := x]> hs) i = Ok hs' ∧ heap hs' ∧ hs' ≡ₚ <[i := x]> hs ∧
    ∀ r li, hs' !! 0%nat = Some r → li ∈ hs' →
      iter_le r li ∧ (li_exhausted r = true → li_exhausted li = true).
Proof.
  intros Hfit Hh Hi.
  destruct (Iters_Fix_heap (<[i := x]> hs) i) as (hs' & Heq & Hh' & Hp).
  - unfold fits in *. by rewrite length_insert.
  - by rewrite length_insert.
  - by apply heap_insert_but.
  - exists hs'. split_and!; try done. intros r li Hr [k Hk]%list_elem_of_lookup.
    pose proof (heap_root hs' r k li Hh' Hr Hk) as Hle. split; [done|].
    apply iter_le_spec in Hle. destruct (li_exhausted r), (li_exhausted li); naive_solver.
Qed.

(** ** Witnesses *)

Definition ex_iter (k : Key) (ex : bool) : Iter :=
  mkIter k 0 0 (mkItem k []) None 1 1 ex false.

Definition ex_heap : Iters := [ex_iter 2 false; ex_iter 7 false; ex_iter 4 false; ex_iter 1 true].

Lemma ex_heap_heap : heap ex_heap.
Proof.
  intros [|[|[|[|c]]]] Hc a p Ha Hp; try lia; vm_compute in Ha, Hp; simplify_eq; vm_compute; reflexivity.
Qed.

Lemma Iters_Push_spec_witness :
  heap ex_heap ∧
  ∃ hs', Iters_Push ex_heap (ex_iter 1 false) = Ok hs' ∧ heap hs' ∧ hs' ≡ₚ ex_iter 1 false :: ex_heap.
Proof. split; [apply ex_heap_heap|]. apply Iters_Push_spec, ex_heap_heap. Defined.

Lemma Iters_Fix_spec_witness :
  ∃ hs', Iters_Fix (<[0%nat := ex_iter 9 false]> ex_heap) 0 = Ok hs' ∧ heap hs' ∧
    hs' ≡ₚ <[0%nat := ex_iter 9 false]> ex_heap ∧
    ∀ r li, hs' !! 0%nat = Some r → li ∈ hs' →
      iter_le r li ∧ (li_exhausted r = true → li_exhausted li = true).
Proof.
  apply Iters_Fix_spec; [vm_compute; discriminate|apply ex_heap_heap|cbn; lia].
Defined.
