(* ===== verification/Index.v ===== *)
(** * index/index.go: the in-memory index of a consumer

    A b-tree from first keys to the locations of the batches that start with
    that key, in the order in which they were added.

    The values of the tree are slices.  [Copy] copies the tree but not the arrays
    of the slices, so that two indexes may use one array, and an [append] that
    finds room behind its slice writes to the array of both.  An index has the
    list of each slice and, in [idx_backing], where in which array the list ends;
    arrays get a number when an index is copied ([number_arrays]), and a [Set]
    that writes to a numbered array ([Set_write]) changes the lists of the other
    indexes that use it ([overwrite]).  [IndexSlices.v] proves that this is what
    slices over arrays in a shared store do. *)

From S2P Require Import Prelude BTree Item Vlog VlogIter.

(** Where a slice is: the number of its array, if another index may use the array
    too, the place in the array where the slice ends, and the end of the array. *)
Record backing := mkBacking {
  ba_array : option nat;
  ba_end : nat;
  ba_cap : nat;
}.

Record Index (T : Type → Type) := mkIndex {
  idx_m : T (list Location);
  idx_len : Off;
  idx_nentries : Off;
  idx_backing : gmap Key backing;
}.
Arguments mkIndex {T} _ _ _ _.
Arguments idx_m {T} _.
Arguments idx_len {T} _.
Arguments idx_nentries {T} _.
Arguments idx_backing {T} _.

Record Trailer := mkTrailer { TotalEntries : Off }.

(** [Iter]: the entries the iterator of the tree has not reached yet, and the
    locations of the current one. *)
Record IndexIter := mkIndexIter {
  ii_iter : list (Key * list Location);
  ii_curr : list Location;
}.

(** There is room behind the slice. *)
Definition has_room (a : backing) : bool := (ba_end a <? ba_cap a)%nat.
Arguments has_room : simpl never.

(** [append] of one element to a slice, which is [n] long then: in place if there
    is room, else in a new array. *)
Definition append_backing `{Host} (n : nat) (a : option backing) : backing :=
  match a with
  | Some a => if has_room a then mkBacking (ba_array a) (S (ba_end a)) (ba_cap a) else mkBacking None n (append_cap n)
  | None => mkBacking None n (append_cap n)
  end.

(** The arrays with room get the number [n], if they have none. *)
Definition number_array (n : nat) (a : backing) : backing :=
  match ba_array a with
  | None => if has_room a then mkBacking (Some n) (ba_end a) (ba_cap a) else a
  | Some _ => a
  end.

Section index.
Context {T : Type → Type} `{BTree T}.

Definition empty_Index : Index T := mkIndex bt_empty 0 0 ∅.

(** [Set]; its result is the constant pair of [loc] and 0. *)
Definition Set_ `{Host} (loc : Location) (i : Index T) : Index T :=
  let oldLocs := default [] (bt_get (loc_Key loc) (idx_m i)) in
  mkIndex (bt_set (loc_Key loc) (oldLocs ++ [loc]) (idx_m i))
    (uint64 (idx_len i + loc_Len loc)) (uint64 (idx_nentries i + loc_Len loc))
    (<[loc_Key loc := append_backing (S (length oldLocs)) (idx_backing i !! loc_Key loc)]> (idx_backing i)).

(** Where [Set] writes the location, if that is in a numbered array. *)
Definition Set_write (loc : Location) (i : Index T) : option (nat * nat) :=
  a ← idx_backing i !! loc_Key loc;
  n ← ba_array a;
  if has_room a then Some (n, ba_end a) else None.

(** What this does to another index. *)
Definition overwrite (loc : Location) (w : nat * nat) (i : Index T) : Index T :=
  match idx_backing i !! loc_Key loc, bt_get (loc_Key loc) (idx_m i) with
  | Some a, Some locs =>
      if decide (ba_array a = Some w.1 ∧ ba_end a ≤ w.2 + length locs ∧ w.2 < ba_end a)%nat then
        mkIndex (bt_set (loc_Key loc) (<[(w.2 + length locs - ba_end a)%nat := loc]> locs) (idx_m i))
          (idx_len i) (idx_nentries i) (idx_backing i)
      else i
  | _, _ => i
  end.

Definition Delete (key : Key) (i : Index T) : res (Location * Index T) :=
  match bt_get key (idx_m i) with
  | None => Ok (zero_Location, i)
  | Some [] => Panic
  | Some (old :: rest) =>
      let len := uint64 (idx_len i - loc_Len old) in
      let nentries := uint64 (idx_nentries i + loc_Len old) in
      match rest with
      | _ :: _ => Ok (old, mkIndex (bt_set key rest (idx_m i)) len nentries (idx_backing i))
      | [] => Ok (old, mkIndex (bt_delete key (idx_m i)) len nentries (delete key (idx_backing i)))
      end
  end.

Definition Len (i : Index T) : Off := idx_len i.

Definition NEntries (i : Index T) : Off := idx_nentries i.

Definition Index_Trailer (i : Index T) : Trailer := mkTrailer (idx_len i).

(** The copy has the same slices, hence the same arrays. *)
Definition Copy (i : Index T) : Index T := mkIndex (idx_m i) (idx_len i) (idx_nentries i) (idx_backing i).

(** The index that is copied, with a number for all arrays that will be shared and
    may be written to. *)
Definition number_arrays (n : nat) (i : Index T) : Index T :=
  mkIndex (idx_m i) (idx_len i) (idx_nentries i) (number_array n <$> idx_backing i).

(** The numbers that are in use. *)
Definition array_numbers (i : Index T) : list nat := omap (λ kv, ba_array kv.2) (map_to_list (idx_backing i)).

Definition IIter (i : Index T) : IndexIter := mkIndexIter (bt_items (idx_m i)) [].
End index.

Definition INext (i : IndexIter) : bool * IndexIter :=
  match ii_curr i with
  | _ :: ((_ :: _) as curr) => (true, mkIndexIter (ii_iter i) curr)
  | _ =>
      match ii_iter i with
      | (_, ls) :: iter => (true, mkIndexIter iter ls)
      | [] => (false, i)
      end
  end.

Definition IValue (i : IndexIter) : Location :=
  match ii_curr i with
  | [] => zero_Location
  | loc :: _ => loc
  end.

(** [for iter.Next() { f(iter.Value()) }], where [f] returns [false] to break.
    Every turn consumes a location or an entry of the tree. *)
Fixpoint for_locs {St} (fuel : nat) (it : IndexIter) (f : Location → M St bool) : M St unit :=
  match fuel with
  | O => lift NoFuel
  | S fuel =>
      let '(ok, it) := INext it in
      if ok : bool then
        continue ← f (IValue it);
        if continue : bool then for_locs fuel it f else mret tt
      else mret tt
  end.

Definition iter_fuel (it : IndexIter) : nat :=
  S (length (ii_curr it) + length (ii_iter it) + length (concat (ii_iter it).*2)).

(** ** What an index holds *)

Section spec.
Context {T : Type → Type} `{BTreeLaws T}.
Implicit Types (i : Index T) (loc : Location) (k : Key).

(** The locations under one key, first in first out. *)
Definition lst i k : list Location := default [] (bt_get k (idx_m i)).

(** All locations in the order of iteration. *)
Definition index_locs i : list Location := concat (bt_items (idx_m i)).*2.

Definition sum_len (locs : list Location) : Z := foldr (λ loc n, loc_Len loc + n) 0 locs.

Record wf_index i : Prop := {
  wfi_lists : ∀ k ls, bt_get k (idx_m i) = Some ls → ls ≠ [] ∧ Forall (λ loc, loc_Key loc = k) ls;
  wfi_len : idx_len i = uint64 (sum_len (index_locs i));
  wfi_backing : ∀ k, is_Some (idx_backing i !! k) → is_Some (bt_get k (idx_m i));
}.

(** Two indexes that cannot be told apart by the code. *)
Definition idx_equiv i j : Prop := ∀ k, lst i k = lst j k.

#[global] Instance idx_equiv_equivalence : Equivalence idx_equiv.
Proof. split; [done|by intros i j Hij k|by intros i j l Hij Hjl k; rewrite Hij]. Qed.
End spec.

(** ** Lists of locations by key *)

Abbreviation at_key k := (filter (λ loc, loc_Key loc = k)).

Definition keys_sorted (locs : list Location) : Prop := StronglySorted Z.le (loc_Key <$> locs).

Lemma at_key_ne k locs : Forall (λ loc, k < loc_Key loc) locs → at_key k locs = [].
Proof.
  intros Hf. induction Hf as [|loc locs Hlt Hf IH]; [done|].
  rewrite filter_cons_False by lia. done.
Qed.

Lemma at_key_all k locs : Forall (λ loc, loc_Key loc = k) locs → at_key k locs = locs.
Proof.
  intros Hf. induction Hf as [|loc locs Heq Hf IH]; [done|].
  by rewrite filter_cons_True, IH.
Qed.

(** A list that is sorted by key is determined by its parts. *)
Lemma by_key_eq a b :
  keys_sorted a → keys_sorted b → (∀ k, at_key k a = at_key k b) → a = b.
Proof.
  unfold keys_sorted. revert b. induction a as [|x a IH]; intros b Ha Hb Heq.
  - destruct b as [|y b]; [done|]. specialize (Heq (loc_Key y)).
    by rewrite filter_cons_True in Heq.
  - destruct b as [|y b].
    { specialize (Heq (loc_Key x)). by rewrite filter_cons_True in Heq. }
    inversion Ha as [|? ? Ha' Hfa]; inversion Hb as [|? ? Hb' Hfb]; subst.
    rewrite Forall_fmap in Hfa, Hfb.
    assert (loc_Key x = loc_Key y) as Hk.
    { destruct (Z.lt_trichotomy (loc_Key x) (loc_Key y)) as [Hlt|[|Hlt]]; [exfalso|done|exfalso].
      - specialize (Heq (loc_Key x)). rewrite filter_cons_True in Heq by done.
        rewrite (at_key_ne _ (y :: b)) in Heq; [done|]. constructor; [done|].
        eapply Forall_impl; [eassumption|]. simpl. lia.
      - specialize (Heq (loc_Key y)). rewrite (filter_cons_True _ y) in Heq by done.
        rewrite (at_key_ne _ (x :: a)) in Heq; [done|]. constructor; [done|].
        eapply Forall_impl; [eassumption|]. simpl. lia. }
    pose proof (Heq (loc_Key x)) as Hx. rewrite !filter_cons_True in Hx by done.
    injection Hx as -> Hx. f_equal. apply IH; try done. intros k.
    specialize (Heq k). destruct (decide (loc_Key y = k)).
    + rewrite !filter_cons_True in Heq by done. by injection Heq.
    + by rewrite !filter_cons_False in Heq by done.
Qed.

Lemma by_key_perm a b : (∀ k, at_key k a ≡ₚ at_key k b) → a ≡ₚ b.
Proof.
  revert b. induction a as [|x a IH]; intros b Heq.
  - destruct b as [|y b]; [done|]. specialize (Heq (loc_Key y)).
    rewrite filter_cons_True in Heq by done. by apply Permutation_nil_cons in Heq.
  - assert (x ∈ b) as Hin.
    { specialize (Heq (loc_Key x)). rewrite filter_cons_True in Heq by done.
      assert (x ∈ at_key (loc_Key x) b) as Hx by (rewrite <- Heq; set_solver).
      by apply list_elem_of_filter in Hx as [_ ?]. }
    apply elem_of_Permutation in Hin as [b' Hb]. rewrite Hb. constructor. apply IH. intros k.
    specialize (Heq k). rewrite Hb in Heq. destruct (decide (loc_Key x = k)).
    + rewrite !filter_cons_True in Heq by done. by apply Permutation_cons_inv in Heq.
    + by rewrite !filter_cons_False in Heq by done.
Qed.

Lemma sum_len_app a b : sum_len (a ++ b) = sum_len a + sum_len b.
Proof. induction a; simpl; lia. Qed.

#[global] Instance sum_len_perm : Proper (Permutation ==> eq) sum_len.
Proof. intros a b Hp. induction Hp; simpl; lia. Qed.

Lemma sum_len_cons a b : sum_len (a :: b) = loc_Len a + sum_len b.
Proof. done. Qed.

(** ** The operations on the lists *)

(** The same facts on a sorted association list. *)
Definition al_keyed (l : list (Z * list Location)) : Prop :=
  Forall (λ p, p.2 ≠ [] ∧ Forall (λ loc, loc_Key loc = p.1) p.2) l.

Lemma al_keyed_keys l loc :
  al_keyed l → loc ∈ concat l.*2 → loc_Key loc ∈ l.*1.
Proof.
  intros Hk Hin. induction Hk as [|[k ls] l [_ Hls] Hk IH]; [by apply elem_of_nil in Hin|].
  cbn in *. apply elem_of_app in Hin as [Hin|Hin]; [|by right; apply IH].
  rewrite Forall_forall in Hls. rewrite (Hls _ Hin). by left.
Qed.

Lemma al_concat_sorted l : al_sorted l → al_keyed l → keys_sorted (concat l.*2).
Proof.
  unfold keys_sorted. intros Hs Hk. induction Hk as [|[k ls] l [_ Hls] Hk IH]; [constructor|].
  cbn in *. inversion Hs as [|? ? Hs' Hf]; subst. rewrite fmap_app.
  specialize (IH Hs').
  assert (Forall (λ k', k < k') (loc_Key <$> concat l.*2)) as Hgt.
  { apply Forall_fmap, Forall_forall. intros loc Hin. rewrite Forall_forall in Hf.
    apply Hf. by apply al_keyed_keys. }
  clear Hf Hs. induction Hls as [|x ls Hx Hls IHls]; [done|]. cbn. constructor; [done|].
  apply Forall_app. split; [|eapply Forall_impl; [eassumption|]; simpl; lia].
  apply Forall_fmap. eapply Forall_impl; [eassumption|]. simpl. lia.
Qed.

Lemma al_concat_at_key l k :
  al_sorted l → al_keyed l → at_key k (concat l.*2) = default [] (al_get k l).
Proof.
  intros Hs Hk. induction Hk as [|[k' ls] l [_ Hls] Hk IH]; [done|]. cbn in *.
  inversion Hs as [|? ? Hs' Hf]; subst. rewrite filter_app, IH by done.
  case_decide as Heq; subst.
  - rewrite at_key_all by done.
    destruct (al_get k' l) as [ls'|] eqn:E; cbn; [|by rewrite app_nil_r].
    apply al_get_elem in E; [|done]. rewrite Forall_forall in Hf.
    specialize (Hf k' ltac:(by apply (list_elem_of_fmap_2 fst) in E)). lia.
  - replace (at_key k ls) with (@nil Location); [done|]. symmetry.
    induction Hls as [|x ls Hx Hls IHls]; [done|]. rewrite filter_cons_False by congruence. done.
Qed.

Section ops.
Context {T : Type → Type} `{BTreeLaws T} `{Host}.
Implicit Types (i : Index T) (loc : Location) (k : Key).

Lemma wf_index_keyed i : wf_index i → al_keyed (bt_items (idx_m i)).
Proof.
  intros [Hl _ _]. apply Forall_forall. intros [k ls] Hin%bt_items_get. by apply Hl.
Qed.

Lemma index_locs_sorted i : wf_index i → keys_sorted (index_locs i).
Proof. intros Hwf. apply al_concat_sorted; [apply bt_items_sorted|by apply wf_index_keyed]. Qed.

Lemma index_locs_at_key i k : wf_index i → at_key k (index_locs i) = lst i k.
Proof.
  intros Hwf. unfold index_locs, lst. rewrite bt_get_items.
  apply al_concat_at_key; [apply bt_items_sorted|by apply wf_index_keyed].
Qed.

Lemma lst_keys i k : wf_index i → Forall (λ loc, loc_Key loc = k) (lst i k).
Proof.
  intros [Hl _ _]. unfold lst. destruct (bt_get k (idx_m i)) as [ls|] eqn:E; cbn; [|done].
  by apply Hl.
Qed.

(** Equivalent indexes iterate alike. *)
#[global] Instance lst_proper : Proper (idx_equiv ==> eq ==> eq) (lst (T := T)).
Proof. intros i j Hij k ? <-. apply Hij. Qed.

Lemma index_locs_equiv i j : wf_index i → wf_index j → idx_equiv i j → index_locs i = index_locs j.
Proof.
  intros Hi Hj Hij. apply by_key_eq; [by apply index_locs_sorted..|]. intros k.
  by rewrite !index_locs_at_key, Hij.
Qed.

(** An index is well formed when its lists are and its length is right. *)
Lemma wf_empty : wf_index (empty_Index : Index T).
Proof.
  split; cbn.
  - intros k ls. by rewrite bt_get_empty.
  - unfold index_locs. cbn. by rewrite bt_items_empty.
  - intros k. rewrite lookup_empty. by intros [].
Qed.

Lemma lst_empty k : lst (empty_Index : Index T) k = [].
Proof. unfold lst. cbn. by rewrite bt_get_empty. Qed.

Lemma lst_Set loc i k :
  lst (Set_ loc i) k = lst i k ++ (if decide (loc_Key loc = k) then [loc] else []).
Proof.
  unfold lst, Set_. cbn. rewrite bt_get_set. repeat case_decide; subst; try done. by rewrite app_nil_r.
Qed.

(** The lists of the result of an operation, from those of its argument. *)
Lemma lists_ok_perm i j :
  wf_index i → (∀ k ls, bt_get k (idx_m j) = Some ls → ls ≠ [] ∧ Forall (λ loc, loc_Key loc = k) ls) →
  ∀ extra, (∀ k, lst j k ≡ₚ at_key k extra ++ lst i k) → index_locs j ≡ₚ extra ++ index_locs i.
Proof.
  intros Hwf Hl extra Hp. apply by_key_perm. intros k.
  assert (al_keyed (bt_items (idx_m j))) as Hk.
  { apply Forall_forall. intros [k' ls] Hin%bt_items_get. by apply Hl. }
  unfold index_locs at 1. rewrite al_concat_at_key by (done || apply bt_items_sorted).
  rewrite <- bt_get_items. fold (lst j k). rewrite Hp, filter_app. by rewrite index_locs_at_key.
Qed.

Lemma wf_Set loc i : wf_index i → wf_index (Set_ loc i) ∧ index_locs (Set_ loc i) ≡ₚ loc :: index_locs i.
Proof.
  intros Hwf. pose proof Hwf as [Hl Hlen Hba].
  assert (∀ k ls, bt_get k (idx_m (Set_ loc i)) = Some ls →
    ls ≠ [] ∧ Forall (λ loc, loc_Key loc = k) ls) as Hl'.
  { intros k ls. cbn. rewrite bt_get_set. case_decide; [|apply Hl]. intros [= <-]; subst.
    split; [by destruct (default [] _)|]. apply Forall_app. split; [|by constructor].
    apply (lst_keys i). done. }
  assert (index_locs (Set_ loc i) ≡ₚ [loc] ++ index_locs i) as Hp.
  { apply lists_ok_perm; [done..|]. intros k. rewrite lst_Set, Permutation_app_comm. f_equiv.
    case_decide; [by rewrite filter_cons_True|by rewrite filter_cons_False]. }
  split; [|done]. split; [done| |].
  - rewrite Hp. cbn [app]. rewrite sum_len_cons.
    unfold Set_. cbn [idx_len]. rewrite Hlen. unfold uint64.
    rewrite Z.add_mod_idemp_l by lia. f_equal. lia.
  - intros k. cbn. rewrite lookup_insert_is_Some', bt_get_set. case_decide; [by intros _; eexists|].
    intros [?|?]; [done|by apply Hba].
Qed.

Lemma Delete_cases key i :
  wf_index i → ∃ i', Delete key i = Ok (default zero_Location (head (lst i key)), i') ∧
    wf_index i' ∧ (∀ k, lst i' k = if decide (key = k) then tail (lst i k) else lst i k) ∧
    index_locs i ≡ₚ option_list (head (lst i key)) ++ index_locs i'.
Proof.
  intros Hwf. pose proof Hwf as [Hl Hlen Hba]. unfold Delete.
  destruct (bt_get key (idx_m i)) as [[|old rest]|] eqn:E.
  { by apply Hl in E as [? _]. }
  2: { exists i. assert (lst i key = []) as Hn by (unfold lst; by rewrite E). rewrite Hn.
       split_and!; try done. intros k. case_decide; [|done]. subst. by rewrite Hn. }
  assert (lst i key = old :: rest) as Hlst by (unfold lst; by rewrite E). rewrite Hlst. cbn.
  set (m' := match rest with [] => bt_delete key (idx_m i) | _ :: _ => bt_set key rest (idx_m i) end).
  set (ba' := match rest with [] => delete key (idx_backing i) | _ :: _ => idx_backing i end).
  set (i' := mkIndex m' (uint64 (idx_len i - loc_Len old)) (uint64 (idx_nentries i + loc_Len old)) ba').
  exists i'. split; [by unfold i', m', ba'; destruct rest|].
  assert (∀ k, bt_get k m' = if decide (key = k) then (match rest with [] => None | _ => Some rest end)
                             else bt_get k (idx_m i)) as Hget.
  { intros k. unfold m'. destruct rest; [by rewrite bt_get_delete|by rewrite bt_get_set]. }
  assert (∀ k, lst i' k = if decide (key = k) then tail (lst i k) else lst i k) as Hlst'.
  { intros k. unfold lst at 1. cbn. rewrite Hget. case_decide; [|done]. subst. rewrite Hlst.
    by destruct rest. }
  apply Hl in E as [_ Hks]. inversion Hks as [|? ? Hold Hrest]; subst.
  assert (∀ k ls, bt_get k m' = Some ls → ls ≠ [] ∧ Forall (λ loc, loc_Key loc = k) ls) as Hl'.
  { intros k ls. rewrite Hget. case_decide; [|apply Hl]. destruct rest; [done|]. intros [= <-].
    subst. done. }
  assert (index_locs i ≡ₚ [old] ++ index_locs i') as Hp.
  { apply by_key_perm. intros k. rewrite index_locs_at_key by done.
    rewrite filter_app. unfold index_locs.
    rewrite (al_concat_at_key _ _ (bt_items_sorted _)).
    2: { apply Forall_forall. intros [k' ls] Hin%bt_items_get. by apply Hl'. }
    rewrite <- bt_get_items. fold (lst i' k). rewrite Hlst'. case_decide; subst.
    - rewrite filter_cons_True by done. by rewrite Hlst.
    - by rewrite filter_cons_False. }
  split; [|by split]. split; [done| |].
  - cbn [idx_len i']. rewrite Hlen, Hp. cbn [app]. rewrite sum_len_cons. unfold uint64. rewrite Zminus_mod_idemp_l. f_equal. lia.
  - intros k. cbn [idx_backing idx_m i']. rewrite Hget. unfold ba'. destruct rest as [|x rest].
    + intros [a [Hne Ha]%lookup_delete_Some]. rewrite decide_False by done. apply Hba. by eexists.
    + intros Hk. case_decide; [by eexists|by apply Hba].
Qed.

#[global] Instance Set_proper : Proper (eq ==> idx_equiv ==> idx_equiv) (Set_ (T := T)).
Proof. intros loc ? <- i j Hij k. by rewrite !lst_Set, Hij. Qed.

(** The index is a first-in-first-out multimap: [Set] appends to the list
    of its key, [Delete] removes the oldest location of a key and returns it
    (or the zero location), other keys are untouched, the well-formedness
    (no empty lists, length equal to the sum of the batch lengths) is kept and
    [Delete] never panics. *)
Theorem Index_fifo i loc key :
  wf_index i →
  (wf_index (Set_ loc i) ∧
   ∀ k, lst (Set_ loc i) k = lst i k ++ (if decide (loc_Key loc = k) then [loc] else [])) ∧
  ∃ i', Delete key i = Ok (default zero_Location (head (lst i key)), i') ∧ wf_index i' ∧
    ∀ k, lst i' k = if decide (key = k) then tail (lst i k) else lst i k.
Proof.
  intros Hwf. split; [split; [by apply wf_Set|apply lst_Set]|].
  destruct (Delete_cases key i Hwf) as (i' & ? & ? & ? & _). by exists i'.
Qed.

(** *** Arrays *)

Implicit Types j : Index T.

(** No slice has room: nothing is ever written to the arrays again. *)
Definition full i : Prop := map_Forall (λ _ a, has_room a = false) (idx_backing i).

#[global] Instance full_decision i : Decision (full i) := _.

(** No array has a number. *)
Definition unnumbered i : Prop := map_Forall (λ _ a, ba_array a = None) (idx_backing i).

(** Two indexes that do not notice each other: neither writes to an array that
    the other one uses. *)
Definition disjoint_arrays i j : Prop := ∀ k a c n,
  idx_backing i !! k = Some a → idx_backing j !! k = Some c → ba_array a = Some n → ba_array c = Some n →
  has_room a = false ∧ has_room c = false.

(** What happened to the arrays of an index: no others that have numbers. *)
Definition same_arrays i i' : Prop := ∀ k a' n,
  idx_backing i' !! k = Some a' → ba_array a' = Some n →
  ∃ a, idx_backing i !! k = Some a ∧ ba_array a = Some n ∧ (has_room a = false → has_room a' = false).

#[global] Instance same_arrays_preorder : PreOrder same_arrays.
Proof.
  split; [intros i k a n Ha Hn; by exists a|]. intros i j l Hij Hjl k a n Ha Hn.
  destruct (Hjl k a n Ha Hn) as (b & Hb & Hbn & ?). destruct (Hij k b n Hb Hbn) as (c & ? & ? & ?). exists c. auto.
Qed.

Lemma disjoint_arrays_sym i j : disjoint_arrays i j → disjoint_arrays j i.
Proof. intros Hij k a c n Ha Hc Han Hcn. destruct (Hij k c a n Hc Ha Hcn Han). done. Qed.

Lemma disjoint_arrays_step i i' j : disjoint_arrays i j → same_arrays i i' → disjoint_arrays i' j.
Proof.
  intros Hij Hii k a' c n Ha' Hc Hn Hcn. destruct (Hii k a' n Ha' Hn) as (a & Ha & Han & Hroom).
  destruct (Hij k a c n Ha Hc Han Hcn). auto.
Qed.

Lemma same_arrays_backing i i' : idx_backing i' = idx_backing i → same_arrays i i'.
Proof. intros Heq k a n Ha Hn. rewrite Heq in Ha. by exists a. Qed.

Lemma same_arrays_Set loc i : same_arrays i (Set_ loc i).
Proof.
  intros k a' n. cbn. destruct (decide (loc_Key loc = k)) as [<-|Hne]; [|rewrite lookup_insert_ne by done; by exists a'].
  rewrite lookup_insert_eq. unfold append_backing. intros [= <-].
  destruct (idx_backing i !! loc_Key loc) as [a|]; [|done]. destruct (has_room a) eqn:Hr; [|done].
  intros Hn. exists a. split_and!; [done..|congruence].
Qed.

Lemma same_arrays_Delete key i loc i' : Delete key i = Ok (loc, i') → same_arrays i i'.
Proof.
  unfold Delete. destruct (bt_get key (idx_m i)) as [[|old [|x rest]]|]; [done| | |]; intros [= _ <-]; try done;
    [|by apply same_arrays_backing].
  intros k a n Ha Hn. cbn in Ha. apply lookup_delete_Some in Ha as [_ Ha]. by exists a.
Qed.

Lemma unnumbered_same i i' : unnumbered i → same_arrays i i' → unnumbered i'.
Proof.
  intros Hi Hii k a' Ha'. destruct (ba_array a') as [n|] eqn:Hn; [|done].
  destruct (Hii k a' n Ha' Hn) as (a & Ha & Han & _). specialize (Hi k a Ha). cbn in Hi. congruence.
Qed.

Lemma unnumbered_empty : unnumbered (empty_Index : Index T).
Proof. intros k a Ha. cbn in Ha. by rewrite lookup_empty in Ha. Qed.

Lemma unnumbered_disjoint i j : unnumbered i → disjoint_arrays i j.
Proof. intros Hi k a c n Ha _ Hn. specialize (Hi k a Ha). cbn in Hi. congruence. Qed.

(** A full index has nothing that needs a number, and its copy is on its own. *)
Lemma number_full n i : full i → number_arrays n i = i.
Proof.
  intros Hi. destruct i as [m len nentries ba]. unfold number_arrays. cbn in *. f_equal. apply map_eq. intros k.
  rewrite lookup_fmap. destruct (ba !! k) as [a|] eqn:Ha; [|done]. cbn. specialize (Hi k a Ha). cbn in Hi.
  unfold number_array. rewrite Hi. by destruct (ba_array a).
Qed.

Lemma full_disjoint i : full i → disjoint_arrays i i.
Proof. intros Hi k a c n Ha Hc _ _. split; [exact (Hi k a Ha)|exact (Hi k c Hc)]. Qed.

Lemma full_nil i : wf_index i → index_locs i = [] → full i.
Proof.
  intros Hwf Hnil k a Ha. destruct (wfi_backing _ Hwf k ltac:(by eexists)) as [locs Hlocs].
  destruct (wfi_lists _ Hwf k locs Hlocs) as [Hne _]. pose proof (index_locs_at_key i k Hwf) as Hk.
  rewrite Hnil in Hk. unfold lst in Hk. rewrite Hlocs in Hk. by destruct locs.
Qed.

(** A write to an array that [j] does not use, or whose contents it has fixed. *)
Lemma overwrite_disjoint loc w i j : Set_write loc i = Some w → disjoint_arrays i j → overwrite loc w j = j.
Proof.
  unfold Set_write, overwrite. destruct (idx_backing i !! loc_Key loc) as [a|] eqn:Ha; [|done]. cbn.
  destruct (ba_array a) as [n|] eqn:Hn; [|done]. cbn. destruct (has_room a) eqn:Hr; [|done]. intros [= <-] Hd.
  destruct (idx_backing j !! loc_Key loc) as [c|] eqn:Hc; [|done]. destruct (bt_get _ _) as [locs|]; [|done].
  cbn. case_decide as Hcase; [|done]. destruct Hcase as [Hcn _]. destruct (Hd _ _ _ _ Ha Hc Hn Hcn). congruence.
Qed.
End ops.

(** ** Iteration *)

(** What an iterator has not visited yet. *)
Definition remaining (it : IndexIter) : list Location :=
  tail (ii_curr it) ++ concat (ii_iter it).*2.

Definition iter_wf (it : IndexIter) : Prop := Forall (λ p, p.2 ≠ []) (ii_iter it).

Lemma INext_nil it : iter_wf it → remaining it = [] → INext it = (false, it).
Proof.
  unfold remaining, INext. intros Hwf [Htail Hrest]%app_eq_nil.
  assert (ii_iter it = []) as ->.
  { destruct Hwf as [|[k ls] iter Hls Hwf]; [done|]. cbn in *. by destruct ls. }
  destruct (ii_curr it) as [|a [|b curr]]; done.
Qed.

Lemma INext_cons it loc rest :
  iter_wf it → remaining it = loc :: rest →
  ∃ it', INext it = (true, it') ∧ iter_wf it' ∧ IValue it' = loc ∧ remaining it' = rest.
Proof.
  unfold remaining, INext. intros Hwf Hrem.
  destruct (ii_curr it) as [|a [|b curr]] eqn:Ec; cbn in Hrem.
  3: { eexists. split; [done|]. simplify_eq. done. }
  all: destruct (ii_iter it) as [|[k [|x ls]] iter] eqn:Ei; cbn in Hrem; [done| |];
    unfold iter_wf in Hwf; rewrite Ei in Hwf; inversion Hwf; [done|]; simplify_eq;
    (eexists; split; [done|]); done.
Qed.

Fixpoint each_while {St A} (f : A → M St bool) (l : list A) : M St unit :=
  match l with
  | [] => mret tt
  | x :: l => continue ← f x; if continue : bool then each_while f l else mret tt
  end.

Lemma for_locs_each {St} fuel it (f : Location → M St bool) s os :
  iter_wf it → (length (remaining it) < fuel)%nat →
  for_locs fuel it f s os = each_while f (remaining it) s os.
Proof.
  revert it s os. induction fuel as [|fuel IH]; intros it s os Hwf Hf; [lia|]. cbn [for_locs].
  destruct (remaining it) as [|loc rest] eqn:Hrem.
  - by rewrite (INext_nil it Hwf Hrem).
  - destruct (INext_cons it loc rest Hwf Hrem) as (it' & -> & Hwf' & -> & Hrem').
    cbn [each_while]. run. destruct (f loc s os) as [[[[]| | |] s'] os']; [|done..].
    rewrite IH; rewrite ?Hrem'; [done..|]. by apply Nat.succ_lt_mono.
Qed.

Section iteration.
Context {T : Type → Type} `{BTreeLaws T}.
Implicit Types i : Index T.

Lemma IIter_wf i : wf_index i → iter_wf (IIter i).
Proof.
  intros Hk%wf_index_keyed. eapply Forall_impl; [exact Hk|]. by intros [k ls] [? _].
Qed.

Lemma remaining_IIter i : remaining (IIter i) = index_locs i.
Proof. done. Qed.

Lemma for_locs_index {St} i (f : Location → M St bool) s os :
  wf_index i → for_locs (iter_fuel (IIter i)) (IIter i) f s os = each_while f (index_locs i) s os.
Proof.
  intros Hwf. rewrite for_locs_each; [done|by apply IIter_wf|].
  rewrite remaining_IIter. unfold iter_fuel. change (concat (ii_iter (IIter i)).*2) with (index_locs i). lia.
Qed.

(** A loop over an index terminates and visits exactly its locations:
    every location once, in ascending order of the keys and, under one key, in
    the order in which they were added. *)
Theorem Index_iteration {St} i (f : Location → M St bool) s os :
  wf_index i →
  for_locs (iter_fuel (IIter i)) (IIter i) f s os = each_while f (index_locs i) s os ∧
  StronglySorted Z.le (loc_Key <$> index_locs i) ∧
  ∀ k, at_key k (index_locs i) = lst i k.
Proof.
  intros Hwf. split; [by apply for_locs_index|]. split; [by apply index_locs_sorted|].
  intros k. by apply index_locs_at_key.
Qed.
End iteration.

(** ** Witnesses *)

#[local] Existing Instance Host_tiny.

Definition ex_index : Index slist :=
  Set_ (mkLocation 3 60 1) (Set_ (mkLocation 7 30 1) (Set_ (mkLocation 3 0 2) empty_Index)).

Lemma ex_index_wf : wf_index ex_index.
Proof. unfold ex_index. do 3 (apply wf_Set; try apply _). apply wf_empty. Qed.

Lemma Index_fifo_witness :
  (wf_index (Set_ (mkLocation 9 90 4) ex_index) ∧
   ∀ k, lst (Set_ (mkLocation 9 90 4) ex_index) k =
     lst ex_index k ++ (if decide (9 = k) then [mkLocation 9 90 4] else [])) ∧
  ∃ i', Delete 3 ex_index = Ok (mkLocation 3 0 2, i') ∧ wf_index i' ∧
    ∀ k, lst i' k = if decide (3 = k) then tail (lst ex_index k) else lst ex_index k.
Proof. exact (Index_fifo ex_index (mkLocation 9 90 4) 3 ex_index_wf). Defined.

Lemma Index_iteration_witness :
  for_locs (iter_fuel (IIter ex_index)) (IIter ex_index) (λ _, mret true) tt (mkOS ∅ [])
    = each_while (λ _, mret true) (index_locs ex_index) tt (mkOS ∅ []) ∧
  StronglySorted Z.le (loc_Key <$> index_locs ex_index) ∧
  ∀ k, at_key k (index_locs ex_index) = lst ex_index k.
Proof. exact (Index_iteration ex_index (λ _, mret true) tt (mkOS ∅ []) ex_index_wf). Defined.

(** ** The items that an index makes reachable in a log *)

Definition sorted_items (its : Items) : Prop := StronglySorted Z.le (it_Key <$> its).

(** Locations with the batches they describe. *)
Definition batches (l : Log) (ps : list (Location * Items)) : Prop :=
  Forall (λ p, loc_ok l p.1 p.2 ∧ sorted_items p.2) ps.

(** The queue of a consumer, as a multiset of items. *)
Definition holds {T} `{BTree T} (l : Log) (i : Index T) (its : Items) : Prop :=
  wf_index i ∧ ∃ ps, ps.*1 = index_locs i ∧ batches l ps ∧ its ≡ₚ concat ps.*2.

#[global] Instance holds_perm {T} `{BTree T} l (i : Index T) :
  Proper (Permutation ==> iff) (holds l i).
Proof.
  intros a b Hab. unfold holds. split; intros (Hwf & ps & H1 & H2 & H3);
    (split; [done|]); exists ps; (split; [done|]); (split; [done|]); by rewrite <- H3, Hab.
Qed.

#[global] Instance batches_perm l : Proper (Permutation ==> iff) (batches l).
Proof. unfold batches. solve_proper. Qed.

#[global] Instance concat_snd_perm :
  Proper (Permutation ==> Permutation) (λ ps : list (Location * Items), concat ps.*2).
Proof.
  intros a b Hab. induction Hab as [|x a b _ IH|x y a|a b c _ IH1 _ IH2]; cbn; [done| | |].
  - by rewrite IH.
  - by rewrite !app_assoc, (Permutation_app_comm y.2).
  - by rewrite IH1.
Qed.

(** Pairs can be rearranged along with their first components. *)
Lemma fst_perm_inv {A B} (ps : list (A * B)) (l : list A) :
  ps.*1 ≡ₚ l → ∃ qs, qs ≡ₚ ps ∧ qs.*1 = l.
Proof.
  intros Hp. symmetry in Hp. apply Permutation_map_inv in Hp as (qs & -> & Hqs).
  exists qs. by rewrite Hqs.
Qed.

Section holds.
Context {T : Type → Type} `{BTreeLaws T} `{Host}.
Implicit Types (l : Log) (i : Index T).

Lemma holds_intro l i ps its :
  wf_index i → index_locs i ≡ₚ ps.*1 → batches l ps → its ≡ₚ concat ps.*2 → holds l i its.
Proof.
  intros Hwf Hlocs Hb Hits. split; [done|].
  destruct (fst_perm_inv ps (index_locs i)) as (qs & Hq & Heq); [done|].
  exists qs. split; [done|]. rewrite Hq. split; [done|]. rewrite Hits.
  symmetry. by apply concat_snd_perm.
Qed.

Lemma holds_empty l : holds l (empty_Index : Index T) [].
Proof.
  apply (holds_intro _ _ []); [apply wf_empty| |constructor|done].
  unfold index_locs. cbn. by rewrite bt_items_empty.
Qed.

Lemma holds_Set l i its loc b :
  holds l i its → loc_ok l loc b → sorted_items b → holds l (Set_ loc i) (its ++ b).
Proof.
  intros (Hwf & ps & Hps & Hb & Hits) Hloc Hsorted. destruct (wf_Set loc i Hwf) as [Hwf' Hp].
  apply (holds_intro _ _ ((loc, b) :: ps)); [done|by rewrite Hp; cbn; rewrite Hps|by constructor|].
  cbn. rewrite Hits. apply Permutation_app_comm.
Qed.

Lemma holds_equiv l i j its : idx_equiv i j → wf_index j → holds l i its → holds l j its.
Proof.
  intros Hij Hj (Hwf & ps & Hps & Hb & Hits). split; [done|]. exists ps.
  by rewrite <- (index_locs_equiv i j).
Qed.

Lemma sum_len_batches l ps : batches l ps → sum_len ps.*1 = Z.of_nat (length (concat ps.*2)).
Proof.
  intros Hb. induction Hb as [|[loc b] ps [Hloc _] Hb IH]; [done|].
  change (sum_len ((loc, b) :: ps).*1) with (loc_Len loc + sum_len ps.*1).
  change (concat ((loc, b) :: ps).*2) with (b ++ concat ps.*2).
  cbn in Hloc. rewrite length_app, (loc_ok_Len _ _ _ Hloc). lia.
Qed.

(** [Len] is the number of reachable items. *)
Lemma holds_Len l i its : holds l i its → Len i = uint64 (Z.of_nat (length its)).
Proof.
  intros (Hwf & ps & Hps & Hb & ->). unfold Len. rewrite (wfi_len _ Hwf), <- Hps.
  by rewrite (sum_len_batches l).
Qed.

(** What an index holds stays the same in a log that keeps its batches. *)
Lemma holds_grow l l' i its :
  (∀ loc b, loc_ok l loc b → loc_ok l' loc b) → holds l i its → holds l' i its.
Proof.
  intros Hgrow (Hwf & ps & Hps & Hb & Hits). split; [done|]. exists ps. split_and!; try done.
  eapply Forall_impl; [exact Hb|]. intros [loc b] [Hloc Hs]. split; [|done]. by apply Hgrow.
Qed.

Lemma holds_pushed l items l' os' i its :
  readable l → pushed l items l' os' → holds l i its → holds l' i its.
Proof. intros Hl Hp. apply holds_grow. intros loc b. by eapply loc_ok_pushed. Qed.
End holds.
