(* ===== verification/IndexRecover.v ===== *)
(** * [index.FromVlog]: an index from the data in the value log *)

From S2P Require Import Prelude BTree Item Vlog VlogIter Index.

Section FromVlog.
Context {T : Type → Type} `{BTree T} `{Host}.

Definition loc_set_Key (k : Key) (loc : Location) : Location :=
  mkLocation k (loc_Off loc) (loc_Len loc).

Definition loc_set_Len (n : Off) (loc : Location) : Location :=
  mkLocation (loc_Key loc) (loc_Off loc) n.

(** The variables of the loop: [index], [prevLoc], [lastLoc], [isInitialItem]. *)
Record recovery := mkRecovery {
  rec_index : Index T;
  rec_prevLoc : Location;
  rec_lastLoc : Location;
  rec_isInitialItem : bool;
}.

(** The body of the loop, for the item [it]. *)
Definition FromVlog_step (it : Item) (r : recovery) : recovery :=
  let '(mkRecovery index prevLoc lastLoc isInitialItem) := r in
  let '(index, lastLoc) :=
    if it_Key it <? loc_Key prevLoc then
      (Set_ lastLoc index, mkLocation (it_Key it) (loc_Off prevLoc) 0)
    else (index, lastLoc) in
  let lastLoc := loc_set_Len (uint64 (loc_Len lastLoc + 1)) lastLoc in
  let lastLoc := if isInitialItem : bool then loc_set_Key (it_Key it) lastLoc else lastLoc in
  let prevLoc := mkLocation (it_Key it)
    (uint64 (loc_Off prevLoc + uint64 (HeaderSize + uint64 (blob_len it) + TrailerSize)))
    (loc_Len prevLoc) in
  mkRecovery index prevLoc lastLoc false.

Fixpoint FromVlog_loop (fuel : nat) (l : Log) (li : Iter) (r : recovery) : res (Iter * recovery) :=
  match fuel with
  | O => NoFuel
  | S fuel =>
      '(ok, li) ← Next l li;
      if ok : bool then FromVlog_loop fuel l li (FromVlog_step (Iter_Item li) r)
      else Ok (li, r)
  end.

(** Every turn moves the iterator forward in the log. *)
Definition FromVlog (l : Log) : res (Index T) :=
  let iter := At (mkLocation 0 0 (2 ^ 64 - 1)) true in
  '(iter, r) ← FromVlog_loop (S (Z.to_nat (log_size l))) l iter
                 (mkRecovery empty_Index zero_Location zero_Location true);
  match Iter_Err iter with
  | Some e => Err e
  | None =>
      if 0 <? loc_Len (rec_lastLoc r) then Ok (Set_ (rec_lastLoc r) (rec_index r))
      else Ok (rec_index r)
  end.
End FromVlog.
Arguments recovery T : clear implicits.
Arguments mkRecovery {T} _ _ _ _.

(** ** A log that holds complete items *)

Section spec.
Context {T : Type → Type} `{BTreeLaws T} `{Host} (l : Log) (Hl : readable l).

Lemma Next_reads li it :
  li_exhausted li = false → li_currLen li ≠ 0 → items_at l (li_currOff li) [it] → valid_item it →
  Next l li = Ok (true, advance (set_item it li)).
Proof.
  intros Hrun Hlen Hat Hval. pose proof Hl as [Ho Hs Hm].
  destruct (items_at_bounds l _ _ _ Hat) as (Hoff & _).
  unfold Next. rewrite Hrun, (uint64_id (log_size l)) by lia.
  replace (li_currLen li =? 0) with false by lia.
  replace ((0 <? mmap_len l) && (log_size l <=? li_currOff li)) with false by lia.
  cbn [orb Next_loop]. by rewrite (readItemAt_item l Hl _ it).
Qed.

(** The loop has seen the items [closed ++ run]: the index holds [closed], and
    [run] is the current run. *)
Record recovered (closed run : Items) (li : Iter) (r : recovery T) : Prop := {
  re_holds : holds l (rec_index r) closed;
  re_run : items_at l (storages closed) run;
  re_sorted : sorted_items run;
  re_valid : Forall valid_item run;
  re_last : run ≠ [] → loc_Key (rec_lastLoc r) = it_Key (default zero_Item (head run));
  re_last_Off : loc_Off (rec_lastLoc r) = storages closed;
  re_last_Len : loc_Len (rec_lastLoc r) = Z.of_nat (length run);
  re_prev_Off : loc_Off (rec_prevLoc r) = storages (closed ++ run);
  re_prev_Key : loc_Key (rec_prevLoc r) = it_Key (default zero_Item (last run));
  re_initial : rec_isInitialItem r = bool_decide (run = []);
  re_closed : run = [] → closed = [];
  re_running : li_exhausted li = false;
  re_err : li_err li = None;
  re_off : li_currOff li = storages (closed ++ run);
  re_len : li_currLen li = 2 ^ 64 - 1 - Z.of_nat (length (closed ++ run));
}.

Lemma run_loc_ok closed run li r :
  recovered closed run li r → run ≠ [] → loc_ok l (rec_lastLoc r) run.
Proof.
  intros [] Hne. split; try done.
  - rewrite re_last0 by done. by destruct run.
  - by rewrite re_last_Off0.
Qed.

Lemma sorted_items_snoc run it :
  sorted_items run → it_Key (default zero_Item (last run)) ≤ it_Key it ∨ run = [] →
  sorted_items (run ++ [it]).
Proof.
  unfold sorted_items. rewrite fmap_app. intros Hs Hle.
  induction run as [|x run IH]; [repeat constructor|]. cbn. inversion Hs as [|? ? Hs' Hf]; subst.
  destruct Hle as [Hle|?]; [|done].
  assert (it_Key x ≤ it_Key it) as Hx.
  { destruct run as [|y run _] using rev_ind; [done|].
    replace (x :: run ++ [y]) with ((x :: run) ++ [y]) in Hle by done.
    rewrite last_snoc in Hle. cbn in Hle. transitivity (it_Key y); [|done].
    rewrite Forall_forall in Hf. apply Hf. rewrite fmap_app. cbn. set_solver. }
  constructor.
  - apply IH; [done|]. destruct run; [by right|by left].
  - apply Forall_app. split; [done|]. by repeat constructor.
Qed.
Lemma storages_single it : storages [it] = storage it.
Proof. unfold storages. cbn [foldr]. lia. Qed.

Lemma FromVlog_step_new it index prevLoc lastLoc :
  it_Key it < loc_Key prevLoc → loc_Off prevLoc + storage it < 2 ^ 64 → 0 ≤ loc_Off prevLoc →
  FromVlog_step it (mkRecovery (T := T) index prevLoc lastLoc false) =
    mkRecovery (Set_ lastLoc index)
      (mkLocation (it_Key it) (loc_Off prevLoc + storage it) (loc_Len prevLoc))
      (mkLocation (it_Key it) (loc_Off prevLoc) 1) false.
Proof.
  intros Hk Hoff Hpos. unfold FromVlog_step, storage, HeaderSize, TrailerSize in *.
  pose proof (blob_len_nonneg it).
  replace (it_Key it <? loc_Key prevLoc) with true by lia. cbn [loc_set_Len loc_Key loc_Off loc_Len].
  rewrite (uint64_id (blob_len it)), (uint64_id (12 + _ + 2)), !uint64_id by lia. done.
Qed.

Lemma FromVlog_step_same it index prevLoc lastLoc b :
  loc_Key prevLoc ≤ it_Key it → loc_Off prevLoc + storage it < 2 ^ 64 → 0 ≤ loc_Off prevLoc →
  0 ≤ loc_Len lastLoc < 2 ^ 63 →
  FromVlog_step it (mkRecovery (T := T) index prevLoc lastLoc b) =
    mkRecovery index
      (mkLocation (it_Key it) (loc_Off prevLoc + storage it) (loc_Len prevLoc))
      (mkLocation (if b then it_Key it else loc_Key lastLoc) (loc_Off lastLoc) (loc_Len lastLoc + 1)) false.
Proof.
  intros Hk Hoff Hpos Hlen. unfold FromVlog_step, storage, HeaderSize, TrailerSize in *.
  pose proof (blob_len_nonneg it).
  replace (it_Key it <? loc_Key prevLoc) with false by lia.
  rewrite (uint64_id (blob_len it)), (uint64_id (12 + _ + 2)), !uint64_id by lia. by destruct b.
Qed.

Lemma FromVlog_step_recovered closed run li r it :
  recovered closed run li r → items_at l (storages (closed ++ run)) [it] → valid_item it →
  (run = [] → 0 ≤ it_Key it) →
  ∃ closed' run' li', Next l li = Ok (true, li') ∧ Iter_Item li' = it ∧
    recovered closed' run' li' (FromVlog_step it r) ∧ closed' ++ run' = (closed ++ run) ++ [it] ∧
    run' ≠ [].
Proof.
  intros Hrec Hat Hval Hfirst. pose proof Hl as [Ho Hs Hm].
  destruct (items_at_bounds l _ _ _ Hat) as (Hoff & Hend & _).
  pose proof (storages_ge (closed ++ run)) as Hge. pose proof (storage_ge it) as Hit.
  pose proof (run_loc_ok _ _ _ _ Hrec) as Hloc. destruct r as [index prevLoc lastLoc initial].
  destruct Hrec; cbn [rec_index rec_prevLoc rec_lastLoc rec_isInitialItem] in *.
  assert (Next l li = Ok (true, advance (set_item it li))) as Hnext.
  { apply Next_reads; [done| |by rewrite re_off0|done]. rewrite re_len0. lia. }
  assert (li_currOff (advance (set_item it li)) = storages ((closed ++ run) ++ [it])) as Hoff'.
  { cbn [advance set_item li_currOff li_item].
    rewrite re_off0, Item_StorageSize_spec, uint64_id, (storages_app _ [it]), storages_single by lia. done. }
  assert (li_currLen (advance (set_item it li)) = 2 ^ 64 - 1 - Z.of_nat (length ((closed ++ run) ++ [it])))
    as Hlen'.
  { cbn [advance set_item li_currLen]. rewrite re_len0, (length_app _ [it]). cbn [length]. rewrite uint64_id; lia. }
  assert (storages (closed ++ run) + storage it = storages ((closed ++ run) ++ [it])) as Hsum.
  { by rewrite (storages_app _ [it]), storages_single. }
  rewrite storages_app in Hge, Hoff, Hend.
  pose proof (storages_ge closed). pose proof (storages_ge run).
  rewrite length_app in Hge.
  destruct (Z.ltb_spec (it_Key it) (loc_Key prevLoc)) as [Hlt|Hle].
  - assert (run ≠ []) as Hne.
    { intros ->. specialize (Hfirst eq_refl). cbn in re_prev_Key0. lia. }
    rewrite bool_decide_false in re_initial0 by done. subst initial.
    rewrite FromVlog_step_new by (rewrite ?re_prev_Off0, ?storages_app; lia).
    exists (closed ++ run), [it], (advance (set_item it li)).
    split_and!; try done. split; cbn [rec_index rec_prevLoc rec_lastLoc rec_isInitialItem loc_Key loc_Off loc_Len]; rewrite ?re_prev_Off0; try done.
    + by apply holds_Set; [|apply Hloc|].
    + unfold sorted_items. repeat constructor.
    + by apply Forall_singleton.
  - rewrite FromVlog_step_same by (rewrite ?re_prev_Off0, ?re_last_Len0, ?storages_app; lia).
    exists closed, (run ++ [it]), (advance (set_item it li)).
    split_and!; try done; [|by rewrite app_assoc|by destruct run].
    split; cbn [rec_index rec_prevLoc rec_lastLoc rec_isInitialItem loc_Key loc_Off loc_Len]; rewrite ?re_prev_Off0, ?app_assoc; try done.
    + apply items_at_app. rewrite <- storages_app. split_and!; try done. 
      by rewrite storages_single, storages_app.
    + apply sorted_items_snoc; [done|]. left. by rewrite <- re_prev_Key0.
    + apply Forall_app. by rewrite Forall_singleton.
    + intros _. destruct run as [|x run]; cbn in *; [by rewrite re_initial0|].
      subst initial. by apply re_last0.
    + rewrite length_app. cbn. lia.
    + by rewrite last_snoc.
    + by destruct run.
    + by destruct run.
Qed.
(** The end of the loop: the last run is added to the index. *)
Lemma FromVlog_loop_recovered fuel closed run li r rest :
  recovered closed run li r → items_at l (storages (closed ++ run)) rest →
  storages (closed ++ run) + storages rest = log_size l → Forall valid_item rest →
  (run = [] → 0 ≤ it_Key (default zero_Item (head rest))) → (length rest < fuel)%nat →
  ∃ li' r' closed' run', FromVlog_loop fuel l li r = Ok (li', r') ∧ li_err li' = None ∧
    closed' ++ run' = (closed ++ run) ++ rest ∧
    holds l (rec_index r') closed' ∧ loc_Len (rec_lastLoc r') = Z.of_nat (length run') ∧
    sorted_items run' ∧ (run' = [] → closed' = []) ∧
    (run' ≠ [] → loc_ok l (rec_lastLoc r') run').
Proof.
  pose proof Hl as [Ho Hs Hm]. revert fuel closed run li r.
  induction rest as [|it rest IH]; intros [|fuel] closed run li r Hrec Hat Hsum Hval Hfirst Hf;
    cbn [length] in Hf; try lia; cbn [FromVlog_loop].
  - assert (Next l li = Ok (false, set_exhausted li)) as ->.
    { destruct Hrec. unfold Next. rewrite re_running0, re_off0, orb_false_r.
      case_match; [done|]. rewrite uint64_id by lia.
      replace (0 <? mmap_len l) with true by lia. cbn in Hsum.
      by replace (log_size l <=? storages (closed ++ run)) with true by lia. }
    cbn [mbind res_bind]. eexists _, _, closed, run. split; [done|].
    pose proof (run_loc_ok _ _ _ _ Hrec). destruct Hrec. split_and!; try done.
    by rewrite app_nil_r.
  - apply items_at_cons in Hat as [Hit Hrest]. inversion Hval as [|? ? Hv Hvs]; subst.
    destruct (FromVlog_step_recovered closed run li r it)
      as (closed1 & run1 & li1 & -> & Hitem & Hrec1 & Happ & Hne); [done..|].
    cbn [mbind res_bind]. rewrite Hitem.
    assert (storages (closed1 ++ run1) = storages (closed ++ run) + storage it) as Hst.
    { by rewrite Happ, (storages_app _ [it]), storages_single. }
    destruct (IH fuel closed1 run1 li1 (FromVlog_step it r))
      as (li' & r' & closed' & run' & Heq & ? & Happ' & ?); try done.
    + by rewrite Hst.
    + rewrite Hst, <- Hsum. cbn. fold (storages rest). lia.
    + lia.
    + exists li', r', closed', run'. split; [done|]. split; [done|]. split; [|done].
      by rewrite Happ', Happ, <- !app_assoc.
Qed.

Lemma FromVlog_holds its :
  contents l = enc_items its → Forall valid_item its →
  0 ≤ it_Key (default zero_Item (head its)) →
  ∃ i : Index T, FromVlog l = Ok i ∧ holds l i its.
Proof.
  intros Hc Hval Hfirst. pose proof Hl as [Ho Hs Hm].
  destruct (contents_items_at l Hl its Hc) as [Hat Hsize].
  unfold FromVlog.
  destruct (FromVlog_loop_recovered (S (Z.to_nat (log_size l))) [] []
    (At (mkLocation 0 0 (2 ^ 64 - 1)) true) (mkRecovery (empty_Index : Index T) zero_Location zero_Location true) its)
    as (li & r & closed & run & -> & He & Happ & Hh & Hlen & Hsorted & Hcl & Hloc); try done.
  - split; try done; [apply holds_empty|split_and!; cbn; done || lia|constructor].
  - rewrite Hsize. pose proof (storages_ge its). lia.
  - cbn [mbind res_bind]. unfold Iter_Err. rewrite He, Hlen. cbn [app] in Happ.
    destruct run as [|x run].
    + rewrite (Hcl eq_refl) in *. cbn. exists (rec_index r). by rewrite <- Happ.
    + replace (0 <? Z.of_nat (length (x :: run))) with true by (cbn [length]; lia).
      eexists. split; [done|]. rewrite <- Happ. apply holds_Set; [done|by apply Hloc|done].
Qed.

Lemma FromVlog_loop_unnumbered fuel li r li' r' :
  unnumbered (rec_index r) → FromVlog_loop fuel l li r = Ok (li' : Iter, r' : recovery T) → unnumbered (rec_index r').
Proof.
  revert li r. induction fuel as [|fuel IH]; intros li r Hr; cbn [FromVlog_loop]; [done|].
  destruct (Next l li) as [[ok li1]| | |]; cbn [mbind res_bind]; try done. destruct ok; [|by intros [= _ <-]].
  apply IH. destruct r as [i prevLoc lastLoc initial]. unfold FromVlog_step. destruct (_ <? _); cbn in *; [|done].
  eapply unnumbered_same; [done|apply same_arrays_Set].
Qed.

(** An index that was recovered shares no array. *)
Lemma FromVlog_unnumbered (i : Index T) : FromVlog l = Ok i → unnumbered i.
Proof.
  unfold FromVlog. destruct (FromVlog_loop _ _ _ _) as [[li r]| | |] eqn:Hloop; cbn [mbind res_bind]; try done.
  apply FromVlog_loop_unnumbered in Hloop; [|apply unnumbered_empty]. destruct (Iter_Err li); [done|].
  destruct (_ <? _); intros [= <-]; [|done]. eapply unnumbered_same; [done|apply same_arrays_Set].
Qed.

(** C35. Recovery without loss: for a log that holds the items [its], the index
    that [FromVlog] builds makes exactly these items reachable, in batches that
    are sorted, provided that the first key of the log is not negative. *)
Theorem FromVlog_complete its :
  contents l = enc_items its → Forall valid_item its →
  0 ≤ it_Key (default zero_Item (head its)) →
  ∃ i : Index T, FromVlog l = Ok i ∧ holds l i its.
Proof. apply FromVlog_holds. Qed.
End spec.

(** ** Witnesses *)

#[local] Existing Instance Host_tiny.

Lemma FromVlog_complete_witness :
  ∃ i : Index slist, FromVlog ex_pushed = Ok i ∧ holds ex_pushed i ex_items.
Proof.
  apply (FromVlog_complete ex_pushed ex_pushed_readable ex_items);
    [vm_compute; reflexivity|repeat constructor; vm_compute; done|vm_compute; discriminate].
Defined.

(** A log whose first key is negative. *)
Definition ex_negative : Log := Eval vm_compute in
  (@Push Host_tiny Unix_plain [mkItem (-4) []; mkItem 6 []] ex_log (ex_os [])).1.2.

(** For a log whose first key is negative, [FromVlog] also adds an entry
    of no items under key 0, in front of every batch with a key of 0 or more. *)
Theorem FromVlog_negative_first :
  ∃ i : Index slist, FromVlog ex_negative = Ok i ∧
    index_locs i = [mkLocation (-4) 0 2; mkLocation 0 0 0].
Proof. eexists. split; vm_compute; reflexivity. Qed.
