(* ===== verification/IndexFile.v ===== *)
(** * index/reader.go and index/writer.go: the index on disk

    An index file is a log of records of 24 bytes; loading it replays them. *)

From S2P Require Import Prelude BTree Os Item Vlog Index.

Definition IdxTrailerSize : Z := 4.

Definition LocationSize : Z := 8 + 8 + 4 + IdxTrailerSize.

(** ** The reader *)

Record Reader := mkReader {
  rd_rest : list byte;       (* what was not read from the file yet *)
  rd_err : option error;
}.

Definition NewReader (data : list byte) : Reader := mkReader data None.

(** [io.ReadFull] of one record: [None] at the end of the file. *)
Definition ReadFull (n : nat) : M Reader (option (list byte)) :=
  sys "read" ;;
  r ← get;
  match rd_rest r with
  | [] => mret None
  | bs =>
      put (mkReader (drop n bs) (rd_err r)) ;;
      if decide (n ≤ length bs)%nat then mret (Some (take n bs)) else fail EUnexpectedEOF
  end.

(** [Next(&loc)]: [Some] of the new value of [loc], or [None] for [false]. *)
Definition RNext : M Reader (option Location) :=
  r ← attempt (ReadFull (Z.to_nat LocationSize));
  match r with
  | inl e => modify (λ r, mkReader (rd_rest r) (Some e)) ;; mret None
  | inr None => mret None
  | inr (Some locBuf) =>
      mret (Some (mkLocation
        (int64 (be_decode (take 8 locBuf)))
        (be_decode (take 8 (drop 8 locBuf)))
        (be_decode (take 4 (drop 16 locBuf)))))
  end.

Definition RErr (r : Reader) : option error := rd_err r.

Section load.
Context {T : Type → Type} `{BTree T} `{Host}.

(** The body of the loop of [Load]. *)
Definition Load_step (loc : Location) (i : Index T) : res (Index T) :=
  if loc_Len loc =? 0 then '(_, i) ← Delete (loc_Key loc) i; Ok i
  else Ok (Set_ loc i).

(** Every turn reads a record; the fuel bounds their number. *)
Fixpoint Load_loop (fuel : nat) (i : Index T) : M Reader (Index T) :=
  match fuel with
  | O => lift NoFuel
  | S fuel =>
      next ← RNext;
      match next with
      | None => mret i
      | Some loc => i ← lift (Load_step loc i); Load_loop fuel i
      end
  end.

(** The index and the error of the reader are returned together; no caller
    looks at the index when there is an error. *)
Definition Load {St} (p : path) : M St (Index T) :=
  data ← OpenCreate p;
  '(i, rdr) ← with_local (NewReader data) (Load_loop (S (length data)) empty_Index);
  match RErr rdr with
  | None => mret i
  | Some e => fail e
  end.
End load.

Definition ReadTrailer {St} (p : path) : M St Trailer :=
  data ← OpenRead p;
  sys "stat" ;;
  if Z.of_nat (length data) <? LocationSize then mret (mkTrailer 0)
  else
    sys "seek" ;;
    r ← attempt (sys "read");
    match r with
    | inl _ => mret (mkTrailer 0)
    | inr _ => mret (mkTrailer (be_decode (drop (length data - Z.to_nat IdxTrailerSize) data)))
    end.

(** ** The writer *)

Record Writer := mkWriter {
  w_path : path;
  w_sync : bool;
  w_open : bool;
}.

(** The record that [Push] writes. *)
Definition enc_loc (loc : Location) (trailer : Trailer) : list byte :=
  be_encode 8 (uint64 (loc_Key loc)) ++ be_encode 8 (uint64 (loc_Off loc)) ++
  be_encode 4 (uint32 (loc_Len loc)) ++ be_encode 4 (uint32 (TotalEntries trailer)).

Section writer.
Context `{Unix}.

Definition NewWriter {St} (p : path) (sync : bool) : M St Writer :=
  OpenCreate p ;;
  mret (mkWriter p sync true).

Definition WPush {St} (w : Writer) (loc : Location) (trailer : Trailer) : M St unit :=
  if w_open w then WriteAppend (w_path w) (enc_loc loc trailer) else fail EClosed.

Definition WClose : M Writer unit :=
  w ← get;
  syncErr ← attempt (if w_open w then sys "fsync" else fail EClosed);
  closeErr ← attempt (if w_open w then sys "close" else fail EClosed);
  put (mkWriter (w_path w) (w_sync w) false) ;;
  match join_errs [err_of syncErr; err_of closeErr] with
  | Some e => fail e
  | None => mret tt
  end.

Definition WSync {St} (w : Writer) (force : bool) : M St unit :=
  if negb (w_sync w) && negb force then mret tt
  else if w_open w then sys "fsync" else fail EClosed.

(** [totalEntries] is the local variable of the loop. *)
Definition WriteIndex {T St} `{BTree T} (idx : Index T) (p : path) : M St unit :=
  let iter := IIter idx in
  writer ← NewWriter p true;
  with_local 0 (for_locs (iter_fuel iter) iter (λ loc,
    totalEntries ← get;
    wrap_err "push" (WPush writer loc (mkTrailer totalEntries)) ;;
    put (uint64 (totalEntries + 1)) ;;
    mret true)) ;;
  mret tt.
End writer.

(** ** Records *)

Definition valid_loc (loc : Location) : Prop :=
  is_int64 (loc_Key loc) ∧ 0 ≤ loc_Off loc < 2 ^ 64 ∧ 0 ≤ loc_Len loc < 2 ^ 32.

(** The bytes of a sequence of records. *)
Definition enc_recs (recs : list (Location * Trailer)) : list byte :=
  concat (map (λ rc, enc_loc rc.1 rc.2) recs).

(** The total that the last of some records states, or [N] if there is none. *)
Definition total_after (N : Z) (recs : list (Location * Trailer)) : Z := foldl (λ _ rc, TotalEntries rc.2) N recs.

Lemma total_after_app N recs recs' : total_after N (recs ++ recs') = total_after (total_after N recs) recs'.
Proof. apply foldl_app. Qed.

Lemma length_enc_loc loc t : length (enc_loc loc t) = 24%nat.
Proof. unfold enc_loc. by rewrite !length_app, !length_be_encode. Qed.

Lemma enc_recs_app a b : enc_recs (a ++ b) = enc_recs a ++ enc_recs b.
Proof. unfold enc_recs. by rewrite map_app, concat_app. Qed.

Lemma length_enc_recs recs : length (enc_recs recs) = (24 * length recs)%nat.
Proof.
  induction recs as [|rc recs IH]; [done|].
  change (enc_recs (rc :: recs)) with (enc_loc rc.1 rc.2 ++ enc_recs recs).
  rewrite length_app, length_enc_loc, IH. cbn [length]. lia.
Qed.

Lemma take_drop_mid (a b c : list byte) n m :
  n = length a → m = length b → take m (drop n (a ++ b ++ c)) = b.
Proof. intros -> ->. by rewrite drop_app_length, take_app_length. Qed.

(** Reading one record, with whatever follows it. *)
Lemma RNext_record loc t rest e os :
  valid_loc loc → os_faults os = [] →
  RNext (mkReader (enc_loc loc t ++ rest) e) os = (Ok (Some loc), mkReader rest e, os).
Proof.
  intros (Hk & Hoff & Hlen) Hno. unfold RNext, attempt, ReadFull. sys_ok. cbn [rd_rest rd_err].
  pose proof (length_enc_loc loc t) as Hl.
  destruct (enc_loc loc t ++ rest) as [|b bs] eqn:E.
  { apply (f_equal length) in E. rewrite length_app, Hl in E. done. }
  rewrite <- E. clear E b bs. change (Z.to_nat LocationSize) with 24%nat.
  rewrite decide_True by (rewrite length_app; lia).
  rewrite take_app_length' by done. rewrite drop_app_length' by done. do 4 f_equal.
  unfold enc_loc. pose proof (length_be_encode 8 (uint64 (loc_Key loc))) as L1.
  pose proof (length_be_encode 8 (uint64 (loc_Off loc))) as L2.
  pose proof (length_be_encode 4 (uint32 (loc_Len loc))) as L3.
  rewrite take_app_length' by done.
  rewrite (take_drop_mid (be_encode 8 _) (be_encode 8 _)) by done.
  rewrite (app_assoc (be_encode 8 (uint64 (loc_Key loc)))).
  rewrite (take_drop_mid (be_encode 8 _ ++ be_encode 8 _)) by (rewrite ?length_app; lia).
  rewrite !be_decode_encode. unfold uint64, uint32.
  change (256 ^ Z.of_nat 8) with (2 ^ 64). change (256 ^ Z.of_nat 4) with (2 ^ 32).
  rewrite !Z.mod_mod by lia. rewrite (Z.mod_small (loc_Off loc)), (Z.mod_small (loc_Len loc)) by lia.
  fold (uint64 (loc_Key loc)). rewrite int64_uint64 by done. by destruct loc.
Qed.

Lemma RNext_eof e os :
  os_faults os = [] → RNext (mkReader [] e) os = (Ok None, mkReader [] e, os).
Proof. intros Hno. unfold RNext, attempt, ReadFull. by sys_ok. Qed.

Lemma RNext_torn tail e os :
  os_faults os = [] → (0 < length tail < 24)%nat →
  RNext (mkReader tail e) os = (Ok None, mkReader [] (Some EUnexpectedEOF), os).
Proof.
  intros Hno Ht. unfold RNext, attempt, ReadFull. sys_ok. cbn [rd_rest rd_err].
  destruct tail as [|b tail]; [cbn in Ht; lia|].
  change (Z.to_nat LocationSize) with 24%nat. rewrite decide_False by lia.
  cbn [rd_rest]. by rewrite drop_ge by lia.
Qed.

(** ** Replaying records *)

Section replay.
Context {T : Type → Type} `{BTreeLaws T} `{Host}.
Implicit Types i j : Index T.

Fixpoint replay (locs : list Location) i : res (Index T) :=
  match locs with
  | [] => Ok i
  | loc :: locs => i ← Load_step loc i; replay locs i
  end.

(** What a record does to the list of a key. *)
Definition step_lst (loc : Location) (k : Key) (ls : list Location) : list Location :=
  if decide (loc_Key loc = k) then (if loc_Len loc =? 0 then tail ls else ls ++ [loc]) else ls.

Lemma Load_step_spec loc i :
  wf_index i → ∃ i', Load_step loc i = Ok i' ∧ wf_index i' ∧ ∀ k, lst i' k = step_lst loc k (lst i k).
Proof.
  intros Hwf. unfold Load_step, step_lst. destruct (loc_Len loc =? 0).
  - destruct (Delete_cases (loc_Key loc) i Hwf) as (i' & -> & Hwf' & Hl & _). cbn [mbind res_bind].
    exists i'. split_and!; try done.
  - eexists. split; [done|]. split; [by apply wf_Set|]. intros k. rewrite lst_Set.
    case_decide; [done|]. by rewrite app_nil_r.
Qed.

Lemma replay_spec locs i :
  wf_index i → ∃ i', replay locs i = Ok i' ∧ wf_index i' ∧
    ∀ k, lst i' k = foldl (λ ls loc, step_lst loc k ls) (lst i k) locs.
Proof.
  revert i. induction locs as [|loc locs IH]; intros i Hwf; cbn [replay foldl].
  { by exists i. }
  destruct (Load_step_spec loc i Hwf) as (i1 & -> & Hwf1 & Hl1). cbn [mbind res_bind].
  destruct (IH i1 Hwf1) as (i' & Heq & Hwf' & Hl'). exists i'. split_and!; try done.
  intros k. by rewrite Hl', Hl1.
Qed.

Lemma replay_app a b i : replay (a ++ b) i = (i ← replay a i; replay b i).
Proof.
  revert i. induction a as [|loc a IH]; intros i; cbn [replay app]; [done|].
  destruct (Load_step loc i); cbn [mbind res_bind]; [apply IH|done..].
Qed.

(** Replaying depends on the lists of the index only. *)
Lemma replay_equiv locs i j i' :
  wf_index i → wf_index j → idx_equiv i j → replay locs i = Ok i' →
  ∃ j', replay locs j = Ok j' ∧ idx_equiv i' j' ∧ wf_index j' ∧ wf_index i'.
Proof.
  intros Hi Hj Hij Heq.
  destruct (replay_spec locs i Hi) as (i1 & Heq1 & Hwf1 & Hl1).
  assert (i1 = i') as -> by congruence.
  destruct (replay_spec locs j Hj) as (j' & Heq2 & Hwf2 & Hl2). exists j'. split_and!; try done.
  intros k. by rewrite Hl1, Hl2, Hij.
Qed.

(** The loop of [Load] replays the records up to a tail. *)
Lemma Load_loop_records fuel recs tail i os :
  os_faults os = [] → Forall (λ rc, valid_loc rc.1) recs → (length recs < fuel)%nat → wf_index i →
  (length tail < 24)%nat →
  ∃ i', replay recs.*1 i = Ok i' ∧ wf_index i' ∧
    Load_loop fuel i (mkReader (enc_recs recs ++ tail) None) os =
      (Ok i', mkReader [] (if decide (tail = []) then None else Some EUnexpectedEOF), os).
Proof.
  intros Hno Hv. revert fuel i. induction Hv as [|[loc t] recs Hloc Hv IH];
    intros [|fuel] i Hf Hwf Ht; cbn [length] in Hf; try lia; cbn [Load_loop fmap list_fmap replay fst].
  - exists i. split_and!; try done. run. cbn [enc_recs map concat app].
    destruct (decide (tail = [])) as [->|Hne]; [by rewrite RNext_eof|].
    rewrite RNext_torn; [done..|]. destruct tail; [done|]. cbn [length] in *. lia.
  - change (enc_recs ((loc, t) :: recs)) with (enc_loc loc t ++ enc_recs recs).
    rewrite <- app_assoc. run. cbn in Hloc. rewrite RNext_record by done.
    destruct (Load_step_spec loc i Hwf) as (i1 & -> & Hwf1 & _).
    destruct (IH fuel i1) as (i' & Heq & Hwf' & Hloop); [lia|done..|]. exists i'. by split_and!.
Qed.

Lemma OpenCreate_existing {St} (s : St) p os data :
  os_faults os = [] → read_file os p = Some data → OpenCreate p s os = (Ok data, s, os).
Proof.
  intros Hno Hf. unfold OpenCreate. sys_ok. unfold read_file in Hf.
  by destruct (os_fs os !! p) as [[]|]; simplify_eq.
Qed.

Lemma Load_records {St} (s : St) p os recs tail :
  os_faults os = [] → read_file os p = Some (enc_recs recs ++ tail) →
  Forall (λ rc, valid_loc rc.1) recs → (length tail < 24)%nat →
  ∃ i, replay recs.*1 empty_Index = Ok i ∧ wf_index i ∧
    Load p s os = (if decide (tail = []) then Ok i else Err EUnexpectedEOF, s, os).
Proof.
  intros Hno Hf Hv Ht. unfold Load. run. rewrite (OpenCreate_existing _ _ _ _ Hno Hf).
  destruct (Load_loop_records (S (length (enc_recs recs ++ tail))) recs tail empty_Index os)
    as (i & Hr & Hwf & Heq); try done.
  { rewrite length_app, length_enc_recs. lia. }
  { apply wf_empty. }
  exists i. split; [done|]. split; [done|]. unfold NewReader. rewrite Heq. cbn [RErr rd_err].
  by case_decide.
Qed.
End replay.

(** *** The arrays of a loaded index *)

Section arrays.
Context {T : Type → Type} `{BTreeLaws T} `{Host}.
Implicit Types i : Index T.

Lemma same_arrays_Load_step loc i i' : Load_step loc i = Ok i' → same_arrays i i'.
Proof.
  unfold Load_step. case_match; [|intros [= <-]; apply same_arrays_Set].
  destruct (Delete _ i) as [[old j]| | |] eqn:Hdel; cbn; [|done..]. intros [= <-]. by eapply same_arrays_Delete.
Qed.

(** Nothing else uses them. *)
Lemma yields_Load_loop fuel i : unnumbered i → yields unnumbered (Load_loop fuel i).
Proof.
  revert i. induction fuel as [|fuel IH]; intros i Hi; cbn [Load_loop]; [by apply yields_lift|].
  apply yields_then. intros [loc|]; [|by apply yields_ret].
  apply (yields_bind (λ j, Load_step loc i = Ok j)); [by apply yields_lift|]. intros j Hj.
  apply IH. by eapply unnumbered_same, same_arrays_Load_step.
Qed.

Lemma yields_Load {St} p : yields (St := St) unnumbered (Load (T := T) p).
Proof.
  apply yields_then. intros data. eapply yields_bind; [apply yields_with_local, yields_Load_loop, unnumbered_empty|].
  intros [i rdr] Hi. case_match; [by intros s os|by apply yields_ret].
Qed.
End arrays.

(** ** Writing *)

Section writing.
Context `{Unix}.

Lemma WriteAppend_spec {St} (s : St) p bs os data :
  read_file os p = Some data →
  ∃ r os', WriteAppend p bs s os = (r, s, os') ∧ only_files (eq p) os os' ∧
    ((r = Ok tt ∧ read_file os' p = Some (data ++ bs)) ∨
     (r = Err (EIO "write") ∧ ∃ n, read_file os' p = Some (data ++ take n bs))) ∧
    (os_faults os = [] → r = Ok tt).
Proof.
  intros Hf. unfold WriteAppend, attempt. run. sys_case r os1.
  all: rewrite (read_file_same_fs os os1), Hf by done; run; eexists _, _; (split; [done|]).
  - split; [transitivity os1; [apply only_files_same_fs; [done|tauto]|apply only_files_write]|].
    split; [left; split; [done|]|done]. apply (read_write_file _ _ _ data).
    by rewrite (read_file_same_fs os os1).
  - assert (os_faults os = [] → False) as Hno by (intros E; by destruct (Hnf E)).
    split; [transitivity os1; [apply only_files_same_fs; [done|by intros ?%Hno]|apply only_files_write]|].
    split; [right; split; [done|]|by intros ?%Hno]. eexists.
    apply (read_write_file _ _ _ data). by rewrite (read_file_same_fs os os1).
Qed.

Lemma WPush_spec {St} (s : St) w loc t os data :
  w_open w = true → read_file os (w_path w) = Some data →
  ∃ r os', WPush w loc t s os = (r, s, os') ∧ only_files (eq (w_path w)) os os' ∧
    ((r = Ok tt ∧ read_file os' (w_path w) = Some (data ++ enc_loc loc t)) ∨
     (r = Err (EIO "write") ∧ ∃ n, read_file os' (w_path w) = Some (data ++ take n (enc_loc loc t)))) ∧
    (os_faults os = [] → r = Ok tt).
Proof. intros Ho Hf. unfold WPush. rewrite Ho. by apply WriteAppend_spec. Qed.

Lemma ReadTrailer_last {St} (s : St) p os data loc t :
  os_faults os = [] → read_file os p = Some (data ++ enc_loc loc t) →
  ReadTrailer p s os = (Ok (mkTrailer (uint32 (TotalEntries t))), s, os).
Proof.
  intros Hno Hf. unfold ReadTrailer, OpenRead. sys_ok. unfold read_file in Hf.
  destruct (os_fs os !! p) as [[d|]|]; simplify_eq.
  unfold attempt. sys_ok. rewrite length_app, length_enc_loc.
  replace (Z.of_nat (length data + 24) <? LocationSize) with false
    by (unfold LocationSize, IdxTrailerSize; lia).
  sys_ok. do 4 f_equal. unfold enc_loc, uint32.
  rewrite !app_assoc, drop_app_length'.
  - rewrite be_decode_encode. change (256 ^ Z.of_nat 4) with (2 ^ 32). by rewrite Z.mod_mod by lia.
  - rewrite !length_app, !length_be_encode. change (Z.to_nat IdxTrailerSize) with 4%nat. lia.
Qed.

(** The trailer of a file of records. *)
Lemma ReadTrailer_total {St} (s : St) p os recs :
  os_faults os = [] → read_file os p = Some (enc_recs recs) →
  ReadTrailer p s os = (Ok (mkTrailer (uint32 (total_after 0 recs))), s, os).
Proof.
  intros Hno Hf. destruct recs as [|[loc t] recs _] using rev_ind.
  - unfold ReadTrailer, OpenRead. sys_ok. rewrite (read_file_Some _ _ _ Hf). by sys_ok.
  - rewrite enc_recs_app in Hf. change (enc_recs [(loc, t)]) with (enc_loc loc t ++ []) in Hf. rewrite app_nil_r in Hf.
    rewrite (ReadTrailer_last s p os _ loc t Hno Hf). by rewrite total_after_app.
Qed.

(** The trailer that [Push] stores with a record is what [ReadTrailer]
    finds, modulo 2^32, as long as nothing else is written. *)
Theorem ReadTrailer_Push {St} (s : St) w loc t os data :
  w_open w = true → read_file os (w_path w) = Some data → os_faults os = [] →
  ∃ os', WPush w loc t s os = (Ok tt, s, os') ∧
    ReadTrailer (w_path w) s os' = (Ok (mkTrailer (uint32 (TotalEntries t))), s, os').
Proof.
  intros Ho Hf Hno.
  destruct (WPush_spec s w loc t os data Ho Hf) as (r & os' & -> & [_ Hof] & Hr & Hok).
  rewrite (Hok Hno) in *. destruct Hr as [[_ Hf']|[? _]]; [|done]. specialize (Hof Hno).
  exists os'. split; [done|]. by rewrite (ReadTrailer_last _ _ _ _ _ _ Hof Hf').
Qed.
End writing.

(** ** Indexes that are stored in a file *)

(** Replaying the file [p] gives an index with the same lists as [i]. *)
Definition persisted {T} `{BTree T} `{Host} (os : OS) (p : path) (i : Index T) : Prop :=
  ∃ recs j, read_file os p = Some (enc_recs recs) ∧ Forall (λ rc, valid_loc rc.1) recs ∧
    replay recs.*1 empty_Index = Ok j ∧ idx_equiv j i.

(** The items in the batches that records are about. *)
Definition weight (recs : list (Location * Trailer)) : Z := sum_len recs.*1.

(** The file [p] has got more records, for batches of at most [n] items; the total
    that it states was [N] and is [N'] now. *)
Definition logs (p : path) (n N N' : Z) (os os' : OS) : Prop :=
  ∀ data, read_file os p = Some data →
    ∃ recs, read_file os' p = Some (data ++ enc_recs recs) ∧ Forall (λ rc, valid_loc rc.1) recs ∧ weight recs ≤ n ∧
      total_after N recs = N'.

Lemma weight_app recs recs' : weight (recs ++ recs') = weight recs + weight recs'.
Proof. unfold weight. by rewrite fmap_app, sum_len_app. Qed.

Lemma weight_nonneg recs : Forall (λ rc, valid_loc rc.1) recs → 0 ≤ weight recs.
Proof. unfold weight, sum_len. induction 1 as [|[loc t] recs [_ [_ Hl]] _ IH]; cbn in *; lia. Qed.

Lemma logs_trans p n m N N1 N' os os1 os' : logs p n N N1 os os1 → logs p m N1 N' os1 os' → logs p (n + m) N N' os os'.
Proof.
  intros H1 H2 data Hf. destruct (H1 data Hf) as (recs1 & Hf1 & Hv1 & Hw1 & Ht1).
  destruct (H2 _ Hf1) as (recs2 & Hf2 & Hv2 & Hw2 & Ht2). exists (recs1 ++ recs2).
  rewrite enc_recs_app, app_assoc, weight_app, Forall_app, total_after_app, Ht1. split_and!; try done. lia.
Qed.

Lemma logs_mono p n m N N' os os' : n ≤ m → logs p n N N' os os' → logs p m N N' os os'.
Proof. intros Hle Hl data Hf. destruct (Hl data Hf) as (recs & ? & ? & ? & ?). exists recs. split_and!; try done. lia. Qed.

Lemma logs_same p N os os' : os_fs os' !! p = os_fs os !! p → logs p 0 N N os os'.
Proof.
  intros Hfs data Hf. exists []. unfold read_file in *. rewrite Hfs. cbn. rewrite app_nil_r. split_and!; try done.
Qed.

Section persisted.
Context {T : Type → Type} `{BTreeLaws T} `{Host, Unix}.
Implicit Types i j : Index T.

Lemma persisted_frame os os' p i :
  os_fs os' !! p = os_fs os !! p → persisted os p i → persisted os' p i.
Proof. intros Hfs (recs & j & Hf & ?). exists recs, j. unfold read_file in *. by rewrite Hfs. Qed.

Lemma persisted_equiv os p i j : idx_equiv i j → persisted os p i → persisted os p j.
Proof.
  intros Hij (recs & i0 & ? & ? & ? & Hi0). exists recs, i0. split_and!; try done.
  by rewrite Hi0.
Qed.

(** A record and the step it stands for. *)
Lemma WPush_persisted {St} (s : St) w loc t os i i' :
  w_open w = true → os_faults os = [] → persisted os (w_path w) i → wf_index i → valid_loc loc →
  Load_step loc i = Ok i' →
  ∃ os', WPush w loc t s os = (Ok tt, s, os') ∧ persisted os' (w_path w) i' ∧
    only_files (eq (w_path w)) os os' ∧ os_faults os' = [] ∧ ∀ N, logs (w_path w) (loc_Len loc) N (TotalEntries t) os os'.
Proof.
  intros Ho Hno (recs & j & Hf & Hv & Hr & Hj) Hwf Hloc Hstep.
  destruct (WPush_spec s w loc t os _ Ho Hf) as (r & os' & -> & Hof & Hcase & Hok).
  rewrite (Hok Hno) in *. destruct Hcase as [[_ Hf']|[? _]]; [|done].
  exists os'. split; [done|]. split; [|split; [done|split; [by apply Hof|]]].
  2: { intros N data Hf2. assert (data = enc_recs recs) as -> by congruence. exists [(loc, t)].
       rewrite Hf', Forall_singleton. split_and!; [|done|unfold weight; cbn; lia|done].
       change (enc_recs [(loc, t)]) with (enc_loc loc t ++ []). by rewrite app_nil_r. }
  destruct (replay_spec recs.*1 empty_Index wf_empty) as (j0 & Hr0 & Hwfj & _).
  assert (j0 = j) as -> by congruence.
  destruct (replay_equiv [loc] i j i') as (j' & Hj' & He' & _); [done|done|by symmetry|by cbn; rewrite Hstep|].
  exists (recs ++ [(loc, t)]), j'. split_and!.
  - by rewrite enc_recs_app, Hf'.
  - apply Forall_app. by rewrite Forall_singleton.
  - rewrite fmap_app, replay_app, Hr. done.
  - by symmetry.
Qed.

Lemma Load_persisted_holds {St} (s : St) os p i :
  persisted os p i → wf_index i → os_faults os = [] →
  ∃ j, Load p s os = (Ok j, s, os) ∧ wf_index j ∧ idx_equiv j i ∧ Len j = Len i.
Proof.
  intros (recs & j & Hf & Hv & Hr & Hj) Hwf Hno.
  destruct (Load_records s p os recs []) as (j0 & Hr0 & Hwfj & Heq); try done; [|cbn; lia|].
  { by rewrite app_nil_r. }
  assert (j0 = j) as -> by congruence. exists j. rewrite decide_True in Heq by done.
  split_and!; try done. unfold Len.
  by rewrite (wfi_len _ Hwf), (wfi_len _ Hwfj), (index_locs_equiv j i).
Qed.

(** C29. Crash recovery of the index: whatever state the in-memory index of a
    consumer was in when its last record was written, [Load] of its file
    rebuilds an index with the same locations in the same order. *)
Theorem Load_persisted {St} (s : St) os p i :
  persisted os p i → wf_index i → os_faults os = [] →
  ∃ j, Load p s os = (Ok j, s, os) ∧ wf_index j ∧ idx_equiv j i ∧ Len j = Len i.
Proof. apply Load_persisted_holds. Qed.

(** A file that ends in the middle of a record (a write was interrupted) is
    reported as an error, whatever its complete records say. *)
Theorem Load_torn {St} (s : St) os p recs tail :
  os_faults os = [] → read_file os p = Some (enc_recs recs ++ tail) →
  Forall (λ rc, valid_loc rc.1) recs → (0 < length tail < 24)%nat →
  Load (T := T) p s os = (Err EUnexpectedEOF, s, os).
Proof.
  intros Hno Hf Hv Ht. destruct (Load_records s p os recs tail Hno Hf Hv) as (i & _ & _ & ->); [lia|].
  rewrite decide_False; [done|]. intros ->. cbn in Ht. lia.
Qed.
End persisted.

(** ** How many items a file is about *)

Section total.
Context {T : Type → Type} `{BTreeLaws T} `{Host}.
Implicit Types i j : Index T.

Definition nonneg_locs : list Location → Prop := Forall (λ loc, 0 ≤ loc_Len loc).

Lemma sum_len_nonneg locs : nonneg_locs locs → 0 ≤ sum_len locs.
Proof. unfold sum_len. induction 1; cbn in *; lia. Qed.

Lemma Delete_nentries key i old j :
  Delete key i = Ok (old, j) → old = zero_Location ∧ j = i ∨ idx_nentries j = uint64 (idx_nentries i + loc_Len old).
Proof.
  unfold Delete. intros Heq. destruct (bt_get key (idx_m i)) as [[|o [|o' rest]]|]; simplify_eq/=; [by right..|by left].
Qed.

(** The counter of entries: batches count when they are set and again when they
    are deleted.  [w] is the weight of the records so far. *)
Record counted (w : Z) i : Prop := {
  ct_wf : wf_index i;
  ct_nonneg : nonneg_locs (index_locs i);
  ct_live : sum_len (index_locs i) ≤ w;
  ct_entries : idx_nentries i = uint64 (2 * w - sum_len (index_locs i));
}.

Lemma Load_step_counted w loc i i' :
  counted w i → 0 ≤ loc_Len loc → Load_step loc i = Ok i' → counted (w + loc_Len loc) i'.
Proof.
  intros [Hwf Hnn Hlive Hent] Hlen. unfold Load_step. destruct (Z.eqb_spec (loc_Len loc) 0) as [Hz|Hnz].
  - destruct (Delete_cases (loc_Key loc) i Hwf) as (j & Hdel & Hwf' & _ & Hp). rewrite Hdel. cbn. intros [= <-].
    rewrite Hz, Z.add_0_r. apply Delete_nentries in Hdel as [[_ ->]|Hn]; [done|].
    set (ls := lst i (loc_Key loc)) in *. unfold nonneg_locs in *. rewrite Hp in Hnn, Hent, Hlive.
    apply Forall_app in Hnn as [Hold Hnn]. rewrite sum_len_app in Hent, Hlive.
    assert (sum_len (option_list (head ls)) = loc_Len (default zero_Location (head ls))) as Hs
      by (destruct ls; cbn; lia).
    pose proof (sum_len_nonneg _ Hold). pose proof (sum_len_nonneg _ Hnn). rewrite Hs in *.
    split; [done|done|lia|]. rewrite Hn, Hent. unfold uint64. rewrite Z.add_mod_idemp_l by lia. f_equal. lia.
  - intros [= <-]. destruct (wf_Set loc i Hwf) as [Hwf' Hp]. split; [done| | |].
    + unfold nonneg_locs in *. rewrite Hp. by constructor.
    + rewrite Hp, sum_len_cons. lia.
    + rewrite Hp, sum_len_cons. cbn [Set_ idx_nentries]. rewrite Hent. unfold uint64.
      rewrite Z.add_mod_idemp_l by lia. f_equal. lia.
Qed.

Lemma replay_counted w locs i j :
  counted w i → Forall valid_loc locs → replay locs i = Ok j → counted (w + sum_len locs) j.
Proof.
  intros Hc Hv. revert w i Hc. induction Hv as [|loc locs [_ [_ Hl]] _ IH]; intros w i Hc; cbn [replay].
  - intros [= <-]. by rewrite Z.add_0_r.
  - intros Heq. destruct (Load_step loc i) as [i1| | |] eqn:Hstep; try done.
    rewrite sum_len_cons, Z.add_assoc. apply (IH _ i1); [|done]. eapply Load_step_counted; [done|lia|done].
Qed.

Lemma counted_empty : counted 0 (empty_Index : Index T).
Proof.
  assert (index_locs (empty_Index : Index T) = []) as Hnil.
  { unfold index_locs, empty_Index. cbn. by rewrite bt_items_empty. }
  split; [apply wf_empty|rewrite Hnil; constructor|by rewrite Hnil|by rewrite Hnil].
Qed.

Lemma replay_NEntries_bounds recs j :
  Forall (λ rc, valid_loc rc.1) recs → weight recs < 2 ^ 63 → replay recs.*1 (empty_Index : Index T) = Ok j →
  weight recs ≤ NEntries j ≤ 2 * weight recs.
Proof.
  intros Hv Hw Hr. pose proof (weight_nonneg _ Hv).
  destruct (replay_counted 0 recs.*1 empty_Index j) as [_ Hnn Hlive Hent];
    [apply counted_empty|by apply Forall_fmap|done|].
  unfold NEntries. rewrite Hent. apply sum_len_nonneg in Hnn. fold (weight recs) in *.
  unfold uint64. rewrite Z.mod_small by lia. lia.
Qed.

(** The index of a file has no entries if and only if no record has items. *)
Lemma replay_NEntries recs j :
  Forall (λ rc, valid_loc rc.1) recs → weight recs < 2 ^ 63 → replay recs.*1 (empty_Index : Index T) = Ok j →
  NEntries j = 0 ↔ weight recs = 0.
Proof. intros Hv Hw Hr. pose proof (replay_NEntries_bounds recs j Hv Hw Hr). pose proof (weight_nonneg _ Hv). lia. Qed.
End total.

(** ** Writing a whole index *)

(** Records with their position as trailer. *)
Fixpoint numbered (n : Off) (locs : list Location) : list (Location * Trailer) :=
  match locs with
  | [] => []
  | loc :: locs => (loc, mkTrailer n) :: numbered (uint64 (n + 1)) locs
  end.

Lemma numbered_fst n locs : (numbered n locs).*1 = locs.
Proof. revert n. induction locs as [|loc locs IH]; intros n; cbn; [done|]. f_equal. apply IH. Qed.

Lemma numbered_last n locs loc :
  0 ≤ n → n + Z.of_nat (length locs) < 2 ^ 64 →
  numbered n (locs ++ [loc]) = numbered n locs ++ [(loc, mkTrailer (n + Z.of_nat (length locs)))].
Proof.
  revert n. induction locs as [|x locs IH]; intros n Hn Hlen; cbn [app numbered length].
  - by rewrite Z.add_0_r.
  - cbn [length] in Hlen. rewrite uint64_id by lia. rewrite IH by lia. cbn [app]. do 5 f_equal. lia.
Qed.

Section write_index.
Context {T : Type → Type} `{BTreeLaws T} `{Host, Unix}.
Implicit Types i j : Index T.

Lemma write_locs_spec w locs n os data :
  w_open w = true → os_faults os = [] → read_file os (w_path w) = Some data →
  ∃ n' os', each_while (λ loc,
      totalEntries ← get;
      wrap_err "push" (WPush w loc (mkTrailer totalEntries)) ;;
      put (uint64 (totalEntries + 1)) ;;
      mret true) locs n os = (Ok tt, n', os') ∧
    read_file os' (w_path w) = Some (data ++ enc_recs (numbered n locs)) ∧
    only_files (eq (w_path w)) os os' ∧ os_faults os' = [].
Proof.
  intros Ho. revert n os data. induction locs as [|loc locs IH]; intros n os data Hno Hf.
  - eexists _, _. split; [done|]. split_and!; try done. cbn. by rewrite app_nil_r.
  - cbn [each_while numbered]. unfold wrap_err. run.
    destruct (WPush_spec n w loc (mkTrailer n) os data Ho Hf) as (r & os1 & -> & Hof & Hr & Hok).
    rewrite (Hok Hno) in *. destruct Hr as [[_ Hf1]|[? _]]; [|done].
    destruct (IH (uint64 (n + 1)) os1 _ (proj2 Hof Hno) Hf1) as (n' & os' & Heq & Hf' & Hof' & Hno').
    unfold wrap_err in Heq. run in Heq. run. rewrite Heq. eexists _, _. split; [done|].
    split_and!; [|by transitivity os1|done]. rewrite Hf', <- app_assoc. done.
Qed.

(** A path at which a file can be created. *)
Definition creatable (os : OS) (p : path) : Prop :=
  os_fs os !! p = None ∧ parent_exists os p = true.

Lemma WriteIndex_file {St} (s : St) i p os :
  wf_index i → creatable os p → os_faults os = [] →
  ∃ os', WriteIndex i p s os = (Ok tt, s, os') ∧
    read_file os' p = Some (enc_recs (numbered 0 (index_locs i))) ∧
    only_files (eq p) os os' ∧ os_faults os' = [].
Proof.
  intros Hwf [Hnone Hpar] Hno. unfold WriteIndex, NewWriter, OpenCreate. sys_ok.
  rewrite Hnone, Hpar. sys_ok. set (os1 := set_fs (<[p := NFile []]> (os_fs os)) os).
  destruct (write_locs_spec (mkWriter p true true) (index_locs i) 0 os1 []) as (n & os' & Heq & Hf & Hof & Hno');
    [done|done|unfold read_file, os1; cbn; by rewrite lookup_insert_eq|].
  pose proof (for_locs_index i (λ loc,
    totalEntries ← get;
    wrap_err "push" (WPush (mkWriter p true true) loc (mkTrailer totalEntries)) ;;
    put (uint64 (totalEntries + 1)) ;;
    mret true) 0 os1 Hwf) as Hfor.
  rewrite Heq in Hfor. run in Hfor. rewrite Hfor.
  exists os'. split_and!; try done. transitivity os1; [|done]. split; [|done].
  intros q Hq. unfold os1. cbn. by rewrite lookup_insert_ne.
Qed.

(** Locations as they are in an index: records that are not deletions. *)
Definition live_locs (locs : list Location) : Prop :=
  Forall (λ loc, valid_loc loc ∧ 0 < loc_Len loc) locs.

Lemma replay_live locs k ls :
  live_locs locs → foldl (λ ls loc, step_lst loc k ls) ls locs = ls ++ at_key k locs.
Proof.
  intros Hl. revert ls. induction Hl as [|loc locs [_ Hlen] Hl IH]; intros ls; cbn [foldl].
  { by rewrite app_nil_r. }
  rewrite IH. unfold step_lst. replace (loc_Len loc =? 0) with false by lia.
  destruct (decide (loc_Key loc = k)).
  - rewrite filter_cons_True by done. by rewrite <- app_assoc.
  - by rewrite filter_cons_False.
Qed.

Lemma WriteIndex_persisted {St} (s : St) i p os :
  wf_index i → live_locs (index_locs i) → creatable os p → os_faults os = [] →
  ∃ os', WriteIndex i p s os = (Ok tt, s, os') ∧ persisted os' p i ∧
    only_files (eq p) os os' ∧ os_faults os' = [] ∧
    read_file os' p = Some (enc_recs (numbered 0 (index_locs i))).
Proof.
  intros Hwf Hlive Hp Hno.
  destruct (WriteIndex_file s i p os Hwf Hp Hno) as (os' & -> & Hf & Hof & Hno').
  exists os'. split; [done|]. split; [|done].
  destruct (replay_spec (index_locs i) empty_Index wf_empty) as (j & Hj & Hwfj & Hlst).
  exists (numbered 0 (index_locs i)), j. rewrite numbered_fst. split_and!; try done.
  - apply (Forall_fmap fst valid_loc). rewrite numbered_fst.
    eapply Forall_impl; [exact Hlive|]. by intros loc [? _].
  - intros k. rewrite Hlst, replay_live, lst_empty by done. by apply index_locs_at_key.
Qed.

(** [WriteIndex] to a new file and [Load] are inverse to each other: the
    loaded index has the same locations in the same order and the same
    length. *)
Theorem WriteIndex_Load {St} (s : St) i p os :
  wf_index i → live_locs (index_locs i) → creatable os p → os_faults os = [] →
  ∃ os' j, WriteIndex i p s os = (Ok tt, s, os') ∧ Load p s os' = (Ok j, s, os') ∧
    wf_index j ∧ index_locs j = index_locs i ∧ Len j = Len i.
Proof.
  intros Hwf Hlive Hp Hno.
  destruct (WriteIndex_persisted s i p os Hwf Hlive Hp Hno) as (os' & -> & Hper & _ & Hno' & _).
  destruct (Load_persisted_holds s os' p i Hper Hwf Hno') as (j & Hload & Hwfj & Hij & Hlen).
  exists os', j. split_and!; try done. by apply index_locs_equiv.
Qed.

(** The trailer of a file that [WriteIndex] wrote is the number of
    locations without the last one, not the number of items: [ReadTrailer] on
    it does not return the length of the index. *)
Theorem WriteIndex_trailer {St} (s : St) i p os :
  wf_index i → index_locs i ≠ [] → Z.of_nat (length (index_locs i)) < 2 ^ 32 →
  creatable os p → os_faults os = [] →
  ∃ os', WriteIndex i p s os = (Ok tt, s, os') ∧
    ReadTrailer p s os' = (Ok (mkTrailer (Z.of_nat (length (index_locs i)) - 1)), s, os').
Proof.
  intros Hwf Hne Hlen Hp Hno.
  destruct (WriteIndex_file s i p os Hwf Hp Hno) as (os' & -> & Hf & _ & Hno').
  exists os'. split; [done|]. destruct (exists_last Hne) as (locs & loc & Heq). rewrite Heq in *.
  rewrite length_app in *. cbn [length] in *.
  rewrite numbered_last in Hf by lia. rewrite enc_recs_app in Hf.
  change (enc_recs [(loc, mkTrailer (0 + Z.of_nat (length locs)))])
    with (enc_loc loc (mkTrailer (0 + Z.of_nat (length locs)))) in Hf.
  rewrite (ReadTrailer_last _ _ _ _ _ _ Hno' Hf). cbn [TotalEntries]. rewrite uint32_id by lia.
  do 4 f_equal. lia.
Qed.
End write_index.

(** ** Witnesses *)

#[local] Existing Instance Host_tiny.

Definition ex_idx_path : path := ["q"; "idx.log"].

Definition ex_idx_os : OS := mkOS {[ ["q"] := NDir ]} [].

Definition ex_full_os : OS := Eval vm_compute in
  (@WriteIndex Unix_plain _ unit _ ex_index ex_idx_path tt ex_idx_os).2.

Definition ex_writer : Writer := mkWriter ex_idx_path true true.

Lemma ex_live : live_locs (index_locs ex_index).
Proof. repeat constructor; vm_compute; (done || discriminate || (split; discriminate || reflexivity)). Qed.

Lemma ex_creatable : creatable ex_idx_os ex_idx_path.
Proof. by split; vm_compute. Qed.

Lemma ReadTrailer_Push_witness :
  ∃ os', @WPush Unix_plain unit ex_writer (mkLocation 9 60 4) (mkTrailer 8) tt ex_full_os = (Ok tt, tt, os') ∧
    ReadTrailer ex_idx_path tt os' = (Ok (mkTrailer 8), tt, os').
Proof.
  destruct (read_file ex_full_os ex_idx_path) as [data|] eqn:E; [|by vm_compute in E].
  exact (@ReadTrailer_Push Unix_plain unit tt ex_writer (mkLocation 9 60 4) (mkTrailer 8) ex_full_os data
    eq_refl E eq_refl).
Defined.

Lemma ex_persisted : persisted ex_full_os ex_idx_path ex_index.
Proof.
  destruct (@WriteIndex_persisted _ _ _ _ Unix_plain unit tt ex_index ex_idx_path ex_idx_os)
    as (os' & Heq & Hp & _); [apply ex_index_wf|apply ex_live|apply ex_creatable|done|].
  apply (persisted_frame os'); [|done]. change os' with (Ok tt, tt, os').2.
  rewrite <- Heq. by vm_compute.
Qed.

Lemma Load_persisted_witness :
  ∃ j : Index slist, Load ex_idx_path tt ex_full_os = (Ok j, tt, ex_full_os) ∧ wf_index j ∧
    idx_equiv j ex_index ∧ Len j = Len ex_index.
Proof. apply (Load_persisted tt); [apply ex_persisted|apply ex_index_wf|reflexivity]. Defined.

Lemma Load_torn_witness :
  Load (T := slist) ex_idx_path tt (mkOS {[ ex_idx_path := NFile [Byte.x00; Byte.x01] ]} [])
    = (Err EUnexpectedEOF, tt, mkOS {[ ex_idx_path := NFile [Byte.x00; Byte.x01] ]} []).
Proof.
  apply (Load_torn (T := slist) tt _ _ [] [Byte.x00; Byte.x01]);
    [reflexivity|vm_compute; reflexivity|constructor|cbn; lia].
Defined.

Lemma WriteIndex_Load_witness :
  ∃ os' j, @WriteIndex Unix_plain _ unit _ ex_index ex_idx_path tt ex_idx_os = (Ok tt, tt, os') ∧
    Load ex_idx_path tt os' = (Ok j, tt, os') ∧
    wf_index j ∧ index_locs j = index_locs ex_index ∧ Len j = Len ex_index.
Proof.
  apply (@WriteIndex_Load _ _ _ _ Unix_plain);
    [apply ex_index_wf|apply ex_live|apply ex_creatable|reflexivity].
Defined.

(** The index of four items in three batches has the trailer 2. *)
Lemma WriteIndex_trailer_witness :
  Len ex_index = 4 ∧
  ∃ os', @WriteIndex Unix_plain _ unit _ ex_index ex_idx_path tt ex_idx_os = (Ok tt, tt, os') ∧
    ReadTrailer ex_idx_path tt os' = (Ok (mkTrailer 2), tt, os').
Proof.
  split; [reflexivity|]. change 2 with (Z.of_nat (length (index_locs ex_index)) - 1).
  apply (@WriteIndex_trailer _ _ _ Unix_plain unit tt ex_index);
    [apply ex_index_wf|vm_compute; discriminate|vm_compute; reflexivity|apply ex_creatable|reflexivity].
Defined.
