(* ===== verification/Options.v ===== *)
(** * options.go: the options of a queue *)

From S2P Require Import Prelude Item.
From stdpp Require Import pretty.
#[local] Open Scope Z_scope.

(** ** Modes *)

Definition SyncMode : Type := Z.

Definition SyncNone : SyncMode := 0.

Definition SyncData : SyncMode := Z.shiftl 1 1.

Definition SyncIndex : SyncMode := Z.shiftl 1 2.

Definition SyncFull : SyncMode := Z.lor SyncData SyncIndex.

Definition SyncMode_IsValid (sm : SyncMode) : bool := (0 <=? sm) && (sm <=? SyncFull).

(** [sm & flag > 0] *)
Definition sync_flag (sm flag : SyncMode) : bool := 0 <? Z.land sm flag.

Definition ErrorMode : Type := Z.

Definition ErrorModeAbort : ErrorMode := 0.

Definition ErrorModeContinue : ErrorMode := 1.

Definition errorModeMax : ErrorMode := 2.

Definition ErrorMode_IsValid (em : ErrorMode) : bool := (em <? errorModeMax) && (0 <=? em).

(** ** Options *)

Record BucketSplitConf := mkBucketSplitConf {
  sc_Func : option (Key → Key);
  sc_Name : string;
}.

(** The messages a logger prints are not modelled, only whether there is one. *)
Record Options := mkOptions {
  opt_SyncMode : SyncMode;
  opt_Logger : bool;
  opt_ErrorMode : ErrorMode;
  opt_BucketSplitConf : BucketSplitConf;
  opt_MaxParallelOpenBuckets : Z;
}.

Definition ShiftBucketSplitConf (shift : Z) : res BucketSplitConf :=
  if shift <? 0 then Panic
  else
    let timeMask := int64 (Z.shiftl (-1) shift) in
    Ok (mkBucketSplitConf (Some (λ key, Z.land key timeMask)) ("shift:" +:+ pretty shift)).

Definition FixedSizeBucketSplitConf (n : Z) : BucketSplitConf :=
  let n := if n =? 0 then 1 else n in
  mkBucketSplitConf
    (Some (λ key, int64 (int64 (Z.quot key (int64 n)) * int64 n)))
    ("fixed:" +:+ pretty n).

Definition DefaultBucketSplitConf : res BucketSplitConf := ShiftBucketSplitConf 37.

Definition DefaultOptions : res Options :=
  conf ← DefaultBucketSplitConf;
  Ok (mkOptions SyncFull true ErrorModeAbort conf 4).

(** [Validate] also fills in defaults, before and after its checks. *)
Definition Validate (o : Options) : option error * Options :=
  let o := mkOptions (opt_SyncMode o) true (opt_ErrorMode o)
             (opt_BucketSplitConf o) (opt_MaxParallelOpenBuckets o) in
  if negb (SyncMode_IsValid (opt_SyncMode o)) then (Some (EInvalid "sync mode"), o)
  else if negb (ErrorMode_IsValid (opt_ErrorMode o)) then (Some (EInvalid "error mode"), o)
  else
    match sc_Func (opt_BucketSplitConf o) with
    | None => (Some (EInvalid "bucket func"), o)
    | Some _ =>
        if opt_MaxParallelOpenBuckets o =? 0 then
          (None, mkOptions (opt_SyncMode o) (opt_Logger o) (opt_ErrorMode o)
                   (opt_BucketSplitConf o) (-1))
        else (None, o)
    end.

(** ** Split functions

    What buckets.go relies on: larger keys go to later buckets ([binsplit] and the
    order of [Read]), and a bucket key is its own bucket ([ValidateBucketKeys]).
    [Delete] of a bucket also relies on the bucket key being the smallest key in
    it. *)
Class SplitMono (f : Key → Key) : Prop := {
  split_int64 : ∀ k, is_int64 k → is_int64 (f k);
  split_mono : ∀ k k', is_int64 k → is_int64 k' → k ≤ k' → f k ≤ f k';
}.

Class SplitFunc (f : Key → Key) : Prop := {
  #[global] split_ordered :: SplitMono f;
  split_idemp : ∀ k, is_int64 k → f (f k) = f k;
}.

Lemma SplitFunc_intro f :
  (∀ k, is_int64 k → is_int64 (f k)) → (∀ k, is_int64 k → f (f k) = f k) →
  (∀ k k', is_int64 k → is_int64 k' → k ≤ k' → f k ≤ f k') → SplitFunc f.
Proof. intros ? ? ?. split; [by split|done]. Qed.

Class SplitMin (f : Key → Key) : Prop := {
  split_min : ∀ k, is_int64 k → f k ≤ k;
}.

Lemma land_mask k s :
  is_int64 k → 0 ≤ s < 64 → Z.land k (int64 (Z.shiftl (-1) s)) = k `div` 2 ^ s * 2 ^ s.
Proof.
  intros Hk Hs. assert (0 < 2 ^ s) as Hpos by (apply Z.pow_pos_nonneg; lia).
  assert (2 ^ s ≤ 2 ^ 63) by (apply Z.pow_le_mono_r; lia).
  rewrite int64_id.
  2: { rewrite Z.shiftl_mul_pow2 by lia. unfold is_int64. lia. }
  rewrite <- Z.shiftr_div_pow2, <- Z.shiftl_mul_pow2 by lia.
  apply Z.bits_inj'. intros n Hn. rewrite Z.land_spec.
  destruct (decide (n < s)) as [Hlt|Hge].
  - rewrite !Z.shiftl_spec_low by lia. by rewrite andb_false_r.
  - rewrite !Z.shiftl_spec_high by lia. rewrite Z.shiftr_spec by lia.
    rewrite Z.bits_m1 by lia. rewrite andb_true_r. f_equal. lia.
Qed.

Lemma floor_mul_bounds k d : 0 < d → k `div` d * d ≤ k < k `div` d * d + d.
Proof. intros Hd. pose proof (Z.div_mod k d). pose proof (Z.mod_pos_bound k d). lia. Qed.

(** Buckets of [ShiftBucketSplitConf shift], 0 to 63: the bucket key is the
    largest multiple of [2 ^ shift] that is not above the key, so it is its own
    bucket, the smallest key of the bucket, and monotone in the key. *)
Theorem ShiftBucketSplitConf_split shift :
  0 ≤ shift < 64 →
  ∃ f name, ShiftBucketSplitConf shift = Ok (mkBucketSplitConf (Some f) name) ∧
    SplitFunc f ∧ SplitMin f ∧ ∀ k, is_int64 k → f k ≤ k < f k + 2 ^ shift.
Proof.
  intros Hs. unfold ShiftBucketSplitConf. replace (shift <? 0) with false by lia.
  eexists _, _. split; [done|]. set (f := λ key : Key, Z.land key (int64 (Z.shiftl (-1) shift))).
  change (SplitFunc f ∧ SplitMin f ∧ ∀ k, is_int64 k → f k ≤ k < f k + 2 ^ shift).
  assert (0 < 2 ^ shift) as Hpos by (apply Z.pow_pos_nonneg; lia).
  assert (2 ^ 63 = 2 ^ (63 - shift) * 2 ^ shift) as H63.
  { rewrite <- Z.pow_add_r by lia. f_equal. lia. }
  assert (∀ k, is_int64 k → f k = k `div` 2 ^ shift * 2 ^ shift) as Hf by (intros; by apply land_mask).
  assert (∀ k, is_int64 k → f k ≤ k < f k + 2 ^ shift) as Hb.
  { intros k Hk. rewrite Hf by done. by apply floor_mul_bounds. }
  assert (∀ k, is_int64 k → is_int64 (f k)) as Hi.
  { intros k Hk. pose proof (Hb k Hk). split; [|unfold is_int64 in *; lia].
    rewrite Hf by done. pose proof (Z.pow_pos_nonneg 2 (63 - shift)).
    apply (Z.div_le_mono (- 2 ^ 63) k (2 ^ shift)) in Hpos as Hd; [|apply Hk].
    rewrite H63 in Hd at 1. rewrite <- Z.mul_opp_l, Z.div_mul in Hd by lia. nia. }
  split; [apply SplitFunc_intro|split; [split|done]]; try done.
  - intros k Hk. rewrite (Hf (f k)) by auto. rewrite (Hf k) by done. by rewrite Z.div_mul by lia.
  - intros k k' Hk Hk' Hle. rewrite !Hf by done. apply Z.mul_le_mono_nonneg_r; [lia|].
    by apply Z.div_le_mono.
  - intros k Hk. apply Hb, Hk.
Qed.

Lemma ShiftBucketSplitConf_split_witness :
  ∃ f name, ShiftBucketSplitConf 37 = Ok (mkBucketSplitConf (Some f) name) ∧
    SplitFunc f ∧ SplitMin f ∧ ∀ k, is_int64 k → f k ≤ k < f k + 2 ^ 37.
Proof. apply (ShiftBucketSplitConf_split 37). lia. Defined.

(** ** Fixed size *)

Lemma quot_mul_bounds k d :
  0 < d → Z.abs (Z.quot k d * d) ≤ Z.abs k ∧ (0 ≤ k → Z.quot k d * d ≤ k) ∧ (k ≤ 0 → k ≤ Z.quot k d * d ≤ 0).
Proof.
  intros Hd. destruct (Z.le_ge_cases 0 k) as [Hk|Hk].
  - rewrite Z.quot_div_nonneg by lia. pose proof (floor_mul_bounds k d Hd).
    pose proof (Z.div_pos k d Hk Hd). assert (0 ≤ k `div` d * d) by nia. lia.
  - replace k with (- (- k)) by lia. rewrite Z.quot_opp_l, Z.quot_div_nonneg by lia.
    pose proof (floor_mul_bounds (- k) d Hd). assert (0 ≤ (- k) `div` d) by (apply Z.div_pos; lia).
    assert (0 ≤ (- k) `div` d * d) by nia. lia.
Qed.

Lemma FixedSize_split n :
  0 ≤ n < 2 ^ 63 →
  ∃ f name, FixedSizeBucketSplitConf n = mkBucketSplitConf (Some f) name ∧ SplitFunc f ∧
    ∀ k, is_int64 k → (0 ≤ k → f k ≤ k) ∧ (k ≤ 0 → k ≤ f k).
Proof.
  intros Hn. unfold FixedSizeBucketSplitConf. eexists _, _. split; [done|].
  set (d := if n =? 0 then 1 else n).
  assert (0 < d < 2 ^ 63) as Hd by (unfold d; destruct (Z.eqb_spec n 0); lia).
  set (f := λ key : Key, int64 (int64 (Z.quot key (int64 d)) * int64 d)).
  change (SplitFunc f ∧ ∀ k, is_int64 k → (0 ≤ k → f k ≤ k) ∧ (k ≤ 0 → k ≤ f k)).
  assert (∀ k, is_int64 k → f k = Z.quot k d * d ∧ is_int64 (Z.quot k d * d)) as Hf.
  { intros k Hk. unfold f. pose proof (quot_mul_bounds k d ltac:(lia)) as (Habs & Hp & Hm).
    assert (is_int64 (Z.quot k d * d)) as Hi by (unfold is_int64 in *; lia).
    rewrite (int64_id d) by (unfold is_int64; lia).
    rewrite (int64_id (Z.quot k d)) by (unfold is_int64 in *; nia). by rewrite int64_id. }
  split; [apply SplitFunc_intro|].
  - intros k Hk. by destruct (Hf k Hk) as [-> ?].
  - intros k Hk. destruct (Hf k Hk) as [-> Hi]. destruct (Hf _ Hi) as [-> _].
    by rewrite Z.quot_mul by lia.
  - intros k k' Hk Hk' Hle. destruct (Hf k Hk) as [-> _], (Hf k' Hk') as [-> _].
    apply Z.mul_le_mono_nonneg_r; [lia|]. apply Z.quot_le_mono; lia.
  - intros k Hk. destruct (Hf k Hk) as [-> _].
    pose proof (quot_mul_bounds k d ltac:(lia)) as (_ & Hp & Hm). split; [done|]. lia.
Qed.

(** Buckets of [FixedSizeBucketSplitConf n]: the bucket key is its own
    bucket and monotone in the key, and for keys that are not negative it is
    the smallest key of the bucket.  For negative keys, where the division
    rounds towards zero, it is the largest. *)
Theorem FixedSizeBucketSplitConf_split n :
  0 ≤ n < 2 ^ 63 →
  ∃ f name, FixedSizeBucketSplitConf n = mkBucketSplitConf (Some f) name ∧ SplitFunc f ∧
    ∀ k, is_int64 k → (0 ≤ k → f k ≤ k) ∧ (k ≤ 0 → k ≤ f k).
Proof. apply FixedSize_split. Qed.

Lemma FixedSizeBucketSplitConf_split_witness :
  ∃ f name, FixedSizeBucketSplitConf 10 = mkBucketSplitConf (Some f) name ∧ SplitFunc f ∧
    ∀ k, is_int64 k → (0 ≤ k → f k ≤ k) ∧ (k ≤ 0 → k ≤ f k).
Proof. apply (FixedSizeBucketSplitConf_split 10). lia. Defined.
