(* ===== verification/Bucket.v ===== *)
(** * bucket.go: one bucket of a queue

    A bucket is a value log shared by all consumers (forks), and for each
    consumer an index in memory and on disk.  The indexes in memory can share
    arrays after a [Fork]; [bucket_Set] is what a change of one of them does to
    all of them. *)

From S2P Require Import Prelude BTree Os Item Vlog VlogIter Heap Index IndexFile Options.

Abbreviation ForkName := string.

(** Go ranges over the keys of a map in an order of its choice. *)
Class MapRange := {
  range_keys : list ForkName → list ForkName;
}.

Class MapRangeLaws `{MapRange} : Prop := {
  range_keys_perm : ∀ ks, range_keys ks ≡ₚ ks;
}.

Inductive ReadOp := ReadOpPeek | ReadOpPop.

Record bucketIndex (T : Type → Type) := mkBucketIndex {
  bi_Log : Writer;
  bi_Mem : Index T;
}.
Arguments mkBucketIndex {T} _ _.
Arguments bi_Log {T} _.
Arguments bi_Mem {T} _.

Record bucket (T : Type → Type) := mkBucket {
  b_dir : path;
  b_key : Key;
  b_log : Log;
  b_opts : Options;
  b_indexes : gmap ForkName (bucketIndex T);
}.
Arguments mkBucket {T} _ _ _ _ _.
Arguments b_dir {T} _.
Arguments b_key {T} _.
Arguments b_log {T} _.
Arguments b_opts {T} _.
Arguments b_indexes {T} _.

(** [recoverMmapError], deferred around [m]. *)
Definition recoverMmapError {St A} (m : M St A) : M St A := λ s os,
  match m s os with
  | (Panic, s', os') => (Err ERecovered, s', os')
  | r => r
  end.

Definition idxPath (dir : path) (fork : ForkName) : path :=
  Join dir (if decide (fork = "") then "idx.log" else fork +:+ ".idx.log").

Section bucket.
Context {T : Type → Type} `{BTree T} `{Host, Unix, MapRange}.

Definition set_log (l : Log) (b : bucket T) : bucket T :=
  mkBucket (b_dir b) (b_key b) l (b_opts b) (b_indexes b).

Definition set_indexes (m : gmap ForkName (bucketIndex T)) (b : bucket T) : bucket T :=
  mkBucket (b_dir b) (b_key b) (b_log b) (b_opts b) m.

Definition set_Mem (i : Index T) (idx : bucketIndex T) : bucketIndex T :=
  mkBucketIndex (bi_Log idx) i.

Definition set_Log (w : Writer) (idx : bucketIndex T) : bucketIndex T :=
  mkBucketIndex w (bi_Mem idx).

Definition idxForFork (b : bucket T) (fork : ForkName) : res (bucketIndex T) :=
  match b_indexes b !! fork with
  | Some idx => Ok idx
  | None => Err ENoSuchFork
  end.

(** Run a computation on the index of a fork, which the bucket points to. *)
Definition on_index {A} (fork : ForkName) (m : M (bucketIndex T) A) : M (bucket T) A :=
  b ← get;
  idx ← lift (idxForFork b fork);
  zoom (λ _, idx) (λ idx' b, set_indexes (<[fork := idx']> (b_indexes b)) b) m.

(** ** Push *)

(** [idx.Mem.Set(loc)] for the index of a fork: if it writes to an array that the
    indexes of other forks use, then they change too. *)
Definition bucket_Set (fork : ForkName) (loc : Location) (b : bucket T) : bucket T :=
  match b_indexes b !! fork with
  | Some idx =>
      let indexes :=
        match Set_write loc (bi_Mem idx) with
        | Some w => (λ other, set_Mem (overwrite loc w (bi_Mem other)) other) <$> b_indexes b
        | None => b_indexes b
        end in
      set_indexes (<[fork := set_Mem (Set_ loc (bi_Mem idx)) idx]> indexes) b
  | None => b
  end.

(** [idx.Mem.Set(loc)] and [idx.Log.Push(loc, idx.Mem.Trailer())] *)
Definition set_and_log (fork : ForkName) (loc : Location) : M (bucket T) unit :=
  modify (bucket_Set fork loc) ;;
  on_index fork (
    idx ← get;
    WPush (bi_Log idx) loc (Index_Trailer (bi_Mem idx))).

(** The forks in the order of [range b.indexes]. *)
Definition range_forks (b : bucket T) : list ForkName :=
  range_keys (map_to_list (b_indexes b)).*1.

Definition BPush (items : Items) (all : bool) (name : ForkName) : M (bucket T) unit :=
  match items with
  | [] => mret tt
  | _ =>
      recoverMmapError (
        loc ← wrap_err "push: log" (zoom b_log set_log (Push items));
        if all then
          b ← get;
          each (λ name, wrap_err "push: index-log" (set_and_log name loc)) (range_forks b)
        else
          b ← get;
          lift (idxForFork b name) ;;
          wrap_err "push: index-log" (set_and_log name loc))
  end.

(** ** Reading *)

Definition logAt (b : bucket T) (loc : Location) : Iter :=
  At loc (negb (opt_ErrorMode (b_opts b) =? ErrorModeAbort)).

(** The result is [indexExhausted], and the new [batchIters] and [idxIter]. *)
Definition addIter (b : bucket T) (batchIters : Iters) (idxIter : IndexIter)
    : res (bool * Iters * IndexIter) :=
  let loc := IValue idxIter in
  '(ok, batchIter) ← Next (b_log b) (logAt b loc);
  if negb ok then
    match Iter_Err batchIter with
    | Some e => Err e
    | None => Ok (false, batchIters, idxIter)
    end
  else
    batchIters ← Iters_Push batchIters batchIter;
    let '(more, idxIter) := INext idxIter in
    Ok (negb more, batchIters, idxIter).

(** The loop of [peek]; [fuel] bounds the number of items that can be read. *)
Fixpoint peek_loop (fuel : nat) (b : bucket T) (n numAppends : Z) (dst : Items)
    (batchIters : Iters) (idxIter : IndexIter) (indexExhausted : bool) : res (Iters * Items * Z) :=
  match fuel with
  | O => NoFuel
  | S fuel =>
      if n <=? numAppends then Ok (batchIters, dst, numAppends)
      else
        currIter ← of_option (batchIters !! 0%nat);
        if Exhausted currIter then Ok (batchIters, dst, numAppends)
        else
          let dst := dst ++ [Iter_Item currIter] in
          let numAppends := numAppends + 1 in
          '(_, currIter) ← Next (b_log b) currIter;
          let currKey := it_Key (Iter_Item currIter) in
          match Iter_Err currIter with
          | Some e => Err e
          | None =>
              let currIsExhausted := Exhausted currIter in
              batchIters ← Iters_Fix (<[0%nat := currIter]> batchIters) 0;
              let nextLoc := IValue idxIter in
              if negb indexExhausted && (currIsExhausted || (loc_Key nextLoc <=? currKey)) then
                '(indexExhausted, batchIters, idxIter) ← addIter b batchIters idxIter;
                peek_loop fuel b n numAppends dst batchIters idxIter indexExhausted
              else peek_loop fuel b n numAppends dst batchIters idxIter indexExhausted
          end
  end.

(** Every turn of the loop moves an iterator forward in the log, and every
    location is added once. *)
Definition peek_fuel (b : bucket T) (idx : Index T) : nat :=
  S (length (concat (bt_items (idx_m idx)).*2) * S (Z.to_nat (log_size (b_log b))))%nat.

(** [peek] without the deferred recovery: the iterators ([None] for a nil
    pointer), [dst] with the items appended, and their number. *)
Definition peek_body (b : bucket T) (n : Z) (dst : Items) (idx : Index T)
    : res (option Iters * Items * Z) :=
  let '(ok, idxIter) := INext (IIter idx) in
  if negb ok then Ok (None, dst, 0)
  else
    '(indexExhausted, batchIters, idxIter) ← addIter b [] idxIter;
    if decide (batchIters = []) then Ok (None, dst, 0)
    else
      '(batchIters, dst, numAppends) ←
        peek_loop (peek_fuel b idx) b n 0 dst batchIters idxIter indexExhausted;
      Ok (Some batchIters, dst, numAppends).

Definition peek (b : bucket T) (n : Z) (dst : Items) (idx : Index T)
    : res (option Iters * Items * Z) :=
  match peek_body b n dst idx with
  | Panic => Err ERecovered
  | r => r
  end.

(** One turn of the loop of [popSync]: what is left of a batch is kept, then
    the entry of the batch is deleted. *)
Definition popSync_keep (fork : ForkName) (batchIter : Iter) : M (bucket T) unit :=
  if negb (Exhausted batchIter) then
    wrap_err "idxlog: append begun" (set_and_log fork (CurrentLocation batchIter))
  else mret tt.

Definition popSync_iter (fork : ForkName) (batchIter : Iter) : M (bucket T) unit :=
  popSync_keep fork batchIter ;;
  on_index fork (
    idx ← get;
    '(_, mem) ← lift (Delete (FirstKey batchIter) (bi_Mem idx));
    modify (set_Mem mem) ;;
    let deadLoc := mkLocation (FirstKey batchIter) 0 0 in
    wrap_err "idxlog: append begun" (WPush (bi_Log idx) deadLoc (Index_Trailer mem))).

Definition popSync (fork : ForkName) (batchIters : Iters) : M (bucket T) unit :=
  if decide (batchIters = []) then mret tt
  else
    each (popSync_iter fork) batchIters ;;
    on_index fork (
      idx ← get;
      WSync (bi_Log idx) false).

(** [Read] runs a callback, which may change everything the program can reach;
    [St] is that state and [view] the bucket in it.  The buffer [dst] only
    saves allocations and is left out. *)
Definition BRead {St} (view : St → bucket T) (upd : bucket T → St → St)
    (n : Z) (fork : ForkName) (fn : Items → M St ReadOp) : M St unit :=
  if n <=? 0 then mret tt
  else
    s ← get;
    idx ← lift (idxForFork (view s) fork);
    '(iters, items, _) ← lift (peek (view s) n [] (bi_Mem idx));
    op ← fn items;
    match op, iters with
    | ReadOpPop, Some iters => zoom view upd (popSync fork iters)
    | _, _ => mret tt
    end.

Definition join_opt (e1 e2 : option error) : option error := join_errs [e1; e2].

Definition or_fail {St} (e : option error) : M St unit :=
  match e with Some e => fail e | None => mret tt end.

Fixpoint each_joined {St A} (f : A → M St unit) (err : option error) (l : list A) : M St (option error) :=
  match l with
  | [] => mret err
  | x :: l => r ← attempt (f x); each_joined f (join_opt err (err_of r)) l
  end.

(** ** Delete *)

(** The variables of the loop over the index: [pushErr], [deleteEntries],
    [partialSetEntries] and [ndeleted]. *)
Record deletion := mkDeletion {
  del_pushErr : option error;
  del_entries : list Key;
  del_partial : list Location;
  del_ndeleted : Z;
}.

(** The loop over the batch of [loc]: [leftLoc] and [rightLoc].  Every turn
    moves the iterator forward in the log. *)
Fixpoint delete_scan (fuel : nat) (l : Log) (logIter : Iter) (from to : Key)
    (leftLoc rightLoc : Location) : res (Location * Location) :=
  match fuel with
  | O => NoFuel
  | S fuel =>
      '(ok, logIter) ← Next l logIter;
      if negb ok then Ok (leftLoc, rightLoc)
      else
        let item := Iter_Item logIter in
        let leftLoc :=
          if it_Key item <? from
          then mkLocation (loc_Key leftLoc) (loc_Off leftLoc) (uint64 (loc_Len leftLoc + 1))
          else leftLoc in
        if (to <? it_Key item) && (loc_Len rightLoc =? 0)
        then Ok (leftLoc, CurrentLocation logIter)
        else delete_scan fuel l logIter from to leftLoc rightLoc
  end.

(** Keep a part of a batch: remember it, and write its record. *)
Definition keep_part (w : Writer) (loc : Location) (trailer : Off) : M deletion unit :=
  if 0 <? loc_Len loc then
    modify (λ d, mkDeletion (del_pushErr d) (del_entries d) (del_partial d ++ [loc]) (del_ndeleted d)) ;;
    r ← attempt (WPush w loc (mkTrailer trailer));
    modify (λ d, mkDeletion (join_opt (del_pushErr d) (err_of r)) (del_entries d)
                   (del_partial d) (del_ndeleted d))
  else mret tt.

(** The body of the loop over the index; [false] breaks. *)
Definition delete_loc (b : bucket T) (w : Writer) (from to : Key) (lenBefore : Off) (loc : Location)
    : M deletion bool :=
  if to <? loc_Key loc then mret false
  else
    '(leftLoc, rightLoc) ← lift (delete_scan (S (Z.to_nat (log_size (b_log b)))) (b_log b) (logAt b loc)
                                   from to (mkLocation (loc_Key loc) (loc_Off loc) 0) zero_Location);
    let locShrinked := int64 (uint64 (uint64 (loc_Len loc - loc_Len leftLoc) - loc_Len rightLoc)) in
    if locShrinked =? 0 then mret true
    else
      modify (λ d, mkDeletion (del_pushErr d) (del_entries d ++ [loc_Key loc]) (del_partial d)
                     (int64 (del_ndeleted d + locShrinked))) ;;
      keep_part w leftLoc (uint64 (lenBefore - loc_Len loc - loc_Len leftLoc)) ;;
      d ← get;
      keep_part w rightLoc (uint64 (lenBefore - uint64 (del_ndeleted d))) ;;
      mret true.

(** The deletion of one index entry after the loop. *)
Definition delete_entry (trailer : Off) (key : Key) : M (bucketIndex T) unit :=
  idx ← get;
  '(_, mem) ← lift (Delete key (bi_Mem idx));
  modify (set_Mem mem) ;;
  WPush (bi_Log idx) (mkLocation key 0 0) (mkTrailer trailer).

Definition delete_index (fork : ForkName) (from to : Key) : M (bucket T) Z :=
  b ← get;
  idx ← lift (idxForFork b fork);
  let lenBefore := Len (bi_Mem idx) in
  let iter := IIter (bi_Mem idx) in
  '(_, d) ← with_local (mkDeletion None [] [] 0)
              (for_locs (iter_fuel iter) iter (delete_loc b (bi_Log idx) from to lenBefore));
  pushErr ← each_joined (λ key, on_index fork (delete_entry (uint64 (lenBefore - uint64 (del_ndeleted d))) key))
              (del_pushErr d) (del_entries d);
  modify (λ b, foldl (λ b loc, bucket_Set fork loc b) b (del_partial d)) ;;
  syncErr ← attempt (on_index fork (idx ← get; WSync (bi_Log idx) false));
  or_fail (join_opt pushErr (err_of syncErr)) ;;
  mret (del_ndeleted d).

(** The number that comes with an error is not used by the caller. *)
Definition BDelete (fork : ForkName) (from to : Key) : M (bucket T) Z :=
  recoverMmapError (
    b ← get;
    if to <? b_key b then mret 0
    else if to <? from then fail EToLtFrom
    else delete_index fork from to).

(** ** Emptiness, length and forks *)

Definition AllEmpty (b : bucket T) : bool :=
  forallb (λ kv, negb (0 <? Len (bi_Mem kv.2))) (map_to_list (b_indexes b)).

Definition Empty (b : bucket T) (fork : ForkName) : bool :=
  match idxForFork b fork with
  | Ok idx => Len (bi_Mem idx) =? 0
  | _ => true
  end.

Definition BKey (b : bucket T) : Key := b_key b.

Definition BLen (b : bucket T) (fork : ForkName) : Z :=
  match idxForFork b fork with
  | Ok idx => int64 (Len (bi_Mem idx))
  | _ => 0
  end.

(** A number that no array has. *)
Definition next_array (b : bucket T) : nat :=
  S (max_list (concat ((λ kv, array_numbers (bi_Mem kv.2)) <$> map_to_list (b_indexes b)))).

(** [b.indexes[dst] = bucketIndex{Log: w, Mem: srcIdx.Mem.Copy()}] *)
Definition fork_index (src dst : ForkName) (srcIdx : bucketIndex T) (w : Writer) (b : bucket T) : bucket T :=
  let mem := number_arrays (next_array b) (bi_Mem srcIdx) in
  set_indexes (<[dst := mkBucketIndex w (Copy mem)]> (<[src := set_Mem mem srcIdx]> (b_indexes b))) b.

Definition BFork (src dst : ForkName) : M (bucket T) unit :=
  b ← get;
  srcIdx ← lift (idxForFork b src);
  match idxForFork b dst with
  | Ok _ => mret tt
  | _ =>
      let dstPath := idxPath (b_dir b) dst in
      WriteIndex (bi_Mem srcIdx) dstPath ;;
      dstIdxLog ← NewWriter dstPath (sync_flag (opt_SyncMode (b_opts b)) SyncIndex);
      modify (fork_index src dst srcIdx dstIdxLog)
  end.

Definition BRemoveFork (fork : ForkName) : M (bucket T) unit :=
  b ← get;
  idx ← lift (idxForFork b fork);
  let dstPath := idxPath (b_dir b) fork in
  put (set_indexes (delete fork (b_indexes b)) b) ;;
  '(closeErr, _) ← with_local (bi_Log idx) (attempt WClose);
  removeErr ← attempt (Remove dstPath);
  match join_errs [err_of closeErr; err_of removeErr] with
  | Some e => fail e
  | None => mret tt
  end.

Definition removeForkOffline {St} (buckDir : path) (fork : ForkName) : M St unit :=
  Remove (idxPath buckDir fork).

Definition Forks (b : bucket T) : list ForkName :=
  merge_sort String.le (filter (λ fork, fork ≠ "") (range_forks b)).

(** ** Sync and close *)

Definition BSync (force : bool) : M (bucket T) unit :=
  r ← attempt (zoom b_log set_log (Sync force));
  b ← get;
  err ← each_joined (λ name, on_index name (idx ← get; WSync (bi_Log idx) force)) (err_of r) (range_forks b);
  or_fail err.

Definition BClose : M (bucket T) unit :=
  r ← attempt (zoom b_log set_log Close);
  b ← get;
  err ← each_joined (λ name, on_index name (zoom bi_Log set_Log WClose)) (err_of r) (range_forks b);
  or_fail err.
End bucket.
