(* ===== verification/IndexSlices.v ===== *)
(** * index/index.go with slices: the arrays that indexes share

    The values of the tree of an index are slices.  Here they are slices over
    arrays in a shared store: [append] writes into the array when there is room
    behind the slice, and [Copy] makes two indexes that use the same arrays.
    The indexes of a bucket in [Bucket.v] have lists and say where the lists
    end in which array ([idx_backing]); this file proves that the operations on
    them ([bucket_Set], [Delete] and [fork_index]) do to the lists what the
    operations on slices do, whatever arrays are shared. *)

From S2P Require Import Prelude BTree Item Vlog VlogIter Index IndexFile Options Bucket.

Record slice := mkSlice {
  sl_arr : nat;
  sl_off : nat;
  sl_len : nat;
  sl_cap : nat;
}.

(** The arrays that were allocated so far. *)
Abbreviation store := (list (list Location)).

Definition sl_read (h : store) (s : slice) : list Location :=
  take (sl_len s) (drop (sl_off s) (default [] (h !! sl_arr s))).

Section slices.
Context {T : Type → Type} `{BTree T} `{Host}.

(** [append(s, loc)]; [None] is the nil slice. *)
Definition sl_append (h : store) (s : option slice) (loc : Location) : store * slice :=
  match s with
  | Some s =>
      if decide (sl_len s < sl_cap s)%nat then
        (alter (<[(sl_off s + sl_len s)%nat := loc]>) (sl_arr s) h,
         mkSlice (sl_arr s) (sl_off s) (S (sl_len s)) (sl_cap s))
      else
        let cap := append_cap (S (sl_len s)) in
        (h ++ [sl_read h s ++ [loc] ++ replicate (cap - S (sl_len s)) zero_Location],
         mkSlice (length h) 0 (S (sl_len s)) cap)
  | None =>
      (h ++ [[loc] ++ replicate (append_cap 1 - 1) zero_Location], mkSlice (length h) 0 1 (append_cap 1))
  end.

Record SIndex := mkSIndex {
  si_m : T slice;
  si_len : Off;
  si_nentries : Off;
}.

Definition SSet (loc : Location) (h : store) (i : SIndex) : store * SIndex :=
  let '(h, s) := sl_append h (bt_get (loc_Key loc) (si_m i)) loc in
  (h, mkSIndex (bt_set (loc_Key loc) s (si_m i))
        (uint64 (si_len i + loc_Len loc)) (uint64 (si_nentries i + loc_Len loc))).

Definition SDelete (key : Key) (h : store) (i : SIndex) : res (Location * SIndex) :=
  match bt_get key (si_m i) with
  | None => Ok (zero_Location, i)
  | Some s =>
      match sl_read h s with
      | [] => Panic
      | old :: _ =>
          let len := uint64 (si_len i - loc_Len old) in
          let nentries := uint64 (si_nentries i + loc_Len old) in
          if decide (1 < sl_len s)%nat then
            let s' := mkSlice (sl_arr s) (S (sl_off s)) (sl_len s - 1) (sl_cap s - 1) in
            Ok (old, mkSIndex (bt_set key s' (si_m i)) len nentries)
          else Ok (old, mkSIndex (bt_delete key (si_m i)) len nentries)
      end
  end.

(** [Copy] of the tree copies the slices, not their arrays. *)
Definition SCopy (i : SIndex) : SIndex := mkSIndex (si_m i) (si_len i) (si_nentries i).
End slices.
Arguments SIndex T : clear implicits.

(** ** What the indexes of a bucket stand for *)

Definition sl_wf (h : store) (s : slice) : Prop :=
  (1 ≤ sl_len s ≤ sl_cap s)%nat ∧
  ∃ arr, h !! sl_arr s = Some arr ∧ (sl_off s + sl_cap s ≤ length arr)%nat.

Section refinement.
Context {T : Type → Type} `{BTreeLaws T} `{Host}.
Implicit Types (h : store) (i : Index T) (si sj : SIndex T) (s t : slice) (b : bucket T) (sis : gmap ForkName (SIndex T)) (k : Key).

Lemma sl_read_frame h h' s :
  sl_wf h s → h' !! sl_arr s = h !! sl_arr s → sl_read h' s = sl_read h s ∧ sl_wf h' s.
Proof. intros [Hlen (arr & Harr & Hcap)] Heq. unfold sl_read, sl_wf. rewrite Heq. eauto. Qed.

(** [append] yields the longer list, in the old array or in a new one, and
    leaves all other arrays as they are. *)
Lemma sl_append_spec h o loc h' s' :
  sl_append h o loc = (h', s') → (∀ s, o = Some s → sl_wf h s) →
  sl_read h' s' = default [] (sl_read h <$> o) ++ [loc] ∧ sl_wf h' s' ∧
  (sl_arr s' = length h ∨ (sl_arr <$> o) = Some (sl_arr s')) ∧
  (∀ a, a ≠ sl_arr s' → (a < length h)%nat → h' !! a = h !! a).
Proof.
  intros Heq Hwf. destruct o as [s|]; cbn in Heq.
  2: { simplify_eq. pose proof (append_cap_ge 1). unfold sl_wf, sl_read.
       cbn [sl_arr sl_len sl_off sl_cap fmap option_fmap option_map].
       rewrite lookup_app_r, Nat.sub_diag by done. split; [done|]. split.
       - split; [lia|]. eexists. split; [done|]. cbn [length]. rewrite length_replicate. lia.
       - split; [by left|]. intros a Ha Hlt. by rewrite lookup_app_l. }
  destruct (Hwf s eq_refl) as [Hlen (arr & Harr & Hcap)]. case_decide as Hroom; simplify_eq.
  - unfold sl_wf, sl_read. cbn [sl_arr sl_len sl_off sl_cap fmap option_fmap option_map].
    rewrite list_lookup_alter_eq, Harr. cbn [fmap option_fmap option_map from_option id]. split.
    + rewrite drop_insert_ge by lia.
      replace (sl_off s + sl_len s - sl_off s)%nat with (sl_len s) by lia.
      rewrite (take_S_r _ _ loc); [|apply list_lookup_insert_eq; rewrite length_drop; lia].
      by rewrite take_insert_ge by lia.
    + split; [|split; [by right|]].
      * split; [lia|]. eexists. split; [done|]. rewrite length_insert. lia.
      * intros a Ha _. by apply list_lookup_alter_ne.
  - pose proof (append_cap_ge (S (sl_len s))). unfold sl_wf. cbn [sl_arr sl_len sl_off sl_cap fmap option_fmap].
    assert (length (sl_read h s) = sl_len s) as Hread.
    { unfold sl_read. rewrite Harr. cbn. rewrite length_take, length_drop. lia. }
    split_and!.
    + unfold sl_read at 1. cbn [sl_arr sl_len sl_off]. rewrite lookup_app_r, Nat.sub_diag by done.
      cbn [lookup list_lookup from_option id drop]. rewrite cons_middle, app_assoc.
      rewrite drop_0, take_app_length'; [done|].
      rewrite length_app, Hread. cbn. lia.
    + lia.
    + lia.
    + eexists. rewrite lookup_app_r, Nat.sub_diag by done. split; [done|].
      rewrite length_app, Hread. cbn [length]. rewrite length_replicate. lia.
    + by left.
    + intros a Ha Hlt. by rewrite lookup_app_l.
Qed.

(** The slice ends where the index says. *)
Definition ends_at s (a : backing) : Prop := ba_end a = (sl_off s + sl_len s)%nat ∧ ba_cap a = (sl_off s + sl_cap s)%nat.

(** [si] in the store [h] stands for [i]. *)
Record represents h si i : Prop := {
  rp_lists : ∀ k, sl_read h <$> bt_get k (si_m si) = bt_get k (idx_m i);
  rp_wf : ∀ k s, bt_get k (si_m si) = Some s → sl_wf h s;
  rp_ends : ∀ k : Key, option_Forall2 ends_at (bt_get k (si_m si)) (idx_backing i !! k);
  rp_len : si_len si = idx_len i;
  rp_nentries : si_nentries si = idx_nentries i;
}.

(** A slice of a consumer of the bucket and where the model says that it is. *)
Record slice_of sis b (f : ForkName) (k : Key) s (a : backing) : Prop := {
  so_slice : ∃ si, sis !! f = Some si ∧ bt_get k (si_m si) = Some s;
  so_backing : ∃ idx, b_indexes b !! f = Some idx ∧ idx_backing (bi_Mem idx) !! k = Some a;
}.

(** The consumers of the bucket with slices in the store [h].  Slices of
    different keys never use one array; if slices of two consumers do and there is
    room behind one of them, then the array has a number, and it is the same for
    both; different arrays of a key have different numbers. *)
Record stored_as h sis b : Prop := {
  sa_indexes : map_Forall2 (λ _ si idx, represents h si (bi_Mem idx)) sis (b_indexes b);
  sa_keys : ∀ f g k k' s t a c, slice_of sis b f k s a → slice_of sis b g k' t c → sl_arr s = sl_arr t → k = k';
  sa_room : ∀ f g k s t a c, f ≠ g → slice_of sis b f k s a → slice_of sis b g k t c → sl_arr s = sl_arr t →
    has_room a = true → is_Some (ba_array a) ∧ ba_array c = ba_array a;
  sa_numbers : ∀ f g k s t a c n, slice_of sis b f k s a → slice_of sis b g k t c →
    ba_array a = Some n → ba_array c = Some n → sl_arr s = sl_arr t;
}.

Lemma ends_at_room s a : ends_at s a → has_room a = true ↔ (sl_len s < sl_cap s)%nat.
Proof. unfold has_room. intros [-> ->]. rewrite Nat.ltb_lt. lia. Qed.

Lemma length_sl_read h s : sl_wf h s → length (sl_read h s) = sl_len s.
Proof.
  intros [Hlen (arr & Harr & Hcap)]. unfold sl_read. rewrite Harr. cbn. rewrite length_take, length_drop. lia.
Qed.

Lemma represents_slice h si i (k : Key) s :
  represents h si i → bt_get k (si_m si) = Some s →
  ∃ a, idx_backing i !! k = Some a ∧ ends_at s a ∧ bt_get k (idx_m i) = Some (sl_read h s) ∧ sl_wf h s ∧ (sl_arr s < length h)%nat.
Proof.
  intros Hr Hs. pose proof (rp_ends _ _ _ Hr k) as He. rewrite Hs in He. inversion He as [? a Ha Hs' Hb|]; subst.
  pose proof (rp_wf _ _ _ Hr k s Hs) as Hwf. exists a. split_and!; try done.
  - by rewrite <- (rp_lists _ _ _ Hr), Hs.
  - destruct Hwf as [_ (arr & Harr & _)]. by eapply lookup_lt_Some.
Qed.

(** An index whose arrays are unchanged still stands for the same lists. *)
Lemma represents_frame h h' si i :
  represents h si i → (∀ k s, bt_get k (si_m si) = Some s → h' !! sl_arr s = h !! sl_arr s) → represents h' si i.
Proof.
  intros [Hl Hwf He Hn Hne] Hsame. split; try done.
  - intros k. rewrite <- Hl. destruct (bt_get k (si_m si)) as [s|] eqn:Hs; [|done]. cbn. f_equal.
    by apply sl_read_frame; [eapply Hwf|eapply Hsame].
  - intros k s Hs. by apply (sl_read_frame h h'); [eapply Hwf|eapply Hsame].
Qed.

(** ** A write into an array *)

Lemma sl_read_alter h t pos loc :
  sl_wf h t →
  sl_read (alter (<[pos := loc]>) (sl_arr t) h) t =
    if decide (sl_off t ≤ pos < sl_off t + sl_len t)%nat then <[(pos - sl_off t)%nat := loc]> (sl_read h t) else sl_read h t.
Proof.
  intros [_ (arr & Harr & _)]. unfold sl_read. rewrite list_lookup_alter_eq, Harr. cbn. case_decide as Hin.
  - rewrite drop_insert_ge, take_insert_lt by lia. done.
  - destruct (decide (pos < sl_off t)%nat) as [Hlt|Hge]; [by rewrite drop_insert_lt by lia|].
    by rewrite drop_insert_ge, take_insert_ge by lia.
Qed.

Lemma sl_wf_alter h t arr pos loc : sl_wf h t → sl_wf (alter (<[pos := loc]>) arr h) t.
Proof.
  intros [Hlen (v & Hv & Hcap)]. split; [done|]. destruct (decide (arr = sl_arr t)) as [->|Hne].
  - exists (<[pos := loc]> v). rewrite list_lookup_alter_eq, Hv, length_insert. done.
  - exists v. by rewrite list_lookup_alter_ne.
Qed.

(** What a write into the array [arr], which has the number [n] if the index uses
    it, does to an index. *)
Lemma represents_overwrite h sj j arr pos loc n :
  represents h sj j →
  (∀ k t, bt_get k (si_m sj) = Some t → k ≠ loc_Key loc → sl_arr t ≠ arr) →
  (∀ t c, bt_get (loc_Key loc) (si_m sj) = Some t → idx_backing j !! loc_Key loc = Some c → sl_arr t = arr ↔ ba_array c = Some n) →
  represents (alter (<[pos := loc]>) arr h) sj (overwrite loc (n, pos) j).
Proof.
  intros Hr Hother Hnum. unfold overwrite. set (k0 := loc_Key loc) in *. set (h' := alter _ arr h).
  assert (∀ k t, bt_get k (si_m sj) = Some t → k ≠ k0 → sl_read h' t = sl_read h t) as Hsame.
  { intros k t Ht Hne. apply sl_read_frame; [by eapply rp_wf|]. unfold h'. apply list_lookup_alter_ne.
    apply not_eq_sym. by eapply Hother. }
  assert (∀ k t, bt_get k (si_m sj) = Some t → sl_wf h' t) as Hwf' by (intros k t Ht; eapply sl_wf_alter, rp_wf; done).
  destruct (bt_get k0 (si_m sj)) as [t|] eqn:Ht.
  2: { pose proof (rp_ends _ _ _ Hr k0) as He. rewrite Ht in He. inversion He as [|Hx Hy]. 
       apply (represents_frame h); [done|]. intros k s Hs. unfold h'. apply list_lookup_alter_ne.
       apply not_eq_sym. eapply Hother; [done|]. intros ->. congruence. }
  destruct (represents_slice h sj j k0 t Hr Ht) as (c & Hc & [He Hcap] & Hl & Hwf & _). rewrite Hc, Hl.
  specialize (Hnum t c eq_refl Hc). cbn [fst snd]. pose proof (length_sl_read h t Hwf) as Hlen. rewrite Hlen, He.
  assert (sl_arr t = arr → sl_read h' t = if decide (sl_off t ≤ pos < sl_off t + sl_len t)%nat
    then <[(pos - sl_off t)%nat := loc]> (sl_read h t) else sl_read h t) as Hread.
  { intros <-. by apply sl_read_alter. }
  destruct (decide (ba_array c = Some n ∧ _)) as [Hcase|Hcase].
  - destruct Hcase as (Hn & Hlo & Hhi). apply Hnum in Hn. rewrite decide_True in Hread by lia.
    split; cbn; [|done|apply (rp_ends _ _ _ Hr)|by destruct Hr..]. intros k. rewrite bt_get_set. case_decide as Hk.
    + subst k. rewrite Ht. cbn. rewrite Hread by done. do 2 f_equal. lia.
    + rewrite <- (rp_lists _ _ _ Hr). destruct (bt_get k (si_m sj)) as [s|] eqn:Hs; [|done]. cbn. f_equal. eapply Hsame; [done|congruence].
  - split; try done; [|by destruct Hr..]. intros k. rewrite <- (rp_lists _ _ _ Hr). destruct (bt_get k (si_m sj)) as [s|] eqn:Hs; [|done].
    cbn. f_equal. destruct (decide (k = k0)) as [->|Hne]; [|by eapply Hsame]. assert (s = t) as -> by congruence.
    destruct (decide (sl_arr t = arr)) as [Harr|Harr].
    + rewrite (Hread Harr). apply Hnum in Harr. rewrite decide_False; [done|]. intros ?. apply Hcase. split; [done|lia].
    + apply sl_read_frame; [done|]. unfold h'. apply list_lookup_alter_ne. congruence.
Qed.

(** ** [Set] *)

(** The slice and the index of the consumer itself. *)
Lemma SSet_represents loc h si i h' si' :
  represents h si i → (∀ k k' s t, bt_get k (si_m si) = Some s → bt_get k' (si_m si) = Some t → sl_arr s = sl_arr t → k = k') →
  SSet loc h si = (h', si') → represents h' si' (Set_ loc i).
Proof.
  intros Hr Hkeys Hset. unfold SSet in Hset.
  destruct (sl_append h (bt_get (loc_Key loc) (si_m si)) loc) as [h1 s1] eqn:Happ. simplify_eq.
  destruct (sl_append_spec _ _ _ _ _ Happ (rp_wf _ _ _ Hr (loc_Key loc))) as (Hread & Hwf1 & Hplace & Hframe).
  assert (∀ k s, bt_get k (si_m si) = Some s → k ≠ loc_Key loc → h' !! sl_arr s = h !! sl_arr s) as Hother.
  { intros k s Hs Hne. destruct (represents_slice h si i k s Hr Hs) as (_ & _ & _ & _ & _ & Hlt). apply Hframe; [|done].
    intros Heq. destruct Hplace as [Hnew|Hold]; [lia|]. destruct (bt_get (loc_Key loc) (si_m si)) as [t|] eqn:Ht; [|done].
    injection Hold as Hold. apply Hne. eapply Hkeys; [exact Hs|exact Ht|congruence]. }
  assert (∀ k s, bt_get k (si_m si) = Some s → k ≠ loc_Key loc → sl_read h' s = sl_read h s ∧ sl_wf h' s) as Hfr.
  { intros k s Hs Hne. apply sl_read_frame; [by eapply rp_wf|by eapply Hother]. }
  split; cbn.
  - intros k. rewrite !bt_get_set. case_decide; subst.
    + cbn. rewrite Hread. f_equal. unfold lst. by rewrite <- (rp_lists _ _ _ Hr (loc_Key loc)).
    + rewrite <- (rp_lists _ _ _ Hr). destruct (bt_get k (si_m si)) as [s|] eqn:Hs; [|done]. cbn. f_equal. by apply (Hfr k).
  - intros k s. rewrite bt_get_set. case_decide; [by intros [= <-]|]. intros Hs. by apply (Hfr k).
  - intros k. rewrite bt_get_set. case_decide as Hk; [|rewrite lookup_insert_ne by done; apply (rp_ends _ _ _ Hr)].
    subst k. rewrite lookup_insert_eq. constructor. pose proof (rp_ends _ _ _ Hr (loc_Key loc)) as He.
    destruct (bt_get (loc_Key loc) (si_m si)) as [s|] eqn:Hs.
    + destruct (represents_slice h si i _ s Hr Hs) as (a & Ha & Hends & Hl & Hwf & _). rewrite Ha, Hl. cbn [default from_option id].
      unfold append_backing. cbn in Happ. pose proof (ends_at_room s a Hends) as Hroom. rewrite (length_sl_read h s Hwf).
      destruct Hends as [He1 He2]. case_decide as Hd; simplify_eq.
      * rewrite (proj2 Hroom Hd). split; cbn; [rewrite He1; lia|by rewrite He2].
      * destruct (has_room a); [by destruct Hd; apply Hroom|]. by split; cbn.
    + inversion He as [|Hx Hy]. rewrite <- (rp_lists _ _ _ Hr), Hs. cbn in Happ |- *. simplify_eq. by split; cbn.
  - by rewrite (rp_len _ _ _ Hr).
  - by rewrite (rp_nentries _ _ _ Hr).
Qed.

(** ** The indexes of a bucket *)

Lemma stored_index h sis b f si :
  stored_as h sis b → sis !! f = Some si → ∃ idx, b_indexes b !! f = Some idx ∧ represents h si (bi_Mem idx).
Proof.
  intros Hs Hsi. pose proof (sa_indexes _ _ _ Hs f) as Hf. rewrite Hsi in Hf. inversion Hf as [? idx Hr Hx Hy|]; subst. by exists idx.
Qed.

Lemma slice_of_stored h sis b f si k s :
  stored_as h sis b → sis !! f = Some si → bt_get k (si_m si) = Some s → ∃ a, slice_of sis b f k s a.
Proof.
  intros Hs Hsi Hk. destruct (stored_index h sis b f si Hs Hsi) as (idx & Hidx & Hr).
  destruct (represents_slice h si _ k s Hr Hk) as (a & Ha & _). exists a. split; [by exists si|by exists idx].
Qed.

Lemma slice_of_array h sis b f k s a : stored_as h sis b → slice_of sis b f k s a → (sl_arr s < length h)%nat.
Proof.
  intros Hs [(si & Hsi & Hk) _]. destruct (stored_index h sis b f si Hs Hsi) as (idx & _ & Hr).
  by destruct (represents_slice h si _ k s Hr Hk) as (_ & _ & _ & _ & _ & ?).
Qed.

(** A slice of a consumer after an operation on [f]: the one with the key [k0] may
    be in a new array, the others are in the same ones as before. *)
Definition came_from h sis b (f : ForkName) (k0 : Key) (g : ForkName) (k : Key) s (a : backing) : Prop :=
  (g = f ∧ k = k0 ∧ sl_arr s = length h ∧ ba_array a = None) ∨
  ∃ s0 a0, slice_of sis b g k s0 a0 ∧ sl_arr s = sl_arr s0 ∧ ba_array a = ba_array a0 ∧ (has_room a = true → has_room a0 = true).

Lemma stored_step h sis b h' sis' b' f k0 :
  stored_as h sis b → map_Forall2 (λ _ si idx, represents h' si (bi_Mem idx)) sis' (b_indexes b') →
  (∀ g k s a, slice_of sis' b' g k s a → came_from h sis b f k0 g k s a) → stored_as h' sis' b'.
Proof.
  intros Hs Hidx Hfrom. split; [done| | |].
  - intros g g' k k' s t a c Ha Hc Heq.
    destruct (Hfrom _ _ _ _ Ha) as [(-> & -> & Hs1 & _)|(s0 & a0 & Ha0 & Hs1 & _)],
      (Hfrom _ _ _ _ Hc) as [(-> & -> & Ht1 & _)|(t0 & c0 & Hc0 & Ht1 & _)]; [done| | |].
    + pose proof (slice_of_array _ _ _ _ _ _ _ Hs Hc0). lia.
    + pose proof (slice_of_array _ _ _ _ _ _ _ Hs Ha0). lia.
    + eapply (sa_keys _ _ _ Hs); [exact Ha0|exact Hc0|congruence].
  - intros g g' k s t a c Hne Ha Hc Heq Hroom.
    destruct (Hfrom _ _ _ _ Ha) as [(-> & _ & Hs1 & _)|(s0 & a0 & Ha0 & Hs1 & Hn & Hr)],
      (Hfrom _ _ _ _ Hc) as [(-> & _ & Ht1 & _)|(t0 & c0 & Hc0 & Ht1 & Hn' & _)]; [done| | |].
    + pose proof (slice_of_array _ _ _ _ _ _ _ Hs Hc0). lia.
    + pose proof (slice_of_array _ _ _ _ _ _ _ Hs Ha0). lia.
    + rewrite Hn, Hn'. eapply (sa_room _ _ _ Hs); [exact Hne|exact Ha0|exact Hc0|congruence|auto].
  - intros g g' k s t a c n Ha Hc Hna Hnc.
    destruct (Hfrom _ _ _ _ Ha) as [(_ & _ & _ & ?)|(s0 & a0 & Ha0 & Hs1 & Hn & _)]; [congruence|].
    destruct (Hfrom _ _ _ _ Hc) as [(_ & _ & _ & ?)|(t0 & c0 & Hc0 & Ht1 & Hn' & _)]; [congruence|].
    rewrite Hs1, Ht1. apply (sa_numbers _ _ _ Hs g g' k s0 t0 a0 c0 n); [exact Ha0|exact Hc0|congruence..].
Qed.

(** Where an [append] writes. *)
Inductive appended h (loc : Location) (k : Key) si i : store → slice → backing → Prop :=
  | app_new arr s a :
      sl_arr s = length h → ba_array a = None → Set_write loc i = None → appended h loc k si i (h ++ [arr]) s a
  | app_place s0 a0 s a :
      bt_get k (si_m si) = Some s0 → idx_backing i !! k = Some a0 → has_room a0 = true →
      sl_arr s = sl_arr s0 → ba_array a = ba_array a0 →
      Set_write loc i = (λ n, (n, ba_end a0)) <$> ba_array a0 →
      appended h loc k si i (alter (<[ba_end a0 := loc]>) (sl_arr s0) h) s a.

Lemma sl_append_appended h si i loc h' s' :
  represents h si i → sl_append h (bt_get (loc_Key loc) (si_m si)) loc = (h', s') →
  appended h loc (loc_Key loc) si i h' s'
    (append_backing (S (length (default [] (bt_get (loc_Key loc) (idx_m i))))) (idx_backing i !! loc_Key loc)).
Proof.
  intros Hr Happ. pose proof (rp_ends _ _ _ Hr (loc_Key loc)) as He. unfold append_backing.
  destruct (bt_get (loc_Key loc) (si_m si)) as [s|] eqn:Hs; cbn in Happ.
  - destruct (represents_slice h si i _ s Hr Hs) as (a & Ha & Hends & _). rewrite Ha.
    pose proof (ends_at_room s a Hends) as Hroom. destruct (has_room a) eqn:Hra.
    + rewrite decide_True in Happ by by apply Hroom. simplify_eq. destruct Hends as [<- _].
      apply app_place; [exact Hs|exact Ha|exact Hra|done|done|]. unfold Set_write. rewrite Ha. cbn. rewrite Hra. by destruct (ba_array a).
    + rewrite decide_False in Happ by (intros Hlt; by apply Hroom in Hlt). simplify_eq.
      apply app_new; [done|done|]. unfold Set_write. rewrite Ha. cbn. rewrite Hra. by destruct (ba_array a).
  - inversion He as [|Hx Hy]. simplify_eq. apply app_new; [done|done|]. unfold Set_write. by rewrite <- Hy.
Qed.

Lemma bucket_Set_lookup f loc b idx g :
  b_indexes b !! f = Some idx →
  b_indexes (bucket_Set f loc b) !! g =
    if decide (f = g) then Some (set_Mem (Set_ loc (bi_Mem idx)) idx)
    else (λ other, match Set_write loc (bi_Mem idx) with
                   | Some w => set_Mem (overwrite loc w (bi_Mem other)) other
                   | None => other
                   end) <$> b_indexes b !! g.
Proof.
  intros Hidx. unfold bucket_Set. rewrite Hidx. cbn. case_decide as Hg; [subst g; by rewrite lookup_insert_eq|].
  rewrite lookup_insert_ne by done. destruct (Set_write loc (bi_Mem idx)); [by rewrite lookup_fmap|by destruct (b_indexes b !! g)].
Qed.

Lemma overwrite_backing loc w i : idx_backing (overwrite loc w i) = idx_backing i.
Proof.
  unfold overwrite. destruct (idx_backing i !! loc_Key loc), (bt_get (loc_Key loc) (idx_m i)); [|done..]. by case_decide.
Qed.

Lemma bucket_Set_stored h sis b f loc si h' si' :
  stored_as h sis b → sis !! f = Some si → SSet loc h si = (h', si') →
  stored_as h' (<[f := si']> sis) (bucket_Set f loc b).
Proof.
  intros Hs Hsi Hset. destruct (stored_index h sis b f si Hs Hsi) as (idx & Hidx & Hr).
  assert (represents h' si' (Set_ loc (bi_Mem idx))) as Hown.
  { eapply SSet_represents; [exact Hr| |exact Hset]. intros k k' s t Hk Hk' Heq.
    destruct (slice_of_stored h sis b f si k s Hs Hsi Hk) as [a Ha], (slice_of_stored h sis b f si k' t Hs Hsi Hk') as [c Hc].
    by eapply (sa_keys _ _ _ Hs). }
  unfold SSet in Hset. destruct (sl_append h (bt_get (loc_Key loc) (si_m si)) loc) as [h1 s1] eqn:Happ. simplify_eq.
  pose proof (sl_append_appended h si _ loc h' s1 Hr Happ) as Hpl.
  set (a1 := append_backing _ _) in Hpl. set (k0 := loc_Key loc) in *.
  apply (stored_step h sis b h' _ _ f k0 Hs).
  - intros g. rewrite (bucket_Set_lookup f loc b idx g Hidx). destruct (decide (f = g)) as [<-|Hne].
    { rewrite lookup_insert_eq. by constructor. }
    rewrite lookup_insert_ne by done. pose proof (sa_indexes _ _ _ Hs g) as Hg.
    destruct (sis !! g) as [sj|] eqn:Hsj; inversion Hg as [? other Hro Hx Hother|]; subst; [|by constructor].
    cbn. constructor.
    assert (∀ k t, bt_get k (si_m sj) = Some t → ∃ c, slice_of sis b g k t c ∧ idx_backing (bi_Mem other) !! (k : Key) = Some c) as Hslice.
    { intros k t Ht. destruct (represents_slice h sj _ k t Hro Ht) as (c & Hc & _). exists c. split; [|done].
      split; [by exists sj|by exists other]. }
    destruct Hpl as [arr s a Hs1 _ ->|s0 a0 s a Hs0 Ha0 Hroom Hs1 _ Hw].
    + apply (represents_frame h); [done|]. intros k t Ht. destruct (Hslice k t Ht) as (c & Hc & _).
      apply lookup_app_l. by eapply slice_of_array.
    + assert (slice_of sis b f k0 s0 a0) as Hsl by (split; [by exists si|by exists idx]).
      destruct (ba_array a0) as [n|] eqn:Hn; cbn in Hw; rewrite Hw.
      * cbn [bi_Mem set_Mem]. apply represents_overwrite; [done| |].
        -- intros k t Ht Hk Heq. destruct (Hslice k t Ht) as (c & Hc & _). apply Hk. by eapply (sa_keys _ _ _ Hs).
        -- intros t c Ht Hc. destruct (Hslice _ t Ht) as (c' & Hsc & Hc'). assert (c' = c) as -> by congruence. split.
           ++ intros Heq. destruct (sa_room _ _ _ Hs f g k0 s0 t a0 c Hne Hsl Hsc) as [_ ->]; done.
           ++ intros Hnc. by eapply (sa_numbers _ _ _ Hs).
      * apply (represents_frame h); [done|]. intros k t Ht. apply list_lookup_alter_ne. intros Heq.
        destruct (Hslice k t Ht) as (c & Hc & _). assert (k = k0) as -> by (symmetry; by eapply (sa_keys _ _ _ Hs)).
        destruct (sa_room _ _ _ Hs f g k0 s0 t a0 c Hne Hsl Hc Heq Hroom) as [[n Hx] _]. congruence.
  - intros g k s a [(sj & Hsj & Hk) (other & Hother & Ha)]. rewrite (bucket_Set_lookup f loc b idx g Hidx) in Hother.
    destruct (decide (f = g)) as [<-|Hne].
    + rewrite lookup_insert_eq in Hsj. simplify_eq. cbn in Hk, Ha. rewrite bt_get_set in Hk. revert Hk.
      case_decide as Hk0; [subst k|]; intros Hk.
      * fold k0 in Ha. rewrite lookup_insert_eq in Ha. injection Hk as <-.
        assert (a1 = a) as <- by (by injection Ha).
        destruct Hpl as [arr s a ? ? _|s0 a0 s a Hs0 Ha0 Hroom Hs1 Hn _]; [by left|right].
        exists s0, a0. split; [split; [by exists si|by exists idx]|]. by split_and!.
      * right. fold k0 in Ha. rewrite lookup_insert_ne in Ha by done. exists s, a. split; [split; [by exists si|by exists idx]|done].
    + rewrite lookup_insert_ne in Hsj by done. right. exists s, a. split; [|done]. split; [by exists sj|].
      destruct (b_indexes b !! g) as [o|] eqn:Ho; [|done]. cbn in Hother. injection Hother as <-. exists o. split; [done|].
      destruct (Set_write loc (bi_Mem idx)); [|done]. cbn in Ha. by rewrite overwrite_backing in Ha.
Qed.

(** ** [Delete] *)

Lemma SDelete_represents h si i (key : Key) :
  represents h si i →
  ∃ loc si' i', SDelete key h si = Ok (loc, si') ∧ Delete key i = Ok (loc, i') ∧ represents h si' i' ∧
    ∀ k s', bt_get k (si_m si') = Some s' →
      ∃ s, bt_get k (si_m si) = Some s ∧ sl_arr s' = sl_arr s ∧ idx_backing i' !! (k : Key) = idx_backing i !! (k : Key).
Proof.
  intros Hr. unfold SDelete, Delete. destruct (bt_get key (si_m si)) as [s|] eqn:Hs.
  2: { rewrite <- (rp_lists _ _ _ Hr), Hs. cbn. exists zero_Location, si, i. split_and!; try done. intros k s' Hk. by exists s'. }
  destruct (represents_slice h si i key s Hr Hs) as (a & Ha & Hends & Hl & Hwf & _).
  pose proof (length_sl_read h s Hwf) as Hlen. rewrite Hl. destruct Hwf as [Hn (arr & Harr & Hcap)].
  destruct (sl_read h s) as [|old rest] eqn:Hread; [cbn in Hlen; lia|]. cbn in Hlen.
  destruct rest as [|loc rest].
  - rewrite decide_False by (cbn in Hlen; lia). exists old. eexists _, _. split; [done|]. split; [done|]. split.
    + split; cbn; [| | |by rewrite (rp_len _ _ _ Hr)|by rewrite (rp_nentries _ _ _ Hr)].
      * intros k. rewrite !bt_get_delete. case_decide; [done|]. apply (rp_lists _ _ _ Hr).
      * intros k t. rewrite bt_get_delete. case_decide; [done|]. apply (rp_wf _ _ _ Hr).
      * intros k. rewrite bt_get_delete. case_decide as Hk; [subst k; rewrite lookup_delete_eq; by constructor|].
        rewrite lookup_delete_ne by done. apply (rp_ends _ _ _ Hr).
    + cbn. intros k t. rewrite bt_get_delete. case_decide as Hk; [done|]. intros Ht. exists t. by rewrite lookup_delete_ne.
  - cbn in Hlen. rewrite decide_True by lia. exists old. eexists _, _. split; [done|]. split; [done|].
    assert (sl_read h (mkSlice (sl_arr s) (S (sl_off s)) (sl_len s - 1) (sl_cap s - 1)) = loc :: rest) as Hread'.
    { unfold sl_read in *. cbn. rewrite Harr in *. cbn in *. destruct (drop (sl_off s) arr) as [|x l] eqn:Hd; [by rewrite take_nil in Hread|].
      replace (drop (S (sl_off s)) arr) with l.
      - destruct (sl_len s) as [|m]; [lia|]. cbn in Hread |- *. rewrite Nat.sub_0_r. by injection Hread.
      - replace (S (sl_off s)) with (sl_off s + 1)%nat by lia. by rewrite <- drop_drop, Hd. }
    split.
    + split; cbn; [| | |by rewrite (rp_len _ _ _ Hr)|by rewrite (rp_nentries _ _ _ Hr)].
      * intros k. rewrite !bt_get_set. case_decide; [exact (f_equal Some Hread')|]. apply (rp_lists _ _ _ Hr).
      * intros k t. rewrite bt_get_set. case_decide; [intros [= <-]|apply (rp_wf _ _ _ Hr)].
        split; cbn; [lia|]. exists arr. split; [done|lia].
      * intros k. rewrite bt_get_set. case_decide as Hk; [subst k|apply (rp_ends _ _ _ Hr)]. rewrite Ha. constructor.
        destruct Hends as [He Hc]. split; cbn; lia.
    + cbn. intros k t. rewrite bt_get_set. case_decide as Hk; [intros [= <-]|intros Ht; by exists t].
      subst k. by exists s.
Qed.

(** The index of a consumer replaced by one that uses some of its arrays. *)
Lemma stored_replace h sis b f idx si i' si' :
  stored_as h sis b → sis !! f = Some si → b_indexes b !! f = Some idx → represents h si' i' →
  (∀ k s', bt_get k (si_m si') = Some s' →
      ∃ s, bt_get k (si_m si) = Some s ∧ sl_arr s' = sl_arr s ∧ idx_backing i' !! (k : Key) = idx_backing (bi_Mem idx) !! (k : Key)) →
  stored_as h (<[f := si']> sis) (set_indexes (<[f := set_Mem i' idx]> (b_indexes b)) b).
Proof.
  intros Hs Hsi Hidx Hr Hfrom. apply (stored_step h sis b h _ _ f 0 Hs).
  - intros g. cbn. destruct (decide (f = g)) as [<-|Hne]; [by rewrite !lookup_insert_eq; constructor|].
    rewrite !lookup_insert_ne by done. apply (sa_indexes _ _ _ Hs).
  - intros g k s a [(sj & Hsj & Hk) (other & Hother & Ha)]. cbn in Hother. right. destruct (decide (f = g)) as [<-|Hne].
    + rewrite lookup_insert_eq in Hsj. rewrite lookup_insert_eq in Hother. simplify_eq. destruct (Hfrom k s Hk) as (s0 & Hs0 & Harr & Heq).
      exists s0, a. split; [|done]. split; [by exists si|]. exists idx. split; [done|]. by rewrite <- Heq.
    + rewrite lookup_insert_ne in Hsj by done. rewrite lookup_insert_ne in Hother by done. exists s, a. split; [split; [by exists sj|by exists other]|done].
Qed.

(** ** [Copy] *)

Lemma next_array_fresh b g idx (k : Key) a n :
  b_indexes b !! g = Some idx → idx_backing (bi_Mem idx) !! k = Some a → ba_array a = Some n → (n < next_array b)%nat.
Proof.
  intros Hidx Ha Hn. apply Nat.lt_succ_r, max_list_elem_of_le, list_elem_of_In, in_concat.
  exists (array_numbers (bi_Mem idx)). rewrite <- !list_elem_of_In. split.
  - apply list_elem_of_fmap. exists (g, idx). split; [done|]. by apply elem_of_map_to_list.
  - apply list_elem_of_omap. exists (k, a). split; [by apply elem_of_map_to_list|done].
Qed.

(** A slice after [f] was copied to [g]: that of another consumer as before, or one
    of the source, with a number for its array if there is room in it. *)
Lemma fork_slice_of h sis b src dst srcIdx w si g k s a :
  sis !! src = Some si → b_indexes b !! src = Some srcIdx → stored_as h sis b →
  slice_of (<[dst := SCopy si]> sis) (fork_index src dst srcIdx w b) g k s a →
  (g ≠ src ∧ g ≠ dst ∧ slice_of sis b g k s a) ∨
  ((g = src ∨ g = dst) ∧ ∃ a0, slice_of sis b src k s a0 ∧ a = number_array (next_array b) a0).
Proof.
  intros Hsi Hsrc Hs [(sj & Hsj & Hk) (idx & Hidx & Ha)]. unfold fork_index in Hidx. cbn in Hidx.
  assert (idx_backing (number_arrays (next_array b) (bi_Mem srcIdx)) !! k = Some a →
    bt_get k (si_m si) = Some s → ∃ a0, slice_of sis b src k s a0 ∧ a = number_array (next_array b) a0) as Hfrom.
  { cbn. intros Hb Hks. apply lookup_fmap_Some in Hb as (a0 & <- & Ha0). exists a0. split; [|done].
    split; [by exists si|by exists srcIdx]. }
  destruct (decide (dst = g)) as [<-|Hdst].
  { rewrite lookup_insert_eq in Hidx. rewrite lookup_insert_eq in Hsj. simplify_eq. right. split; [by right|]. by apply Hfrom. }
  rewrite lookup_insert_ne in Hsj by done. rewrite lookup_insert_ne in Hidx by done.
  destruct (decide (src = g)) as [<-|Hg].
  - rewrite lookup_insert_eq in Hidx. simplify_eq. right. split; [by left|]. by apply Hfrom.
  - rewrite lookup_insert_ne in Hidx by done. left. split_and!; [done..|]. split; [by exists sj|by exists idx].
Qed.

Lemma number_array_room n a : has_room (number_array n a) = true → has_room a = true ∧ is_Some (ba_array (number_array n a)).
Proof. unfold number_array. destruct (ba_array a) eqn:Ha; [by rewrite Ha|]. destruct (has_room a) eqn:Hr; [done|]. by rewrite Hr. Qed.

Lemma number_array_old n a m : ba_array a = Some m → number_array n a = a.
Proof. unfold number_array. by intros ->. Qed.

Lemma number_array_cases n a m : ba_array (number_array n a) = Some m → ba_array a = Some m ∨ m = n.
Proof.
  unfold number_array. destruct (ba_array a) eqn:Ha; [rewrite Ha; by left|]. destruct (has_room a); [|congruence].
  cbn. intros [= <-]. by right.
Qed.

Lemma represents_number h si i n : represents h si i → represents h (SCopy si) (Copy (number_arrays n i)).
Proof.
  intros [Hl Hwf He Hn Hne]. split; cbn; try done. intros k. rewrite lookup_fmap. destruct (He k) as [s a Hends|]; constructor.
  destruct Hends. unfold number_array. by destruct (ba_array a), (has_room a).
Qed.

Lemma fork_index_stored h sis b src dst srcIdx w si :
  stored_as h sis b → sis !! src = Some si → b_indexes b !! src = Some srcIdx →
  stored_as h (<[dst := SCopy si]> sis) (fork_index src dst srcIdx w b).
Proof.
  intros Hs Hsi Hsrc. pose proof (λ g k s a, fork_slice_of h sis b src dst srcIdx w si g k s a Hsi Hsrc Hs) as Hcase.
  assert (∀ g k s a, slice_of (<[dst := SCopy si]> sis) (fork_index src dst srcIdx w b) g k s a → ∃ g0 a0, slice_of sis b g0 k s a0) as Hold.
  { intros g k s a Ha. destruct (Hcase _ _ _ _ Ha) as [(_ & _ & ?)|(_ & a0 & ? & _)]; eauto. }
  assert (∀ k s t a c, slice_of sis b src k s a → slice_of sis b src k t c → s = t ∧ a = c) as Hone.
  { intros k s t a c [(s1 & ? & ?) (i1 & ? & ?)] [(s2 & ? & ?) (i2 & ? & ?)]. by simplify_eq. }
  split.
  - intros g. unfold fork_index. cbn. destruct (stored_index _ _ _ _ _ Hs Hsi) as (idx & Hidx & Hr).
    assert (idx = srcIdx) as -> by congruence. pose proof (represents_number h si _ (next_array b) Hr) as Hnum.
    destruct (decide (dst = g)) as [<-|Hdst]; [rewrite !lookup_insert_eq; by constructor|]. rewrite !(lookup_insert_ne _ dst) by done.
    destruct (decide (src = g)) as [<-|Hg]; [|rewrite lookup_insert_ne by done; apply (sa_indexes _ _ _ Hs)].
    rewrite lookup_insert_eq, Hsi. constructor. cbn. destruct Hnum. by split.
  - intros f g k k' s t a c Ha Hc Heq. destruct (Hold _ _ _ _ Ha) as (? & ? & ?), (Hold _ _ _ _ Hc) as (? & ? & ?).
    by eapply (sa_keys _ _ _ Hs).
  - intros f g k s t a c Hne Ha Hc Heq Hroom.
    destruct (Hcase _ _ _ _ Ha) as [(Hf1 & Hf2 & Ha0)|(Hf & a0 & Ha0 & ->)], (Hcase _ _ _ _ Hc) as [(Hg1 & Hg2 & Hc0)|(Hg & c0 & Hc0 & ->)].
    + exact (sa_room _ _ _ Hs f g k s t a c Hne Ha0 Hc0 Heq Hroom).
    + destruct (sa_room _ _ _ Hs f src k s t a c0 Hf1 Ha0 Hc0 Heq Hroom) as [[n Hn] Heqn]. split; [done|].
      rewrite (number_array_old _ c0 n) by congruence. done.
    + apply number_array_room in Hroom as [Hroom _].
      destruct (sa_room _ _ _ Hs src g k s t a0 c (not_eq_sym Hg1) Ha0 Hc0 Heq Hroom) as [[n Hn] Heqn].
      rewrite (number_array_old _ a0 n) by done. done.
    + destruct (Hone _ _ _ _ _ Ha0 Hc0) as [-> ->]. by apply number_array_room in Hroom as [_ ?]; split.
  - intros f g k s t a c n Ha Hc Hna Hnc.
    assert (∀ g' t' c', slice_of sis b g' k t' c' → ba_array c' = Some (next_array b) → False) as Hfresh.
    { intros g' t' c' [_ (i & Hi & Hb)] Hx. pose proof (next_array_fresh b g' i k c' _ Hi Hb Hx). lia. }
    destruct (Hcase _ _ _ _ Ha) as [(Hf1 & Hf2 & Ha0)|(Hf & a0 & Ha0 & ->)], (Hcase _ _ _ _ Hc) as [(Hg1 & Hg2 & Hc0)|(Hg & c0 & Hc0 & ->)].
    + exact (sa_numbers _ _ _ Hs f g k s t a c n Ha0 Hc0 Hna Hnc).
    + destruct (number_array_cases _ _ _ Hnc) as [Hn| ->]; [exact (sa_numbers _ _ _ Hs f src k s t a c0 n Ha0 Hc0 Hna Hn)|destruct (Hfresh f s a Ha0 Hna)].
    + destruct (number_array_cases _ _ _ Hna) as [Hn| ->]; [exact (sa_numbers _ _ _ Hs src g k s t a0 c n Ha0 Hc0 Hn Hnc)|destruct (Hfresh g t c Hc0 Hnc)].
    + by destruct (Hone _ _ _ _ _ Ha0 Hc0) as [-> _].
Qed.

(** ** Sequences of operations *)

(** What a bucket does with the indexes of its consumers: a new one (as [Load] and
    [FromVlog] start with), [Set], [Delete], a copy for [Fork] and [RemoveFork]. *)
Inductive index_op :=
  | INew (f : ForkName) (w : Writer)
  | ISet (f : ForkName) (loc : Location)
  | IDelete (f : ForkName) (key : Key)
  | ICopy (src dst : ForkName) (w : Writer)
  | IRemove (f : ForkName).

(** On slices; the result is that of [Delete]. *)
Definition slices_op (op : index_op) (st : store * gmap ForkName (SIndex T)) : res (Location * (store * gmap ForkName (SIndex T))) :=
  let '(h, sis) := st in
  match op with
  | INew f _ => Ok (zero_Location, (h, <[f := mkSIndex bt_empty 0 0]> sis))
  | ISet f loc =>
      match sis !! f with
      | Some si => let '(h, si) := SSet loc h si in Ok (zero_Location, (h, <[f := si]> sis))
      | None => Err ENoSuchFork
      end
  | IDelete f key =>
      match sis !! f with
      | Some si => '(loc, si) ← SDelete key h si; Ok (loc, (h, <[f := si]> sis))
      | None => Err ENoSuchFork
      end
  | ICopy src dst _ =>
      match sis !! src with
      | Some si => Ok (zero_Location, (h, <[dst := SCopy si]> sis))
      | None => Err ENoSuchFork
      end
  | IRemove f => Ok (zero_Location, (h, delete f sis))
  end.

(** On the bucket of [Bucket.v]. *)
Definition lists_op (op : index_op) (b : bucket T) : res (Location * bucket T) :=
  match op with
  | INew f w => Ok (zero_Location, set_indexes (<[f := mkBucketIndex w empty_Index]> (b_indexes b)) b)
  | ISet f loc =>
      match b_indexes b !! f with
      | Some _ => Ok (zero_Location, bucket_Set f loc b)
      | None => Err ENoSuchFork
      end
  | IDelete f key =>
      match b_indexes b !! f with
      | Some idx => '(loc, i) ← Delete key (bi_Mem idx); Ok (loc, set_indexes (<[f := set_Mem i idx]> (b_indexes b)) b)
      | None => Err ENoSuchFork
      end
  | ICopy src dst w =>
      match b_indexes b !! src with
      | Some idx => Ok (zero_Location, fork_index src dst idx w b)
      | None => Err ENoSuchFork
      end
  | IRemove f => Ok (zero_Location, set_indexes (delete f (b_indexes b)) b)
  end.

(** Operations one after the other up to the first error, with their results. *)
Fixpoint index_run {St} (step : index_op → St → res (Location * St)) (ops : list index_op) (st : St) : res unit * list Location * St :=
  match ops with
  | [] => (Ok tt, [], st)
  | op :: ops =>
      match step op st with
      | Ok (loc, st) => let '(r, locs, st) := index_run step ops st in (r, loc :: locs, st)
      | r => ((_ ← r; Ok tt), [], st)
      end
  end.

(** Results alike. *)
Definition same_step (st : store * gmap ForkName (SIndex T)) b (r : res (Location * (store * gmap ForkName (SIndex T)))) (r' : res (Location * bucket T)) : Prop :=
  (∃ loc h sis b', r = Ok (loc, (h, sis)) ∧ r' = Ok (loc, b') ∧ stored_as h sis b') ∨ (r = Err ENoSuchFork ∧ r' = Err ENoSuchFork).

Lemma stored_missing h sis b f : stored_as h sis b → sis !! f = None → b_indexes b !! f = None.
Proof. intros Hs Hf. pose proof (sa_indexes _ _ _ Hs f) as He. rewrite Hf in He. by inversion He. Qed.

Lemma stored_new h sis b f w :
  stored_as h sis b →
  stored_as h (<[f := mkSIndex bt_empty 0 0]> sis) (set_indexes (<[f := mkBucketIndex w empty_Index]> (b_indexes b)) b).
Proof.
  intros Hs. apply (stored_step h sis b h _ _ f 0 Hs).
  - intros g. cbn. destruct (decide (f = g)) as [<-|Hne]; [|rewrite !lookup_insert_ne by done; apply (sa_indexes _ _ _ Hs)].
    rewrite !lookup_insert_eq. constructor. split; cbn; try done; intros k *; rewrite !bt_get_empty; try done. constructor.
  - intros g k s a [(sj & Hsj & Hk) (other & Hother & Ha)]. cbn in Hother. right. exists s, a. split; [|done].
    destruct (decide (f = g)) as [<-|Hne].
    + rewrite lookup_insert_eq in Hsj. injection Hsj as <-. cbn in Hk. by rewrite bt_get_empty in Hk.
    + rewrite lookup_insert_ne in Hsj by done. rewrite lookup_insert_ne in Hother by done. split; [by exists sj|by exists other].
Qed.

Lemma stored_remove h sis b f : stored_as h sis b → stored_as h (delete f sis) (set_indexes (delete f (b_indexes b)) b).
Proof.
  intros Hs. apply (stored_step h sis b h _ _ f 0 Hs).
  - intros g. cbn. destruct (decide (f = g)) as [<-|Hne]; [rewrite !lookup_delete_eq; by constructor|].
    rewrite !lookup_delete_ne by done. apply (sa_indexes _ _ _ Hs).
  - intros g k s a [(sj & Hsj & Hk) (other & Hother & Ha)]. cbn in Hother. right. exists s, a. split; [|done].
    apply lookup_delete_Some in Hsj as [_ Hsj], Hother as [_ Hother]. split; [by exists sj|by exists other].
Qed.

Lemma op_stored op h sis b : stored_as h sis b → same_step (h, sis) b (slices_op op (h, sis)) (lists_op op b).
Proof.
  intros Hs. destruct op as [f w|f loc|f key|src dst w|f]; cbn.
  - left. eexists _, _, _, _. split_and!; [done..|]. by apply stored_new.
  - destruct (sis !! f) as [si|] eqn:Hsi; [|right; by rewrite (stored_missing h sis b f Hs Hsi)].
    destruct (stored_index _ _ _ _ _ Hs Hsi) as (idx & Hidx & _). rewrite Hidx. destruct (SSet loc h si) as [h' si'] eqn:Hset.
    left. eexists _, _, _, _. split_and!; [done..|]. by apply (bucket_Set_stored h sis b f loc si).
  - destruct (sis !! f) as [si|] eqn:Hsi; [|right; by rewrite (stored_missing h sis b f Hs Hsi)].
    destruct (stored_index _ _ _ _ _ Hs Hsi) as (idx & Hidx & Hr). rewrite Hidx.
    destruct (SDelete_represents h si (bi_Mem idx) key Hr) as (loc & si' & i' & -> & -> & Hr' & Hfrom). cbn.
    left. eexists _, _, _, _. split_and!; [done..|]. by apply (stored_replace h sis b f idx si).
  - destruct (sis !! src) as [si|] eqn:Hsi; [|right; by rewrite (stored_missing h sis b src Hs Hsi)].
    destruct (stored_index _ _ _ _ _ Hs Hsi) as (idx & Hidx & _). rewrite Hidx.
    left. eexists _, _, _, _. split_and!; [done..|]. by apply fork_index_stored.
  - left. eexists _, _, _, _. split_and!; [done..|]. by apply stored_remove.
Qed.

Lemma run_stored ops h sis b :
  stored_as h sis b →
  ∃ r locs h' sis' b', index_run slices_op ops (h, sis) = (r, locs, (h', sis')) ∧ index_run lists_op ops b = (r, locs, b') ∧
    r ≠ Panic ∧ stored_as h' sis' b'.
Proof.
  revert h sis b. induction ops as [|op ops IH]; intros h sis b Hs; cbn [index_run].
  { eexists _, _, _, _, _. by split_and!. }
  destruct (op_stored op h sis b Hs) as [(loc & h1 & sis1 & b1 & -> & -> & Hs1)|[-> ->]].
  - destruct (IH h1 sis1 b1 Hs1) as (r & locs & h' & sis' & b' & -> & -> & Hr & Hs'). eexists _, _, _, _, _. by split_and!.
  - eexists _, _, _, _, _. by split_and!.
Qed.

Lemma stored_nothing h b : stored_as h ∅ (set_indexes ∅ b).
Proof.
  assert (∀ f k s a, ¬ slice_of ∅ (set_indexes ∅ b) f k s a) as Hno by (intros f k s a [(si & Hs & _) _]; by rewrite lookup_empty in Hs).
  split; [intros g; cbn; rewrite !lookup_empty; constructor| | |].
  - intros f g k k' s t a c Ha. by destruct (Hno f k s a).
  - intros f g k s t a c _ Ha. by destruct (Hno f k s a).
  - intros f g k s t a c n Ha. by destruct (Hno f k s a).
Qed.

(** C40. Any sequence of operations on the indexes of a bucket (new indexes, [Set],
    [Delete], [Copy] for a fork, and removing a fork, in any order and with any
    names and locations) does the same with slices over a shared memory, where
    [Copy] leaves two indexes with the same arrays and an [append] writes into the
    array when there is room behind the slice, as with the lists of [Bucket.v] and
    their account of shared arrays: the operations succeed or fail alike and never
    panic, [Delete] returns the same locations, and afterwards every consumer's
    tree has slices with the same locations at every key, so that a location which
    one consumer's [append] has overwritten for another is the same one too, and
    the same count of items and entries.  How far [append] grows an array is a
    parameter. *)
Theorem indexes_refine ops b :
  ∃ r locs h sis b', index_run slices_op ops ([], ∅) = (r, locs, (h, sis)) ∧ index_run lists_op ops (set_indexes ∅ b) = (r, locs, b') ∧
    r ≠ Panic ∧
    map_Forall2 (λ _ si idx, (∀ k, sl_read h <$> bt_get k (si_m si) = bt_get k (idx_m (bi_Mem idx))) ∧
      si_len si = idx_len (bi_Mem idx) ∧ si_nentries si = idx_nentries (bi_Mem idx)) sis (b_indexes b').
Proof.
  destruct (run_stored ops [] ∅ (set_indexes ∅ b) (stored_nothing _ _)) as (r & locs & h & sis & b' & Hrun & Hrun' & Hr & Hs).
  exists r, locs, h, sis, b'. split_and!; [done..|]. intros g. destruct (sa_indexes _ _ _ Hs g) as [si idx Hrep|]; constructor.
  destruct Hrep. by split_and!.
Qed.

(** After [Copy] of an index with room behind a slice, a [Set] for the source and
    one for the copy leave the source with the location of the copy. *)
Lemma Copy_Set_Set b src dst idx (loc loc' : Location) (ls : list Location) a w :
  b_indexes b !! src = Some idx → src ≠ dst → loc_Key loc' = loc_Key loc →
  bt_get (loc_Key loc) (idx_m (bi_Mem idx)) = Some ls →
  idx_backing (bi_Mem idx) !! loc_Key loc = Some a → has_room a = true →
  (λ other, bt_get (loc_Key loc) (idx_m (bi_Mem other))) <$>
    b_indexes (bucket_Set dst loc' (bucket_Set src loc (fork_index src dst idx w b))) !! src = Some (Some (ls ++ [loc'])).
Proof.
  intros Hidx Hne Hkey Hls Ha Hroom. set (k := loc_Key loc) in *. set (n := next_array b).
  assert (∃ c, idx_backing (number_arrays n (bi_Mem idx)) !! k = Some c ∧ has_room c = true ∧ ba_end c = ba_end a ∧ is_Some (ba_array c)) as (c & Hc & Hroomc & Hendc & [m Hm]).
  { exists (number_array n a). cbn. rewrite lookup_fmap, Ha. split; [done|]. unfold number_array.
    destruct (ba_array a) eqn:Hna; [by split_and!|]. rewrite Hroom. by split_and!. }
  set (mem := number_arrays n (bi_Mem idx)) in *. set (b1 := fork_index src dst idx w b).
  assert (b_indexes b1 !! src = Some (set_Mem mem idx)) as Hsrc1.
  { unfold b1, fork_index. cbn. rewrite lookup_insert_ne by done. by rewrite lookup_insert_eq. }
  assert (b_indexes b1 !! dst = Some (mkBucketIndex w (Copy mem))) as Hdst1 by (unfold b1, fork_index; cbn; by rewrite lookup_insert_eq).
  assert (Set_write loc mem = Some (m, ba_end c)) as Hw by (unfold Set_write; fold k; rewrite Hc; cbn; rewrite Hm; cbn; by rewrite Hroomc).
  pose proof (bucket_Set_lookup src loc b1 _ src Hsrc1) as Hsrc2. rewrite decide_True in Hsrc2 by done.
  pose proof (bucket_Set_lookup src loc b1 _ dst Hsrc1) as Hdst2. rewrite decide_False, Hdst1 in Hdst2 by done. cbn in Hdst2.
  rewrite Hw in Hdst2. rewrite (bucket_Set_lookup dst loc' _ _ src Hdst2), decide_False by done. rewrite Hsrc2.
  cbn [fmap option_fmap option_map set_Mem bi_Mem].
  assert (Set_write loc' (overwrite loc (m, ba_end c) (Copy mem)) = Some (m, ba_end c)) as ->.
  { unfold Set_write in *. rewrite overwrite_backing, Hkey. done. }
  cbn [bi_Mem set_Mem]. unfold overwrite, Set_. fold k. rewrite Hkey. fold k. cbn [idx_backing idx_m].
  rewrite lookup_insert_eq, !bt_get_set, decide_True by done. unfold append_backing. rewrite Hc, Hroomc. cbn [ba_array ba_end fst snd].
  assert (bt_get k (idx_m mem) = Some ls) as Hlsm by done. rewrite Hlsm. cbn [default from_option id].
  rewrite length_app, decide_True by (cbn; split_and!; [done|lia..]). cbn [idx_m]. rewrite bt_get_set, decide_True by done.
  do 2 f_equal. rewrite insert_app_r_alt by (cbn; lia).
  by replace (ba_end c + (length ls + length [loc]) - S (ba_end c) - length ls)%nat with 0%nat by (cbn; lia).
Qed.
End refinement.

(** ** Witness *)

#[local] Existing Instance Host_tiny.

Definition ex_loc (off : Z) : Location := mkLocation 5 off 2.

(** Three batches with one first key, a fork, and an [append] of both consumers. *)
Definition ex_ops : list index_op :=
  [INew "" (mkWriter [] false true); ISet "" (ex_loc 0); ISet "" (ex_loc 40); ISet "" (ex_loc 80);
   ICopy "" "f" (mkWriter [] false true); ISet "" (ex_loc 120); IDelete "" 5; ISet "f" (ex_loc 160); IDelete "f" 5; IRemove "f"].

Definition ex_no_indexes : bucket slist := mkBucket ["q"] 0 ex_log (mkOptions SyncFull true ErrorModeAbort (mkBucketSplitConf None "") 4) ∅.

Lemma indexes_refine_witness :
  ∃ r locs h sis b', index_run slices_op ex_ops ([], ∅) = (r, locs, (h, sis)) ∧
    index_run lists_op ex_ops (set_indexes ∅ ex_no_indexes) = (r, locs, b') ∧ r ≠ Panic ∧
    map_Forall2 (λ _ si idx, (∀ k, sl_read h <$> bt_get k (si_m si) = bt_get k (idx_m (bi_Mem idx))) ∧
      si_len si = idx_len (bi_Mem idx) ∧ si_nentries si = idx_nentries (bi_Mem idx)) sis (b_indexes b').
Proof. apply (@indexes_refine slist _ _ Host_tiny ex_ops ex_no_indexes). Defined.

(** The queue ends with the location of the fork. *)
Lemma ex_ops_overwritten :
  (λ idx, bt_get 5 (idx_m (bi_Mem idx))) <$> b_indexes (index_run lists_op ex_ops (set_indexes ∅ ex_no_indexes)).2 !! "" =
    Some (Some [ex_loc 40; ex_loc 80; ex_loc 160]).
Proof. vm_compute. reflexivity. Qed.
