(* ===== verification/BucketPeek.v ===== *)
(** * Reading from a bucket: the merge of the batches

    [peek] merges the batches of an index with a heap of iterators, which it
    fills lazily: a batch is added when its first key could be the next one.
    The invariant [merging] relates the heap, the position in the index and
    the items returned so far. *)

From S2P Require Import Prelude BTree Os Item Vlog VlogIter Heap Index IndexFile Options Bucket.

(** The iterator has the items [its] left, the current one first. *)
Inductive tracks (l : Log) : Iter → Items → Prop :=
  | tracks_on li it rest :
      iter_on l li it rest → sorted_items (it :: rest) → tracks l li (it :: rest)
  | tracks_done li :
      li_exhausted li = true → li_err li = None → tracks l li [].

(** The iterators are at a suffix of a batch each, and remember its first key. *)
Definition origin (added : list (Location * Items)) (G : list (Iter * Items)) : Prop :=
  ∃ qs, qs ≡ₚ added ∧ Forall2 (λ g q, li_firstKey g.1 = loc_Key q.1 ∧ g.2 `suffix_of` q.2) G qs.

#[global] Instance origin_perm : Proper (Permutation ==> Permutation ==> iff) origin.
Proof.
  assert (∀ a a' G G', a ≡ₚ a' → G ≡ₚ G' → origin a G → origin a' G') as Hgo.
  { intros a a' G G' Ha HG (qs & Hq & Hall). destruct (Permutation_Forall2 HG Hall) as (qs' & Hq' & Hall').
    exists qs'. split; [by rewrite <- Hq', Hq|done]. }
  intros a a' Ha G G' HG. split; by apply Hgo.
Qed.

Lemma origin_first added G : origin added G → li_firstKey <$> G.*1 ≡ₚ loc_Key <$> added.*1.
Proof.
  intros (qs & <- & Hall). induction Hall as [|g q G qs [Hf _] _ IH]; [done|]. cbn. by rewrite Hf, IH.
Qed.

Abbreviation left_of G := (concat (@snd Iter Items <$> G)).
Abbreviation items_of ps := (concat (@snd Location Items <$> ps)).

Definition all_le (a b : Items) : Prop := ∀ x y, x ∈ a → y ∈ b → it_Key x ≤ it_Key y.

#[global] Instance all_le_perm : Proper (Permutation ==> Permutation ==> iff) all_le.
Proof.
  intros a a' Ha b b' Hb. unfold all_le.
  split; intros Hle x y Hx Hy; apply Hle; (by rewrite Ha || by rewrite <- Ha || by rewrite Hb || by rewrite <- Hb).
Qed.

Lemma all_le_app_l a b c : all_le (a ++ b) c ↔ all_le a c ∧ all_le b c.
Proof. unfold all_le. set_solver. Qed.

Lemma all_le_app_r a b c : all_le a (b ++ c) ↔ all_le a b ∧ all_le a c.
Proof. unfold all_le. set_solver. Qed.

Lemma sorted_items_cons it its : sorted_items (it :: its) ↔ all_le [it] its ∧ sorted_items its.
Proof.
  unfold sorted_items. cbn. split.
  - intros Hs. inversion Hs as [|? ? Hs' Hf]; subst. split; [|done].
    rewrite Forall_fmap, Forall_forall in Hf. intros x y ->%list_elem_of_singleton Hy. by apply Hf.
  - intros [Hle Hs]. constructor; [done|]. apply Forall_fmap, Forall_forall. intros y Hy.
    apply Hle; [by left|done].
Qed.

Lemma sorted_items_app a b : sorted_items (a ++ b) ↔ sorted_items a ∧ sorted_items b ∧ all_le a b.
Proof.
  induction a as [|x a IH]; cbn [app].
  - unfold all_le. split; [|naive_solver]. intros Hs. split; [constructor|]. set_solver.
  - rewrite !sorted_items_cons, IH, all_le_app_r. change (x :: a) with ([x] ++ a).
    rewrite (all_le_app_l [x] a). tauto.
Qed.

Section merge.
Context {T : Type → Type} `{BTreeLaws T} `{Host, Unix, MapRange}.
Context (b : bucket T) (Hl : readable (b_log b)).
Abbreviation l := (b_log b).

(** All keys of a batch are at least its first. *)
Lemma batch_first loc its :
  loc_ok l loc its → sorted_items its → ∀ y, y ∈ its → loc_Key loc ≤ it_Key y.
Proof.
  intros [Hne _ Hkey _ _] Hs y Hy. destruct its as [|x its]; [done|].
  apply sorted_items_cons in Hs as [Hle _]. injection Hkey as Hkey. rewrite <- Hkey.
  apply elem_of_cons in Hy as [->|Hy]; [lia|]. apply Hle; [by left|done].
Qed.

(** The position of [idxIter] and [indexExhausted], with the batches [ps] that
    were not added yet. *)
Definition at_batches (ps : list (Location * Items)) (idxIter : IndexIter) (ex : bool) : Prop :=
  match ps with
  | [] => ex = true
  | p :: ps => ex = false ∧ iter_wf idxIter ∧ IValue idxIter = p.1 ∧ remaining idxIter = ps.*1
  end.

(** [added] are the batches whose iterators are in the heap, [ps] those that
    are still in the index; [G] lists the iterators with what they have left. *)
Record spread (added ps : list (Location * Items)) (out : Items) (hs : Iters)
    (G : list (Iter * Items)) (idxIter : IndexIter) (ex : bool) : Prop := {
  sp_heap : heap hs;
  sp_ghost : hs ≡ₚ G.*1;
  sp_tracks : Forall (λ g, tracks l g.1 g.2) G;
  sp_origin : origin added G;
  sp_items : items_of added ≡ₚ out ++ left_of G;
  sp_sorted : sorted_items out;
  sp_le : all_le out (left_of G ++ items_of ps);
  sp_at : at_batches ps idxIter ex;
  sp_keys : keys_sorted ps.*1;
  sp_batches : batches l (added ++ ps);
}.

(** Every batch that is not in the heap yet starts at or above the root. *)
Definition root_first (ps : list (Location * Items)) (hs : Iters) : Prop :=
  ∀ p ps', ps = p :: ps' → ∃ r, hs !! 0%nat = Some r ∧ li_exhausted r = false ∧
    it_Key (li_item r) ≤ loc_Key p.1.

Record merging (added ps : list (Location * Items)) (out : Items) (hs : Iters)
    (G : list (Iter * Items)) (idxIter : IndexIter) (ex : bool) : Prop := {
  mg_spread : spread added ps out hs G idxIter ex;
  mg_ghost : G.*1 = hs;
  mg_root : root_first ps hs;
}.

Lemma tracks_running li its :
  tracks l li its → li_exhausted li = false →
  ∃ it rest, its = it :: rest ∧ li_item li = it ∧ iter_on l li it rest ∧ sorted_items (it :: rest).
Proof. intros [li' it rest Hon Hs|li' Hex _] Hrun; [|congruence]. exists it, rest. by destruct Hon. Qed.

Lemma tracks_err li its : tracks l li its → li_err li = None.
Proof. by intros [li' it rest [] Hs|li' Hex Herr]. Qed.

(** The items of an iterator are not below its current one. *)
Lemma tracks_ge li its y :
  tracks l li its → y ∈ its → li_exhausted li = false ∧ it_Key (li_item li) ≤ it_Key y.
Proof.
  intros [li' it rest Hon Hs|li' Hex _] Hy; [|by apply elem_of_nil in Hy].
  destruct Hon. split; [done|]. subst. apply sorted_items_cons in Hs as [Hle _].
  apply elem_of_cons in Hy as [->|Hy]; [lia|]. apply Hle; [by left|done].
Qed.

Lemma left_of_elem (G : list (Iter * Items)) y : y ∈ left_of G → ∃ g, g ∈ G ∧ y ∈ g.2.
Proof.
  intros Hy. apply list_elem_of_In, in_concat in Hy as (its & Hits & Hy).
  apply list_elem_of_In, list_elem_of_fmap in Hits as (g & -> & Hg).
  exists g. split; [done|by apply list_elem_of_In].
Qed.

(** The root is a smallest item of all iterators. *)
Lemma root_min hs (G : list (Iter * Items)) r :
  heap hs → G.*1 = hs → Forall (λ g, tracks l g.1 g.2) G → hs !! 0%nat = Some r →
  ∀ y, y ∈ left_of G → li_exhausted r = false ∧ it_Key (li_item r) ≤ it_Key y.
Proof.
  intros Hh HG Ht Hr y (g & Hg & Hy)%left_of_elem. rewrite Forall_forall in Ht.
  destruct (tracks_ge _ _ _ (Ht _ Hg) Hy) as [Hrun Hle].
  apply (list_elem_of_fmap_2 fst) in Hg. rewrite HG in Hg.
  apply list_elem_of_lookup in Hg as [k Hk].
  pose proof (heap_root hs r k g.1 Hh Hr Hk) as Hrk. apply iter_le_spec in Hrk.
  rewrite Hrun in Hrk. destruct (li_exhausted r); [naive_solver|]. split; [done|].
  destruct Hrk as [[_ ?]|[_ ?]]; [done|lia].
Qed.

(** The root is not above an iterator that is running. *)
Lemma root_below hs r li :
  heap hs → hs !! 0%nat = Some r → li ∈ hs → li_exhausted li = false →
  li_exhausted r = false ∧ it_Key (li_item r) ≤ it_Key (li_item li).
Proof.
  intros Hh Hr [k Hk]%list_elem_of_lookup Hrun.
  pose proof (heap_root hs r k li Hh Hr Hk) as Hrk. apply iter_le_spec in Hrk. rewrite Hrun in Hrk.
  destruct (li_exhausted r); [naive_solver|]. split; [done|]. destruct Hrk as [[_ ?]|[_ ?]]; [done|lia].
Qed.

Lemma perm_root (hs hs' : Iters) li : hs' ≡ₚ hs → li ∈ hs → ∃ r, hs' !! 0%nat = Some r.
Proof. intros Hp Hin. rewrite <- Hp in Hin. destruct hs'; [by apply elem_of_nil in Hin|by eexists]. Qed.
(** Adding the next batch. *)
Lemma addIter_batch p ps hs idxIter :
  heap hs → loc_ok l p.1 p.2 → sorted_items p.2 → at_batches (p :: ps) idxIter false →
  ∃ ex hs' idxIter' li, addIter b hs idxIter = Ok (ex, hs', idxIter') ∧
    heap hs' ∧ hs' ≡ₚ li :: hs ∧ tracks l li p.2 ∧ li_exhausted li = false ∧
    li_firstKey li = loc_Key p.1 ∧ it_Key (li_item li) = loc_Key p.1 ∧
    at_batches ps idxIter' ex.
Proof.
  intros Hh Hloc Hs (_ & Hwf & Hval & Hrem). destruct p as [loc [|it rest]]; [by destruct Hloc|].
  cbn [fst snd] in *. unfold addIter. rewrite Hval.
  destruct (Next_start l Hl loc (it :: rest) (negb (opt_ErrorMode (b_opts b) =? ErrorModeAbort)) it rest)
    as (li & Heq & Hon & Hfirst & _); [done..|].
  unfold logAt. rewrite Heq. cbn [mbind res_bind negb].
  destruct (Iters_Push_heap hs li Hh) as (hs' & -> & Hh' & Hp). cbn [mbind res_bind].
  assert (it_Key (li_item li) = loc_Key loc) as Hkey.
  { rewrite (on_item _ _ _ _ Hon). destruct Hloc as [_ _ Hk _ _]. by injection Hk. }
  assert (at_batches ps (INext idxIter).2 (negb (INext idxIter).1)) as Hat.
  { destruct ps as [|q ps]; cbn in Hrem.
    - by rewrite INext_nil.
    - destruct (INext_cons _ _ _ Hwf Hrem) as (it' & -> & Hwf' & Hv & Hr). by split_and!. }
  destruct (INext idxIter) as [more idxIter']. eexists _, _, _, li. split; [done|].
  split_and!; try done; [by constructor|]. by destruct Hon.
Qed.

(** Advancing an iterator past its current item. *)
Lemma Next_tracks li it rest :
  iter_on l li it rest → sorted_items (it :: rest) →
  ∃ ok li', Next l li = Ok (ok, li') ∧ tracks l li' rest ∧ li_firstKey li' = li_firstKey li ∧
    (rest = [] → li_exhausted li' = true) ∧ (rest ≠ [] → li_exhausted li' = false).
Proof.
  intros Hon Hs. apply sorted_items_cons in Hs as [_ Hs]. destruct rest as [|x rest].
  - rewrite (Next_end l _ _ Hon). eexists _, _. split; [done|]. split_and!; try done.
    constructor; [done|]. by destruct Hon.
  - destruct (Next_step l Hl _ _ _ _ Hon) as (li' & -> & Hon' & Hf). eexists _, _. split; [done|].
    split_and!; try done; [by constructor|]. intros _. by destruct Hon'.
Qed.

(** The first item of the root comes out. *)
Lemma merging_out added ps out r hs its G idxIter ex it rest :
  merging added ps out (r :: hs) ((r, its) :: G) idxIter ex → its = it :: rest →
  li_item r = it → li_exhausted r = false → sorted_items its →
  sorted_items (out ++ [it]) ∧
  all_le (out ++ [it]) ((rest ++ left_of G) ++ items_of ps) ∧
  items_of added ≡ₚ (out ++ [it]) ++ rest ++ left_of G.
Proof.
  intros [[Hh _ Ht _ Hits Hso Hle _ Hks Hb] HG Hroot] -> Hit Hrun Hs.
  cbn [fmap list_fmap concat snd] in *. rewrite all_le_app_r in Hle. destruct Hle as [Hle1 Hle2].
  assert (∀ y, y ∈ (it :: rest) ++ left_of G → it_Key it ≤ it_Key y) as Hmin.
  { intros y Hy. rewrite <- Hit.
    by apply (root_min (r :: hs) ((r, it :: rest) :: G) r Hh HG Ht eq_refl y Hy). }
  assert (∀ y, y ∈ items_of ps → it_Key it ≤ it_Key y) as Hmin2.
  { intros y Hy. destruct ps as [|p ps]; [by apply elem_of_nil in Hy|].
    destruct (Hroot p ps eq_refl) as (r' & Hr' & _ & Hkey). cbn in Hr'. injection Hr' as <-.
    rewrite Hit in Hkey. etransitivity; [exact Hkey|].
    apply list_elem_of_In, in_concat in Hy as (its & Hits' & Hy).
    apply list_elem_of_In, list_elem_of_fmap in Hits' as (q & -> & Hq). apply list_elem_of_In in Hy.
    assert (loc_Key p.1 ≤ loc_Key q.1) as Hpq.
    { apply elem_of_cons in Hq as [->|Hq]; [lia|]. unfold keys_sorted in Hks. cbn in Hks.
      inversion Hks as [|? ? _ Hf]; subst. rewrite Forall_forall in Hf. apply Hf.
      by apply list_elem_of_fmap_2, list_elem_of_fmap_2. }
    etransitivity; [exact Hpq|]. unfold batches in Hb. rewrite Forall_forall in Hb.
    destruct (Hb q) as [Hloc Hsq]; [set_solver|]. by eapply batch_first. }
  split_and!.
  - apply sorted_items_app. split_and!; [done|repeat constructor|].
    intros x y Hx ->%list_elem_of_singleton. apply Hle1; [done|]. set_solver.
  - rewrite all_le_app_l, !all_le_app_r. unfold all_le in *.
    split_and!; try (set_solver).
  - rewrite Hits. by rewrite <- app_assoc.
Qed.
#[local] Instance left_of_perm : Proper (Permutation ==> Permutation) (λ G : list (Iter * Items), left_of G).
Proof.
  intros a c Hac. induction Hac as [|x a c _ IH|x y a|a c d _ IH1 _ IH2]; cbn; [done| | |].
  - by rewrite IH.
  - by rewrite !app_assoc, (Permutation_app_comm y.2).
  - by rewrite IH1.
Qed.

(** The ghost state follows the heap wherever its operations move things. *)
Lemma spread_merging added ps out hs G0 idxIter ex :
  spread added ps out hs G0 idxIter ex → root_first ps hs →
  ∃ G, G ≡ₚ G0 ∧ merging added ps out hs G idxIter ex.
Proof.
  intros [Hh Hhs Ht Hf Hi Hs Hle Hat Hk Hb] Hr.
  destruct (fst_perm_inv G0 hs) as (G & HG & Heq); [done|]. exists G. split; [done|].
  pose proof (left_of_perm _ _ HG) as Hleft. cbn in Hleft.
  split; [|done..]. split; try done; by rewrite ?Heq, ?HG, ?Hleft.
Qed.

(** Advancing the root: its item is appended to the output. *)
Lemma root_advance added ps out hs G idxIter ex r :
  merging added ps out hs G idxIter ex → hs !! 0%nat = Some r → li_exhausted r = false →
  Z.of_nat (length (added ++ ps)) ≤ 2 ^ 61 →
  ∃ ok r' hs' G' it, Next l r = Ok (ok, r') ∧ li_err r' = None ∧ li_item r = it ∧
    Iters_Fix (<[0%nat := r']> hs) 0 = Ok hs' ∧ r' ∈ hs' ∧
    spread added ps (out ++ [it]) hs' G' idxIter ex ∧
    length (left_of G) = S (length (left_of G')).
Proof.
  intros Hm Hr Hrun Hfit. pose proof Hm as [[Hh _ Ht Hf Hi Hs Hle Hat Hk Hb] HG Hroot].
  destruct G as [|[r0 its] G]; [by rewrite <- HG in Hr|]. cbn in HG.
  destruct hs as [|r1 hs]; [done|]. cbn in Hr. simplify_eq.
  apply Forall_cons in Ht as [Htr Ht']. cbn in Htr.
  destruct (tracks_running _ _ Htr Hrun) as (it & rest & -> & Hit & Hon & Hsits).
  destruct (merging_out _ _ _ _ _ _ _ _ _ it rest Hm eq_refl Hit Hrun Hsits) as (Hs' & Hle' & Hi').
  destruct (Next_tracks r it rest Hon Hsits) as (ok & r' & Hnext & Htr' & Hfirst & _).
  destruct (Iters_Fix_heap (<[0%nat := r']> (r :: G.*1)) 0) as (hs2 & Hfix & Hh2 & Hp2).
  { unfold fits. rewrite length_insert. pose proof (Permutation_length (origin_first _ _ Hf)) as Hlen.
    rewrite !length_fmap in Hlen. cbn in *. rewrite length_fmap, Hlen. rewrite length_app in Hfit. lia. }
  { rewrite length_insert. cbn. lia. }
  { apply heap_insert_but; [done|cbn; lia]. }
  cbn [insert list_insert] in Hp2. exists ok, r', hs2, ((r', rest) :: G), it.
  split_and!; try done.
  - by eapply tracks_err.
  - rewrite Hp2. by left.
  - split; try done; [by constructor|]. destruct Hf as (qs & Hq & Hall). exists qs. split; [done|].
    inversion Hall as [|? q ? qs' [Hrq Hsuf] Hall']; subst. constructor; [|done]. cbn in *. rewrite Hfirst.
    split; [done|]. by eapply suffix_cons_l.
Qed.

(** The next batch of the index is added. *)
Lemma spread_add added p ps out hs G idxIter :
  spread added (p :: ps) out hs G idxIter false →
  ∃ ex' hs' li idxIter', addIter b hs idxIter = Ok (ex', hs', idxIter') ∧ hs' ≠ [] ∧
    spread (added ++ [p]) ps out hs' ((li, p.2) :: G) idxIter' ex' ∧ root_first ps hs'.
Proof.
  intros [Hh Hhs Ht Hf Hi Hs Hle Hat Hk Hb].
  pose proof Hb as Hb'. apply Forall_app in Hb' as [Hb1 Hb2]. apply Forall_cons in Hb2 as [[Hloc Hsp] Hb3].
  destruct (addIter_batch p ps hs idxIter Hh Hloc Hsp Hat)
    as (ex' & hs' & idxIter' & li & -> & Hh' & Hp & Htli & Hrun & Hfli & Hkli & Hat').
  exists ex', hs', li, idxIter'. split; [done|]. split; [intros ->; by apply Permutation_nil_cons in Hp|].
  unfold keys_sorted in *. cbn in Hk. inversion Hk as [|? ? Hk' Hfk]; subst. split.
  - split; try done.
    + by rewrite Hp, Hhs.
    + by constructor.
    + destruct Hf as (qs & Hq & Hall). exists (p :: qs). split; [by rewrite Hq, Permutation_app_comm|].
      by constructor.
    + rewrite fmap_app, concat_app. cbn. rewrite app_nil_r, Hi.
      rewrite <- !app_assoc. by rewrite (Permutation_app_comm p.2).
    + eapply all_le_perm; [done| |exact Hle]. cbn.
      by rewrite (app_assoc (left_of G)), (Permutation_app_comm (left_of G)), <- app_assoc.
    + by rewrite <- app_assoc.
  - intros q ps' ->. destruct (perm_root (li :: hs) hs' li) as [r Hr]; [done|set_solver|].
    exists r. destruct (root_below hs' r li) as [? Hrk]; [done|done|rewrite Hp; set_solver|done|].
    split_and!; try done. rewrite Hkli in Hrk. etransitivity; [exact Hrk|]. by inversion Hfk.
Qed.

(** One turn of the loop. *)
Lemma peek_loop_turn fuel n added ps out hs G idxIter ex r dst0 :
  merging added ps out hs G idxIter ex → hs !! 0%nat = Some r → li_exhausted r = false →
  Z.of_nat (length (added ++ ps)) ≤ 2 ^ 61 → Z.of_nat (length out) < n →
  ∃ added' ps' it hs' G' idxIter' ex',
    peek_loop (S fuel) b n (Z.of_nat (length out)) (dst0 ++ out) hs idxIter ex =
    peek_loop fuel b n (Z.of_nat (length (out ++ [it]))) (dst0 ++ out ++ [it]) hs' idxIter' ex' ∧
    merging added' ps' (out ++ [it]) hs' G' idxIter' ex' ∧ added' ++ ps' = added ++ ps ∧ hs' ≠ [] ∧
    (length (left_of G' ++ items_of ps') < length (left_of G ++ items_of ps))%nat.
Proof.
  intros Hm Hr Hrun Hfit Hn.
  destruct (root_advance _ _ _ _ _ _ _ r Hm Hr Hrun Hfit)
    as (ok & r' & hs1 & G1 & it & Hnext & Herr & Hit & Hfix & Hin & Hsp & Hlen).
  cbn [peek_loop]. replace (n <=? Z.of_nat (length out)) with false by lia. rewrite Hr.
  cbn [of_option mbind res_bind]. unfold Exhausted, Iter_Err. rewrite Hrun, Hnext.
  cbn [mbind res_bind]. rewrite Herr, Hfix. cbn [mbind res_bind].
  change (Iter_Item r) with (li_item r). rewrite Hit, <- app_assoc.
  replace (Z.of_nat (length out) + 1) with (Z.of_nat (length (out ++ [it])))
    by (rewrite length_app; cbn; lia).
  assert (hs1 ≠ []) as Hne by (intros ->; by apply elem_of_nil in Hin).
  assert (∀ G', G' ≡ₚ G1 → length (left_of G') = length (left_of G1)) as HlenG.
  { intros G' HG'. by rewrite (left_of_perm _ _ HG'). }
  pose proof (sp_at _ _ _ _ _ _ _ Hsp) as Hat.
  destruct (negb ex && (li_exhausted r' || (loc_Key (IValue idxIter) <=? it_Key (Iter_Item r')))) eqn:Hadd.
  - apply andb_true_iff in Hadd as [Hex _]. destruct ps as [|p ps]; [cbn in Hat; by subst|].
    destruct ex; [done|].
    destruct (spread_add _ _ _ _ _ _ _ Hsp) as (ex' & hs' & li & idxIter' & -> & Hne' & Hsp' & Hroot').
    destruct (spread_merging _ _ _ _ _ _ _ Hsp' Hroot') as (G' & HG' & Hm').
    eexists (added ++ [p]), ps, it, hs', G', idxIter', ex'. split; [done|].
    split_and!; try done; [by rewrite <- app_assoc|].
    pose proof (left_of_perm _ _ HG') as Hleft. cbn in Hleft. rewrite !length_app, Hleft.
    cbn. rewrite !length_app. lia.
  - destruct (spread_merging _ _ _ _ _ _ _ Hsp) as (G' & HG' & Hm').
    + intros p ps' ->. cbn in Hat. destruct Hat as (-> & _ & Hval & _). rewrite Hval in Hadd.
      apply orb_false_iff in Hadd as [Hrun' Hlt]. pose proof (sp_heap _ _ _ _ _ _ _ Hsp) as Hh1.
      destruct (perm_root hs1 hs1 r') as [r1 Hr1]; [done..|]. exists r1.
      destruct (root_below hs1 r1 r') as [? Hrk]; [done..|]. unfold Iter_Item in Hlt. split_and!; done || lia.
    + eexists added, ps, it, hs1, G', idxIter, ex. split; [done|]. split_and!; try done.
      rewrite !length_app, (HlenG _ HG'). lia.
Qed.
Lemma peek_loop_merging fuel n added ps out hs G idxIter ex dst0 :
  merging added ps out hs G idxIter ex → hs ≠ [] →
  Z.of_nat (length (added ++ ps)) ≤ 2 ^ 61 → Z.of_nat (length out) ≤ n →
  (length (left_of G ++ items_of ps) < fuel)%nat →
  ∃ added' ps' out' hs' G' idxIter' ex',
    peek_loop fuel b n (Z.of_nat (length out)) (dst0 ++ out) hs idxIter ex =
      Ok (hs', dst0 ++ out', Z.of_nat (length out')) ∧
    merging added' ps' out' hs' G' idxIter' ex' ∧ added' ++ ps' = added ++ ps ∧ hs' ≠ [] ∧
    Z.of_nat (length out') ≤ n ∧
    (Z.of_nat (length out') = n ∨ left_of G' ++ items_of ps' = []).
Proof.
  revert added ps out hs G idxIter ex.
  induction fuel as [|fuel IH]; intros added ps out hs G idxIter ex Hm Hne Hfit Hn Hfuel; [lia|].
  destruct (decide (Z.of_nat (length out) = n)) as [Heq|Hlt].
  { exists added, ps, out, hs, G, idxIter, ex. cbn [peek_loop].
    replace (n <=? Z.of_nat (length out)) with true by lia. split_and!; try done. by left. }
  destruct hs as [|r hs]; [done|]. destruct (li_exhausted r) eqn:Hrun.
  - exists added, ps, out, (r :: hs), G, idxIter, ex. cbn [peek_loop].
    replace (n <=? Z.of_nat (length out)) with false by lia.
    cbn [lookup list_lookup of_option mbind res_bind]. unfold Exhausted. rewrite Hrun.
    split_and!; try done. right. destruct Hm as [[Hh _ Ht _ _ _ _ _ _ _] HG Hroot].
    destruct ps as [|p ps].
    2: { destruct (Hroot p ps eq_refl) as (r' & Hr' & Hrun' & _). cbn in Hr'. congruence. }
    rewrite app_nil_r. destruct (left_of G) as [|y ys] eqn:E; [done|].
    destruct (root_min (r :: hs) G r Hh HG Ht eq_refl y) as [? _]; [rewrite E; by left|congruence].
  - destruct (peek_loop_turn fuel n _ _ _ _ _ _ _ r dst0 Hm eq_refl Hrun Hfit ltac:(lia))
      as (added1 & ps1 & it & hs1 & G1 & idxIter1 & ex1 & -> & Hm1 & Happ1 & Hne1 & Hless).
    destruct (IH added1 ps1 (out ++ [it]) hs1 G1 idxIter1 ex1)
      as (added' & ps' & out' & hs' & G' & idxIter' & ex' & Heq & Hm' & Happ' & ?); try done.
    + by rewrite Happ1.
    + rewrite length_app. cbn. lia.
    + lia.
    + exists added', ps', out', hs', G', idxIter', ex'. split; [done|]. split; [done|].
      split; [by rewrite Happ'|done].
Qed.

(** What a reader gets and what is left: the [n] smallest items, in order. *)
Record smallest (n : Z) (its out rest : Items) : Prop := {
  sm_perm : its ≡ₚ out ++ rest;
  sm_sorted : sorted_items out;
  sm_le : all_le out rest;
  sm_length : Z.of_nat (length out) = Z.min n (Z.of_nat (length its));
}.

(** The state of the batches after [out] was read: the iterators are at suffixes
    of the first batches of the index, and the rest of the items is in the
    iterators and the other batches. *)
Definition merged (i : Index T) (iters : option Iters) (rest : Items) : Prop :=
  ∃ added ps G, index_locs i = (added ++ ps).*1 ∧ batches l (added ++ ps) ∧
    default [] iters = G.*1 ∧ Forall (λ g, tracks l g.1 g.2) G ∧
    origin added G ∧ rest ≡ₚ left_of G ++ items_of ps.

Lemma batches_bound ps :
  batches l ps → (length (items_of ps) ≤ length ps * Z.to_nat (log_size l))%nat ∧
    (length ps ≤ length (items_of ps))%nat.
Proof.
  intros Hb. induction Hb as [|[loc its] ps [Hloc _] Hb IH]; [done|]. cbn in *.
  rewrite length_app. destruct Hloc as [Hne _ _ Hat _]. destruct its as [|it its]; [done|].
  destruct (items_at_bounds l _ _ _ Hat) as (_ & _ & Hlen). cbn [length] in *. lia.
Qed.

Lemma peek_holds i its n dst :
  holds l i its → Z.of_nat (length its) ≤ 2 ^ 61 → 0 ≤ n →
  ∃ iters out rest, peek b n dst i = Ok (iters, dst ++ out, Z.of_nat (length out)) ∧
    smallest n its out rest ∧ merged i iters rest.
Proof.
  intros (Hwf & ps & Hps & Hb & Hits) Hmax Hn. pose proof (batches_bound ps Hb) as [Hbound Hmin].
  assert (length its = length (items_of ps)) as Hlen by (by rewrite Hits).
  unfold peek, peek_body. destruct ps as [|p ps].
  { rewrite INext_nil; [|by apply IIter_wf|by rewrite remaining_IIter, <- Hps]. cbn [negb].
    exists None, [], []. rewrite app_nil_r. split; [done|]. cbn in Hits.
    apply Permutation_nil_r in Hits as ->. split.
    - split; [done|constructor|by intros ? ? ?%elem_of_nil|]. cbn. lia.
    - exists [], [], []. rewrite <- Hps. split_and!; try done. by exists []. }
  destruct (INext_cons (IIter i) p.1 ps.*1) as (idxIter & -> & Hiwf & Hval & Hrem);
    [by apply IIter_wf|by rewrite remaining_IIter, <- Hps|]. cbn [negb].
  destruct (spread_add [] p ps [] [] [] idxIter) as (ex & hs & li & idxIter1 & -> & Hne & Hsp & Hroot).
  { split; try done; try by constructor.
    - by exists [].
    - by intros ? ? ?%elem_of_nil.
    - rewrite Hps. by apply index_locs_sorted. }
  cbn [mbind res_bind]. rewrite decide_False by done.
  destruct (spread_merging _ _ _ _ _ _ _ Hsp Hroot) as (G & HG & Hm).
  destruct (peek_loop_merging (peek_fuel b i) n _ _ _ _ _ _ _ dst Hm Hne)
    as (added' & ps' & out' & hs' & G' & idxIter' & ex' & Heq & Hm' & Happ & Hne' & Hle & Hend).
  { cbn [app length] in *. lia. }
  { done. }
  { rewrite length_app, (left_of_perm _ _ HG). cbn. rewrite app_nil_r. unfold peek_fuel.
    fold (index_locs i). rewrite <- Hps, length_fmap. cbn in Hbound |- *. rewrite length_app in Hbound. lia. }
  cbn [length app] in Heq. rewrite app_nil_r in Heq. change (Z.of_nat 0) with 0 in Heq.
  rewrite Heq. cbn [mbind res_bind].
  exists (Some hs'), out', (left_of G' ++ items_of ps'). split; [done|].
  destruct Hm' as [[_ _ Ht Hf Hi Hs Hall _ _ Hb'] HG' _]. cbn [app] in Happ.
  assert (its ≡ₚ out' ++ left_of G' ++ items_of ps') as Hperm.
  { rewrite Hits, <- Happ, fmap_app, concat_app, Hi. by rewrite <- app_assoc. }
  split.
  - split; try done. pose proof (Permutation_length Hperm) as Hlp. rewrite length_app in Hlp.
    destruct Hend as [Hend|Hend]; [lia|]. rewrite Hend in Hlp. cbn in Hlp. lia.
  - exists added', ps', G'. rewrite Happ, <- Hps. cbn [default]. rewrite <- Happ. split_and!; done.
Qed.

(** C22. Reading is ordered and complete: [peek] of a consumer that holds the
    items [its], in any number of overlapping batches, returns the [n] smallest
    items (all of them if there are fewer) in ascending key order, and
    terminates. *)
Theorem peek_smallest i its n dst :
  holds l i its → Z.of_nat (length its) ≤ 2 ^ 61 → 0 ≤ n →
  ∃ iters out rest, peek b n dst i = Ok (iters, dst ++ out, Z.of_nat (length out)) ∧
    smallest n its out rest.
Proof.
  intros Hh Hmax Hn. destruct (peek_holds i its n dst Hh Hmax Hn) as (iters & out & rest & ? & ? & _).
  by exists iters, out, rest.
Qed.
End merge.

(** ** Reading from a damaged log *)

Section damaged.
Context {T : Type → Type} `{BTreeLaws T} `{Host, Unix, MapRange}.
Context (b : bucket T) (Hl : readable (b_log b)).
Abbreviation l := (b_log b).

(** How often an iterator can still be advanced, at most. *)
Definition potential (li : Iter) : nat :=
  if li_exhausted li then 0 else S (Z.to_nat (log_size l - li_currOff li)).

Definition potentials (hs : Iters) : nat := foldr (λ li n, potential li + n)%nat 0%nat hs.

#[local] Instance potentials_perm : Proper (Permutation ==> eq) potentials.
Proof. intros a c Hac. unfold potentials. induction Hac; cbn [foldr]; lia. Qed.

(** The locations that were not added to the heap yet. *)
Definition unread (idxIter : IndexIter) (ex : bool) : list Location :=
  if ex then [] else IValue idxIter :: remaining idxIter.

Definition off_ok (loc : Location) : Prop := 0 ≤ loc_Off loc < 2 ^ 64.

Record scanning (N : nat) (hs : Iters) (idxIter : IndexIter) (ex : bool) : Prop := {
  sc_heap : heap hs;
  sc_sane : Forall iter_sane hs;
  sc_wf : iter_wf idxIter;
  sc_offs : Forall off_ok (unread idxIter ex);
  sc_count : (length hs + length (unread idxIter ex) ≤ N)%nat;
}.

Definition measure (hs : Iters) (idxIter : IndexIter) (ex : bool) : nat :=
  (potentials hs + length (unread idxIter ex) * S (Z.to_nat (log_size l)))%nat.

Lemma At_sane loc c : off_ok loc → iter_sane (At loc c).
Proof. intros Hoff. split; [|done]. unfold small_item, blob_len. cbn. lia. Qed.

Lemma Next_potential li :
  iter_sane li → ∃ ok li', Next l li = Ok (ok, li') ∧ iter_sane li' ∧
    (ok = true → li_exhausted li' = false) ∧ (potential li' ≤ Z.to_nat (log_size l))%nat ∧
    (li_exhausted li = false → potential li' < potential li)%nat.
Proof.
  intros Hsane. destruct (Next_safe l li Hl Hsane) as (ok & li' & -> & Hsane' & Hok).
  exists ok, li'. split; [done|]. split; [done|]. unfold potential.
  pose proof Hl as [_ Hs _]. pose proof Hsane as [_ Hoff]. destruct ok.
  - destruct Hok as (Hprev & Hcurr & ->). split; [done|]. split; [lia|]. intros ->. lia.
  - rewrite Hok. split; [done|]. split; [lia|]. intros ->. lia.
Qed.

Lemma addIter_safe N hs idxIter :
  scanning N hs idxIter false →
  (∃ ex hs' idxIter', addIter b hs idxIter = Ok (ex, hs', idxIter') ∧
    scanning N hs' idxIter' ex ∧ (measure hs' idxIter' ex ≤ measure hs idxIter false)%nat ∧
    (length hs ≤ length hs')%nat) ∨
  ∃ e, addIter b hs idxIter = Err e.
Proof.
  intros [Hh Hsane Hwf Hoffs Hcount]. cbn [unread] in *. apply Forall_cons in Hoffs as [Hoff Hoffs].
  unfold addIter, logAt.
  destruct (Next_potential (At (IValue idxIter) (negb (opt_ErrorMode (b_opts b) =? ErrorModeAbort))))
    as (ok & li & -> & Hli & _ & Hpot & _); [by apply At_sane|].
  cbn [mbind res_bind]. destruct ok; cbn [negb].
  2: { destruct (Iter_Err li) as [e|]; [right; by exists e|left].
       exists false, hs, idxIter. split; [done|]. split; [|lia]. split; try done. by constructor. }
  left. destruct (Iters_Push_heap hs li Hh) as (hs' & -> & Hh' & Hp). cbn [mbind res_bind].
  assert (length hs' = S (length hs)) as Hlen by (by rewrite Hp).
  assert (potentials hs' = (potential li + potentials hs)%nat) as Hpots by (by rewrite Hp).
  assert (Forall iter_sane hs') as Hsane' by (rewrite Hp; by constructor).
  cbn [length] in Hcount.
  destruct (remaining idxIter) as [|loc locs] eqn:Hrem.
  - rewrite INext_nil by done. eexists _, _, _. split; [done|]. cbn [negb].
    unfold measure. cbn [unread length]. rewrite Hrem. cbn [length].
    split; [split; cbn [unread length]; try done; lia|]. lia.
  - destruct (INext_cons _ _ _ Hwf Hrem) as (it' & -> & Hwf' & Hv & Hr). eexists _, _, _. split; [done|].
    cbn [negb]. unfold measure. cbn [unread length]. rewrite Hr, Hrem. cbn [length] in *.
    split; [split; cbn [unread length]; try done; [by rewrite Hv, Hr|rewrite Hr; lia]|]. lia.
Qed.

Lemma peek_loop_safe N fuel n k dst hs idxIter ex :
  scanning N hs idxIter ex → hs ≠ [] → Z.of_nat N ≤ 2 ^ 61 → (measure hs idxIter ex < fuel)%nat →
  (∃ hs' dst' k', peek_loop fuel b n k dst hs idxIter ex = Ok (hs', dst', k') ∧
     Z.of_nat (length dst') - Z.of_nat (length dst) = k' - k ∧ (k' ≤ Z.max k n)) ∨
  ∃ e, peek_loop fuel b n k dst hs idxIter ex = Err e.
Proof.
  revert k dst hs idxIter ex.
  induction fuel as [|fuel IH]; intros k dst hs idxIter ex Hsc Hne HN Hfuel; [lia|].
  cbn [peek_loop]. destruct (Z.leb_spec n k) as [Hnk|Hnk].
  { left. exists hs, dst, k. split; [done|]. lia. }
  destruct hs as [|r hs]; [done|]. cbn [lookup list_lookup of_option mbind res_bind].
  unfold Exhausted. destruct (li_exhausted r) eqn:Hrun.
  { left. exists (r :: hs), dst, k. split; [done|]. lia. }
  pose proof Hsc as [Hh Hsane Hwf Hoffs Hcount]. apply Forall_cons in Hsane as [Hr Hsane].
  destruct (Next_potential r Hr) as (ok & r' & -> & Hr' & _ & _ & Hpot). specialize (Hpot Hrun).
  cbn [mbind res_bind]. destruct (Iter_Err r') as [e|]; [right; by exists e|].
  destruct (Iters_Fix_heap (<[0%nat := r']> (r :: hs)) 0) as (hs1 & -> & Hh1 & Hp1).
  { unfold fits. rewrite length_insert. lia. }
  { rewrite length_insert. cbn. lia. }
  { apply heap_insert_but; [done|cbn; lia]. }
  cbn [mbind res_bind insert list_insert] in *.
  assert (length hs1 = length (r :: hs)) as Hlen by (by rewrite Hp1).
  assert (scanning N hs1 idxIter ex) as Hsc1.
  { split; try done; [rewrite Hp1; by constructor|by rewrite Hlen]. }
  assert (measure hs1 idxIter ex < measure (r :: hs) idxIter ex)%nat as Hless.
  { unfold measure. rewrite Hp1. cbn. lia. }
  assert (∀ dst1 hs2 it2 ex2, scanning N hs2 it2 ex2 → hs2 ≠ [] →
    (measure hs2 it2 ex2 ≤ measure hs1 idxIter ex)%nat → dst1 = dst ++ [Iter_Item r] →
    (∃ hs' dst' k', peek_loop fuel b n (k + 1) dst1 hs2 it2 ex2 = Ok (hs', dst', k') ∧
      Z.of_nat (length dst') - Z.of_nat (length dst) = k' - k ∧ k' ≤ Z.max k n) ∨
    ∃ e, peek_loop fuel b n (k + 1) dst1 hs2 it2 ex2 = Err e) as Hgo.
  { intros dst1 hs2 it2 ex2 Hsc2 Hne2 Hm2 ->.
    destruct (IH (k + 1) (dst ++ [Iter_Item r]) hs2 it2 ex2) as [(hs' & dst' & k' & -> & Hd & Hmax)|[e He]];
      [done..|lia| |by right; exists e].
    left. exists hs', dst', k'. split; [done|]. rewrite length_app in Hd. cbn in Hd. lia. }
  assert (hs1 ≠ []) as Hne1 by (by destruct hs1).
  destruct (negb ex && _) eqn:Hadd; [|by apply Hgo].
  apply andb_true_iff in Hadd as [Hex _]. destruct ex; [done|].
  destruct (addIter_safe N hs1 idxIter Hsc1) as [(ex2 & hs2 & it2 & -> & Hsc2 & Hm2 & Hl2)|[e ->]].
  - cbn [mbind res_bind]. apply Hgo; try done. intros ->. destruct hs1; [done|]. cbn in Hl2. lia.
  - right. by exists e.
Qed.

(** C32. Reading is safe on every log, however damaged, with every index: [peek]
    neither panics nor runs for ever, it returns an error or at most [n] items
    (and their number). *)
Theorem peek_safe i n dst :
  wf_index i → Forall off_ok (index_locs i) → Z.of_nat (length (index_locs i)) ≤ 2 ^ 61 → 0 ≤ n →
  (∃ iters out, peek_body b n dst i = Ok (iters, out, Z.of_nat (length out) - Z.of_nat (length dst)) ∧
     Z.of_nat (length out) - Z.of_nat (length dst) ≤ n) ∨
  ∃ e, peek_body b n dst i = Err e.
Proof.
  intros Hwf Hoffs Hmax Hn. unfold peek_body. destruct (index_locs i) as [|loc locs] eqn:Hlocs.
  { rewrite INext_nil by (done || by apply IIter_wf). left.
    exists None, dst. rewrite Z.sub_diag. done. }
  destruct (INext_cons (IIter i) loc locs) as (it & -> & Hiwf & Hval & Hrem);
    [by apply IIter_wf|done|]. cbn [negb].
  assert (scanning (S (length locs)) [] it false) as Hsc.
  { split; try done; cbn [unread]; rewrite ?Hval, ?Hrem; try done. }
  destruct (addIter_safe _ [] it Hsc) as [(ex & hs & it1 & -> & Hsc1 & Hm1 & _)|[e ->]];
    [|right; by exists e].
  cbn [mbind res_bind]. case_decide as Hne.
  { left. exists None, dst. rewrite Z.sub_diag. done. }
  destruct (peek_loop_safe (S (length locs)) (peek_fuel b i) n 0 dst hs it1 ex)
    as [(hs' & dst' & k' & -> & Hd & Hk)|[e ->]]; try done.
  - unfold peek_fuel. fold (index_locs i). rewrite Hlocs. cbn [length].
    unfold measure at 2 in Hm1. cbn [unread length potentials foldr] in Hm1. rewrite Hrem in Hm1. lia.
  - left. exists (Some hs'), dst'. cbn [mbind res_bind]. split; [|lia]. do 3 f_equal. lia.
  - right. by exists e.
Qed.
End damaged.

(** ** Witnesses *)

#[local] Existing Instance Host_tiny.

Definition Range_id : MapRange := {| range_keys ks := ks |}.

Lemma Range_id_laws : @MapRangeLaws Range_id.
Proof. by split. Qed.

Definition ex_opts : Options := mkOptions SyncFull true ErrorModeAbort (mkBucketSplitConf None "") 4.

(** A bucket with one consumer, which has one batch. *)
Definition ex_mem : Index slist := Set_ (mkLocation 3 0 2) empty_Index.

Definition ex_bucket : bucket slist :=
  mkBucket ["q"] 0 ex_pushed ex_opts {[ "" := mkBucketIndex ex_writer ex_mem ]}.

Lemma ex_items_sorted : sorted_items ex_items.
Proof. repeat constructor; vm_compute; discriminate. Qed.

Lemma ex_mem_holds : holds ex_pushed ex_mem ex_items.
Proof. exact (holds_Set _ _ [] _ ex_items (holds_empty _) ex_loc_ok ex_items_sorted). Qed.

Lemma peek_smallest_witness :
  ∃ iters out rest, peek ex_bucket 1 [] ex_mem = Ok (iters, [] ++ out, Z.of_nat (length out)) ∧
    smallest 1 ex_items out rest.
Proof.
  apply (peek_smallest ex_bucket ex_pushed_readable ex_mem ex_items 1 []);
    [apply ex_mem_holds|vm_compute; discriminate|lia].
Defined.

(** An index that points into the middle of an item. *)
Lemma peek_safe_witness :
  let i : Index slist := Set_ (mkLocation 0 5 9) empty_Index in
  (∃ iters out, peek_body ex_bucket 3 [] i = Ok (iters, out, Z.of_nat (length out) - 0) ∧
     Z.of_nat (length out) - 0 ≤ 3) ∨
  ∃ e, peek_body ex_bucket 3 [] i = Err e.
Proof.
  apply (peek_safe ex_bucket ex_pushed_readable (Set_ (mkLocation 0 5 9) empty_Index) 3 []).
  - apply wf_Set, wf_empty.
  - apply Forall_singleton. split; [vm_compute; discriminate|vm_compute; reflexivity].
  - change (length _) with 1%nat. lia.
  - lia.
Defined.
