(* ===== verification/BucketShare.v ===== *)
(** * Buckets whose indexes share no array

    A change of the index of one consumer changes the others as well if they use
    its arrays.  A bucket is [unshared] if that cannot happen; the operations on
    it are then operations on one index each ([own_set], [own_pop],
    [own_delete]), and it stays so. *)

From S2P Require Import Prelude BTree Os Item Vlog VlogIter Heap Index IndexFile Options Bucket.

Section own.
Context {T : Type → Type} `{BTree T} `{Host, Unix, MapRange}.

(** ** The operations on one index *)

(** [set_and_log] *)
Definition own_set (loc : Location) : M (bucketIndex T) unit :=
  modify (λ idx, set_Mem (Set_ loc (bi_Mem idx)) idx) ;;
  idx ← get;
  WPush (bi_Log idx) loc (Index_Trailer (bi_Mem idx)).

(** [popSync_keep], [popSync_iter] and [popSync] *)
Definition own_keep (batchIter : Iter) : M (bucketIndex T) unit :=
  if negb (Exhausted batchIter) then
    wrap_err "idxlog: append begun" (own_set (CurrentLocation batchIter))
  else mret tt.

Definition own_iter (batchIter : Iter) : M (bucketIndex T) unit :=
  own_keep batchIter ;;
  idx ← get;
  '(_, mem) ← lift (Delete (FirstKey batchIter) (bi_Mem idx));
  modify (set_Mem mem) ;;
  let deadLoc := mkLocation (FirstKey batchIter) 0 0 in
  wrap_err "idxlog: append begun" (WPush (bi_Log idx) deadLoc (Index_Trailer mem)).

Definition own_pop (batchIters : Iters) : M (bucketIndex T) unit :=
  if decide (batchIters = []) then mret tt
  else
    each own_iter batchIters ;;
    idx ← get;
    WSync (bi_Log idx) false.

(** [delete_index] *)
Definition own_delete (b : bucket T) (from to : Key) : M (bucketIndex T) Z :=
  idx ← get;
  let lenBefore := Len (bi_Mem idx) in
  let iter := IIter (bi_Mem idx) in
  '(_, d) ← with_local (mkDeletion None [] [] 0)
              (for_locs (iter_fuel iter) iter (delete_loc b (bi_Log idx) from to lenBefore));
  pushErr ← each_joined (delete_entry (uint64 (lenBefore - uint64 (del_ndeleted d))))
              (del_pushErr d) (del_entries d);
  modify (λ idx, set_Mem (foldl (λ mem loc, Set_ loc mem) (bi_Mem idx) (del_partial d)) idx) ;;
  syncErr ← attempt (idx ← get; WSync (bi_Log idx) false);
  or_fail (join_opt pushErr (err_of syncErr)) ;;
  mret (del_ndeleted d).
End own.

(** ** What the writer of an index file does not change *)

Section writer.
Context {St : Type} `{Unix}.

Lemma keeps_WriteAppend p bs : keeps (eq (A := St)) (WriteAppend p bs).
Proof. unfold WriteAppend. keeps. Qed.

Lemma keeps_WPush w loc t : keeps (eq (A := St)) (WPush w loc t).
Proof. unfold WPush. case_match; [apply keeps_WriteAppend|keeps]. Qed.

Lemma keeps_WSync w force : keeps (eq (A := St)) (WSync w force).
Proof. unfold WSync. keeps. Qed.
End writer.

Section share.
Context {T : Type → Type} `{BTreeLaws T} `{Host, Unix, MapRange}.
Implicit Types (b : bucket T) (idx : bucketIndex T).

(** No two indexes notice each other. *)
Definition unshared b : Prop := ∀ f g i j,
  f ≠ g → b_indexes b !! f = Some i → b_indexes b !! g = Some j → disjoint_arrays (bi_Mem i) (bi_Mem j).

(** The lists of a consumer have no room left in their arrays. *)
Definition no_room (f : ForkName) b : Prop := match b_indexes b !! f with Some idx => full (bi_Mem idx) | None => True end.

#[global] Instance no_room_decision f b : Decision (no_room f b).
Proof. unfold no_room. destruct (b_indexes b !! f); apply _. Defined.

Lemma no_room_full f b idx : no_room f b → b_indexes b !! f = Some idx → full (bi_Mem idx).
Proof. unfold no_room. intros Hn Hidx. by rewrite Hidx in Hn. Qed.

(** The index has no arrays that it did not have before, or that have a number. *)
Definition same_mem_arrays idx idx' : Prop := same_arrays (bi_Mem idx) (bi_Mem idx').

#[global] Instance same_mem_arrays_preorder : PreOrder same_mem_arrays.
Proof. split; [by intros idx; unfold same_mem_arrays|intros i j l; unfold same_mem_arrays; apply transitivity]. Qed.

Lemma unshared_step b f idx idx' :
  unshared b → b_indexes b !! f = Some idx → same_mem_arrays idx idx' →
  unshared (set_indexes (<[f := idx']> (b_indexes b)) b).
Proof.
  intros Hb Hidx Hs g1 g2 i j Hne. cbn. intros [[<- <-]|[Hg1 Hi]]%lookup_insert_Some [[<- <-]|[Hg2 Hj]]%lookup_insert_Some.
  - done.
  - eapply disjoint_arrays_step; [|exact Hs]. by eapply (Hb f g2).
  - apply disjoint_arrays_sym. eapply disjoint_arrays_step; [|exact Hs]. by eapply (Hb f g1).
  - by eapply (Hb g1 g2).
Qed.

Lemma unshared_same b b' : b_indexes b' = b_indexes b → unshared b → unshared b'.
Proof. unfold unshared. by intros ->. Qed.

(** A consumer with an index of its own, or without numbered arrays. *)
Lemma unshared_unnumbered b : map_Forall (λ _ idx, unnumbered (bi_Mem idx)) (b_indexes b) → unshared b.
Proof. intros Hu f g i j _ Hi _. by apply unnumbered_disjoint, (Hu f). Qed.

Lemma unshared_remove f b : unshared b → unshared (set_indexes (delete f (b_indexes b)) b).
Proof.
  intros Hb g1 g2 i j Hne. cbn. intros [_ Hi]%lookup_delete_Some [_ Hj]%lookup_delete_Some. by eapply (Hb g1 g2).
Qed.

(** A copy of an index without room shares nothing that is written to. *)
Lemma unshared_fork b src dst idx w :
  unshared b → b_indexes b !! src = Some idx → full (bi_Mem idx) →
  unshared (set_indexes (<[dst := mkBucketIndex w (Copy (bi_Mem idx))]> (b_indexes b)) b).
Proof.
  intros Hb Hidx Hfull.
  assert (∀ g j, b_indexes b !! g = Some j → disjoint_arrays (Copy (bi_Mem idx)) (bi_Mem j)) as Hcopy.
  { intros g j Hj. destruct (decide (src = g)) as [<-|Hne].
    - assert (j = idx) as -> by congruence. exact (full_disjoint _ Hfull).
    - exact (Hb src g idx j Hne Hidx Hj). }
  intros g1 g2 i j Hne. cbn. intros [[<- <-]|[Hg1 Hi]]%lookup_insert_Some [[<- <-]|[Hg2 Hj]]%lookup_insert_Some.
  - done.
  - by apply (Hcopy g2).
  - by apply disjoint_arrays_sym, (Hcopy g1).
  - by apply (Hb g1 g2).
Qed.

Lemma bucket_Set_own loc b f idx :
  unshared b → b_indexes b !! f = Some idx →
  bucket_Set f loc b = set_indexes (<[f := set_Mem (Set_ loc (bi_Mem idx)) idx]> (b_indexes b)) b.
Proof.
  intros Hb Hidx. unfold bucket_Set. rewrite Hidx. destruct (Set_write loc (bi_Mem idx)) as [w|] eqn:Hw; [|done].
  f_equal. apply map_eq. intros g. destruct (decide (f = g)) as [<-|Hne]; [by rewrite !lookup_insert_eq|].
  rewrite !lookup_insert_ne, lookup_fmap by done. destruct (b_indexes b !! g) as [[w2 j]|] eqn:Hg; [|done].
  cbn. unfold set_Mem. cbn. do 2 f_equal. eapply overwrite_disjoint; [done|]. by eapply (Hb f g idx (mkBucketIndex w2 j)).
Qed.

(** ** Operations of one consumer

    On an unshared bucket [m] is [m'] on the index of [f]. *)
Record owns {A} (f : ForkName) (m : M (bucket T) A) (m' : M (bucketIndex T) A) : Prop := {
  ow_eq : ∀ b os, unshared b → is_Some (b_indexes b !! f) → m b os = on_index f m' b os;
  ow_keeps : keeps same_mem_arrays m';
}.

Lemma on_index_run {A} f (m : M (bucketIndex T) A) b os idx :
  b_indexes b !! f = Some idx →
  on_index f m b os = let '(r, idx', os') := m idx os in (r, set_indexes (<[f := idx']> (b_indexes b)) b, os').
Proof. intros Hidx. unfold on_index, idxForFork. run. rewrite Hidx. cbn. done. Qed.

Lemma on_index_pure {A} f (m : M (bucket T) A) (m' : M (bucketIndex T) A) b os idx r os' :
  b_indexes b !! f = Some idx → m b os = (r, b, os') → m' idx os = (r, idx, os') → m b os = on_index f m' b os.
Proof.
  intros Hidx Hm Hm'. rewrite (on_index_run f m' b os idx Hidx), Hm', Hm. do 2 f_equal.
  destruct b as [d k l o ix]. unfold set_indexes. cbn in *. by rewrite insert_id.
Qed.

Lemma owns_on_index {A} f (m : M (bucketIndex T) A) : keeps same_mem_arrays m → owns f (on_index f m) m.
Proof. by split. Qed.

Lemma owns_lift {A} f (r : res A) : owns f (lift r) (lift r).
Proof. split; [|keeps]. intros b os _ [idx Hidx]. by eapply on_index_pure. Qed.

Lemma owns_ret {A} f (a : A) : owns f (mret a) (mret a).
Proof. split; [|keeps]. intros b os _ [idx Hidx]. by eapply on_index_pure. Qed.

Lemma owns_fail {A} f e : owns f (fail (A := A) e) (fail e).
Proof. split; [|keeps]. intros b os _ [idx Hidx]. by eapply on_index_pure. Qed.

Lemma owns_with_local {U A} f (u : U) (m : M U A) : owns f (with_local u m) (with_local u m).
Proof.
  split; [|keeps]. intros b os _ [idx Hidx]. destruct (m u os) as [[r u'] os'] eqn:Hm.
  destruct r; (eapply on_index_pure; [exact Hidx|unfold with_local; by rewrite Hm..]).
Qed.

Lemma owns_bind {A B} f (m : M (bucket T) A) m' (k : A → M (bucket T) B) k' :
  owns f m m' → (∀ a, owns f (k a) (k' a)) → owns f (m ≫= k) (m' ≫= k').
Proof.
  intros [Hm Hkm] Hk. split; [|apply keeps_bind; [apply _|done|]; intros a; apply Hk].
  intros b os Hb [idx Hidx]. rewrite (on_index_run f _ b os idx Hidx). unfold mbind, M_bind.
  rewrite Hm, (on_index_run f _ b os idx Hidx) by (done || by eexists). specialize (Hkm idx os).
  destruct (m' idx os) as [[[a| | |] idx'] os']; [|done..]. cbn in Hkm.
  destruct (Hk a) as [-> _].
  - rewrite (on_index_run _ _ _ _ idx') by (cbn; by rewrite lookup_insert_eq).
    destruct (k' a idx' os') as [[r idx2] os2]. unfold set_indexes. cbn. by rewrite insert_insert_eq.
  - by eapply unshared_step.
  - exists idx'. cbn. by rewrite lookup_insert_eq.
Qed.

Lemma owns_attempt {A} f (m : M (bucket T) A) m' : owns f m m' → owns f (attempt m) (attempt m').
Proof.
  intros [Hm Hkm]. split; [|by apply keeps_attempt]. intros b os Hb [idx Hidx]. unfold attempt at 1.
  rewrite Hm by (done || by eexists). rewrite !(on_index_run f _ b os idx Hidx). unfold attempt.
  by destruct (m' idx os) as [[[] idx'] os'].
Qed.

Lemma owns_wrap_err {A} f c (m : M (bucket T) A) m' : owns f m m' → owns f (wrap_err c m) (wrap_err c m').
Proof.
  intros [Hm Hkm]. split; [|by apply keeps_wrap_err]. intros b os Hb [idx Hidx]. unfold wrap_err at 1.
  rewrite Hm by (done || by eexists). rewrite !(on_index_run f _ b os idx Hidx). unfold wrap_err.
  by destruct (m' idx os) as [[[] idx'] os'].
Qed.

Lemma owns_each {A} f (m : A → M (bucket T) unit) m' l :
  (∀ a, owns f (m a) (m' a)) → owns f (each m l) (each m' l).
Proof. intros Hm. induction l as [|a l IH]; cbn [each]; [apply owns_ret|]. by apply owns_bind. Qed.

Lemma owns_each_joined {A} f (m : A → M (bucket T) unit) m' err l :
  (∀ a, owns f (m a) (m' a)) → owns f (each_joined m err l) (each_joined m' err l).
Proof.
  intros Hm. revert err. induction l as [|a l IH]; intros err; cbn [each_joined]; [apply owns_ret|].
  apply owns_bind; [by apply owns_attempt|]. intros r. apply IH.
Qed.

Lemma owns_modify f g h :
  (∀ b idx, unshared b → b_indexes b !! f = Some idx → g b = set_indexes (<[f := h idx]> (b_indexes b)) b) →
  (∀ idx, same_mem_arrays idx (h idx)) → owns f (modify g) (modify h).
Proof.
  intros Hg Hh. split; [|by apply keeps_modify]. intros b os Hb [idx Hidx].
  rewrite (on_index_run f _ b os idx Hidx). unfold modify. by rewrite (Hg b idx Hb Hidx).
Qed.

(** Nothing changes but the bucket stays unshared. *)
Lemma owns_unshared {A} f (m : M (bucket T) A) m' b os :
  owns f m m' → unshared b → is_Some (b_indexes b !! f) → unshared (m b os).1.2.
Proof.
  intros [Hm Hkm] Hb [idx Hidx]. rewrite Hm, (on_index_run f _ b os idx Hidx) by (done || by eexists).
  specialize (Hkm idx os). destruct (m' idx os) as [[r idx'] os']. cbn in *. by eapply unshared_step.
Qed.

(** What it does, from what it does on the index. *)
Lemma owns_run {A} f (m : M (bucket T) A) m' b os idx r idx' os' :
  owns f m m' → unshared b → b_indexes b !! f = Some idx → m' idx os = (r, idx', os') →
  m b os = (r, set_indexes (<[f := idx']> (b_indexes b)) b, os') ∧ same_mem_arrays idx idx'.
Proof.
  intros [Hm Hkm] Hb Hidx Heq. rewrite Hm, (on_index_run f _ b os idx Hidx), Heq by (done || by eexists).
  split; [done|]. specialize (Hkm idx os). by rewrite Heq in Hkm.
Qed.

(** ** The operations of the bucket *)

Lemma keeps_eq_arrays {A} (m : M (bucketIndex T) A) : keeps eq m → keeps same_mem_arrays m.
Proof. apply keeps_eq, _. Qed.

Lemma keeps_own_Set loc :
  keeps same_mem_arrays (modify (λ idx, set_Mem (Set_ loc (bi_Mem idx)) idx)).
Proof. apply keeps_modify. intros idx. apply same_arrays_Set. Qed.

Lemma owns_Set f loc :
  owns f (modify (bucket_Set f loc)) (modify (λ idx, set_Mem (Set_ loc (bi_Mem idx)) idx)).
Proof. apply owns_modify; [intros b idx; apply bucket_Set_own|]. intros idx. apply same_arrays_Set. Qed.

(** Appending to the file of the index. *)
Lemma keeps_log_step (g : bucketIndex T → Location) (t : bucketIndex T → Trailer) :
  keeps same_mem_arrays (idx ← get; WPush (bi_Log idx) (g idx) (t idx)).
Proof. apply keeps_bind; [apply _|keeps|]. intros idx. apply keeps_eq_arrays, keeps_WPush. Qed.

Lemma owns_set_and_log f loc : owns f (set_and_log f loc) (own_set loc).
Proof.
  apply owns_bind; [apply owns_Set|]. intros _. apply owns_on_index.
  apply (keeps_log_step (λ _, loc) (λ idx, Index_Trailer (bi_Mem idx))).
Qed.

(** [Delete], then a record. *)
Lemma keeps_delete key (w : Writer → Index T → M (bucketIndex T) unit) :
  (∀ log mem, keeps eq (w log mem)) →
  keeps same_mem_arrays (
    idx ← get;
    '(_, mem) ← lift (Delete key (bi_Mem idx));
    modify (set_Mem mem) ;;
    w (bi_Log idx) mem).
Proof.
  intros Hw idx os. run. destruct (Delete key (bi_Mem idx)) as [[old mem]| | |] eqn:Hdel; [|done..].
  cbn. specialize (Hw (bi_Log idx) mem (set_Mem mem idx) os). rewrite <- Hw.
  unfold same_mem_arrays. cbn. by eapply same_arrays_Delete.
Qed.

Lemma owns_popSync_iter f li : owns f (popSync_iter f li) (own_iter li).
Proof.
  apply owns_bind.
  - unfold popSync_keep, own_keep. case_match; [|apply owns_ret]. apply owns_wrap_err, owns_set_and_log.
  - intros _. apply owns_on_index.
    apply (keeps_delete (FirstKey li) (λ log mem,
      wrap_err "idxlog: append begun" (WPush log (mkLocation (FirstKey li) 0 0) (Index_Trailer mem)))).
    intros log mem. apply keeps_wrap_err, keeps_WPush.
Qed.

Lemma keeps_get_WSync force : keeps same_mem_arrays (idx ← get; WSync (bi_Log (T := T) idx) force).
Proof. apply keeps_bind; [apply _|keeps|]. intros idx. apply keeps_eq_arrays, keeps_WSync. Qed.

Lemma owns_popSync f iters : owns f (popSync f iters) (own_pop iters).
Proof.
  unfold popSync, own_pop. case_match; [apply owns_ret|].
  apply owns_bind; [apply owns_each, owns_popSync_iter|]. intros _. apply owns_on_index, keeps_get_WSync.
Qed.

Lemma owns_delete_entry f t key : owns f (on_index f (delete_entry t key)) (delete_entry t key).
Proof.
  apply owns_on_index, (keeps_delete key (λ log mem, WPush log (mkLocation key 0 0) (mkTrailer t))).
  intros log mem. apply keeps_WPush.
Qed.

Lemma owns_Sets f locs :
  owns f (modify (λ b, foldl (λ b loc, bucket_Set f loc b) b locs))
         (modify (λ idx, set_Mem (foldl (λ mem loc, Set_ loc mem) (bi_Mem idx) locs) idx)).
Proof.
  apply owns_modify.
  - induction locs as [|loc locs IH]; intros b idx Hb Hidx; cbn [foldl].
    + destruct b as [d k l o ix], idx as [w i]. unfold set_indexes, set_Mem. cbn in *. by rewrite insert_id.
    + rewrite (bucket_Set_own loc b f idx Hb Hidx).
      rewrite (IH _ (set_Mem (Set_ loc (bi_Mem idx)) idx)).
      * unfold set_indexes, set_Mem. cbn. by rewrite insert_insert_eq.
      * eapply unshared_step; [done..|apply same_arrays_Set].
      * cbn. by rewrite lookup_insert_eq.
  - intros [w i]. unfold same_mem_arrays. cbn. revert i. induction locs as [|loc locs IH]; intros i; cbn [foldl]; [done|].
    etransitivity; [apply (same_arrays_Set loc)|apply IH].
Qed.

(** [delete_index] reads the bucket, then works on the index. *)
Lemma delete_index_own f from to b os :
  unshared b → is_Some (b_indexes b !! f) →
  delete_index f from to b os = on_index f (own_delete b from to) b os.
Proof.
  intros Hb [idx Hidx].
  set (rest b idx := (
    let lenBefore := Len (bi_Mem idx) in
    let iter := IIter (bi_Mem idx) in
    '(_, d) ← with_local (mkDeletion None [] [] 0)
                (for_locs (iter_fuel iter) iter (delete_loc b (bi_Log idx) from to lenBefore));
    pushErr ← each_joined (delete_entry (T := T) (uint64 (lenBefore - uint64 (del_ndeleted d))))
                (del_pushErr d) (del_entries d);
    modify (λ idx, set_Mem (foldl (λ mem loc, Set_ loc mem) (bi_Mem idx) (del_partial d)) idx) ;;
    syncErr ← attempt (idx ← get; WSync (bi_Log idx) false);
    or_fail (join_opt pushErr (err_of syncErr)) ;;
    mret (del_ndeleted d))).
  transitivity (on_index f (rest b idx) b os).
  2: { by rewrite !(on_index_run f _ b os idx Hidx). }
  unfold delete_index. unfold mbind at 1, M_bind at 1. cbn [get]. unfold mbind at 1, M_bind at 1. unfold idxForFork. cbn [lift].
  rewrite Hidx. match goal with |- ?m b os = _ => assert (owns f m (rest b idx)) as [Hm _] end; [|by apply Hm; [|eexists]].
  apply owns_bind; [apply owns_with_local|]. intros [_ d].
  apply owns_bind; [apply owns_each_joined; intros key; apply owns_delete_entry|]. intros pushErr.
  apply owns_bind; [apply owns_Sets|]. intros _.
  apply owns_bind; [apply owns_attempt, owns_on_index, keeps_get_WSync|]. intros syncErr.
  apply owns_bind; [|intros _; apply owns_ret]. unfold or_fail. case_match; [apply owns_fail|apply owns_ret].
Qed.

Lemma keeps_own_delete b from to : keeps same_mem_arrays (own_delete b from to).
Proof.
  unfold own_delete. apply keeps_bind; [apply _|keeps|]. intros idx.
  apply keeps_bind; [apply _|keeps|]. intros [_ d].
  apply keeps_bind; [apply _|apply (ow_keeps "" _ _ (owns_each_joined "" _ _ _ _ (owns_delete_entry "" _)))|]. intros pushErr.
  apply keeps_bind; [apply _|apply (ow_keeps "" _ _ (owns_Sets "" _))|]. intros _.
  apply keeps_bind; [apply _|apply keeps_attempt, keeps_get_WSync|]. intros syncErr.
  unfold or_fail. keeps.
Qed.
End share.
