(* ===== verification/BucketPop.v ===== *)
(** * Popping from a bucket: what [popSync] leaves in the index and its file *)

From S2P Require Import Prelude BTree Os Item Vlog VlogIter Heap Index IndexFile Options Bucket BucketPeek BucketShare.

Section pop.
Context {T : Type → Type} `{BTreeLaws T} `{Host, Unix, MapRange}.
Implicit Types (idx : bucketIndex T) (i : Index T) (li : Iter).

(** The index of a consumer is well formed and its file says the same. *)
Record stored (os : OS) idx : Prop := {
  st_wf : wf_index (bi_Mem idx);
  st_open : w_open (bi_Log idx) = true;
  st_persisted : persisted os (w_path (bi_Log idx)) (bi_Mem idx);
}.

(** A step that leads from [idx] and [os] to the index [i] and [os']. *)
Record logged os idx i os' : Prop := {
  lg_stored : stored os' (set_Mem i idx);
  lg_frame : only_files (eq (w_path (bi_Log idx))) os os';
  lg_faults : os_faults os' = [];
}.

Lemma logged_trans os idx i1 os1 i2 os2 :
  logged os idx i1 os1 → logged os1 (set_Mem i1 idx) i2 os2 → logged os idx i2 os2.
Proof. intros [_ Hf1 _] [Hs Hf2 Hno]. split; [done| |done]. by transitivity os1. Qed.

Lemma WPush_logged {St} (s : St) loc t idx i os :
  stored os idx → os_faults os = [] → valid_loc loc → Load_step loc (bi_Mem idx) = Ok i → wf_index i →
  ∃ os', WPush (bi_Log idx) loc t s os = (Ok tt, s, os') ∧ logged os idx i os' ∧
    ∀ N, logs (w_path (bi_Log idx)) (loc_Len loc) N (TotalEntries t) os os'.
Proof.
  intros [Hwf Ho Hp] Hno Hloc Hstep Hwfi.
  destruct (WPush_persisted s _ loc t os _ i Ho Hno Hp Hwf Hloc Hstep) as (os' & -> & Hp' & Hf & Hno' & Hlogs).
  exists os'. split; [done|]. split; [by split|done].
Qed.

Lemma own_set_spec loc idx os :
  stored os idx → os_faults os = [] → valid_loc loc → 0 < loc_Len loc →
  let i := Set_ loc (bi_Mem idx) in
  ∃ os', own_set loc idx os = (Ok tt, set_Mem i idx, os') ∧ logged os idx i os' ∧
    logs (w_path (bi_Log idx)) (loc_Len loc) (Len (bi_Mem idx)) (Len i) os os'.
Proof.
  intros Hst Hno Hloc Hlen i. unfold own_set. run. cbn [bi_Log bi_Mem set_Mem].
  destruct (WPush_logged (set_Mem i idx) loc (Index_Trailer i) idx i os) as (os' & Heq & Hlg & Hlogs); try done.
  3: { exists os'. split; [done|]. split; [done|]. apply Hlogs. }
  - unfold Load_step. by replace (loc_Len loc =? 0) with false by lia.
  - apply wf_Set. by destruct Hst.
Qed.

(** The location that [popSync] keeps for an iterator, if any. *)
Definition kept li : list Location := if li_exhausted li then [] else [CurrentLocation li].

Definition pop_ok li : Prop :=
  is_int64 (li_firstKey li) ∧ Forall (λ loc, valid_loc loc ∧ 0 < loc_Len loc) (kept li).

Lemma own_keep_spec li idx os :
  stored os idx → os_faults os = [] → pop_ok li →
  ∃ i os', own_keep li idx os = (Ok tt, set_Mem i idx, os') ∧ logged os idx i os' ∧
    logs (w_path (bi_Log idx)) (sum_len (kept li)) (Len (bi_Mem idx)) (Len i) os os' ∧
    ∀ k, lst i k = lst (bi_Mem idx) k ++ at_key k (kept li).
Proof.
  intros Hst Hno [_ Hkept]. unfold own_keep, kept, Exhausted, wrap_err in *.
  destruct (li_exhausted li); cbn [negb].
  - exists (bi_Mem idx), os. destruct idx. split; [done|]. split; [by split|]. split; [by apply logs_same|].
    intros k. by rewrite app_nil_r.
  - apply Forall_singleton in Hkept as [Hloc Hlen].
    destruct (own_set_spec (CurrentLocation li) idx os Hst Hno Hloc Hlen) as (os' & -> & Hlg & Hlogs).
    eexists _, os'. split; [done|]. split; [done|].
    split; [eapply logs_mono; [|done]; unfold sum_len; cbn; lia|]. intros k. by rewrite lst_Set.
Qed.

Lemma own_iter_spec li idx os :
  stored os idx → os_faults os = [] → pop_ok li →
  ∃ i os', own_iter li idx os = (Ok tt, set_Mem i idx, os') ∧ logged os idx i os' ∧
    logs (w_path (bi_Log idx)) (sum_len (kept li)) (Len (bi_Mem idx)) (Len i) os os' ∧
    ∀ k, lst i k = (if decide (li_firstKey li = k) then @tail Location else id)
                     (lst (bi_Mem idx) k ++ at_key k (kept li)).
Proof.
  intros Hst Hno Hpop. pose proof Hpop as [Hkey _]. unfold own_iter, FirstKey, wrap_err.
  destruct (own_keep_spec li idx os Hst Hno Hpop) as (i1 & os1 & Heq & Hlg & Hlogs & Hlst).
  run. rewrite Heq. cbn [bi_Mem bi_Log set_Mem]. pose proof Hlg as [Hst1 _ Hno1].
  destruct (Delete_cases (li_firstKey li) i1) as (i2 & Hdel & Hwf2 & Hl2 & _); [by destruct Hst1|].
  rewrite Hdel.
  destruct (WPush_logged (set_Mem i2 (set_Mem i1 idx)) (mkLocation (li_firstKey li) 0 0) (Index_Trailer i2)
    (set_Mem i1 idx) i2 os1) as (os2 & Heq2 & Hlg2 & Hlogs2); try done.
  { unfold Load_step. cbn. by rewrite Hdel. }
  cbn [bi_Log set_Mem] in Heq2. rewrite Heq2. exists i2, os2. split; [done|].
  split; [by eapply logged_trans|]. split; [|intros k; rewrite Hl2, Hlst; by repeat case_decide].
  specialize (Hlogs2 (Len i1)). cbn [bi_Log set_Mem loc_Len] in Hlogs2. rewrite <- (Z.add_0_r (sum_len _)). by eapply logs_trans.
Qed.

Definition first_at (k : Key) (hs : Iters) : Iters := filter (λ li, li_firstKey li = k) hs.

(** All iterators: deletions take the oldest locations, what is kept is
    appended. *)
Lemma own_iters_spec hs idx os (A R : Key → list Location) :
  stored os idx → os_faults os = [] → Forall pop_ok hs →
  (∀ k, lst (bi_Mem idx) k = A k ++ R k) → (∀ k, length (A k) = length (first_at k hs)) →
  ∃ i os', each own_iter hs idx os = (Ok tt, set_Mem i idx, os') ∧ logged os idx i os' ∧
    logs (w_path (bi_Log idx)) (sum_len (concat (kept <$> hs))) (Len (bi_Mem idx)) (Len i) os os' ∧
    ∀ k, lst i k = R k ++ at_key k (concat (kept <$> hs)).
Proof.
  intros Hst Hno Hok. revert idx os A R Hst Hno.
  induction Hok as [|li hs Hli Hok IH]; intros idx os A R Hst Hno HA Hlen; cbn [each].
  { exists (bi_Mem idx), os. destruct idx. split; [done|]. split; [by split|]. split; [by apply logs_same|]. intros k.
    rewrite HA. destruct (A k) eqn:E; [|specialize (Hlen k); by rewrite E in Hlen].
    cbn. by rewrite app_nil_r. }
  run. destruct (own_iter_spec li idx os Hst Hno Hli) as (i1 & os1 & -> & Hlg1 & Hlogs1 & Hl1).
  pose proof Hlg1 as [Hst1 _ Hno1].
  destruct (IH (set_Mem i1 idx) os1 (λ k, if decide (li_firstKey li = k) then tail (A k) else A k)
    (λ k, R k ++ at_key k (kept li))) as (i2 & os2 & -> & Hlg2 & Hlogs2 & Hl2); try done.
  - intros k. cbn [bi_Mem set_Mem]. rewrite Hl1, HA, <- app_assoc. case_decide; [|done].
    specialize (Hlen k). unfold first_at in Hlen. rewrite filter_cons_True in Hlen by done.
    by destruct (A k).
  - intros k. specialize (Hlen k). unfold first_at in *. case_decide.
    + rewrite filter_cons_True in Hlen by done. destruct (A k); cbn in *; congruence.
    + by rewrite filter_cons_False in Hlen by done.
  - exists i2, os2. split; [done|]. split; [by eapply logged_trans|].
    split; [cbn [fmap list_fmap concat]; rewrite sum_len_app; by eapply logs_trans|]. intros k. rewrite Hl2. cbn. by rewrite filter_app, <- app_assoc.
Qed.
(** ** The items after a pop *)

(** What is left of the batches in the iterators. *)
Definition kept_batches (G : list (Iter * Items)) : list (Location * Items) :=
  concat ((λ g, if li_exhausted g.1 then [] else [(CurrentLocation g.1, g.2)]) <$> G).

Lemma kept_batches_fst G : (kept_batches G).*1 = concat (kept <$> G.*1).
Proof.
  induction G as [|g G IH]; [done|]. unfold kept_batches in *. cbn. rewrite fmap_app, IH.
  unfold kept. by destruct (li_exhausted g.1).
Qed.

Lemma kept_batches_items l G :
  Forall (λ g, tracks l g.1 g.2) G → concat (kept_batches G).*2 = left_of G.
Proof.
  intros Ht. induction Ht as [|[li its] G Hli Ht IH]; [done|]. unfold kept_batches in *. cbn in *.
  rewrite fmap_app, concat_app, IH. f_equal. destruct Hli as [li it rest [] Hs|li Hex _].
  - rewrite on_running. cbn. by rewrite app_nil_r.
  - by rewrite Hex.
Qed.

Lemma kept_batches_ok l G : Forall (λ g, tracks l g.1 g.2) G → batches l (kept_batches G).
Proof.
  intros Ht. induction Ht as [|[li its] G Hli Ht IH]; [constructor|]. unfold kept_batches in *. cbn in *.
  apply Forall_app. split; [|done]. destruct Hli as [li it rest Hon Hs|li Hex _].
  - pose proof Hon as []. rewrite on_running. constructor; [|constructor]. split; [|done].
    by apply CurrentLocation_ok.
  - rewrite Hex. constructor.
Qed.

(** Locations of batches of a moderate size can be stored in a file. *)
Lemma loc_ok_valid l loc its :
  readable l → loc_ok l loc its → Z.of_nat (length its) < 2 ^ 32 → valid_loc loc ∧ 0 < loc_Len loc.
Proof.
  intros [_ Hs Hm] [Hne Hlen Hkey Hat Hval] Hmax. destruct its as [|it its]; [done|].
  destruct (items_at_bounds l _ _ _ Hat) as (Hoff & _). apply Forall_cons in Hval as [[Hk _] _].
  injection Hkey as Hkey. rewrite Hkey in Hk. cbn [length] in *.
  split; [|rewrite Hlen; lia]. split; [done|]. rewrite Hlen. lia.
Qed.

Lemma pop_ok_tracks (b : bucket T) G added ps :
  readable (b_log b) → Forall (λ g, tracks (b_log b) g.1 g.2) G → batches (b_log b) (added ++ ps) →
  origin added G → Z.of_nat (length (left_of G)) < 2 ^ 32 →
  Forall pop_ok G.*1.
Proof.
  intros Hl Ht Hb Hf%origin_first Hlen. apply Forall_fmap, Forall_forall. intros [li its] Hg. split; cbn.
  - assert (li_firstKey li ∈ loc_Key <$> added.*1) as Hin.
    { rewrite <- Hf. apply list_elem_of_fmap_2. by apply (list_elem_of_fmap_2 fst) in Hg. }
    apply list_elem_of_fmap in Hin as (loc & -> & (p & -> & Hp)%list_elem_of_fmap).
    unfold batches in Hb. rewrite Forall_forall in Hb. destruct (Hb p) as [[Hne _ Hkey _ Hval] _]; [set_solver|].
    destruct p.2 as [|it its']; [done|]. apply Forall_cons in Hval as [[Hk _] _]. by injection Hkey as <-.
  - rewrite Forall_forall in Ht. unfold kept. specialize (Ht _ Hg). cbn in Ht.
    assert (length its ≤ length (left_of G))%nat as Hle.
    { apply list_elem_of_split in Hg as (G1 & G2 & ->). rewrite fmap_app, concat_app. cbn.
      rewrite !length_app. lia. }
    destruct Ht as [li it rest Hon Hs|li Hex _]; [|by rewrite Hex].
    pose proof Hon as []. rewrite on_running. constructor; [|constructor].
    eapply loc_ok_valid; [done|by apply CurrentLocation_ok|lia].
Qed.

Lemma length_at_key k (locs : list Location) :
  length (at_key k locs) = length (filter (eq k) (loc_Key <$> locs)).
Proof.
  induction locs as [|x locs IH]; [done|]. cbn [fmap list_fmap]. destruct (decide (loc_Key x = k)).
  - rewrite !filter_cons_True by done. cbn [length]. by rewrite IH.
  - rewrite !filter_cons_False by done. done.
Qed.

Lemma first_at_length k (hs : Iters) (locs : list Location) :
  li_firstKey <$> hs ≡ₚ loc_Key <$> locs → length (at_key k locs) = length (first_at k hs).
Proof.
  intros Hp. rewrite length_at_key, <- Hp. clear Hp. unfold first_at.
  induction hs as [|x hs IH]; [done|]. cbn [fmap list_fmap]. destruct (decide (li_firstKey x = k)).
  - rewrite !filter_cons_True by done. cbn [length]. by rewrite IH.
  - rewrite !filter_cons_False by done. done.
Qed.

(** What an index that gained the batches [extra] since it was read holds after
    the pop, in a log [l'] that extends the one that was read. *)
Lemma own_pop_holds (b : bucket T) l' i iters rest idx os extra :
  readable (b_log b) → wf_index i → merged b i iters rest → stored os idx → os_faults os = [] →
  (∀ k, lst (bi_Mem idx) k = lst i k ++ at_key k extra.*1) → batches l' extra →
  (∀ loc its, loc_ok (b_log b) loc its → loc_ok l' loc its) → Z.of_nat (length rest) < 2 ^ 32 →
  ∃ mem os', own_pop (default [] iters) idx os = (Ok tt, set_Mem mem idx, os') ∧
    logged os idx mem os' ∧ holds l' mem (rest ++ concat extra.*2) ∧
    logs (w_path (bi_Log idx)) (Z.of_nat (length rest)) (Len (bi_Mem idx)) (Len mem) os os'.
Proof.
  intros Hl Hwf (added & ps & G & Hlocs & Hb & Hit & Ht & Hf & Hrest) Hst Hno Hlst Hextra Hgrow Hlen.
  rewrite Hit in *.
  destruct (own_iters_spec G.*1 idx os (λ k, at_key k added.*1) (λ k, at_key k (ps ++ extra).*1))
    as (mem & os' & Heq & Hlg & Hlogs & Hlst').
  - done.
  - done.
  - eapply pop_ok_tracks; try done. rewrite Hrest, length_app in Hlen. lia.
  - intros k. rewrite Hlst, <- index_locs_at_key, Hlocs by done.
    by rewrite !fmap_app, !filter_app, <- app_assoc.
  - intros k. by apply first_at_length, origin_first.
  - exists mem, os'. split.
    { unfold own_pop. case_decide as Hnil.
      - rewrite Hnil in Heq. cbn in Heq. by run in Heq.
      - run. rewrite Heq. unfold WSync. destruct Hlg as [_ _ Hno'].
        cbn [bi_Log set_Mem]. destruct (negb (w_sync (bi_Log idx)) && negb false); [done|].
        destruct Hst as [_ Ho _]. rewrite Ho. by sys_ok. }
    split; [done|]. destruct Hlg as [[Hwf' _ _] _ _]. cbn [bi_Mem set_Mem] in Hwf'. split.
    2: { eapply logs_mono; [|done]. rewrite <- kept_batches_fst, (sum_len_batches (b_log b)) by by apply kept_batches_ok.
         rewrite (kept_batches_items (b_log b)), Hrest, length_app by done. lia. }
    apply (holds_intro _ _ ((ps ++ extra) ++ kept_batches G)).
    + done.
    + apply by_key_perm. intros k. rewrite index_locs_at_key, Hlst' by done.
      by rewrite (fmap_app fst (ps ++ extra)), filter_app, kept_batches_fst.
    + apply Forall_app in Hb as [_ Hb]. apply Forall_app. split; [apply Forall_app; split; [|done]|].
      * eapply Forall_impl; [exact Hb|]. intros p [? ?]. by auto.
      * eapply Forall_impl; [by apply kept_batches_ok|]. intros p [? ?]. by auto.
    + rewrite !fmap_app, !concat_app, (kept_batches_items (b_log b)) by done. rewrite Hrest.
      rewrite <- !app_assoc. by rewrite (Permutation_app_comm (left_of G)), <- !app_assoc.
Qed.
End pop.
