(* ===== verification/BucketQueue.v ===== *)
(** * A bucket as a family of priority queues

    The specification of a bucket is a map from consumer names to multisets of
    items; [bucket_ok] relates a bucket and its files to it, and the theorems
    say what each operation does to the map. *)

From S2P Require Import Prelude BTree Os Item Vlog VlogIter Heap Index IndexFile Options Bucket.
From S2P Require Import BucketPeek BucketShare BucketPop.

(** ** The files of a bucket are different *)

Lemma string_length_app (s t : string) :
  String.length (s +:+ t) = (String.length s + String.length t)%nat.
Proof.
  induction s as [|c s IH]; [done|].
  change (String.length (String c s +:+ t)) with (S (String.length (s +:+ t))). by rewrite IH.
Qed.

Lemma string_app_inj_r (s t u : string) : s +:+ u = t +:+ u → s = t.
Proof.
  revert t. induction s as [|c s IH]; intros [|d t] Heq; [done| | |].
  - apply (f_equal String.length) in Heq. rewrite !string_length_app in Heq. cbn in Heq. lia.
  - apply (f_equal String.length) in Heq. rewrite !string_length_app in Heq. cbn in Heq. lia.
  - change (String c (s +:+ u) = String d (t +:+ u)) in Heq. injection Heq as -> Heq.
    f_equal. by apply IH.
Qed.

Lemma idxPath_inj dir f g : idxPath dir f = idxPath dir g → f = g.
Proof.
  unfold idxPath, Join. intros Heq%app_inv_head. injection Heq as Heq.
  repeat case_decide; subst; try done; [| |by apply string_app_inj_r in Heq].
  all: apply (f_equal String.length) in Heq; rewrite string_length_app in Heq; cbn in Heq; lia.
Qed.

Lemma idxPath_not_log dir f : idxPath dir f ≠ Join dir "dat.log".
Proof.
  unfold idxPath, Join. intros Heq%app_inv_head. injection Heq as Heq. case_decide; [done|].
  apply (f_equal String.length) in Heq. rewrite string_length_app in Heq. cbn in Heq. lia.
Qed.

(** ** The invariant *)

Section queue.
Context {T : Type → Type} `{BTreeLaws T} `{Host, Unix, !UnixLaws} `{MapRange, !MapRangeLaws}.
Implicit Types (b : bucket T) (idx : bucketIndex T) (q : gmap ForkName Items).

(** The consumer [f] of a bucket in [dir] with the log [l]. *)
Record fork_ok (os : OS) (dir : path) (l : Log) (f : ForkName) idx (its : Items) : Prop := {
  fk_holds : holds l (bi_Mem idx) its;
  fk_stored : stored os idx;
  fk_path : w_path (bi_Log idx) = idxPath dir f;
  fk_size : Z.of_nat (length its) < 2 ^ 32;
}.

Lemma holds_length l i its : holds l i its → Z.of_nat (length its) < 2 ^ 32 → Len i = Z.of_nat (length its).
Proof. intros Hh Hlen. rewrite (holds_Len _ _ _ Hh). apply uint64_id. lia. Qed.

Lemma fork_ok_Len os dir l f idx its : fork_ok os dir l f idx its → Len (bi_Mem idx) = Z.of_nat (length its).
Proof. intros [Hh _ _ Hlen]. by apply (holds_length l). Qed.

(** What [logs] says when a queue becomes another one. *)
Definition logs_queue (p : path) (n : Z) (its its' : Items) : OS → OS → Prop :=
  logs p n (Z.of_nat (length its)) (Z.of_nat (length its')).

Record bucket_ok b (os : OS) q : Prop := {
  bo_log : wf_log (b_log b) os;
  bo_path : log_path (b_log b) = Join (b_dir b) "dat.log";
  bo_forks : map_Forall2 (fork_ok os (b_dir b) (b_log b)) (b_indexes b) q;
  bo_unshared : unshared b;
}.

Lemma bucket_ok_lookup b os q f its :
  bucket_ok b os q → q !! f = Some its →
  ∃ idx, b_indexes b !! f = Some idx ∧ fork_ok os (b_dir b) (b_log b) f idx its.
Proof.
  intros [_ _ Hf _] Hq. specialize (Hf f). rewrite Hq in Hf. inversion Hf as [idx its' Hok|]; subst.
  by exists idx.
Qed.

(** Files other than the one written keep what they say. *)
Lemma stored_frame os os' idx p :
  only_files (eq p) os os' → w_path (bi_Log idx) ≠ p → stored os idx → stored os' idx.
Proof.
  intros [Hof _] Hne [Hwf Ho Hp]. split; try done. apply (persisted_frame os); [|done].
  apply Hof. congruence.
Qed.

Lemma wf_log_frame l os os' p :
  only_files (eq p) os os' → log_path l ≠ p → wf_log l os → wf_log l os'.
Proof.
  intros [Hof _] Hne [Hr Ht Hf]. split; try done. unfold read_file in *. rewrite Hof; [done|congruence].
Qed.

(** An operation on the index of one consumer. *)
Lemma on_index_ok {A} b os q f idx its (m : M (bucket T) A) m' (a : A) mem os' :
  owns f m m' → bucket_ok b os q → q !! f = Some its → b_indexes b !! f = Some idx →
  m' idx os = (Ok a, set_Mem mem idx, os') → logged os idx mem os' →
  ∀ its', holds (b_log b) mem its' → Z.of_nat (length its') < 2 ^ 32 →
  ∃ b', m b os = (Ok a, b', os') ∧ bucket_ok b' os' (<[f := its']> q) ∧
    b' = set_indexes (<[f := set_Mem mem idx]> (b_indexes b)) b.
Proof.
  intros Hown Hok Hq Hidx Hm [Hst Hof Hno] its' Hh Hlen.
  pose proof (owns_unshared f m m' b os Hown (bo_unshared _ _ _ Hok) ltac:(by eexists)) as Hun.
  rewrite (ow_eq _ _ _ Hown b os (bo_unshared _ _ _ Hok)) in * by by eexists.
  rewrite (on_index_run f _ b os idx Hidx), Hm in *. cbn [fst snd] in Hun.
  eexists. split; [done|]. split; [|done].
  destruct (bucket_ok_lookup _ _ _ _ _ Hok Hq) as (idx' & Hidx' & Hfork). simplify_eq.
  destruct Hok as [Hlog Hpath Hforks _]. pose proof (fk_path _ _ _ _ _ _ Hfork) as Hp. rewrite Hp in Hof.
  split; cbn; [|done| |done].
  - eapply wf_log_frame; [exact Hof| |done]. rewrite Hpath. apply not_eq_sym, idxPath_not_log.
  - intros g. destruct (decide (f = g)) as [<-|Hne].
    + rewrite !lookup_insert_eq. constructor. by split.
    + rewrite !lookup_insert_ne by done. specialize (Hforks g). destruct Hforks as [idx2 its2 Hg|]; constructor.
      destruct Hg. split; try done. eapply stored_frame; [exact Hof| |done].
      rewrite fk_path0. intros Heq. by apply idxPath_inj in Heq.
Qed.
(** The files of the consumers [fs]. *)
Definition idx_of (dir : path) (fs : list ForkName) (p : path) : Prop := ∃ f, f ∈ fs ∧ p = idxPath dir f.

(** The files of a bucket with the queues [q]. *)
Definition files_of (dir : path) q (p : path) : Prop :=
  p = Join dir "dat.log" ∨ ∃ f, is_Some (q !! f) ∧ p = idxPath dir f.

(** ** Push *)

Definition with_loc (loc : Location) idx : bucketIndex T := set_Mem (Set_ loc (bi_Mem idx)) idx.

Lemma push_index_ok b os q f its loc items :
  bucket_ok b os q → q !! f = Some its → loc_ok (b_log b) loc items → sorted_items items →
  Z.of_nat (length (its ++ items)) < 2 ^ 32 → os_faults os = [] →
  ∃ b' os', wrap_err "push: index-log" (set_and_log f loc) b os = (Ok tt, b', os') ∧
    bucket_ok b' os' (<[f := its ++ items]> q) ∧ os_faults os' = [] ∧ b_log b' = b_log b ∧ b_dir b' = b_dir b ∧
    b_key b' = b_key b ∧
    b_indexes b' = alter (with_loc loc) f (b_indexes b) ∧ only_files (eq (idxPath (b_dir b) f)) os os' ∧
    logs_queue (idxPath (b_dir b) f) (loc_Len loc) its (its ++ items) os os'.
Proof.
  intros Hok Hq Hloc Hs Hlen Hno. destruct (bucket_ok_lookup _ _ _ _ _ Hok Hq) as (idx & Hidx & Hfork).
  pose proof Hfork as [Hh Hst _ _]. pose proof (bo_log _ _ _ Hok) as [Hl _ _].
  assert (holds (b_log b) (Set_ loc (bi_Mem idx)) (its ++ items)) as Hh' by by apply holds_Set.
  destruct (loc_ok_valid _ _ _ Hl Hloc) as [Hval Hpos]; [rewrite length_app in Hlen; lia|].
  destruct (own_set_spec loc idx os Hst Hno Hval Hpos) as (os' & Heq & Hlg & Hlogs).
  destruct (on_index_ok b os q f idx its _ _ tt _ os' (owns_set_and_log f loc) Hok Hq Hidx Heq Hlg (its ++ items)) as (b' & Hon & Hok' & ->);
    [done|done|].
  rewrite (fork_ok_Len _ _ _ _ _ _ Hfork), (holds_length _ _ _ Hh' Hlen) in Hlogs. eexists _, os'. unfold wrap_err. rewrite Hon. split; [done|]. split; [done|].
  split; [by destruct Hlg|]. split; [done|]. split; [done|]. split; [done|]. pose proof (fk_path _ _ _ _ _ _ Hfork) as Hpath.
  rewrite Hpath in Hlogs. destruct Hlg as [_ Hof _]. rewrite Hpath in Hof. split; [|done].
  cbn. apply map_eq. intros g. destruct (decide (f = g)) as [<-|].
  - by rewrite lookup_insert_eq, lookup_alter_eq, Hidx.
  - by rewrite lookup_insert_ne, lookup_alter_ne.
Qed.

Lemma push_loop_ok fs b os q loc items :
  bucket_ok b os q → NoDup fs → (∀ f, f ∈ fs → is_Some (q !! f)) →
  loc_ok (b_log b) loc items → sorted_items items →
  (∀ f its, f ∈ fs → q !! f = Some its → Z.of_nat (length (its ++ items)) < 2 ^ 32) →
  os_faults os = [] →
  ∃ b' os' q', each (λ f, wrap_err "push: index-log" (set_and_log f loc)) fs b os = (Ok tt, b', os') ∧
    bucket_ok b' os' q' ∧ os_faults os' = [] ∧ b_log b' = b_log b ∧ b_dir b' = b_dir b ∧
    b_key b' = b_key b ∧ only_files (idx_of (b_dir b) fs) os os' ∧ 
    (∀ f its, f ∈ fs → q !! f = Some its → logs_queue (idxPath (b_dir b) f) (loc_Len loc) its (its ++ items) os os') ∧
    (∀ g, q' !! g = if decide (g ∈ fs) then (.++ items) <$> (q !! g) else q !! g) ∧
    (∀ g, b_indexes b' !! g =
       if decide (g ∈ fs) then with_loc loc <$> (b_indexes b !! g) else b_indexes b !! g).
Proof.
  intros Hok Hnd. revert b os q Hok.
  induction Hnd as [|f fs Hf Hnd IH]; intros b os q Hok Hdom Hloc Hs Hlen Hno; cbn [each].
  { exists b, os, q. split_and!; try done. by intros f its ?%elem_of_nil. }
  destruct (Hdom f ltac:(by left)) as [its Hq]. run.
  destruct (push_index_ok b os q f its loc items)
    as (b1 & os1 & -> & Hok1 & Hno1 & Hlog & Hdir & Hkey & Hidx1 & Hof1 & Hlogs1);
    try done; [eapply Hlen; [by left|done]|].
  destruct (IH b1 os1 (<[f := its ++ items]> q) Hok1) 
    as (b' & os' & q' & -> & Hok' & Hno' & Hlog' & Hdir' & Hkey' & Hof' & Hlogs' & Hq' & Hidx'); try done.
  - intros g Hg. rewrite lookup_insert_ne by (intros ->; done). apply Hdom. by right.
  - by rewrite Hlog.
  - intros g its' Hg Hq'. rewrite lookup_insert_ne in Hq' by (intros ->; done).
    eapply Hlen; [by right|done].
  - rewrite Hdir in Hdir', Hof', Hlogs'.
    exists b', os', q'. split; [done|]. split_and!; try done; [by rewrite Hlog'|by rewrite Hkey'| | | |].
    + transitivity os1; (eapply only_files_mono; [|done]); intros p.
      * intros <-. exists f. split; [by left|done].
      * intros (g & ? & ->). exists g. split; [by right|done].
    + intros g its' Hg Hqg. destruct (decide (f = g)) as [<-|Hne].
      * assert (its' = its) as -> by congruence.
        rewrite <- (Z.add_0_r (loc_Len loc)). eapply logs_trans; [done|]. apply logs_same, Hof'.
        intros (h & Hh & Heq%idxPath_inj). by subst.
      * rewrite <- (Z.add_0_l (loc_Len loc)). apply elem_of_cons in Hg as [->|Hg]; [done|].
        eapply logs_trans; [|apply Hlogs'; [done|by rewrite lookup_insert_ne]]. apply logs_same, Hof1. by intros ?%idxPath_inj.
    + intros g. rewrite Hq'. destruct (decide (f = g)) as [<-|Hne].
      * rewrite decide_False, decide_True, lookup_insert_eq, Hq by (done || by left). done.
      * rewrite lookup_insert_ne by done. repeat case_decide; set_solver.
    + intros g. rewrite Hidx', Hidx1. destruct (decide (f = g)) as [<-|Hne].
      * rewrite decide_False, decide_True, lookup_alter_eq by (done || by left). done.
      * rewrite lookup_alter_ne by done. repeat case_decide; set_solver.
Qed.

Lemma range_forks_spec b : NoDup (range_forks b) ∧ ∀ f, f ∈ range_forks b ↔ is_Some (b_indexes b !! f).
Proof.
  unfold range_forks. pose proof (range_keys_perm (map_to_list (b_indexes b)).*1) as Hp. split.
  - rewrite Hp. apply NoDup_fst_map_to_list.
  - intros f. rewrite Hp. rewrite list_elem_of_fmap. split.
    + intros ([g idx] & -> & Hin%elem_of_map_to_list). by eexists.
    + intros [idx Hin%elem_of_map_to_list]. by exists (f, idx).
Qed.

Lemma bucket_ok_dom b os q f : bucket_ok b os q → is_Some (b_indexes b !! f) ↔ is_Some (q !! f).
Proof. intros [_ _ Hf _]. specialize (Hf f). destruct Hf; split; intros [? ?]; done || by eexists. Qed.

(** The log has grown; nobody's queue has changed yet. *)
Lemma bucket_ok_log b os q items l' os' :
  bucket_ok b os q → pushed (b_log b) items l' os' → only_files (eq (log_path (b_log b))) os os' →
  bucket_ok (set_log l' b) os' q.
Proof.
  intros [[Hl _ _] Hpath Hforks Hun] Hp Hof. pose proof Hp as [_ _ Hwf Hpath' _].
  split; cbn; [done|by rewrite Hpath'| |done]. intros f. specialize (Hforks f).
  destruct Hforks as [idx its [Hh Hst Hw Hlen]|]; constructor. split; try done.
  - by eapply holds_pushed.
  - eapply stored_frame; [exact Hof| |done]. rewrite Hw, Hpath. apply idxPath_not_log.
Qed.

(** The log part of a push. *)
Lemma log_push_ok b os q items :
  bucket_ok b os q → items ≠ [] → Forall valid_item items → os_faults os = [] →
  log_size (b_log b) + storages items ≤ 2 ^ 61 →
  ∃ l' os', wrap_err "push: log" (zoom b_log set_log (Push items)) b os =
      (Ok (push_loc (b_log b) items), set_log l' b, os') ∧
    bucket_ok (set_log l' b) os' q ∧ loc_ok l' (push_loc (b_log b) items) items ∧ os_faults os' = [] ∧
    contents l' = contents (b_log b) ++ enc_items items ∧ only_files (eq (Join (b_dir b) "dat.log")) os os' ∧
    (∀ loc its, loc_ok (b_log b) loc its → loc_ok l' loc its).
Proof.
  intros Hok Hne Hval Hno Hmax. pose proof (bo_log _ _ _ Hok) as Hwf. pose proof Hwf as [Hl _ _].
  destruct (Push_outcome_holds _ _ _ Hwf Hne Hmax) as (r & l' & os' & Heq & Hout & Hof & Hr).
  rewrite (Hr Hno) in *. inversion Hout as [l1 os1 Hp He| | |]; subst.
  exists l', os'. unfold wrap_err, zoom. rewrite Heq. split; [done|].
  split; [by eapply bucket_ok_log|]. split; [by eapply push_loc_ok|]. split; [by apply Hof|].
  split; [by destruct Hp|]. split; [by rewrite <- (bo_path _ _ _ Hok)|].
  intros loc its Hloc. by eapply loc_ok_pushed.
Qed.

Lemma BPush_all_holds b os q items name :
  bucket_ok b os q → items ≠ [] → sorted_items items → Forall valid_item items → os_faults os = [] →
  log_size (b_log b) + storages items ≤ 2 ^ 61 →
  (∀ f its, q !! f = Some its → Z.of_nat (length (its ++ items)) < 2 ^ 32) →
  ∃ b' os' loc, BPush items true name b os = (Ok tt, b', os') ∧
    bucket_ok b' os' ((.++ items) <$> q) ∧ os_faults os' = [] ∧
    b_indexes b' = with_loc loc <$> b_indexes b ∧ loc_ok (b_log b') loc items ∧
    (∀ loc its, loc_ok (b_log b) loc its → loc_ok (b_log b') loc its) ∧
    contents (b_log b') = contents (b_log b) ++ enc_items items ∧ b_dir b' = b_dir b ∧ b_key b' = b_key b ∧
    only_files (files_of (b_dir b) q) os os' ∧
    (∀ f its, q !! f = Some its → logs_queue (idxPath (b_dir b) f) (Z.of_nat (length items)) its (its ++ items) os os').
Proof.
  intros Hok Hne Hs Hval Hno Hmax Hlen.
  destruct (log_push_ok b os q items Hok Hne Hval Hno Hmax) 
    as (l' & os1 & Heq1 & Hok1 & Hloc & Hno1 & Hcont & Hof1 & Hgrow).
  destruct (range_forks_spec (set_log l' b)) as [Hnd Hin].
  destruct (push_loop_ok (range_forks (set_log l' b)) (set_log l' b) os1 q (push_loc (b_log b) items) items)
    as (b' & os' & q' & Heq & Hok' & Hno' & Hlog' & Hdir' & Hkey' & Hof' & Hlogs' & Hq' & Hidx'); try done.
  { intros f Hf. apply (bucket_ok_dom _ _ _ _ Hok1). by apply Hin. }
  { intros f its _. apply Hlen. }
  exists b', os', (push_loc (b_log b) items).
  assert (BPush items true name b os = (Ok tt, b', os')) as ->.
  { unfold BPush, recoverMmapError. destruct items as [|it items]; [done|].
    run. run in Heq1. rewrite Heq1. run in Heq. by rewrite Heq. }
  split; [done|]. rewrite Hlog'. split_and!; try done.
  - replace ((.++ items) <$> q) with q'; [done|]. apply map_eq. intros f.
    rewrite Hq', lookup_fmap. case_decide as Hd; [done|]. rewrite Hin, (bucket_ok_dom _ _ _ _ Hok1) in Hd.
    destruct (q !! f); [|done]. exfalso. apply Hd. by eexists.
  - apply map_eq. intros f. rewrite Hidx', lookup_fmap. case_decide as Hd; [done|]. rewrite Hin in Hd. cbn in *.
    destruct (b_indexes b !! f); [|done]. exfalso. apply Hd. by eexists.
  - cbn [b_dir set_log] in Hof'. transitivity os1; (eapply only_files_mono; [|done]); intros p.
    + intros <-. by left.
    + intros (g & Hg & ->). right. exists g. split; [|done]. apply (bucket_ok_dom _ _ _ _ Hok1). by apply Hin.
  - intros f its Hq. rewrite <- (loc_ok_Len _ _ _ Hloc), <- (Z.add_0_l (loc_Len _)). eapply logs_trans.
    + apply logs_same, Hof1. apply not_eq_sym, idxPath_not_log.
    + apply Hlogs'; [|done]. apply Hin. apply (bucket_ok_dom _ _ _ _ Hok1). by eexists.
Qed.

(** [Push] with [all]: every consumer of the bucket gets the batch, in
    memory and on disk, whatever order Go chooses to visit them in, and no
    consumer loses anything. *)
Theorem BPush_all b os q items name :
  bucket_ok b os q → items ≠ [] → sorted_items items → Forall valid_item items → os_faults os = [] →
  log_size (b_log b) + storages items ≤ 2 ^ 61 →
  (∀ f its, q !! f = Some its → Z.of_nat (length (its ++ items)) < 2 ^ 32) →
  ∃ b' os', BPush items true name b os = (Ok tt, b', os') ∧
    bucket_ok b' os' ((.++ items) <$> q) ∧ os_faults os' = [].
Proof.
  intros Hok Hne Hs Hval Hno Hmax Hlen.
  destruct (BPush_all_holds b os q items name Hok Hne Hs Hval Hno Hmax Hlen)
    as (b' & os' & loc & ? & ? & ? & _).
  by exists b', os'.
Qed.

(** [Push] without [all]: only the named consumer gets the batch; for a
    name that does not exist the push fails, and every consumer keeps its
    queue. *)
Theorem BPush_one b os q items name :
  bucket_ok b os q → items ≠ [] → sorted_items items → Forall valid_item items → os_faults os = [] →
  log_size (b_log b) + storages items ≤ 2 ^ 61 →
  (∀ f its, q !! f = Some its → Z.of_nat (length (its ++ items)) < 2 ^ 32) →
  ∃ b' os', BPush items false name b os =
      (match q !! name with Some _ => Ok tt | None => Err ENoSuchFork end, b', os') ∧
    bucket_ok b' os' (alter (.++ items) name q) ∧ os_faults os' = [].
Proof.
  intros Hok Hne Hs Hval Hno Hmax Hlen.
  destruct (log_push_ok b os q items Hok Hne Hval Hno Hmax) 
    as (l' & os1 & Heq1 & Hok1 & Hloc & Hno1 & _).
  unfold BPush, recoverMmapError. destruct items as [|it items]; [done|].
  run. run in Heq1. rewrite Heq1. unfold idxForFork.
  destruct (q !! name) as [its|] eqn:Hq.
  - destruct (bucket_ok_lookup _ _ _ _ _ Hok1 Hq) as (idx & Hidx & _). rewrite Hidx.
    destruct (push_index_ok (set_log l' b) os1 q name its (push_loc (b_log b) (it :: items)) (it :: items))
      as (b' & os' & Heq & Hok' & Hno' & _); try done; [by eapply Hlen|].
    rewrite Heq. exists b', os'. split; [done|]. split; [|done].
    replace (alter (.++ it :: items) name q) with (<[name := its ++ it :: items]> q); [done|].
    apply map_eq. intros f. destruct (decide (name = f)) as [<-|].
    + by rewrite lookup_insert_eq, lookup_alter_eq, Hq.
    + by rewrite lookup_insert_ne, lookup_alter_ne.
  - assert (b_indexes (set_log l' b) !! name = None) as ->.
    { apply eq_None_not_Some. rewrite (bucket_ok_dom _ _ _ _ Hok1), Hq. by intros [? ?]. }
    eexists _, _. split; [done|]. split; [|done].
    replace (alter (.++ it :: items) name q) with q; [done|].
    apply map_eq. intros f. destruct (decide (name = f)) as [<-|].
    + by rewrite lookup_alter_eq, Hq.
    + by rewrite lookup_alter_ne.
Qed.
(** ** Read *)

(** A callback that notes the items it is called with and returns [op]. *)
Definition note {B} (op : ReadOp) (items : Items) : M (B * list Items) ReadOp :=
  modify (λ s, (s.1, s.2 ++ [items])) ;; mret op.

Definition upd_fst (b' : bucket T) (s : bucket T * list Items) : bucket T * list Items := (b', s.2).

(** What is left of a queue after reading [out] from it with [op]. *)
Definition after_read (op : ReadOp) (f : ForkName) (rest : Items) q : gmap ForkName Items :=
  match op with ReadOpPeek => q | ReadOpPop => <[f := rest]> q end.

(** What other files say does not matter. *)
Lemma bucket_ok_frame b os os' q :
  (∀ name, os_fs os' !! Join (b_dir b) name = os_fs os !! Join (b_dir b) name) → bucket_ok b os q → bucket_ok b os' q.
Proof.
  intros Hsame [[Hr Ht Hf] Hp Hforks Hun]. split; [|done| |done].
  - split; try done. unfold read_file in *. by rewrite Hp in *; rewrite Hsame.
  - intros f. destruct (Hforks f) as [idx its [Hh [Hwf Ho Hper] Hpath Hlen]|]; constructor. split; try done.
    split; try done. eapply persisted_frame; [|done]. rewrite Hpath. apply Hsame.
Qed.

(** The pop of a consumer, after the callback may have added the batches
    [extra] to its index. *)
Lemma pop_ok_bucket b b1 os1 q1 f idx idx1 its1 iters rest extra :
  readable (b_log b) → wf_index (bi_Mem idx) → merged b (bi_Mem idx) iters rest →
  bucket_ok b1 os1 q1 → q1 !! f = Some its1 → b_indexes b1 !! f = Some idx1 → os_faults os1 = [] →
  (∀ k, lst (bi_Mem idx1) k = lst (bi_Mem idx) k ++ at_key k extra.*1) → batches (b_log b1) extra →
  (∀ loc its, loc_ok (b_log b) loc its → loc_ok (b_log b1) loc its) →
  Z.of_nat (length (rest ++ concat extra.*2)) < 2 ^ 32 →
  ∃ b' os', popSync f (default [] iters) b1 os1 = (Ok tt, b', os') ∧
    bucket_ok b' os' (<[f := rest ++ concat extra.*2]> q1) ∧ os_faults os' = [] ∧
    b_log b' = b_log b1 ∧ b_dir b' = b_dir b1 ∧ b_key b' = b_key b1 ∧
    only_files (eq (idxPath (b_dir b1) f)) os1 os' ∧
    logs_queue (idxPath (b_dir b1) f) (Z.of_nat (length rest)) its1 (rest ++ concat extra.*2) os1 os'.
Proof.
  intros Hl Hwf Hm Hok1 Hq1 Hidx1 Hno1 Hlst Hextra Hgrow Hlen.
  destruct (bucket_ok_lookup _ _ _ _ _ Hok1 Hq1) as (idx' & Hidx' & Hfork). pose proof Hfork as [_ Hst Hpath _]. simplify_eq.
  pose proof Hlen as Hlen'. rewrite length_app in Hlen.
  destruct (own_pop_holds b (b_log b1) (bi_Mem idx) iters rest idx1 os1 extra)
    as (mem & os' & Heq & Hlg & Hh & Hlogs); try done; [lia|].
  destruct (on_index_ok b1 os1 q1 f idx1 its1 _ _ tt mem os' (owns_popSync f _) Hok1 Hq1 Hidx1 Heq Hlg _ Hh) as (b' & -> & Hok' & ->).
  { rewrite length_app. lia. }
  exists (set_indexes (<[f := set_Mem mem idx1]> (b_indexes b1)) b1), os'.
  rewrite Hpath, (fork_ok_Len _ _ _ _ _ _ Hfork), (holds_length _ _ _ Hh Hlen') in Hlogs.
  destruct Hlg as [_ Hof Hno']. rewrite Hpath in Hof. by split_and!.
Qed.

Lemma merged_None b i rest : wf_index i → merged b i None rest → holds (b_log b) i rest.
Proof.
  intros Hwf (added & ps & G & Hlocs & Hb & HG & Ht & Hf & Hrest). cbn in HG.
  destruct G; [|done]. apply origin_first in Hf. symmetry in Hf. apply Permutation_nil_r, fmap_nil_inv, fmap_nil_inv in Hf as ->.
  apply (holds_intro _ _ ps); try done. by rewrite Hlocs.
Qed.

(** What [Read] leaves of the items [its]. *)
Definition kept_items (op : ReadOp) (its rest : Items) : Items :=
  match op with ReadOpPeek => its | ReadOpPop => rest end.

(** [Read] with a callback that does not touch the bucket or its files, though it
    may change others. *)
Lemma BRead_around {St} (view : St → bucket T) upd s os b q f its n op fn (P : Items → St → OS → Prop) :
  view s = b → bucket_ok b os q → q !! f = Some its → 0 < n → os_faults os = [] →
  (∀ out rest, smallest n its out rest → ∃ s1 os1, fn out s os = (Ok op, s1, os1) ∧ P out s1 os1 ∧ view s1 = b ∧
     os_faults os1 = [] ∧ ∀ name, os_fs os1 !! Join (b_dir b) name = os_fs os !! Join (b_dir b) name) →
  ∃ out rest s1 os1 b' s' os', BRead view upd n f fn s os = (Ok tt, s', os') ∧ P out s1 os1 ∧
    (s' = upd b' s1 ∨ s' = s1 ∧ b' = b) ∧
    smallest n its out rest ∧ bucket_ok b' os' (after_read op f rest q) ∧ os_faults os' = [] ∧
    b_log b' = b_log b ∧ b_dir b' = b_dir b ∧ b_key b' = b_key b ∧
    only_files (eq (idxPath (b_dir b) f)) os1 os' ∧
    logs_queue (idxPath (b_dir b) f) (Z.of_nat (length its)) its (kept_items op its rest) os1 os'.
Proof.
  intros Hview Hok Hq Hn Hno Hfn. destruct (bucket_ok_lookup _ _ _ _ _ Hok Hq) as (idx & Hidx & [Hh Hst Hpath Hlen]).
  pose proof (bo_log _ _ _ Hok) as [Hl _ _]. pose proof Hh as [Hwf _].
  destruct (peek_holds b Hl (bi_Mem idx) its n [] Hh) as (iters & out & rest & Hpeek & Hsm & Hm); [lia..|].
  destruct (Hfn out rest Hsm) as (s1 & os1 & Hout & HP & Hview' & Hno1 & Hfs). apply (bucket_ok_frame b os os1) in Hok; [|done].
  destruct (bucket_ok_lookup _ _ _ _ _ Hok Hq) as (idx1 & Hidx1 & [_ Hst1 _ _]). assert (idx1 = idx) as -> by congruence.
  exists out, rest, s1, os1.
  assert (length rest ≤ length its)%nat as Hle.
  { destruct Hsm as [Hp _ _ _]. apply Permutation_length in Hp. rewrite length_app in Hp. lia. }
  unfold BRead. replace (n <=? 0) with false by lia. run. rewrite Hview. unfold idxForFork.
  rewrite Hidx, Hpeek. cbn [app]. rewrite Hout.
  assert (logs_queue (idxPath (b_dir b) f) (Z.of_nat (length its)) its its os1 os1) as Hsame.
  { eapply logs_mono; [|by apply logs_same]. lia. }
  destruct op; cbn [after_read kept_items].
  { exists b, s1, os1. destruct iters; (split_and!; try done; by right). }
  destruct iters as [iters|].
  - destruct (pop_ok_bucket b b os1 q f idx idx its (Some iters) rest [])
      as (b' & os' & Heq & Hok' & Hno' & Hlog' & Hdir' & Hkey' & Hof & Hlogs);
      try done; [intros k; by rewrite app_nil_r|constructor|rewrite app_nil_r; lia|].
    change (default [] (Some iters)) with iters in Heq. rewrite Hview', Heq.
    exists b', (upd b' s1), os'. split; [done|]. split; [done|]. split; [by left|]. cbn in Hok'. rewrite app_nil_r in Hok'.
    rewrite app_nil_r in Hlogs. split_and!; try done. eapply logs_mono; [|done]. lia.
  - exists b, s1, os1. split; [done|]. split; [done|]. split; [by right|]. split; [done|].
    assert (length rest = length its) as Hsize.
    { apply merged_None in Hm; [|done]. apply holds_length in Hm; [|lia]. rewrite (holds_length _ _ _ Hh Hlen) in Hm. lia. }
    split; [|split_and!; try done; unfold logs_queue in *; by rewrite Hsize]. destruct Hok as [Hlog Hp Hforks Hun].
    split; try done. intros f'. destruct (decide (f = f')) as [<-|Hne].
    + rewrite lookup_insert_eq, Hidx. constructor. split; try done; [by apply merged_None|lia].
    + rewrite lookup_insert_ne by done. apply Hforks.
Qed.

(** [Read] with a callback that changes no file at all. *)
Lemma BRead_spec {St} (view : St → bucket T) upd s os b q f its n op fn (g : Items → St) :
  view s = b → bucket_ok b os q → q !! f = Some its → 0 < n → os_faults os = [] →
  (∀ items, fn items s os = (Ok op, g items, os) ∧ view (g items) = b) →
  ∃ out rest b' s' os', BRead view upd n f fn s os = (Ok tt, s', os') ∧
    (s' = upd b' (g out) ∨ s' = g out ∧ b' = b) ∧
    smallest n its out rest ∧ bucket_ok b' os' (after_read op f rest q) ∧ os_faults os' = [] ∧
    b_log b' = b_log b ∧ b_dir b' = b_dir b ∧ b_key b' = b_key b ∧
    only_files (eq (idxPath (b_dir b) f)) os os' ∧
    logs_queue (idxPath (b_dir b) f) (Z.of_nat (length its)) its (kept_items op its rest) os os'.
Proof.
  intros Hview Hok Hq Hn Hno Hfn.
  destruct (BRead_around view upd s os b q f its n op fn (λ out s1 os1, s1 = g out ∧ os1 = os) Hview Hok Hq Hn Hno)
    as (out & rest & ? & ? & b' & s' & os' & Heq & [-> ->] & Hrest).
  { intros out rest _. destruct (Hfn out). by exists (g out), os. }
  by exists out, rest, b', s', os'.
Qed.

(** C20. [Read] hands the [n] smallest items of the consumer (all, if there are
    fewer) to the callback, in ascending order of the keys and in a single
    call.  When the callback returns [ReadOpPop], exactly the other items
    remain, in memory and on disk; when it returns [ReadOpPeek], nothing
    changes.  Other consumers are never affected, as long as the indexes share no
    array that is still appended to (which a [Fork] can make them do). *)
Theorem BRead_queue b os q f its n op :
  bucket_ok b os q → q !! f = Some its → 0 < n → os_faults os = [] →
  ∃ out rest b' os', BRead fst upd_fst n f (note op) (b, []) os = (Ok tt, (b', [out]), os') ∧
    smallest n its out rest ∧ bucket_ok b' os' (after_read op f rest q) ∧ os_faults os' = [].
Proof.
  intros Hok Hq Hn Hno.
  destruct (BRead_spec fst upd_fst (b, []) os b q f its n op (note op) (λ items, (b, [items])) eq_refl Hok Hq Hn Hno)
    as (out & rest & b' & s' & os' & Heq & Hs & Hsm & Hok' & Hno' & _); [done|].
  exists out, rest, b', os'. split; [|done]. rewrite Heq. by destruct Hs as [->|[-> ->]].
Qed.

(** C31. Pushing inside of a read transaction: when the callback pushes a batch
    to the bucket before it returns [ReadOpPop], the items that were read are
    gone, and the consumer as well as all the others have the new batch.  The
    indexes share no array that is still appended to. *)
Theorem BRead_push_inside b os q f its n items :
  bucket_ok b os q → q !! f = Some its → 0 < n → os_faults os = [] →
  items ≠ [] → sorted_items items → Forall valid_item items →
  log_size (b_log b) + storages items ≤ 2 ^ 61 →
  (∀ f its, q !! f = Some its → Z.of_nat (length (its ++ items)) < 2 ^ 32) →
  ∃ out rest b' os',
    BRead (λ b, b) (λ b' _, b') n f (λ _, BPush items true "" ;; mret ReadOpPop) b os = (Ok tt, b', os') ∧
    smallest n its out rest ∧ bucket_ok b' os' (<[f := rest ++ items]> ((.++ items) <$> q)) ∧
    os_faults os' = [].
Proof.
  intros Hok Hq Hn Hno Hne Hs Hval Hmax Hsize.
  destruct (bucket_ok_lookup _ _ _ _ _ Hok Hq) as (idx & Hidx & [Hh Hst Hpath Hlen]).
  pose proof (bo_log _ _ _ Hok) as [Hl _ _]. pose proof Hh as [Hwf _].
  destruct (peek_holds b Hl (bi_Mem idx) its n [] Hh) as (iters & out & rest & Hpeek & Hsm & Hm); [lia..|].
  destruct (BPush_all_holds b os q items "" Hok Hne Hs Hval Hno Hmax Hsize)
    as (b1 & os1 & loc & Hpush & Hok1 & Hno1 & Hidxs & Hloc & Hgrow & _).
  assert (Z.of_nat (length (rest ++ items)) < 2 ^ 32) as Hrest.
  { destruct Hsm as [Hp _ _ _]. apply Permutation_length in Hp. specialize (Hsize f its Hq).
    rewrite length_app in *. lia. }
  assert (((.++ items) <$> q) !! f = Some (its ++ items)) as Hq1 by (by rewrite lookup_fmap, Hq).
  assert (b_indexes b1 !! f = Some (with_loc loc idx)) as Hidx1 by (by rewrite Hidxs, lookup_fmap, Hidx).
  exists out, rest. unfold BRead. replace (n <=? 0) with false by lia. run.
  unfold idxForFork. rewrite Hidx, Hpeek. cbn [app]. rewrite Hpush. destruct iters as [iters|].
  - destruct (pop_ok_bucket b b1 os1 ((.++ items) <$> q) f idx (with_loc loc idx) (its ++ items) (Some iters)
      rest [(loc, items)]) as (b' & os' & Heq & Hok' & Hno' & _); try done.
    + intros k. unfold with_loc. cbn [bi_Mem set_Mem]. by rewrite lst_Set.
    + by apply Forall_singleton.
    + cbn. by rewrite app_nil_r.
    + change (default [] (Some iters)) with iters in Heq. rewrite Heq. exists b', os'. split; [done|].
      cbn in Hok'. rewrite app_nil_r in Hok'. done.
  - exists b1, os1. split; [done|]. split; [done|]. split; [|done]. destruct Hok1 as [Hlog1 Hp1 Hforks1 Hun1].
    split; try done. intros g. specialize (Hforks1 g). destruct (decide (f = g)) as [<-|Hneg].
    + rewrite lookup_insert_eq. rewrite Hidx1, Hq1 in *. constructor. inversion Hforks1 as [? ? []|]; subst.
      split; try done. apply holds_Set; [|done..]. apply (holds_grow (b_log b)); [done|]. by apply merged_None.
    + by rewrite lookup_insert_ne.
Qed.
End queue.

(** ** Witnesses *)

#[local] Existing Instance Host_tiny.

Definition ex_queue_os : OS := mkOS
  (<[ ["q"] := NDir ]> (<[ ex_path := NFile (log_mmap ex_pushed) ]>
    {[ ex_idx_path := NFile (enc_recs [(mkLocation 3 0 2, mkTrailer 2)]) ]})) [].

Definition ex_queue : gmap ForkName Items := {[ "" := ex_items ]}.

Lemma ex_bucket_ok : bucket_ok ex_bucket ex_queue_os ex_queue.
Proof.
  split.
  - split; [apply ex_pushed_readable|by repeat constructor|vm_compute; reflexivity].
  - done.
  - apply map_Forall2_singleton. split; [apply ex_mem_holds| |done|vm_compute; reflexivity].
    split; [apply wf_Set, wf_empty|done|].
    exists [(mkLocation 3 0 2, mkTrailer 2)], ex_mem. split_and!; [vm_compute; reflexivity| |done|done].
    apply Forall_singleton. unfold valid_loc, is_int64. cbn. lia.
  - apply unshared_unnumbered, map_Forall_singleton. cbn. eapply unnumbered_same; [apply unnumbered_empty|apply same_arrays_Set].
Qed.

Lemma ex_queue_size (items : Items) :
  (length items < 100)%nat →
  ∀ f its, ex_queue !! f = Some its → Z.of_nat (length (its ++ items)) < 2 ^ 32.
Proof.
  intros Hlen f its Hq. unfold ex_queue in Hq. apply lookup_singleton_Some in Hq as [_ <-]. rewrite length_app. cbn. lia.
Qed.

Definition ex_new : Items := [mkItem 4 []].

Lemma ex_new_valid : Forall valid_item ex_new.
Proof. apply Forall_singleton. unfold valid_item, is_int64, blob_len. cbn. lia. Qed.

Lemma ex_new_sorted : sorted_items ex_new.
Proof. repeat constructor. Qed.

Lemma BPush_all_witness :
  ∃ b' os', @BPush _ _ Host_tiny Unix_plain Range_id ex_new true "" ex_bucket ex_queue_os = (Ok tt, b', os') ∧
    bucket_ok b' os' ((.++ ex_new) <$> ex_queue) ∧ os_faults os' = [].
Proof.
  apply (@BPush_all _ _ _ Host_tiny Unix_plain Unix_plain_laws Range_id Range_id_laws);
    [apply ex_bucket_ok|done|apply ex_new_sorted|apply ex_new_valid|done|vm_compute; discriminate
    |apply ex_queue_size; cbn; lia].
Defined.

Lemma BPush_one_witness :
  ∃ b' os', @BPush _ _ Host_tiny Unix_plain Range_id ex_new false "other" ex_bucket ex_queue_os =
      (match ex_queue !! "other" with Some _ => Ok tt | None => Err ENoSuchFork end, b', os') ∧
    bucket_ok b' os' (alter (.++ ex_new) "other" ex_queue) ∧ os_faults os' = [].
Proof.
  apply (@BPush_one _ _ _ Host_tiny Unix_plain Unix_plain_laws Range_id);
    [apply ex_bucket_ok|done|apply ex_new_sorted|apply ex_new_valid|done|vm_compute; discriminate
    |apply ex_queue_size; cbn; lia].
Defined.

Lemma BRead_queue_witness :
  ∃ out rest b' os', @BRead _ _ Host_tiny Unix_plain _ fst upd_fst 1 "" (note ReadOpPop) (ex_bucket, []) ex_queue_os
      = (Ok tt, (b', [out]), os') ∧
    smallest 1 ex_items out rest ∧ bucket_ok b' os' (after_read ReadOpPop "" rest ex_queue) ∧ os_faults os' = [].
Proof.
  apply (@BRead_queue _ _ _ Host_tiny Unix_plain ex_bucket ex_queue_os ex_queue "" ex_items 1 ReadOpPop);
    [apply ex_bucket_ok|reflexivity|lia|reflexivity].
Defined.

Lemma BRead_push_inside_witness :
  ∃ out rest b' os',
    @BRead _ _ Host_tiny Unix_plain _ (λ b, b) (λ b' _, b') 1 ""
      (λ _, @BPush _ _ Host_tiny Unix_plain Range_id ex_new true "" ;; mret ReadOpPop) ex_bucket ex_queue_os
      = (Ok tt, b', os') ∧
    smallest 1 ex_items out rest ∧
    bucket_ok b' os' (<["" := rest ++ ex_new]> ((.++ ex_new) <$> ex_queue)) ∧ os_faults os' = [].
Proof.
  apply (@BRead_push_inside _ _ _ Host_tiny Unix_plain Unix_plain_laws Range_id Range_id_laws);
    [apply ex_bucket_ok|reflexivity|lia|reflexivity|done|apply ex_new_sorted|apply ex_new_valid
    |vm_compute; discriminate|apply ex_queue_size; cbn; lia].
Defined.
