(* ===== verification/BucketForks.v ===== *)
(** * Consumers of a bucket: lengths, forking *)

From S2P Require Import Prelude BTree Os Item Vlog VlogIter Heap Index IndexFile Options Bucket.
From S2P Require Import BucketPeek BucketShare BucketPop BucketQueue.

Section forks.
Context {T : Type → Type} `{BTreeLaws T} `{Host, Unix}.
Implicit Types (b : bucket T) (idx : bucketIndex T) (q : gmap ForkName Items).

(** ** Lengths *)

(** A name is a consumer on both sides or on neither. *)
Lemma bucket_ok_cases b os q f :
  bucket_ok b os q →
  (∃ idx its, b_indexes b !! f = Some idx ∧ q !! f = Some its ∧ fork_ok os (b_dir b) (b_log b) f idx its) ∨
  (b_indexes b !! f = None ∧ q !! f = None).
Proof. intros [_ _ Hf _]. destruct (Hf f) as [idx its Hfork|]; [left|by right]. by exists idx, its. Qed.

Lemma BLen_queue b os q f : bucket_ok b os q → BLen b f = Z.of_nat (length (default [] (q !! f))).
Proof.
  intros Hok. unfold BLen, idxForFork.
  destruct (bucket_ok_cases b os q f Hok) as [(idx & its & -> & -> & Hfork)|[-> ->]]; [|done].
  rewrite (fork_ok_Len _ _ _ _ _ _ Hfork). destruct Hfork. apply int64_id. unfold is_int64. cbn. lia.
Qed.

Lemma Empty_queue b os q f : bucket_ok b os q → Empty b f = true ↔ default [] (q !! f) = [].
Proof.
  intros Hok. unfold Empty, idxForFork.
  destruct (bucket_ok_cases b os q f Hok) as [(idx & its & -> & -> & Hfork)|[-> ->]]; [|done].
  rewrite (fork_ok_Len _ _ _ _ _ _ Hfork), Z.eqb_eq. cbn. destruct its; cbn; [done|]. split; [lia|done].
Qed.

Lemma AllEmpty_queue b os q :
  bucket_ok b os q → AllEmpty b = true ↔ ∀ f its, q !! f = Some its → its = [].
Proof.
  intros Hok. unfold AllEmpty. rewrite forallb_forall. split.
  - intros Hall f its Hq. destruct (bucket_ok_lookup _ _ _ _ _ Hok Hq) as (idx & Hidx & Hfork).
    specialize (Hall (f, idx)). rewrite <- list_elem_of_In, elem_of_map_to_list in Hall.
    specialize (Hall Hidx). cbn in Hall. rewrite (fork_ok_Len _ _ _ _ _ _ Hfork) in Hall.
    destruct its; [done|]. cbn [length] in Hall. lia.
  - intros Hall [f idx] Hin%list_elem_of_In%elem_of_map_to_list. cbn.
    destruct (bucket_ok_cases b os q f Hok) as [(idx' & its & Hidx & Hq & Hfork)|[? ?]]; simplify_eq.
    rewrite (fork_ok_Len _ _ _ _ _ _ Hfork), (Hall f its Hq). done.
Qed.

(** [Len], [Empty] and [AllEmpty] tell the truth: the length of a consumer
    is the number of its items (0 if there is no such consumer), it is empty
    when it has none, and all are when no consumer has any. *)
Theorem BLen_Empty_AllEmpty b os q :
  bucket_ok b os q →
  (∀ f, BLen b f = Z.of_nat (length (default [] (q !! f)))) ∧
  (∀ f, Empty b f = true ↔ default [] (q !! f) = []) ∧
  (AllEmpty b = true ↔ ∀ f its, q !! f = Some its → its = []).
Proof.
  intros Hok. split_and!; intros; [by eapply BLen_queue|by eapply Empty_queue|by eapply AllEmpty_queue].
Qed.

(** ** Forking *)

Lemma holds_live l (i : Index T) its :
  readable l → holds l i its → Z.of_nat (length its) < 2 ^ 32 → live_locs (index_locs i).
Proof.
  intros Hl (_ & ps & <- & Hb & Hits) Hlen. apply Forall_fmap, Forall_forall. intros p Hp.
  unfold batches in Hb. rewrite Forall_forall in Hb. destruct (Hb p Hp) as [Hloc _].
  apply (loc_ok_valid l _ p.2); [done..|]. rewrite Hits in Hlen.
  apply list_elem_of_split in Hp as (ps1 & ps2 & ->). rewrite fmap_app, concat_app in Hlen.
  cbn in Hlen. rewrite !length_app in Hlen. lia.
Qed.

(** A fork to a new name: the file of the new consumer holds the locations of
    the source.  The two share the arrays of their lists, which does not matter
    if the lists have no room left. *)
Lemma BFork_new b os q src dst its :
  bucket_ok b os q → q !! src = Some its → q !! dst = None → os_faults os = [] →
  creatable os (idxPath (b_dir b) dst) →
  no_room src b →
  ∃ idx b' os', b_indexes b !! src = Some idx ∧ BFork src dst b os = (Ok tt, b', os') ∧
    bucket_ok b' os' (<[dst := its]> q) ∧ b' = set_indexes (b_indexes b') b ∧
    read_file os' (idxPath (b_dir b) dst) = Some (enc_recs (numbered 0 (index_locs (bi_Mem idx)))) ∧
    only_files (eq (idxPath (b_dir b) dst)) os os' ∧ os_faults os' = [].
Proof.
  intros Hok Hsrc Hdst Hno Hcr Hfull. pose proof (bo_log _ _ _ Hok) as [Hl _ _].
  destruct (bucket_ok_lookup _ _ _ _ _ Hok Hsrc) as (idx & Hidx & Hfork). pose proof Hfork as [Hh Hst Hpath Hlen].
  assert (b_indexes b !! dst = None) as Hnone.
  { destruct (bucket_ok_cases b os q dst Hok) as [(? & ? & _ & ? & _)|[? _]]; congruence. }
  destruct (WriteIndex_persisted b (bi_Mem idx) (idxPath (b_dir b) dst) os)
    as (os' & Heq & Hper & Hof & Hno' & Hfile); [by destruct Hst|by eapply holds_live|done|done|].
  pose proof (no_room_full _ _ _ Hfull Hidx) as Hroom.
  unfold BFork, idxForFork. run. rewrite Hidx, Hnone, Heq. unfold NewWriter. run.
  rewrite (OpenCreate_existing _ _ _ _ Hno' Hfile). cbn. unfold fork_index. rewrite number_full by done.
  assert (<[src := set_Mem (bi_Mem idx) idx]> (b_indexes b) = b_indexes b) as -> by (destruct idx; by apply insert_id).
  eexists idx, _, os'. split; [done|]. split; [done|].
  split; [|by split_and!]. destruct Hok as [Hlog Hlp Hforks Hun]. split; cbn; [|done| |by eapply unshared_fork].
  - eapply wf_log_frame; [exact Hof| |done]. rewrite Hlp. apply not_eq_sym, idxPath_not_log.
  - intros g. destruct (decide (dst = g)) as [<-|Hne].
    + rewrite !lookup_insert_eq. constructor. destruct Hst as [Hwf _ _]. destruct idx as [w i].
      by destruct i; split.
    + rewrite !lookup_insert_ne by done. destruct (Hforks g) as [idx2 its2 Hg|]; constructor.
      destruct Hg. split; try done. eapply stored_frame; [exact Hof| |done].
      rewrite fk_path. intros Heq'. by apply idxPath_inj in Heq'.
Qed.

(** [Fork] to a new name gives the new consumer the items that the source
    has at that time, in memory and in a file of its own, and leaves all other
    consumers alone; forking to a consumer that exists does nothing, and
    forking from one that does not exist is an error.  The lists of the source
    in memory must have no room left: the new consumer uses their arrays. *)
Theorem BFork_queue b os q src dst :
  bucket_ok b os q → os_faults os = [] →
  (q !! dst = None → creatable os (idxPath (b_dir b) dst)) →
  (q !! dst = None → no_room src b) →
  ∃ b' os', BFork src dst b os =
      (match q !! src with Some _ => Ok tt | None => Err ENoSuchFork end, b', os') ∧
    bucket_ok b' os' (match q !! src, q !! dst with
                      | Some its, None => <[dst := its]> q
                      | _, _ => q
                      end).
Proof.
  intros Hok Hno Hcr Hfull.
  destruct (bucket_ok_cases b os q src Hok) as [(idx & its & Hidx & Hsrc & _)|[Hnone Hsrc]]; rewrite Hsrc.
  - destruct (bucket_ok_cases b os q dst Hok) as [(idx' & its' & Hidx' & Hdst & _)|[_ Hdst]]; rewrite Hdst.
    + exists b, os. unfold BFork, idxForFork. run. by rewrite Hidx, Hidx'.
    + destruct (BFork_new b os q src dst its Hok Hsrc Hdst Hno (Hcr Hdst) (Hfull Hdst)) as (? & b' & os' & _ & ? & ? & _).
      by exists b', os'.
  - exists b, os. unfold BFork, idxForFork. run. by rewrite Hnone.
Qed.
End forks.

(** ** Witnesses *)

#[local] Existing Instance Host_tiny.

Lemma BLen_Empty_AllEmpty_witness :
  (∀ f, BLen ex_bucket f = Z.of_nat (length (default [] (ex_queue !! f)))) ∧
  (∀ f, Empty ex_bucket f = true ↔ default [] (ex_queue !! f) = []) ∧
  (AllEmpty ex_bucket = true ↔ ∀ f its, ex_queue !! f = Some its → its = []).
Proof. exact (BLen_Empty_AllEmpty ex_bucket ex_queue_os ex_queue ex_bucket_ok). Defined.

Lemma BFork_queue_witness :
  ∃ b' os', @BFork _ _ Unix_plain "" "fork" ex_bucket ex_queue_os =
      (match ex_queue !! "" with Some _ => Ok tt | None => Err ENoSuchFork end, b', os') ∧
    bucket_ok b' os' (match ex_queue !! "", ex_queue !! "fork" with
                      | Some its, None => <["fork" := its]> ex_queue
                      | _, _ => ex_queue
                      end).
Proof.
  apply (@BFork_queue _ _ _ Host_tiny Unix_plain ex_bucket ex_queue_os ex_queue "" "fork");
    [apply ex_bucket_ok|reflexivity|intros _; split; vm_compute; reflexivity|].
  intros _. apply (bool_decide_unpack _). by vm_compute.
Defined.
