(* ===== verification/BucketDelete.v ===== *)
(** * Deleting a range of keys from a consumer *)

From S2P Require Import Prelude BTree Os Item Vlog VlogIter Heap Index IndexFile Options Bucket.
From S2P Require Import BucketPeek BucketShare BucketPop BucketQueue BucketForks.

(** ** A sorted batch and a range *)

Section range.
Context (from to : Key).

Definition below (its : Items) : Items := filter (λ it, it_Key it < from) its.

Definition above (its : Items) : Items := filter (λ it, to < it_Key it) its.

Definition inside (its : Items) : Items := filter (λ it, from ≤ it_Key it ∧ it_Key it ≤ to) its.

(** What a deletion of the range leaves. *)
Definition outside (its : Items) : Items := filter (λ it, ¬ (from ≤ it_Key it ∧ it_Key it ≤ to)) its.

Lemma sorted_ge it its : sorted_items (it :: its) → ∀ y, y ∈ its → it_Key it ≤ it_Key y.
Proof. intros [Hle _]%sorted_items_cons y Hy. apply Hle; [by left|done]. Qed.

Lemma sorted_split its :
  from ≤ to → sorted_items its → its = below its ++ inside its ++ above its.
Proof.
  intros Hft Hs. unfold below, inside, above. induction its as [|it its IH]; [done|].
  pose proof (sorted_ge _ _ Hs) as Hge. apply sorted_items_cons in Hs as [_ Hs]. specialize (IH Hs).
  destruct (decide (it_Key it < from)).
  - rewrite (filter_cons_True _ it), !(filter_cons_False _ it) by lia. cbn in IH |- *. by rewrite <- IH.
  - rewrite (filter_cons_False (λ it, it_Key it < from)) by lia.
    rewrite (filter_none (λ it, it_Key it < from)) in * by (intros y Hy; specialize (Hge y Hy); lia).
    destruct (decide (it_Key it ≤ to)).
    + rewrite (filter_cons_True _ it), !(filter_cons_False _ it) by lia. cbn in IH |- *. by rewrite <- IH.
    + rewrite (filter_cons_False (λ it, from ≤ it_Key it ∧ _)), (filter_cons_True _ it) by lia.
      rewrite (filter_none (λ it, from ≤ it_Key it ∧ _)) in *
        by (intros y Hy; specialize (Hge y Hy); lia). cbn in *. by rewrite <- IH.
Qed.

Lemma outside_split its : from ≤ to → outside its ≡ₚ below its ++ above its.
Proof.
  intros Hft. unfold outside, below, above. induction its as [|it its IH]; [done|].
  destruct (decide (it_Key it < from)) as [Hlt|Hge].
  - rewrite !(filter_cons_True _ it), (filter_cons_False _ it) by lia. cbn. by rewrite IH.
  - destruct (decide (it_Key it ≤ to)).
    + rewrite !(filter_cons_False _ it) by lia. done.
    + rewrite (filter_cons_True (λ it, ¬ _)), (filter_cons_False (λ it, it_Key it < from)),
        (filter_cons_True _ it) by lia. rewrite IH. apply Permutation_middle.
Qed.

Lemma outside_length its : (length (outside its) + length (inside its) = length its)%nat.
Proof.
  rewrite <- length_app. apply Permutation_length. unfold outside, inside. rewrite Permutation_app_comm.
  apply (filter_app_complement (λ it, from ≤ it_Key it ∧ it_Key it ≤ to)).
Qed.

Lemma outside_app a b : outside (a ++ b) = outside a ++ outside b.
Proof. apply filter_app. Qed.
End range.

#[global] Instance outside_perm from to : Proper (Permutation ==> Permutation) (outside from to).
Proof. unfold outside. solve_proper. Qed.
#[global] Instance inside_perm from to : Proper (Permutation ==> Permutation) (inside from to).
Proof. unfold inside. solve_proper. Qed.

(** ** One batch *)

Section batch.
Context (l : Log) (Hl : readable l) (from to : Key) (Hft : from ≤ to).

(** [loc] describes a part of a batch, or is empty. *)
Definition part_ok (loc : Location) (its : Items) : Prop :=
  (its = [] ∧ loc_Len loc = 0) ∨ loc_ok l loc its.

Lemma part_ok_Len loc its : part_ok loc its → loc_Len loc = Z.of_nat (length its).
Proof. intros [[-> ->]|[]]; done. Qed.

Lemma delete_scan_next fuel li li' x rest left :
  Next l li = Ok (true, li') → iter_on l li' x rest → sorted_items (x :: rest) →
  (length rest < fuel)%nat → 0 ≤ loc_Len left → loc_Len left + Z.of_nat (length (x :: rest)) < 2 ^ 63 →
  ∃ right, delete_scan (S fuel) l li from to left zero_Location =
    Ok (mkLocation (loc_Key left) (loc_Off left) (loc_Len left + Z.of_nat (length (below from (x :: rest)))), right) ∧
    part_ok right (above to (x :: rest)).
Proof.
  revert fuel li li' x left. induction rest as [|y rest IH]; intros fuel li li' x left Hnext Hon Hs Hf Hpos Hmax;
    cbn [delete_scan]; rewrite Hnext; cbn [mbind res_bind negb]; unfold Iter_Item; rewrite (on_item _ _ _ _ Hon);
    cbn [loc_Len zero_Location]; rewrite Z.eqb_refl, andb_true_r; unfold below, above; cbn [length] in *.
  - destruct fuel as [|fuel]; [lia|].
    destruct (Z.ltb_spec (it_Key x) from), (Z.ltb_spec to (it_Key x)); try lia.
    + rewrite (filter_cons_True _ x), (filter_cons_False _ x) by lia. cbn [delete_scan].
      rewrite (Next_end l _ _ Hon). cbn. exists zero_Location. split; [|by left]. rewrite uint64_id by lia. done.
    + rewrite (filter_cons_False _ x), (filter_cons_True _ x) by lia. eexists. split.
      * cbn. rewrite Z.add_0_r. by destruct left.
      * right. by apply CurrentLocation_ok.
    + rewrite !(filter_cons_False _ x) by lia. cbn [delete_scan]. rewrite (Next_end l _ _ Hon). cbn.
      exists zero_Location. split; [|by left]. rewrite Z.add_0_r. by destruct left.
  - destruct (Next_step l Hl _ _ _ _ Hon) as (li2 & Hnext2 & Hon2 & _).
    pose proof (sorted_ge _ _ Hs) as Hge. apply sorted_items_cons in Hs as [_ Hs].
    destruct fuel as [|fuel]; [lia|].
    destruct (Z.ltb_spec to (it_Key x)) as [Hto|Hto].
    + replace (it_Key x <? from) with false by lia. eexists. split; [|right].
      * rewrite filter_none by (intros z [->|Hz]%elem_of_cons; [lia|specialize (Hge z Hz); lia]).
        cbn. rewrite Z.add_0_r. by destruct left.
      * rewrite filter_all by (intros z [->|Hz]%elem_of_cons; [lia|specialize (Hge z Hz); lia]).
        by apply CurrentLocation_ok.
    + rewrite (filter_cons_False (λ it, to < it_Key it) x) by lia.
      destruct (Z.ltb_spec (it_Key x) from) as [Hfrom|Hfrom].
      * rewrite (filter_cons_True _ x) by lia. rewrite uint64_id by lia.
        destruct (IH fuel li' li2 y (mkLocation (loc_Key left) (loc_Off left) (loc_Len left + 1)))
          as (right & Heq & Hpart); try done; [cbn; lia..|].
        exists right. rewrite Heq. split; [|done]. cbn [loc_Key loc_Off loc_Len length]. unfold below.
        do 3 f_equal. lia.
      * rewrite (filter_cons_False _ x) by lia.
        destruct (IH fuel li' li2 y left) as (right & Heq & Hpart); try done; [lia..|]. by exists right.
Qed.

(** The scan of a batch finds the part below and the part above the range. *)
Lemma delete_scan_batch loc its c :
  loc_ok l loc its → sorted_items its →
  ∃ left right, delete_scan (S (Z.to_nat (log_size l))) l (At loc c) from to
      (mkLocation (loc_Key loc) (loc_Off loc) 0) zero_Location = Ok (left, right) ∧
    part_ok left (below from its) ∧ part_ok right (above to its).
Proof.
  intros Hloc Hs. pose proof Hloc as [Hne Hlen Hkey Hat Hval]. pose proof Hl as [_ Hsz Hm].
  pose proof (sorted_split from to its Hft Hs) as Hsplit.
  destruct its as [|x rest]; [done|].
  destruct (items_at_bounds l _ _ _ Hat) as (_ & _ & Hcount). cbn [length] in Hcount.
  destruct (Next_start l Hl loc (x :: rest) c x rest Hloc eq_refl) as (li & Hnext & Hon & _).
  destruct (delete_scan_next (Z.to_nat (log_size l)) (At loc c) li x rest
    (mkLocation (loc_Key loc) (loc_Off loc) 0)) as (right & Heq & Hpart);
    [done..|lia|cbn; lia|cbn [loc_Len length]; lia|].
  eexists _, right. split; [exact Heq|]. split; [|done]. cbn [loc_Key loc_Off loc_Len].
  destruct (below from (x :: rest)) as [|y ys] eqn:E; [by left|right].
  split; [done|done| | |].
  - rewrite Hsplit in Hkey. exact Hkey.
  - rewrite Hsplit in Hat. by apply items_at_app in Hat as [? _].
  - rewrite Hsplit in Hval. by apply Forall_app in Hval as [? _].
Qed.
End batch.

(** ** The loop over the index

    While the loop runs, the index in memory does not change, but records are
    written: [virtual os p j ks os' j'] says that the file [p] gained the
    records of the batches [ks]. *)

Section loop.
Context {T : Type → Type} `{BTreeLaws T} `{Host, Unix, MapRange}.
Context (b : bucket T) (Hl : readable (b_log b)) (from to : Key) (Hft : from ≤ to).
Abbreviation l := (b_log b).
Implicit Types (w : Writer) (i j : Index T) (d : deletion) (ks ps : list (Location * Items)).

Record on_disk os w j : Prop := {
  od_open : w_open w = true;
  od_persisted : persisted os (w_path w) j;
  od_wf : wf_index j;
  od_faults : os_faults os = [];
}.

Record extended os w j ks os' j' : Prop := {
  ex_disk : on_disk os' w j';
  ex_lst : ∀ k, lst j' k = lst j k ++ at_key k ks.*1;
  ex_frame : only_files (eq (w_path w)) os os';
  ex_logs : ∀ N, ∃ N', logs (w_path w) (sum_len ks.*1) N N' os os' ∧ (ks = [] → N' = N);
}.

Lemma extended_refl os w j : on_disk os w j → extended os w j [] os j.
Proof.
  intros Hd. split; try done; [intros k; by rewrite app_nil_r|]. intros N. exists N. split; [by apply logs_same|done].
Qed.

Lemma extended_trans os w j ks1 os1 j1 ks2 os2 j2 :
  extended os w j ks1 os1 j1 → extended os1 w j1 ks2 os2 j2 → extended os w j (ks1 ++ ks2) os2 j2.
Proof.
  intros [Hd1 Hl1 Hf1 Hg1] [Hd2 Hl2 Hf2 Hg2]. split; [done| |by transitivity os1|].
  - intros k. by rewrite Hl2, Hl1, fmap_app, filter_app, app_assoc.
  - intros N. destruct (Hg1 N) as (N1 & Hlogs1 & Hnil1), (Hg2 N1) as (N' & Hlogs2 & Hnil2). exists N'.
    rewrite fmap_app, sum_len_app. split; [by eapply logs_trans|]. intros [Hk1 Hk2]%app_eq_nil. by rewrite Hnil2, Hnil1.
Qed.

Definition add_parts ks d : deletion :=
  mkDeletion (del_pushErr d) (del_entries d) (del_partial d ++ ks.*1) (del_ndeleted d).

Lemma keep_part_spec w loc its t d os j :
  part_ok l loc its → sorted_items its → Z.of_nat (length its) < 2 ^ 32 → on_disk os w j →
  del_pushErr d = None →
  ∃ ks os' j', keep_part w loc t d os = (Ok tt, add_parts ks d, os') ∧
    batches l ks ∧ concat ks.*2 = its ∧ extended os w j ks os' j'.
Proof.
  intros Hpart Hs Hlen Hd Herr. unfold keep_part. rewrite (part_ok_Len l _ _ Hpart).
  destruct Hpart as [[-> _]|Hloc].
  { exists [], os, j. cbn. split_and!; [|constructor|done|by apply extended_refl].
    unfold add_parts. cbn. rewrite app_nil_r. by destruct d. }
  destruct (loc_ok_valid l loc its Hl Hloc Hlen) as [Hval Hpos].
  replace (0 <? Z.of_nat (length its)) with true by (rewrite <- (loc_ok_Len l _ _ Hloc); lia).
  pose proof Hd as [Ho Hp Hwf Hno]. unfold attempt. run.
  destruct (WPush_persisted (add_parts [(loc, its)] d) w loc (mkTrailer t) os j (Set_ loc j))
    as (os' & Heq & Hp' & Hf & Hno' & Hlogs); try done.
  { unfold Load_step. by replace (loc_Len loc =? 0) with false by lia. }
  unfold add_parts in Heq. cbn [fmap list_fmap fst] in Heq. rewrite Heq.
  exists [(loc, its)], os', (Set_ loc j). split_and!.
  - unfold add_parts. cbn. by rewrite Herr.
  - by apply Forall_singleton.
  - cbn. by rewrite app_nil_r.
  - split; [|intros k; by rewrite lst_Set|done|].
    + split; try done. by apply wf_Set.
    + intros N. exists t. split; [|done]. eapply logs_mono; [|apply Hlogs]. unfold sum_len. cbn. lia.
Qed.

(** The batches the deletion affects. *)
Definition affected (p : Location * Items) : Prop := inside from to p.2 ≠ [].

#[local] Instance affected_dec p : Decision (affected p).
Proof. unfold affected. apply _. Defined.

Definition found ps ks d : deletion :=
  mkDeletion (del_pushErr d) (del_entries d ++ (loc_Key <$> (filter affected ps).*1))
    (del_partial d ++ ks.*1) (del_ndeleted d + Z.of_nat (length (inside from to (concat ps.*2)))).

Lemma delete_loc_spec w n p d os j :
  loc_ok l p.1 p.2 → sorted_items p.2 → loc_Key p.1 ≤ to → Z.of_nat (length p.2) < 2 ^ 32 →
  0 ≤ del_ndeleted d < 2 ^ 62 → del_pushErr d = None → on_disk os w j →
  ∃ ks os' j', delete_loc b w from to n p.1 d os = (Ok true, found [p] ks d, os') ∧
    batches l ks ∧ extended os w j ks os' j' ∧
    concat ks.*2 ≡ₚ if decide (affected p) then outside from to p.2 else [].
Proof.
  intros Hloc Hs Hto Hlen Hn Herr Hd. unfold delete_loc. replace (to <? loc_Key p.1) with false by lia. run.
  unfold logAt. destruct (delete_scan_batch l Hl from to Hft p.1 p.2
    (negb (opt_ErrorMode (b_opts b) =? ErrorModeAbort)) Hloc Hs) as (left & right & -> & Hleft & Hright).
  pose proof (sorted_split from to p.2 Hft Hs) as Hsplit.
  assert (length p.2 = length (below from p.2) + length (inside from to p.2) + length (above to p.2))%nat as Hlens.
  { rewrite Hsplit at 1. rewrite !length_app. lia. }
  assert (sorted_items (below from p.2) ∧ sorted_items (above to p.2)) as [Hsl Hsr].
  { rewrite Hsplit in Hs. apply sorted_items_app in Hs as (? & (_ & ? & _)%sorted_items_app & _). done. }
  rewrite (part_ok_Len l _ _ Hleft), (part_ok_Len l _ _ Hright), (loc_ok_Len l _ _ Hloc).
  rewrite (uint64_id (Z.of_nat (length p.2) - _)), uint64_id, int64_id by (unfold is_int64; lia).
  replace (Z.of_nat (length p.2) - _ - _) with (Z.of_nat (length (inside from to p.2))) by lia.
  assert (concat [p].*2 = p.2) as Hone by (cbn; by rewrite app_nil_r).
  destruct (decide (affected p)) as [Haff|Hun].
  - replace (Z.of_nat (length (inside from to p.2)) =? 0) with false
      by (unfold affected in Haff; destruct (inside from to p.2); [done|cbn; lia]).
    rewrite int64_id by (unfold is_int64; lia).
    set (d1 := mkDeletion _ _ _ _).
    destruct (keep_part_spec w left (below from p.2) (uint64 (n - loc_Len p.1 - loc_Len left)) d1 os j)
      as (ks1 & os1 & j1 & Heq1 & Hb1 & Hc1 & He1); try done; [lia|].
    rewrite (part_ok_Len l _ _ Hleft), (loc_ok_Len l _ _ Hloc) in Heq1. rewrite Heq1.
    destruct (keep_part_spec w right (above to p.2)
      (uint64 (n - uint64 (del_ndeleted (add_parts ks1 d1)))) (add_parts ks1 d1) os1 j1)
      as (ks2 & os2 & j2 & Heq2 & Hb2 & Hc2 & He2); try done; [lia|by destruct He1|].
    rewrite Heq2. exists (ks1 ++ ks2), os2, j2. split_and!.
    + unfold found, add_parts, d1. cbn [del_pushErr del_entries del_partial del_ndeleted].
      rewrite filter_cons_True by done. rewrite Hone, fmap_app, app_assoc. done.
    + by apply Forall_app.
    + by eapply extended_trans.
    + rewrite fmap_app, concat_app, Hc1, Hc2. symmetry. by apply outside_split.
  - assert (inside from to p.2 = []) as Hnil by (destruct (decide (inside from to p.2 = [])); [done|by destruct Hun]).
    rewrite Hnil. cbn [length Z.of_nat Z.eqb]. exists [], os, j. split_and!; [|constructor|by apply extended_refl|done].
    unfold found. rewrite filter_cons_False by done. rewrite Hone, Hnil. cbn.
    rewrite !app_nil_r, Z.add_0_r. by destruct d.
Qed.
Lemma found_app ps1 ps2 ks1 ks2 d : found ps2 ks2 (found ps1 ks1 d) = found (ps1 ++ ps2) (ks1 ++ ks2) d.
Proof.
  unfold found. cbn. rewrite filter_app, !fmap_app, concat_app, !app_assoc. f_equal.
  unfold inside. rewrite filter_app, length_app. lia.
Qed.

(** Batches that start above the range have nothing inside of it. *)
Lemma not_affected ps :
  batches l ps → keys_sorted ps.*1 → (∀ p ps', ps = p :: ps' → to < loc_Key p.1) →
  filter affected ps = [] ∧ inside from to (concat ps.*2) = [].
Proof.
  intros Hb Hk Hfirst.
  assert (∀ p, p ∈ ps → ∀ it, it ∈ p.2 → to < it_Key it) as Habove.
  { intros p Hp it Hit. unfold batches in Hb. rewrite Forall_forall in Hb. destruct (Hb p Hp) as [Hloc Hs].
    pose proof (batch_first b _ _ Hloc Hs it Hit). destruct ps as [|p0 ps]; [by apply elem_of_nil in Hp|].
    specialize (Hfirst p0 ps eq_refl). apply elem_of_cons in Hp as [->|Hp]; [lia|].
    unfold keys_sorted in Hk. cbn in Hk. inversion Hk as [|? ? _ Hf]; subst. rewrite Forall_forall in Hf.
    specialize (Hf (loc_Key p.1)). assert (loc_Key p0.1 ≤ loc_Key p.1); [|lia].
    apply Hf. by apply list_elem_of_fmap_2, list_elem_of_fmap_2. }
  assert (∀ p, p ∈ ps → inside from to p.2 = []) as Hin.
  { intros p Hp. apply filter_none. intros it Hit. specialize (Habove p Hp it Hit). lia. }
  clear Hb Hk Hfirst Habove. induction ps as [|p ps IH]; [done|].
  destruct IH as [IH1 IH2]; [intros q Hq; apply Hin; by right|].
  rewrite filter_cons_False by (unfold affected; rewrite Hin; [by intros ?|by left]).
  split; [done|]. cbn. unfold inside in *. rewrite filter_app, IH2, Hin by (by left). done.
Qed.

Lemma delete_locs_spec w n ps d os j :
  batches l ps → keys_sorted ps.*1 →
  0 ≤ del_ndeleted d → del_ndeleted d + Z.of_nat (length (concat ps.*2)) < 2 ^ 32 →
  del_pushErr d = None → on_disk os w j →
  ∃ ks os' j', each_while (delete_loc b w from to n) ps.*1 d os = (Ok tt, found ps ks d, os') ∧
    batches l ks ∧ extended os w j ks os' j' ∧
    concat ks.*2 ≡ₚ outside from to (concat (filter affected ps).*2).
Proof.
  intros Hb. revert d os j. induction Hb as [|p ps [Hloc Hs] Hb IH]; intros d os j Hk Hn Hmax Herr Hd.
  { exists [], os, j. split_and!; [|constructor|by apply extended_refl|done]. unfold found. cbn.
    rewrite !app_nil_r, Z.add_0_r. by destruct d. }
  cbn [fmap list_fmap each_while]. change (concat (p :: ps).*2) with (p.2 ++ concat ps.*2) in Hmax.
  rewrite length_app in Hmax.
  destruct (decide (to < loc_Key p.1)) as [Hto|Hto].
  - destruct (not_affected (p :: ps)) as [Hnone Hin]; [by constructor|done|by intros ? ? [= <- <-]|].
    exists [], os, j. run.
    assert (delete_loc b w from to n p.1 d os = (Ok false, d, os)) as ->.
    { unfold delete_loc. by replace (to <? loc_Key p.1) with true by lia. }
    rewrite Hnone. split_and!; [|constructor|by apply extended_refl|done].
    unfold found. rewrite Hnone, Hin.
    cbn. rewrite !app_nil_r, Z.add_0_r. by destruct d.
  - destruct (delete_loc_spec w n p d os j) as (ks1 & os1 & j1 & Heq1 & Hb1 & He1 & Hc1); [done..|lia|lia|lia|done|done|].
    run. rewrite Heq1.
    assert (length (inside from to p.2) ≤ length p.2)%nat as Hle by apply length_filter.
    assert (del_ndeleted (found [p] ks1 d) = del_ndeleted d + Z.of_nat (length (inside from to p.2))) as Hnd.
    { unfold found. cbn [del_ndeleted fmap list_fmap concat]. by rewrite app_nil_r. }
    destruct (IH (found [p] ks1 d) os1 j1) as (ks2 & os2 & j2 & Heq2 & Hb2 & He2 & Hc2).
    + unfold keys_sorted in *. cbn in Hk. by inversion Hk.
    + rewrite Hnd. lia.
    + rewrite Hnd. lia.
    + done.
    + by destruct He1.
    + run in Heq2. rewrite Heq2. exists (ks1 ++ ks2), os2, j2. rewrite found_app. split_and!.
      * done.
      * by apply Forall_app.
      * by eapply extended_trans.
      * rewrite fmap_app, concat_app, Hc1, Hc2. destruct (decide (affected p)).
        -- rewrite filter_cons_True by done. cbn [fmap list_fmap concat]. by rewrite outside_app.
        -- by rewrite filter_cons_False.
Qed.

(** ** The deletion of the entries *)

Lemma delete_entry_spec t key idx j os :
  is_int64 key → wf_index (bi_Mem idx) → on_disk os (bi_Log idx) j →
  ∃ m os' j', delete_entry t key idx os = (Ok tt, set_Mem m idx, os') ∧
    wf_index m ∧ on_disk os' (bi_Log idx) j' ∧ only_files (eq (w_path (bi_Log idx))) os os' ∧
    (∀ k, lst m k = (if decide (key = k) then @tail Location else id) (lst (bi_Mem idx) k)) ∧
    (∀ k, lst j' k = (if decide (key = k) then @tail Location else id) (lst j k)) ∧
    ∀ N, logs (w_path (bi_Log idx)) 0 N t os os'.
Proof.
  intros Hkey Hwf [Ho Hp Hwfj Hno]. unfold delete_entry. run.
  destruct (Delete_cases key (bi_Mem idx) Hwf) as (m & -> & Hwf1 & Hm & _).
  destruct (Load_step_spec (mkLocation key 0 0) j Hwfj) as (j' & Hstep & Hwfj' & Hj).
  destruct (WPush_persisted (set_Mem m idx) (bi_Log idx) (mkLocation key 0 0) (mkTrailer t) os j j')
    as (os' & -> & Hp' & Hf & Hno' & Hlogs); try done.
  exists m, os', j'. split_and!; try done; intros k; rewrite ?Hm, ?Hj; unfold step_lst;
    cbn [loc_Key loc_Len]; by repeat case_decide.
Qed.

(** [m] is the index in memory, [j] what the file says, which has more. *)
Lemma delete_entries_spec t (ks : list Key) (A R E : Key → list Location) idx j os :
  Forall is_int64 ks → wf_index (bi_Mem idx) → on_disk os (bi_Log idx) j →
  (∀ k, lst (bi_Mem idx) k = A k ++ R k) → (∀ k, lst j k = A k ++ R k ++ E k) →
  (∀ k, length (A k) = length (filter (eq k) ks)) →
  ∃ m os' j', each_joined (delete_entry t) None ks idx os = (Ok None, set_Mem m idx, os') ∧
    wf_index m ∧ on_disk os' (bi_Log idx) j' ∧ only_files (eq (w_path (bi_Log idx))) os os' ∧
    (∀ k, lst m k = R k) ∧ (∀ k, lst j' k = R k ++ E k) ∧
    ∀ N, logs (w_path (bi_Log idx)) 0 N (match ks with [] => N | _ => t end) os os'.
Proof.
  intros Hks. revert A idx j os. induction Hks as [|key ks Hkey Hks IH]; intros A idx j os Hwf Hd Hm Hj Hlen.
  { assert (∀ k, A k = []) as HA by (intros k; by apply length_zero_iff_nil).
    exists (bi_Mem idx), os, j. destruct idx. split; [done|]. split_and!; try done; [intros k..|intros N].
    - by rewrite Hm, HA.
    - by rewrite Hj, HA.
    - by apply logs_same. }
  destruct (delete_entry_spec t key idx j os Hkey Hwf Hd) as (m1 & os1 & j1 & Heq1 & Hwf1 & Hd1 & Hf1 & Hm1 & Hj1 & Hlogs1).
  cbn [each_joined]. unfold attempt at 1. run. rewrite Heq1.
  assert (∀ k, length (A k) = (length (filter (eq k) ks) + if decide (key = k) then 1 else 0)%nat) as Hlen'.
  { intros k. rewrite Hlen. case_decide.
    - rewrite filter_cons_True by done. by rewrite Nat.add_1_r.
    - rewrite filter_cons_False by done. by rewrite Nat.add_0_r. }
  destruct (IH (λ k, if decide (key = k) then tail (A k) else A k) (set_Mem m1 idx) j1 os1)
    as (m2 & os2 & j2 & Heq & ? & ? & Hf2 & ? & ? & Hlogs2); try done.
  - intros k. cbn [bi_Mem set_Mem]. rewrite Hm1, Hm. specialize (Hlen' k). case_decide; [|done].
    destruct (A k); [cbn in Hlen'; lia|done].
  - intros k. rewrite Hj1, Hj. specialize (Hlen' k). case_decide; [|done].
    destruct (A k); [cbn in Hlen'; lia|done].
  - intros k. specialize (Hlen' k). case_decide; [|by rewrite Hlen', Nat.add_0_r].
    rewrite Nat.add_1_r in Hlen'. destruct (A k); [done|]. by injection Hlen'.
  - cbn [err_of join_opt join_errs omap list_omap id]. exists m2, os2, j2.
    cbn in Heq. run in Heq. split; [exact Heq|]. split_and!; try done; [by transitivity os1|].
    intros N. change 0 with (0 + 0). eapply logs_trans; [apply Hlogs1|]. specialize (Hlogs2 t). by destruct ks.
Qed.
(** ** Everything together *)

Lemma lst_Sets locs i : wf_index i →
  let i' := foldl (λ mem loc, Set_ loc mem) i locs in
  wf_index i' ∧ ∀ k, lst i' k = lst i k ++ at_key k locs.
Proof.
  revert i. induction locs as [|loc locs IH]; intros i Hwf; cbn [foldl].
  - split; [done|]. intros k. by rewrite app_nil_r.
  - destruct (IH (Set_ loc i)) as [Hwf' Hl']; [by apply wf_Set|]. split; [done|]. intros k.
    rewrite Hl', lst_Set, <- app_assoc. by destruct (decide (loc_Key loc = k)) eqn:E;
      [rewrite filter_cons_True by done|rewrite filter_cons_False by done].
Qed.

Lemma affected_prefix k ps :
  (length (at_key k ps.*1) ≤ 1)%nat ∨ (∀ p, p ∈ ps → loc_Key p.1 = k → affected p) ∨
    (∀ p, p ∈ ps → loc_Key p.1 = k → ¬ affected p) →
  at_key k ps.*1 = at_key k (filter affected ps).*1 ++ at_key k (filter (λ p, ¬ affected p) ps).*1.
Proof.
  induction ps as [|p ps IH]; [done|]. intros Hcase. cbn [fmap list_fmap] in *.
  assert (at_key k ps.*1 = at_key k (filter affected ps).*1 ++ at_key k (filter (λ p, ¬ affected p) ps).*1) as IH'.
  { apply IH. destruct Hcase as [Hc|[Hc|Hc]]; [left|right; left|right; right].
    - destruct (decide (loc_Key p.1 = k)); [rewrite filter_cons_True in Hc by done; cbn [length] in Hc; lia|].
      by rewrite filter_cons_False in Hc.
    - intros q Hq. apply Hc. by right.
    - intros q Hq. apply Hc. by right. }
  destruct (decide (affected p)) as [Haff|Hun].
  - rewrite (filter_cons_True affected), (filter_cons_False (λ p, ¬ affected p)) by tauto. cbn [fmap list_fmap].
    destruct (decide (loc_Key p.1 = k)).
    + rewrite !(filter_cons_True _ p.1) by done. cbn [app]. by rewrite IH'.
    + rewrite !(filter_cons_False _ p.1) by done. done.
  - rewrite (filter_cons_False affected), (filter_cons_True (λ p, ¬ affected p)) by tauto. cbn [fmap list_fmap].
    destruct (decide (loc_Key p.1 = k)) as [Hk|Hk]; [|by rewrite !(filter_cons_False _ p.1) by done].
    rewrite !(filter_cons_True _ p.1) by done.
    assert (at_key k (filter affected ps).*1 = []) as Hnil; [|rewrite IH', Hnil; done].
    destruct Hcase as [Hc|[Hc|Hc]].
    + rewrite filter_cons_True in Hc by done. cbn [length] in Hc. rewrite IH', length_app in Hc.
      destruct (at_key k (filter affected ps).*1); [done|cbn in Hc; lia].
    + exfalso. apply Hun, Hc; [by left|done].
    + destruct (at_key k (filter affected ps).*1) as [|loc locs] eqn:E; [done|]. exfalso.
      assert (loc ∈ at_key k (filter affected ps).*1) as Hin by (rewrite E; by left).
      apply list_elem_of_filter in Hin as [Hlk (q & -> & [Hq ?]%list_elem_of_filter)%list_elem_of_fmap].
      eapply Hc; [by right|done|done].
Qed.

(** Under every key, the affected batches come first. *)
Lemma affected_first i ps :
  wf_index i → ps.*1 = index_locs i → batches l ps → (∀ k, k < from → (length (lst i k) ≤ 1)%nat) →
  ∀ k, lst i k = at_key k (filter affected ps).*1 ++ at_key k (filter (λ p, ¬ affected p) ps).*1.
Proof.
  intros Hwf Hps Hb Hshare k. specialize (Hshare k). rewrite <- index_locs_at_key, <- Hps in * by done.
  apply affected_prefix. destruct (decide (k < from)) as [?|Hge]; [left; by apply Hshare|right].
  unfold batches in Hb. rewrite Forall_forall in Hb. destruct (decide (k ≤ to)); [left|right].
  - intros p Hp Hk Hnil. destruct (Hb p Hp) as [[Hne _ Hkey _ _] _].
    destruct p.2 as [|it its]; [done|]. injection Hkey as Hkey.
    unfold inside in Hnil. rewrite filter_cons_True in Hnil by lia. done.
  - intros p Hp Hk Haff. apply Haff. apply filter_none. intros it Hit. destruct (Hb p Hp) as [Hloc Hs].
    pose proof (batch_first b _ _ Hloc Hs it Hit). lia.
Qed.

(** What remains of all batches. *)
Lemma outside_batches ps :
  outside from to (concat ps.*2) ≡ₚ
  concat (filter (λ p, ¬ affected p) ps).*2 ++ outside from to (concat (filter affected ps).*2).
Proof.
  induction ps as [|p ps IH]; [done|]. cbn [fmap list_fmap concat]. rewrite outside_app, IH.
  destruct (decide (affected p)) as [Haff|Hun].
  - rewrite (filter_cons_True affected), (filter_cons_False (λ p, ¬ affected p)) by tauto.
    cbn [fmap list_fmap concat]. rewrite outside_app. by rewrite !app_assoc, (Permutation_app_comm (outside _ _ p.2)).
  - rewrite (filter_cons_False affected), (filter_cons_True (λ p, ¬ affected p)) by tauto.
    cbn [fmap list_fmap concat]. rewrite <- app_assoc. f_equiv.
    assert (inside from to p.2 = []) as Hnil by (destruct (decide (inside from to p.2 = [])); [done|by destruct Hun]).
    unfold outside. rewrite filter_all; [done|]. intros it Hit Hin.
    assert (it ∈ inside from to p.2) as Hi by (apply list_elem_of_filter; tauto). rewrite Hnil in Hi.
    by apply elem_of_nil in Hi.
Qed.

(** Nothing is deleted without an affected batch. *)
Lemma unaffected_inside ps : filter affected ps = [] → inside from to (concat ps.*2) = [].
Proof.
  induction ps as [|p ps IH]; [done|]. destruct (decide (affected p)) as [Ha|Hn]; [by rewrite filter_cons_True|].
  rewrite filter_cons_False by done. intros Hnil. cbn. unfold inside in *. rewrite filter_app, IH, app_nil_r by done.
  destruct (decide (inside from to p.2 = [])) as [|Ha]; [done|by destruct Hn].
Qed.

Lemma batches_nil ks : batches l ks → concat ks.*2 = [] → ks = [].
Proof.
  intros Hb Hnil. destruct ks as [|p ks]; [done|]. unfold batches in Hb. apply Forall_cons in Hb as [[[Hne _ _ _ _] _] _].
  cbn in Hnil. apply app_eq_nil in Hnil as [? _]. done.
Qed.

Lemma affected_batches ps : concat ps.*2 ≡ₚ concat (filter affected ps).*2 ++ concat (filter (λ p, ¬ affected p) ps).*2.
Proof.
  rewrite <- concat_app, <- fmap_app. by rewrite filter_app_complement.
Qed.

Lemma own_delete_spec idx its os :
  stored os idx → holds l (bi_Mem idx) its → os_faults os = [] → Z.of_nat (length its) < 2 ^ 32 →
  (∀ k, k < from → (length (lst (bi_Mem idx) k) ≤ 1)%nat) →
  ∃ mem os', own_delete b from to idx os =
      (Ok (Z.of_nat (length (inside from to its))), set_Mem mem idx, os') ∧
    logged os idx mem os' ∧ holds l mem (outside from to its) ∧
    logs_queue (w_path (bi_Log idx)) (Z.of_nat (length its)) its (outside from to its) os os'.
Proof.
  intros [Hwf Ho Hp] (_ & ps & Hps & Hb & Hits) Hno Hlen Hshare.
  pose proof (affected_first _ ps Hwf Hps Hb Hshare) as Hfirst.
  assert (length its = length (concat ps.*2)) as Hlens by (by rewrite Hits).
  set (d0 := mkDeletion None [] [] 0).
  destruct (delete_locs_spec (bi_Log idx) (Len (bi_Mem idx)) ps d0 os (bi_Mem idx))
    as (ks & os1 & j1 & Heq1 & Hb1 & [Hd1 Hl1 Hf1 Hg1] & Hc1); try done.
  { rewrite Hps. by apply index_locs_sorted. }
  { cbn [del_ndeleted d0]. lia. }
  unfold own_delete. run. rewrite for_locs_index, <- Hps by done. fold d0. rewrite Heq1.
  destruct (delete_entries_spec (uint64 (Len (bi_Mem idx) - uint64 (del_ndeleted (found ps ks d0))))
    (loc_Key <$> (filter affected ps).*1) (λ k, at_key k (filter affected ps).*1)
    (λ k, at_key k (filter (λ p, ¬ affected p) ps).*1) (λ k, at_key k ks.*1) idx j1 os1)
    as (m & os2 & j2 & Heq2 & Hwf2 & Hd2 & Hf2 & Hm2 & Hj2 & Hg2); try done.
  { apply Forall_fmap, Forall_fmap, Forall_forall. intros p [_ Hin]%list_elem_of_filter.
    unfold batches in Hb. rewrite Forall_forall in Hb. destruct (Hb p Hin) as [[Hne _ Hkey _ Hval] _].
    destruct p.2 as [|it its0]; [done|]. apply Forall_cons in Hval as [[Hk _] _]. cbn. by injection Hkey as <-. }
  { intros k. by rewrite Hl1, Hfirst, <- app_assoc. }
  { intros k. apply length_at_key. }
  cbn [found d0 del_pushErr del_entries del_partial del_ndeleted app] in Heq2 |- *. rewrite Heq2.
  destruct (lst_Sets ks.*1 m Hwf2) as [Hwf3 Hl3]. cbn [bi_Mem set_Mem].
  set (mem := foldl _ m ks.*1) in *. pose proof Hd2 as [_ Hp2 _ Hno2].
  assert (attempt (idx ← get; WSync (bi_Log (T := T) idx) false) (set_Mem mem (set_Mem m idx)) os2
    = (Ok (inr tt), set_Mem mem (set_Mem m idx), os2)) as Hsync.
  { unfold attempt, WSync. run. cbn [bi_Log set_Mem]. destruct (w_sync (bi_Log idx)); [|done]. rewrite Ho. by sys_ok. }
  exists mem, os2. run in Hsync. rewrite Hsync. cbn. split; [|split; [|split]].
  - do 3 f_equal. by rewrite Hits.
  - split; [|by transitivity os1|done]. split; try done. apply (persisted_equiv _ _ j2); [|done].
    intros k. by rewrite Hj2, Hl3, Hm2.
  - apply (holds_intro _ _ (filter (λ p, ¬ affected p) ps ++ ks)); [done| | |].
    + apply by_key_perm. intros k. rewrite index_locs_at_key, Hl3, Hm2 by done.
      by rewrite fmap_app, filter_app.
    + apply Forall_app. split; [|done]. unfold batches in Hb. rewrite Forall_forall in Hb |- *.
      intros p [_ Hin]%list_elem_of_filter. by apply Hb.
    + rewrite Hits, outside_batches, fmap_app, concat_app. by rewrite Hc1.
  - pose proof (outside_length from to its) as Hsum. destruct (Hg1 (Z.of_nat (length its))) as (N1 & Hg & Hnil).
    eapply logs_mono; [|eapply logs_trans; [exact Hg|]]; [rewrite (sum_len_batches l), Hc1, Z.add_0_r by done; apply inj_le|].
    { etrans; [apply length_filter|]. rewrite Hlens, (affected_batches ps), length_app. lia. }
    specialize (Hg2 N1). assert (Len (bi_Mem idx) = Z.of_nat (length its)) as Hold.
    { apply (holds_length l); [|done]. split; [done|]. by exists ps. }
    assert (length (inside from to its) = length (inside from to (concat ps.*2))) as Hin by (by rewrite Hits).
    destruct (filter affected ps) as [|p ps'] eqn:Haff.
    + rewrite (unaffected_inside ps Haff) in Hin. cbn in Hin.
      assert (N1 = Z.of_nat (length its)) as -> by (apply Hnil, batches_nil; [done|by apply Permutation_nil_r]).
      cbn [fmap list_fmap] in Hg2. replace (length (outside from to its)) with (length its) by lia. exact Hg2.
    + cbn [fmap list_fmap found d0 del_ndeleted] in Hg2. rewrite Hold, <- Hin, Z.add_0_l, (uint64_id (Z.of_nat _)), uint64_id in Hg2 by lia.
      by replace (Z.of_nat (length (outside from to its))) with (Z.of_nat (length its) - Z.of_nat (length (inside from to its))) by lia.
Qed.
End loop.

(** ** The theorem *)

Section delete.
Context {T : Type → Type} `{BTreeLaws T} `{Host, Unix}.
Implicit Types (b : bucket T) (q : gmap ForkName Items).

Lemma BDelete_spec b os q f its from to :
  bucket_ok b os q → q !! f = Some its → os_faults os = [] → from ≤ to →
  (∀ it, it ∈ its → b_key b ≤ it_Key it) →
  (∀ idx k, b_indexes b !! f = Some idx → k < from → (length (lst (bi_Mem idx) k) ≤ 1)%nat) →
  ∃ b' os', BDelete f from to b os = (Ok (Z.of_nat (length (inside from to its))), b', os') ∧
    bucket_ok b' os' (<[f := outside from to its]> q) ∧ os_faults os' = [] ∧
    b_log b' = b_log b ∧ b_dir b' = b_dir b ∧ b_key b' = b_key b ∧ only_files (eq (idxPath (b_dir b) f)) os os' ∧
    logs_queue (idxPath (b_dir b) f) (Z.of_nat (length its)) its (outside from to its) os os'.
Proof.
  intros Hok Hq Hno Hft Hkey Hshare. unfold BDelete, recoverMmapError. run.
  destruct (Z.ltb_spec to (b_key b)) as [Hlt|Hge].
  { assert (∀ it, it ∈ its → ¬ (from ≤ it_Key it ∧ it_Key it ≤ to)) as Hout
      by (intros it Hit; specialize (Hkey it Hit); lia).
    unfold inside, outside. rewrite filter_none, filter_all by done.
    exists b, os. split; [done|]. rewrite insert_id by done. split_and!; try done. eapply logs_mono; [|by apply logs_same]. lia. }
  replace (to <? from) with false by lia.
  destruct (bucket_ok_lookup _ _ _ _ _ Hok Hq) as (idx & Hidx & [Hh Hst Hpath Hlen]).
  pose proof (bo_log _ _ _ Hok) as [Hl _ _].
  destruct (own_delete_spec b Hl from to Hft idx its os Hst Hh Hno Hlen) as (mem & os' & Heq & Hlg & Hh' & Hlogs).
  { intros k. by apply Hshare. }
  destruct (on_index_ok b os q f idx its _ _ _ mem os'
    (owns_on_index f _ (keeps_own_delete b from to)) Hok Hq Hidx Heq Hlg (outside from to its) Hh')
    as (b' & Hon & Hok' & ->); [pose proof (outside_length from to its); lia|].
  rewrite delete_index_own, Hon by (by eapply bo_unshared || by eexists). eexists _, os'. rewrite Hpath in Hlogs. destruct Hlg as [_ Hof Hno']. rewrite Hpath in Hof. by split_and!.
Qed.

(** [Delete] removes exactly the items with keys from [from] to [to] of the
    consumer, in memory and on disk, and returns their number; other consumers
    are not affected.  This holds for a bucket whose key is not above its items
    and an index in which no two batches that start below [from] have the same
    first key. *)
Theorem BDelete_queue b os q f its from to :
  bucket_ok b os q → q !! f = Some its → os_faults os = [] → from ≤ to →
  (∀ it, it ∈ its → b_key b ≤ it_Key it) →
  (∀ idx k, b_indexes b !! f = Some idx → k < from → (length (lst (bi_Mem idx) k) ≤ 1)%nat) →
  ∃ b' os', BDelete f from to b os = (Ok (Z.of_nat (length (inside from to its))), b', os') ∧
    bucket_ok b' os' (<[f := outside from to its]> q) ∧ os_faults os' = [].
Proof.
  intros Hok Hq Hno Hft Hkey Hshare.
  destruct (BDelete_spec b os q f its from to Hok Hq Hno Hft Hkey Hshare) as (b' & os' & ? & ? & ? & _). by exists b', os'.
Qed.
End delete.

(** *** Witness *)

#[local] Existing Instance Host_tiny.

Lemma BDelete_queue_witness :
  ∃ b' os', @BDelete _ _ Host_tiny Unix_plain "" 4 9 ex_bucket ex_queue_os = (Ok (Z.of_nat (length (inside 4 9 ex_items))), b', os') ∧
    bucket_ok b' os' (<["" := outside 4 9 ex_items]> ex_queue) ∧ os_faults os' = [].
Proof.
  apply (@BDelete_queue _ _ _ Host_tiny Unix_plain);
    [apply ex_bucket_ok|reflexivity|reflexivity|lia| |].
  - intros it Hit. vm_compute in Hit. cbn.
    repeat (apply elem_of_cons in Hit as [->|Hit]; [cbn; lia|]). by apply elem_of_nil in Hit.
  - intros idx k Hidx Hk. vm_compute in Hidx. injection Hidx as <-.
    change (length (lst ex_mem k) ≤ 1)%nat. unfold ex_mem. rewrite lst_Set. cbn [loc_Key].
    case_decide; vm_compute; lia.
Defined.
