(* ===== verification/BucketOpen.v ===== *)
(** * Opening a bucket

    [openBucket] of bucket.go with the loading and the recovery of indexes, and
    the removal of a bucket; and what the loading of an index file gives: the
    items that the file makes reachable, or every item of the log when the file
    is gone, torn, or without a batch. *)

From S2P Require Import Prelude BTree Os Item Vlog VlogIter Index IndexRecover IndexFile Options Bucket.
From S2P Require Import BucketPeek BucketShare BucketPop BucketQueue BucketForks.

Section open.
Context {T : Type → Type} `{BTree T} `{Host, Unix, MapRange}.

(** The messages to the logger are left out. *)
Definition recoverIndexFromLog {St} (log : Log) (idxPath : path) : M St (Index T) :=
  mem ← wrap_err "index load failed & could not regenerate" (lift (FromVlog log));
  wrap_err "index failover: could not remove broken index" (Remove idxPath) ;;
  r ← attempt (WriteIndex mem idxPath);
  match r with
  | inl _ => fail (EInvalid "index: write during recover did not work")
  | inr _ => mret mem
  end.

Definition loadIndex {St} (idxPath : path) (log : Log) (opts : Options) : M St (bucketIndex T) :=
  r ← attempt (Load idxPath);
  mem ← match r with
        | inl _ => recoverIndexFromLog log idxPath
        | inr mem =>
            if (NEntries mem =? 0) && negb (IsEmpty log) then recoverIndexFromLog log idxPath
            else mret mem
        end;
  idxLog ← wrap_err "index writer" (NewWriter idxPath (sync_flag (opt_SyncMode opts) SyncIndex));
  mret (mkBucketIndex idxLog mem).

(** The loop over the forks: [indexes] and [entries]. *)
Fixpoint load_indexes {St} (dir : path) (log : Log) (opts : Options) (forks : list ForkName)
    (indexes : gmap ForkName (bucketIndex T)) (entries : Off)
    : M St (gmap ForkName (bucketIndex T) * Off) :=
  match forks with
  | [] => mret (indexes, entries)
  | fork :: forks =>
      idx ← loadIndex (idxPath dir fork) log opts;
      load_indexes dir log opts forks (<[fork := idx]> indexes) (uint64 (entries + NEntries (bi_Mem idx)))
  end.

Definition filterIsNotExist (e : option error) : option error :=
  match e with
  | Some ENotExist => None
  | _ => e
  end.

(** [filterIsNotExist(os.Remove(p))] *)
Definition remove_quiet {St} (p : path) : M St unit :=
  r ← attempt (Remove p);
  or_fail (filterIsNotExist (err_of r)).

Definition removeBucketDir {St} (dir : path) (forks : list ForkName) : M St unit :=
  err ← each_joined (λ fork, remove_quiet (idxPath dir fork)) None forks;
  datErr ← attempt (remove_quiet (Join dir "dat.log"));
  idxErr ← attempt (remove_quiet (Join dir "idx.log"));
  dirErr ← attempt (remove_quiet dir);
  or_fail (join_errs [err; err_of datErr; err_of idxErr; err_of dirErr]).

(** The fuel bounds the depth of the recursion. *)
Fixpoint openBucket_loop {St} (fuel : nat) (dir : path) (forks : list ForkName) (opts : Options)
    : M St (bucket T) :=
  match fuel with
  | O => lift NoFuel
  | S fuel =>
      MkdirAll dir ;;
      recoverMmapError (
        log ← wrap_err "open" (Open (Join dir "dat.log") (sync_flag (opt_SyncMode opts) SyncData));
        let forks := forks ++ [""] in
        '(indexes, entries) ← load_indexes dir log opts forks ∅ 0;
        key ← lift (KeyFromString (default "/" (last dir)));
        let buck := mkBucket dir key log opts indexes in
        if AllEmpty buck && (0 <? entries) then
          wrap_err "close for reinit" (with_local buck BClose) ;;
          wrap_err "remove for reinit" (removeBucketDir dir forks) ;;
          openBucket_loop fuel dir forks opts
        else mret buck)
  end.

(** A bucket that was removed is empty when it is opened again. *)
Definition openBucket {St} (dir : path) (forks : list ForkName) (opts : Options) : M St (bucket T) :=
  openBucket_loop 2 dir forks opts.

(** [Trailers(fn)], as the list of the arguments of the calls of [fn]. *)
Definition Trailers (b : bucket T) : list (ForkName * Trailer) :=
  omap (λ fork, (λ idx, (fork, Index_Trailer (bi_Mem idx))) <$> b_indexes b !! fork) (range_forks b).
End open.

(** ** The arrays of an opened bucket *)

Section arrays.
Context {T : Type → Type} `{BTreeLaws T} `{Host, Unix, MapRange} {St : Type}.

Lemma yields_recoverIndexFromLog l p : yields (St := St) unnumbered (recoverIndexFromLog (T := T) l p).
Proof.
  apply (yields_bind (λ i : Index T, FromVlog l = Ok i)); [by apply yields_wrap_err, yields_lift|]. intros i Hi.
  apply yields_then. intros _. apply yields_then. intros [e|_]; [by intros s os|].
  apply yields_ret. by eapply FromVlog_unnumbered.
Qed.

Lemma yields_loadIndex p l opts : yields (St := St) (λ idx, unnumbered (bi_Mem (T := T) idx)) (loadIndex p l opts).
Proof.
  apply (yields_bind (λ r, match r with inr i => unnumbered (i : Index T) | inl _ => True end)).
  - intros s os. unfold attempt. pose proof (yields_Load (T := T) p s os) as Hl.
    by destruct (Load p s os) as [[[] ?] ?].
  - intros r Hr. apply (yields_bind unnumbered).
    + destruct r as [e|i]; [apply yields_recoverIndexFromLog|].
      case_match; [apply yields_recoverIndexFromLog|by apply yields_ret].
    + intros i Hi. apply yields_then. intros w. by apply yields_ret.
Qed.

Lemma yields_load_indexes_arrays dir l opts fs (indexes : gmap ForkName (bucketIndex T)) entries :
  map_Forall (λ _ idx, unnumbered (bi_Mem idx)) indexes →
  yields (St := St) (λ ie, map_Forall (λ _ idx, unnumbered (bi_Mem idx)) ie.1) (load_indexes dir l opts fs indexes entries).
Proof.
  revert indexes entries. induction fs as [|f fs IH]; intros indexes entries Hi; cbn [load_indexes]; [by apply yields_ret|].
  apply (yields_bind (λ idx, unnumbered (bi_Mem (T := T) idx))); [apply yields_loadIndex|]. intros idx Hidx.
  apply IH. by apply map_Forall_insert_2.
Qed.

Lemma load_indexes_unshared dir l opts fs entries (s : St) os indexes entries' s' os' b :
  load_indexes (T := T) dir l opts fs ∅ entries s os = (Ok (indexes, entries'), s', os') → b_indexes b = indexes → unshared b.
Proof.
  intros Heq Hb. apply unshared_unnumbered. rewrite Hb.
  exact (yields_Ok _ _ _ _ _ _ _ (yields_load_indexes_arrays dir l opts fs ∅ entries (map_Forall_empty _)) Heq).
Qed.

(** The indexes of a bucket share no arrays when it has been opened. *)
Lemma yields_unshared dir fs opts : yields (St := St) unshared (openBucket (T := T) dir fs opts).
Proof.
  unfold openBucket. generalize 2%nat. intros fuel. revert fs. induction fuel as [|fuel IH]; intros fs; cbn [openBucket_loop]; [by intros s os|].
  apply yields_then. intros _ s os. unfold recoverMmapError.
  match goal with |- context [?m s os] => enough (yields (unshared (T := T)) m) as Hm;
    [specialize (Hm s os); destruct (m s os) as [[[] ?] ?]; exact Hm|] end.
  apply yields_then. intros log. eapply yields_bind; [by apply yields_load_indexes_arrays, map_Forall_empty|].
  intros [indexes entries] Hin. apply yields_then. intros key. case_match.
  - apply yields_then. intros _. apply yields_then. intros _. apply IH.
  - by apply yields_ret, unshared_unnumbered.
Qed.
End arrays.

(** ** The file of a consumer before the bucket is opened *)

Section spec.
Context {T : Type → Type} `{BTreeLaws T} `{Host, Unix, !UnixLaws} `{MapRange, !MapRangeLaws}.
Implicit Types (b : bucket T) (idx : bucketIndex T) (q : gmap ForkName Items) (i j mem : Index T).

(** A log that holds the items [all] and nothing else. *)
Record log_of (l : Log) (all : Items) : Prop := {
  lo_readable : readable l;
  lo_contents : contents l = enc_items all;
  lo_valid : Forall valid_item all;
}.

(** The items of a log from which an index can be recovered. *)
Record recoverable (n : Z) (all : Items) : Prop := {
  rv_first : 0 ≤ it_Key (default zero_Item (head all));
  rv_size : Z.of_nat (length all) < 2 ^ 32;
  rv_weight : Z.of_nat (length all) ≤ n;
}.

(** The index file [p] consists of the records [recs], which are about at most
    [n] items. *)
Record recorded (n : Z) (os : OS) (p : path) (recs : list (Location * Trailer)) : Prop := {
  rc_file : read_file os p = Some (enc_recs recs);
  rc_valid : Forall (λ rc, valid_loc rc.1) recs;
  rc_weight : weight recs ≤ n;
}.

(** The records say how many items there are; nothing is claimed if not [t]. *)
Definition told (t : bool) (recs : list (Location * Trailer)) (its : Items) : Prop :=
  t = true → total_after 0 recs = Z.of_nat (length its).

(** Opening the bucket keeps the items [its] of the consumer with the file [p],
    because the file records a batch, or because nothing was ever pushed. *)
Definition noted (t : bool) (n : Z) (os : OS) (p : path) (its all : Items) : Prop :=
  ∃ recs, recorded n os p recs ∧ (0 < weight recs ∨ its = [] ∧ all = []) ∧ told t recs its.

(** The items that a consumer with the index file [p] has when the bucket is
    opened: those of its index, if the file records any batch; else all items of
    the log.  With [t], the trailer of the file is right before and afterwards. *)
Inductive file_state (t : bool) (n : Z) (os : OS) (l : Log) (all : Items) (p : path) : Items → Prop :=
  | file_kept recs j its :
      recorded n os p recs → 0 < weight recs → replay recs.*1 empty_Index = Ok j → holds l j its →
      Z.of_nat (length its) < 2 ^ 32 → told t recs its → file_state t n os l all p its
  | file_unused recs :
      recorded n os p recs → weight recs = 0 → recoverable n all → told t recs all → (t = true → all = []) →
      file_state t n os l all p all
  | file_torn recs tail :
      read_file os p = Some (enc_recs recs ++ tail) → Forall (λ rc, valid_loc rc.1) recs →
      (0 < length tail < 24)%nat → recoverable n all → t = false → file_state t n os l all p all
  | file_missing : os_fs os !! p = None → recoverable n all → (t = true → all = []) → file_state t n os l all p all.

(** The same contents under another path or in another file system. *)
Lemma recorded_moved n os os' p p' recs :
  os_fs os' !! p' = os_fs os !! p → recorded n os p recs → recorded n os' p' recs.
Proof. intros Hfs [Hf ? ?]. split; try done. unfold read_file in *. by rewrite Hfs. Qed.

Lemma recorded_frame n os os' p recs :
  os_fs os' !! p = os_fs os !! p → recorded n os p recs → recorded n os' p recs.
Proof. apply recorded_moved. Qed.

Lemma noted_frame t n os os' p its all :
  os_fs os' !! p = os_fs os !! p → noted t n os p its all → noted t n os' p its all.
Proof. intros Hfs (recs & Hr & ?). exists recs. split; [by eapply recorded_frame|done]. Qed.

Lemma recorded_mono n m os p recs : n ≤ m → recorded n os p recs → recorded m os p recs.
Proof. intros Hle [? ? ?]. split; try done. lia. Qed.

Lemma file_state_moved t n os os' l all p p' its :
  os_fs os' !! p' = os_fs os !! p → file_state t n os l all p its → file_state t n os' l all p' its.
Proof.
  intros Hfs Hst. assert (read_file os' p' = read_file os p) as Hr by (unfold read_file; by rewrite Hfs).
  destruct Hst as [recs j its Hrec|recs Hrec|recs tail|].
  - apply (recorded_moved _ os os' p p') in Hrec; [|done]. by eapply file_kept.
  - apply (recorded_moved _ os os' p p') in Hrec; [|done]. by eapply file_unused.
  - eapply (file_torn _ _ _ _ _ _ recs tail); try done. by rewrite Hr.
  - apply file_missing; by rewrite ?Hfs.
Qed.

Lemma file_state_frame t n os os' l all p its :
  os_fs os' !! p = os_fs os !! p → file_state t n os l all p its → file_state t n os' l all p its.
Proof. apply file_state_moved. Qed.

Lemma told_mono (t u : bool) recs its : (u = true → t = true) → told t recs its → told u recs its.
Proof. unfold told. auto. Qed.

Lemma noted_mono t u n m os p its all :
  (u = true → t = true) → n ≤ m → noted t n os p its all → noted u m os p its all.
Proof.
  intros Htu Hle (recs & Hr & ? & ?). exists recs. split_and!; [by eapply recorded_mono|done|by eapply told_mono].
Qed.

Lemma file_state_mono t u n m os l all p its :
  (u = true → t = true) → n ≤ m → file_state t n os l all p its → file_state u m os l all p its.
Proof.
  intros Htu Hle Hst. assert (recoverable n all → recoverable m all) as Hrv by (intros [? ? ?]; split; [done|done|lia]).
  destruct Hst as [recs j its Hrec|recs Hrec|recs tail ? ? ? ? ->|].
  - apply (recorded_mono n m) in Hrec; [|done]. apply (file_kept _ _ _ _ _ _ recs j); try done. by eapply told_mono.
  - apply (recorded_mono n m) in Hrec; [|done]. apply (file_unused _ _ _ _ _ _ recs); auto. by eapply told_mono.
  - eapply file_torn; eauto. destruct u; [by discriminate Htu|done].
  - apply file_missing; auto.
Qed.

Lemma parent_exists_frame os os' p :
  (removelast p ≠ [] → os_fs os' !! removelast p = os_fs os !! removelast p) →
  parent_exists os' p = parent_exists os p.
Proof. unfold parent_exists. intros Hfs. destruct (removelast p); [done|]. by rewrite Hfs. Qed.

Lemma removelast_ne (p : path) : p ≠ [] → removelast p ≠ p.
Proof.
  intros Hne Heq. destruct (exists_last Hne) as (d & c & ->). rewrite removelast_last in Heq.
  apply (f_equal length) in Heq. rewrite length_app in Heq. cbn in Heq. lia.
Qed.

(** An index that holds nothing has no locations. *)
Lemma holds_nil_locs l i : holds l i [] → index_locs i = [].
Proof.
  intros (_ & ps & <- & Hb & Hits). destruct ps as [|p ps]; [done|]. apply Permutation_nil in Hits.
  unfold batches in Hb. apply Forall_cons in Hb as [[[Hne _ _ _ _] _] _]. cbn in Hits.
  apply app_eq_nil in Hits as [? _]. done.
Qed.

(** Recovery replaces the file. *)
Lemma recoverIndexFromLog_spec {St} (s : St) t n l all (p : path) data os :
  log_of l all → recoverable n all → (t = true → all = []) → os_fs os !! p = Some (NFile data) → p ≠ [] → parent_exists os p = true →
  os_faults os = [] →
  ∃ mem os', recoverIndexFromLog l p s os = (Ok mem, s, os') ∧ holds l mem all ∧
    persisted os' p mem ∧ only_files (eq p) os os' ∧ os_faults os' = [] ∧ noted t n os' p all all.
Proof.
  intros [Hl Hc Hv] [Hfirst Hlen Hn] Hall Hp Hne Hpar Hno.
  destruct (FromVlog_holds l Hl (T := T) all Hc Hv Hfirst) as (mem & Hrec & Hh).
  unfold recoverIndexFromLog, wrap_err, attempt. run. rewrite Hrec.
  rewrite (Remove_file _ _ data) by done. set (os1 := set_fs _ os).
  assert (live_locs (index_locs mem)) as Hlive by by eapply holds_live.
  destruct (WriteIndex_persisted s mem p os1) as (os' & Heq & Hper & Hof & Hno' & Hfile).
  - by destruct Hh.
  - done.
  - split; [unfold os1; cbn; by rewrite lookup_delete_eq|].
    rewrite <- Hpar. apply parent_exists_frame. intros _. unfold os1. cbn. rewrite lookup_delete_ne; [done|].
    by apply not_eq_sym, removelast_ne.
  - done.
  - rewrite Heq. exists mem, os'. split_and!; try done.
    { transitivity os1; [|done]. split; [|done]. intros r Hr. unfold os1. cbn. by rewrite lookup_delete_ne. }
    assert (all = [] → index_locs mem = []) as Hnil by (intros ->; by apply (holds_nil_locs l)).
    destruct Hh as (_ & ps & Hps & Hb & Hits).
    assert (weight (numbered 0 (index_locs mem)) = Z.of_nat (length all)) as Hw.
    { unfold weight. by rewrite numbered_fst, <- Hps, (sum_len_batches l), Hits. }
    exists (numbered 0 (index_locs mem)). split.
    + split; [done| |lia]. apply (Forall_fmap fst valid_loc). rewrite numbered_fst.
      eapply Forall_impl; [exact Hlive|]. by intros loc [? _].
    + rewrite Hw. split; [destruct all; [by right|left; cbn [length]; lia]|].
      intros Ht%Hall. by rewrite Hnil, Ht.
Qed.

Lemma Load_replays {St} (s : St) n os p recs :
  recorded n os p recs → os_faults os = [] →
  ∃ j, replay recs.*1 empty_Index = Ok j ∧ Load p s os = (Ok j, s, os) ∧ wf_index j ∧ persisted os p j.
Proof.
  intros [Hf Hv _] Hno.
  destruct (Load_records (T := T) s p os recs []) as (j & Hr & Hwf & Heq); try done; [by rewrite app_nil_r|cbn; lia|].
  exists j. rewrite decide_True in Heq by done. split_and!; try done. exists recs, j. by split_and!.
Qed.

(** Loading a file that is missing creates it. *)
Lemma Load_missing {St} (s : St) os (p : path) :
  os_fs os !! p = None → parent_exists os p = true → os_faults os = [] →
  let os1 := set_fs (<[p := NFile []]> (os_fs os)) os in
  Load p s os = (Ok (empty_Index : Index T), s, os1) ∧ recorded 0 os1 p [].
Proof.
  intros Hmiss Hpar Hno os1.
  assert (read_file os1 p = Some []) as Hf1 by (unfold read_file, os1; cbn; by rewrite lookup_insert_eq).
  assert (recorded 0 os1 p []) as Hrec by (split; [done|constructor|done]).
  split; [|done]. destruct (Load_replays s 0 os1 p [] Hrec Hno) as (j & [= <-] & <- & _).
  unfold Load. run. rewrite (OpenCreate_existing s p os1 [] Hno Hf1).
  unfold OpenCreate at 1. sys_ok. by rewrite Hmiss, Hpar.
Qed.

(** Opening the writer of a consumer whose file stands for [mem]. *)
Lemma NewWriter_stored {St} (s : St) (p : path) sync mem os :
  persisted os p mem → wf_index mem → os_faults os = [] →
  NewWriter p sync s os = (Ok (mkWriter p sync true), s, os) ∧
  stored os (mkBucketIndex (mkWriter p sync true) mem).
Proof.
  intros Hper Hwf Hno. pose proof Hper as (recs & j & Hf & _). unfold NewWriter. run.
  rewrite (OpenCreate_existing _ _ _ _ Hno Hf). split; [done|]. by split.
Qed.

(** The outcome of the first half of [loadIndex]. *)
Lemma loadIndex_mem {St} (s : St) t n l all os (p : path) its :
  log_of l all → log_isEmpty l = false → file_state t n os l all p its → n < 2 ^ 63 → p ≠ [] →
  parent_exists os p = true → os_faults os = [] →
  ∃ r mem os1 os', attempt (Load p) s os = (Ok r, s, os1) ∧
    match r with
    | inl _ => recoverIndexFromLog l p s os1
    | inr mem => if (NEntries mem =? 0) && negb (IsEmpty l) then recoverIndexFromLog l p s os1
                 else (Ok mem, s, os1)
    end = (Ok mem, s, os') ∧
    holds l mem its ∧ Z.of_nat (length its) < 2 ^ 32 ∧ persisted os' p mem ∧ only_files (eq p) os os' ∧
    os_faults os' = [] ∧ noted t n os' p its all ∧ (its = all ∨ 0 < NEntries mem ≤ 2 * n).
Proof.
  intros Hlog Hemp Hst Hn Hne Hpar Hno. unfold IsEmpty. rewrite Hemp.
  destruct Hst as [recs j its Hrec Hw Hr Hh Hlen Htold|recs Hrec Hw Hrv Htold Hall|recs tail Hf Hv Ht Hrv ->|Hmiss Hrv Hall].
  - destruct (Load_replays s n os p recs Hrec Hno) as (j' & Hr' & Heq & _ & Hper).
    assert (j' = j) as -> by congruence. pose proof Hrec as [_ Hv Hle].
    exists (inr j), j, os, os. unfold attempt. rewrite Heq.
    assert (NEntries j ≠ 0) as Hz by (rewrite (replay_NEntries recs) by (done || lia); lia).
    pose proof (replay_NEntries_bounds recs j Hv ltac:(lia) Hr).
    replace (NEntries j =? 0) with false by lia. split_and!; try done; [exists recs; split; [done|]; split; [by left|done]|].
    right. lia.
  - destruct (Load_replays s n os p recs Hrec Hno) as (j & Hr & Heq & _ & Hper). pose proof Hrec as [Hf Hv Hle].
    assert (NEntries j = 0) as Hz by (rewrite (replay_NEntries recs) by (done || lia); lia).
    destruct (recoverIndexFromLog_spec s t n l all p _ os Hlog Hrv Hall (read_file_Some _ _ _ Hf)) as (mem & os' & Hrc & ?);
      try done.
    exists (inr j), mem, os, os'. unfold attempt. rewrite Heq, Hz. destruct_and!. destruct Hrv. split_and!; auto.
  - destruct (Load_records (T := T) s p os recs tail) as (j' & _ & _ & Heq); try done; [lia|].
    rewrite decide_False in Heq by (intros ->; cbn in Ht; lia).
    destruct (recoverIndexFromLog_spec s false n l all p _ os Hlog Hrv ltac:(done) (read_file_Some _ _ _ Hf)) as (mem & os' & Hrc & ?);
      try done.
    exists (inl EUnexpectedEOF), mem, os, os'. unfold attempt. rewrite Heq. destruct_and!. destruct Hrv. split_and!; auto.
  - destruct (Load_missing s os p Hmiss Hpar Hno) as [Hload _]. set (os1 := set_fs _ os) in *.
    assert (os_fs os1 !! p = Some (NFile [])) as Hf1 by (unfold os1; cbn; by rewrite lookup_insert_eq).
    destruct (recoverIndexFromLog_spec s t n l all p [] os1 Hlog Hrv Hall Hf1) as (mem & os' & Hrc & ? & ? & Hof & ? & ?); try done.
    { rewrite <- Hpar. apply parent_exists_frame. intros _. unfold os1. cbn. rewrite lookup_insert_ne; [done|].
      by apply not_eq_sym, removelast_ne. }
    exists (inr empty_Index), mem, os1, os'. unfold attempt. rewrite Hload. destruct Hrv. split_and!; try done; [|by left].
    transitivity os1; [|done]. split; [|done]. intros r Hr. unfold os1. cbn. by rewrite lookup_insert_ne.
Qed.

(** The consumer [f] of a bucket that can be closed and opened again. *)
Record fork_safe (t : bool) (n : Z) (all : Items) (os : OS) (dir : path) (l : Log) (f : ForkName) idx (its : Items) : Prop := {
  fs_ok : fork_ok os dir l f idx its;
  fs_noted : noted t n os (idxPath dir f) its all;
}.

Lemma loadIndex_spec {St} (s : St) t n l all os dir opts f its :
  log_of l all → log_isEmpty l = false → file_state t n os l all (idxPath dir f) its → n < 2 ^ 63 →
  parent_exists os (idxPath dir f) = true → os_faults os = [] →
  ∃ idx os', loadIndex (idxPath dir f) l opts s os = (Ok idx, s, os') ∧ fork_safe t n all os' dir l f idx its ∧
    only_files (eq (idxPath dir f)) os os' ∧ os_faults os' = [] ∧ (its = all ∨ 0 < NEntries (bi_Mem idx) ≤ 2 * n).
Proof.
  intros Hlog Hemp Hst Hn Hpar Hno.
  destruct (loadIndex_mem s t n l all os (idxPath dir f) its)
    as (r & mem & os1 & os' & Heq & Hrec & Hh & Hlen & Hper & Hof & Hno' & Hnt & Hent); try done.
  { unfold idxPath, Join. by destruct dir. }
  destruct (NewWriter_stored s (idxPath dir f) (sync_flag (opt_SyncMode opts) SyncIndex) mem os' Hper)
    as [Hw Hstored]; [by destruct Hh|done|].
  exists (mkBucketIndex (mkWriter (idxPath dir f) (sync_flag (opt_SyncMode opts) SyncIndex) true) mem), os'.
  split_and!; try done. unfold loadIndex. run. rewrite Heq. unfold wrap_err.
  destruct r as [e|mem0]; [by rewrite Hrec, Hw|].
  destruct (NEntries mem0 =? 0), (IsEmpty l); cbn [andb negb] in Hrec.
  2: by rewrite Hrec, Hw.
  all: injection Hrec as -> ->; by rewrite Hw.
Qed.

(** ** All consumers *)

Lemma Join_ne dir name : Join dir name ≠ dir.
Proof. unfold Join. intros Heq%(f_equal length). rewrite length_app in Heq. cbn in Heq. lia. Qed.

Lemma idxPath_ne dir f : idxPath dir f ≠ dir.
Proof. apply Join_ne. Qed.

Lemma idxPath_parent os dir f : os_fs os !! dir = Some NDir → parent_exists os (idxPath dir f) = true.
Proof.
  intros Hd. unfold parent_exists, idxPath, Join. rewrite removelast_last. destruct dir; [done|].
  by rewrite bool_decide_eq_true.
Qed.

Lemma fork_ok_frame os os' dir l f g idx its :
  only_files (eq (idxPath dir g)) os os' → f ≠ g → fork_ok os dir l f idx its → fork_ok os' dir l f idx its.
Proof.
  intros Hof Hne [Hh Hst Hp Hlen]. split; try done. eapply stored_frame; [exact Hof| |done].
  rewrite Hp. intros Heq. by apply idxPath_inj in Heq.
Qed.

Lemma fork_safe_frame t n all os os' dir l f g idx its :
  only_files (eq (idxPath dir g)) os os' → f ≠ g → fork_safe t n all os dir l f idx its →
  fork_safe t n all os' dir l f idx its.
Proof.
  intros Hof Hne [Hok Hnt]. split; [by eapply fork_ok_frame|].
  eapply noted_frame; [|done]. apply Hof. intros Heq. by apply idxPath_inj in Heq.
Qed.

Lemma load_indexes_spec {St} (s : St) t n l all dir opts q fs indexes entries os :
  log_of l all → log_isEmpty l = false → n < 2 ^ 63 → NoDup fs → os_fs os !! dir = Some NDir → os_faults os = [] →
  (∀ f, f ∈ fs → ∃ its, q !! f = Some its ∧ file_state t n os l all (idxPath dir f) its) →
  (∀ f, f ∉ fs → option_Forall2 (fork_safe t n all os dir l f) (indexes !! f) (q !! f)) →
  ∃ indexes' entries' os', load_indexes dir l opts fs indexes entries s os = (Ok (indexes', entries'), s, os') ∧
    map_Forall2 (fork_safe t n all os' dir l) indexes' q ∧ only_files (idx_of dir fs) os os' ∧ os_faults os' = [] ∧
    ((∀ f its, f ∈ fs → q !! f = Some its → its ≠ all) → 0 ≤ entries →
     entries + 2 * n * Z.of_nat (length fs) < 2 ^ 64 → entries + Z.of_nat (length fs) ≤ entries').
Proof.
  intros Hlog Hemp Hn Hnd. revert indexes entries os.
  induction Hnd as [|f fs Hf Hnd IH]; intros indexes entries os Hd Hno Hfiles Hdone; cbn [load_indexes].
  { exists indexes, entries, os. split_and!; try done; [intros f; apply Hdone; by apply not_elem_of_nil|cbn; lia]. }
  destruct (Hfiles f ltac:(by left)) as (its & Hq & Hst).
  destruct (loadIndex_spec s t n l all os dir opts f its) as (idx & os1 & Heq & Hfork & Hof & Hno1 & Hent);
    try done; [by apply idxPath_parent|]. run. rewrite Heq.
  destruct (IH (<[f := idx]> indexes) (uint64 (entries + NEntries (bi_Mem idx))) os1)
    as (indexes' & entries' & os' & Heq' & ? & Hof' & ? & Hsum); try done.
  - rewrite <- Hd. apply Hof. apply idxPath_ne.
  - intros g Hg. destruct (Hfiles g ltac:(by right)) as (its' & Hq' & Hst'). exists its'. split; [done|].
    eapply file_state_frame; [|done]. apply Hof. intros Heq'%idxPath_inj. by subst.
  - intros g Hg. destruct (decide (f = g)) as [<-|Hne]; [rewrite lookup_insert_eq, Hq; by constructor|].
    rewrite lookup_insert_ne by done. destruct (Hdone g) as [idx' its' Hok|]; [set_solver| |constructor].
    constructor. by eapply fork_safe_frame.
  - exists indexes', entries', os'. split_and!; try done.
    { transitivity os1; (eapply only_files_mono; [|done]); intros p.
      - intros <-. exists f. split; [by left|done].
      - intros (g & ? & ->). exists g. split; [by right|done]. }
    intros Hall Hz Hmax. cbn [length] in *. destruct Hent as [Heq2|Hent]; [by destruct (Hall f its ltac:(by left) Hq)|].
    rewrite uint64_id in Hsum by nia. enough (entries + NEntries (bi_Mem idx) + Z.of_nat (length fs) ≤ entries') by lia.
    apply Hsum; [|lia|lia]. intros g its' Hg. apply Hall. by right.
Qed.

(** A directory with no files of a bucket in it. *)
Definition bare (os : OS) (dir : path) (fs : list ForkName) : Prop :=
  os_fs os !! Join dir "dat.log" = None ∧ ∀ f, f ∈ fs → os_fs os !! idxPath dir f = None.

(** Files of consumers without a record, next to a new log. *)
Definition blank (os : OS) (dir : path) (f : ForkName) : Prop :=
  os_fs os !! idxPath dir f = None ∨ os_fs os !! idxPath dir f = Some (NFile []).

Lemma load_blank {St} (s : St) l os dir opts f :
  log_isEmpty l = true → os_fs os !! dir = Some NDir → blank os dir f → os_faults os = [] →
  ∃ idx os', loadIndex (idxPath dir f) l opts s os = (Ok idx, s, os') ∧ fork_safe true 0 [] os' dir l f idx [] ∧
    bi_Mem idx = empty_Index ∧ blank os' dir f ∧ only_files (eq (idxPath dir f)) os os' ∧ os_faults os' = [].
Proof.
  intros Hemp Hd Hblank Hno.
  assert (∃ os', Load (idxPath dir f) s os = (Ok empty_Index, s, os') ∧ recorded 0 os' (idxPath dir f) [] ∧
    only_files (eq (idxPath dir f)) os os' ∧ os_faults os' = []) as (os' & Hload & Hrec & Hof & Hno').
  { destruct Hblank as [Hmiss|Hf].
    - destruct (Load_missing s os (idxPath dir f) Hmiss) as [Hload Hrec]; [by apply idxPath_parent|done|].
      eexists. split; [done|]. split; [done|]. split; [|done].
      split; [|done]. intros p Hp. cbn. by rewrite lookup_insert_ne.
    - assert (recorded 0 os (idxPath dir f) []) as Hrec
        by (split; [by unfold read_file; rewrite Hf|constructor|done]).
      destruct (Load_replays s _ os _ _ Hrec Hno) as (j & [= <-] & ? & _). by exists os. }
  destruct (Load_replays s _ os' _ _ Hrec Hno') as (j & [= <-] & _ & Hwf & Hper).
  destruct (NewWriter_stored s (idxPath dir f) (sync_flag (opt_SyncMode opts) SyncIndex) empty_Index os' Hper)
    as [Hw Hstored]; [done..|].
  exists (mkBucketIndex (mkWriter (idxPath dir f) (sync_flag (opt_SyncMode opts) SyncIndex) true) empty_Index), os'.
  split; [|split; [split; [split; try done; apply holds_empty|exists []; split; [done|split; [by right|done]]]|split_and!; try done]].
  2: { right. apply read_file_Some. by destruct Hrec. }
  unfold loadIndex, attempt, IsEmpty, wrap_err. run. rewrite Hload, Hemp.
  change (NEntries (empty_Index : Index T)) with 0. cbn [Z.eqb]. by rewrite Hw.
Qed.

Lemma load_blanks {St} (s : St) l dir opts fs indexes entries os :
  log_isEmpty l = true → os_fs os !! dir = Some NDir → os_faults os = [] → 0 ≤ entries < 2 ^ 64 →
  (∀ f, f ∈ fs → blank os dir f) → (∀ f idx, indexes !! f = Some idx → fork_safe true 0 [] os dir l f idx []) →
  ∃ indexes' os', load_indexes dir l opts fs indexes entries s os = (Ok (indexes', entries), s, os') ∧
    (∀ f idx, indexes' !! f = Some idx → fork_safe true 0 [] os' dir l f idx []) ∧
    (∀ f, is_Some (indexes' !! f) ↔ f ∈ fs ∨ is_Some (indexes !! f)) ∧
    only_files (idx_of dir fs) os os' ∧ os_faults os' = [].
Proof.
  intros Hemp. revert indexes os. induction fs as [|f fs IH]; intros indexes os Hd Hno Hent Hblank Hok;
    cbn [load_indexes].
  { exists indexes, os. split_and!; try done. intros f. rewrite elem_of_nil. naive_solver. }
  destruct (load_blank s l os dir opts f) as (idx & os1 & Heq & Hfork & Hmem & Hbl & Hof & Hno1);
    try done; [apply Hblank; by left|]. run. rewrite Heq, Hmem.
  change (NEntries (empty_Index : Index T)) with 0. rewrite Z.add_0_r, uint64_id by done.
  destruct (IH (<[f := idx]> indexes) os1) as (indexes' & os' & -> & ? & Hdom & Hof' & ?); try done.
  - rewrite <- Hd. apply Hof. apply idxPath_ne.
  - intros g Hg. destruct (decide (f = g)) as [<-|Hne]; [done|]. unfold blank. rewrite (proj1 Hof); [|].
    + apply Hblank. by right.
    + by intros Heq'%idxPath_inj.
  - intros g idx'. destruct (decide (f = g)) as [<-|Hne]; [rewrite lookup_insert_eq; by intros [= <-]|].
    rewrite lookup_insert_ne by done. intros Hg. eapply fork_safe_frame; [done| |by apply Hok]. done.
  - exists indexes', os'. split_and!; try done.
    + intros g. rewrite Hdom, elem_of_cons. destruct (decide (f = g)) as [<-|Hne].
      * rewrite lookup_insert_eq. naive_solver.
      * rewrite lookup_insert_ne by done. naive_solver.
    + transitivity os1; (eapply only_files_mono; [|done]); intros p.
      * intros <-. exists f. split; [by left|done].
      * intros (g & ? & ->). exists g. split; [by right|done].
Qed.
End spec.
