(* ===== verification/BucketFaults.v ===== *)
(** * Buckets when system calls fail

    What [Push] and [Read] leave of a bucket when any of their system calls
    fails: in memory, where the program goes on with the bucket, and in the index
    files, whose last record may be cut off ([appended]).  [serving] is the part
    of [bucket_ok] that does not depend on what is in the index files. *)

From S2P Require Import Prelude BTree Os Item Vlog VlogIter Heap Index IndexFile Options Bucket.
From S2P Require Import BucketPeek BucketShare BucketPop BucketQueue.

(** ** Records that are written one after the other *)

(** The file [p] has got the records of some of the first of [locs], and maybe a
    part of the next one; all of them if [whole]. *)
Definition appended (p : path) (locs : list Location) (whole : Prop) (os os' : OS) : Prop :=
  ∀ data, read_file os p = Some data →
    ∃ recs tail, read_file os' p = Some (data ++ enc_recs recs ++ tail) ∧ recs.*1 `prefix_of` locs ∧
      (length tail < 24)%nat ∧ (whole → recs.*1 = locs ∧ tail = []).

Lemma appended_same p locs os os' : os_fs os' !! p = os_fs os !! p → appended p locs False os os'.
Proof.
  intros Hfs data Hf. exists [], []. unfold read_file in *. rewrite Hfs. cbn. rewrite app_nil_r.
  split_and!; try done; [apply prefix_nil|lia].
Qed.

Lemma appended_none p whole os os' : os_fs os' !! p = os_fs os !! p → appended p [] whole os os'.
Proof.
  intros Hfs data Hf. exists [], []. unfold read_file in *. rewrite Hfs. cbn. rewrite app_nil_r.
  split_and!; try done. lia.
Qed.

Lemma appended_stop p locs locs' (whole : Prop) os os' :
  ¬ whole → appended p locs False os os' → locs `prefix_of` locs' → appended p locs' whole os os'.
Proof.
  intros Hnot Happ Hpre data Hf. destruct (Happ data Hf) as (recs & tail & ? & ? & ? & _). exists recs, tail.
  split_and!; try done. by etransitivity.
Qed.

Lemma appended_cons p loc locs (whole : Prop) os os1 os' :
  appended p [loc] True os os1 → appended p locs whole os1 os' → appended p (loc :: locs) whole os os'.
Proof.
  intros H1 H2 data Hf. destruct (H1 data Hf) as (recs1 & tail1 & Hf1 & _ & _ & [Hr1 ->]); [done|].
  rewrite app_nil_r in Hf1. destruct (H2 _ Hf1) as (recs & tail & Hf2 & Hpre & Ht & Hw).
  exists (recs1 ++ recs), tail. rewrite enc_recs_app, fmap_app, Hr1, <- !app_assoc in *. split_and!; try done.
  - by apply prefix_cons.
  - intros [-> ->]%Hw. done.
Qed.

Lemma appended_impl p locs (whole whole' : Prop) os os' : (whole' → whole) → appended p locs whole os os' → appended p locs whole' os os'.
Proof. intros Hw Happ data Hf. destruct (Happ data Hf) as (recs & tail & ? & ? & ? & ?). exists recs, tail. split_and!; auto. Qed.

Section steps.
Context {T : Type → Type} `{BTreeLaws T} `{Host, Unix}.
Implicit Types (idx : bucketIndex T) (i j : Index T).

(** A write that may fail after some bytes. *)
Lemma WPush_outcome {St} (s : St) w loc t os :
  ∃ r os', WPush w loc t s os = (r, s, os') ∧ (r = Ok tt ∨ ∃ e, r = Err e) ∧
    only_files (eq (w_path w)) os os' ∧ appended (w_path w) [loc] (r = Ok tt) os os'.
Proof.
  destruct (read_file os (w_path w)) as [data|] eqn:Hf.
  - destruct (w_open w) eqn:Ho.
    + destruct (WPush_spec s w loc t os data Ho Hf) as (r & os' & Heq & Hof & Hr & _). exists r, os'.
      split; [done|]. split; [destruct Hr as [[-> _]|[-> _]]; eauto|]. split; [done|]. intros data' Hf'. simplify_eq.
      destruct Hr as [[-> Hf']|[-> [n Hf']]].
      { exists [(loc, t)], []. rewrite Hf', app_nil_r. split_and!; try done; try (cbn; lia). }
      destruct (decide (n < 24)%nat).
      * exists [], (take n (enc_loc loc t)). rewrite Hf', length_take. split_and!; try done; [apply prefix_nil|lia].
      * exists [(loc, t)], []. rewrite Hf', app_nil_r, take_ge by (rewrite length_enc_loc; lia). split_and!; try done; try (cbn; lia).
    + unfold WPush. rewrite Ho. exists (Err EClosed), os. split; [done|]. split; [eauto|]. split; [done|].
      eapply appended_stop; [done|by apply appended_same|done].
  - assert (∀ os', appended (w_path w) [loc] False os os') as Hnone by (intros os' data; by rewrite Hf).
    assert (∀ (P : Prop) os', appended (w_path w) [loc] P os os') as Hany by (intros P os' data; by rewrite Hf).
    unfold WPush. destruct (w_open w); [|exists (Err EClosed), os; split_and!; eauto; done].
    unfold WriteAppend, attempt. run. sys_case r os1; rewrite (read_file_same_fs os os1), Hf by done; run;
      eexists _, _; (split; [done|]); (split; [eauto|]); (split; [|done]); apply only_files_same_fs; try done; tauto.
Qed.

(** What [set_and_log] and the two halves of [popSync_iter] do with a location:
    as when it is read from the file, and then it is written there. *)
Definition log_step (loc : Location) : M (bucketIndex T) unit :=
  idx ← get;
  mem ← lift (Load_step loc (bi_Mem idx));
  put (set_Mem mem idx) ;;
  WPush (bi_Log idx) loc (Index_Trailer mem).

Lemma own_set_step ctx loc idx os :
  loc_Len loc ≠ 0 → wrap_err ctx (own_set loc) idx os = wrap_err ctx (log_step loc) idx os.
Proof.
  intros Hlen. unfold wrap_err, own_set, log_step, Load_step. run. by replace (loc_Len loc =? 0) with false by lia.
Qed.

Lemma log_step_outcome ctx loc idx os :
  wf_index (bi_Mem idx) →
  ∃ r i os', wrap_err ctx (log_step loc) idx os = (r, set_Mem i idx, os') ∧ (r = Ok tt ∨ ∃ e, r = Err e) ∧
    Load_step loc (bi_Mem idx) = Ok i ∧ wf_index i ∧
    only_files (eq (w_path (bi_Log idx))) os os' ∧ appended (w_path (bi_Log idx)) [loc] (r = Ok tt) os os'.
Proof.
  intros Hwf. destruct (Load_step_spec loc (bi_Mem idx) Hwf) as (i & Hstep & Hwfi & _).
  destruct (WPush_outcome (set_Mem i idx) (bi_Log idx) loc (Index_Trailer i) os) as (r & os' & Heq & Hr & Hof & Happ).
  unfold wrap_err, log_step. run. rewrite Hstep, Heq. destruct Hr as [->|[e ->]].
  - exists (Ok tt), i, os'. split_and!; try done. by left.
  - exists (Err (EWrap ctx e)), i, os'. split_and!; try done; [by right; eexists|]. by eapply appended_impl; [|exact Happ].
Qed.

(** The index in memory has taken the first [locs1] of the locations, the file as
    many or one less, or a part of it. *)
Lemma steps_outcome ctx locs idx os :
  wf_index (bi_Mem idx) →
  ∃ r i locs1 os', each (λ loc, wrap_err ctx (log_step loc)) locs idx os = (r, set_Mem i idx, os') ∧
    (r = Ok tt ∧ locs1 = locs ∨ ∃ e, r = Err e) ∧
    locs1 `prefix_of` locs ∧ replay locs1 (bi_Mem idx) = Ok i ∧ wf_index i ∧
    only_files (eq (w_path (bi_Log idx))) os os' ∧ appended (w_path (bi_Log idx)) locs (r = Ok tt) os os'.
Proof.
  revert idx os. induction locs as [|loc locs IH]; intros idx os Hwf; cbn [each].
  { exists (Ok tt), (bi_Mem idx), [], os. destruct idx. split_and!; try done; [by left|].
    intros data Hf. exists [], []. rewrite Hf. cbn. rewrite app_nil_r. split_and!; try done. lia. }
  destruct (log_step_outcome ctx loc idx os Hwf) as (r & i1 & os1 & Heq & Hr & Hstep & Hwf1 & Hof & Happ).
  run. rewrite Heq. destruct Hr as [->|[e ->]].
  - destruct (IH (set_Mem i1 idx) os1 Hwf1) as (r & i & locs1 & os' & -> & Hr & Hpre & Hrep & Hwf' & Hof' & Happ').
    exists r, i, (loc :: locs1), os'. cbn [bi_Mem bi_Log set_Mem] in *. split; [done|]. split.
    { destruct Hr as [[-> ->]|?]; [by left|by right]. }
    split; [by apply prefix_cons|]. split; [cbn [replay]; by rewrite Hstep|]. split; [done|].
    split; [by transitivity os1|]. eapply appended_cons; [|done]. by eapply appended_impl; [|exact Happ].
  - exists (Err e), i1, [loc], os1. split; [done|]. split; [right; eauto|].
    split; [apply prefix_cons, prefix_nil|]. split; [cbn [replay]; by rewrite Hstep|]. split; [done|]. split; [done|].
    eapply appended_stop; [done| |apply prefix_cons, prefix_nil]. by eapply appended_impl; [|exact Happ].
Qed.
End steps.

(** ** Stopping in the middle of a pop *)

(** The locations that [popSync] writes for an iterator. *)
Definition dead li : Location := mkLocation (FirstKey li) 0 0.

Definition pop_locs li : list Location := kept li ++ [dead li].

Lemma each_app {St A} (f : A → M St unit) a b s os : each f (a ++ b) s os = (each f a ;; each f b) s os.
Proof.
  revert s os. induction a as [|x a IH]; intros s os; cbn [each app]; [done|]. unfold mbind, M_bind in *.
  destruct (f x s os) as [[[[]|?| |] s1] os1]; [|done..]. by rewrite IH.
Qed.

Lemma each_one {St A} (f : A → M St unit) x s os : each f [x] s os = f x s os.
Proof. cbn [each]. run. by destruct (f x s os) as [[[[]|?| |] s1] os1]. Qed.

Lemma bind_ext {St A B} (m m' : M St A) (f f' : A → M St B) s os :
  m s os = m' s os → (∀ a s os, f a s os = f' a s os) → (m ≫= f) s os = (m' ≫= f') s os.
Proof. intros Hm Hf. unfold mbind, M_bind. rewrite Hm. destruct (m' s os) as [[[]]]; done || apply Hf. Qed.

Section pop.
Context {T : Type → Type} `{BTreeLaws T} `{Host, Unix}.
Implicit Types (idx : bucketIndex T) (i j : Index T) (li : Iter) (Q : list (Location * Items)).

Abbreviation begun loc := (wrap_err "idxlog: append begun" (log_step loc)).

Lemma Delete_no_error key i e : Delete key i ≠ Err e.
Proof. unfold Delete. by destruct (bt_get key (idx_m i)) as [[|? []]|]. Qed.

Lemma own_iter_steps li idx os :
  Forall (λ loc, loc_Len loc ≠ 0) (kept li) → own_iter li idx os = each (λ loc, begun loc) (pop_locs li) idx os.
Proof.
  intros Hk. unfold pop_locs, own_iter. rewrite each_app. apply bind_ext.
  - unfold own_keep, kept in *. unfold Exhausted. destruct (li_exhausted li); cbn [negb]; [done|].
    rewrite Forall_singleton in Hk. by rewrite each_one, (own_set_step _ _ _ _ Hk).
  - intros _ idx1 os1. rewrite each_one. unfold wrap_err, log_step, Load_step, dead. run. cbn [loc_Len loc_Key].
    change (0 =? 0) with true. cbv iota. destruct (Delete (FirstKey li) (bi_Mem idx1)) as [[? mem]|e| |] eqn:Hdel; try done.
    by apply Delete_no_error in Hdel.
Qed.

Lemma own_iters_steps (hs : Iters) idx os :
  Forall (λ li, Forall (λ loc, loc_Len loc ≠ 0) (kept li)) hs →
  each own_iter hs idx os = each (λ loc, begun loc) (concat (pop_locs <$> hs)) idx os.
Proof.
  intros Hk. revert idx os. induction Hk as [|li hs Hli _ IH]; intros idx os; [done|].
  cbn [each fmap list_fmap concat]. rewrite each_app. apply bind_ext; [by apply own_iter_steps|done].
Qed.

(** The batches [Q] in the order of the index [i]. *)
Record lists (l : Log) i Q : Prop := {
  ls_wf : wf_index i;
  ls_batches : batches l Q;
  ls_lst : ∀ k, lst i k = at_key k Q.*1;
}.

Lemma lists_holds l i Q : lists l i Q → holds l i (items_of Q).
Proof.
  intros [Hwf Hb Hl]. apply (holds_intro _ _ Q); try done. apply by_key_perm. intros k. by rewrite index_locs_at_key, Hl.
Qed.

Lemma lists_Set l i Q p :
  lists l i Q → loc_ok l p.1 p.2 → sorted_items p.2 → loc_Len p.1 ≠ 0 →
  ∃ j, Load_step p.1 i = Ok j ∧ lists l j (Q ++ [p]).
Proof.
  intros [Hwf Hb Hl] Hp Hs Hlen. unfold Load_step. replace (loc_Len p.1 =? 0) with false by lia.
  eexists. split; [done|]. split; [by apply wf_Set| |].
  - apply Forall_app. split; [done|]. by apply Forall_singleton.
  - intros k. by rewrite lst_Set, Hl, fmap_app, filter_app.
Qed.

(** Deleting takes the first batch with the key. *)
Lemma lists_Delete l i Q1 p Q2 loc :
  lists l i (Q1 ++ p :: Q2) → loc_Len loc = 0 → loc_Key loc = loc_Key p.1 → loc_Key p.1 ∉ loc_Key <$> Q1.*1 →
  ∃ j, Load_step loc i = Ok j ∧ lists l j (Q1 ++ Q2).
Proof.
  intros [Hwf Hb Hl] Hlen Hkey Hnot. unfold Load_step. rewrite Hlen. cbn [Z.eqb].
  destruct (Delete_cases (loc_Key loc) i Hwf) as (j & -> & Hwf' & Hl' & _). exists j. split; [done|]. split; [done| |].
  - apply Forall_app in Hb as [Hb1 Hb2]. apply Forall_app. split; [done|]. by apply Forall_cons in Hb2 as [_ ?].
  - intros k. rewrite Hl', Hl, !fmap_app, !filter_app. cbn [fmap list_fmap]. case_decide as Hk.
    + subst k. rewrite Hkey, (filter_none _ (Q1.*1)), filter_cons_True; [done..|].
      intros loc' Hin Heq. apply Hnot. rewrite <- Heq. by apply list_elem_of_fmap_2.
    + by rewrite filter_cons_False by congruence.
Qed.

(** A batch less, for an iterator less. *)
Lemma origin_split A g G :
  origin A (g :: G) → NoDup (loc_Key <$> A.*1) →
  ∃ A1 q A2, A = A1 ++ q :: A2 ∧ li_firstKey g.1 = loc_Key q.1 ∧ g.2 `suffix_of` q.2 ∧
    loc_Key q.1 ∉ loc_Key <$> A1.*1 ∧ origin (A1 ++ A2) G ∧ NoDup (loc_Key <$> (A1 ++ A2).*1).
Proof.
  intros (qs & Hq & Hall) Hnd. inversion Hall as [|? q ? qs' [Hkey Hsuf] Hall']; subst.
  assert (q ∈ A) as (A1 & A2 & ->)%list_elem_of_split by (rewrite <- Hq; by left).
  exists A1, q, A2. rewrite <- Permutation_middle in Hq. apply Permutation_cons_inv in Hq.
  rewrite !fmap_app in *. cbn in Hnd. apply NoDup_app in Hnd as (Hn1 & Hdis & Hn2). apply NoDup_cons in Hn2 as [Hq2 Hn2].
  split_and!; try done.
  - intros Hin. apply (Hdis _ Hin). by left.
  - by exists qs'.
  - apply NoDup_app. split_and!; try done. intros k Hk Hk2. apply (Hdis _ Hk). by right.
Qed.

Lemma origin_left A G : origin A G → left_of G ⊆+ items_of A.
Proof.
  intros (qs & <- & Hall). induction Hall as [|g q G qs [_ Hsuf] _ IH]; [done|]. cbn.
  apply submseteq_app; [|done]. destruct Hsuf as [pre ->]. by apply submseteq_inserts_l.
Qed.

(** What is left of a batch, if anything, is appended to the index. *)
Lemma kept_lists l i Q g :
  lists l i Q → tracks l g.1 g.2 →
  ∃ j, replay (kept g.1) i = Ok j ∧ lists l j (Q ++ kept_batches [g]) ∧ items_of (kept_batches [g]) = g.2 ∧
    Forall (λ loc, loc_Len loc ≠ 0) (kept g.1).
Proof.
  intros HQ Ht. pose proof (kept_batches_items l [g] ltac:(by apply Forall_singleton)) as Hits. cbn in Hits.
  pose proof (kept_batches_ok l [g] ltac:(by apply Forall_singleton)) as Hb. rewrite app_nil_r in Hits.
  unfold kept, kept_batches in *. cbn in *. rewrite app_nil_r in *. destruct (li_exhausted g.1).
  { exists i. rewrite app_nil_r. by split_and!. }
  unfold batches in Hb. rewrite Forall_singleton in Hb. destruct Hb as [Hloc Hs]. pose proof Hloc as [Hne Hlen _ _ _].
  assert (loc_Len (CurrentLocation g.1) ≠ 0) as Hz by (cbn in *; rewrite Hlen; by destruct (g.2)).
  destruct (lists_Set l i Q (CurrentLocation g.1, g.2) HQ Hloc Hs Hz) as (j & Hj & Hl).
  exists j. cbn [replay]. cbn [fst] in Hj. rewrite Hj, Forall_singleton. by split_and!.
Qed.

Lemma prefix_pop_locs li (ls locs : list Location) :
  locs `prefix_of` pop_locs li ++ ls → locs = [] ∨ locs = kept li ∨ ∃ locs', locs = kept li ++ dead li :: locs' ∧ locs' `prefix_of` ls.
Proof.
  unfold pop_locs, kept. destruct (li_exhausted li); cbn.
  - destruct locs as [|x locs]; [by left|]. intros Hpre. pose proof (prefix_cons_inv_1 _ _ _ _ Hpre) as ->.
    apply prefix_cons_inv_2 in Hpre. right. right. by exists locs.
  - destruct locs as [|x locs]; [by left|]. intros Hpre. pose proof (prefix_cons_inv_1 _ _ _ _ Hpre) as ->.
    apply prefix_cons_inv_2 in Hpre. right. destruct locs as [|y locs]; [by left|].
    pose proof (prefix_cons_inv_1 _ _ _ _ Hpre) as ->. apply prefix_cons_inv_2 in Hpre. right. by exists locs.
Qed.

(** Whenever [popSync] stops, everything that was not read is still there; in the
    middle, there may be more. *)
Lemma pop_prefix l G A R j locs :
  Forall (λ g, tracks l g.1 g.2) G → origin A G → NoDup (loc_Key <$> A.*1) → lists l j (A ++ R) →
  locs `prefix_of` concat (pop_locs <$> G.*1) →
  ∃ j' its, replay locs j = Ok j' ∧ holds l j' its ∧ left_of G ++ items_of R ⊆+ its ∧
    its ⊆+ items_of (A ++ R) ++ left_of G ∧
    (locs = concat (pop_locs <$> G.*1) → its ≡ₚ left_of G ++ items_of R).
Proof.
  intros Ht. revert A R j locs. induction Ht as [|g G Hg Ht IH]; intros A R j locs Ho Hnd Hj Hpre; cbn in Hpre.
  { apply prefix_nil_inv in Hpre as ->. exists j, (items_of (A ++ R)). destruct Ho as (qs & Hq & Hall). inversion Hall; subst.
    apply Permutation_nil in Hq as ->. split_and!; try done; [by apply lists_holds|by apply submseteq_inserts_r]. }
  pose proof (origin_left _ _ Ho) as Hleft. destruct (kept_lists l j (A ++ R) g Hj Hg) as (j1 & Hj1 & Hl1 & Hits & _).
  destruct (origin_split A g G Ho Hnd) as (A1 & q & A2 & -> & Hkey & Hsuf & Hnot & Ho' & Hnd').
  assert (left_of (g :: G) ++ items_of R ⊆+ items_of ((A1 ++ q :: A2) ++ R)) as Hall.
  { rewrite (fmap_app _ _ R), concat_app. by apply submseteq_app. }
  apply prefix_pop_locs in Hpre as [->|[->|(locs' & -> & Hpre)]].
  - exists j, (items_of ((A1 ++ q :: A2) ++ R)). split_and!; try done; [by apply lists_holds|by apply submseteq_inserts_r|].
    cbn. unfold pop_locs. intros Heq%(f_equal length). rewrite !length_app in Heq. cbn in Heq. lia.
  - exists j1, (items_of (((A1 ++ q :: A2) ++ R) ++ kept_batches [g])). split_and!; try done; [by apply lists_holds| | |].
    + rewrite (fmap_app _ (_ ++ R)), concat_app. by apply submseteq_inserts_r.
    + rewrite (fmap_app _ (_ ++ R)), concat_app, Hits. cbn. apply submseteq_app; [done|]. by apply submseteq_inserts_r.
    + cbn. unfold pop_locs. intros Heq%(f_equal length). rewrite !length_app in Heq. cbn in Heq. lia.
  - rewrite <- !app_assoc, <- app_comm_cons in Hl1.
    destruct (lists_Delete l j1 A1 q (A2 ++ R ++ kept_batches [g]) (dead g.1)) as (j2 & Hj2 & Hl2); try done.
    destruct (IH (A1 ++ A2) (R ++ kept_batches [g]) j2 locs' Ho' Hnd') as (j' & its & Hrep & Hh & Hsub & Hel & Hfull);
      [by rewrite <- app_assoc|done|].
    assert (left_of (g :: G) ++ items_of R ≡ₚ left_of G ++ items_of (R ++ kept_batches [g])) as Hperm.
    { rewrite fmap_app, concat_app, Hits. cbn. solve_Permutation. }
    exists j', its. split; [by rewrite replay_app, Hj1; cbn [mbind res_bind replay]; rewrite Hj2|].
    split; [done|]. split; [by rewrite Hperm|]. split.
    + rewrite Hel, !fmap_app, !concat_app, Hits. cbn. rewrite <- !app_assoc. apply submseteq_app; [done|].
      rewrite (app_assoc _ (items_of R)). apply submseteq_inserts_l. by rewrite <- app_assoc.
    + cbn. unfold pop_locs. rewrite <- app_assoc. intros [= ->]%app_inv_head. cbn in Hperm. rewrite Hperm. by apply Hfull.
Qed.

(** An index holds one multiset of items. *)
Lemma loc_ok_unique l loc a b : readable l → loc_ok l loc a → loc_ok l loc b → a = b.
Proof.
  intros Hl Ha Hb. destruct (collect_At_holds l Hl loc a false Ha) as (li & Hca & _).
  destruct (collect_At_holds l Hl loc b false Hb) as (li' & Hcb & _).
  assert (length a = length b) as Heq by (destruct Ha, Hb; lia). rewrite Heq in Hca. congruence.
Qed.

Lemma holds_unique l i a b : readable l → holds l i a → holds l i b → a ≡ₚ b.
Proof.
  intros Hl (_ & ps & Hps & Hb & ->) (_ & ps' & Hps' & Hb' & ->). rewrite <- Hps in Hps'. clear Hps.
  revert ps' Hb' Hps'. induction Hb as [|p ps [Hp _] Hb IH]; intros [|p' ps'] Hb' Hps'; [done..|].
  injection Hps' as Heq Hps'. apply Forall_cons in Hb' as [[Hp' _] Hb']. rewrite Heq in Hp'. cbn.
  by rewrite (loc_ok_unique l _ _ _ Hl Hp Hp'), (IH ps').
Qed.

(** What is left of [its] after a pop that may have stopped half way: all that was
    not read, and what was not taken away yet.  What was not read may be there
    twice. *)
Record remains (its rest its' : Items) : Prop := {
  rm_unread : rest ⊆+ its';
  rm_bound : its' ⊆+ its ++ rest;
}.

(** Any number of the first of the locations [locs] can be replayed on [i]. *)
Record popping (l : Log) i its rest (locs : list Location) : Prop := {
  pp_valid : Forall valid_loc locs;
  pp_weight : sum_len locs ≤ Z.of_nat (length rest);
  pp_prefix : ∀ j locs1, idx_equiv i j → wf_index j → locs1 `prefix_of` locs →
    ∃ j' its', replay locs1 j = Ok j' ∧ holds l j' its' ∧ remains its rest its' ∧ (locs1 = locs → its' ≡ₚ rest);
}.

Lemma sum_len_pop_locs (hs : Iters) : sum_len (concat (pop_locs <$> hs)) = sum_len (concat (kept <$> hs)).
Proof.
  induction hs as [|li hs IH]; [done|]. cbn [fmap list_fmap concat]. unfold pop_locs at 1.
  rewrite !sum_len_app, IH. unfold sum_len at 2. cbn. lia.
Qed.

Lemma merged_popping (b : bucket T) i its iters rest :
  readable (b_log b) → holds (b_log b) i its → merged b i iters rest → NoDup (loc_Key <$> index_locs i) →
  Z.of_nat (length rest) < 2 ^ 32 →
  popping (b_log b) i its rest (concat (pop_locs <$> default [] iters)) ∧
    Forall (λ li, Forall (λ loc, loc_Len loc ≠ 0) (kept li)) (default [] iters).
Proof.
  intros Hl Hh (added & ps & G & Hlocs & Hb & Hit & Ht & Ho & Hrest) Hnd Hlen. pose proof Hh as [Hwf _]. rewrite Hit.
  assert (Forall pop_ok G.*1) as Hpop.
  { eapply pop_ok_tracks; try done. rewrite Hrest, length_app in Hlen. lia. }
  assert (items_of (added ++ ps) ≡ₚ its) as Hits.
  { apply (holds_unique (b_log b) i); [done| |done]. split; [done|]. by exists (added ++ ps). }
  split; [split|].
  - apply Forall_concat, Forall_fmap. eapply Forall_impl; [exact Hpop|]. intros li [Hkey Hk]. cbn. unfold pop_locs.
    apply Forall_app. split; [eapply Forall_impl; [exact Hk|]; by intros loc [? _]|]. apply Forall_singleton. split; cbn; [done|lia].
  - rewrite sum_len_pop_locs, <- kept_batches_fst, (sum_len_batches (b_log b)) by by apply kept_batches_ok.
    rewrite (kept_batches_items (b_log b)), Hrest, length_app by done. lia.
  - intros j locs1 Hij Hj Hpre. rewrite Hlocs, fmap_app in Hnd.
    destruct (pop_prefix (b_log b) G added ps j locs1) as (j' & its' & Hrep & Hh' & Hsub & Hel & Hfull); try done.
    + rewrite fmap_app in Hnd. by apply NoDup_app in Hnd as [? _].
    + split; [done|done|]. intros k. by rewrite <- Hij, <- index_locs_at_key, Hlocs.
    + exists j', its'. split_and!; try done; [split; [by rewrite Hrest|]|intros ?; rewrite Hrest; by apply Hfull].
      rewrite <- Hits, Hrest. etransitivity; [exact Hel|]. apply submseteq_app; [done|]. by apply submseteq_inserts_r.
  - eapply Forall_impl; [exact Hpop|]. intros li [_ Hk]. eapply Forall_impl; [exact Hk|]. cbn. intros loc [_ ?]. lia.
Qed.

(** [popSync] with calls that fail. *)
Lemma own_pop_outcome l i its rest iters idx os :
  popping l i its rest (concat (pop_locs <$> iters)) → Forall (λ li, Forall (λ loc, loc_Len loc ≠ 0) (kept li)) iters →
  bi_Mem idx = i → wf_index i →
  ∃ r mem its' os', own_pop iters idx os = (r, set_Mem mem idx, os') ∧
    (r = Ok tt ∧ its' ≡ₚ rest ∨ ∃ e, r = Err e) ∧ holds l mem its' ∧ remains its rest its' ∧
    only_files (eq (w_path (bi_Log idx))) os os' ∧
    appended (w_path (bi_Log idx)) (concat (pop_locs <$> iters)) (r = Ok tt) os os'.
Proof.
  intros Hpp Hk Hmem Hwf. rewrite <- Hmem in Hwf.
  destruct (steps_outcome "idxlog: append begun" (concat (pop_locs <$> iters)) idx os Hwf)
    as (r & mem & locs1 & os1 & Heq & Hr & Hpre & Hrep & _ & Hof & Happ).
  destruct (pp_prefix _ _ _ _ _ Hpp (bi_Mem idx) locs1) as (mem' & its' & Hrep' & Hh & Hrem & Hfull); [by rewrite Hmem|done..|].
  assert (mem' = mem) as -> by congruence. unfold own_pop. case_decide as Hnil.
  { subst iters. cbn in *. apply prefix_nil_inv in Hpre as ->. injection Hrep as <-.
    exists (Ok tt), (bi_Mem idx), its', os. destruct idx. split; [done|]. split; [left; by auto|]. do 3 (split; [done|]).
    intros data Hf. exists [], []. cbn. rewrite app_nil_r. split_and!; try done. lia. }
  run. rewrite own_iters_steps, Heq by done. destruct Hr as [[-> ->]|[e ->]].
  - unfold WSync. cbn [bi_Log set_Mem]. assert (its' ≡ₚ rest) as Hrest by by apply Hfull.
    destruct (negb (w_sync (bi_Log idx)) && negb false).
    { exists (Ok tt), mem, its', os1. split_and!; try done. by left. }
    destruct (w_open (bi_Log idx)).
    2: { exists (Err EClosed), mem, its', os1. split_and!; try done; [by right; eexists|]. by eapply appended_impl; [|exact Happ]. }
    sys_case r2 os2; eexists _, mem, its', os2; (split; [done|]); (split; [by eauto|]); split_and!; try done;
      try (transitivity os1; [done|apply only_files_same_fs; [done|tauto]]).
    all: intros data Hf; destruct (Happ data Hf) as (recs & tail & Hf2 & ? & ? & ?); exists recs, tail;
      rewrite (read_file_same_fs os1 os2) by done; split_and!; try done; auto.
  - exists (Err e), mem, its', os1. split_and!; try done. by right; eexists.
Qed.
End pop.

(** ** A bucket that is in use *)

Section serving.
Context {T : Type → Type} `{BTreeLaws T} `{Host, Unix, !UnixLaws} `{MapRange, !MapRangeLaws}.
Implicit Types (b : bucket T) (idx : bucketIndex T) (q : gmap ForkName Items).

(** The consumer [f], whatever its file says. *)
Record fork_serving (dir : path) (l : Log) (f : ForkName) idx (its : Items) : Prop := {
  sf_holds : holds l (bi_Mem idx) its;
  sf_path : w_path (bi_Log idx) = idxPath dir f;
}.

Record serving b (os : OS) q : Prop := {
  sv_log : wf_log (b_log b) os;
  sv_path : log_path (b_log b) = Join (b_dir b) "dat.log";
  sv_forks : map_Forall2 (fork_serving (b_dir b) (b_log b)) (b_indexes b) q;
  sv_unshared : unshared b;
}.

Lemma bucket_ok_serving b os q : bucket_ok b os q → serving b os q.
Proof. intros [Hl Hp Hf Hun]. split; [done|done| |done]. intros f. destruct (Hf f) as [idx its [? _ ? _]|]; by constructor. Qed.

Lemma serving_lookup b os q f its :
  serving b os q → q !! f = Some its → ∃ idx, b_indexes b !! f = Some idx ∧ fork_serving (b_dir b) (b_log b) f idx its.
Proof. intros [_ _ Hf _] Hq. specialize (Hf f). rewrite Hq in Hf. inversion Hf as [idx its' ?|]; subst. by exists idx. Qed.

(** The index of a consumer has changed, in memory and in its file. *)
Lemma serving_index b os os' q f idx its mem its' :
  serving b os q → q !! f = Some its → b_indexes b !! f = Some idx → only_files (eq (idxPath (b_dir b) f)) os os' →
  holds (b_log b) mem its' → same_mem_arrays idx (set_Mem mem idx) →
  serving (set_indexes (<[f := set_Mem mem idx]> (b_indexes b)) b) os' (<[f := its']> q).
Proof.
  intros Hsv Hq Hidx Hof Hh Hsame. destruct (serving_lookup _ _ _ _ _ Hsv Hq) as (idx' & Hidx' & [_ Hp]). simplify_eq.
  destruct Hsv as [Hl Hpath Hf Hun]. split; cbn; [|done| |by eapply unshared_step].
  - eapply wf_log_frame; [exact Hof| |done]. rewrite Hpath. apply not_eq_sym, idxPath_not_log.
  - intros g. destruct (decide (f = g)) as [<-|Hne]; [rewrite !lookup_insert_eq; by constructor|].
    rewrite !lookup_insert_ne by done. apply Hf.
Qed.

(** [Read] with [ReadOpPop], whatever calls fail. *)
Lemma BRead_outcome b os q f idx its n :
  serving b os q → q !! f = Some its → b_indexes b !! f = Some idx → NoDup (loc_Key <$> index_locs (bi_Mem idx)) →
  0 < n → Z.of_nat (length its) < 2 ^ 32 →
  ∃ out rest locs r mem its' os',
    BRead fst upd_fst n f (note ReadOpPop) (b, []) os =
      (r, (set_indexes (<[f := set_Mem mem idx]> (b_indexes b)) b, [out]), os') ∧
    smallest n its out rest ∧ popping (b_log b) (bi_Mem idx) its rest locs ∧
    (r = Ok tt ∧ its' ≡ₚ rest ∨ ∃ e, r = Err e) ∧ holds (b_log b) mem its' ∧ remains its rest its' ∧
    only_files (eq (idxPath (b_dir b) f)) os os' ∧ appended (idxPath (b_dir b) f) locs (r = Ok tt) os os' ∧
    same_mem_arrays idx (set_Mem mem idx).
Proof.
  intros Hsv Hq Hidx Hnd Hn Hlen. destruct (serving_lookup _ _ _ _ _ Hsv Hq) as (idx' & Hidx' & [Hh Hp]). simplify_eq.
  pose proof (sv_log _ _ _ Hsv) as [Hl _ _]. pose proof Hh as [Hwf _].
  destruct (peek_holds b Hl (bi_Mem idx) its n [] Hh) as (iters & out & rest & Hpeek & Hsm & Hm); [lia..|].
  assert (Z.of_nat (length rest) < 2 ^ 32) as Hrest.
  { destruct Hsm as [Hperm _ _ _]. apply Permutation_length in Hperm. rewrite length_app in Hperm. lia. }
  destruct (merged_popping b (bi_Mem idx) its iters rest Hl Hh Hm Hnd Hrest) as [Hpp Hk].
  destruct (own_pop_outcome (b_log b) (bi_Mem idx) its rest (default [] iters) idx os Hpp Hk eq_refl Hwf)
    as (r & mem & its' & os' & Heq & Hr & Hh' & Hrem & Hof & Happ). rewrite Hp in *.
  destruct (owns_run f _ _ b os idx r _ os' (owns_popSync f (default [] iters)) (sv_unshared _ _ _ Hsv) Hidx Heq) as [Hrun Hsame].
  exists out, rest, (concat (pop_locs <$> default [] iters)), r, mem, its', os'. split; [|by split_and!].
  unfold BRead. replace (n <=? 0) with false by lia. run. cbn [fst]. unfold idxForFork. rewrite Hidx, Hpeek.
  unfold note, modify. run. cbn [app]. destruct iters as [iters|]; cbn [default from_option id] in Heq, Hrun.
  - cbn [fst]. by rewrite Hrun.
  - unfold own_pop in Heq. rewrite decide_True in Heq by done. run in Heq. injection Heq as <- Hmem <-.
    assert (mem = bi_Mem idx) as -> by (by rewrite Hmem). do 3 f_equal. destruct b, idx. unfold set_indexes, set_Mem. cbn in *. by rewrite insert_id.
Qed.

(** A consumer may have got the batch or not. *)
Definition maybe_pushed items q q' : Prop := map_Forall2 (λ _ its its', its' = its ∨ its' = its ++ items) q q'.

Lemma push_index_outcome b os q f its loc items :
  serving b os q → q !! f = Some its → loc_ok (b_log b) loc items → sorted_items items →
  ∃ r idx mem os', wrap_err "push: index-log" (set_and_log f loc) b os =
      (r, set_indexes (<[f := set_Mem mem idx]> (b_indexes b)) b, os') ∧ (r = Ok tt ∨ ∃ e, r = Err e) ∧
    serving (set_indexes (<[f := set_Mem mem idx]> (b_indexes b)) b) os' (<[f := its ++ items]> q) ∧
    only_files (eq (idxPath (b_dir b) f)) os os' ∧ appended (idxPath (b_dir b) f) [loc] (r = Ok tt) os os'.
Proof.
  intros Hsv Hq Hloc Hs. destruct (serving_lookup _ _ _ _ _ Hsv Hq) as (idx & Hidx & [Hh Hp]). pose proof Hh as [Hwf _].
  assert (loc_Len loc ≠ 0) as Hlen by (destruct Hloc as [Hne -> _ _ _]; by destruct items).
  destruct (log_step_outcome "push: index-log" loc idx os Hwf) as (r & mem & os' & Heq & Hr & Hstep & _ & Hof & Happ).
  rewrite Hp in *. exists r, idx, mem, os'. rewrite <- own_set_step in Heq by done.
  destruct (owns_run f _ _ b os idx r _ os' (owns_wrap_err f _ _ _ (owns_set_and_log f loc)) (sv_unshared _ _ _ Hsv) Hidx Heq)
    as [-> Hsame]. split_and!; try done.
  eapply serving_index; try done. unfold Load_step in Hstep. replace (loc_Len loc =? 0) with false in Hstep by lia.
  injection Hstep as <-. by apply holds_Set.
Qed.

(** The loop over the consumers. *)
Lemma push_loop_outcome fs b os q loc items :
  serving b os q → NoDup fs → (∀ f, f ∈ fs → is_Some (q !! f)) → loc_ok (b_log b) loc items → sorted_items items →
  ∃ r b' os' q', each (λ f, wrap_err "push: index-log" (set_and_log f loc)) fs b os = (r, b', os') ∧
    (r = Ok tt ∧ (∀ f, f ∈ fs → q' !! f = (.++ items) <$> q !! f) ∨ ∃ e, r = Err e) ∧
    serving b' os' q' ∧ b_log b' = b_log b ∧ b_dir b' = b_dir b ∧ only_files (idx_of (b_dir b) fs) os os' ∧
    (∀ f, q' !! f = q !! f ∨ f ∈ fs ∧ q' !! f = (.++ items) <$> q !! f) ∧
    (∀ f, f ∈ fs → appended (idxPath (b_dir b) f) [loc] (r = Ok tt) os os').
Proof.
  intros Hsv Hnd. revert b os q Hsv. induction Hnd as [|f fs Hf Hnd IH]; intros b os q Hsv Hdom Hloc Hs; cbn [each].
  { exists (Ok tt), b, os, q. split_and!; try done; [left; split; [done|]| |]; try (by intros f ?%elem_of_nil). by left. }
  destruct (Hdom f ltac:(by left)) as [its Hq].
  destruct (push_index_outcome b os q f its loc items Hsv Hq Hloc Hs) as (r1 & idx & mem & os1 & Heq1 & Hr1 & Hsv1 & Hof1 & Happ1).
  assert (only_files (idx_of (b_dir b) (f :: fs)) os os1) as Hof1'.
  { eapply only_files_mono; [|done]. intros p <-. exists f. split; [by left|done]. }
  run. rewrite Heq1. destruct Hr1 as [->|[e ->]].
  - destruct (IH _ os1 _ Hsv1) as (r & b' & os' & q' & -> & Hr & Hsv' & Hlog & Hdir & Hof & Hq' & Happ); try done.
    { intros g Hg. rewrite lookup_insert_ne by (intros ->; done). apply Hdom. by right. }
    cbn in Hlog, Hdir, Hof, Happ. exists r, b', os', q'. split; [done|].
    assert (q' !! f = (.++ items) <$> q !! f) as Hqf.
    { destruct (Hq' f) as [->|[? _]]; [|done]. by rewrite lookup_insert_eq, Hq. }
    split; [|split; [done|]; split; [done|]; split; [done|]; split; [|split]].
    + destruct Hr as [[-> Hall]|?]; [left|by right]. split; [done|]. intros g [->|Hg]%elem_of_cons; [done|].
      rewrite Hall, lookup_insert_ne by (done || intros ->; done). done.
    + transitivity os1; [done|]. eapply only_files_mono; [|done]. intros p (g & ? & ->). exists g. split; [by right|done].
    + intros g. destruct (decide (f = g)) as [<-|Hne]; [right; split; [by left|done]|].
      destruct (Hq' g) as [->|[? ->]]; rewrite lookup_insert_ne by done; [by left|right]. split; [by right|done].
    + intros g [->|Hg]%elem_of_cons.
      * intros data Hdata. destruct (Happ1 data Hdata) as (recs & tail & Hf' & ? & ? & ?). exists recs, tail.
        split_and!; try done; [|auto]. unfold read_file in *. rewrite (proj1 Hof); [done|].
        intros (h & Hh & ->%idxPath_inj). done.
      * intros data Hdata. destruct (Happ g Hg data) as (recs & tail & ?); [|by exists recs, tail].
        unfold read_file in *. rewrite (proj1 Hof1); [done|]. intros ->%idxPath_inj. done.
  - eexists _, _, os1, _. split; [done|]. split; [by right; eexists|]. split; [done|]. split; [done|]. split; [done|].
    split; [done|]. split.
    + intros g. destruct (decide (f = g)) as [<-|Hne]; [right; split; [by left|by rewrite lookup_insert_eq, Hq]|].
      left. by rewrite lookup_insert_ne.
    + intros g [->|Hg]%elem_of_cons; [by eapply appended_impl; [|exact Happ1]|].
      eapply appended_stop; [done|apply appended_same|done]. apply Hof1. by intros ->%idxPath_inj.
Qed.

(** The log file after a push that may have failed; [l1] is what is read from it. *)
Record log_file (l : Log) (items : Items) (l1 : Log) (os' : OS) : Prop := {
  lf_wf : wf_log l1 os';
  lf_path : log_path l1 = log_path l;
  lf_case : contents l1 = contents l ∧ log_size l1 = log_size l ∨ pushed l items l1 os';
}.

(** How a push ends: before the first index was written, where the map of the log
    may be lost, or in the loop over the indexes. *)
Inductive push_ends b (os : OS) q items : res unit → bucket T → OS → Prop :=
  | ends_log e l1 l2 os' :
      log_file (b_log b) items l1 os' → only_files (eq (Join (b_dir b) "dat.log")) os os' →
      (l2 = l1 ∨ ∃ n, l2 = set_mmap (unix_Mremap_failed (log_mmap (b_log b)) n) (b_log b)) →
      push_ends b os q items (Err e) (set_log l2 b) os'
  | ends_index r l1 os1 b' os' q' :
      pushed (b_log b) items l1 os1 → only_files (eq (Join (b_dir b) "dat.log")) os os1 →
      (r = Ok tt ∧ q' = (.++ items) <$> q ∨ ∃ e, r = Err e) →
      serving b' os' q' → b_log b' = l1 → b_dir b' = b_dir b → maybe_pushed items q q' →
      only_files (λ p, ∃ f, is_Some (q !! f) ∧ p = idxPath (b_dir b) f) os1 os' →
      (∀ f, is_Some (q !! f) → appended (idxPath (b_dir b) f) [push_loc (b_log b) items] (r = Ok tt) os1 os') →
      push_ends b os q items r b' os'.

Lemma serving_dom b os q f : serving b os q → is_Some (b_indexes b !! f) ↔ is_Some (q !! f).
Proof. intros [_ _ Hf _]. specialize (Hf f). destruct Hf; split; intros [? ?]; done || by eexists. Qed.

Lemma serving_log b os q items l' os' :
  serving b os q → pushed (b_log b) items l' os' → serving (set_log l' b) os' q.
Proof.
  intros [[Hl _ _] Hpath Hforks Hun] Hp. pose proof Hp as [_ _ Hwf Hpath' _]. split; cbn; [done|by rewrite Hpath'| |done].
  intros f. destruct (Hforks f) as [idx its [Hh Hw]|]; constructor. split; [by eapply holds_pushed|done].
Qed.

Lemma BPush_outcome b os q items name :
  serving b os q → items ≠ [] → sorted_items items → Forall valid_item items →
  log_size (b_log b) + storages items ≤ 2 ^ 61 →
  ∃ r b' os', BPush items true name b os = (r, b', os') ∧ push_ends b os q items r b' os'.
Proof.
  intros Hsv Hne Hs Hval Hmax. pose proof (sv_log _ _ _ Hsv) as Hwf. pose proof Hwf as [Hl _ _]. pose proof Hl as [_ Hsz _].
  destruct (Push_outcome_holds _ _ _ Hwf Hne Hmax) as (r & l' & os1 & Heq & Hout & Hof & _). rewrite (sv_path _ _ _ Hsv) in Hof.
  assert (∀ e l1 l2, r = Err e → l' = l2 → log_file (b_log b) items l1 os1 →
    (l2 = l1 ∨ ∃ n, l2 = set_mmap (unix_Mremap_failed (log_mmap (b_log b)) n) (b_log b)) →
    ∃ r b' os', BPush items true name b os = (r, b', os') ∧ push_ends b os q items r b' os') as Hlog.
  { intros e l1 l2 -> -> Hlf Hl2. exists (Err (EWrap "push: log" e)), (set_log l2 b), os1.
    split; [|by eapply ends_log]. unfold BPush, recoverMmapError, wrap_err, zoom. destruct items as [|it items]; [done|]. run.
    by rewrite Heq. }
  inversion Hout as [? ? Hp He|? Hwf1|n ? Hn Hwf1|? ? Hp He]; subst.
  - pose proof (serving_log _ _ _ _ _ _ Hsv Hp) as Hsv1. destruct (range_forks_spec (set_log l' b)) as [Hnd Hin].
    destruct (push_loop_outcome (range_forks (set_log l' b)) (set_log l' b) os1 q (push_loc (b_log b) items) items)
      as (r & b' & os' & q' & Hloop & Hr & Hsv' & Hlog' & Hdir' & Hof' & Hq' & Happ); try done.
    { intros f Hf. apply (serving_dom _ _ _ _ Hsv1). by apply Hin. }
    { by eapply push_loc_ok. }
    assert (∀ f, f ∈ range_forks (set_log l' b) ↔ is_Some (q !! f)) as Hdom
      by (intros f; by rewrite Hin, (serving_dom _ _ _ _ Hsv1)).
    exists r, b', os'. split.
    { unfold BPush, recoverMmapError, wrap_err, zoom. destruct items as [|it items]; [done|]. run. rewrite Heq.
      unfold wrap_err in Hloop. rewrite Hloop. by destruct Hr as [[-> _]|[e ->]]. }
    apply (ends_index b os q items r l' os1 b' os' q'); try done.
    + destruct Hr as [[-> Hall]|?]; [left|by right]. split; [done|]. apply map_eq. intros f. rewrite lookup_fmap.
      destruct (Hq' f) as [Hf|[_ ?]]; [|done]. destruct (q !! f) as [its|] eqn:E; [|done].
      rewrite <- E. apply Hall, Hdom. by eexists.
    + intros f. destruct (Hq' f) as [->|[_ ->]]; destruct (q !! f); constructor; auto.
    + eapply only_files_mono; [|done]. intros p (f & Hf & ->). exists f. by rewrite <- Hdom.
    + intros f Hf. by apply Happ, Hdom.
  - eapply Hlog; [done|done| |by left]. split; [done|done|by left].
  - eapply (Hlog _ (grown (b_log b) n)); [done|done| |right; by eexists]. split; [done|done|left]. split; [|done].
    apply contents_grown; [done|lia].
  - eapply Hlog; [done|done| |by left]. pose proof Hp as [_ _ Hwf1 Hp1 _]. split; [done|done|by right].
Qed.

(** What was in the log still is. *)
Lemma log_file_grow l items l1 os' loc its :
  readable l → log_file l items l1 os' → loc_ok l loc its → loc_ok l1 loc its.
Proof.
  intros Hl [[Hl1 _ _] _ [[Hc Hs]|Hp]]; [|by eapply loc_ok_pushed]. intros [? ? ? (Hoff & Hend & Hseg) ?].
  split; try done. split; [done|]. split; [lia|]. pose proof (storages_ge its).
  rewrite (segment_prefix l l1 []); [done|done|by rewrite app_nil_r|lia..].
Qed.

Lemma serving_log_file b os q items l1 os' :
  serving b os q → log_file (b_log b) items l1 os' → serving (set_log l1 b) os' q.
Proof.
  intros [[Hl _ _] Hpath Hforks Hun] Hlf. pose proof Hlf as [Hwf Hp _]. split; cbn; [done|by rewrite Hp| |done].
  intros f. destruct (Hforks f) as [idx its [Hh Hw]|]; constructor. split; [|done].
  eapply holds_grow; [|exact Hh]. intros loc a. by eapply log_file_grow.
Qed.

Lemma maybe_pushed_same items q : maybe_pushed items q q.
Proof. intros f. destruct (q !! f); constructor. by left. Qed.

(** C16. [Push] to all consumers of a bucket, whose indexes share no array that is
    still appended to, whatever system calls fail: if it ends without an error, everybody has the batch; else no item that was there is
    lost, each of the consumers has the batch or has it not, and the bucket can
    be used further - unless the map of the log could not be grown, and then the
    log file still has all that was in it. *)
Theorem BPush_faults b os q items name :
  serving b os q → items ≠ [] → sorted_items items → Forall valid_item items →
  log_size (b_log b) + storages items ≤ 2 ^ 61 →
  ∃ r b' os', BPush items true name b os = (r, b', os') ∧
    (r = Ok tt ∧ serving b' os' ((.++ items) <$> q) ∨
     (∃ e q', r = Err e ∧ serving b' os' q' ∧ maybe_pushed items q q') ∨
     (∃ e n l1, r = Err e ∧ b' = set_log (set_mmap (unix_Mremap_failed (log_mmap (b_log b)) n) (b_log b)) b ∧
        serving (set_log l1 b) os' q)).
Proof.
  intros Hsv Hne Hs Hval Hmax. destruct (BPush_outcome b os q items name Hsv Hne Hs Hval Hmax) as (r & b' & os' & Heq & Hends).
  exists r, b', os'. split; [done|]. destruct Hends as [e l1 l2 os' Hlf _ [->|[n ->]]|r l1 os1 b' os' q' _ _ Hr Hsv' _ _ Hq' _ _].
  - right. left. exists e, q. split; [done|]. split; [by eapply serving_log_file|apply maybe_pushed_same].
  - right. right. exists e, n, l1. split_and!; try done. by eapply serving_log_file.
  - destruct Hr as [[-> ->]|[e ->]]; [by left|]. right. left. by exists e, q'.
Qed.

(** C17. [Read] with [ReadOpPop], whatever system calls fail: the callback gets the
    [n] smallest items; if there is no error exactly the others remain; else the
    others remain, maybe along with some of those that were read; other consumers
    keep what they have.  The consumer has no two batches with the same first key,
    and its index shares no array that is still appended to. *)
Theorem BRead_faults b os q f idx its n :
  serving b os q → q !! f = Some its → b_indexes b !! f = Some idx → NoDup (loc_Key <$> index_locs (bi_Mem idx)) →
  0 < n → Z.of_nat (length its) < 2 ^ 32 →
  ∃ out rest r b' os' its', BRead fst upd_fst n f (note ReadOpPop) (b, []) os = (r, (b', [out]), os') ∧
    smallest n its out rest ∧ serving b' os' (<[f := its']> q) ∧
    (r = Ok tt ∧ its' = rest ∨ ∃ e, r = Err e ∧ remains its rest its').
Proof.
  intros Hsv Hq Hidx Hnd Hn Hlen.
  destruct (BRead_outcome b os q f idx its n Hsv Hq Hidx Hnd Hn Hlen)
    as (out & rest & locs & r & mem & its' & os' & Heq & Hsm & _ & Hr & Hh & Hrem & Hof & _ & Hsame).
  destruct Hr as [[-> Hrest]|[e ->]].
  - exists out, rest. eexists _, _, os', rest. split; [done|]. split; [done|]. split; [|by left].
    eapply serving_index; try done. by rewrite <- Hrest.
  - exists out, rest. eexists _, _, os', its'. split; [done|]. split; [done|]. split; [by eapply serving_index|].
    right. by exists e.
Qed.
End serving.
