(* ===== verification/BucketCycle.v ===== *)
(** * Closing a bucket and opening it again

    A bucket is [durable] when its files alone determine its queues: then it can
    be closed, and opening the directory gives the queues back.  The operations
    keep buckets durable; the exception is the fork of a drained consumer. *)

From S2P Require Import Prelude BTree Os Item Vlog VlogIter Index IndexRecover IndexFile Options Bucket.
From S2P Require Import BucketPeek BucketShare BucketPop BucketQueue BucketForks BucketOpen.

(** Consumers without items. *)
Definition empty_queues (fs : list ForkName) : gmap ForkName Items := gset_to_gmap [] (list_to_set fs).

Lemma empty_queues_dom fs f : f ∈ fs ↔ is_Some (empty_queues fs !! f).
Proof. unfold empty_queues. rewrite <- elem_of_dom, dom_gset_to_gmap. by rewrite elem_of_list_to_set. Qed.

Section cycle.
Context {T : Type → Type} `{BTreeLaws T} `{Host, Unix, !UnixLaws} `{MapRange, !MapRangeLaws}.
Implicit Types (b : bucket T) (idx : bucketIndex T) (q : gmap ForkName Items) (dir : path).

(** ** The files of a bucket *)

(** The directory and the files of a bucket. *)
Definition bucket_files dir (p : path) : Prop := p = dir ∨ ∃ name, p = Join dir name.

Lemma files_of_bucket dir q p : files_of dir q p → bucket_files dir p.
Proof. intros [->|(f & _ & ->)]; right; by eexists. Qed.

Lemma idx_of_files dir fs p : idx_of dir fs p → bucket_files dir p.
Proof. intros (f & _ & ->). right. by eexists. Qed.

Lemma files_of_ne dir q p : files_of dir q p → p ≠ dir.
Proof. intros [->|(f & _ & ->)]; apply Join_ne. Qed.

#[global] Instance files_of_dec dir q p : Decision (files_of dir q p).
Proof.
  refine (cast_if (decide (p = Join dir "dat.log" ∨ Exists (λ f, p = idxPath dir f) (elements (dom q)))));
    unfold files_of; rewrite Exists_exists in *.
  - destruct o as [?|(f & Hf & ?)]; [by left|right]. exists f. split; [|done]. apply elem_of_dom. set_solver.
  - intros [?|(f & Hf & ?)]; apply n; [by left|right]. exists f. split; [|done]. apply elem_of_elements, elem_of_dom, Hf.
Defined.

(** Files below a directory are none of the directories above it. *)
Lemma above_frame dir os os' :
  only_files (bucket_files dir) os os' →
  (∀ d : path, d `prefix_of` dir → d ≠ dir → d ≠ [] → os_fs os !! d = Some NDir) →
  (∀ d : path, d `prefix_of` dir → d ≠ dir → d ≠ [] → os_fs os' !! d = Some NDir).
Proof.
  intros [Hof _] Habove d Hpre Hne Hne0. rewrite Hof; [by apply Habove|].
  intros [->|[name ->]]; [done|]. apply prefix_length in Hpre. unfold Join in Hpre.
  rewrite length_app in Hpre. cbn in Hpre. lia.
Qed.

(** Every file below [dir] belongs to the log or to a consumer in [F]. *)
Record clean (os : OS) dir (F : ForkName → Prop) : Prop := {
  cl_names : ∀ name, is_Some (os_fs os !! Join dir name) →
    name = "dat.log" ∨ ∃ f, F f ∧ Join dir name = idxPath dir f;
  cl_files : ∀ name, os_fs os !! Join dir name ≠ Some NDir;
}.

Lemma clean_mono os dir (F G : ForkName → Prop) : (∀ f, F f → G f) → clean os dir F → clean os dir G.
Proof. intros HFG [Hn Hf]. split; [|done]. intros name Hin. destruct (Hn name Hin) as [?|(f & ? & ?)]; eauto. Qed.

Lemma clean_frame os os' dir F :
  (∀ name, os_fs os' !! Join dir name = os_fs os !! Join dir name) → clean os dir F → clean os' dir F.
Proof. intros Hfs [Hn Hf]. split; intros name; rewrite Hfs; auto. Qed.

(** The file of a new consumer. *)
Lemma clean_new {V} os os' dir (q : gmap ForkName V) f v data :
  clean os dir (λ g, is_Some (q !! g)) → os_fs os' !! idxPath dir f = Some (NFile data) →
  only_files (eq (idxPath dir f)) os os' → clean os' dir (λ g, is_Some (<[f := v]> q !! g)).
Proof.
  intros [Hnames Hfiles] Hfile [Hof _].
  split; intros name; destruct (decide (idxPath dir f = Join dir name)) as [Heq|Hne].
  - intros _. right. exists f. split; [|done]. rewrite lookup_insert_eq. by eexists.
  - rewrite Hof by done. intros Hin. destruct (Hnames name Hin) as [?|(g & ? & ?)]; [by left|right].
    exists g. split; [|done]. apply lookup_insert_is_Some'. by right.
  - by rewrite <- Heq, Hfile.
  - by rewrite Hof.
Qed.

(** The files of a bucket exist. *)
Lemma bucket_ok_files b os q p :
  bucket_ok b os q → files_of (b_dir b) q p → ∃ data, os_fs os !! p = Some (NFile data).
Proof.
  intros Hok [->|(f & [its Hq] & ->)].
  - destruct Hok as [[_ _ Hf] Hp _ _]. rewrite Hp in Hf. eexists. by apply read_file_Some.
  - destruct (bucket_ok_lookup _ _ _ _ _ Hok Hq) as (idx & _ & [_ [_ _ (recs & j & Hf & _)] Hp _]).
    rewrite Hp in Hf. eexists. by apply read_file_Some.
Qed.

(** An operation on a bucket writes to its files only, and removes none. *)
Lemma clean_kept os os' dir q :
  (∀ p, files_of dir q p → ∃ data, os_fs os' !! p = Some (NFile data)) → only_files (files_of dir q) os os' →
  clean os dir (λ f, is_Some (q !! f)) → clean os' dir (λ f, is_Some (q !! f)).
Proof.
  intros Hfs [Hof _] [Hnames Hfiles]. split; intros name.
  - destruct (decide (files_of dir q (Join dir name))) as [Hin|Hnin].
    + intros _. destruct Hin as [Heq|?]; [left|by right]. unfold Join in Heq. apply app_inv_head in Heq. congruence.
    + rewrite Hof by done. apply Hnames.
  - destruct (decide (files_of dir q (Join dir name))) as [Hin|Hnin]; [|by rewrite Hof].
    by destruct (Hfs _ Hin) as [data ->].
Qed.

Lemma bucket_ok_clean b os os' q :
  bucket_ok b os' q → only_files (files_of (b_dir b) q) os os' →
  clean os (b_dir b) (λ f, is_Some (q !! f)) → clean os' (b_dir b) (λ f, is_Some (q !! f)).
Proof. intros Hok. apply clean_kept. intros p. by apply bucket_ok_files. Qed.

(** ** Durable buckets *)

(** Bounds on what is in the files of a bucket: the items that the records of an
    index file are about, and the size of the log; and whether the files say how
    many items there are, which they do until an index is written as a whole. *)
Record cap := mkCap {
  cap_weight : Z;
  cap_bytes : Z;
  cap_told : bool;
}.

Record cap_ok (c : cap) : Prop := {
  ck_weight : 0 ≤ cap_weight c < 2 ^ 63;
  ck_bytes : 0 ≤ cap_bytes c ≤ 2 ^ 61;
}.

Record cap_le (c d : cap) : Prop := {
  cl_weight : cap_weight c ≤ cap_weight d;
  cl_bytes : cap_bytes c ≤ cap_bytes d;
  cl_told : cap_told d = true → cap_told c = true;
}.

#[global] Instance cap_le_preorder : PreOrder cap_le.
Proof. split; [by intros c|]. intros c d e [? ? ?] [? ? ?]. split; auto; lia. Qed.

(** A bucket with the queues [q] and a log of the items [all], in which every
    consumer's file records a batch, unless nothing was ever pushed. *)
Record durable (c : cap) b (os : OS) q (all : Items) : Prop := {
  du_ok : bucket_ok b os q;
  du_log : log_of (b_log b) all;
  du_bytes : storages all ≤ cap_bytes c;
  du_dir : os_fs os !! b_dir b = Some NDir;
  du_above : dirs_ok os (b_dir b);
  du_clean : clean os (b_dir b) (λ f, is_Some (q !! f));
  du_noted : ∀ f its, q !! f = Some its → noted (cap_told c) (cap_weight c) os (idxPath (b_dir b) f) its all;
}.

(** Without the claim about totals. *)
Definition untold (c : cap) : cap := mkCap (cap_weight c) (cap_bytes c) false.

Lemma untold_le c : cap_le c (untold c).
Proof. by split. Qed.

Lemma durable_mono c d b os q all : cap_le c d → durable c b os q all → durable d b os q all.
Proof.
  intros [Hw Hb Ht] [? ? ? ? ? ? Hnoted]. split; try done; [lia|]. intros f its Hq. eapply noted_mono; [done..|by apply Hnoted].
Qed.

(** What other files say does not matter. *)
Definition same_bucket dir (os os' : OS) : Prop :=
  ∀ p, bucket_files dir p ∨ p `prefix_of` dir → os_fs os' !! p = os_fs os !! p.

Lemma same_bucket_dirs dir os os' : same_bucket dir os os' → dirs_ok os dir → dirs_ok os' dir.
Proof.
  intros Hsame [Habove Hd]. split.
  - intros d Hpre Hne Hne0. rewrite Hsame by (by right). by apply Habove.
  - by rewrite Hsame by (by left; left).
Qed.

Lemma durable_frame c b os os' q all :
  same_bucket (b_dir b) os os' → durable c b os q all → durable c b os' q all.
Proof.
  intros Hsame [Hok Hlog Hbytes Hd Habove Hclean Hnoted].
  assert (∀ name, os_fs os' !! Join (b_dir b) name = os_fs os !! Join (b_dir b) name) as Hnames
    by (intros name; apply Hsame; left; right; by eexists).
  split; try done; [by eapply bucket_ok_frame|by rewrite Hsame by (by left; left)|by eapply same_bucket_dirs
    |by eapply clean_frame|]. intros f its Hq. eapply noted_frame; [apply Hnames|by apply Hnoted].
Qed.

(** An operation that leads to another bucket with the same consumers. *)
Lemma durable_step c d b b' os os' q q' all all' :
  durable c b os q all → bucket_ok b' os' q' → b_dir b' = b_dir b → (∀ f, is_Some (q' !! f) ↔ is_Some (q !! f)) →
  log_of (b_log b') all' → storages all' ≤ cap_bytes d → only_files (files_of (b_dir b) q) os os' →
  (∀ f its, q' !! f = Some its → noted (cap_told d) (cap_weight d) os' (idxPath (b_dir b) f) its all') →
  durable d b' os' q' all'.
Proof.
  intros [Hok Hlog _ Hd [Habove _] Hclean _] Hok' Hdir Hdom Hlog' Hbytes Hof Hnoted.
  assert (os_fs os' !! b_dir b = Some NDir) as Hd' by (rewrite <- Hd; apply Hof; intros ?%files_of_ne; done).
  split; rewrite ?Hdir; try done.
  - split; [|by right]. eapply above_frame; [|done]. eapply only_files_mono; [apply files_of_bucket|done].
  - rewrite <- Hdir. apply (bucket_ok_clean b' os) in Hok'; rewrite ?Hdir.
    + rewrite Hdir in Hok'. done.
    + eapply only_files_mono; [|done]. intros p [?|(f & Hf & ?)]; [by left|right]. exists f. by rewrite Hdom.
    + eapply clean_mono; [|done]. intros f. by rewrite Hdom.
Qed.

(** The log is as long as its items. *)
Lemma log_of_size l all : log_of l all → log_size l = storages all.
Proof. intros [Hl Hc _]. by rewrite <- (length_contents l Hl), Hc, length_enc_items. Qed.

(** The records of a consumer's file give back its index. *)
Lemma recorded_index n os dir l f idx its recs :
  fork_ok os dir l f idx its → recorded n os (idxPath dir f) recs →
  ∃ j, replay recs.*1 empty_Index = Ok j ∧ idx_equiv (bi_Mem idx) j ∧ wf_index j.
Proof.
  intros [_ [_ _ (recs1 & j & Hf1 & Hv1 & Hr1 & Hj)] Hp _] Hrec. rewrite Hp in Hf1.
  set (os0 := mkOS (os_fs os) []).
  destruct (Load_replays tt n os0 (idxPath dir f) recs) as (j2 & Hr2 & Hload2 & Hwf2 & _);
    [by apply (recorded_frame _ os)|done|].
  destruct (Load_replays tt (weight recs1) os0 (idxPath dir f) recs1) as (j1 & Hr1' & Hload1 & _ & _);
    [by split|done|].
  assert (j2 = j) as -> by congruence. by exists j.
Qed.

Lemma recorded_replay n os dir l f idx its recs :
  fork_ok os dir l f idx its → recorded n os (idxPath dir f) recs →
  ∃ j, replay recs.*1 empty_Index = Ok j ∧ holds l j its.
Proof.
  intros Hfork Hrec. destruct (recorded_index _ _ _ _ _ _ _ _ Hfork Hrec) as (j & Hr & Hj & Hwf).
  exists j. split; [done|]. destruct Hfork. by apply (holds_equiv _ (bi_Mem idx)).
Qed.

(** A consumer with items has a batch in its file. *)
Lemma recorded_busy n os dir l f idx its recs :
  fork_ok os dir l f idx its → its ≠ [] → recorded n os (idxPath dir f) recs → 0 < weight recs.
Proof.
  intros Hfork Hne Hrec. destruct (recorded_replay _ _ _ _ _ _ _ _ Hfork Hrec) as (j & Hr & _ & ps & Hps & Hb & Hits).
  destruct Hrec as [_ Hv _].
  destruct (replay_counted 0 recs.*1 empty_Index j) as [_ _ Hlive _]; [apply counted_empty|by apply Forall_fmap|done|].
  rewrite <- Hps, (sum_len_batches l) in Hlive by done. rewrite <- Hits in Hlive.
  destruct its; [done|]. cbn [length] in Hlive. unfold weight. lia.
Qed.

(** The file of a consumer that was pushed to or popped from. *)
Lemma noted_logs t n m os os' dir l f idx its its' all all' :
  noted t n os (idxPath dir f) its all → logs_queue (idxPath dir f) m its its' os os' → fork_ok os' dir l f idx its' →
  (its' = [] → its = [] ∧ all = [] → all' = []) →
  noted t (n + m) os' (idxPath dir f) its' all'.
Proof.
  intros (recs & [Hf Hv Hw] & Hcase & Htold) Hlogs Hfork Hnil. destruct (Hlogs _ Hf) as (recs' & Hf' & Hv' & Hw' & Htotal).
  assert (recorded (n + m) os' (idxPath dir f) (recs ++ recs')) as Hrec.
  { split; [by rewrite enc_recs_app|by apply Forall_app|]. rewrite weight_app. lia. }
  exists (recs ++ recs'). split; [done|].
  split; [|intros Ht; by rewrite total_after_app, (Htold Ht)]. destruct (decide (its' = [])) as [->|Hne].
  - destruct Hcase as [Hpos|Hempty]; [left|right; auto]. rewrite weight_app. pose proof (weight_nonneg _ Hv'). lia.
  - left. by eapply recorded_busy.
Qed.

(** ** Operations *)

(** Room for one more batch. *)
Definition cap_push (items : Items) (c : cap) : cap :=
  mkCap (cap_weight c + Z.of_nat (length items)) (cap_bytes c + storages items) (cap_told c).

(** Room for what a read of [its] items may write. *)
Definition cap_read (its : Items) (c : cap) : cap :=
  mkCap (cap_weight c + Z.of_nat (length its)) (cap_bytes c) (cap_told c).

Lemma durable_push c b os q all items name :
  durable c b os q all → items ≠ [] → sorted_items items → Forall valid_item items → os_faults os = [] →
  cap_ok (cap_push items c) →
  (∀ f its, q !! f = Some its → Z.of_nat (length (its ++ items)) < 2 ^ 32) →
  ∃ b' os', BPush items true name b os = (Ok tt, b', os') ∧ os_faults os' = [] ∧
    durable (cap_push items c) b' os' ((.++ items) <$> q) (all ++ items) ∧ b_dir b' = b_dir b ∧ b_key b' = b_key b ∧
    only_files (bucket_files (b_dir b)) os os'.
Proof.
  intros Hdu Hne Hs Hval Hno [[_ Hw] [_ Hbytes]] Hlen. cbn in Hw, Hbytes. pose proof Hdu as [Hok Hlog Hb _ _ _ Hnoted].
  destruct (BPush_all_holds b os q items name Hok Hne Hs Hval Hno)
    as (b' & os' & loc & Heq & Hok' & Hno' & _ & _ & _ & Hcont & Hdir & Hkey & Hof & Hlogs); [|done|].
  { rewrite (log_of_size _ _ Hlog). lia. }
  exists b', os'. split; [done|]. split; [done|].
  split; [|split; [done|split; [done|eapply only_files_mono; [apply files_of_bucket|done]]]].
  eapply (durable_step c _ b b' os os' q); try done.
  - intros f. rewrite lookup_fmap. by destruct (q !! f).
  - destruct Hlog as [Hl Hc Hv]. split; [by destruct Hok' as [[]]| |by apply Forall_app].
    by rewrite Hcont, Hc, enc_items_app.
  - rewrite storages_app. cbn. lia.
  - intros f its'. rewrite lookup_fmap. destruct (q !! f) as [its|] eqn:Hq; [|done]. intros [= <-].
    destruct (bucket_ok_lookup b' os' _ f (its ++ items) Hok') as (idx & _ & Hfork); [by rewrite lookup_fmap, Hq|].
    rewrite Hdir in Hfork. eapply noted_logs; [by apply Hnoted|by apply Hlogs|done|].
    intros [_ ?]%app_eq_nil. done.
Qed.

(** An operation on one consumer. *)
Lemma durable_one c b b' os os' q all f its its' :
  durable c b os q all → q !! f = Some its → bucket_ok b' os' (<[f := its']> q) → b_log b' = b_log b → b_dir b' = b_dir b →
  only_files (eq (idxPath (b_dir b) f)) os os' →
  logs_queue (idxPath (b_dir b) f) (Z.of_nat (length its)) its its' os os' →
  durable (cap_read its c) b' os' (<[f := its']> q) all.
Proof.
  intros Hdu Hq Hok' Hlog' Hdir Hof Hlogs. pose proof Hdu as [Hok Hlog Hb _ _ _ Hnoted].
  eapply (durable_step c _ b b' os os' q); try done.
  - intros f'. destruct (decide (f = f')) as [<-|Hne]; [|by rewrite lookup_insert_ne].
    rewrite lookup_insert_eq, Hq. split; intros _; by eexists.
  - by rewrite Hlog'.
  - eapply only_files_mono; [|done]. intros p <-. right. exists f. split; [by eexists|done].
  - intros f' its2 Hq'. destruct (decide (f = f')) as [<-|Hne].
    + rewrite lookup_insert_eq in Hq'. injection Hq' as <-.
      destruct (bucket_ok_lookup b' os' _ f its' Hok') as (idx & _ & Hfork); [apply lookup_insert_eq|]. rewrite Hdir in Hfork.
      eapply noted_logs; [by apply Hnoted|done|done|]. by intros _ [_ ->].
    + rewrite lookup_insert_ne in Hq' by done. eapply noted_mono; [| |eapply noted_frame; [|by apply Hnoted]]; [done|cbn; lia|].
      apply Hof. by intros ?%idxPath_inj.
Qed.

(** A callback that changes other files than those of the bucket. *)
Lemma durable_around {St} (view : St → bucket T) upd s c os b q all f its n op fn (P : Items → St → OS → Prop) :
  view s = b → durable c b os q all → q !! f = Some its → 0 < n → os_faults os = [] →
  cap_ok (cap_read its c) →
  (∀ out rest, smallest n its out rest → ∃ s1 os1, fn out s os = (Ok op, s1, os1) ∧ P out s1 os1 ∧ view s1 = b ∧
     os_faults os1 = [] ∧ same_bucket (b_dir b) os os1) →
  ∃ out rest s1 os1 b' s' os', BRead view upd n f fn s os = (Ok tt, s', os') ∧ P out s1 os1 ∧
    (s' = upd b' s1 ∨ s' = s1 ∧ b' = b) ∧ smallest n its out rest ∧ os_faults os' = [] ∧
    durable (cap_read its c) b' os' (after_read op f rest q) all ∧ b_dir b' = b_dir b ∧ b_key b' = b_key b ∧
    only_files (bucket_files (b_dir b)) os1 os'.
Proof.
  intros Hview Hdu Hq Hn Hno [[_ Hw] _] Hfn. cbn in Hw.
  destruct (BRead_around view upd s os b q f its n op fn (λ out s1 os1, P out s1 os1 ∧ same_bucket (b_dir b) os os1) Hview)
    as (out & rest & s1 & os1 & b' & s' & os' & Heq & [HP Hsame] & Hs & Hsm & Hok' & Hno' & Hlog' & Hdir & Hkey & Hof & Hlogs);
    try done; [by destruct Hdu| |].
  { intros out rest Hsm. destruct (Hfn out rest Hsm) as (s1 & os1 & ? & ? & ? & ? & Hsame). exists s1, os1. split_and!; try done.
    intros name. apply Hsame. left. right. by eexists. }
  apply (durable_frame c b os os1) in Hdu; [|done]. exists out, rest, s1, os1, b', s', os'. split_and!; try done.
  2: { eapply only_files_mono; [|done]. intros p <-. right. by eexists. }
  assert (after_read op f rest q = <[f := kept_items op its rest]> q) as Hafter by (destruct op; cbn; [by rewrite insert_id|done]).
  rewrite Hafter in *. by eapply durable_one.
Qed.

Lemma durable_read {St} (view : St → bucket T) upd s c os b q all f its n op fn (g : Items → St) :
  view s = b → durable c b os q all → q !! f = Some its → 0 < n → os_faults os = [] →
  cap_ok (cap_read its c) → (∀ items, fn items s os = (Ok op, g items, os) ∧ view (g items) = b) →
  ∃ out rest b' s' os', BRead view upd n f fn s os = (Ok tt, s', os') ∧
    (s' = upd b' (g out) ∨ s' = g out ∧ b' = b) ∧ smallest n its out rest ∧ os_faults os' = [] ∧
    durable (cap_read its c) b' os' (after_read op f rest q) all ∧ b_dir b' = b_dir b ∧ b_key b' = b_key b ∧
    only_files (bucket_files (b_dir b)) os os'.
Proof.
  intros Hview Hdu Hq Hn Hno Hc Hfn.
  destruct (durable_around view upd s c os b q all f its n op fn (λ out s1 os1, s1 = g out ∧ os1 = os) Hview Hdu Hq Hn Hno Hc)
    as (out & rest & ? & ? & b' & s' & os' & Heq & [-> ->] & Hrest).
  { intros out rest _. destruct (Hfn out). by exists (g out), os. }
  by exists out, rest, b', s', os'.
Qed.

(** ** Opening an empty directory *)

(** What is known of a bucket that was opened. *)
Record opened (dir : path) (key : Key) (opts : Options) b : Prop := {
  op_dir : b_dir b = dir;
  op_key : b_key b = key;
  op_opts : b_opts b = opts;
}.

Lemma Join_parent os dir name : os_fs os !! dir = Some NDir → parent_exists os (Join dir name) = true.
Proof.
  intros Hd. unfold parent_exists, Join. rewrite removelast_last. destruct dir; [done|].
  by rewrite bool_decide_eq_true.
Qed.

Lemma openBucket_bare {St} (s : St) fuel dir forks opts key os :
  bare os dir (forks ++ [""]) → dirs_ok os dir → last dir = Some (Key_String key) → is_int64 key →
  os_faults os = [] →
  ∃ b os', openBucket_loop (S fuel) dir forks opts s os = (Ok b, s, os') ∧
    bucket_ok b os' (empty_queues (forks ++ [""])) ∧ opened dir key opts b ∧
    only_files (bucket_files dir) os os' ∧ os_faults os' = [] ∧
    ((∀ name, os_fs os !! Join dir name = None) → durable (mkCap 0 0 true) b os' (empty_queues (forks ++ [""])) []).
Proof.
  intros [Hdat Hidx] Hdirs Hlast Hkey Hno. assert (dir ≠ []) as Hne by (by intros ->).
  destruct (MkdirAll_spec s dir os Hno Hne Hdirs) as (os1 & Hmk & Hd1 & Hof1 & Hno1).
  assert (∀ name, os_fs os1 !! Join dir name = os_fs os !! Join dir name) as Hsame1
    by (intros name; apply Hof1, not_eq_sym, Join_ne).
  destruct (Open_fresh s (Join dir "dat.log") os1 (sync_flag (opt_SyncMode opts) SyncData))
    as (l & os2 & Hopen & Hwf & Hcont & Hlp & Hemp & Hof2 & Hno2); [by rewrite Hsame1|by apply Join_parent|done|].
  destruct (load_blanks s l dir opts (forks ++ [""]) ∅ 0 os2 Hemp)
    as (indexes & os3 & Hload & Hforks & Hdom & Hof3 & Hno3); try done.
  { rewrite <- Hd1. apply Hof2, Join_ne. }
  { intros f Hf. left. rewrite (proj1 Hof2) by (apply not_eq_sym, idxPath_not_log).
    rewrite <- (Hidx f Hf). apply Hsame1. }
  exists (mkBucket dir key l opts indexes), os3. cbn [openBucket_loop]. unfold recoverMmapError, wrap_err. run.
  rewrite Hmk, Hopen, Hload, Hlast. cbn [default from_option id]. rewrite KeyFromString_holds by done.
  assert (∀ f, f ∈ forks ++ [""] ↔ is_Some (empty_queues (forks ++ [""]) !! f)) as Hdom'.
  { intros f. apply empty_queues_dom. }
  set (b := mkBucket dir key l opts indexes).
  assert (bucket_ok b os3 (empty_queues (forks ++ [""]))) as Hok.
  { split; cbn; [|done| |by eapply load_indexes_unshared].
    - destruct Hwf as [? ? Hf]. split; try done. unfold read_file in *. rewrite (proj1 Hof3); [done|].
      intros (f & _ & Heq). symmetry in Heq. rewrite Hlp in Heq. by apply idxPath_not_log in Heq.
    - intros f. destruct (indexes !! f) as [idx|] eqn:E.
      + destruct (proj1 (Hdom f)) as [Hf|[? Hx]]; [by eexists| |by rewrite lookup_empty in Hx].
        unfold empty_queues. rewrite lookup_gset_to_gmap, option_guard_True by set_solver. constructor. by apply Hforks.
      + unfold empty_queues. rewrite lookup_gset_to_gmap, option_guard_False; [constructor|].
        intros Hf%elem_of_list_to_set. destruct (proj2 (Hdom f)) as [idx Hidx']; [by left|]. congruence. }
  assert (only_files (files_of dir (empty_queues (forks ++ [""]))) os1 os3) as Hof.
  { transitivity os2; (eapply only_files_mono; [|done]); intros p.
    - intros <-. by left.
    - intros (f & Hf & ->). right. exists f. by rewrite <- Hdom'. }
  assert (only_files (bucket_files dir) os os3) as Hofb.
  { transitivity os1; (eapply only_files_mono; [|done]); intros p; [by intros <-; left|apply files_of_bucket]. }
  split; [by destruct (AllEmpty _)|]. split_and!; try done. intros Hnone. destruct Hdirs as [Habove _]. split; try done.
  - split; [by destruct Hwf|done|constructor].
  - rewrite <- Hd1. apply Hof. intros ?%files_of_ne. done.
  - split; [by eapply above_frame|right]. rewrite <- Hd1. apply Hof. intros ?%files_of_ne. done.
  - apply (bucket_ok_clean b os1); [done..|]. split; intros name; rewrite Hsame1, Hnone; [by intros [? ?]|done].
  - intros f its. unfold empty_queues. rewrite lookup_gset_to_gmap_Some. intros [Hf <-].
    destruct (proj2 (Hdom f)) as [idx Hidx']; [left; set_solver|]. by apply (Hforks f idx).
Qed.

(** ** Removing a bucket *)

Lemma remove_quiet_file {St} (s : St) (p : path) os :
  os_fs os !! p ≠ Some NDir → os_faults os = [] →
  remove_quiet p s os = (Ok tt, s, set_fs (delete p (os_fs os)) os).
Proof.
  intros Hp Hno. unfold remove_quiet, attempt. run. destruct (os_fs os !! p) as [[data|]|] eqn:E; [|done|].
  - by rewrite (Remove_file _ _ data).
  - unfold Remove. sys_ok. rewrite E. cbn. rewrite delete_id by done. by destruct os.
Qed.

(** Removing the files [ps]. *)
Definition without (ps : list path) (os : OS) : OS := set_fs (filter (λ kv, kv.1 ∉ ps) (os_fs os)) os.

Lemma without_lookup ps os p :
  os_fs (without ps os) !! p = if decide (p ∈ ps) then None else os_fs os !! p.
Proof.
  unfold without. cbn. case_decide.
  - apply map_lookup_filter_None. right. by intros ? ? ?.
  - destruct (os_fs os !! p) as [n|] eqn:E.
    + by apply map_lookup_filter_Some.
    + apply map_lookup_filter_None. by left.
Qed.

Lemma without_cons p ps os : without ps (set_fs (delete p (os_fs os)) os) = without (p :: ps) os.
Proof.
  assert (os_fs (without ps (set_fs (delete p (os_fs os)) os)) = os_fs (without (p :: ps) os)) as Hfs.
  { apply map_eq. intros r. rewrite !without_lookup. cbn [os_fs set_fs].
    destruct (decide (p = r)) as [<-|Hne].
    - rewrite lookup_delete_eq. repeat case_decide; set_solver.
    - rewrite lookup_delete_ne by done. repeat case_decide; set_solver. }
  unfold without, set_fs in *. cbn in *. by rewrite Hfs.
Qed.

Lemma without_delete p ps os :
  set_fs (delete p (os_fs (without ps os))) (without ps os) = without (p :: ps) os.
Proof.
  assert (os_fs (set_fs (delete p (os_fs (without ps os))) (without ps os)) = os_fs (without (p :: ps) os)) as Hfs.
  { apply map_eq. intros r. rewrite without_lookup. cbn [os_fs set_fs]. destruct (decide (p = r)) as [<-|Hne].
    - rewrite lookup_delete_eq, decide_True by (by left). done.
    - rewrite lookup_delete_ne, without_lookup by done. repeat case_decide; set_solver. }
  unfold without, set_fs in *. cbn in *. by rewrite Hfs.
Qed.

(** An empty directory is removed like a file. *)
Lemma remove_quiet_dir {St} (s : St) (p : path) os :
  (∀ name, os_fs os !! Join p name = None) → os_faults os = [] →
  remove_quiet p s os = (Ok tt, s, set_fs (delete p (os_fs os)) os).
Proof.
  intros Hnone Hno. destruct (decide (os_fs os !! p = Some NDir)) as [Hd|Hd]; [|by apply remove_quiet_file].
  unfold remove_quiet, attempt, Remove. sys_ok. rewrite Hd, has_children_false by done. done.
Qed.

Lemma remove_each {St} (s : St) dir fs os err :
  (∀ f, f ∈ fs → os_fs os !! idxPath dir f ≠ Some NDir) → os_faults os = [] →
  each_joined (λ fork, remove_quiet (idxPath dir fork)) err fs s os =
    (Ok err, s, without (idxPath dir <$> fs) os).
Proof.
  revert os err. induction fs as [|f fs IH]; intros os err Hfs Hno; cbn [each_joined fmap list_fmap].
  { unfold without. rewrite map_filter_id by set_solver. by destruct os. }
  unfold attempt at 1. run. rewrite remove_quiet_file by (done || apply Hfs; by left).
  cbn [err_of]. assert (join_opt err None = err) as -> by (by destruct err).
  run. rewrite IH; [by rewrite without_cons| |done].
  intros g Hg. cbn [os_fs set_fs]. destruct (decide (idxPath dir f = idxPath dir g)) as [->|Hne].
  - by rewrite lookup_delete_eq.
  - rewrite lookup_delete_ne by done. apply Hfs. by right.
Qed.

Lemma removeBucketDir_spec {St} (s : St) dir fs os :
  clean os dir (λ f, f ∈ "" :: fs) → os_faults os = [] →
  ∃ os', removeBucketDir dir fs s os = (Ok tt, s, os') ∧
    os_fs os' !! dir = None ∧ (∀ name, os_fs os' !! Join dir name = None) ∧
    only_files (bucket_files dir) os os' ∧ os_faults os' = [].
Proof.
  intros [Hnames Hfiles] Hno. unfold removeBucketDir. run.
  rewrite remove_each by (done || (intros f _; apply Hfiles)).
  assert (∀ ps name, os_fs (without ps os) !! Join dir name ≠ Some NDir) as Hfiles'.
  { intros ps name. rewrite without_lookup. case_decide; [done|apply Hfiles]. }
  unfold attempt. run. rewrite !remove_quiet_file, without_delete by (try apply Hfiles'; done). run.
  rewrite !remove_quiet_file, without_delete by (try apply Hfiles'; done). run.
  set (os3 := without _ os). assert (os_faults os3 = []) as Hno3 by done.
  assert (∀ name, os_fs os3 !! Join dir name = None) as Hnone.
  { intros name. unfold os3. rewrite without_lookup. case_decide as Hin; [done|].
    destruct (os_fs os !! Join dir name) eqn:E; [|done]. exfalso. apply Hin.
    destruct (Hnames name) as [->|(f & [->|Hf]%elem_of_cons & ->)]; [by eexists|set_solver|set_solver|].
    do 2 right. by apply list_elem_of_fmap_2. }
  rewrite remove_quiet_dir by done. cbn [err_of]. eexists. split; [done|]. cbn [os_fs set_fs].
  split; [by rewrite lookup_delete_eq|]. split; [|split; [|done]].
  - intros name. rewrite lookup_delete_ne; [done|]. by apply not_eq_sym, Join_ne.
  - split; [|done]. intros p Hp. cbn [os_fs set_fs]. rewrite lookup_delete_ne by (intros <-; apply Hp; by left).
    unfold os3. rewrite without_lookup, decide_False; [done|]. intros Hin. apply Hp. right.
    apply elem_of_cons in Hin as [->|Hin]; [by eexists|]. apply elem_of_cons in Hin as [->|Hin]; [by eexists|].
    apply list_elem_of_fmap in Hin as (f & -> & _). by eexists.
Qed.

(** ** Closing *)

Lemma close_each names b os err :
  NoDup names → (∀ f, f ∈ names → ∃ idx, b_indexes b !! f = Some idx ∧ w_open (bi_Log idx) = true) →
  os_faults os = [] →
  ∃ b', each_joined (λ name, on_index name (zoom bi_Log set_Log WClose)) err names b os = (Ok err, b', os).
Proof.
  intros Hnd. revert b. induction Hnd as [|f names Hf Hnd IH]; intros b Hopen Hno; cbn [each_joined]; [by exists b|].
  destruct (Hopen f ltac:(by left)) as (idx & Hidx & Ho).
  assert (attempt (on_index f (zoom bi_Log set_Log WClose)) b os =
    (Ok (inr tt), set_indexes (<[f := set_Log (mkWriter (w_path (bi_Log idx)) (w_sync (bi_Log idx)) false) idx]> (b_indexes b)) b, os))
    as Hclose.
  { unfold attempt, on_index, idxForFork, WClose, attempt. run. rewrite Hidx, Ho. by sys_ok. }
  run in Hclose. run. rewrite Hclose. cbn [err_of]. assert (join_opt err None = err) as -> by (by destruct err).
  apply IH; [|done]. intros g Hg. destruct (Hopen g ltac:(by right)) as (idx' & ? & ?).
  exists idx'. split; [|done]. cbn. by rewrite lookup_insert_ne by (by intros ->).
Qed.

(** A bucket whose files are open can be closed, whatever became of them. *)
Definition closable b : Prop := ∀ f idx, b_indexes b !! f = Some idx → w_open (bi_Log idx) = true.

(** Closing changes no file. *)
Lemma BClose_open b os : closable b → os_faults os = [] → ∃ b', BClose b os = (Ok tt, b', os).
Proof.
  intros Hopen Hno. unfold BClose.
  assert (attempt (zoom b_log set_log Close) b os = (Ok (inr tt), set_log (set_open false (b_log b)) b, os)) as Hlog.
  { unfold attempt, Close, attempt. by sys_ok. }
  run in Hlog. run. rewrite Hlog. cbn [err_of].
  destruct (range_forks_spec (set_log (set_open false (b_log b)) b)) as [Hnd Hdom].
  destruct (close_each _ (set_log (set_open false (b_log b)) b) os None Hnd) as (b' & Heq); [|done|].
  - intros f Hf. apply Hdom in Hf as [idx Hidx]. exists idx. split; [done|]. by apply (Hopen f).
  - run in Heq. rewrite Heq. by exists b'.
Qed.

Lemma bucket_ok_closable b os q : bucket_ok b os q → closable b.
Proof.
  intros Hok f idx Hidx.
  destruct (bucket_ok_cases b os q f Hok) as [(idx' & its & Hidx' & _ & [_ [_ Ho _] _ _])|[? _]]; congruence.
Qed.

Lemma BClose_spec b os q :
  bucket_ok b os q → os_faults os = [] → ∃ b', BClose b os = (Ok tt, b', os).
Proof. intros Hok%bucket_ok_closable. by apply BClose_open. Qed.

(** ** Opening a bucket that was closed *)

(** A closed bucket in [dir] that has the queues [q] when it is opened. *)
Record offline (c : cap) (os : OS) dir q : Prop := {
  off_dir : os_fs os !! dir = Some NDir;
  off_above : dirs_ok os dir;
  off_files : ∃ l all, log_path l = Join dir "dat.log" ∧ wf_log l os ∧ log_of l all ∧ storages all ≤ cap_bytes c ∧
    ∀ f its, q !! f = Some its → file_state (cap_told c) (cap_weight c) os l all (idxPath dir f) its;
  off_clean : clean os dir (λ f, is_Some (q !! f));
}.

Lemma offline_mono c d os dir q : cap_le c d → offline c os dir q → offline d os dir q.
Proof.
  intros [Hw Hb Ht] [? ? (l & all & ? & ? & ? & ? & Hst) ?]. split; try done. exists l, all. split_and!; try done; [lia|].
  intros f its Hq. eapply file_state_mono; [done..|by apply Hst].
Qed.

Lemma offline_frame c os os' dir q : same_bucket dir os os' → offline c os dir q → offline c os' dir q.
Proof.
  intros Hsame [Hd Habove (l & all & Hlp & [Hr Ht Hf] & Hlog & Hb & Hst) Hclean].
  assert (∀ name, os_fs os' !! Join dir name = os_fs os !! Join dir name) as Hnames
    by (intros name; apply Hsame; left; right; by eexists).
  split; [by rewrite Hsame by (by left; left)|by eapply same_bucket_dirs| |by eapply clean_frame].
  exists l, all. split_and!; try done.
  - split; try done. unfold read_file in *. by rewrite Hlp in *; rewrite Hnames.
  - intros f its Hq. eapply file_state_frame; [apply Hnames|by apply Hst].
Qed.

Definition relog (sync : bool) (l : Log) : Log :=
  mkLog (log_path l) true (log_mmap l) (log_size l) sync false.

Lemma holds_same l l' i its :
  log_mmap l' = log_mmap l → log_size l' = log_size l → holds l i its → holds l' i its.
Proof.
  intros Hm Hs. apply holds_grow. intros loc its' [Hne Hlen Hkey Hat Hv]. split; try done.
  unfold items_at in *. by rewrite Hm, Hs.
Qed.

Lemma holds_relog sync l i its : holds l i its → holds (relog sync l) i its.
Proof. by apply holds_same. Qed.

Lemma file_state_relog sync t n os l all p its :
  file_state t n os l all p its → file_state t n os (relog sync l) all p its.
Proof.
  intros [recs j its' Hrec Hn Hr Hh Hlen|recs|recs tail|];
    [|by eapply file_unused|by eapply file_torn|by apply file_missing].
  eapply file_kept; try done. by apply holds_relog.
Qed.

Lemma log_of_relog sync l all : log_of l all → log_of (relog sync l) all.
Proof. intros [[Ho Hs Hm] Hc Hv]. by split. Qed.

Lemma wf_log_relog sync l os : wf_log l os → wf_log (relog sync l) os.
Proof. intros [[Ho Hs Hm] Ht Hf]. by split. Qed.

(** The first part of [openBucket]. *)
Lemma load_offline {St} (s : St) c dir forks opts key os q :
  offline c os dir q → cap_weight c < 2 ^ 63 → NoDup (forks ++ [""]) → (∀ f, f ∈ forks ++ [""] ↔ is_Some (q !! f)) →
  os_faults os = [] →
  ∃ l indexes entries os' all, Open (Join dir "dat.log") (sync_flag (opt_SyncMode opts) SyncData) s os = (Ok l, s, os) ∧
    load_indexes dir l opts (forks ++ [""]) ∅ 0 s os = (Ok (indexes, entries), s, os') ∧
    durable c (mkBucket dir key l opts indexes) os' q all ∧
    only_files (bucket_files dir) os os' ∧ os_faults os' = [] ∧
    ((∀ f its, q !! f = Some its → its = []) → all ≠ [] →
     2 * cap_weight c * Z.of_nat (length (forks ++ [""])) < 2 ^ 64 → 0 < entries).
Proof.
  intros [Hd [Habove _] (l & all & Hlp & Hwf & Hlog & Hb & Hst) Hclean] Hn Hnd Hdom Hno.
  set (sync := sync_flag (opt_SyncMode opts) SyncData).
  assert (Open (Join dir "dat.log") sync s os = (Ok (relog sync l), s, os)) as Hopen.
  { rewrite <- Hlp. apply (Open_existing s l os all); try done. by destruct Hlog. }
  destruct (load_indexes_spec s (cap_told c) (cap_weight c) (relog sync l) all dir opts q (forks ++ [""]) ∅ 0 os)
    as (indexes & entries & os' & Hload & Hforks & Hof & Hno' & Hsum); try done; [by apply log_of_relog|..].
  - intros f Hf. destruct (proj1 (Hdom f) Hf) as [its Hq]. exists its. split; [done|].
    by apply file_state_relog, Hst.
  - intros f Hf. rewrite lookup_empty. destruct (q !! f) eqn:E; [|constructor].
    exfalso. by apply Hf, Hdom.
  - exists (relog sync l), indexes, entries, os', all.
    assert (only_files (bucket_files dir) os os') as Hofb by (eapply only_files_mono; [apply idx_of_files|done]).
    assert (os_fs os' !! dir = Some NDir) as Hd'.
    { rewrite <- Hd. apply Hof. intros (f & _ & Heq). symmetry in Heq. by apply idxPath_ne in Heq. }
    assert (bucket_ok (mkBucket dir key (relog sync l) opts indexes) os' q) as Hok.
    { split; cbn; [|done| |by eapply load_indexes_unshared].
      - destruct (wf_log_relog sync l os Hwf) as [Hr Ht Hf]. split; try done.
        unfold read_file in *. rewrite (proj1 Hof); [done|]. cbn [log_path relog]. rewrite Hlp.
        intros (f & _ & Heq). symmetry in Heq. by apply idxPath_not_log in Heq.
      - intros f. destruct (Hforks f) as [idx its [Hfork _]|]; by constructor. }
    split_and!; try done.
    2: { intros Hnil Hne Hmax. rewrite length_app in *. cbn [length] in *. enough (0 + Z.of_nat (length forks + 1) ≤ entries) by lia.
         apply Hsum; [|lia|lia]. intros f its _ Hq ->. by apply Hne, (Hnil f). }
    split; cbn; try done.
    + by apply log_of_relog.
    + split; [by eapply above_frame|by right].
    + apply (bucket_ok_clean (mkBucket dir key (relog sync l) opts indexes) os); [done| |done].
      eapply only_files_mono; [|exact Hof]. intros p (f & Hf & ->). right. exists f. by rewrite <- Hdom.
    + intros f its Hq. specialize (Hforks f). rewrite Hq in Hforks. inversion Hforks as [idx its' Hsafe|]; subst. by destruct Hsafe.
Qed.

Lemma empty_queues_eq q fs :
  (∀ f, f ∈ fs ↔ is_Some (q !! f)) → (∀ f its, q !! f = Some its → its = []) → empty_queues fs = q.
Proof.
  intros Hdom Hnil. apply map_eq. intros f. unfold empty_queues. destruct (decide (f ∈ fs)) as [Hf|Hf].
  - rewrite lookup_gset_to_gmap, option_guard_True by set_solver.
    apply Hdom in Hf as [its Hq]. by rewrite Hq, (Hnil _ _ Hq).
  - rewrite lookup_gset_to_gmap, option_guard_False by set_solver.
    destruct (q !! f) eqn:E; [|done]. exfalso. by apply Hf, Hdom.
Qed.

(** What [openBucket] does with a bucket that is empty but occupies space. *)
Lemma reinit_ok {St} (s : St) c dir forks opts key b os q all :
  durable c b os q all → b_dir b = dir → (∀ f its, q !! f = Some its → its = []) →
  (∀ f, f ∈ forks ++ [""] ↔ is_Some (q !! f)) →
  last dir = Some (Key_String key) → is_int64 key → os_faults os = [] →
  ∃ b1 b' os1 os', BClose b os = (Ok tt, b1, os) ∧
    removeBucketDir dir (forks ++ [""]) s os = (Ok tt, s, os1) ∧
    openBucket_loop 1 dir (forks ++ [""]) opts s os1 = (Ok b', s, os') ∧
    durable (mkCap 0 0 true) b' os' q [] ∧ opened dir key opts b' ∧ only_files (bucket_files dir) os os' ∧ os_faults os' = [].
Proof.
  intros [Hok _ _ _ [Habove _] Hclean _] <- Hnil Hdom Hlast Hkey Hno.
  destruct (BClose_spec b os q Hok Hno) as (b1 & Hclose).
  destruct (removeBucketDir_spec s (b_dir b) (forks ++ [""]) os) as (os1 & Hrm & Hd1 & Hnone1 & Hof1 & Hno1); [|done|].
  { eapply clean_mono; [|done]. intros f Hf. right. by apply Hdom. }
  destruct (openBucket_bare s 0 (b_dir b) (forks ++ [""]) opts key os1)
    as (b' & os' & Hopen & Hok' & Hop & Hof' & Hno' & Hdu'); try done.
  - split; [apply Hnone1|]. intros f _. apply Hnone1.
  - split; [|by left]. by eapply above_frame.
  - exists b1, b', os1, os'. split_and!; try done; [|by transitivity os1].
    specialize (Hdu' Hnone1). rewrite (empty_queues_eq q) in Hdu'; [done| |done].
    intros f. rewrite elem_of_app, Hdom, elem_of_cons, elem_of_nil.
    split; [|tauto]. intros [?|[->|[]]]; [done|]. apply Hdom, elem_of_app. right. by left.
Qed.

Lemma openBucket_emptied {St} (s : St) c dir forks opts key os q :
  offline c os dir q → cap_ok c → NoDup (forks ++ [""]) → (∀ f, f ∈ forks ++ [""] ↔ is_Some (q !! f)) →
  last dir = Some (Key_String key) → is_int64 key → os_faults os = [] →
  ∃ b os' all, openBucket dir forks opts s os = (Ok b, s, os') ∧ durable c b os' q all ∧ opened dir key opts b ∧
    only_files (bucket_files dir) os os' ∧ os_faults os' = [] ∧
    ((∀ f its, q !! f = Some its → its = []) → 2 * cap_weight c * Z.of_nat (length (forks ++ [""])) < 2 ^ 64 → all = []).
Proof.
  intros Hoff Hc Hnd Hdom Hlast Hkey Hno.
  destruct (load_offline s c dir forks opts key os q Hoff)
    as (l & indexes & entries & os1 & all & Hopen & Hload & Hdu & Hof & Hno1 & Hent); try done; [by destruct Hc as [[]]|].
  destruct Hoff as [Hd _ _ _]. set (b := mkBucket dir key l opts indexes) in *.
  unfold openBucket. remember 1%nat as fuel eqn:Hfuel. cbn [openBucket_loop].
  unfold recoverMmapError at 1, wrap_err. run.
  rewrite MkdirAll_existing, Hopen, Hload, Hlast by done. cbn [default from_option id].
  rewrite KeyFromString_holds by done. fold b. pose proof (AllEmpty_queue b os1 q) as Hempty.
  destruct (AllEmpty b) eqn:Hemp; [|exists b, os1, all; split_and!; try done; intros Hnil; by destruct Hdu; apply Hempty in Hnil].
  destruct (Z.ltb_spec 0 entries) as [Hpos|Hzero].
  2: { exists b, os1, all. split_and!; try done. intros Hnil Hmax. destruct (decide (all = [])) as [|Hne]; [done|].
       specialize (Hent Hnil Hne Hmax). lia. }
  destruct (reinit_ok s c dir forks opts key b os1 q all Hdu eq_refl)
    as (b1 & b' & os2 & os' & Hclose & Hrm & Hre & Hdu' & ? & ? & ?); try done.
  - destruct Hdu. by apply Hempty.
  - rewrite Hclose, Hrm. exists b', os', []. subst fuel. rewrite Hre. split_and!; try done; [|by transitivity os1].
    eapply durable_mono; [|done]. destruct Hc as [[] []]. split; cbn; [lia..|done].
Qed.

Lemma openBucket_offline {St} (s : St) c dir forks opts key os q :
  offline c os dir q → cap_ok c → NoDup (forks ++ [""]) → (∀ f, f ∈ forks ++ [""] ↔ is_Some (q !! f)) →
  last dir = Some (Key_String key) → is_int64 key → os_faults os = [] →
  ∃ b os' all, openBucket dir forks opts s os = (Ok b, s, os') ∧ durable c b os' q all ∧ opened dir key opts b ∧
    only_files (bucket_files dir) os os' ∧ os_faults os' = [].
Proof.
  intros Hoff Hc Hnd Hdom Hlast Hkey Hno.
  destruct (openBucket_emptied s c dir forks opts key os q) as (b & os' & all & ? & ? & ? & ? & ? & _); try done.
  by exists b, os', all.
Qed.

(** The file of a consumer that is not open any more. *)
Lemma noted_file_state t n os dir l all f idx its :
  fork_ok os dir l f idx its → noted t n os (idxPath dir f) its all → file_state t n os l all (idxPath dir f) its.
Proof.
  intros Hfork (recs & Hrec & Hcase & Htold).
  destruct (recorded_replay _ _ _ _ _ _ _ _ Hfork Hrec) as (j & Hr & Hh). pose proof Hrec as [_ Hv Hw].
  pose proof (weight_nonneg _ Hv). destruct (decide (weight recs = 0)) as [Hz|Hnz].
  - destruct Hcase as [?|[-> ->]]; [lia|]. eapply file_unused; try done. split; cbn; [done|lia|lia].
  - destruct Hfork. eapply file_kept; try done. lia.
Qed.

(** A bucket that is closed now. *)
Lemma durable_offline c b os q all : durable c b os q all → offline c os (b_dir b) q.
Proof.
  intros [Hok Hlog Hbytes Hd Habove Hclean Hnoted]. split; try done. exists (b_log b), all.
  split; [apply Hok|]. split; [apply Hok|]. split; [done|]. split; [done|]. intros f its Hq.
  destruct (bucket_ok_lookup _ _ _ _ _ Hok Hq) as (idx & _ & Hfork).
  eapply noted_file_state; [done|by apply Hnoted].
Qed.

(** A closed bucket that no index file is missing from. *)
Record parked (c : cap) (os : OS) dir q : Prop := {
  pk_offline : offline c os dir q;
  pk_files : ∀ f, is_Some (q !! f) → ∃ data, os_fs os !! idxPath dir f = Some (NFile data);
}.

Lemma parked_mono c d os dir q : cap_le c d → parked c os dir q → parked d os dir q.
Proof. intros Hcd [Hoff ?]. split; [by eapply offline_mono|done]. Qed.

Lemma parked_frame c os os' dir q : same_bucket dir os os' → parked c os dir q → parked c os' dir q.
Proof.
  intros Hsame [Hoff Hfiles]. split; [by eapply offline_frame|]. intros f Hf.
  rewrite Hsame; [by apply Hfiles|]. left. right. by eexists.
Qed.

Lemma durable_parked c b os q all : durable c b os q all → parked c os (b_dir b) q.
Proof.
  intros Hdu. split; [by eapply durable_offline|]. intros f Hf. eapply bucket_ok_files; [by destruct Hdu|].
  right. by exists f.
Qed.

(** The names that [Forks] gives are those of the consumers. *)
Lemma Forks_dom b os q f :
  bucket_ok b os q → is_Some (q !! "") → f ∈ Forks b ++ [""] ↔ is_Some (q !! f).
Proof.
  intros Hok Hmain. unfold Forks.
  rewrite elem_of_app, (merge_sort_Permutation String.le), list_elem_of_filter, list_elem_of_singleton.
  rewrite (proj2 (range_forks_spec b)), (bucket_ok_dom b os q f Hok).
  split; [by intros [[_ ?]| ->]|]. intros Hf. destruct (decide (f = "")); [by right|by left].
Qed.

Lemma Forks_NoDup b : NoDup (Forks b ++ [""]).
Proof.
  unfold Forks. apply NoDup_app. split_and!.
  - rewrite (merge_sort_Permutation String.le). apply NoDup_filter, range_forks_spec.
  - intros f. rewrite (merge_sort_Permutation String.le), list_elem_of_filter, list_elem_of_singleton. tauto.
  - apply NoDup_singleton.
Qed.

(** ** The theorems *)

(** C23. Opening a directory: [openBucket] returns a bucket in which every consumer
    has the items that its index file makes reachable, and all items of the log
    when that file is missing, torn, or records no batch - if the key of the
    first item of the log is not negative, else the recovery goes wrong.  If
    all consumers are empty, the log of the bucket is empty, too, whatever it
    held before.  (The counts of records must not wrap around for that:
    [2 * cap_weight] times the number of consumers is below 2^64.)  Only files of the bucket are touched, and the
    bucket can be closed and opened again. *)
Theorem openBucket_queues {St} (s : St) c dir forks opts key os q :
  offline c os dir q → cap_ok c → NoDup (forks ++ [""]) → (∀ f, f ∈ forks ++ [""] ↔ is_Some (q !! f)) →
  last dir = Some (Key_String key) → is_int64 key → os_faults os = [] →
  ∃ b os' all, openBucket dir forks opts s os = (Ok b, s, os') ∧ durable c b os' q all ∧ opened dir key opts b ∧
    only_files (bucket_files dir) os os' ∧ os_faults os' = [] ∧
    ((∀ f its, q !! f = Some its → its = []) → 2 * cap_weight c * Z.of_nat (length (forks ++ [""])) < 2 ^ 64 → all = []).
Proof. apply openBucket_emptied. Qed.

(** C21. A bucket survives being closed: [Close] succeeds and opening the directory
    with the same consumers gives a bucket with the same queues, provided that
    each index file records a batch (as every consumer has that was ever pushed
    to) or nothing was pushed at all. *)
Theorem BClose_openBucket c b os q all :
  durable c b os q all → cap_ok c → is_Some (q !! "") →
  last (b_dir b) = Some (Key_String (b_key b)) → is_int64 (b_key b) → os_faults os = [] →
  ∃ b1 b2 os2 all2, BClose b os = (Ok tt, b1, os) ∧
    openBucket (b_dir b) (Forks b) (b_opts b) tt os = (Ok b2, tt, os2) ∧ durable c b2 os2 q all2 ∧
    opened (b_dir b) (b_key b) (b_opts b) b2.
Proof.
  intros Hdu Hc Hmain Hlast Hkey Hno. pose proof (du_ok _ _ _ _ _ Hdu) as Hok.
  destruct (BClose_spec b os q Hok Hno) as (b1 & Hclose).
  destruct (openBucket_offline tt c (b_dir b) (Forks b) (b_opts b) (b_key b) os q)
    as (b2 & os2 & all2 & Heq & ? & ? & _);
    try done; [by eapply durable_offline|apply Forks_NoDup|intros f; by eapply Forks_dom|].
  by exists b1, b2, os2, all2.
Qed.

(** [Push] and [Read] keep a bucket durable: after any sequence of them the
    bucket can be closed and opened again without a change to any queue. *)
Theorem Push_Read_durable c b os q all :
  durable c b os q all → os_faults os = [] →
  (∀ items name, items ≠ [] → sorted_items items → Forall valid_item items → cap_ok (cap_push items c) →
    (∀ f its, q !! f = Some its → Z.of_nat (length (its ++ items)) < 2 ^ 32) →
    ∃ b' os', BPush items true name b os = (Ok tt, b', os') ∧
      durable (cap_push items c) b' os' ((.++ items) <$> q) (all ++ items)) ∧
  (∀ f its n op, q !! f = Some its → 0 < n → cap_ok (cap_read its c) →
    ∃ out rest b' os', BRead fst upd_fst n f (note op) (b, []) os = (Ok tt, (b', [out]), os') ∧
      smallest n its out rest ∧ durable (cap_read its c) b' os' (after_read op f rest q) all).
Proof.
  intros Hdu Hno. split.
  - intros items name Hne Hs Hval Hc Hlen.
    destruct (durable_push c b os q all items name) as (b' & os' & ? & _ & ? & _); try done. by exists b', os'.
  - intros f its n op Hq Hn Hc.
    destruct (durable_read fst upd_fst (b, []) c os b q all f its n op (note op) (λ items, (b, [items])))
      as (out & rest & b' & s' & os' & Heq & Hs & Hsm & _ & Hdu' & _); try done.
    exists out, rest, b', os'. split; [|done]. rewrite Heq. by destruct Hs as [->|[-> ->]].
Qed.

(** A directory without files of a bucket becomes a bucket in which all
    consumers exist and have no items. *)
Theorem openBucket_fresh {St} (s : St) dir forks opts key os :
  bare os dir (forks ++ [""]) → dirs_ok os dir → last dir = Some (Key_String key) → is_int64 key →
  os_faults os = [] →
  ∃ b os', openBucket dir forks opts s os = (Ok b, s, os') ∧
    bucket_ok b os' (empty_queues (forks ++ [""])) ∧ opened dir key opts b ∧
    only_files (bucket_files dir) os os' ∧ os_faults os' = [].
Proof.
  intros Hbare Hdirs Hlast Hkey Hno.
  destruct (openBucket_bare s 1 dir forks opts key os) as (b & os' & ? & ? & ? & ? & ? & _); try done. by exists b, os'.
Qed.

(** The bucket after a fork whose file is empty. *)
Lemma drained_offline c b os os1 q all dst l1 :
  durable c b os q all → recoverable (cap_weight c) all → q !! dst = None → wf_log l1 os1 → l1 = b_log b →
  read_file os1 (idxPath (b_dir b) dst) = Some [] → only_files (eq (idxPath (b_dir b) dst)) os os1 →
  offline (untold c) os1 (b_dir b) (<[dst := all]> q).
Proof.
  intros Hdu%(durable_mono _ (untold c)) Hrv; [|apply untold_le]. intros Hdst Hwf1 -> Hfile Hof.
  pose proof (durable_offline _ _ _ _ _ Hdu) as [Hd [Habove _] _ _].
  destruct Hdu as [Hok Hlog Hbytes _ _ Hclean Hnoted].
  assert (∀ p, p ≠ idxPath (b_dir b) dst → os_fs os1 !! p = os_fs os !! p) as Hsame
    by (intros p Hp; apply Hof, not_eq_sym, Hp).
  assert (os_fs os1 !! b_dir b = Some NDir) as Hd1 by (by rewrite Hsame by apply not_eq_sym, idxPath_ne).
  split; [done| | |].
  - split; [|by right]. eapply above_frame; [|done]. eapply only_files_mono; [|done]. intros p <-. right. by eexists.
  - exists (b_log b), all. split; [apply Hok|]. split; [exact Hwf1|]. split; [done|]. split; [done|]. intros f its.
    destruct (decide (dst = f)) as [<-|Hne].
    + rewrite lookup_insert_eq. intros [= <-]. apply (file_unused _ _ _ _ _ _ []); [|done..].
      split; [done|constructor|]. destruct Hrv. cbn. lia.
    + rewrite lookup_insert_ne by done. intros Hq.
      destruct (bucket_ok_lookup _ _ _ _ _ Hok Hq) as (idx & _ & Hfork).
      apply (file_state_frame _ _ os); [apply Hsame; intros Heq%idxPath_inj; by subst|].
      eapply noted_file_state; [done|by apply Hnoted].
  - eapply clean_new; [done| |done]. by rewrite (read_file_Some _ _ _ Hfile).
Qed.

End cycle.

(** ** Witnesses *)

#[local] Existing Instance Host_tiny.

Definition ex_kdir : path := ["q"; "K00000000000000000000"].

Definition ex_klog : Log :=
  mkLog (Join ex_kdir "dat.log") true (log_mmap ex_pushed) (log_size ex_pushed) true false.

(** The items of [ex_items] were pushed; in the second case they were popped. *)
Definition ex_recs (popped : bool) : list (Location * Trailer) :=
  (mkLocation 3 0 2, mkTrailer 2) :: if popped then [(mkLocation 3 0 0, mkTrailer 0)] else [].

Definition ex_kos (popped : bool) : OS := mkOS
  (<[ ["q"] := NDir ]> (<[ ex_kdir := NDir ]> (<[ Join ex_kdir "dat.log" := NFile (log_mmap ex_pushed) ]>
    {[ idxPath ex_kdir "" := NFile (enc_recs (ex_recs popped)) ]}))) [].

Definition ex_kmem (popped : bool) : Index slist :=
  match replay (ex_recs popped).*1 empty_Index with Ok i => i | _ => empty_Index end.

Definition ex_kbucket (popped : bool) : bucket slist :=
  mkBucket ex_kdir 0 ex_klog ex_opts {[ "" := mkBucketIndex (mkWriter (idxPath ex_kdir "") true true) (ex_kmem popped) ]}.

Definition ex_kqueue (popped : bool) : gmap ForkName Items := {[ "" := if popped then [] else ex_items ]}.

Lemma ex_klog_readable : readable ex_klog.
Proof. by destruct ex_pushed_readable. Qed.

Lemma ex_kmem_replay popped : replay (ex_recs popped).*1 empty_Index = Ok (ex_kmem popped).
Proof. by destruct popped. Qed.

Lemma ex_kmem_holds popped : wf_index (ex_kmem popped) ∧ holds ex_klog (ex_kmem popped) (if popped then [] else ex_items).
Proof.
  destruct (replay_spec (ex_recs popped).*1 (empty_Index : Index slist) wf_empty) as (j & Hr & Hwf & Hl).
  rewrite ex_kmem_replay in Hr. injection Hr as <-. split; [done|]. destruct popped.
  - apply (holds_equiv _ empty_Index); [|done|apply holds_empty]. intros k. rewrite Hl. cbn.
    unfold step_lst. cbn. repeat case_decide; done.
  - apply (holds_same ex_pushed); [done..|]. apply ex_mem_holds.
Qed.

Definition ex_cap : cap := mkCap 2 1000 true.

Lemma ex_cap_ok : cap_ok ex_cap.
Proof. split; cbn; lia. Qed.

Lemma ex_recorded popped : recorded 2 (ex_kos popped) (idxPath ex_kdir "") (ex_recs popped).
Proof.
  split; [destruct popped; vm_compute; reflexivity| |destruct popped; vm_compute; discriminate].
  destruct popped; repeat constructor; vm_compute; intuition discriminate.
Qed.

Lemma ex_kbucket_ok popped : bucket_ok (ex_kbucket popped) (ex_kos popped) (ex_kqueue popped).
Proof.
  split.
  - split; [apply ex_klog_readable|by repeat constructor|destruct popped; vm_compute; reflexivity].
  - done.
  - apply map_Forall2_singleton. destruct (ex_kmem_holds popped) as [Hwf Hh].
    split; [done| |done|destruct popped; vm_compute; reflexivity]. split; [done|done|].
    destruct (ex_recorded popped) as [Hf Hv _]. exists (ex_recs popped), (ex_kmem popped).
    split_and!; try done. apply ex_kmem_replay.
  - apply unshared_unnumbered, map_Forall_singleton. unfold unnumbered. apply (bool_decide_unpack _). by destruct popped; vm_compute.
Qed.

Lemma ex_valid : Forall valid_item ex_items.
Proof. by destruct ex_loc_ok. Qed.

Lemma ex_log_of : log_of ex_klog ex_items.
Proof. split; [apply ex_klog_readable|by vm_compute|by destruct ex_loc_ok]. Qed.

Lemma ex_recoverable : recoverable (cap_weight ex_cap) ex_items.
Proof. split; vm_compute; congruence. Qed.

Lemma ex_dirs_ok popped : dirs_ok (ex_kos popped) ex_kdir.
Proof.
  split; [|right; by vm_compute]. intros d [e He] Hne Hne0. unfold ex_kdir in *.
  destruct d as [|c [|c' [|? ?]]]; simplify_eq/=. by vm_compute.
Qed.

Lemma ex_clean popped : clean (ex_kos popped) ex_kdir (λ f, is_Some (ex_kqueue popped !! f)).
Proof.
  split; intros name.
  - intros [n Hn]. unfold ex_kos in Hn. cbn [os_fs] in Hn.
    rewrite !lookup_insert_Some, lookup_singleton_Some in Hn. unfold Join, idxPath, ex_kdir in Hn.
    destruct Hn as [[? _]|(_ & [[? _]|(_ & [[Heq _]|(_ & Heq & _)])])]; try done.
    + left. by injection Heq.
    + right. exists "". split; [by eexists|]. unfold idxPath, Join, ex_kdir. by injection Heq as <-.
  - unfold ex_kos. cbn [os_fs]. rewrite !lookup_insert_Some, lookup_singleton_Some. intros Hn.
    by destruct Hn as [[? _]|(_ & [[? _]|(_ & [[_ ?]|(_ & _ & ?)])])].
Qed.

Lemma ex_durable popped : durable ex_cap (ex_kbucket popped) (ex_kos popped) (ex_kqueue popped) ex_items.
Proof.
  split; [apply ex_kbucket_ok|apply ex_log_of|vm_compute; discriminate|by destruct popped; vm_compute|apply ex_dirs_ok
    |apply ex_clean|].
  unfold ex_kqueue. intros f its [<- <-]%lookup_singleton_Some. exists (ex_recs popped). split; [apply ex_recorded|].
  split; [left|intros _]; destruct popped; (done || by vm_compute).
Qed.

Lemma ex_offline popped : offline (T := slist) ex_cap (ex_kos popped) ex_kdir (ex_kqueue popped).
Proof. apply (durable_offline _ (ex_kbucket popped) _ _ ex_items), ex_durable. Qed.

Lemma ex_kdom popped f : f ∈ [""] ↔ is_Some (ex_kqueue popped !! f).
Proof.
  unfold ex_kqueue. rewrite list_elem_of_singleton. split; [intros ->; by eexists|].
  by intros [its [? _]%lookup_singleton_Some].
Qed.

Lemma openBucket_queues_witness :
  ∃ (b : bucket slist) os' all, @openBucket _ _ Host_tiny Unix_plain Range_id unit ex_kdir [] ex_opts tt (ex_kos true)
      = (Ok b, tt, os') ∧ durable ex_cap b os' (ex_kqueue true) all ∧ opened ex_kdir 0 ex_opts b ∧
    only_files (bucket_files ex_kdir) (ex_kos true) os' ∧ os_faults os' = [] ∧
    ((∀ f its, ex_kqueue true !! f = Some its → its = []) → 2 * cap_weight ex_cap * Z.of_nat (length ([] ++ [""] : list ForkName)) < 2 ^ 64 → all = []).
Proof.
  apply (@openBucket_queues _ _ _ Host_tiny Unix_plain Unix_plain_laws Range_id Range_id_laws unit tt ex_cap ex_kdir []);
    [apply ex_offline|apply ex_cap_ok|apply NoDup_singleton|apply ex_kdom|reflexivity|unfold is_int64; lia|reflexivity].
Defined.

Lemma BClose_openBucket_witness :
  ∃ b1 b2 os2 all2, @BClose _ Range_id (ex_kbucket false) (ex_kos false) = (Ok tt, b1, ex_kos false) ∧
    @openBucket _ _ Host_tiny Unix_plain Range_id unit ex_kdir (@Forks _ Range_id (ex_kbucket false)) ex_opts tt (ex_kos false)
      = (Ok b2, tt, os2) ∧ durable ex_cap b2 os2 (ex_kqueue false) all2 ∧ opened ex_kdir 0 ex_opts b2.
Proof.
  apply (@BClose_openBucket _ _ _ Host_tiny Unix_plain Unix_plain_laws Range_id Range_id_laws
    ex_cap (ex_kbucket false) (ex_kos false) (ex_kqueue false) ex_items);
    [apply ex_durable|apply ex_cap_ok|by eexists|reflexivity|unfold is_int64; cbn; lia|reflexivity].
Defined.

Lemma Push_Read_durable_witness :
  (∃ b' os', @BPush _ _ Host_tiny Unix_plain Range_id ex_items true "" (ex_kbucket false) (ex_kos false) = (Ok tt, b', os') ∧
    durable (cap_push ex_items ex_cap) b' os' ((.++ ex_items) <$> ex_kqueue false) (ex_items ++ ex_items)) ∧
  ∃ out rest b' os', @BRead _ _ Host_tiny Unix_plain _ fst upd_fst 1 "" (note ReadOpPop) (ex_kbucket false, []) (ex_kos false)
      = (Ok tt, (b', [out]), os') ∧
    smallest 1 ex_items out rest ∧ durable (cap_read ex_items ex_cap) b' os' (after_read ReadOpPop "" rest (ex_kqueue false)) ex_items.
Proof.
  destruct (@Push_Read_durable _ _ _ Host_tiny Unix_plain Unix_plain_laws Range_id Range_id_laws
    ex_cap (ex_kbucket false) (ex_kos false) (ex_kqueue false) ex_items (ex_durable false) eq_refl) as [Hpush Hread].
  split.
  - apply Hpush; [done|repeat constructor; vm_compute; discriminate|by destruct ex_loc_ok|split; vm_compute; intuition congruence|].
    unfold ex_kqueue. intros f its [<- <-]%lookup_singleton_Some. by vm_compute.
  - apply Hread; [done|lia|split; vm_compute; intuition congruence].
Defined.

Lemma openBucket_fresh_witness :
  ∃ (b : bucket slist) os', @openBucket _ _ Host_tiny Unix_plain Range_id unit ex_kdir ["f"] ex_opts tt
      (mkOS {[ ["q"] := NDir ]} []) = (Ok b, tt, os') ∧ bucket_ok b os' (empty_queues ["f"; ""]) ∧
    opened ex_kdir 0 ex_opts b ∧ only_files (bucket_files ex_kdir) (mkOS {[ ["q"] := NDir ]} []) os' ∧
    os_faults os' = [].
Proof.
  apply (@openBucket_fresh _ _ _ Host_tiny Unix_plain Unix_plain_laws Range_id Range_id_laws unit tt ex_kdir ["f"]);
    [split; [reflexivity|]|split; [|by left]|reflexivity|unfold is_int64; lia|reflexivity].
  - intros f [->|[->|[]%elem_of_nil]%elem_of_cons]%elem_of_cons; reflexivity.
  - intros d [e He] Hne Hne0. unfold ex_kdir in *.
    destruct d as [|c [|c' [|? ?]]]; simplify_eq/=. by vm_compute.
Defined.

