(* ===== verification/BucketCrash.v ===== *)
(** * Buckets after a crash

    The program stops in the middle of [Push] or [Read], because a system call
    fails or because it is killed there, and is started again: what a bucket that
    is opened then has.  All that counts is what is in the files.  At the end are
    examples in which items are lost. *)

From S2P Require Import Prelude BTree Os Item Vlog VlogIter Heap Index IndexFile Options Bucket.
From S2P Require Import BucketPeek BucketShare BucketPop BucketQueue BucketOpen BucketFaults BucketCycle.

(** The program starts again; from now on no call fails.  A schedule in which all
    calls fail from one on stands for a program that was killed there. *)
Definition restart (os : OS) : OS := mkOS (os_fs os) [].

Section crash.
Context {T : Type → Type} `{BTreeLaws T} `{Host, Unix, !UnixLaws} `{MapRange, !MapRangeLaws}.
Implicit Types (b : bucket T) (idx : bucketIndex T) (q : gmap ForkName Items) (i j : Index T).

Lemma sum_len_prefix (a locs : list Location) : Forall valid_loc locs → a `prefix_of` locs → 0 ≤ sum_len a ≤ sum_len locs.
Proof.
  intros Hv [c ->]. apply Forall_app in Hv as [Ha Hc]. rewrite sum_len_app.
  assert (∀ ls, Forall valid_loc ls → 0 ≤ sum_len ls) as Hpos.
  { intros ls Hls. apply sum_len_nonneg. eapply Forall_impl; [exact Hls|]. intros loc [_ [_ ?]]. lia. }
  pose proof (Hpos a Ha). pose proof (Hpos c Hc). lia.
Qed.

(** The file of a consumer that got some of the records for [locs], where [P] says
    what the index holds after the first of them. *)
Lemma cut_file t n m os os' dir l l1 f idx its all all1 locs (whole : Prop) (P : list Location → Items → Prop) :
  fork_ok os dir l f idx its → noted t n os (idxPath dir f) its all →
  appended (idxPath dir f) locs whole os os' → Forall valid_loc locs → n + sum_len locs ≤ m → recoverable m all1 →
  (∀ j locs1, idx_equiv (bi_Mem idx) j → wf_index j → locs1 `prefix_of` locs →
     ∃ j' its', replay locs1 j = Ok j' ∧ holds l1 j' its' ∧ Z.of_nat (length its') < 2 ^ 32 ∧ P locs1 its') →
  ∃ its', file_state (T := T) false m (restart os') l1 all1 (idxPath dir f) its' ∧
    ((∃ locs1, locs1 `prefix_of` locs ∧ P locs1 its' ∧ (whole → locs1 = locs)) ∨
     its' = all1 ∧ (whole → all = [] ∧ its = [] ∧ sum_len locs = 0)).
Proof.
  intros Hfork (recs & Hrec & Hcase & _) Happ Hv Hm Hrv Hpre. pose proof Hrec as [Hf Hvr Hw].
  destruct (recorded_index _ _ _ _ _ _ _ _ Hfork Hrec) as (j & Hj & Heq & Hwf).
  destruct (Happ _ Hf) as (recs' & tail & Hf' & Hp & Ht & Hwhole). destruct (sum_len_prefix _ _ Hv Hp) as [Hge Hle].
  assert (Forall (λ rc, valid_loc rc.1) (recs ++ recs')) as Hvall.
  { apply Forall_app. split; [done|]. destruct Hp as [c Hc]. rewrite Hc in Hv. apply Forall_app in Hv as [Hv' _]. by apply (Forall_fmap fst valid_loc). }
  assert (weight (recs ++ recs') ≤ m) as Hwm by (rewrite weight_app; unfold weight in *; lia).
  pose proof (weight_nonneg _ Hvr) as Hw0. rewrite app_assoc, <- enc_recs_app in Hf'.
  destruct (decide (tail = [])) as [->|Hne].
  2: { exists all1. split; [|right; split; [done|]; by intros [_ ?]%Hwhole].
       eapply (file_torn _ _ _ _ _ _ (recs ++ recs') tail); try done. destruct tail; [done|]. cbn [length] in *. lia. }
  rewrite app_nil_r in Hf'. assert (recorded m (restart os') (idxPath dir f) (recs ++ recs')) as Hrec' by by split.
  destruct (decide (weight (recs ++ recs') = 0)) as [Hz|Hnz].
  - exists all1. split; [by eapply file_unused|]. right. split; [done|]. intros [Hlocs _]%Hwhole. rewrite weight_app in Hz.
    unfold weight in *. rewrite Hlocs in *. destruct Hcase as [?|[-> ->]]; [lia|]. split_and!; [done..|lia].
  - destruct (Hpre j recs'.*1 Heq Hwf Hp) as (j' & its' & Hrep & Hh & Hlen & HP). exists its'. split.
    + eapply (file_kept _ _ _ _ _ _ (recs ++ recs') j'); try done; [|by rewrite fmap_app, replay_app, Hj].
      pose proof (weight_nonneg _ Hvall). lia.
    + left. exists recs'.*1. split_and!; try done. by intros [? _]%Hwhole.
Qed.

(** The files of a bucket that was durable are those of one that can be opened. *)
Lemma crash_parked c d b os os' q q' all l1 all1 :
  durable c b os q all → only_files (files_of (b_dir b) q) os os' → (∀ f, is_Some (q' !! f) ↔ is_Some (q !! f)) →
  log_path l1 = Join (b_dir b) "dat.log" → wf_log l1 os' → log_of l1 all1 → storages all1 ≤ cap_bytes d →
  (∀ f its, q' !! f = Some its →
     file_state (T := T) (cap_told d) (cap_weight d) (restart os') l1 all1 (idxPath (b_dir b) f) its ∧
     ∃ data, os_fs os' !! idxPath (b_dir b) f = Some (NFile data)) →
  parked (T := T) d (restart os') (b_dir b) q'.
Proof.
  intros [Hok _ _ Hd [Habove _] Hclean _] Hof Hdom Hp Hwf Hlog Hbytes Hfiles.
  assert (only_files (bucket_files (b_dir b)) os (restart os')) as Hofb.
  { split; [|done]. intros p Hnot. apply Hof. by intros ?%files_of_bucket. }
  assert (os_fs os' !! b_dir b = Some NDir) as Hd' by (rewrite <- Hd; apply Hof; intros ?%files_of_ne; done).
  split; [|intros f [its Hq]; by destruct (Hfiles f its Hq)].
  split; [done|split; [by eapply above_frame|by right]| |].
  - exists l1, all1. split_and!; try done; [by apply (wf_log_same_fs _ os')|]. intros f its Hq. by destruct (Hfiles f its Hq).
  - eapply (clean_frame os'); [done|]. eapply clean_mono; [intros f; apply Hdom|].
    eapply clean_kept; [|exact Hof|done]. intros p [->|(f & Hf & ->)].
    + destruct Hwf as [_ _ Hr]. rewrite Hp in Hr. eexists. by apply read_file_Some.
    + apply Hdom in Hf as [its Hq]. by destruct (Hfiles f its Hq).
Qed.

(** The bucket that is opened after the restart. *)
Lemma crash_open d b os os' q q' :
  bucket_ok b os q → is_Some (q !! "") → (∀ f, is_Some (q' !! f) ↔ is_Some (q !! f)) → parked (T := T) d (restart os') (b_dir b) q' →
  cap_ok d → last (b_dir b) = Some (Key_String (b_key b)) → is_int64 (b_key b) →
  ∃ b2 os2 all2, openBucket (b_dir b) (Forks b) (b_opts b) tt (restart os') = (Ok b2, tt, os2) ∧ durable d b2 os2 q' all2.
Proof.
  intros Hok Hmain Hdom [Hoff _] Hd Hlast Hkey.
  destruct (openBucket_offline tt d (b_dir b) (Forks b) (b_opts b) (b_key b) (restart os') q') as (b2 & os2 & all2 & Heq & Hdu & _);
    try done; [apply Forks_NoDup| |by exists b2, os2, all2].
  intros f. rewrite Hdom. by eapply Forks_dom.
Qed.

(** A choice for every consumer. *)
Lemma map_choice {A B} (R : ForkName → A → B → Prop) (m : gmap ForkName A) :
  (∀ f x, m !! f = Some x → ∃ y, R f x y) → ∃ m', map_Forall2 R m m'.
Proof.
  induction m as [|f x m Hf IH] using map_ind; intros Hall; [exists ∅; apply map_Forall2_empty|].
  destruct IH as [m' Hm']. { intros g y Hg. apply Hall. rewrite lookup_insert_ne; [done|]. intros ->. congruence. }
  destruct (Hall f x) as [y Hy]; [apply lookup_insert_eq|]. exists (<[f := y]> m'). by apply map_Forall2_insert_2.
Qed.

Lemma map_Forall2_dom {A B} (R : ForkName → A → B → Prop) (m : gmap ForkName A) m' f :
  map_Forall2 R m m' → is_Some (m' !! f) ↔ is_Some (m !! f).
Proof. intros Hm. specialize (Hm f). destruct Hm; split; intros [? ?]; done || by eexists. Qed.

Lemma recoverable_app n (a a' : Items) : recoverable n (a ++ a') → recoverable n a.
Proof.
  intros [Hf Hs Hw]. rewrite length_app in *. split; [|lia..]. destruct a; [done|exact Hf].
Qed.

(** From the files of the consumers to the bucket that is opened. *)
Lemma crash_choice c d b os os' q all l1 all1 (R : ForkName → Items → Items → Prop) :
  durable c b os q all → only_files (files_of (b_dir b) q) os os' →
  wf_log l1 os' → log_path l1 = log_path (b_log b) → log_of l1 all1 → storages all1 ≤ cap_bytes d → cap_told d = false →
  (∀ f its, q !! f = Some its → (∃ data, os_fs os' !! idxPath (b_dir b) f = Some (NFile data)) ∧
     ∃ its', file_state (T := T) false (cap_weight d) (restart os') l1 all1 (idxPath (b_dir b) f) its' ∧ R f its its') →
  ∃ q', parked (T := T) d (restart os') (b_dir b) q' ∧ map_Forall2 R q q'.
Proof.
  intros Hdu Hof Hwf Hp Hlog1 Hb Htold Hall. pose proof Hdu as [Hok _ _ _ _ _ _].
  destruct (map_choice _ q (λ f its Hq, proj2 (Hall f its Hq))) as [q' Hq'].
  pose proof (λ f, map_Forall2_dom _ q q' f Hq') as Hdom. exists q'. split.
  - eapply (crash_parked c d b os os' q q' all l1 all1); try done; [by rewrite Hp, (bo_path _ _ _ Hok)|].
    intros f its Hf. rewrite Htold. specialize (Hq' f). rewrite Hf in Hq'. destruct (q !! f) as [its0|] eqn:Hq; [|by inversion Hq'].
    split; [|by destruct (Hall f its0 Hq)]. inversion Hq' as [? ? [? _]|]; by subst.
  - intros f. destruct (Hq' f) as [its its' [_ ?]|]; by constructor.
Qed.

(** What a consumer may have after a push that was interrupted. *)
Definition push_survives (r : res unit) (items all its its' : Items) : Prop :=
  (its' = its ∨ its' = its ++ items ∨ its' = all ++ items) ∧ (r = Ok tt → its' = its ++ items).

(** The log was written, and some of the indexes. *)
Lemma push_crash_index c m b os os1 os' q all all1 l1 items r :
  durable c b os q all → only_files (eq (Join (b_dir b) "dat.log")) os os1 → pushed (b_log b) items l1 os1 → items ≠ [] →
  sorted_items items → Forall valid_item items → all1 = all ++ items → recoverable m all1 → 
  cap_weight c + Z.of_nat (length items) ≤ m →
  (∀ f its, q !! f = Some its → Z.of_nat (length (its ++ items)) < 2 ^ 32) →
  (∀ f, is_Some (q !! f) → appended (idxPath (b_dir b) f) [push_loc (b_log b) items] (r = Ok tt) os1 os') →
  ∀ f its, q !! f = Some its → ∃ its',
    file_state (T := T) false m (restart os') l1 all1 (idxPath (b_dir b) f) its' ∧ push_survives r items all its its'.
Proof.
  intros Hdu Hof Hp Hne Hs Hval -> Hrv Hm Hlen Happ f its Hq. pose proof Hdu as [Hok _ _ _ _ _ Hnoted].
  destruct (bucket_ok_lookup _ _ _ _ _ Hok Hq) as (idx & _ & Hfork). pose proof Hfork as [Hh _ _ Hsize].
  pose proof (bo_log _ _ _ Hok) as [Hl _ _]. pose proof (Hlen f its Hq) as Hsize'.
  pose proof (push_loc_ok _ _ _ _ Hl Hp Hne Hval) as Hloc. pose proof Hp as [_ _ [Hl1 _ _] _ _].
  destruct (loc_ok_valid _ _ _ Hl1 Hloc) as [Hvl Hpos]; [rewrite length_app in Hsize'; lia|].
  assert (sum_len [push_loc (b_log b) items] = Z.of_nat (length items)) as Hsum by (cbn; lia).
  destruct (cut_file (cap_told c) (cap_weight c) m os os' (b_dir b) (b_log b) l1 f idx its all (all ++ items)
    [push_loc (b_log b) items] (r = Ok tt) (λ locs1 its', locs1 = [] ∧ its' = its ∨ locs1 ≠ [] ∧ its' = its ++ items))
    as (its' & Hst & Hcase); try done.
  - by apply Hnoted.
  - intros data Hdata. apply (Happ f); [by eexists|]. unfold read_file in *. rewrite (proj1 Hof); [done|].
    apply not_eq_sym, idxPath_not_log.
  - by apply Forall_singleton.
  - lia.
  - intros j locs1 Hj Hwf Hpre. apply (holds_equiv _ _ j) in Hh; [|done..]. apply (holds_pushed _ _ _ _ _ _ Hl Hp) in Hh.
    destruct locs1 as [|loc locs1]; [exists j, its; split_and!; auto|].
    pose proof (prefix_cons_inv_1 _ _ _ _ Hpre) as ->. apply prefix_cons_inv_2, prefix_nil_inv in Hpre as ->.
    exists (Set_ (push_loc (b_log b) items) j), (its ++ items). split_and!; [|by apply holds_Set|done|by right].
    cbn [replay]. unfold Load_step. by replace (loc_Len (push_loc (b_log b) items) =? 0) with false by lia.
  - exists its'. split; [done|]. destruct Hcase as [(locs1 & _ & HP & Hw)|[-> Hw]].
    + split; [destruct HP as [[_ ->]|[_ ->]]; auto|]. intros ->%Hw. destruct HP as [[? _]|[_ ->]]; done.
    + split; [auto|]. intros (_ & _ & Hz)%Hw. destruct items; [done|]. cbn [length] in *. lia.
Qed.

(** No index was written. *)
Lemma push_crash_log c m b os os' q all all1 l1 items e :
  durable c b os q all → only_files (eq (Join (b_dir b) "dat.log")) os os' → log_file (b_log b) items l1 os' →
  (all1 = all ∨ all1 = all ++ items) → recoverable m all1 → cap_weight c ≤ m →
  ∀ f its, q !! f = Some its → ∃ its',
    file_state (T := T) false m (restart os') l1 all1 (idxPath (b_dir b) f) its' ∧ push_survives (Err e) items all its its'.
Proof.
  intros Hdu Hof Hlf Hall Hrv Hm f its Hq. pose proof Hdu as [Hok _ _ _ _ _ Hnoted].
  destruct (bucket_ok_lookup _ _ _ _ _ Hok Hq) as (idx & _ & Hfork). pose proof Hfork as [Hh _ _ Hsize].
  pose proof (bo_log _ _ _ Hok) as [Hl _ _].
  destruct (cut_file (cap_told c) (cap_weight c) m os os' (b_dir b) (b_log b) l1 f idx its all all1 [] True (λ _ its', its' = its))
    as (its' & Hst & Hcase); try done.
  - by apply Hnoted.
  - apply appended_none, Hof. apply not_eq_sym, idxPath_not_log.
  - cbn. lia.
  - intros j locs1 Hj Hwf ->%prefix_nil_inv. exists j, its. split_and!; try done.
    apply (holds_equiv _ _ j) in Hh; [|done..]. eapply holds_grow; [|exact Hh]. intros loc a. by eapply log_file_grow.
  - exists its'. split; [done|]. split; [|done]. destruct Hcase as [(_ & _ & -> & _)|[-> Hw]]; [by left|].
    destruct (Hw I) as (-> & -> & _). destruct Hall as [-> | ->]; auto.
Qed.

Lemma log_file_of l items l1 os' all :
  log_of l all → Forall valid_item items → log_file l items l1 os' →
  (contents l1 = contents l → log_of l1 all) ∧ (pushed l items l1 os' → log_of l1 (all ++ items)).
Proof.
  intros [Hl Hc Hv] Hval [[Hl1 _ _] _ _]. split; [intros Heq|intros [Hc' _ _ _ _]].
  - split; [done|by rewrite Heq|done].
  - split; [done|by rewrite Hc', Hc, enc_items_app|by apply Forall_app].
Qed.

Lemma unchanged_index b os os' q f :
  bucket_ok b os q → only_files (eq (Join (b_dir b) "dat.log")) os os' → is_Some (q !! f) →
  ∃ data, os_fs os' !! idxPath (b_dir b) f = Some (NFile data).
Proof.
  intros Hok [Hof _] Hf. rewrite Hof by apply not_eq_sym, idxPath_not_log. eapply bucket_ok_files; [done|]. right. by exists f.
Qed.

Lemma appended_file p locs whole os os' data :
  os_fs os !! p = Some (NFile data) → appended p locs whole os os' → ∃ data', os_fs os' !! p = Some (NFile data').
Proof.
  intros Hf Happ. destruct (Happ data) as (recs & tail & Hf' & _); [unfold read_file; by rewrite Hf|].
  eexists. by apply read_file_Some.
Qed.

(** The files after a push. *)
Lemma BPush_crash_parked c b os q all items name faults :
  durable c b os q all → items ≠ [] → sorted_items items → Forall valid_item items → cap_ok (cap_push items c) →
  (∀ f its, q !! f = Some its → Z.of_nat (length (its ++ items)) < 2 ^ 32) →
  recoverable (cap_weight (cap_push items c)) (all ++ items) →
  ∃ r b' os' q', BPush items true name b (mkOS (os_fs os) faults) = (r, b', os') ∧ (r = Ok tt ∨ ∃ e, r = Err e) ∧
    only_files (bucket_files (b_dir b)) os (restart os') ∧ parked (T := T) (untold (cap_push items c)) (restart os') (b_dir b) q' ∧
    map_Forall2 (λ _, push_survives r items all) q q'.
Proof.
  intros Hdu0 Hne Hs Hval Hc Hlen Hrv. set (os0 := mkOS (os_fs os) faults).
  assert (durable c b os0 q all) as Hdu by by apply (durable_frame _ _ os). clear Hdu0. pose proof Hdu as [Hok Hlog Hbytes _ _ _ _].
  pose proof (recoverable_app _ _ _ Hrv) as Hrv0. pose proof (storages_ge items) as Hst. pose proof Hc as [[_ Hw] [_ Hb]]. cbn in Hw, Hb.
  destruct (BPush_outcome b os0 q items name (bucket_ok_serving _ _ _ Hok) Hne Hs Hval) as (r & b' & os' & Heq & Hends).
  { rewrite (log_of_size _ _ Hlog). lia. }
  assert (only_files (files_of (b_dir b) q) os0 os' → only_files (bucket_files (b_dir b)) os (restart os')) as Hfiles.
  { intros [Hof _]. split; [|done]. intros p Hnot. change (os_fs os !! p) with (os_fs os0 !! p). apply Hof. by intros ?%files_of_bucket. }
  exists r, b', os'. destruct Hends as [e l1 l2 os' Hlf Hof _|r l1 os1 b' os' q1 Hp Hof Hr Hsv Hl1 _ _ Hof' Happ].
  - assert (∃ all1, log_of l1 all1 ∧ (all1 = all ∨ all1 = all ++ items)) as (all1 & Hlog1 & Hall1).
    { destruct (log_file_of _ _ _ _ all Hlog Hval Hlf) as [H1' H2']. destruct (lf_case _ _ _ _ Hlf) as [[? _]|?]; eauto. }
    assert (only_files (files_of (b_dir b) q) os0 os') as Hofq by (eapply only_files_mono; [|exact Hof]; intros p <-; by left).
    destruct (crash_choice c (untold (cap_push items c)) b os0 os' q all l1 all1 (λ _, push_survives (Err e) items all))
      as (q' & ? & ?); try done.
    + apply Hlf.
    + apply Hlf.
    + destruct Hall1 as [->| ->]; rewrite ?storages_app; cbn; lia.
    + intros f its Hq. split; [apply (unchanged_index b os0 os' q); [done|done|by eexists]|].
      eapply (push_crash_log c _ b os0 os' q all all1 l1); try done; [by destruct Hall1 as [->| ->]|cbn; lia].
    + exists q'. split_and!; auto. right. by exists e.
  - pose proof Hp as [_ _ Hwf1 Hp1 _]. pose proof Hsv as [Hwf' _ _ _]. rewrite Hl1 in Hwf'.
    assert (only_files (files_of (b_dir b) q) os0 os') as Hofq.
    { transitivity os1; (eapply only_files_mono; [|done]); [intros p <-; by left|by right]. }
    destruct (crash_choice c (untold (cap_push items c)) b os0 os' q all l1 (all ++ items) (λ _, push_survives r items all))
      as (q' & ? & ?); try done.
    + destruct Hlog as [? Hcont Hv]. destruct Hp as [Hc' _ [Hl1' _ _] _ _].
      split; [done|by rewrite Hc', Hcont, enc_items_app|by apply Forall_app].
    + rewrite storages_app. cbn. lia.
    + intros f its Hq. split.
      * destruct (unchanged_index b os0 os1 q f Hok Hof) as [data Hf]; [by eexists|].
        eapply appended_file; [exact Hf|]. apply Happ. by eexists.
      * eapply (push_crash_index c _ b os0 os1 os' q all); try done.
    + exists q'. split_and!; auto. destruct Hr as [[? _]|?]; auto.
Qed.

(** C14. [Push] is safe against crashes: whichever system calls fail, when the bucket is
    opened again each consumer has its items as they were before or as they are with the
    batch - or, if its index file ends in the middle of a record, everything that
    is in the log; if the push succeeded everybody has the batch.  The key of the
    first item of the log must not be negative: else an index that is recovered
    after a torn write has an empty entry, which hides later batches. *)
Theorem BPush_crash c b os q all items name faults :
  durable c b os q all → items ≠ [] → sorted_items items → Forall valid_item items → cap_ok (cap_push items c) →
  (∀ f its, q !! f = Some its → Z.of_nat (length (its ++ items)) < 2 ^ 32) →
  recoverable (cap_weight (cap_push items c)) (all ++ items) →
  is_Some (q !! "") → last (b_dir b) = Some (Key_String (b_key b)) → is_int64 (b_key b) →
  ∃ r b' os' q' b2 os2 all2, BPush items true name b (mkOS (os_fs os) faults) = (r, b', os') ∧
    openBucket (b_dir b) (Forks b) (b_opts b) tt (restart os') = (Ok b2, tt, os2) ∧
    durable (untold (cap_push items c)) b2 os2 q' all2 ∧ map_Forall2 (λ _, push_survives r items all) q q'.
Proof.
  intros Hdu Hne Hs Hval Hc Hlen Hrv Hmain Hlast Hkey.
  destruct (BPush_crash_parked c b os q all items name faults) as (r & b' & os' & q' & Heq & _ & _ & Hpk & Hq'); try done.
  destruct (crash_open (untold (cap_push items c)) b os os' q q') as (b2 & os2 & all2 & ? & ?); try done; [by destruct Hdu| |by destruct Hc; split|].
  - intros f. by eapply map_Forall2_dom.
  - by exists r, b', os', q', b2, os2, all2.
Qed.

(** What a consumer may have after a pop that was interrupted. *)
Record pop_survives (r : res unit) (all its rest its' : Items) : Prop := {
  pv_unread : rest ⊆+ its';
  pv_bound : its' ⊆+ its ++ rest ∨ its' = all;
  pv_done : r = Ok tt → its' ≡ₚ rest;
}.

Lemma pop_crash_index t n m os os' dir l f idx its all rest locs r :
  fork_ok os dir l f idx its → noted t n os (idxPath dir f) its all → popping l (bi_Mem idx) its rest locs →
  appended (idxPath dir f) locs (r = Ok tt) os os' → rest ⊆+ its → its ⊆+ all →
  2 * Z.of_nat (length its) < 2 ^ 32 → n + Z.of_nat (length its) ≤ m → recoverable m all →
  ∃ its', file_state (T := T) false m (restart os') l all (idxPath dir f) its' ∧ pop_survives r all its rest its'.
Proof.
  intros Hfork Hnt [Hv Hw Hpre] Happ Hsub Hall Hlen Hm Hrv. pose proof (submseteq_length _ _ Hsub) as Hle.
  destruct (cut_file t n m os os' dir l l f idx its all all locs (r = Ok tt)
    (λ locs1 its', remains its rest its' ∧ (locs1 = locs → its' ≡ₚ rest))) as (its' & Hst & Hcase); try done; [lia| |].
  - intros j locs1 Hj Hwf Hp. destruct (Hpre j locs1 Hj Hwf Hp) as (j' & its' & Hrep & Hh & Hrem & Hfull).
    exists j', its'. split_and!; try done. destruct Hrem as [_ Hb]. apply submseteq_length in Hb. rewrite length_app in Hb. lia.
  - exists its'. split; [done|]. destruct Hcase as [(locs1 & _ & [[Hu Hb] Hfull] & Hd)|[-> Hd]].
    + split; [done|by left|]. intros Hr. by apply Hfull, Hd.
    + split; [by transitivity its|by right|]. intros (-> & -> & _)%Hd. by apply submseteq_nil_r in Hsub as ->.
Qed.

(** C15. [Read] with [ReadOpPop] is safe against crashes: whichever system calls fail,
    when the bucket is opened again everything that was not handed out is still there
    (items that were may be there again), and exactly that if the read
    succeeded; other consumers are not affected.  The consumer has no two
    batches with the same first key, and the key of the first item of the log is
    not negative: else an index that is recovered after a torn write leaves
    unread items unreachable. *)
Theorem BRead_crash c b os q all f idx its n :
  durable c b os q all → q !! f = Some its → b_indexes b !! f = Some idx → NoDup (loc_Key <$> index_locs (bi_Mem idx)) →
  0 < n → 2 * Z.of_nat (length its) < 2 ^ 32 → its ⊆+ all → cap_ok (cap_read its c) →
  recoverable (cap_weight (cap_read its c)) all →
  is_Some (q !! "") → last (b_dir b) = Some (Key_String (b_key b)) → is_int64 (b_key b) →
  ∃ out rest r b' os' its' b2 os2 all2,
    BRead fst upd_fst n f (note ReadOpPop) (b, []) os = (r, (b', [out]), os') ∧ smallest n its out rest ∧
    openBucket (b_dir b) (Forks b) (b_opts b) tt (restart os') = (Ok b2, tt, os2) ∧
    durable (untold (cap_read its c)) b2 os2 (<[f := its']> q) all2 ∧ pop_survives r all its rest its'.
Proof.
  intros Hdu Hq Hidx Hnd Hn Hlen Hall Hc Hrv Hmain Hlast Hkey. pose proof Hdu as [Hok Hlog Hbytes _ _ _ Hnoted].
  destruct (bucket_ok_lookup _ _ _ _ _ Hok Hq) as (idx' & Hidx' & Hfork). simplify_eq.
  destruct (BRead_outcome b os q f idx its n (bucket_ok_serving _ _ _ Hok) Hq Hidx Hnd Hn ltac:(lia))
    as (out & rest & locs & r & mem & its1 & os' & Heq & Hsm & Hpp & _ & _ & _ & Hof & Happ & _).
  assert (rest ⊆+ its) as Hsub by (destruct Hsm as [-> _ _ _]; by apply submseteq_inserts_l).
  destruct (pop_crash_index _ _ (cap_weight (cap_read its c)) os os' _ _ f idx its all rest locs r Hfork (Hnoted f its Hq) Hpp Happ Hsub)
    as (its' & Hst & Hsv); try done.
  assert (cap_ok (untold (cap_read its c))) as Hd by (destruct Hc; by split).
  assert (∀ g, is_Some (<[f := its']> q !! g) ↔ is_Some (q !! g)) as Hdom.
  { intros g. destruct (decide (f = g)) as [<-|Hne]; [|by rewrite lookup_insert_ne].
    rewrite lookup_insert_eq, Hq. split; by eexists. }
  assert (only_files (files_of (b_dir b) q) os os') as Hof'.
  { eapply only_files_mono; [|exact Hof]. intros p <-. right. exists f. split; [by eexists|done]. }
  destruct (crash_open (untold (cap_read its c)) b os os' q (<[f := its']> q)) as (b2 & os2 & all2 & Hopen & Hdu2); try done.
  - eapply (crash_parked c _ b os os' q _ all (b_log b) all); try done; [apply Hok| |].
    + eapply wf_log_frame; [exact Hof| |apply Hok]. rewrite (bo_path _ _ _ Hok). apply not_eq_sym, idxPath_not_log.
    + intros g its2. destruct (decide (f = g)) as [<-|Hne].
      * rewrite lookup_insert_eq. intros [= <-]. split; [done|].
        destruct (bucket_ok_files b os q (idxPath (b_dir b) f) Hok) as [data Hf]; [right; exists f; split; [by eexists|done]|].
        by eapply appended_file.
      * rewrite lookup_insert_ne by done. intros Hg. destruct (bucket_ok_lookup _ _ _ _ _ Hok Hg) as (idx2 & _ & Hfork2).
        assert (os_fs os' !! idxPath (b_dir b) g = os_fs os !! idxPath (b_dir b) g) as Hsame by (apply Hof; by intros ->%idxPath_inj).
        split; [|rewrite Hsame; eapply bucket_ok_files; [done|right; exists g; split; [by eexists|done]]].
        eapply (file_state_frame _ _ os (restart os')); [done|]. eapply file_state_mono; [| |eapply noted_file_state; [done|by apply Hnoted]]; [done|].
        cbn. lia.
  - exists out, rest. eexists _, _, os', its', b2, os2, all2. by split_and!.
Qed.
End crash.

(** ** Witnesses *)

#[local] Existing Instance Host_tiny.

(** The bucket of [BucketCycle.v], with calls that fail. *)
Definition ex_failing (faults : list bool) : OS := mkOS (os_fs (ex_kos false)) faults.

Lemma ex_failing_durable faults : durable ex_cap (ex_kbucket false) (ex_failing faults) (ex_kqueue false) ex_items.
Proof. apply (durable_frame _ _ (ex_kos false)); [done|apply ex_durable]. Qed.

Lemma ex_kqueue_size (items : Items) :
  (length items < 100)%nat → ∀ f its, ex_kqueue false !! f = Some its → Z.of_nat (length (its ++ items)) < 2 ^ 32.
Proof. unfold ex_kqueue. intros Hlen f its [_ <-]%lookup_singleton_Some. rewrite length_app. cbn. lia. Qed.

Definition ex_kindex : bucketIndex slist := mkBucketIndex (mkWriter (idxPath ex_kdir "") true true) (ex_kmem false).

Lemma ex_kindex_apart : NoDup (loc_Key <$> index_locs (bi_Mem ex_kindex)).
Proof. vm_compute. apply NoDup_singleton. Qed.

Lemma BPush_faults_witness :
  ∃ r b' os', @BPush slist _ Host_tiny Unix_plain Range_id ex_new true "" (ex_kbucket false) (ex_failing [false; false; true]) = (r, b', os') ∧
    (r = Ok tt ∧ serving b' os' ((.++ ex_new) <$> ex_kqueue false) ∨
     (∃ e q', r = Err e ∧ serving b' os' q' ∧ maybe_pushed ex_new (ex_kqueue false) q') ∨
     (∃ e n l1, r = Err e ∧
        b' = set_log (set_mmap (@unix_Mremap_failed Unix_plain (log_mmap (b_log (ex_kbucket false))) n) (b_log (ex_kbucket false))) (ex_kbucket false) ∧
        serving (set_log l1 (ex_kbucket false)) os' (ex_kqueue false))).
Proof.
  apply (@BPush_faults slist _ _ Host_tiny Unix_plain Unix_plain_laws Range_id Range_id_laws);
    [apply bucket_ok_serving, (ex_failing_durable [false; false; true])|done|apply ex_new_sorted|apply ex_new_valid|vm_compute; discriminate].
Defined.

Lemma BRead_faults_witness :
  ∃ out rest r b' os' its', @BRead slist _ Host_tiny Unix_plain _ fst upd_fst 1 "" (note ReadOpPop) (ex_kbucket false, []) (ex_failing [false; true])
      = (r, (b', [out]), os') ∧
    smallest 1 ex_items out rest ∧ serving b' os' (<["" := its']> (ex_kqueue false)) ∧
    (r = Ok tt ∧ its' = rest ∨ ∃ e, r = Err e ∧ remains ex_items rest its').
Proof.
  apply (@BRead_faults slist _ _ Host_tiny Unix_plain (ex_kbucket false) (ex_failing [false; true]) (ex_kqueue false) "" ex_kindex ex_items 1);
    [apply bucket_ok_serving, (ex_failing_durable [false; true])|reflexivity|reflexivity|apply ex_kindex_apart|lia|reflexivity].
Defined.

Lemma BPush_crash_witness :
  ∃ r b' os' q' b2 os2 all2,
    @BPush slist _ Host_tiny Unix_plain Range_id ex_new true "" (ex_kbucket false) (ex_failing [false; false; true]) = (r, b', os') ∧
    @openBucket slist _ Host_tiny Unix_plain Range_id unit ex_kdir (@Forks slist Range_id (ex_kbucket false)) ex_opts tt (restart os') = (Ok b2, tt, os2) ∧
    durable (untold (cap_push ex_new ex_cap)) b2 os2 q' all2 ∧ map_Forall2 (λ _, push_survives r ex_new ex_items) (ex_kqueue false) q'.
Proof.
  apply (@BPush_crash slist _ _ Host_tiny Unix_plain Unix_plain_laws Range_id Range_id_laws ex_cap (ex_kbucket false) (ex_kos false));
    [apply ex_durable|done|apply ex_new_sorted|apply ex_new_valid|split; vm_compute; intuition congruence
    |apply ex_kqueue_size; cbn; lia|split; vm_compute; congruence|by eexists|reflexivity|vm_compute; intuition congruence].
Defined.

Lemma BRead_crash_witness :
  ∃ out rest r b' os' its' b2 os2 all2,
    @BRead slist _ Host_tiny Unix_plain _ fst upd_fst 1 "" (note ReadOpPop) (ex_kbucket false, []) (ex_failing [false; true]) = (r, (b', [out]), os') ∧
    smallest 1 ex_items out rest ∧
    @openBucket slist _ Host_tiny Unix_plain Range_id unit ex_kdir (@Forks slist Range_id (ex_kbucket false)) ex_opts tt (restart os') = (Ok b2, tt, os2) ∧
    durable (untold (cap_read ex_items ex_cap)) b2 os2 (<["" := its']> (ex_kqueue false)) all2 ∧ pop_survives r ex_items ex_items rest its'.
Proof.
  apply (@BRead_crash slist _ _ Host_tiny Unix_plain Unix_plain_laws Range_id Range_id_laws ex_cap (ex_kbucket false)
    (ex_failing [false; true]) (ex_kqueue false) ex_items "" ex_kindex ex_items 1);
    [apply ex_failing_durable|reflexivity|reflexivity|apply ex_kindex_apart|lia|reflexivity|done|split; vm_compute; intuition congruence
    |split; vm_compute; congruence|by eexists|reflexivity|vm_compute; intuition congruence].
Defined.

(** ** Two batches with the same first key *)

Definition ex_push (items : Items) : M (bucket slist) unit := @BPush slist _ Host_tiny Unix_plain Range_id items true "".

Definition ex_pop (n : Z) : M (bucket slist * list Items) unit := @BRead slist _ Host_tiny Unix_plain _ fst upd_fst n "" (note ReadOpPop).

Definition ex_take (n : Z) : M (bucket slist) unit := λ b os, let '(r, (b, _), os) := ex_pop n (b, []) os in (r, b, os).

Definition ex_reopen : M unit (bucket slist) := @openBucket slist _ Host_tiny Unix_plain Range_id _ ex_kdir [] ex_opts.

(** Run [m] on a new bucket; then read everything, from the same bucket or from the
    one that is there after a restart. *)
Definition ex_afterwards (m : M (bucket slist) unit) (again : bool) : res (list Items) :=
  match ex_reopen tt (mkOS {[ ["q"] := NDir ]} []) with
  | (Ok b, _, os) =>
      let '(_, b, os) := m b os in
      match (if again : bool then ex_reopen tt (restart os) else (Ok b, tt, restart os)) with
      | (Ok b, _, os) => let '(_, (_, outs), _) := ex_pop 100 (b, []) os in Ok outs
      | _ => Err EClosed
      end
  | _ => Err EClosed
  end.

(** [m], while some calls fail; an error is ignored. *)
Definition failing (faults : list bool) (m : M (bucket slist) unit) : M (bucket slist) unit :=
  λ b os, let '(_, b, os) := m b (mkOS (os_fs os) faults) in (Ok tt, b, restart os).

Definition ex_interrupted (faults : list bool) (again : bool) : res (list Items) :=
  ex_afterwards (ex_push [mkItem 1 []; mkItem 9 []] ;; ex_push [mkItem 1 []; mkItem 5 []] ;;
    failing faults (ex_take 2)) again.

(** [popSync] takes away the batches by their first keys, not those that it has
    kept the rest of.  When it stops after the batch of 1 and 9 was taken away and
    the rest of the batch of 1 and 5 was kept, the item 9, which nobody has read,
    is nowhere: neither in memory nor, if the next write fails, on disk. *)
Lemma pop_interrupted_loses :
  ex_interrupted [] true = Ok [[mkItem 5 []; mkItem 9 []]] ∧
  ex_interrupted [false; true] false = Ok [[mkItem 1 []; mkItem 5 []; mkItem 5 []]] ∧
  ex_interrupted [false; false; true] true = Ok [[mkItem 1 []; mkItem 5 []; mkItem 5 []]].
Proof. split_and!; vm_compute; reflexivity. Qed.

Definition ex_failed_push (faults : list bool) (again : bool) : res (list Items) :=
  ex_afterwards (failing faults (ex_push [mkItem 1 []]) ;; ex_push [mkItem 1 [Byte.x61]] ;; ex_take 1) again.

(** A push whose record could not be written stays in memory.  When its items are
    read, the record of that takes away another batch with the same first key
    from the file: after a restart the item of the second push is lost. *)
Lemma push_failed_loses :
  ex_failed_push [false; true] false = Ok [[mkItem 1 [Byte.x61]]] ∧ ex_failed_push [false; true] true = Ok [[]].
Proof. split; vm_compute; reflexivity. Qed.

Definition ex_fork (name : ForkName) : M (bucket slist) unit := @BFork slist _ Unix_plain "" name.

Definition ex_take_as (name : ForkName) (n : Z) : M (bucket slist) unit := λ b os,
  let '(r, (b, _), os) := @BRead slist _ Host_tiny Unix_plain _ fst upd_fst n name (note ReadOpPop) (b, []) os in (r, b, os).

(** Three batches with the items 5 and 6; the queue takes one item, and a fork,
    when there is one, two of its own. *)
Definition ex_shared (forked : bool) : res (list Items) :=
  let batch x := [mkItem 5 [x]; mkItem 6 [x]] in
  ex_afterwards (ex_push (batch Byte.x61) ;; ex_push (batch Byte.x62) ;; ex_push (batch Byte.x63) ;;
    if forked then ex_fork "f" ;; ex_take 1 ;; ex_take_as "f" 2 else ex_take 1) false.

(** The indexes of the queue and of its new fork use the same arrays.  The batch
    that the queue has not begun ([b]) is kept behind the three locations of key
    5; there the fork writes the one that it has not begun ([c]): the queue has
    lost [b] and has [c] twice. *)
Lemma fork_shared_loses :
  ex_shared false = Ok [[mkItem 5 [Byte.x63]; mkItem 5 [Byte.x62]; mkItem 6 [Byte.x62]; mkItem 6 [Byte.x63]; mkItem 6 [Byte.x61]]] ∧
  ex_shared true = Ok [[mkItem 5 [Byte.x63]; mkItem 5 [Byte.x63]; mkItem 6 [Byte.x63]; mkItem 6 [Byte.x63]; mkItem 6 [Byte.x61]]].
Proof. split; vm_compute; reflexivity. Qed.

(** [Delete] of 9 from two batches with the same first key, of which the second one
    has it. *)
Definition ex_delete (first second : Items) : res (list Items) :=
  ex_afterwards (ex_push first ;; ex_push second ;; _ ← @BDelete slist _ Host_tiny Unix_plain "" 9 9; mret tt) false.

(** [Delete] goes by first keys, and takes away the older one of two batches,
    although it is the newer one that the range begins in: 5 is lost, and 9 is
    still there. *)
Lemma delete_takes_other :
  ex_delete [mkItem 1 []; mkItem 9 []] [mkItem 1 []; mkItem 5 []] = Ok [[mkItem 1 []; mkItem 1 []; mkItem 5 []]] ∧
  ex_delete [mkItem 1 []; mkItem 5 []] [mkItem 1 []; mkItem 9 []] = Ok [[mkItem 1 []; mkItem 1 []; mkItem 9 []]].
Proof. split; vm_compute; reflexivity. Qed.
