(* ===== verification/Names.v ===== *)
(** * api.go: the names of forks

    [ForkName.Validate] decides which names a fork can have.  The file name of a
    consumer's index can be taken apart again for those names. *)

From S2P Require Import Prelude Os Item Bucket.

(** Package unicode beyond ASCII. *)
Class Unicode := {
  uni_upper : Z → bool;
  uni_lower : Z → bool;
  uni_digit : Z → bool;
}.

Section names.
Context `{Unicode}.

Definition between (lo hi r : Z) : bool := (lo <=? r) && (r <=? hi).

Definition IsUpper (r : Z) : bool := if r <? 128 then between 65 90 r else uni_upper r.

Definition IsLower (r : Z) : bool := if r <? 128 then between 97 122 r else uni_lower r.

Definition IsDigit (r : Z) : bool := if r <? 128 then between 48 57 r else uni_digit r.

Definition RuneError : Z := 65533.

(** The first rune of a string in UTF-8 and the bytes behind it; each byte that
    is not part of a valid encoding is a [RuneError]. *)
Definition DecodeRune (b0 : Z) (s : list Z) : Z * list Z :=
  let cont := between 128 191 in
  if b0 <? 128 then (b0, s)
  else
    match s with
    | b1 :: s1 =>
        if between 194 223 b0 && cont b1 then (Z.lor (Z.shiftl (Z.land b0 31) 6) (Z.land b1 63), s1)
        else
          match s1 with
          | b2 :: s2 =>
              let lo3 := if b0 =? 224 then 160 else 128 in
              let hi3 := if b0 =? 237 then 159 else 191 in
              if between 224 239 b0 && between lo3 hi3 b1 && cont b2 then
                (Z.lor (Z.lor (Z.shiftl (Z.land b0 15) 12) (Z.shiftl (Z.land b1 63) 6)) (Z.land b2 63), s2)
              else
                match s2 with
                | b3 :: s3 =>
                    let lo4 := if b0 =? 240 then 144 else 128 in
                    let hi4 := if b0 =? 244 then 143 else 191 in
                    if between 240 244 b0 && between lo4 hi4 b1 && cont b2 && cont b3 then
                      (Z.lor (Z.lor (Z.shiftl (Z.land b0 7) 18) (Z.shiftl (Z.land b1 63) 12))
                         (Z.lor (Z.shiftl (Z.land b2 63) 6) (Z.land b3 63)), s3)
                    else (RuneError, s)
                | [] => (RuneError, s)
                end
          | [] => (RuneError, s)
          end
    | [] => (RuneError, s)
    end.

(** [[]rune(name)]; a rune takes at least one byte. *)
Fixpoint runes (fuel : nat) (s : list Z) : list Z :=
  match fuel, s with
  | S fuel, b :: s => let '(r, s) := DecodeRune b s in r :: runes fuel s
  | _, _ => []
  end.

Definition rune_ok (rn : Z) : bool :=
  IsUpper rn || IsLower rn || IsDigit rn || (rn =? 45) || (rn =? 95).

Definition Validate_name (name : ForkName) : res unit :=
  if decide (name = "") then Err (EInvalid "empty string not allowed as fork name")
  else
    let s := (λ c, Z.of_N (Ascii.N_of_ascii c)) <$> chars name in
    if forallb rune_ok (runes (length s) s) then Ok tt else Err (EInvalid "invalid fork name").
End names.

(** No letters and digits beyond ASCII. *)
Definition Unicode_ascii : Unicode := {| uni_upper _ := false; uni_lower _ := false; uni_digit _ := false |}.
