(* ===== verification/Buckets.v ===== *)
(** * buckets.go: the list of buckets

    A queue keeps its buckets in an ordered map from their keys to pointers;
    [nil] stands for a bucket that is on disk but not open.  The buckets that
    were ever opened are in [bs_heap], and a pointer is a position in it, so that
    an operation which keeps a pointer sees what others do to its bucket.  The
    mutex and [readBuf], which only saves allocations, are left out. *)

From S2P Require Import Prelude BTree Os Item Vlog Index IndexFile Options Bucket BucketOpen Names.

(** ** Code outside of this repository *)

(** [slices.SortFunc]: the result is sorted when the comparison is consistent
    with an order by keys; otherwise nothing is said but that it is a
    permutation. *)
Class SortFunc := {
  sort_func : (Item → Item → Z) → Items → Items;
}.

Class SortFuncLaws `{SortFunc} : Prop := {
  sort_func_perm : ∀ cmp its, sort_func cmp its ≡ₚ its;
  sort_func_sorted : ∀ cmp its,
    (∀ x y, x ∈ its → y ∈ its → cmp x y < 0 ↔ it_Key x < it_Key y) →
    StronglySorted Z.le (it_Key <$> sort_func cmp its);
}.

(** [copy.Copy] of github.com/otiai10/copy, for one file. *)
Class CopyPkg := {
  copy_Copy : path → path → OS → res unit * OS;
}.

(** A call of a package that changes the file system. *)
Definition call_os {St A} (f : OS → res A * OS) : M St A := λ s os, let '(r, os) := f os in (r, s, os).

(** ** The state *)

Record buckets (T : Type → Type) := mkBuckets {
  bs_dir : path;
  bs_tree : T (option nat);
  bs_heap : list (bucket T);
  bs_trailers : gmap (Key * ForkName) Trailer;
  bs_opts : Options;
  bs_forks : list ForkName;
}.
Arguments mkBuckets {T} _ _ _ _ _ _.
Arguments bs_dir {T} _.
Arguments bs_tree {T} _.
Arguments bs_heap {T} _.
Arguments bs_trailers {T} _.
Arguments bs_opts {T} _.
Arguments bs_forks {T} _.

Inductive iterMode := includeNil | loadedOnly | load.

Definition maxInt : Z := 2 ^ 63 - 1.

(** [binsplit]; the slice gets shorter with every call. *)
Fixpoint binsplit_loop (fuel : nat) (items : Items) (comp : Key) (fn : Key → Key) : res nat :=
  match fuel with
  | O => NoFuel
  | S fuel =>
      match items with
      | [] => Ok 0%nat
      | [_] => Ok 1%nat
      | _ =>
          let pivotIdx := (length items `div` 2)%nat in
          pivot ← of_option (items !! pivotIdx);
          let pivotKey := fn (it_Key pivot) in
          if negb (pivotKey =? comp) then binsplit_loop fuel (take pivotIdx items) comp fn
          else n ← binsplit_loop fuel (drop pivotIdx items) comp fn; Ok (pivotIdx + n)%nat
      end
  end.

Definition binsplit (items : Items) (comp : Key) (fn : Key → Key) : res nat :=
  binsplit_loop (S (length items)) items comp fn.

Section buckets.
Context {T : Type → Type} `{BTree T} `{Host, Unix, MapRange, SortFunc, CopyPkg, Unicode}.
Implicit Types (bs : buckets T) (key : Key) (fork : ForkName).

Definition set_tree (t : T (option nat)) bs : buckets T :=
  mkBuckets (bs_dir bs) t (bs_heap bs) (bs_trailers bs) (bs_opts bs) (bs_forks bs).

Definition set_heap (h : list (bucket T)) bs : buckets T :=
  mkBuckets (bs_dir bs) (bs_tree bs) h (bs_trailers bs) (bs_opts bs) (bs_forks bs).

Definition set_trailers (m : gmap (Key * ForkName) Trailer) bs : buckets T :=
  mkBuckets (bs_dir bs) (bs_tree bs) (bs_heap bs) m (bs_opts bs) (bs_forks bs).

Definition set_forks (fs : list ForkName) bs : buckets T :=
  mkBuckets (bs_dir bs) (bs_tree bs) (bs_heap bs) (bs_trailers bs) (bs_opts bs) fs.

(** [bs.tree.Set(key, p)] *)
Definition tree_set key (p : option nat) : M (buckets T) unit :=
  modify (λ bs, set_tree (bt_set key p (bs_tree bs)) bs).

(** The bucket that [p] points to, and a method call on it. *)
Definition deref (p : nat) : M (buckets T) (bucket T) :=
  bs ← get;
  lift (of_option (bs_heap bs !! p)).

Definition put_bucket (p : nat) (b : bucket T) bs : buckets T := set_heap (<[p := b]> (bs_heap bs)) bs.

Definition on_bucket {A} (p : nat) (m : M (bucket T) A) : M (buckets T) A :=
  b ← deref p;
  zoom (λ _, b) (put_bucket p) m.

(** A new bucket. *)
Definition alloc (b : bucket T) : M (buckets T) nat :=
  bs ← get;
  put (set_heap (bs_heap bs ++ [b]) bs) ;;
  mret (length (bs_heap bs)).

(** The split function; a nil function panics. *)
Definition split_func bs : res (Key → Key) := of_option (sc_Func (opt_BucketSplitConf (bs_opts bs))).

Definition buckPath bs key : path := Join (bs_dir bs) (Key_String key).

(** ** Opening and closing buckets *)

Definition nloaded bs : Z := Z.of_nat (length (omap snd (bt_items (bs_tree bs)))).

(** [bs.tree.GetAt(i)] *)
Definition GetAt {V} (t : T V) (i : Z) : option (Key * V) :=
  if i <? 0 then None else bt_items t !! Z.to_nat i.

(** The callback of [Trailers]. *)
Definition store_trailers key (ts : list (ForkName * Trailer)) bs : buckets T :=
  set_trailers (foldl (λ m ft, <[(key, ft.1) := ft.2]> m) (bs_trailers bs) ts) bs.

(** Close the bucket under [key] and mark it as not loaded. *)
Definition reap key (p : nat) (closeErrs : option error) : M (buckets T) (option error) :=
  b ← deref p;
  modify (store_trailers key (Trailers b)) ;;
  r ← attempt (on_bucket p BClose);
  bs ← get;
  tree_set key None ;;
  mret (if opt_ErrorMode (bs_opts bs) =? ErrorModeAbort then join_opt closeErrs (err_of r) else closeErrs).

(** The loop over the indices [idx]. *)
Fixpoint closeUnused_loop (idxs : list nat) (pivotIdx nClosable nClosed : Z) (closeErrs : option error)
    : M (buckets T) (option error) :=
  match idxs with
  | [] => mret closeErrs
  | idx :: idxs =>
      if nClosable <=? nClosed then mret closeErrs
      else
        let idx := Z.of_nat idx in
        let realIdx :=
          if Z.rem idx 2 =? 0 then pivotIdx + Z.quot idx 2 else pivotIdx - Z.quot idx 2 - 1 in
        bs ← get;
        match GetAt (bs_tree bs) realIdx with
        | Some (key, Some p) =>
            closeErrs ← reap key p closeErrs;
            closeUnused_loop idxs pivotIdx nClosable (nClosed + 1) closeErrs
        | _ => closeUnused_loop idxs pivotIdx nClosable nClosed closeErrs
        end
  end.

Definition closeUnused (maxBucks : Z) : M (buckets T) unit :=
  if maxBucks <? 0 then mret tt
  else
    bs ← get;
    if nloaded bs <=? maxBucks then mret tt
    else
      let len := bt_len (bs_tree bs) in
      closeErrs ← closeUnused_loop (seq 0 len) (Z.quot (Z.of_nat len) 2) (nloaded bs - maxBucks) 0 None;
      or_fail closeErrs.

Definition forKey key : M (buckets T) nat :=
  bs ← get;
  match bt_get key (bs_tree bs) with
  | Some (Some p) => mret p
  | _ =>
      closeUnused (int64 (opt_MaxParallelOpenBuckets (bs_opts bs) - 1)) ;;
      buck ← openBucket (buckPath bs key) (bs_forks bs) (bs_opts bs);
      p ← alloc buck;
      tree_set key (Some p) ;;
      mret p
  end.

(** [buckets.delete] *)
Definition bs_delete key : M (buckets T) unit :=
  bs ← get;
  match bt_get key (bs_tree bs) with
  | None => fail (EInvalid "no bucket with key")
  | Some buck =>
      modify (λ bs, set_trailers (filter (λ kv, kv.1.1 ≠ key) (bs_trailers bs)) bs) ;;
      '(err, dir) ← match buck with
                    | Some p =>
                        b ← deref p;
                        r ← attempt (on_bucket p BClose);
                        mret (err_of r, b_dir b)
                    | None => mret (None, buckPath bs key)
                    end;
      modify (λ bs, set_tree (bt_delete key (bs_tree bs)) bs) ;;
      r ← attempt (removeBucketDir dir (bs_forks bs));
      or_fail (join_opt err (err_of r))
  end.

(** ** Iteration *)

(** [iter] over the keys of a snapshot.  The callback returns [false] for
    [errIterStop].  It may change everything the program can reach: [St] is that
    state, and [view] and [upd] are the bucket list in it. *)
Fixpoint iter_keys {St} (view : St → buckets T) (upd : buckets T → St → St) (mode : iterMode)
    (fn : Key → option nat → M St bool) (keys : list Key) : M St unit :=
  match keys with
  | [] => mret tt
  | key :: keys =>
      st ← get;
      let continue := λ m : M St bool,
        more ← m;
        if more : bool then iter_keys view upd mode fn keys else mret tt in
      match bt_get key (bs_tree (view st)), mode with
      | None, _ => iter_keys view upd mode fn keys
      | Some None, loadedOnly => iter_keys view upd mode fn keys
      | Some None, load => continue (p ← zoom view upd (forKey key); fn key (Some p))
      | Some buck, _ => continue (fn key buck)
      end
  end.

Definition iter {St} (view : St → buckets T) (upd : buckets T → St → St) (mode : iterMode)
    (fn : Key → option nat → M St bool) : M St unit :=
  st ← get;
  iter_keys view upd mode fn (bt_keys (bs_tree (view st))).

(** A loop with a local variable, captured by the callback. *)
Definition with_var {St U A} (u : U) (m : M (St * U) A) : M St (A * U) := λ st os,
  match m (st, u) os with
  | (Ok a, (st', u'), os') => (Ok (a, u'), st', os')
  | (Err e, (st', _), os') => (Err e, st', os')
  | (Panic, (st', _), os') => (Panic, st', os')
  | (NoFuel, (st', _), os') => (NoFuel, st', os')
  end.

Definition set_fst {A B} (a : A) (ab : A * B) : A * B := (a, ab.2).

Definition set_snd {A B} (b : B) (ab : A * B) : A * B := (ab.1, b).

Definition BsSync : M (buckets T) unit :=
  '(_, err) ← with_var None (iter fst set_fst loadedOnly (λ _ buck,
    match buck with
    | Some p =>
        r ← attempt (zoom fst set_fst (on_bucket p (BSync true)));
        modify (λ st, set_snd (join_opt st.2 (err_of r)) st) ;;
        mret true
    | None => mret true
    end));
  or_fail err.

Definition clear : M (buckets T) unit :=
  bs ← get;
  each bs_delete (bt_keys (bs_tree bs)).

Definition BsClear : M (buckets T) unit := clear.

Definition BsClose : M (buckets T) unit :=
  iter (λ bs, bs) (λ bs _, bs) loadedOnly (λ _ buck,
    match buck with
    | Some p => on_bucket p BClose ;; mret true
    | None => mret true
    end).

Definition BsLen fork : M (buckets T) Z :=
  '(_, len) ← with_var 0 (iter fst set_fst includeNil (λ key buck,
    st ← get;
    match buck with
    | None =>
        match bs_trailers st.1 !! (key, fork) with
        | None => mret true
        | Some trailer => put (st.1, int64 (st.2 + int64 (TotalEntries trailer))) ;; mret true
        end
    | Some p =>
        b ← zoom fst set_fst (deref p);
        put (st.1, int64 (st.2 + BLen b fork)) ;;
        mret true
    end));
  mret len.

(** ** Push *)

(** [opts.ErrorMode == ErrorModeAbort]: return the error; otherwise it is logged. *)
Definition unless_abort (context : string) (r : error + unit) : M (buckets T) unit :=
  bs ← get;
  match r with
  | inl e => if opt_ErrorMode (bs_opts bs) =? ErrorModeAbort then fail (EWrap context e) else mret tt
  | inr _ => mret tt
  end.

(** The items of one bucket. *)
Definition push_bucket (keyMod : Key) (items : Items) : M (buckets T) unit :=
  r ← attempt (forKey keyMod);
  match r with
  | inl e => unless_abort "bucket: for-key" (inl e)
  | inr buck =>
      r ← attempt (on_bucket buck (BPush items true ""));
      unless_abort "bucket: push" r
  end.

Fixpoint pushSorted_loop (fuel : nat) (items : Items) : M (buckets T) unit :=
  match fuel with
  | O => lift NoFuel
  | S fuel =>
      match items with
      | [] => mret tt
      | first :: _ =>
          bs ← get;
          fn ← lift (split_func bs);
          let keyMod := fn (it_Key first) in
          nextIdx ← lift (binsplit items keyMod fn);
          push_bucket keyMod (take nextIdx items) ;;
          pushSorted_loop fuel (drop nextIdx items)
      end
  end.

(** Every turn takes at least one item. *)
Definition pushSorted (items : Items) : M (buckets T) unit := pushSorted_loop (S (length items)) items.

(** The comparison that [Push] sorts with. *)
Definition cmp_items (i j : Item) : Z := int64 (it_Key i - it_Key j).

Definition BsPush (items : Items) : M (buckets T) unit :=
  match items with
  | [] => mret tt
  | _ => pushSorted (sort_func cmp_items items)
  end.

(** ** Read *)

(** The callback of [Read] on the bucket [p]; the last component of the state is
    [count]. *)
Definition read_bucket {St} (view : St → buckets T) (upd : buckets T → St → St) (fork : ForkName)
    (fn : Items → M St ReadOp) (key : Key) (p : nat) : M (St * Z) bool :=
  st ← get;
  b ← lift (of_option (bs_heap (view st.1) !! p));
  let lenBefore := BLen b fork in
  let count := st.2 in
  r ← attempt (zoom fst set_fst
        (BRead (λ st, default b (bs_heap (view st) !! p)) (λ b st, upd (put_bucket p b (view st)) st)
           count fork fn));
  st ← get;
  match r with
  | inl e =>
      if opt_ErrorMode (bs_opts (view st.1)) =? ErrorModeAbort then fail e else mret true
  | inr _ =>
      b ← lift (of_option (bs_heap (view st.1) !! p));
      (if AllEmpty b then
         wrap_err "failed to delete bucket" (zoom fst set_fst (zoom view upd (bs_delete key)))
       else mret tt) ;;
      st ← get;
      b ← lift (of_option (bs_heap (view st.1) !! p));
      let lenAfter := BLen b fork in
      let count := int64 (st.2 - int64 (lenBefore - lenAfter)) in
      put (st.1, count) ;;
      mret (negb (count <=? 0))
  end.

Definition BsRead {St} (view : St → buckets T) (upd : buckets T → St → St) (n : Z) (fork : ForkName)
    (fn : Items → M St ReadOp) : M St unit :=
  let n := if n <? 0 then maxInt else n in
  '(_, _) ← with_var n (iter (λ st, view st.1) (λ bs st, (upd bs st.1, st.2)) load (λ key buck,
    match buck with
    | Some p => read_bucket view upd fork fn key p
    | None => lift Panic
    end));
  mret tt.

(** ** Delete *)

(** The body of the loop over the buckets: what is added to [numDeleted], and
    whether the bucket is empty now.  An error is returned for [ErrorModeAbort]
    and logged otherwise. *)
Definition delete_bucket (fork : ForkName) (from to buckKey : Key) : M (buckets T) (Z * bool) :=
  bs ← get;
  let abort := opt_ErrorMode (bs_opts bs) =? ErrorModeAbort in
  r ← attempt (forKey buckKey);
  match r with
  | inl e => if abort then fail e else mret (0, false)
  | inr buck =>
      r ← attempt (on_bucket buck (BDelete fork from to));
      match r with
      | inl e => if abort then fail e else mret (0, false)
      | inr numDeletedOfBucket =>
          b ← deref buck;
          mret (numDeletedOfBucket, AllEmpty b)
      end
  end.

(** The loop; an error comes with the number of items deleted so far. *)
Fixpoint delete_buckets (fork : ForkName) (from to toBuckKey : Key) (keys : list Key)
    (numDeleted : Z) (deletableBucks : list Key) : M (buckets T) (Z * (error + list Key)) :=
  match keys with
  | [] => mret (numDeleted, inr deletableBucks)
  | buckKey :: keys =>
      if toBuckKey <? buckKey then mret (numDeleted, inr deletableBucks)
      else
        r ← attempt (delete_bucket fork from to buckKey);
        match r with
        | inl e => mret (numDeleted, inl e)
        | inr (n, empty) =>
            delete_buckets fork from to toBuckKey keys (int64 (numDeleted + n))
              (if empty : bool then deletableBucks ++ [buckKey] else deletableBucks)
        end
  end.

(** The number of items and the error, which Go returns together.  The keys of
    the tree do not change while it is iterated over, only the pointers. *)
Definition BsDelete (fork : ForkName) (from to : Key) : M (buckets T) (Z * option error) :=
  if to <? from then mret (0, Some EToLtFrom)
  else
    bs ← get;
    fn ← lift (split_func bs);
    let toBuckKey := fn to in
    let fromBuckKey := fn from in
    '(numDeleted, r) ← delete_buckets fork from to toBuckKey
                         (filter (λ k, fromBuckKey ≤ k) (bt_keys (bs_tree bs))) 0 [];
    match r with
    | inl e => mret (numDeleted, Some e)
    | inr deletableBucks =>
        r ← attempt (each (λ key, wrap_err "bucket delete" (bs_delete key)) deletableBucks);
        mret (numDeleted, err_of r)
    end.

(** ** Forks *)

Definition Stat {St} (p : path) : M St unit :=
  sys "stat" ;;
  os ← get_os;
  match os_fs os !! p with
  | Some _ => mret tt
  | None => fail ENotExist
  end.

(** bucket.go: a fork of a bucket that is not loaded. *)
Definition forkOffline {St} (buckDir : path) (src dst : ForkName) : M St unit :=
  let dstPath := idxPath buckDir dst in
  r ← attempt (Stat dstPath);
  match r with
  | inr _ => mret tt
  | inl _ => call_os (copy_Copy (idxPath buckDir src) dstPath)
  end.

Definition BsFork (src dst : ForkName) : M (buckets T) unit :=
  lift (Validate_name dst) ;;
  bs ← get;
  if decide (dst ∈ bs_forks bs) then mret tt
  else
    iter (λ bs, bs) (λ bs _, bs) includeNil (λ key buck,
      match buck with
      | Some p => on_bucket p (BFork src dst) ;; mret true
      | None => bs ← get; forkOffline (Join (bs_dir bs) (Key_String key)) src dst ;; mret true
      end) ;;
    modify (λ bs, set_forks (bs_forks bs ++ [dst]) bs).

Definition BsRemoveFork (fork : ForkName) : M (buckets T) unit :=
  lift (Validate_name fork) ;;
  modify (λ bs, set_forks (filter (λ candidate, fork ≠ candidate) (bs_forks bs)) bs) ;;
  iter (λ bs, bs) (λ bs _, bs) includeNil (λ key buck,
    match buck with
    | Some p =>
        on_bucket p (BRemoveFork fork) ;;
        b ← deref p;
        if negb (AllEmpty b) then mret true else bs_delete key ;; mret true
    | None => bs ← get; removeForkOffline (Join (bs_dir bs) (Key_String key)) fork ;; mret true
    end).

Definition BsForks bs : list ForkName := bs_forks bs.

Definition fetchForks : M (buckets T) (list ForkName) :=
  bs ← get;
  let buck := default None (last (bt_items (bs_tree bs)).*2) in
  buck ← match buck, bt_keys (bs_tree bs) with
         | None, key :: _ => p ← forKey key; mret (Some p)
         | _, _ => mret buck
         end;
  match buck with
  | None => mret []
  | Some p => b ← deref p; mret (Forks b)
  end.
End buckets.

(** ** Implementations to compute with *)

(** Sorting by insertion. *)
Fixpoint insert_item (cmp : Item → Item → Z) (it : Item) (its : Items) : Items :=
  match its with
  | [] => [it]
  | it' :: its' => if cmp it it' <? 0 then it :: its else it' :: insert_item cmp it its'
  end.

Definition Sort_insert : SortFunc := {| sort_func cmp its := foldr (insert_item cmp) [] its |}.

Lemma insert_item_perm cmp it its : insert_item cmp it its ≡ₚ it :: its.
Proof.
  induction its as [|it' its IH]; cbn; [done|]. destruct (cmp it it' <? 0); [done|]. rewrite IH. by constructor.
Qed.

Lemma insert_item_sorted cmp it its :
  (∀ y, y ∈ its → cmp it y < 0 ↔ it_Key it < it_Key y) →
  StronglySorted Z.le (it_Key <$> its) → StronglySorted Z.le (it_Key <$> insert_item cmp it its).
Proof.
  intros Hcmp. induction its as [|y its IH]; intros Hs; cbn; [by repeat constructor|].
  cbn in Hs. apply StronglySorted_inv in Hs as [Hs Hle]. pose proof (Hcmp y ltac:(by left)) as Hy.
  destruct (Z.ltb_spec (cmp it y) 0); cbn.
  - constructor; [by constructor|]. constructor; [lia|]. eapply Forall_impl; [exact Hle|]. cbn. lia.
  - constructor; [apply IH; [|done]; intros z Hz; apply Hcmp; by right|].
    rewrite insert_item_perm. cbn. constructor; [lia|done].
Qed.

Lemma Sort_insert_laws : @SortFuncLaws Sort_insert.
Proof.
  split; cbn.
  - intros cmp its. induction its as [|it its IH]; cbn; [done|]. by rewrite insert_item_perm, IH.
  - intros cmp its Hcmp. induction its as [|it its IH]; cbn; [constructor|].
    assert (foldr (insert_item cmp) [] its ≡ₚ its) as Hp.
    { clear. induction its as [|it its IH]; cbn; [done|]. by rewrite insert_item_perm, IH. }
    apply insert_item_sorted; [|apply IH; intros x y Hx Hy; apply Hcmp; by right].
    intros y Hy. rewrite Hp in Hy. apply Hcmp; [by left|by right].
Qed.

(** A file system where copying fails. *)
Definition Copy_none : CopyPkg := {| copy_Copy _ _ os := (Err (EIO "copy"), os) |}.
