(* ===== verification/BucketForkCycle.v ===== *)
(** * Forks of a bucket and its files

    [Fork] and [RemoveFork] on a bucket that is open, and [forkOffline] and
    [removeForkOffline] on one that is closed, have the same effect on its queues
    and keep them on disk. *)

From S2P Require Import Prelude BTree Os Item Vlog Index IndexFile Options Bucket BucketPeek BucketShare BucketPop BucketQueue.
From S2P Require Import BucketForks BucketOpen BucketCycle Names Buckets.

(** [copy.Copy] of a file writes its contents to the new place. *)
Class CopyLaws `{CopyPkg} : Prop := {
  copy_file : ∀ src dst data os,
    os_faults os = [] → os_fs os !! src = Some (NFile data) → os_fs os !! dst = None → parent_exists os dst = true →
    copy_Copy src dst os = (Ok tt, set_fs (<[dst := NFile data]> (os_fs os)) os);
}.

Section forks.
Context {T : Type → Type} `{BTreeLaws T} `{Host, Unix, !UnixLaws} `{MapRange, !MapRangeLaws}.
Implicit Types (b : bucket T) (idx : bucketIndex T) (q : gmap ForkName Items) (dir : path).

(** ** Forking *)

(** A consumer that does not exist has no file. *)
Lemma clean_creatable os dir q f :
  clean os dir (λ g, is_Some (q !! g)) → os_fs os !! dir = Some NDir → q !! f = None → creatable os (idxPath dir f).
Proof.
  intros [Hnames _] Hd Hf. split; [|by apply Join_parent].
  destruct (os_fs os !! idxPath dir f) eqn:Hfile; [|done]. exfalso.
  destruct (Hnames _ (mk_is_Some _ _ Hfile)) as [Heq|(g & Hg & Heq)].
  - apply (idxPath_not_log dir f). by unfold idxPath in *; rewrite Heq.
  - apply (idxPath_inj dir f g) in Heq. subst g. rewrite Hf in Hg. by destruct Hg.
Qed.

Lemma above_idx os os' dir f :
  only_files (eq (idxPath dir f)) os os' → os_fs os !! dir = Some NDir → dirs_ok os dir →
  os_fs os' !! dir = Some NDir ∧ dirs_ok os' dir.
Proof.
  intros Hof Hd [Habove _]. assert (os_fs os' !! dir = Some NDir) as Hd' by (rewrite (proj1 Hof); [done|apply Join_ne]).
  split; [done|]. split; [|by right]. eapply above_frame; [|done]. eapply only_files_mono; [|done].
  intros p <-. right. by eexists.
Qed.

(** The fork of a consumer that has items is on disk; its trailer is wrong.  The
    lists of the consumer have no room, so that the two share nothing that is
    written to. *)
Lemma durable_fork c b os q all src dst its :
  durable c b os q all → q !! src = Some its → its ≠ [] → q !! dst = None → os_faults os = [] → no_room src b →
  ∃ b' os', BFork src dst b os = (Ok tt, b', os') ∧ durable (untold (cap_read its c)) b' os' (<[dst := its]> q) all ∧
    b_dir b' = b_dir b ∧ b_key b' = b_key b ∧ only_files (bucket_files (b_dir b)) os os' ∧ os_faults os' = [].
Proof.
  intros Hdu Hsrc Hne Hdst Hno Hfull. pose proof Hdu as [Hok Hlog Hbytes Hd Habove Hclean Hnoted].
  destruct (BFork_new b os q src dst its Hok Hsrc Hdst Hno) as (idx & b' & os' & Hidx & Heq & Hok' & Hb' & Hfile & Hof & Hno').
  { by eapply clean_creatable. }
  { done. }
  destruct (bucket_ok_lookup _ _ _ _ _ Hok Hsrc) as (idx' & Hidx' & [(Hwf & ps & Hps & Hbat & Hits) _ _ Hlen]). simplify_eq.
  assert (b_dir b' = b_dir b ∧ b_key b' = b_key b ∧ b_log b' = b_log b) as (Hdir & Hkey & Hlog') by (by rewrite Hb').
  assert (Z.of_nat (length its) = weight (numbered 0 (index_locs (bi_Mem idx)))) as Hw.
  { unfold weight. by rewrite numbered_fst, <- Hps, (sum_len_batches (b_log b)), Hits. }
  destruct (above_idx os os' (b_dir b) dst Hof Hd Habove) as [Hd' Habove'].
  exists b', os'. split; [done|]. split; [|split_and!; try done; eapply only_files_mono; [|done]; intros p <-; right; by eexists].
  split; rewrite ?Hdir, ?Hlog'; try done.
  - eapply clean_new; [done| |done]. by rewrite (read_file_Some _ _ _ Hfile).
  - intros f its'. destruct (decide (dst = f)) as [<-|Hnf].
    + rewrite lookup_insert_eq. intros [= <-]. exists (numbered 0 (index_locs (bi_Mem idx))). split.
      * assert (live_locs (index_locs (bi_Mem idx))) as Hlive.
        { eapply (holds_live (b_log b)); [by destruct Hlog|by split; [|exists ps]|done]. }
        split; [done| |rewrite <- Hw; cbn].
        { apply (Forall_fmap fst valid_loc). rewrite numbered_fst. eapply Forall_impl; [exact Hlive|]. by intros loc [? _]. }
        pose proof (Hnoted src its Hsrc) as (recs & [_ Hv Hr] & _). pose proof (weight_nonneg _ Hv). lia.
      * split; [|by intros]. left. rewrite <- Hw. destruct its; [done|]. cbn. lia.
    + rewrite lookup_insert_ne by done. intros Hq. eapply noted_mono; [| |eapply noted_frame; [|by apply Hnoted]]; [done|cbn; lia|].
      apply Hof. by intros Heq'%idxPath_inj.
Qed.

(** The fork of a bucket that is closed: its file is a copy. *)
Lemma parked_fork {St} `{CopyPkg, !CopyLaws} (s : St) c os dir q src dst its :
  parked c os dir q → q !! src = Some its → q !! dst = None → os_faults os = [] →
  ∃ os', forkOffline dir src dst s os = (Ok tt, s, os') ∧ parked c os' dir (<[dst := its]> q) ∧
    only_files (bucket_files dir) os os' ∧ os_faults os' = [].
Proof.
  intros [[Hd Habove (l & all & Hlp & Hwf & Hlog & Hb & Hst) Hclean] Hfiles] Hsrc Hdst Hno.
  destruct (clean_creatable os dir q dst Hclean Hd Hdst) as [Hnone Hpar].
  destruct (Hfiles src ltac:(by eexists)) as [data Hfile].
  set (os' := set_fs (<[idxPath dir dst := NFile data]> (os_fs os)) os). exists os'.
  assert (only_files (eq (idxPath dir dst)) os os') as Hof by (split; [intros p Hp; cbn; by rewrite lookup_insert_ne|done]).
  assert (os_fs os' !! idxPath dir dst = Some (NFile data)) as Hnew by (cbn; by rewrite lookup_insert_eq).
  destruct (above_idx os os' dir dst Hof Hd Habove) as [Hd' Habove'].
  assert (∀ f, dst ≠ f → os_fs os' !! idxPath dir f = os_fs os !! idxPath dir f) as Hother
    by (intros f Hf; apply Hof; by intros ?%idxPath_inj).
  split; [|split; [|split; [eapply only_files_mono; [|done]; intros p <-; right; by eexists|done]]].
  - unfold forkOffline, Stat, attempt, call_os. sys_ok. rewrite Hnone. run. by rewrite (copy_file _ _ data).
  - split.
    + split; [done|done| |by eapply clean_new]. exists l, all. split; [done|].
      split; [eapply wf_log_frame; [done| |done]; rewrite Hlp; by apply not_eq_sym, idxPath_not_log|]. split; [done|]. split; [done|].
      intros f its'. destruct (decide (dst = f)) as [<-|Hnf].
      * rewrite lookup_insert_eq. intros [= <-]. eapply file_state_moved; [|by apply (Hst src)]. by rewrite Hnew, Hfile.
      * rewrite lookup_insert_ne by done. intros Hq. eapply file_state_frame; [by apply Hother|by apply Hst].
    + intros f. destruct (decide (dst = f)) as [<-|Hnf]; [intros _; by exists data|].
      rewrite lookup_insert_ne, Hother by done. apply Hfiles.
Qed.

(** ** Removing forks *)

(** What a removed file leaves. *)
Lemma clean_removed os os' dir q f :
  clean os dir (λ g, is_Some (q !! g)) → os_fs os' !! idxPath dir f = None →
  only_files (eq (idxPath dir f)) os os' → clean os' dir (λ g, is_Some (delete f q !! g)).
Proof.
  intros [Hnames Hfiles] Hgone [Hof _].
  split; intros name; destruct (decide (idxPath dir f = Join dir name)) as [Heq|Hne].
  - rewrite <- Heq, Hgone. by intros [].
  - rewrite Hof by done. intros Hin. destruct (Hnames name Hin) as [?|(g & Hg & Heq)]; [by left|right].
    exists g. split; [|done]. rewrite lookup_delete_ne; [done|]. intros ->. by rewrite Heq in Hne.
  - by rewrite <- Heq, Hgone.
  - by rewrite Hof.
Qed.

Lemma only_files_delete p os : only_files (eq p) os (set_fs (delete p (os_fs os)) os).
Proof. split; [|done]. intros r Hr. cbn. by rewrite lookup_delete_ne. Qed.

Lemma durable_remove c b os q all f its :
  durable c b os q all → q !! f = Some its → os_faults os = [] →
  ∃ b' os', BRemoveFork f b os = (Ok tt, b', os') ∧ durable c b' os' (delete f q) all ∧
    b_dir b' = b_dir b ∧ b_key b' = b_key b ∧ only_files (bucket_files (b_dir b)) os os' ∧ os_faults os' = [].
Proof.
  intros Hdu Hq Hno. pose proof Hdu as [Hok Hlog Hbytes Hd Habove Hclean Hnoted].
  destruct (bucket_ok_lookup _ _ _ _ _ Hok Hq) as (idx & Hidx & [_ [_ Ho _] _ _]).
  destruct (bucket_ok_files b os q (idxPath (b_dir b) f) Hok) as [data Hfile]; [right; exists f; by split; [eexists|]|].
  set (os' := set_fs (delete (idxPath (b_dir b) f) (os_fs os)) os).
  assert (only_files (eq (idxPath (b_dir b) f)) os os') as Hof by apply only_files_delete.
  destruct (above_idx os os' (b_dir b) f Hof Hd Habove) as [Hd' Habove'].
  exists (set_indexes (delete f (b_indexes b)) b), os'. split; [|split; [|split_and!; try done]].
  - unfold BRemoveFork, idxForFork, attempt, with_local, WClose. run. rewrite Hidx. cbn [of_option]. rewrite Ho.
    unfold attempt. sys_ok. change (join_errs [err_of (inr tt); err_of (inr tt)]) with (@None error).
    run. rewrite (Remove_file _ _ data) by done. done.
  - split; try done.
    + destruct Hok as [Hwf Hlp Hforks Hun]. split; [|done| |by apply unshared_remove].
      * eapply wf_log_frame; [done| |done]. cbn. rewrite Hlp. apply not_eq_sym, idxPath_not_log.
      * intros g. cbn. destruct (decide (f = g)) as [<-|Hne]; [rewrite !lookup_delete_eq; constructor|].
        rewrite !lookup_delete_ne by done. destruct (Hforks g) as [idx2 its2 [Hh Hst Hp Hl]|]; constructor. split; try done.
        eapply stored_frame; [done| |done]. rewrite Hp. by intros ?%idxPath_inj.
    + eapply clean_removed; [done| |done]. cbn. by rewrite lookup_delete_eq.
    + intros g its'. destruct (decide (f = g)) as [<-|Hne]; [by rewrite lookup_delete_eq|].
      rewrite lookup_delete_ne by done. intros Hg. eapply noted_frame; [|by apply Hnoted]. apply Hof. by intros ?%idxPath_inj.
  - eapply only_files_mono; [|done]. intros p <-. right. by eexists.
Qed.

Lemma parked_remove {St} (s : St) c os dir q f its :
  parked c os dir q → q !! f = Some its → os_faults os = [] →
  ∃ os', removeForkOffline dir f s os = (Ok tt, s, os') ∧ parked c os' dir (delete f q) ∧
    only_files (bucket_files dir) os os' ∧ os_faults os' = [].
Proof.
  intros [[Hd Habove (l & all & Hlp & Hwf & Hlog & Hb & Hst) Hclean] Hfiles] Hq Hno.
  destruct (Hfiles f ltac:(by eexists)) as [data Hfile].
  set (os' := set_fs (delete (idxPath dir f) (os_fs os)) os). exists os'.
  assert (only_files (eq (idxPath dir f)) os os') as Hof by apply only_files_delete.
  destruct (above_idx os os' dir f Hof Hd Habove) as [Hd' Habove'].
  assert (∀ g, f ≠ g → os_fs os' !! idxPath dir g = os_fs os !! idxPath dir g) as Hother
    by (intros g Hg; apply Hof; by intros ?%idxPath_inj).
  split; [|split; [|split; [eapply only_files_mono; [|done]; intros p <-; right; by eexists|done]]].
  - unfold removeForkOffline. by rewrite (Remove_file _ _ data).
  - split.
    + split; [done|done| |eapply clean_removed; [done| |done]; cbn; by rewrite lookup_delete_eq]. exists l, all. split; [done|].
      split; [eapply wf_log_frame; [done| |done]; rewrite Hlp; by apply not_eq_sym, idxPath_not_log|]. split; [done|]. split; [done|].
      intros g its'. destruct (decide (f = g)) as [<-|Hnf]; [by rewrite lookup_delete_eq|].
      rewrite lookup_delete_ne by done. intros Hg. eapply file_state_frame; [by apply Hother|by apply Hst].
    + intros g. destruct (decide (f = g)) as [<-|Hnf]; [rewrite lookup_delete_eq; by intros []|].
      rewrite lookup_delete_ne, Hother by done. apply Hfiles.
Qed.
End forks.

(** ** An implementation to compute with *)

(** Copying one file; as for the other system calls, it fails when the schedule
    says so. *)
Definition Copy_plain : CopyPkg := {|
  copy_Copy src dst os :=
    match os_fs os !! src with
    | Some (NFile data) =>
        if parent_exists os dst then (Ok tt, set_fs (<[dst := NFile data]> (os_fs os)) os) else (Err ENotExist, os)
    | _ => (Err ENotExist, os)
    end |}.

Lemma Copy_plain_laws : @CopyLaws Copy_plain.
Proof. split. cbn. by intros src dst data os _ -> _ ->. Qed.
