(* ===== verification/BucketsLoad.v ===== *)
(** * Opening a queue

    [ReadTrailers] of reader.go, [loadAllBuckets] and [ValidateBucketKeys] of
    buckets.go. *)

From S2P Require Import Prelude BTree Os Item Vlog Index IndexFile Options Bucket BucketOpen Names Buckets.

(** ** Directories *)

(** The names in a directory, and whether they are directories themselves. *)
Definition child (d : path) (kv : path * node) : option (string * bool) :=
  if decide (kv.1 ≠ [] ∧ removelast kv.1 = d)
  then (λ name, (name, bool_decide (kv.2 = NDir))) <$> last kv.1
  else None.

(** [os.ReadDir]: sorted by name. *)
Definition entry_le (a b : string * bool) : Prop := String.le a.1 b.1.

#[global] Instance entry_le_dec a b : Decision (entry_le a b).
Proof. unfold entry_le. apply _. Defined.

Definition ReadDir {St} (p : path) : M St (list (string * bool)) :=
  sys "readdir" ;;
  os ← get_os;
  match os_fs os !! p with
  | Some NDir => mret (merge_sort entry_le (omap (child p) (map_to_list (os_fs os))))
  | Some (NFile _) => fail (EIO "readdir: not a directory")
  | None => fail ENotExist
  end.

(** [strings.HasSuffix] and [strings.TrimSuffix] *)
Definition HasSuffix (s suffix : string) : bool := bool_decide (chars suffix `suffix_of` chars s).

Definition TrimSuffix (s suffix : string) : string :=
  if HasSuffix s suffix then str (take (length (chars s) - length (chars suffix)) (chars s)) else s.

(** The consumer that an index file belongs to. *)
Definition consumerName (name : string) : ForkName := TrimSuffix (TrimSuffix name "idx.log") ".".

Definition ReadTrailers {St} (dir : path) (fn : ForkName → Trailer → M St unit) : M St unit :=
  ents ← ReadDir dir;
  each (λ ent : string * bool,
    let name := ent.1 in
    if negb (HasSuffix name "idx.log") then mret tt
    else
      trailer ← ReadTrailer (Join dir name);
      fn (consumerName name) trailer) ents.

(** [renameio.WriteFile] of github.com/google/renameio, and [bytes.TrimFunc] with
    [unicode.IsSpace], which [bytes.TrimSpace] falls back to when it meets a byte
    that is not ASCII. *)
Class RenameIO := {
  renameio_WriteFile : path → list byte → OS → res unit * OS;
  uni_TrimSpace : list byte → list byte;
}.

(** What renameio documents: the file is replaced as a whole. *)
Class RenameIOLaws `{RenameIO} : Prop := {
  WriteFile_replaces : ∀ p data os,
    os_faults os = [] → parent_exists os p = true → os_fs os !! p ≠ Some NDir →
    renameio_WriteFile p data os = (Ok tt, set_fs (<[p := NFile data]> (os_fs os)) os);
}.

Section load.
Context {T : Type → Type} `{BTree T} `{Host, Unix, MapRange, RenameIO}.

Definition splitConfFile : string := "split.conf".

(** The variables of [loadAllBuckets]. *)
Record loading := mkLoading {
  ld_expectedFiles : Z;
  ld_dirsHandled : Z;
  ld_tree : T (option nat);
  ld_trailers : gmap (Key * ForkName) Trailer;
}.

(** The callback of [ReadTrailers]. *)
Definition load_trailer (key : Key) (fork : ForkName) (trailer : Trailer) : M loading unit :=
  modify (λ d, mkLoading (ld_expectedFiles d) (ld_dirsHandled d) (ld_tree d)
                 (<[(key, fork) := trailer]> (ld_trailers d))).

(** The body of the loop over the entries of the directory. *)
Definition load_entry (dir : path) (opts : Options) (ent : string * bool) : M loading unit :=
  (if decide (ent.1 = splitConfFile) then
     modify (λ d, mkLoading (ld_expectedFiles d + 1) (ld_dirsHandled d) (ld_tree d) (ld_trailers d))
   else mret tt) ;;
  if negb ent.2 then mret tt
  else
    let buckPath := Join dir ent.1 in
    r ← attempt (lift (KeyFromString (default "/" (last buckPath))));
    match r with
    | inl e => if opt_ErrorMode opts =? ErrorModeAbort then fail e else mret tt
    | inr key =>
        modify (λ d, mkLoading (ld_expectedFiles d) (ld_dirsHandled d + 1) (ld_tree d) (ld_trailers d)) ;;
        ReadTrailers buckPath (load_trailer key) ;;
        modify (λ d, mkLoading (ld_expectedFiles d) (ld_dirsHandled d) (bt_set key None (ld_tree d)) (ld_trailers d))
    end.

Definition loadAllBuckets {St} (dir : path) (opts : Options) : M St (buckets T) :=
  wrap_err "mkdir" (MkdirAll dir) ;;
  ents ← wrap_err "read-dir" (ReadDir dir);
  '(_, d) ← with_local (mkLoading 0 0 bt_empty ∅) (each (load_entry dir opts) ents);
  if (ld_dirsHandled d =? 0) && (ld_expectedFiles d <? Z.of_nat (length ents))
  then fail (EInvalid "directory is not empty; refusing to create db")
  else
    '(forks, bs) ← with_local (mkBuckets dir (ld_tree d) [] (ld_trailers d) opts [])
                     (wrap_err "failed to fetch forks" fetchForks);
    mret (set_forks forks bs).

(** ** The split function of an existing queue *)

Definition asciiSpace (b : byte) : bool :=
  let z := Z_of_byte b in (z =? 32) || ((9 <=? z) && (z <=? 13)).

Definition ascii (b : byte) : bool := Z_of_byte b <? 128.

(** The end of the slice, from behind. *)
Fixpoint trim_right (rs : list byte) : list byte :=
  match rs with
  | [] => []
  | b :: rs' =>
      if negb (ascii b) then uni_TrimSpace (reverse rs)
      else if asciiSpace b then trim_right rs' else reverse rs
  end.

(** [bytes.TrimSpace] *)
Fixpoint TrimSpace (s : list byte) : list byte :=
  match s with
  | [] => []
  | b :: s' =>
      if negb (ascii b) then uni_TrimSpace s
      else if asciiSpace b then TrimSpace s' else trim_right (reverse s)
  end.

(** [os.ReadFile] *)
Definition ReadFile {St} (p : path) : M St (list byte) :=
  data ← OpenRead p;
  sys "read" ;;
  mret data.

Definition ValidateBucketKeys (bucketFn : BucketSplitConf) : M (buckets T) unit :=
  bs ← get;
  let namePath := Join (bs_dir bs) splitConfFile in
  r ← attempt (ReadFile namePath);
  (match r with
   | inl _ => call_os (renameio_WriteFile namePath (String.list_byte_of_string (sc_Name bucketFn)))
   | inr nameData =>
       if decide (TrimSpace nameData = String.list_byte_of_string (sc_Name bucketFn)) then mret tt
       else fail (EWrap "split func" EChangedSplitFunc)
   end) ;;
  each (λ ik,
    fn ← lift (of_option (sc_Func bucketFn));
    if fn ik =? ik then mret tt else fail (EWrap "bucket key" EChangedSplitFunc)) (bt_keys (bs_tree bs)).
End load.

(** Without letters beyond ASCII there is nothing to trim. *)
Definition RenameIO_plain : RenameIO := {|
  renameio_WriteFile p data os :=
    match os_faults os with
    | true :: faults => (Err (EIO "rename"), mkOS (os_fs os) faults)
    | _ =>
        if parent_exists os p && negb (bool_decide (os_fs os !! p = Some NDir))
        then (Ok tt, set_fs (<[p := NFile data]> (os_fs os)) os) else (Err (EIO "rename"), os)
    end;
  uni_TrimSpace s := s;
|}.

Lemma RenameIO_plain_laws : @RenameIOLaws RenameIO_plain.
Proof. split. intros p data os Hno Hp Hd. cbn. rewrite Hno, Hp, bool_decide_false by done. done. Qed.
