(* ===== verification/BucketsSplit.v ===== *)
(** * Splitting a batch over buckets

    [binsplit] finds the end of the items of a bucket, and [pushSorted] is a loop
    over the parts of a batch. *)

From S2P Require Import Prelude BTree Os Item Vlog Index IndexFile Options Bucket BucketPeek BucketOpen Names Buckets.

(** ** Splitting a batch *)

(** The bucket keys of the items do not decrease. *)
Definition split_sorted (fn : Key → Key) (items : Items) : Prop :=
  StronglySorted Z.le ((λ it, fn (it_Key it)) <$> items).

Lemma split_sorted_app fn a b :
  split_sorted fn (a ++ b) →
  split_sorted fn a ∧ split_sorted fn b ∧ ∀ x y, x ∈ a → y ∈ b → fn (it_Key x) ≤ fn (it_Key y).
Proof.
  unfold split_sorted. rewrite fmap_app. induction a as [|z a IH]; cbn; intros Hs.
  { split_and!; [constructor|done|]. by intros x y ?%elem_of_nil. }
  inversion Hs as [|? ? Hs' Hf]; subst. destruct (IH Hs') as (Ha & Hb & Hab).
  rewrite Forall_app in Hf. destruct Hf as [Hfa Hfb]. rewrite !Forall_fmap, !Forall_forall in *.
  split_and!; [constructor; [done|by rewrite Forall_fmap, Forall_forall]|done|].
  intros x y [->|Hx]%elem_of_cons Hy; [by apply Hfb|by apply Hab].
Qed.

Lemma pivot_split (items : Items) :
  (2 ≤ length items)%nat →
  let pivotIdx := (length items `div` 2)%nat in
  ∃ a pivot b, items = a ++ pivot :: b ∧ length a = pivotIdx ∧ items !! pivotIdx = Some pivot ∧
    take pivotIdx items = a ∧ drop pivotIdx items = pivot :: b ∧ a ≠ [] ∧
    (length a < length items)%nat ∧ (length (pivot :: b) < length items)%nat.
Proof.
  intros Hlen pivotIdx. assert (1 ≤ pivotIdx < length items)%nat as Hp.
  { unfold pivotIdx. pose proof (Nat.div_mod (length items) 2 ltac:(lia)).
    pose proof (Nat.mod_upper_bound (length items) 2 ltac:(lia)). lia. }
  destruct (lookup_lt_is_Some_2 items pivotIdx ltac:(lia)) as [pivot Hpivot].
  pose proof (take_drop_middle items pivotIdx pivot Hpivot) as Heq.
  pose proof (f_equal length Heq) as Hl. rewrite length_app, length_take in Hl. cbn [length] in *.
  exists (take pivotIdx items), pivot, (drop (S pivotIdx) items). rewrite length_take.
  split_and!; try done; try lia; [by apply drop_S|].
  intros Hn%(f_equal length). rewrite length_take in Hn. cbn [length] in Hn. lia.
Qed.

(** Whatever the split function does, a part that is not empty is split off. *)
Lemma binsplit_loop_bounds fuel items comp fn :
  items ≠ [] → (length items < fuel)%nat →
  ∃ n, binsplit_loop fuel items comp fn = Ok n ∧ (1 ≤ n ≤ length items)%nat.
Proof.
  revert items. induction fuel as [|fuel IH]; intros items Hne Hf; [lia|]. cbn [binsplit_loop].
  destruct items as [|x [|y its]]; [done|by exists 1%nat|].
  set (items := x :: y :: its) in *. assert (2 ≤ length items)%nat as Hlen by (cbn; lia).
  destruct (pivot_split items Hlen) as (a & pivot & b & Heq & Ha & Hpivot & -> & Hdrop & Hane & Hla & Hlb).
  rewrite Hpivot. cbn [of_option mbind res_bind]. destruct (fn (it_Key pivot) =? comp); cbn [negb].
  - rewrite Hdrop. destruct (IH (pivot :: b)) as (n & -> & Hn); [done|lia|]. cbn [mbind res_bind].
    eexists. split; [done|]. apply (f_equal length) in Heq. rewrite length_app in Heq. cbn [length] in *. lia.
  - destruct (IH a) as (n & -> & Hn); [done|lia|]. exists n. split; [done|]. lia.
Qed.

(** [binsplit] finds the end of the items of one bucket. *)
Lemma binsplit_loop_spec fuel items comp fn :
  split_sorted fn items → items ≠ [] → fn (it_Key (default zero_Item (head items))) = comp →
  (length items < fuel)%nat →
  ∃ a b, items = a ++ b ∧ binsplit_loop fuel items comp fn = Ok (length a) ∧ a ≠ [] ∧
    Forall (λ it, fn (it_Key it) = comp) a ∧ Forall (λ it, comp < fn (it_Key it)) b.
Proof.
  revert items. induction fuel as [|fuel IH]; intros items Hs Hne Hc Hf; [lia|]. cbn [binsplit_loop].
  destruct items as [|x [|y its]]; [done|exists [x], []; by repeat constructor|].
  set (items := x :: y :: its) in *. assert (2 ≤ length items)%nat as Hlen by (cbn; lia).
  destruct (pivot_split items Hlen) as (a & pivot & b & Heq & Ha & Hpivot & -> & Hdrop & Hane & Hla & Hlb).
  rewrite Hpivot. cbn [of_option mbind res_bind]. rewrite Heq in Hs.
  pose proof (split_sorted_app fn a (pivot :: b) Hs) as (Hsa & Hsb & Hab).
  assert (head items = head a) as Hhead by (rewrite Heq; by destruct a).
  assert (∀ z, z ∈ items → comp ≤ fn (it_Key z)) as Hmin.
  { intros z Hz. rewrite Heq in Hz. destruct a as [|x' a]; [done|]. rewrite Hhead in Hc. cbn in Hc. subst comp.
    apply (split_sorted_app fn [x'] (a ++ pivot :: b)) in Hs as (_ & _ & Hle).
    apply elem_of_cons in Hz as [->|Hz]; [done|]. apply Hle; [by left|done]. }
  destruct (Z.eqb_spec (fn (it_Key pivot)) comp) as [Hp|Hp]; cbn [negb].
  - rewrite Hdrop. destruct (IH (pivot :: b)) as (a' & b' & Heq' & -> & Hne' & Ha' & Hb'); [done..|lia|].
    cbn [mbind res_bind]. exists (a ++ a'), b'. rewrite length_app, Ha.
    split_and!; try done; [by rewrite Heq, Heq', app_assoc|by destruct a|]. apply Forall_app. split; [|done].
    apply Forall_forall. intros z Hz. specialize (Hab z pivot Hz ltac:(by left)).
    specialize (Hmin z). rewrite Heq in Hmin. specialize (Hmin ltac:(by apply elem_of_app; left)). lia.
  - destruct (IH a) as (a' & b' & Heq' & -> & Hne' & Ha' & Hb'); [done..|by rewrite <- Hhead|lia|].
    exists a', (b' ++ pivot :: b). rewrite app_assoc, <- Heq'. split_and!; try done. apply Forall_app.
    split; [done|]. apply Forall_forall. intros z Hz.
    assert (comp < fn (it_Key pivot)) as Hlt.
    { specialize (Hmin pivot). rewrite Heq in Hmin.
      specialize (Hmin ltac:(apply elem_of_app; right; by left)). lia. }
    apply elem_of_cons in Hz as [->|Hz]; [done|].
    apply (split_sorted_app fn [pivot] b) in Hsb as (_ & _ & Hle). specialize (Hle pivot z ltac:(by left) Hz). lia.
Qed.

(** C28. [binsplit] returns the index of the first item that does not go to the
    bucket of the first one, for a batch whose bucket keys do not decrease; and
    for any batch and any split function it terminates with an index that makes
    progress. *)
Theorem binsplit_spec items fn :
  items ≠ [] →
  let comp := fn (it_Key (default zero_Item (head items))) in
  ∃ n, binsplit items comp fn = Ok n ∧ (1 ≤ n ≤ length items)%nat ∧
    (split_sorted fn items →
      Forall (λ it, fn (it_Key it) = comp) (take n items) ∧ Forall (λ it, fn (it_Key it) ≠ comp) (drop n items)).
Proof.
  intros Hne comp. unfold binsplit.
  destruct (binsplit_loop_bounds (S (length items)) items comp fn Hne ltac:(lia)) as (n & Heq & Hn).
  exists n. split_and!; try done; try lia. intros Hs.
  destruct (binsplit_loop_spec (S (length items)) items comp fn Hs Hne eq_refl ltac:(lia))
    as (a & b & Hab & Heq' & _ & Ha & Hb). assert (n = length a) as -> by congruence.
  rewrite Hab, take_app_length, drop_app_length. split; [done|]. eapply Forall_impl; [done|]. cbn. lia.
Qed.

(** ** What does not change

    The operations on files leave the state of their caller alone. *)

Section same_state.
Context {T : Type → Type} `{BTree T} `{Host, Unix, MapRange} {St : Type}.

Lemma keeps_MkdirAll p : keeps (eq (A := St)) (MkdirAll p).
Proof. unfold MkdirAll. keeps. Qed.

Lemma keeps_OpenCreate p : keeps (eq (A := St)) (OpenCreate p).
Proof. unfold OpenCreate. keeps. Qed.

Lemma keeps_Truncate p n : keeps (eq (A := St)) (Truncate p n).
Proof. unfold Truncate. keeps. Qed.

Lemma keeps_Remove p : keeps (eq (A := St)) (Remove p).
Proof. unfold Remove. keeps. Qed.

#[local] Hint Resolve keeps_MkdirAll keeps_OpenCreate keeps_Truncate keeps_Remove : keeps.

Lemma keeps_Open p sync : keeps (eq (A := St)) (Open p sync).
Proof. unfold Open. keeps. Qed.

Lemma keeps_Load p : keeps (eq (A := St)) (Load (T := T) p).
Proof. unfold Load. keeps. Qed.

Lemma keeps_NewWriter p sync : keeps (eq (A := St)) (NewWriter p sync).
Proof. unfold NewWriter. keeps. Qed.

#[local] Hint Resolve keeps_Open keeps_Load keeps_NewWriter : keeps.

Lemma keeps_WriteIndex (i : Index T) p : keeps (eq (A := St)) (WriteIndex i p).
Proof. unfold WriteIndex. keeps. Qed.

#[local] Hint Resolve keeps_WriteIndex : keeps.

Lemma keeps_recoverIndexFromLog l p : keeps (eq (A := St)) (recoverIndexFromLog (T := T) l p).
Proof. unfold recoverIndexFromLog. keeps. Qed.

#[local] Hint Resolve keeps_recoverIndexFromLog : keeps.

Lemma keeps_loadIndex p l opts : keeps (eq (A := St)) (loadIndex (T := T) p l opts).
Proof. unfold loadIndex. keeps. Qed.

#[local] Hint Resolve keeps_loadIndex : keeps.

Lemma keeps_load_indexes dir l opts fs indexes entries :
  keeps (eq (A := St)) (load_indexes (T := T) dir l opts fs indexes entries).
Proof. revert indexes entries. induction fs; intros; cbn [load_indexes]; keeps. Qed.

Lemma keeps_remove_quiet p : keeps (eq (A := St)) (remove_quiet p).
Proof. unfold remove_quiet, or_fail. keeps. Qed.

#[local] Hint Resolve keeps_load_indexes keeps_remove_quiet : keeps.

Lemma keeps_each_joined {A} (R : St → St → Prop) `{!PreOrder R} (f : A → M St unit) err l :
  (∀ a, keeps R (f a)) → keeps R (each_joined f err l).
Proof. intros Hf. revert err. induction l; intros; cbn [each_joined]; keeps. Qed.

Lemma keeps_removeBucketDir dir fs : keeps (eq (A := St)) (removeBucketDir dir fs).
Proof.
  unfold removeBucketDir, or_fail. apply keeps_bind; [apply _| |keeps].
  apply keeps_each_joined; [apply _|]. keeps.
Qed.

Lemma keeps_recover {A} (R : St → St → Prop) (m : M St A) : keeps R m → keeps R (recoverMmapError m).
Proof. intros Hm s os. specialize (Hm s os). unfold recoverMmapError. by destruct (m s os) as [[[] ?] ?]. Qed.

#[local] Hint Resolve keeps_removeBucketDir : keeps.

Lemma keeps_openBucket dir fs opts : keeps (eq (A := St)) (openBucket (T := T) dir fs opts).
Proof.
  unfold openBucket. generalize 2%nat. intros fuel. revert fs. induction fuel as [|fuel IH]; intros fs; cbn [openBucket_loop]; [keeps|].
  apply keeps_bind; [apply _|apply keeps_MkdirAll|intros _]. apply keeps_recover. keeps.
Qed.
End same_state.

#[export] Hint Resolve keeps_openBucket keeps_removeBucketDir : keeps.

Section conf.
Context {T : Type → Type} `{BTree T} `{Host, Unix, MapRange, SortFunc}.
Implicit Types (bs : buckets T).

(** The directory and the options of the queue. *)
Definition same_conf bs bs' : Prop := bs_dir bs' = bs_dir bs ∧ bs_opts bs' = bs_opts bs.

#[global] Instance same_conf_preorder : PreOrder same_conf.
Proof. split; [done|]. intros a b c [? ?] [? ?]. split; congruence. Qed.

Lemma keeps_conf_eq {A} (m : M (buckets T) A) : keeps eq m → keeps same_conf m.
Proof. apply keeps_eq, _. Qed.

Lemma keeps_tree_set key p : keeps same_conf (tree_set (T := T) key p).
Proof. apply keeps_modify. done. Qed.

Lemma keeps_on_bucket {A} p (m : M (bucket T) A) : keeps same_conf (on_bucket p m).
Proof. unfold on_bucket, deref. keeps. apply keeps_zoom. done. Qed.

Lemma keeps_alloc (b : bucket T) : keeps same_conf (alloc b).
Proof. by intros bs os. Qed.

#[local] Hint Resolve keeps_conf_eq keeps_tree_set keeps_on_bucket keeps_alloc : keeps.

Lemma keeps_reap key p e : keeps same_conf (reap (T := T) key p e).
Proof. unfold reap, deref. keeps. by apply keeps_modify. Qed.

#[local] Hint Resolve keeps_reap : keeps.

Lemma keeps_closeUnused_loop idxs pivot n c e : keeps same_conf (closeUnused_loop (T := T) idxs pivot n c e).
Proof. revert c e. induction idxs as [|idx idxs IH]; intros; cbn [closeUnused_loop]; cbv zeta; keeps. Qed.

#[local] Hint Resolve keeps_closeUnused_loop : keeps.

Lemma keeps_closeUnused n : keeps same_conf (closeUnused (T := T) n).
Proof. unfold closeUnused, or_fail. cbv zeta. keeps. Qed.

#[local] Hint Resolve keeps_closeUnused : keeps.

Lemma keeps_forKey key : keeps same_conf (forKey (T := T) key).
Proof. unfold forKey. keeps. Qed.

#[local] Hint Resolve keeps_forKey : keeps.

Lemma keeps_push_bucket key items : keeps same_conf (push_bucket (T := T) key items).
Proof. unfold push_bucket, unless_abort. keeps. Qed.

(** *** Push as a loop over the parts of a batch *)

(** The maximal parts of a batch whose items go to the same bucket. *)
Fixpoint parts (fn : Key → Key) (items : Items) : list Items :=
  match items with
  | [] => []
  | it :: items =>
      match parts fn items with
      | (x :: g) :: gs =>
          if fn (it_Key it) =? fn (it_Key x) then (it :: x :: g) :: gs else [it] :: (x :: g) :: gs
      | gs => [it] :: gs
      end
  end.

Definition first_key (items : Items) : Key := it_Key (default zero_Item (head items)).

Lemma parts_cons fn it items :
  parts fn (it :: items) = [it] :: parts fn items ∨
  ∃ x g gs, parts fn items = (x :: g) :: gs ∧ fn (it_Key it) = fn (it_Key x) ∧ parts fn (it :: items) = (it :: x :: g) :: gs.
Proof.
  cbn [parts]. destruct (parts fn items) as [|[|x g] gs]; [by left..|].
  destruct (Z.eqb_spec (fn (it_Key it)) (fn (it_Key x))); [right|by left]. by exists x, g, gs.
Qed.

Lemma parts_concat fn items : concat (parts fn items) = items.
Proof.
  induction items as [|it items IH]; [done|].
  destruct (parts_cons fn it items) as [->|(x & g & gs & Hp & _ & ->)]; cbn [concat app]; [by rewrite IH|].
  rewrite Hp in IH. cbn [concat app] in IH. by rewrite <- IH.
Qed.

(** A part is a prefix of items with one bucket key in front of others. *)
Lemma parts_app fn a b comp :
  a ≠ [] → Forall (λ it, fn (it_Key it) = comp) a → Forall (λ it, comp < fn (it_Key it)) b →
  parts fn (a ++ b) = a :: parts fn b.
Proof.
  intros Hne Ha Hb. induction Ha as [|x a Hx Ha IH]; [done|]. destruct a as [|y a].
  - change ([x] ++ b) with (x :: b). destruct (parts_cons fn x b) as [->|(z & g & gs & Hp & Heq & _)]; [done|].
    destruct b as [|z' b]; [done|]. exfalso. pose proof (parts_concat fn (z' :: b)) as Hc.
    rewrite Hp in Hc. cbn in Hc. injection Hc as -> _. apply Forall_cons in Hb as [Hz _]. lia.
  - change ((x :: y :: a) ++ b) with (x :: ((y :: a) ++ b)). cbn [parts]. rewrite IH by done.
    apply Forall_cons in Ha as [Hy _]. by replace (fn (it_Key x) =? fn (it_Key y)) with true by lia.
Qed.

Lemma pushSorted_parts_holds bs os fn items :
  split_func bs = Ok fn → split_sorted fn items →
  pushSorted items bs os = each (λ g, push_bucket (fn (first_key g)) g) (parts fn items) bs os.
Proof.
  unfold pushSorted. assert (length items < S (length items))%nat as Hf by lia. revert Hf.
  generalize (S (length items)). intros fuel. revert items bs os.
  induction fuel as [|fuel IH]; intros items bs os Hf Hfn Hs; [lia|].
  destruct items as [|x its]; [done|]. cbn [pushSorted_loop]. run. rewrite Hfn.
  set (items := x :: its) in *.
  destruct (binsplit_loop_spec (S (length items)) items (fn (it_Key x)) fn Hs) as (a & b & Hab & Heq & Hne & Ha & Hb);
    try done; [lia|].
  unfold binsplit. rewrite Heq, Hab, take_app_length, drop_app_length, (parts_app fn a b _ Hne Ha Hb). cbn [each]. run.
  assert (fn (it_Key x) = fn (first_key a)) as Hkey.
  { destruct a as [|y a]; [done|]. apply Forall_cons in Ha as [Hy _]. by symmetry. }
  rewrite Hkey. pose proof (keeps_push_bucket (fn (first_key a)) a bs os) as [_ Hopts].
  destruct (push_bucket (fn (first_key a)) a bs os) as [[[u|e| |] bs'] os'] eqn:E; try done.
  cbn in Hopts. specialize (IH b bs' os'). run in IH. apply IH.
  - rewrite Hab, length_app in Hf. destruct a; [done|]. cbn [length] in Hf. lia.
  - unfold split_func in *. by rewrite Hopts.
  - rewrite Hab in Hs. by apply split_sorted_app in Hs as (_ & ? & _).
Qed.

(** C26. [pushSorted] pushes each part of a sorted batch, as a whole and in order,
    to the bucket that the split function gives for it. *)
Theorem pushSorted_parts bs os fn items :
  split_func bs = Ok fn → split_sorted fn items →
  pushSorted items bs os = each (λ g, push_bucket (fn (first_key g)) g) (parts fn items) bs os.
Proof. apply pushSorted_parts_holds. Qed.
End conf.

(** ** Witnesses *)

#[local] Existing Instance Host_tiny.

(** A queue without buckets, which puts four keys into each. *)
Definition ex_conf : Options := mkOptions SyncFull true ErrorModeAbort (FixedSizeBucketSplitConf 4) 1.

Definition ex_split (key : Key) : Key := int64 (int64 (Z.quot key (int64 4)) * int64 4).

Definition ex_list : buckets slist := mkBuckets ["q"] bt_empty [] ∅ ex_conf [].

Lemma ex_split_sorted : split_sorted ex_split ex_items.
Proof. repeat constructor; vm_compute; discriminate. Qed.

Lemma binsplit_spec_witness :
  ex_items ≠ [] ∧ ∃ n, binsplit ex_items (ex_split 3) ex_split = Ok n ∧ (1 ≤ n ≤ 2)%nat ∧
    (split_sorted ex_split ex_items →
      Forall (λ it, ex_split (it_Key it) = ex_split 3) (take n ex_items) ∧
      Forall (λ it, ex_split (it_Key it) ≠ ex_split 3) (drop n ex_items)).
Proof. split; [done|]. exact (binsplit_spec ex_items ex_split ltac:(done)). Defined.

Lemma pushSorted_parts_witness :
  parts ex_split ex_items = [[mkItem 3 [Byte.x61]]; [mkItem 5 [Byte.x62; Byte.x63]]] ∧
  @pushSorted _ _ Host_tiny Unix_plain Range_id ex_items ex_list (ex_os []) =
    each (λ g, @push_bucket _ _ Host_tiny Unix_plain Range_id (ex_split (first_key g)) g) (parts ex_split ex_items)
      ex_list (ex_os []).
Proof.
  split; [reflexivity|].
  apply (@pushSorted_parts _ _ Host_tiny Unix_plain Range_id ex_list (ex_os []) ex_split ex_items);
    [reflexivity|apply ex_split_sorted].
Defined.
