(* ===== verification/BucketsClose.v ===== *)
(** * Closing buckets that are not in use

    [closeUnused] keeps the number of open buckets below the configured maximum,
    whatever fails. *)

From S2P Require Import Prelude BTree Os Item Vlog Index IndexFile Options Bucket BucketPeek BucketOpen Names Buckets.
From S2P Require Import BucketCycle BucketsSplit.

(** ** Closing returns *)

Section returns.
Context {T : Type → Type} `{BTree T} `{Host, Unix, MapRange}.

Lemma each_joined_Ok {St A} (f : A → M St unit) err l s os :
  (∀ a, returns (f a)) → ∃ err' s' os', each_joined f err l s os = (Ok err', s', os').
Proof.
  intros Hf. revert err s os. induction l as [|a l IH]; intros err s os; cbn [each_joined].
  - by exists err, s, os.
  - destruct (attempt_Ok (f a) s os (Hf a)) as (r & s1 & os1 & Heq). run. rewrite Heq. apply IH.
Qed.

Lemma returns_WClose : returns WClose.
Proof. unfold WClose. returns. Qed.

Lemma returns_Close : returns Close.
Proof. unfold Close. returns. Qed.

Lemma returns_on_index {A} fork (m : M (bucketIndex T) A) : returns m → returns (on_index fork m).
Proof.
  intros Hm b os. unfold on_index, idxForFork. run. destruct (b_indexes b !! fork) as [idx|]; [|right; by eexists].
  specialize (Hm idx os). by destruct (m idx os) as [[r idx'] os'].
Qed.

Lemma returns_or_fail {St} e : returns (or_fail (St := St) e).
Proof. unfold or_fail. returns. Qed.

Lemma returns_BClose : returns (BClose (T := T)).
Proof.
  unfold BClose. apply returns_bind; [apply returns_attempt, returns_zoom, returns_Close|intros r].
  apply returns_bind; [apply returns_get|intros b]. apply returns_bind; [|intros; apply returns_or_fail].
  intros s os. left. destruct (each_joined_Ok (λ name, on_index name (zoom bi_Log set_Log WClose)) (err_of r)
    (range_forks b) s os) as (err & s' & os' & ->); [|by exists err].
  intros f. apply returns_on_index, returns_zoom, returns_WClose.
Qed.
End returns.

(** ** The order in which [closeUnused] visits the buckets *)

(** The index into the tree for the [i]th turn, around the middle. *)
Definition around (pivotIdx i : Z) : Z :=
  if Z.rem i 2 =? 0 then pivotIdx + Z.quot i 2 else pivotIdx - Z.quot i 2 - 1.

(** Every index is visited. *)
Lemma around_all n i : 0 ≤ i < n → ∃ j, 0 ≤ j < n ∧ around (Z.quot n 2) j = i.
Proof.
  intros Hi. unfold around. set (p := Z.quot n 2). assert (2 * p ≤ n ≤ 2 * p + 1) as Hp.
  { unfold p. rewrite Z.quot_div_nonneg by lia. pose proof (Z.div_mod n 2). pose proof (Z.mod_pos_bound n 2). lia. }
  destruct (decide (p ≤ i)).
  - exists (2 * (i - p)). split; [lia|]. rewrite Z.rem_mod_nonneg, Z.quot_div_nonneg by lia.
    rewrite (Z.mul_comm 2), Z.mod_mul, Z.div_mul by lia. change (0 =? 0) with true. cbv iota. lia.
  - exists (2 * (p - i - 1) + 1). split; [lia|]. rewrite Z.rem_mod_nonneg, Z.quot_div_nonneg by lia.
    replace (2 * (p - i - 1) + 1) with (1 + (p - i - 1) * 2) by lia.
    rewrite Z.mod_add, Z.div_add by lia. change (1 `mod` 2 =? 0) with false. change (1 `div` 2) with 0. cbv iota. lia.
Qed.

(** ** The number of open buckets *)

Section bound.
Context {T : Type → Type} `{BTreeLaws T} `{Host, Unix, MapRange}.
Implicit Types (bs : buckets T).

(** The pointers of the tree are valid. *)
Definition heap_ok bs : Prop :=
  ∀ k p, bt_get k (bs_tree bs) = Some (Some p) → is_Some (bs_heap bs !! p).

Lemma heap_ok_items bs i k p :
  heap_ok bs → bt_items (bs_tree bs) !! i = Some (k, Some p) → is_Some (bs_heap bs !! p).
Proof. intros Hok Hi. apply (Hok k), bt_items_get. by eapply list_elem_of_lookup_2. Qed.

(** What happened to the pointers: some were forgotten. *)
Record unloaded bs bs' : Prop := {
  ul_conf : same_conf bs bs';
  ul_heap : length (bs_heap bs') = length (bs_heap bs);
  ul_get : ∀ k, bt_get k (bs_tree bs') = bt_get k (bs_tree bs) ∨
    (is_Some (bt_get k (bs_tree bs)) ∧ bt_get k (bs_tree bs') = Some None);
}.

#[global] Instance unloaded_preorder : PreOrder unloaded.
Proof.
  split; [split; [done|done|by left]|]. intros a b c [Hc1 Hh1 Hg1] [Hc2 Hh2 Hg2]. split; [by transitivity b|congruence|].
  intros k. destruct (Hg1 k) as [Hk|[Hk1 Hk2]], (Hg2 k) as [Hk'|[Hk1' Hk2']]; rewrite ?Hk', ?Hk; eauto.
  rewrite Hk in Hk1'. by right.
Qed.

Lemma heap_ok_unloaded bs bs' : unloaded bs bs' → heap_ok bs → heap_ok bs'.
Proof.
  intros [_ Hlen Hget] Hok k p Hk. destruct (Hget k) as [Heq|[_ Heq]]; rewrite Heq in Hk; [|done].
  apply Hok in Hk. apply lookup_lt_is_Some. rewrite Hlen. by apply lookup_lt_is_Some.
Qed.

(** Setting an existing key replaces its pair. *)
Lemma bt_items_replace {V} (t : T V) i k (v v' : V) :
  bt_items t !! i = Some (k, v) → bt_items (bt_set k v' t) = <[i := (k, v')]> (bt_items t).
Proof.
  intros Hi. rewrite bt_items_set. pose proof (bt_items_sorted t) as Hs. revert i Hi.
  induction (bt_items t) as [|[k1 v1] l IH]; intros [|i] Hi; try done; cbn [al_set].
  - injection Hi as -> ->. rewrite decide_False, decide_True by (lia || done). done.
  - cbn in Hi, Hs. inversion Hs as [|? ? Hs' Hf]; subst. rewrite Forall_forall in Hf.
    assert (k1 < k) by (apply Hf; apply (list_elem_of_fmap_2 fst _ (k, v)); by eapply list_elem_of_lookup_2).
    rewrite !decide_False by lia. cbn. f_equal. by apply IH.
Qed.

Lemma nloaded_set bs i k p :
  bt_items (bs_tree bs) !! i = Some (k, Some p) →
  nloaded (set_tree (bt_set k None (bs_tree bs)) bs) = nloaded bs - 1.
Proof.
  intros Hi. unfold nloaded. cbn [bs_tree set_tree]. rewrite (bt_items_replace _ i k (Some p)) by done.
  pose proof (take_drop_middle _ _ _ Hi) as Hl. pose proof (lookup_lt_Some _ _ _ Hi) as Hlt.
  rewrite insert_take_drop by done. rewrite <- Hl at 3. rewrite !omap_app. cbn.
  rewrite !length_app. cbn [length]. lia.
Qed.

Lemma reap_spec bs os key p b e :
  bs_heap bs !! p = Some b →
  ∃ e' bs' os', reap key p e bs os = (Ok e', bs', os') ∧ bs_tree bs' = bt_set key None (bs_tree bs) ∧
    length (bs_heap bs') = length (bs_heap bs) ∧ same_conf bs bs'.
Proof.
  intros Hp. unfold reap, deref. run. rewrite Hp. cbn [of_option].
  set (bs1 := store_trailers key (Trailers b) bs).
  assert (∃ r b' os', attempt (on_bucket p BClose) bs1 os = (Ok r, put_bucket p b' bs1, os')) as (r & b' & os' & Hclose).
  { unfold attempt, on_bucket, deref. run. change (bs_heap bs1) with (bs_heap bs). rewrite Hp. cbn [of_option].
    destruct (returns_BClose b os) as [[a Ha]|[e' Ha]]; destruct (BClose b os) as [[r b'] os']; cbn in Ha; subst r;
      by eexists _, b', os'. }
  run in Hclose. rewrite Hclose. eexists _, _, os'. split; [done|]. split; [done|]. split; [|done].
  cbn. by rewrite length_insert.
Qed.

Lemma unloaded_set bs bs' k v :
  bt_get k (bs_tree bs) = Some v → bs_tree bs' = bt_set k None (bs_tree bs) →
  length (bs_heap bs') = length (bs_heap bs) → same_conf bs bs' → unloaded bs bs'.
Proof.
  intros Hk Ht Hh Hc. split; [done|done|]. intros k'. rewrite Ht, bt_get_set. case_decide; subst; [|by left].
  right. by rewrite Hk.
Qed.

Lemma nloaded_nonneg bs : 0 ≤ nloaded bs.
Proof. unfold nloaded. lia. Qed.

(** The loop visits all buckets that are loaded, until enough are closed. *)
Lemma closeUnused_loop_spec idxs pivot nClosable nClosed bs os e :
  heap_ok bs → nClosed ≤ nClosable →
  (∀ i k p, bt_items (bs_tree bs) !! i = Some (k, Some p) →
     ∃ j, j ∈ idxs ∧ around pivot (Z.of_nat j) = Z.of_nat i) →
  ∃ e' bs' os', closeUnused_loop idxs pivot nClosable nClosed e bs os = (Ok e', bs', os') ∧
    unloaded bs bs' ∧ nloaded bs' = Z.max 0 (nloaded bs - (nClosable - nClosed)).
Proof.
  revert nClosed bs os e. induction idxs as [|j idxs IH]; intros nClosed bs os e Hok Hn Hvisit; cbn [closeUnused_loop].
  - exists e, bs, os. split; [done|]. split; [done|]. assert (nloaded bs = 0) as ->; [|lia].
    unfold nloaded. destruct (omap snd (bt_items (bs_tree bs))) as [|p ps] eqn:E; [done|]. exfalso.
    assert (p ∈ omap snd (bt_items (bs_tree bs))) as ([k q] & Hin & Hq)%list_elem_of_omap by (rewrite E; by left).
    cbn in Hq. subst q. apply list_elem_of_lookup_1 in Hin as [i Hi]. by destruct (Hvisit i k p Hi) as (? & ?%elem_of_nil & _).
  - pose proof (nloaded_nonneg bs). destruct (Z.leb_spec nClosable nClosed) as [Hstop|Hgo].
    { exists e, bs, os. split; [done|]. split; [done|]. lia. }
    run. fold (around pivot (Z.of_nat j)).
    assert (∀ i k p, bt_items (bs_tree bs) !! i = Some (k, Some p) → around pivot (Z.of_nat j) ≠ Z.of_nat i →
      ∃ j', j' ∈ idxs ∧ around pivot (Z.of_nat j') = Z.of_nat i) as Hrest.
    { intros i k p Hi Hne. destruct (Hvisit i k p Hi) as (j' & [->|Hj]%elem_of_cons & Heq); [done|]. by exists j'. }
    unfold GetAt. destruct (Z.ltb_spec (around pivot (Z.of_nat j)) 0) as [Hneg|Hpos].
    { apply IH; [done|lia|]. intros i k p Hi. apply (Hrest i k p Hi). lia. }
    set (i := Z.to_nat (around pivot (Z.of_nat j))). assert (around pivot (Z.of_nat j) = Z.of_nat i) as Hi0 by lia.
    destruct (bt_items (bs_tree bs) !! i) as [[key [p|]]|] eqn:Ei.
    + destruct (heap_ok_items _ _ _ _ Hok Ei) as [b Hb].
      destruct (reap_spec bs os key p b e Hb) as (e1 & bs1 & os1 & -> & Ht & Hlen & Hconf).
      assert (unloaded bs bs1) as Hul.
      { eapply (unloaded_set _ _ key (Some p)); try done. apply bt_items_get. by eapply list_elem_of_lookup_2. }
      assert (nloaded bs1 = nloaded bs - 1) as Hn1.
      { rewrite <- (nloaded_set bs i key p Ei). unfold nloaded. by rewrite Ht. }
      destruct (IH (nClosed + 1) bs1 os1 e1) as (e' & bs' & os' & -> & Hul' & Hn').
      * by eapply heap_ok_unloaded.
      * lia.
      * intros i' k' p' Hi'. rewrite Ht, (bt_items_replace _ i key (Some p)) in Hi' by done.
        destruct (decide (i = i')) as [<-|Hne].
        { rewrite list_lookup_insert_eq in Hi' by (by eapply lookup_lt_Some). done. }
        rewrite list_lookup_insert_ne in Hi' by done. apply (Hrest i' k' p' Hi'). lia.
      * exists e', bs', os'. split; [done|]. split; [by transitivity bs1|]. lia.
    + apply IH; [done|lia|]. intros i' k p Hi'. apply (Hrest i' k p Hi'). intros Heq.
      assert (i' = i) by lia. subst i'. by pose proof (eq_trans (eq_sym Ei) Hi').
    + apply IH; [done|lia|]. intros i' k p Hi'. apply (Hrest i' k p Hi'). intros Heq.
      assert (i' = i) by lia. subst i'. by pose proof (eq_trans (eq_sym Ei) Hi').
Qed.

Lemma closeUnused_holds bs os maxBucks :
  heap_ok bs → 0 ≤ maxBucks →
  ∃ r bs' os', closeUnused maxBucks bs os = (r, bs', os') ∧ (r = Ok tt ∨ ∃ e, r = Err e) ∧
    unloaded bs bs' ∧ nloaded bs' = Z.min (nloaded bs) maxBucks.
Proof.
  intros Hok Hmax. unfold closeUnused. replace (maxBucks <? 0) with false by lia. run.
  destruct (Z.leb_spec (nloaded bs) maxBucks) as [Hle|Hgt].
  { exists (Ok tt), bs, os. split_and!; [done|by left|done|lia]. }
  set (n := bt_len (bs_tree bs)).
  destruct (closeUnused_loop_spec (seq 0 n) (Z.quot (Z.of_nat n) 2) (nloaded bs - maxBucks) 0 bs os None Hok)
    as (e & bs' & os' & -> & Hul & Hn); [lia| |].
  - intros i k p Hi. apply lookup_lt_Some in Hi.
    destruct (around_all (Z.of_nat n) (Z.of_nat i)) as (j & Hj & Heq); [unfold n, bt_len; lia|].
    exists (Z.to_nat j). rewrite elem_of_seq, Z2Nat.id by lia. split; [lia|done].
  - unfold or_fail. destruct e as [e|]; eexists _, bs', os'; (split; [done|]).
    + split; [right; by eexists|]. split; [done|lia].
    + split; [by left|]. split; [done|lia].
Qed.

(** C27. [closeUnused] leaves at most [maxBucks] buckets open and closes no more
    than it has to, whichever system calls fail; it returns, forgets pointers
    only, and no bucket leaves the tree. *)
Theorem closeUnused_spec bs os maxBucks :
  heap_ok bs → 0 ≤ maxBucks →
  ∃ r bs' os', closeUnused maxBucks bs os = (r, bs', os') ∧ (r = Ok tt ∨ ∃ e, r = Err e) ∧
    unloaded bs bs' ∧ nloaded bs' = Z.min (nloaded bs) maxBucks.
Proof. apply closeUnused_holds. Qed.
End bound.

(** ** Witnesses *)

#[local] Existing Instance Host_tiny.

(** Two open buckets, of which one has to be closed. *)
Definition ex_two : buckets slist :=
  mkBuckets ["q"] (bt_set 4 (Some 1%nat) (bt_set 0 (Some 0%nat) bt_empty)) [ex_kbucket false; ex_kbucket true] ∅ ex_conf [].

Lemma ex_two_heap_ok : heap_ok ex_two.
Proof.
  intros k p. unfold ex_two. cbn [bs_tree bs_heap]. rewrite !bt_get_set, bt_get_empty.
  repeat case_decide; intros [= <-]; by eexists.
Qed.

Lemma closeUnused_spec_witness :
  ∃ r bs' os', @closeUnused _ _ Range_id 1 ex_two (ex_os [true; false; true]) = (r, bs', os') ∧
    (r = Ok tt ∨ ∃ e, r = Err e) ∧ unloaded ex_two bs' ∧ nloaded bs' = Z.min (nloaded ex_two) 1.
Proof.
  apply (@closeUnused_spec _ _ _ Range_id ex_two (ex_os [true; false; true]) 1); [apply ex_two_heap_ok|lia].
Defined.
