(* ===== verification/BucketsQueue.v ===== *)
(** * A queue as a family of multisets

    The specification of a queue is a map from bucket keys to the queues of the
    bucket's consumers; [queue_ok] relates the list of buckets and all files to
    it, whichever buckets are open.  Opening and closing buckets behind the
    scenes does not change it. *)

From S2P Require Import Prelude BTree Os Item Vlog Index IndexFile Options Bucket BucketPeek BucketPop BucketQueue.
From S2P Require Import BucketForks BucketOpen BucketCycle Names Buckets BucketsLoad BucketsSplit BucketsClose.

Section queue.
Context {T : Type → Type} `{BTreeLaws T} `{Host, Unix, !UnixLaws} `{MapRange, !MapRangeLaws}.
Implicit Types (bs : buckets T) (b : bucket T) (q : gmap ForkName Items) (Q : gmap Key (gmap ForkName Items)).

(** ** Directories of buckets *)

Lemma Key_String_inj k k' : is_int64 k → is_int64 k' → Key_String k = Key_String k' → k = k'.
Proof.
  intros Hk Hk' Heq. pose proof (KeyFromString_holds k Hk) as Hs. rewrite Heq, KeyFromString_holds in Hs by done.
  by injection Hs.
Qed.

Lemma buckPath_last bs k : last (buckPath bs k) = Some (Key_String k).
Proof. apply last_snoc. Qed.

(** ** The invariant *)

(** A bucket of the list: it is open, and [v] points to it, or on disk only. *)
Definition bucket_at (c : cap) bs (os : OS) (k : Key) (v : option nat) q : Prop :=
  match v with
  | Some p => ∃ b all, bs_heap bs !! p = Some b ∧ durable c b os q all ∧ b_dir b = buckPath bs k ∧ b_key b = k
  | None => parked c os (buckPath bs k) q
  end.

(** There is no bucket under this key. *)
Definition vacant bs (os : OS) (k : Key) : Prop :=
  os_fs os !! buckPath bs k = None ∧ ∀ name, os_fs os !! Join (buckPath bs k) name = None.

Definition dom_forks bs q : Prop := ∀ f, f ∈ bs_forks bs ++ [""] ↔ is_Some (q !! f).

(** The file with the name of the split function. *)
Definition conf_node (opts : Options) : node := NFile (String.list_byte_of_string (sc_Name (opt_BucketSplitConf opts))).

(** What is known of the bucket under one key. *)
Definition key_ok (c : cap) bs (os : OS) (k : Key) (v : option (option nat)) (oq : option (gmap ForkName Items)) : Prop :=
  match v, oq with
  | Some v, Some q => bucket_at c bs os k v q ∧ dom_forks bs q
  | None, None => vacant bs os k
  | _, _ => False
  end.

Record queue_ok (c : cap) bs (os : OS) Q : Prop := {
  qo_keys : ∀ k, is_int64 k → key_ok c bs os k (bt_get k (bs_tree bs)) (Q !! k);
  qo_int : ∀ k, is_Some (bt_get k (bs_tree bs)) ∨ is_Some (Q !! k) → is_int64 k;
  qo_apart : ∀ k k' p, bt_get k (bs_tree bs) = Some (Some p) → bt_get k' (bs_tree bs) = Some (Some p) → k = k';
  qo_forks : NoDup (bs_forks bs ++ [""]);
  qo_dir : ∀ d : path, d `prefix_of` bs_dir bs → d ≠ [] → os_fs os !! d = Some NDir;
  qo_names : ∀ name node, os_fs os !! Join (bs_dir bs) name = Some node →
    (∃ k, is_int64 k ∧ name = Key_String k) ∨ name = splitConfFile ∧ node = conf_node (bs_opts bs);
}.

Lemma bucket_at_mono c d bs os k v q : cap_le c d → bucket_at c bs os k v q → bucket_at d bs os k v q.
Proof.
  intros Hcd. destruct v as [p|]; cbn; [|intros Hoff; by eapply parked_mono].
  intros (b & all & ? & ? & ?). exists b, all. split; [done|]. split; [by eapply durable_mono|done].
Qed.

(** The bucket of a key that is in the specification. *)
Lemma queue_ok_lookup c bs os Q k q :
  queue_ok c bs os Q → Q !! k = Some q →
  ∃ v, bt_get k (bs_tree bs) = Some v ∧ bucket_at c bs os k v q ∧ dom_forks bs q ∧ is_int64 k.
Proof.
  intros Hok Hq. assert (is_int64 k) as Hk by (apply (qo_int _ _ _ _ Hok); right; by eexists).
  pose proof (qo_keys _ _ _ _ Hok k Hk) as Hkey. rewrite Hq in Hkey. unfold key_ok in Hkey.
  destruct (bt_get k (bs_tree bs)) as [v|]; [|done]. destruct Hkey. by exists v.
Qed.

Lemma queue_ok_get c bs os Q k v :
  queue_ok c bs os Q → bt_get k (bs_tree bs) = Some v →
  ∃ q, Q !! k = Some q ∧ bucket_at c bs os k v q ∧ dom_forks bs q ∧ is_int64 k.
Proof.
  intros Hok Hv. assert (is_int64 k) as Hk by (apply (qo_int _ _ _ _ Hok); left; by eexists).
  pose proof (qo_keys _ _ _ _ Hok k Hk) as Hkey. rewrite Hv in Hkey. unfold key_ok in Hkey.
  destruct (Q !! k) as [q|]; [|done]. destruct Hkey. by exists q.
Qed.

(** The same directory and consumers. *)
Record same_list bs bs' : Prop := {
  sl_dir : bs_dir bs' = bs_dir bs;
  sl_forks : bs_forks bs' = bs_forks bs;
  sl_opts : bs_opts bs' = bs_opts bs;
}.

#[global] Instance same_list_preorder : PreOrder same_list.
Proof. split; [done|]. intros x y z [? ? ?] [? ? ?]. split; congruence. Qed.

Lemma buckPath_same bs bs' k : same_list bs bs' → buckPath bs' k = buckPath bs k.
Proof. intros [Hd _ _]. unfold buckPath. by rewrite Hd. Qed.

(** The files that the invariant is about: those below the directory, and the
    directories above. *)
Definition near (dir p : path) : Prop := dir `prefix_of` p ∨ p `prefix_of` dir.

Lemma bucket_near bs k p : bucket_files (buckPath bs k) p ∨ p `prefix_of` buckPath bs k → near (bs_dir bs) p.
Proof.
  intros [Hp|[r Hr]]; [left|].
  - destruct Hp as [->|[name ->]]; unfold buckPath, Join; [by eexists|]. rewrite <- app_assoc. by eexists.
  - unfold buckPath, Join in Hr. destruct r as [|x r] using rev_ind.
    + left. rewrite app_nil_r in Hr. rewrite <- Hr. by eexists.
    + right. rewrite app_assoc in Hr. apply app_inj_2 in Hr as [Hr _]; [|done]. by exists r.
Qed.

(** The files of one bucket are not below the directory of another one. *)
Lemma bucket_elsewhere bs k k' p :
  is_int64 k → is_int64 k' → k ≠ k' → bucket_files (buckPath bs k') p ∨ p `prefix_of` buckPath bs k' →
  ¬ buckPath bs k `prefix_of` p.
Proof.
  intros Hk Hk' Hne Hp [r ->]. assert (Key_String k ≠ Key_String k') as Hs by (intros ?%Key_String_inj; done).
  destruct Hp as [[Heq|[name Heq]]|[r' Heq]]; unfold buckPath, Join in Heq; rewrite <- ?app_assoc in Heq;
    apply app_inv_head, (f_equal head) in Heq; cbn [head app] in Heq; congruence.
Qed.

Lemma buckPath_apart bs k k' p :
  is_int64 k → is_int64 k' → k ≠ k' → bucket_files (buckPath bs k) p →
  ¬ (bucket_files (buckPath bs k') p ∨ p `prefix_of` buckPath bs k').
Proof.
  intros Hk Hk' Hne Hp Hp'. apply (bucket_elsewhere bs k k' p Hk Hk' Hne Hp').
  destruct Hp as [->|[name ->]]; [done|by eexists].
Qed.

(** A list that did not change, next to files that did. *)
Lemma queue_ok_frame c bs os os' Q :
  queue_ok c bs os Q → (∀ p, near (bs_dir bs) p → os_fs os' !! p = os_fs os !! p) → queue_ok c bs os' Q.
Proof.
  intros [Hkeys Hint Hap Hforks Hdir Hnames] Hfs.
  assert (∀ k, same_bucket (buckPath bs k) os os') as Hframe by (intros k p Hp; by eapply Hfs, bucket_near).
  split; try done.
  - intros k Hk. specialize (Hkeys k Hk). specialize (Hframe k). unfold key_ok, bucket_at, vacant in *.
    destruct (bt_get k (bs_tree bs)) as [[p|]|], (Q !! k) as [q|]; try done.
    + destruct Hkeys as [(b & all & Hb & Hdu & Hd & Hbk) Hdom]. split; [|done]. exists b, all.
      split; [done|]. split; [|done]. eapply durable_frame; [|done]. by rewrite Hd.
    + destruct Hkeys as [Hoff Hdom]. split; [|done]. by eapply parked_frame.
    + destruct Hkeys as [Hd Hn]. split; [rewrite Hframe; [done|left; by left]|].
      intros name. rewrite Hframe; [done|left; right; by eexists].
  - intros d Hd Hne. rewrite Hfs by (by right). by apply Hdir.
  - intros name node. rewrite Hfs by (left; by eexists). apply Hnames.
Qed.

(** An operation that changes one bucket of the list and its files. *)
Lemma queue_ok_change c d bs bs' os os' Q Q' k :
  queue_ok c bs os Q → cap_le c d → is_int64 k → same_list bs bs' →
  (∀ p, near (bs_dir bs) p → ¬ buckPath bs k `prefix_of` p → os_fs os' !! p = os_fs os !! p) →
  (∀ k', k' ≠ k → bt_get k' (bs_tree bs') = bt_get k' (bs_tree bs) ∧ Q' !! k' = Q !! k') →
  (∀ k' p, k' ≠ k → bt_get k' (bs_tree bs) = Some (Some p) → bs_heap bs' !! p = bs_heap bs !! p) →
  (∀ k' p, k' ≠ k → bt_get k' (bs_tree bs) = Some (Some p) → bt_get k (bs_tree bs') ≠ Some (Some p)) →
  key_ok d bs' os' k (bt_get k (bs_tree bs')) (Q' !! k) →
  queue_ok d bs' os' Q'.
Proof.
  intros [Hkeys Hint Hap Hforks Hdir Hnames] Hcd Hk Hsame Hfs Hother Hheap Hfresh Hkey.
  assert (∀ k', is_int64 k' → k' ≠ k → same_bucket (buckPath bs k') os os') as Hframe.
  { intros k' Hk' Hne p Hp. apply Hfs; [by eapply bucket_near|]. by eapply bucket_elsewhere, Hp; [..|apply not_eq_sym]. }
  split.
  - intros k' Hk'. destruct (decide (k' = k)) as [->|Hne]; [done|]. destruct (Hother k' Hne) as [-> ->].
    specialize (Hkeys k' Hk'). specialize (Hframe k' Hk' Hne). specialize (Hheap k').
    pose proof (buckPath_same bs bs' k' Hsame) as Hpath. pose proof (sl_forks _ _ Hsame) as Hfks.
    unfold key_ok, bucket_at, vacant, dom_forks in *. rewrite Hpath, Hfks.
    destruct (bt_get k' (bs_tree bs)) as [[p|]|], (Q !! k') as [q|]; try done.
    + destruct Hkeys as [(b & all & Hb & Hdu & Hd & Hbk) Hdom]. split; [|done]. exists b, all.
      rewrite Hheap by done. split; [done|]. split; [|done]. eapply durable_mono; [done|].
      eapply durable_frame; [|done]. by rewrite Hd.
    + destruct Hkeys as [Hoff Hdom]. split; [|done]. eapply parked_mono; [done|]. by eapply parked_frame.
    + destruct Hkeys as [Hd Hn]. split; [rewrite Hframe; [done|left; by left]|].
      intros name. rewrite Hframe; [done|left; right; by eexists].
  - intros k' Hk'. destruct (decide (k' = k)) as [->|Hne]; [done|]. destruct (Hother k' Hne) as [Ht HQ].
    rewrite Ht, HQ in Hk'. by apply Hint.
  - intros k1 k2 p Hp1 Hp2. destruct (decide (k1 = k)) as [->|Hne1], (decide (k2 = k)) as [->|Hne2]; try done.
    + destruct (Hother k2 Hne2) as [Heq _]. rewrite Heq in Hp2. by destruct (Hfresh k2 p Hne2 Hp2).
    + destruct (Hother k1 Hne1) as [Heq _]. rewrite Heq in Hp1. by destruct (Hfresh k1 p Hne1 Hp1).
    + destruct (Hother k1 Hne1) as [Heq1 _], (Hother k2 Hne2) as [Heq2 _]. rewrite Heq1 in Hp1. rewrite Heq2 in Hp2.
      by apply (Hap k1 k2 p).
  - by rewrite (sl_forks _ _ Hsame).
  - rewrite (sl_dir _ _ Hsame). intros d' Hpre Hne. rewrite Hfs; [by apply Hdir|by right|].
    intros Hin%prefix_length. apply prefix_length in Hpre. unfold buckPath, Join in Hin. rewrite length_app in Hin. cbn in Hin. lia.
  - rewrite (sl_dir _ _ Hsame), (sl_opts _ _ Hsame). intros name node Hnode. destruct (decide (name = Key_String k)) as [->|Hne].
    + left. by exists k.
    + apply Hnames. rewrite <- Hnode. symmetry. apply Hfs; [left; by eexists|]. intros [r Hr].
      unfold buckPath, Join in Hr. rewrite <- app_assoc in Hr. apply app_inv_head, (f_equal head) in Hr. cbn [head app] in Hr. congruence.
Qed.

Lemma only_bucket_files dir os os' p :
  only_files (bucket_files dir) os os' → ¬ dir `prefix_of` p → os_fs os' !! p = os_fs os !! p.
Proof. intros [Hof _] Hp. apply Hof. intros [->|[name ->]]; apply Hp; [done|by eexists]. Qed.

Lemma queue_ok_update c d bs bs' os os' Q Q' k :
  queue_ok c bs os Q → cap_le c d → is_int64 k → same_list bs bs' →
  only_files (bucket_files (buckPath bs k)) os os' →
  (∀ k', k' ≠ k → bt_get k' (bs_tree bs') = bt_get k' (bs_tree bs) ∧ Q' !! k' = Q !! k') →
  (∀ k' p, k' ≠ k → bt_get k' (bs_tree bs) = Some (Some p) → bs_heap bs' !! p = bs_heap bs !! p) →
  (∀ k' p, k' ≠ k → bt_get k' (bs_tree bs) = Some (Some p) → bt_get k (bs_tree bs') ≠ Some (Some p)) →
  key_ok d bs' os' k (bt_get k (bs_tree bs')) (Q' !! k) →
  queue_ok d bs' os' Q'.
Proof. intros Hok Hcd Hk Hsame Hof. apply (queue_ok_change c d bs bs' os os' Q Q' k); try done. intros p _. by apply only_bucket_files. Qed.

(** A directory without buckets. *)
Lemma queue_ok_fresh c bs os :
  (∀ k, bt_get k (bs_tree bs) = None) → NoDup (bs_forks bs ++ [""]) →
  (∀ p : path, ¬ p `prefix_of` bs_dir bs → os_fs os !! p = None) →
  (∀ d : path, d `prefix_of` bs_dir bs → d ≠ [] → os_fs os !! d = Some NDir) → queue_ok c bs os ∅.
Proof.
  intros Htree Hnd Hnone Hdir. assert (∀ name, os_fs os !! Join (bs_dir bs) name = None) as Hchild.
  { intros name. apply Hnone. intros Hpre%prefix_length. unfold Join in Hpre. rewrite length_app in Hpre. cbn in Hpre. lia. }
  split; try done; [..|by intros name node; rewrite Hchild].
  - intros k _. rewrite Htree, lookup_empty. split; [|intros name]; apply Hnone; intros Hpre%prefix_length;
      unfold buckPath, Join in Hpre; rewrite ?length_app in Hpre; cbn in Hpre; lia.
  - intros k. rewrite Htree, lookup_empty. by intros [[]|[]].
  - intros k k' p. by rewrite Htree.
Qed.

(** ** Closing buckets that are not in use *)

(** The trailers that are kept for buckets that are not open. *)
Definition trailers_ok bs Q : Prop :=
  ∀ (k : Key) q f its, bt_get k (bs_tree bs) = Some None → Q !! k = Some q → q !! f = Some its →
    bs_trailers bs !! (k, f) = Some (mkTrailer (Z.of_nat (length its))).

Lemma store_trailers_other key ts bs (k : Key) f :
  k ≠ key → bs_trailers (store_trailers key ts bs) !! (k, f) = bs_trailers bs !! (k, f).
Proof.
  intros Hne. unfold store_trailers. cbn [bs_trailers set_trailers]. generalize (bs_trailers bs). intros m. revert m.
  induction ts as [|[g t] ts IH]; intros m; [done|]. cbn [foldl]. rewrite IH, lookup_insert_ne by congruence. done.
Qed.

Lemma store_trailers_in (key : Key) ts bs f t :
  NoDup ts.*1 → (f, t) ∈ ts → bs_trailers (store_trailers key ts bs) !! (key, f) = Some t.
Proof.
  unfold store_trailers. cbn [bs_trailers set_trailers]. generalize (bs_trailers bs). intros m Hnd. revert m.
  induction ts as [|[g t'] ts IH]; intros m Hin; [by apply elem_of_nil in Hin|]. cbn [foldl] in *.
  cbn in Hnd. apply NoDup_cons in Hnd as [Hg Hnd]. apply elem_of_cons in Hin as [[= <- <-]|Hin]; [|by apply IH].
  assert (∀ m' : gmap (Key * ForkName) Trailer, m' !! (key, f) = Some t → foldl (λ m ft, <[(key, ft.1) := ft.2]> m) m' ts !! (key, f) = Some t) as Hkeep;
    [|apply Hkeep, lookup_insert_eq]. clear IH Hnd.
  induction ts as [|[g t'] ts IH]; intros m' Hm'; [done|]. cbn [foldl fmap list_fmap] in *.
  apply not_elem_of_cons in Hg as [Hfg Hg]. apply IH; [done|]. cbn in *. rewrite lookup_insert_ne; [done|congruence].
Qed.

Lemma Trailers_spec b os q f its :
  bucket_ok b os q → q !! f = Some its →
  NoDup (Trailers b).*1 ∧ (f, mkTrailer (Z.of_nat (length its))) ∈ Trailers b.
Proof.
  intros Hok Hq. destruct (range_forks_spec b) as [Hnd Hin]. split.
  - assert ((Trailers b).*1 = range_forks b) as ->; [|done]. unfold Trailers.
    assert (∀ l, (∀ g, g ∈ l → is_Some (b_indexes b !! g)) →
      (omap (λ fork, (λ idx, (fork, Index_Trailer (bi_Mem idx))) <$> b_indexes b !! fork) l).*1 = l) as Hmap;
      [|apply Hmap; intros g Hg; by apply Hin].
    intros l Hl. induction l as [|g l IH]; [done|]. destruct (Hl g ltac:(by left)) as [idx Hidx].
    cbn. rewrite Hidx. cbn. f_equal. apply IH. intros h Hh. apply Hl. by right.
  - destruct (bucket_ok_lookup _ _ _ _ _ Hok Hq) as (idx & Hidx & Hfork). unfold Trailers.
    apply list_elem_of_omap. exists f. split; [apply Hin; by eexists|]. rewrite Hidx. cbn.
    pose proof (fork_ok_Len _ _ _ _ _ _ Hfork) as Hl. unfold Index_Trailer. unfold Len in Hl. by rewrite Hl.
Qed.

(** An open bucket of the list. *)
Lemma queue_ok_open c bs os Q k p :
  queue_ok c bs os Q → bt_get k (bs_tree bs) = Some (Some p) →
  ∃ b q all, bs_heap bs !! p = Some b ∧ Q !! k = Some q ∧ durable c b os q all ∧ b_dir b = buckPath bs k ∧
    b_key b = k ∧ dom_forks bs q ∧ is_int64 k.
Proof.
  intros Hok Hp. destruct (queue_ok_get _ _ _ _ _ _ Hok Hp) as (q & HQ & (b & all & ? & ? & ? & ?) & ? & ?).
  by exists b, q, all.
Qed.

(** The tree and the heap after the pointer of one key was changed. *)
Lemma tree_set_other k k' (v : option nat) t bs :
  k' ≠ k → bt_get k' (bs_tree (set_tree (bt_set k v t) bs)) = bt_get k' t.
Proof. intros Hne. cbn. rewrite bt_get_set, decide_False; done. Qed.

Lemma tree_set_this k (v : option nat) t bs : bt_get k (bs_tree (set_tree (bt_set k v t) bs)) = Some v.
Proof. cbn. by rewrite bt_get_set, decide_True. Qed.

Lemma queue_ok_heap c bs os Q : queue_ok c bs os Q → heap_ok bs.
Proof. intros Hok k p Hp. destruct (queue_ok_open _ _ _ _ _ _ Hok Hp) as (b & ? & ? & Hb & _). by eexists. Qed.

(** The list after the bucket [b], which [p] points to, was closed. *)
Definition reaped (key : Key) (p : nat) b b' bs : buckets T :=
  set_tree (bt_set key None (bs_tree bs)) (put_bucket p b' (store_trailers key (Trailers b) bs)).

Lemma reap_eq (key : Key) p b b' bs os :
  bs_heap bs !! p = Some b → BClose b os = (Ok tt, b', os) → reap key p None bs os = (Ok None, reaped key p b b' bs, os).
Proof.
  intros Hb Hclose. unfold reap, deref, on_bucket, deref, attempt. run. rewrite Hb. cbn [of_option].
  change (bs_heap (store_trailers key (Trailers b) bs)) with (bs_heap bs). rewrite Hb. cbn [of_option]. run. rewrite Hclose.
  cbn [err_of]. unfold tree_set. run. cbn [bs_opts put_bucket set_heap]. by destruct (opt_ErrorMode _ =? _).
Qed.

Lemma reap_ok c bs os Q (key : Key) p :
  queue_ok c bs os Q → bt_get key (bs_tree bs) = Some (Some p) → os_faults os = [] →
  ∃ b b', bs_heap bs !! p = Some b ∧ BClose b os = (Ok tt, b', os) ∧ queue_ok c (reaped key p b b' bs) os Q ∧
    (trailers_ok bs Q → trailers_ok (reaped key p b b' bs) Q).
Proof.
  intros Hok Hp Hno. destruct (queue_ok_open _ _ _ _ _ _ Hok Hp) as (b & q & all & Hb & HQ & Hdu & Hdir & Hkey & Hdom & Hk).
  destruct (BClose_spec b os q (du_ok _ _ _ _ _ Hdu) Hno) as (b' & Hclose).
  set (bs' := reaped key p b b' bs). exists b, b'. split; [done|]. split; [done|]. split.
  - apply (queue_ok_update c c bs bs' os os Q Q key); try done.
    + intros k' Hne. split; [|done]. unfold bs', reaped. by rewrite tree_set_other.
    + intros k' p' Hne Hp'. cbn. apply list_lookup_insert_ne. intros ->. apply Hne.
      by eapply (qo_apart _ _ _ _ Hok).
    + intros k' p' _ _. unfold bs', reaped. by rewrite tree_set_this.
    + unfold bs', reaped. rewrite tree_set_this, HQ. split; [|done].
      change (parked c os (buckPath bs key) q). rewrite <- Hdir. by eapply durable_parked.
  - intros Htr k q' f its Hn HQ' Hf. unfold reaped in Hn. fold bs'. destruct (decide (k = key)) as [->|Hne].
    + pose proof (eq_trans (eq_sym HQ) HQ') as [= <-]. destruct (Trailers_spec b os q f its) as [Hnd Hin]; [by destruct Hdu|done|].
      change (bs_trailers bs') with (bs_trailers (store_trailers key (Trailers b) bs)). by apply store_trailers_in.
    + rewrite tree_set_other in Hn by done. change (bs_trailers bs') with (bs_trailers (store_trailers key (Trailers b) bs)).
      rewrite store_trailers_other by done. by eapply Htr.
Qed.

(** Closing the buckets of a list one after the other keeps what closing one
    keeps. *)
Lemma closeUnused_keeps (I : buckets T → Prop) n bs os :
  (∀ bs (key : Key) p, I bs → bt_get key (bs_tree bs) = Some (Some p) → ∃ bs', reap key p None bs os = (Ok None, bs', os) ∧ I bs') →
  I bs → ∃ bs', closeUnused n bs os = (Ok tt, bs', os) ∧ I bs'.
Proof.
  intros Hreap Hbs. assert (∀ idxs pivot nClosable nClosed bs, I bs →
    ∃ bs', closeUnused_loop idxs pivot nClosable nClosed None bs os = (Ok None, bs', os) ∧ I bs') as Hloop.
  { clear bs Hbs. intros idxs pivot nClosable.
    induction idxs as [|idx idxs IH]; intros nClosed bs Hbs; cbn [closeUnused_loop]; [by exists bs|].
    destruct (nClosable <=? nClosed); [by exists bs|]. cbv zeta. run.
    destruct (GetAt (bs_tree bs) _) as [[key [p|]]|] eqn:Hget; [|by apply IH..].
    assert (bt_get key (bs_tree bs) = Some (Some p)) as Hp.
    { unfold GetAt in Hget. destruct (_ <? 0); [done|]. apply bt_items_get. by eapply list_elem_of_lookup_2. }
    destruct (Hreap bs key p Hbs Hp) as (bs1 & -> & Hbs1). by apply IH. }
  unfold closeUnused. destruct (n <? 0); [by exists bs|]. run. destruct (nloaded bs <=? n); [by exists bs|].
  destruct (Hloop (seq 0 (bt_len (bs_tree bs))) (Z.quot (Z.of_nat (bt_len (bs_tree bs))) 2) (nloaded bs - n) 0 bs Hbs)
    as (bs' & -> & ?). by exists bs'.
Qed.

Lemma closeUnused_ok n c bs os Q :
  queue_ok c bs os Q → os_faults os = [] →
  ∃ bs', closeUnused n bs os = (Ok tt, bs', os) ∧ queue_ok c bs' os Q ∧ same_list bs bs' ∧
    (trailers_ok bs Q → trailers_ok bs' Q) ∧ unloaded bs bs'.
Proof.
  intros Hok Hno.
  destruct (closeUnused_keeps (λ bs', queue_ok c bs' os Q ∧ same_list bs bs' ∧ (trailers_ok bs Q → trailers_ok bs' Q)) n bs os)
    as (bs' & Heq & Hok' & Hsame & Htr); [|done|].
  { intros bs1 key p (Hok1 & Hsame1 & Htr1) Hp. destruct (reap_ok c bs1 os Q key p Hok1 Hp Hno) as (b & b' & ? & ? & ? & ?).
    exists (reaped key p b b' bs1). split_and!; try done; [by apply reap_eq|by transitivity bs1|auto]. }
  exists bs'. split_and!; try done. destruct (Z.ltb_spec n 0) as [Hneg|Hpos].
  - unfold closeUnused in Heq. replace (n <? 0) with true in Heq by lia. run in Heq. by injection Heq as <-.
  - destruct (closeUnused_holds bs os n (queue_ok_heap _ _ _ _ Hok) Hpos) as (r & bs2 & os2 & Heq2 & _ & Hul & _).
    congruence.
Qed.

(** ** Opening buckets *)

(** The specification with a bucket under [k]; a new one has no items. *)
Definition with_bucket (fs : list ForkName) (k : Key) Q : gmap Key (gmap ForkName Items) :=
  match Q !! k with
  | Some _ => Q
  | None => <[k := empty_queues (fs ++ [""])]> Q
  end.

Lemma with_bucket_Some fs k Q q : Q !! k = Some q → with_bucket fs k Q = Q.
Proof. unfold with_bucket. by intros ->. Qed.

Lemma with_bucket_None fs k Q : Q !! k = None → with_bucket fs k Q = <[k := empty_queues (fs ++ [""])]> Q.
Proof. unfold with_bucket. by intros ->. Qed.

Lemma buckPath_above bs os k :
  (∀ d : path, d `prefix_of` bs_dir bs → d ≠ [] → os_fs os !! d = Some NDir) →
  ∀ d : path, d `prefix_of` buckPath bs k → d ≠ buckPath bs k → d ≠ [] → os_fs os !! d = Some NDir.
Proof.
  intros Hdir d [r Hr] Hne Hne0. apply Hdir; [|done]. unfold buckPath, Join in Hr.
  destruct r as [|x r] using rev_ind; [by rewrite app_nil_r in Hr|]. rewrite app_assoc in Hr.
  apply app_inj_2 in Hr as [Hr _]; [|done]. by exists r.
Qed.

(** [openBucket] in the directory of a key that is not open. *)
Lemma open_key {St} (s : St) c bs os Q k :
  queue_ok c bs os Q → cap_ok c → is_int64 k → os_faults os = [] → (∀ p, bt_get k (bs_tree bs) ≠ Some (Some p)) →
  ∃ b os' all q, openBucket (buckPath bs k) (bs_forks bs) (bs_opts bs) s os = (Ok b, s, os') ∧
    with_bucket (bs_forks bs) k Q !! k = Some q ∧ durable c b os' q all ∧ dom_forks bs q ∧
    opened (buckPath bs k) k (bs_opts bs) b ∧ only_files (bucket_files (buckPath bs k)) os os' ∧ os_faults os' = [].
Proof.
  intros Hok Hc Hk Hno Hclosed. pose proof (qo_keys _ _ _ _ Hok k Hk) as Hkey. unfold key_ok in *.
  destruct (bt_get k (bs_tree bs)) as [[p|]|], (Q !! k) as [q|] eqn:HQ; try done.
  - by destruct (Hclosed p).
  - destruct Hkey as [Hoff Hdom].
    destruct (openBucket_offline s c (buckPath bs k) (bs_forks bs) (bs_opts bs) k os q)
      as (b & os' & all & ? & ? & ? & ? & ?); try done; [by destruct Hoff|by destruct Hok|apply buckPath_last|].
    exists b, os', all, q. rewrite (with_bucket_Some _ _ _ _ HQ). by split_and!.
  - destruct Hkey as [Hd Hnone].
    destruct (openBucket_bare s 1 (buckPath bs k) (bs_forks bs) (bs_opts bs) k os)
      as (b & os' & ? & ? & ? & ? & ? & Hdu); try done.
    { split; [apply Hnone|]. intros f _. apply Hnone. }
    { split; [|by left]. apply buckPath_above. by destruct Hok. }
    { apply buckPath_last. }
    exists b, os', [], (empty_queues (bs_forks bs ++ [""])). rewrite with_bucket_None, lookup_insert_eq by done.
    split_and!; try done.
    + eapply durable_mono; [|by apply Hdu]. destruct Hc as [[] []]. split; cbn; lia.
    + intros f. apply empty_queues_dom.
Qed.

Lemma with_bucket_other fs k k' Q : k' ≠ k → with_bucket fs k Q !! k' = Q !! k'.
Proof. intros Hne. unfold with_bucket. destruct (Q !! k); [done|]. by rewrite lookup_insert_ne. Qed.

(** The list after a new bucket was opened. *)
Definition opened_at (k : Key) b bs : buckets T :=
  set_tree (bt_set k (Some (length (bs_heap bs))) (bs_tree bs)) (set_heap (bs_heap bs ++ [b]) bs).

Lemma open_new {St} (s : St) c bs os Q k :
  queue_ok c bs os Q → cap_ok c → is_int64 k → os_faults os = [] → (∀ p, bt_get k (bs_tree bs) ≠ Some (Some p)) →
  ∃ b os', openBucket (buckPath bs k) (bs_forks bs) (bs_opts bs) s os = (Ok b, s, os') ∧
    queue_ok c (opened_at k b bs) os' (with_bucket (bs_forks bs) k Q) ∧
    (trailers_ok bs Q → trailers_ok (opened_at k b bs) (with_bucket (bs_forks bs) k Q)) ∧
    only_files (bucket_files (buckPath bs k)) os os' ∧ os_faults os' = [].
Proof.
  intros Hok Hc Hk Hno Hclosed.
  destruct (open_key s c bs os Q k Hok Hc Hk Hno Hclosed) as (b & os' & all & q & Hopen & HQ & Hdu & Hdom & [Hbd Hbk _] & Hof & Hno').
  set (bs' := opened_at k b bs). exists b, os'.
  assert (bt_get k (bs_tree bs') = Some (Some (length (bs_heap bs)))) as Hget by apply tree_set_this.
  assert (∀ k', k' ≠ k → bt_get k' (bs_tree bs') = bt_get k' (bs_tree bs)) as Hother
    by (intros k' Hne; by apply tree_set_other).
  split; [done|]. split; [|split; [|done]].
  - apply (queue_ok_update c c bs bs' os os' Q _ k); try done.
    + intros k' Hne. split; [by apply Hother|by apply with_bucket_other].
    + intros k' p Hne Hp. destruct (queue_ok_heap _ _ _ _ Hok k' p Hp) as [b' Hb']. cbn. rewrite Hb'.
      by apply lookup_app_l_Some.
    + intros k' p Hne Hp. rewrite Hget. intros [= <-].
      destruct (queue_ok_heap _ _ _ _ Hok k' _ Hp) as [b' Hb'%lookup_lt_Some]. lia.
    + rewrite Hget, HQ. split; [|done]. exists b, all. split; [|done].
      cbn. rewrite lookup_app_r, Nat.sub_diag by lia. done.
  - intros Htr k' q' f its Hn HQ' Hf. fold bs' in Hn. destruct (decide (k' = k)) as [->|Hne]; [by rewrite Hget in Hn|].
    rewrite Hother in Hn by done. rewrite with_bucket_other in HQ' by done. by eapply Htr.
Qed.

(** [forKey] opens the bucket of a key, whatever has to be closed for it, and
    all queues stay what they are. *)
Lemma forKey_at c bs os Q k :
  queue_ok c bs os Q → cap_ok c → is_int64 k → os_faults os = [] →
  ∃ p bs' os', forKey k bs os = (Ok p, bs', os') ∧ queue_ok c bs' os' (with_bucket (bs_forks bs) k Q) ∧
    bt_get k (bs_tree bs') = Some (Some p) ∧ same_list bs bs' ∧ os_faults os' = [] ∧
    (trailers_ok bs Q → trailers_ok bs' (with_bucket (bs_forks bs) k Q)) ∧ only_files (bucket_files (buckPath bs k)) os os'.
Proof.
  intros Hok Hc Hk Hno. unfold forKey. run.
  destruct (closeUnused_ok (int64 (opt_MaxParallelOpenBuckets (bs_opts bs) - 1)) c bs os Q Hok Hno)
    as (bs1 & Hclose & Hok1 & Hsame1 & Htr1 & Hul).
  assert ((∃ p, bt_get k (bs_tree bs) = Some (Some p)) ∨ ∀ p, bt_get k (bs_tree bs) ≠ Some (Some p)) as [[p Hp]|Hclosed]
    by (destruct (bt_get k (bs_tree bs)) as [[p|]|]; [left; by exists p|by right..]).
  { rewrite Hp. exists p, bs, os. destruct (queue_ok_open _ _ _ _ _ _ Hok Hp) as (b & q & all & _ & HQ & _).
    rewrite (with_bucket_Some _ _ _ _ HQ). by split_and!. }
  assert (∀ p, bt_get k (bs_tree bs1) ≠ Some (Some p)) as Hclosed1.
  { intros p Hp. destruct (ul_get _ _ Hul k) as [Heq|[_ Heq]]; rewrite Heq in Hp; [|done]. by apply (Hclosed p). }
  destruct (open_new bs1 c bs1 os Q k Hok1 Hc Hk Hno Hclosed1) as (b & os' & Hopen & Hok' & Htr' & Hof & Hno').
  rewrite (buckPath_same _ _ k Hsame1), (sl_forks _ _ Hsame1), (sl_opts _ _ Hsame1) in Hopen.
  rewrite (sl_forks _ _ Hsame1) in Hok', Htr'. rewrite (buckPath_same _ _ k Hsame1) in Hof.
  exists (length (bs_heap bs1)), (opened_at k b bs1), os'. split; [|split; [done|split; [apply tree_set_this|split_and!; try done; auto]]].
  - unfold alloc, tree_set. destruct (bt_get k (bs_tree bs)) as [[p|]|] eqn:Hg; [by destruct (Hclosed p)|..].
    all: rewrite Hclose, Hopen; by run.
  - by transitivity bs1.
Qed.

Lemma forKey_ok c bs os Q k :
  queue_ok c bs os Q → cap_ok c → is_int64 k → os_faults os = [] →
  ∃ p bs' os', forKey k bs os = (Ok p, bs', os') ∧ queue_ok c bs' os' (with_bucket (bs_forks bs) k Q) ∧
    bt_get k (bs_tree bs') = Some (Some p) ∧ same_list bs bs' ∧ os_faults os' = [] ∧
    (trailers_ok bs Q → trailers_ok bs' (with_bucket (bs_forks bs) k Q)).
Proof.
  intros Hok Hc Hk Hno. destruct (forKey_at c bs os Q k Hok Hc Hk Hno) as (p & bs' & os' & ? & ? & ? & ? & ? & ? & _).
  by exists p, bs', os'.
Qed.
End queue.
