(* ===== verification/BucketsPush.v ===== *)
(** * Pushing to a queue

    [Push] on the list of buckets, with all that happens on the way: sorting,
    splitting, opening and closing of buckets.  Every consumer gets every item,
    in the bucket that the split function gives for it. *)

From S2P Require Import Prelude BTree Os Item Vlog Index IndexFile Options Bucket BucketPeek BucketPop BucketQueue.
From S2P Require Import BucketForks BucketOpen BucketCycle Names Buckets BucketsSplit BucketsClose BucketsQueue.

(** ** What a push does to the specification *)

Section spec.
Implicit Types (q : gmap ForkName Items) (Q : gmap Key (gmap ForkName Items)) (fs : list ForkName).

(** The items of a consumer in one bucket. *)
Definition queue_of Q (k : Key) (f : ForkName) : Items := default [] (Q !! k ≫= lookup f).

Definition bucket_of fs (k : Key) Q : gmap ForkName Items := default (empty_queues (fs ++ [""])) (Q !! k).

Definition push_to fs (k : Key) (items : Items) Q : gmap Key (gmap ForkName Items) :=
  <[k := (.++ items) <$> bucket_of fs k Q]> Q.

(** Every bucket has the same consumers. *)
Definition uniform fs Q : Prop := ∀ k q, Q !! k = Some q → ∀ f, f ∈ fs ++ [""] ↔ is_Some (q !! f).

(** Every consumer of every bucket has room for [n] more items. *)
Definition room (n : Z) Q : Prop :=
  0 ≤ n < 2 ^ 32 ∧ ∀ k q f its, Q !! k = Some q → q !! f = Some its → Z.of_nat (length its) + n < 2 ^ 32.

Lemma bucket_of_dom fs k Q f : uniform fs Q → f ∈ fs ++ [""] ↔ is_Some (bucket_of fs k Q !! f).
Proof.
  intros Hu. unfold bucket_of. destruct (Q !! k) as [q|] eqn:HQ; cbn; [by eapply Hu|apply empty_queues_dom].
Qed.

Lemma bucket_of_lookup fs k Q f :
  uniform fs Q → f ∈ fs ++ [""] → bucket_of fs k Q !! f = Some (queue_of Q k f).
Proof.
  intros Hu Hf. destruct (proj1 (bucket_of_dom fs k Q f Hu) Hf) as [its Hits]. rewrite Hits. f_equal.
  unfold bucket_of, queue_of in *. destruct (Q !! k) as [q|]; cbn in *; [by rewrite Hits|].
  by apply lookup_gset_to_gmap_Some in Hits as [_ ->].
Qed.

Lemma uniform_push fs k g Q : uniform fs Q → uniform fs (push_to fs k g Q).
Proof.
  intros Hu k' q. unfold push_to. destruct (decide (k = k')) as [<-|Hne].
  - rewrite lookup_insert_eq. intros [= <-] f. rewrite lookup_fmap, fmap_is_Some. by apply bucket_of_dom.
  - rewrite lookup_insert_ne by done. apply Hu.
Qed.

Lemma queue_of_push fs k g Q k' f :
  uniform fs Q → f ∈ fs ++ [""] →
  queue_of (push_to fs k g Q) k' f = queue_of Q k' f ++ (if decide (k = k') then g else []).
Proof.
  intros Hu Hf. unfold queue_of at 1, push_to. destruct (decide (k = k')) as [<-|Hne].
  - rewrite lookup_insert_eq. cbn. by rewrite lookup_fmap, (bucket_of_lookup fs) by done.
  - rewrite lookup_insert_ne by done. by rewrite app_nil_r.
Qed.

Lemma bucket_of_room n fs k Q f its : room n Q → bucket_of fs k Q !! f = Some its → Z.of_nat (length its) + n < 2 ^ 32.
Proof.
  intros [Hn Hroom]. unfold bucket_of. destruct (Q !! k) as [q|] eqn:HQ; cbn; [by apply (Hroom k)|].
  intros [_ <-]%lookup_gset_to_gmap_Some. cbn. lia.
Qed.

Lemma room_push n fs k g Q : room (Z.of_nat (length g) + n) Q → 0 ≤ n → room n (push_to fs k g Q).
Proof.
  intros Hroom Hn. split; [destruct Hroom; lia|]. intros k' q f its. unfold push_to. destruct (decide (k = k')) as [<-|Hne].
  - rewrite lookup_insert_eq. intros [= <-]. rewrite lookup_fmap. destruct (bucket_of fs k Q !! f) as [its'|] eqn:Hits; [|done].
    intros [= <-]. pose proof (bucket_of_room _ _ _ _ _ _ Hroom Hits). rewrite length_app. lia.
  - rewrite lookup_insert_ne by done. intros HQ Hq. destruct Hroom as [_ Hr]. specialize (Hr k' q f its HQ Hq). lia.
Qed.

(** *** All parts of a batch *)

Definition push_parts fs (fn : Key → Key) (gs : list Items) Q : gmap Key (gmap ForkName Items) :=
  foldl (λ Q g, push_to fs (fn (first_key g)) g Q) Q gs.

(** The items of a part go to the same bucket. *)
Definition one_bucket (fn : Key → Key) (g : Items) : Prop :=
  g ≠ [] ∧ Forall (λ it, fn (it_Key it) = fn (first_key g)) g.

Lemma parts_one_bucket fn items : Forall (one_bucket fn) (parts fn items).
Proof.
  induction items as [|it items IH]; [constructor|].
  assert (one_bucket fn [it]) as Hone by (split; [done|by repeat constructor]).
  destruct (parts_cons fn it items) as [->|(x & g & gs & Hp & Heq & ->)]; [by constructor|].
  rewrite Hp in IH. apply Forall_cons in IH as [[_ Hg] IH]. constructor; [|done]. split; [done|].
  constructor; [done|]. eapply Forall_impl; [exact Hg|]. intros y Hy. unfold first_key in *. cbn in *. congruence.
Qed.

Lemma one_bucket_filter fn g k :
  one_bucket fn g → filter (λ it, fn (it_Key it) = k) g = if decide (fn (first_key g) = k) then g else [].
Proof.
  intros [_ Hg]. rewrite Forall_forall in Hg. case_decide as Hk.
  - apply filter_all. intros it Hit. by rewrite Hg.
  - apply filter_none. intros it Hit. by rewrite Hg.
Qed.

Lemma queue_of_push_parts fs fn gs Q k f :
  uniform fs Q → f ∈ fs ++ [""] → Forall (one_bucket fn) gs →
  queue_of (push_parts fs fn gs Q) k f = queue_of Q k f ++ filter (λ it, fn (it_Key it) = k) (concat gs).
Proof.
  intros Hu Hf Hgs. revert Q Hu. induction Hgs as [|g gs Hg _ IH]; intros Q Hu; cbn [push_parts foldl concat].
  - by rewrite app_nil_r.
  - fold (push_parts fs fn gs (push_to fs (fn (first_key g)) g Q)). rewrite IH by by apply uniform_push.
    rewrite queue_of_push, filter_app, (one_bucket_filter fn g k), app_assoc by done. done.
Qed.

Lemma push_parts_dom fs fn gs Q k :
  is_Some (push_parts fs fn gs Q !! k) → is_Some (Q !! k) ∨ ∃ g, g ∈ gs ∧ k = fn (first_key g).
Proof.
  revert Q. induction gs as [|g gs IH]; intros Q; cbn [push_parts foldl]; [by left|].
  intros [Hk|(g' & Hg' & ->)]%IH; [|right; exists g'; split; [by right|done]].
  unfold push_to in Hk. destruct (decide (fn (first_key g) = k)) as [<-|Hne]; [right; exists g; split; [by left|done]|].
  rewrite lookup_insert_ne in Hk by done. by left.
Qed.
End spec.

Section push.
Context {T : Type → Type} `{BTreeLaws T} `{Host, Unix, !UnixLaws} `{MapRange, !MapRangeLaws} `{SortFunc, !SortFuncLaws}.
Implicit Types (bs : buckets T) (b : bucket T) (q : gmap ForkName Items) (Q : gmap Key (gmap ForkName Items)).

(** A call on an open bucket. *)
Lemma put_bucket_ok c d bs os os' Q k p b b' q' all' :
  queue_ok c bs os Q → cap_le c d → bt_get k (bs_tree bs) = Some (Some p) → bs_heap bs !! p = Some b →
  durable d b' os' q' all' → b_dir b' = b_dir b → b_key b' = b_key b → only_files (bucket_files (b_dir b)) os os' →
  dom_forks bs q' → queue_ok d (put_bucket p b' bs) os' (<[k := q']> Q).
Proof.
  intros Hok Hcd Hp Hb Hdu Hdir Hkey Hof Hdom.
  destruct (queue_ok_open _ _ _ _ _ _ Hok Hp) as (b0 & q & all & Hb0 & HQ & _ & Hdir0 & Hkey0 & _ & Hk).
  assert (b0 = b) as -> by congruence. rewrite Hdir0 in Hof.
  apply (queue_ok_update c d bs (put_bucket p b' bs) os os' Q _ k); try done.
  - intros k' Hne. split; [done|]. by rewrite lookup_insert_ne.
  - intros k' p' Hne Hp'. cbn. apply list_lookup_insert_ne. intros ->. apply Hne. by eapply (qo_apart _ _ _ _ Hok).
  - intros k' p' Hne Hp' Hp2. apply Hne. by eapply (qo_apart _ _ _ _ Hok).
  - rewrite lookup_insert_eq. change (bt_get k (bs_tree (put_bucket p b' bs))) with (bt_get k (bs_tree bs)). rewrite Hp.
    split; [|done]. exists b', all'. split; [|split; [done|split; [by rewrite Hdir|by rewrite Hkey]]].
    cbn. apply list_lookup_insert_eq. by eapply lookup_lt_Some.
Qed.

Lemma trailers_put bs Q k p b q' :
  trailers_ok bs Q → bt_get k (bs_tree bs) = Some (Some p) → trailers_ok (put_bucket p b bs) (<[k := q']> Q).
Proof.
  intros Htr Hp k' q f its Hn HQ Hf. change (bt_get k' (bs_tree bs) = Some None) in Hn.
  destruct (decide (k = k')) as [<-|Hne]; [congruence|]. rewrite lookup_insert_ne in HQ by done. by eapply Htr.
Qed.

Lemma queue_ok_uniform c bs os Q : queue_ok c bs os Q → uniform (bs_forks bs) Q.
Proof. intros Hok k q HQ. destruct (queue_ok_lookup _ _ _ _ _ _ Hok HQ) as (v & _ & _ & Hdom & _). exact Hdom. Qed.

Lemma cap_ok_le c d : cap_ok d → cap_le c d → 0 ≤ cap_weight c → 0 ≤ cap_bytes c → cap_ok c.
Proof. intros [[] []] [? ?] ? ?. split; lia. Qed.

Lemma storages_nonneg its : 0 ≤ storages its.
Proof. pose proof (storages_ge its). lia. Qed.

Lemma cap_push_le items c : cap_le c (cap_push items c).
Proof. pose proof (storages_nonneg items). split; cbn; lia. Qed.

Lemma push_bucket_ok c bs os Q (key : Key) items :
  queue_ok c bs os Q → cap_ok c → cap_ok (cap_push items c) → is_int64 key → os_faults os = [] →
  items ≠ [] → sorted_items items → Forall valid_item items → room (Z.of_nat (length items)) Q →
  ∃ bs' os', push_bucket key items bs os = (Ok tt, bs', os') ∧
    queue_ok (cap_push items c) bs' os' (push_to (bs_forks bs) key items Q) ∧ same_list bs bs' ∧ os_faults os' = [] ∧
    (trailers_ok bs Q → trailers_ok bs' (push_to (bs_forks bs) key items Q)).
Proof.
  intros Hok Hc Hc' Hkey Hno Hne Hs Hval Hroom.
  destruct (forKey_ok c bs os Q key Hok Hc Hkey Hno) as (p & bs1 & os1 & Hfor & Hok1 & Hp & Hsame & Hno1 & Htr).
  destruct (queue_ok_open _ _ _ _ _ _ Hok1 Hp) as (b & q & all & Hb & HQ & Hdu & Hdir & Hbk & Hdom & _).
  assert (bucket_of (bs_forks bs) key Q = q) as Hq.
  { unfold bucket_of. destruct (Q !! key) as [q0|] eqn:E.
    - rewrite (with_bucket_Some _ _ _ _ E) in HQ. by pose proof (eq_trans (eq_sym E) HQ) as [= ->].
    - rewrite (with_bucket_None _ _ _ E), lookup_insert_eq in HQ. by injection HQ as <-. }
  destruct (durable_push c b os1 q all items "" Hdu Hne Hs Hval Hno1 Hc') as (b' & os' & Hpush & Hno' & Hdu' & Hd' & Hk' & Hof).
  { intros f its Hits. rewrite <- Hq in Hits. pose proof (bucket_of_room _ _ _ _ _ _ Hroom Hits).
    rewrite length_app. lia. }
  assert (push_to (bs_forks bs) key items Q = <[key := (.++ items) <$> q]> (with_bucket (bs_forks bs) key Q)) as HQ'.
  { unfold push_to. rewrite Hq. destruct (Q !! key) as [q0|] eqn:E.
    - by rewrite (with_bucket_Some _ _ _ _ E).
    - by rewrite (with_bucket_None _ _ _ E), insert_insert_eq. }
  exists (put_bucket p b' bs1), os'. rewrite HQ'. split; [|split; [|split; [|split; [done|]]]].
  - unfold push_bucket, on_bucket, deref, unless_abort, attempt. run. rewrite Hfor. run. rewrite Hb. cbn [of_option].
    by rewrite Hpush.
  - apply (put_bucket_ok c _ bs1 os1 os' _ key p b b' _ (all ++ items)); try done; [apply cap_push_le|].
    intros f. rewrite lookup_fmap, fmap_is_Some. apply Hdom.
  - by transitivity bs1.
  - intros Ht. by apply trailers_put; [apply Htr|].
Qed.

Lemma cap_push_app its its' c : cap_push its' (cap_push its c) = cap_push (its ++ its') c.
Proof. unfold cap_push. cbn. rewrite length_app, storages_app. f_equal; lia. Qed.

(** The loop over the parts of a batch. *)
Lemma push_parts_ok fn gs c bs os Q :
  queue_ok c bs os Q → cap_ok c → cap_ok (cap_push (concat gs) c) → os_faults os = [] →
  Forall (λ g, g ≠ [] ∧ sorted_items g ∧ Forall valid_item g ∧ is_int64 (fn (first_key g))) gs →
  room (Z.of_nat (length (concat gs))) Q →
  ∃ bs' os', each (λ g, push_bucket (fn (first_key g)) g) gs bs os = (Ok tt, bs', os') ∧
    queue_ok (cap_push (concat gs) c) bs' os' (push_parts (bs_forks bs) fn gs Q) ∧ same_list bs bs' ∧
    os_faults os' = [] ∧ (trailers_ok bs Q → trailers_ok bs' (push_parts (bs_forks bs) fn gs Q)).
Proof.
  intros Hok Hc Hc' Hno Hgs. revert c bs os Q Hok Hc Hc' Hno.
  induction Hgs as [|g gs (Hne & Hs & Hval & Hkey) Hgs IH]; intros c bs os Q Hok Hc Hc' Hno Hroom; cbn [each concat push_parts foldl].
  - exists bs, os. split_and!; try done. destruct c. unfold cap_push. cbn. by rewrite !Z.add_0_r.
  - cbn [concat] in *. rewrite length_app, Nat2Z.inj_add in Hroom. rewrite <- cap_push_app in Hc' |- *.
    assert (cap_ok (cap_push g c)) as Hc1.
    { eapply cap_ok_le; [exact Hc'|apply cap_push_le|..]; destruct Hc as [[] []]; cbn; [lia|].
      pose proof (storages_nonneg g). lia. }
    assert (room (Z.of_nat (length g)) Q) as Hroom1.
    { destruct Hroom as [? Hr]. split; [lia|]. intros k q f its HQ Hq. specialize (Hr k q f its HQ Hq). lia. }
    destruct (push_bucket_ok c bs os Q (fn (first_key g)) g)
      as (bs1 & os1 & Heq & Hok1 & Hsame1 & Hno1 & Htr1); try done. run. rewrite Heq.
    rewrite <- (sl_forks _ _ Hsame1) in Hok1, Htr1 |- *.
    destruct (IH (cap_push g c) bs1 os1 _ Hok1 Hc1 Hc' Hno1) as (bs' & os' & Heq' & Hok' & Hsame' & Hno' & Htr').
    { apply room_push; [|lia]. done. }
    exists bs', os'. split; [done|]. split; [done|]. split; [by transitivity bs1|]. split; [done|]. auto.
Qed.

(** *** The whole operation *)

Lemma parts_sorted fn items :
  sorted_items items → Forall valid_item items → (∀ it, it ∈ items → is_int64 (fn (it_Key it))) →
  Forall (λ g, g ≠ [] ∧ sorted_items g ∧ Forall valid_item g ∧ is_int64 (fn (first_key g))) (parts fn items).
Proof.
  intros Hs Hval Hfn. pose proof (parts_one_bucket fn items) as Hone. rewrite Forall_forall in Hone |- *.
  intros g Hg. destruct (Hone g Hg) as [Hne _]. split; [done|].
  apply list_elem_of_split in Hg as (gs1 & gs2 & Hgs).
  assert (items = concat gs1 ++ g ++ concat gs2) as Heq.
  { by rewrite <- (parts_concat fn items), Hgs, concat_app. }
  rewrite Heq in Hs, Hval. unfold sorted_items in Hs. rewrite !fmap_app in Hs.
  apply StronglySorted_app in Hs as (_ & _ & Hs). apply StronglySorted_app in Hs as (_ & Hs & _).
  rewrite !Forall_app in Hval. split; [done|]. split; [tauto|].
  destruct g as [|it g]; [done|]. apply Hfn. rewrite Heq. set_solver.
Qed.

Lemma cmp_items_lt x y : is_int64 (it_Key x - it_Key y) → cmp_items x y < 0 ↔ it_Key x < it_Key y.
Proof. intros Hxy. unfold cmp_items. rewrite int64_id by done. lia. Qed.

Lemma sorted_parts_of fn items :
  SplitMono fn → sorted_items items → Forall valid_item items → split_sorted fn items.
Proof.
  intros Hfn Hs Hval. unfold sorted_items, split_sorted in *.
  induction Hval as [|it items [Hk _] Hval IH]; [constructor|]. cbn in *. apply StronglySorted_inv in Hs as [Hs Hle].
  constructor; [by apply IH|]. rewrite Forall_fmap in Hle |- *. rewrite Forall_forall in Hle, Hval |- *.
  intros y Hy. cbn. apply split_mono; [done|by apply Hval|by apply Hle].
Qed.

Lemma BsPush_ok fn c bs os Q items :
  queue_ok c bs os Q → cap_ok c → cap_ok (cap_push items c) → os_faults os = [] →
  split_func bs = Ok fn → SplitMono fn → Forall valid_item items → room (Z.of_nat (length items)) Q →
  (∀ x y, x ∈ items → y ∈ items → is_int64 (it_Key x - it_Key y)) →
  ∃ bs' os' Q', BsPush items bs os = (Ok tt, bs', os') ∧ queue_ok (cap_push items c) bs' os' Q' ∧
    same_list bs bs' ∧ os_faults os' = [] ∧ (trailers_ok bs Q → trailers_ok bs' Q') ∧
    (∀ k f, f ∈ bs_forks bs ++ [""] → queue_of Q' k f ≡ₚ queue_of Q k f ++ filter (λ it, fn (it_Key it) = k) items) ∧
    ∀ k, is_Some (Q' !! k) → is_Some (Q !! k) ∨ ∃ it, it ∈ items ∧ k = fn (it_Key it).
Proof.
  intros Hok Hc Hc' Hno Hfn Hsplit Hval Hroom Hcmp. unfold BsPush.
  assert (items = [] ∨ items ≠ []) as [->|Hne] by (destruct items; auto).
  { exists bs, os, Q. split_and!; try done; [|intros; by rewrite app_nil_r|by left].
    destruct c. unfold cap_push. cbn. by rewrite !Z.add_0_r. }
  pose proof (sort_func_perm cmp_items items) as Hperm. set (sorted := sort_func cmp_items items) in *.
  assert (sorted_items sorted) as Hs.
  { apply sort_func_sorted. intros x y Hx Hy. by apply cmp_items_lt, Hcmp. }
  assert (Forall valid_item sorted) as Hval' by by rewrite Hperm.
  assert (concat (parts fn sorted) = sorted) as Hcat by apply parts_concat.
  assert (cap_push (concat (parts fn sorted)) c = cap_push items c) as Hcap.
  { rewrite Hcat. unfold cap_push. by rewrite (storages_perm _ _ Hperm), (Permutation_length Hperm). }
  destruct (push_parts_ok fn (parts fn sorted) c bs os Q Hok Hc)
    as (bs' & os' & Heq & Hok' & Hsame & Hno' & Htr); [by rewrite Hcap|done| | |].
  { apply parts_sorted; [done..|]. intros it Hit. rewrite Forall_forall in Hval'.
    apply split_int64. by apply Hval'. }
  { by rewrite Hcat, Hperm. }
  rewrite Hcap in Hok'. exists bs', os', (push_parts (bs_forks bs) fn (parts fn sorted) Q).
  split; [|split; [done|split; [done|split; [done|split; [done|split]]]]].
  - destruct items; [done|]. rewrite (pushSorted_parts_holds bs os fn sorted Hfn); [done|]. by apply sorted_parts_of.
  - intros k f Hf. rewrite queue_of_push_parts; [|by eapply queue_ok_uniform|done|apply parts_one_bucket].
    rewrite Hcat. by rewrite Hperm.
  - intros k [?|(g & Hg & ->)]%push_parts_dom; [by left|right].
    pose proof (parts_one_bucket fn sorted) as Hone. rewrite Forall_forall in Hone. destruct (Hone g Hg) as [Hng _].
    destruct g as [|it g]; [done|]. exists it. split; [|done]. rewrite <- Hperm, <- Hcat. apply elem_of_concat.
    exists (it :: g). split; [by left|done].
Qed.

End push.

(** *** Witness *)

#[local] Existing Instance Host_tiny.

Lemma ex_list_ok : queue_ok ex_cap ex_list (mkOS {[ ["q"] := NDir ]} []) ∅.
Proof.
  apply queue_ok_fresh; [intros k; apply bt_get_empty|apply NoDup_singleton| |].
  - intros p Hp. cbn. apply lookup_singleton_ne. intros <-. apply Hp. by exists [].
  - intros d [e He] Hne. cbn in He. destruct d as [|c [|? ?]]; simplify_eq/=. apply lookup_singleton_eq.
Qed.

Lemma ex_split_ok : SplitFunc ex_split.
Proof. destruct (FixedSize_split 4 ltac:(lia)) as (f & name & [= <- _] & Hf & _). exact Hf. Qed.

