(* ===== verification/BucketsSpec.v ===== *)
(** * The specification of a queue

    Lemmas on the map from keys to buckets of consumers to items that specifies a
    queue: what is in the buckets together, in which order the buckets come, and
    what pushing to them and reading from them does to their contents. *)

From S2P Require Import Prelude BTree Os Item Vlog Index IndexFile Options Bucket BucketPeek BucketPop BucketQueue.
From S2P Require Import BucketCycle Names Buckets BucketsSplit BucketsPush.

Section spec.
Implicit Types (q : gmap ForkName Items) (Q : gmap Key (gmap ForkName Items)).

(** ** Reading from several queues, one after the other *)

Lemma smallest_perm n its its' out rest rest' :
  its ≡ₚ its' → rest ≡ₚ rest' → smallest n its out rest → smallest n its' out rest'.
Proof.
  intros Hi Hr [Hp Hs Hle Hl]. split; [by rewrite <- Hi, <- Hr|done| |by rewrite <- Hi].
  intros x y Hx Hy. apply Hle; [done|by rewrite Hr].
Qed.

Lemma smallest_stop n its1 its2 out rest :
  smallest n its1 out rest → n ≤ Z.of_nat (length out) → all_le its1 its2 → smallest n (its1 ++ its2) out (rest ++ its2).
Proof.
  intros [Hp Hs Hle Hl] Hn Hb. split; [by rewrite Hp, app_assoc|done| |rewrite length_app; lia].
  intros x y Hx Hy. apply elem_of_app in Hy as [Hy|Hy]; [by apply Hle|]. apply Hb; [|done]. rewrite Hp. set_solver.
Qed.

Lemma smallest_next n its1 its2 out1 rest1 out2 rest2 :
  smallest n its1 out1 rest1 → Z.of_nat (length out1) < n → all_le its1 its2 →
  smallest (n - Z.of_nat (length out1)) its2 out2 rest2 →
  smallest n (its1 ++ its2) (out1 ++ out2) (rest1 ++ rest2).
Proof.
  intros [Hp1 Hs1 Hle1 Hl1] Hn Hb [Hp2 Hs2 Hle2 Hl2]. pose proof (Permutation_length Hp1) as Hl. rewrite length_app in Hl.
  assert (rest1 = []) as -> by (apply length_zero_iff_nil; lia). rewrite app_nil_r in *. split.
  - by rewrite Hp1, Hp2, app_assoc.
  - unfold sorted_items in *. rewrite fmap_app. apply StronglySorted_app_2; [|done..].
    intros k k' (x & -> & Hx)%list_elem_of_fmap (y & -> & Hy)%list_elem_of_fmap. apply Hb; [by rewrite Hp1|rewrite Hp2; set_solver].
  - intros x y Hx Hy. apply elem_of_app in Hx as [Hx|Hx]; [|by apply Hle2].
    apply Hb; [by rewrite Hp1|rewrite Hp2; set_solver].
  - rewrite !length_app. lia.
Qed.

(** The items of a consumer in the buckets [ks]. *)
Definition items_in (ks : list Key) (f : ForkName) Q : Items := concat ((λ k, queue_of Q k f) <$> ks).

(** Every item is in the bucket that the split function gives for it. *)
Definition in_split (fn : Key → Key) Q : Prop :=
  ∀ k f it, it ∈ queue_of Q k f → is_int64 (it_Key it) ∧ fn (it_Key it) = k.

(** Every bucket is under a key of its own. *)
Definition aligned (fn : Key → Key) Q : Prop := ∀ k, is_Some (Q !! k) → fn k = k.

Lemma in_split_below fn Q k ks f :
  SplitFunc fn → in_split fn Q → Forall (Z.lt k) ks → all_le (queue_of Q k f) (items_in ks f Q).
Proof.
  intros Hsplit Hin Hks x y Hx Hy. apply elem_of_concat in Hy as (its & Hy & (k' & -> & Hk')%list_elem_of_fmap).
  destruct (Hin _ _ _ Hx) as [Hx64 Hxk], (Hin _ _ _ Hy) as [Hy64 Hyk]. rewrite Forall_forall in Hks.
  specialize (Hks k' Hk'). destruct (Z.le_gt_cases (it_Key x) (it_Key y)) as [?|Hlt]; [done|].
  pose proof (split_mono (it_Key y) (it_Key x) Hy64 Hx64). lia.
Qed.

(** ** Leaving a bucket *)

(** The specification after the consumers of the bucket [k] are left with [q]. *)
Definition left_in (k : Key) q Q : gmap Key (gmap ForkName Items) :=
  if decide (∀ g its, q !! g = Some its → its = []) then delete k Q else <[k := q]> Q.

Lemma left_other k q Q k' : k' ≠ k → left_in k q Q !! k' = Q !! k'.
Proof. intros Hne. unfold left_in. case_decide; [by rewrite lookup_delete_ne|by rewrite lookup_insert_ne]. Qed.

Lemma queue_of_left k q Q k' g :
  queue_of (left_in k q Q) k' g = if decide (k' = k) then default [] (q !! g) else queue_of Q k' g.
Proof.
  unfold queue_of. destruct (decide (k' = k)) as [->|Hne]; [|by rewrite left_other].
  unfold left_in. case_decide as Hall; [|by rewrite lookup_insert_eq]. rewrite lookup_delete_eq. cbn.
  destruct (q !! g) as [its|] eqn:Hg; [|done]. symmetry. by apply (Hall g).
Qed.

Lemma items_in_left k q Q (ks : list Key) f : k ∉ ks → items_in ks f (left_in k q Q) = items_in ks f Q.
Proof.
  intros Hk. unfold items_in. f_equal. apply list_fmap_ext. intros i k' Hk'. unfold queue_of.
  rewrite left_other; [done|]. intros ->. apply Hk. by eapply list_elem_of_lookup_2.
Qed.

(** Every bucket has items of some consumer. *)
Definition lively Q : Prop := ∀ k, is_Some (Q !! k) → ∃ f, queue_of Q k f ≠ [].

Lemma lively_left k q Q : lively Q → lively (left_in k q Q).
Proof.
  intros Hl k'. destruct (decide (k' = k)) as [->|Hne].
  - unfold left_in. case_decide as Hall; [rewrite lookup_delete_eq; by intros []|]. intros _.
    destruct (decide (map_Forall (λ (_ : ForkName) (its : Items), its = []) q)) as [Hq|Hq]; [by destruct Hall|].
    apply map_not_Forall in Hq as (f & its & Hf & Hne); [|intros ? ?; apply _]. exists f. unfold queue_of. rewrite lookup_insert_eq. cbn. by rewrite Hf.
  - rewrite left_other by done. intros Hk'. destruct (Hl k' Hk') as [f Hf]. exists f. unfold queue_of. by rewrite left_other.
Qed.

(** ** The whole queue *)

(** Everything a consumer has not read yet. *)
Definition contents (f : ForkName) Q : Items := items_in (elements (dom Q)) f Q.

Lemma queue_of_None Q k f : Q !! k = None → queue_of Q k f = [].
Proof. unfold queue_of. by intros ->. Qed.

#[global] Instance items_in_perm : Proper ((≡ₚ) ==> (=) ==> (=) ==> (≡ₚ)) items_in.
Proof. intros ks ks' Hks ? ? -> ? ? ->. unfold items_in. by rewrite Hks. Qed.

Lemma items_in_none (ks : list Key) f Q : (∀ k, k ∈ ks → Q !! k = None) → items_in ks f Q = [].
Proof.
  intros Hks. induction ks as [|k ks IH]; [done|].
  change (items_in (k :: ks) f Q) with (queue_of Q k f ++ items_in ks f Q).
  rewrite queue_of_None by (apply Hks; by left). apply IH. intros k' Hk'. apply Hks. by right.
Qed.

Lemma concat_length (ls : list Items) (l : Items) : l ∈ ls → (length l ≤ length (concat ls))%nat.
Proof.
  induction ls as [|l' ls IH]; [by intros ?%elem_of_nil|]. cbn. rewrite length_app.
  intros [->|Hin]%elem_of_cons; [lia|]. specialize (IH Hin). lia.
Qed.

Lemma queue_of_length Q k f : is_Some (Q !! k) → (length (queue_of Q k f) ≤ length (contents f Q))%nat.
Proof.
  intros Hk. apply concat_length, list_elem_of_fmap. exists k. split; [done|]. by apply elem_of_elements, elem_of_dom.
Qed.

Lemma queue_of_contents Q k f it : it ∈ queue_of Q k f → it ∈ contents f Q.
Proof.
  intros Hit. unfold contents, items_in. apply elem_of_concat. exists (queue_of Q k f). split; [done|].
  apply list_elem_of_fmap. exists k. split; [done|]. apply elem_of_elements, elem_of_dom.
  unfold queue_of in Hit. destruct (Q !! k); [by eexists|by apply elem_of_nil in Hit].
Qed.

(** The keys of the specification, and others without items. *)
Lemma contents_keys (ks : list Key) f Q :
  NoDup ks → (∀ k, is_Some (Q !! k) → k ∈ ks) → items_in ks f Q ≡ₚ contents f Q.
Proof.
  intros Hnd Hdom. unfold contents.
  assert (ks ≡ₚ elements (dom Q) ++ filter (λ k, k ∉ dom Q) ks) as ->.
  { apply NoDup_Permutation; [done| |].
    - apply NoDup_app. split; [apply NoDup_elements|]. split; [|by apply NoDup_filter].
      intros k Hk%elem_of_elements Hk'%list_elem_of_filter. tauto.
    - intros k. rewrite elem_of_app, elem_of_elements, list_elem_of_filter. destruct (decide (k ∈ dom Q)) as [Hk|Hk].
      + split; [by left|]. intros _. by apply Hdom, elem_of_dom.
      + tauto. }
  unfold items_in at 1. rewrite fmap_app, concat_app.
  assert (items_in (filter (λ k, k ∉ dom Q) ks) f Q = []) as Hnil.
  { apply items_in_none. intros k [Hk _]%list_elem_of_filter. by apply not_elem_of_dom. }
  unfold items_in in Hnil. by rewrite Hnil, app_nil_r.
Qed.

(** The contents are those of the buckets. *)
Lemma contents_same f Q Q' : (∀ k, queue_of Q' k f = queue_of Q k f) → contents f Q' ≡ₚ contents f Q.
Proof.
  intros Hsame. set (ks := elements (dom Q ∪ dom Q')).
  rewrite <- (contents_keys ks f Q), <- (contents_keys ks f Q'); try apply NoDup_elements.
  - unfold items_in. rewrite (list_fmap_ext _ (λ k, queue_of Q k f)); [done|]. intros i k _. apply Hsame.
  - intros k ?%elem_of_dom. apply elem_of_elements. set_solver.
  - intros k ?%elem_of_dom. apply elem_of_elements. set_solver.
Qed.

(** ** What a push adds *)

Lemma split_parts (fn : Key → Key) (ks : list Key) (items : Items) :
  NoDup ks → (∀ it, it ∈ items → fn (it_Key it) ∈ ks) →
  concat ((λ k, filter (λ it, fn (it_Key it) = k) items) <$> ks) ≡ₚ items.
Proof.
  intros Hnd. revert items. induction Hnd as [|k ks Hk Hnd IH]; intros items Hin; cbn.
  - destruct items as [|it items]; [done|]. by specialize (Hin it (list_elem_of_here _ _)) as ?%elem_of_nil.
  - etrans; [|apply (filter_app_complement (λ it, fn (it_Key it) = k))]. apply Permutation_app_head.
    assert ((λ k, filter (λ it, fn (it_Key it) = k) items) <$> ks =
      (λ k', filter (λ it, fn (it_Key it) = k') (filter (λ it, ¬ fn (it_Key it) = k) items)) <$> ks) as ->.
    { apply list_fmap_ext. intros i k' Hk'. rewrite list_filter_filter_l; [done|]. intros it -> ->.
      apply Hk. by eapply list_elem_of_lookup_2. }
    apply IH. intros it [Hne Hit]%list_elem_of_filter. specialize (Hin it Hit). by apply elem_of_cons in Hin as [].
Qed.

Lemma items_in_app_perm (g h : Key → Items) (ks : list Key) :
  concat ((λ k, g k ++ h k) <$> ks) ≡ₚ concat (g <$> ks) ++ concat (h <$> ks).
Proof. induction ks as [|k ks IH]; cbn; [done|]. rewrite IH. by rewrite <- !app_assoc, (Permutation_app_swap_app (h k)). Qed.

Lemma concat_perm (g h : Key → Items) (ks : list Key) :
  (∀ k, g k ≡ₚ h k) → concat (g <$> ks) ≡ₚ concat (h <$> ks).
Proof. intros Hgh. induction ks as [|k ks IH]; cbn; [done|]. by rewrite Hgh, IH. Qed.

Lemma contents_push (fn : Key → Key) f (items : Items) Q Q' :
  (∀ k, queue_of Q' k f ≡ₚ queue_of Q k f ++ filter (λ it, fn (it_Key it) = k) items) →
  contents f Q' ≡ₚ contents f Q ++ items.
Proof.
  intros Hpush. set (K := dom Q ∪ dom Q' ∪ list_to_set ((λ it, fn (it_Key it)) <$> items)).
  assert (NoDup (elements K)) as Hnd by apply NoDup_elements.
  rewrite <- (contents_keys (elements K) f Q'), <- (contents_keys (elements K) f Q); try done.
  - unfold items_in. rewrite (concat_perm _ _ _ Hpush), items_in_app_perm. apply Permutation_app_head.
    apply split_parts; [done|]. intros it Hit. unfold K. set_solver.
  - intros k Hk. unfold K. apply elem_of_elements. apply elem_of_dom in Hk. set_solver.
  - intros k Hk. unfold K. apply elem_of_elements. apply elem_of_dom in Hk. set_solver.
Qed.

(** ** Looking at the buckets one after the other *)

Lemma smallest_fewer m n its out rest :
  smallest n its out rest → 0 ≤ m ≤ n →
  smallest m its (take (Z.to_nat m) out) (drop (Z.to_nat m) out ++ rest).
Proof.
  intros [Hp Hs Hle Hl] Hm. split.
  - by rewrite app_assoc, take_drop.
  - unfold sorted_items in *. rewrite <- (take_drop (Z.to_nat m) out), fmap_app in Hs. by apply StronglySorted_app in Hs as (_ & Hs & _).
  - intros x y Hx Hy. apply elem_of_app in Hy as [Hy|Hy].
    + unfold sorted_items in Hs. rewrite <- (take_drop (Z.to_nat m) out), fmap_app in Hs.
      apply StronglySorted_app in Hs as (Hs & _ & _). apply Hs; by apply list_elem_of_fmap_2.
    + apply Hle; [|done]. rewrite <- (take_drop (Z.to_nat m) out). set_solver.
  - rewrite length_take. lia.
Qed.

(** The items that were handed out, [n] of every bucket, begin with the [n]
    smallest of all. *)
Lemma peek_first fn Q f n (ks : list Key) outs :
  SplitFunc fn → in_split fn Q → StronglySorted Z.lt ks →
  Forall2 (λ k out, ∃ rest, smallest n (queue_of Q k f) out rest) ks outs →
  ∀ m, 0 ≤ m ≤ n → ∃ rest, smallest m (items_in ks f Q) (take (Z.to_nat m) (concat outs)) rest.
Proof.
  intros Hsplit Hin Hsorted Hout. induction Hout as [|k out ks outs (rest & Hsm) _ IH]; intros m Hm.
  - exists []. cbn [concat]. rewrite take_nil. split; [done|constructor|by intros ? ? ?%elem_of_nil|cbn; lia].
  - apply StronglySorted_inv in Hsorted as [Hsorted Hks]. pose proof (in_split_below fn Q k ks f Hsplit Hin Hks) as Hle.
    change (items_in (k :: ks) f Q) with (queue_of Q k f ++ items_in ks f Q). cbn [concat].
    pose proof (smallest_fewer m n _ _ _ Hsm Hm) as Hsm'.
    destruct (decide (Z.of_nat (length out) < m)) as [Hlt|Hge].
    + rewrite (take_ge out) in Hsm' by lia. rewrite (drop_ge out) in Hsm' by lia.
      destruct (IH Hsorted (m - Z.of_nat (length out))) as [rest' Hrest]; [lia|].
      exists (([] ++ rest) ++ rest'). rewrite take_app, (take_ge out) by lia.
      replace (Z.to_nat m - length out)%nat with (Z.to_nat (m - Z.of_nat (length out))) by lia.
      apply smallest_next; [done|lia|done..].
    + exists ((drop (Z.to_nat m) out ++ rest) ++ items_in ks f Q). rewrite take_app_le by lia.
      apply smallest_stop; [done|rewrite length_take; lia|done].
Qed.
End spec.
