(* ===== verification/BucketsRead.v ===== *)
(** * Reading from a queue

    [Read] on the list of buckets opens one bucket after the other, removes those
    that nobody has items in, and in the end has handed out the smallest items of
    the whole queue. *)

From S2P Require Import Prelude BTree Os Item Vlog Index IndexFile Options Bucket BucketPeek BucketPop BucketQueue.
From S2P Require Import BucketForks BucketOpen BucketCycle Names Buckets BucketsSplit BucketsClose BucketsQueue BucketsPush.
From S2P Require Import BucketsSpec.

Section remove.
Context {T : Type → Type} `{BTreeLaws T} `{Host, Unix, !UnixLaws} `{MapRange, !MapRangeLaws}.
Implicit Types (bs : buckets T) (b : bucket T) (q : gmap ForkName Items) (Q : gmap Key (gmap ForkName Items)).

(** ** Removing a bucket *)

(** Closing a bucket does not change its indexes in memory. *)
Definition same_mem b b' : Prop := ∀ f, bi_Mem <$> b_indexes b' !! f = bi_Mem <$> b_indexes b !! f.

#[local] Instance same_mem_preorder : PreOrder same_mem.
Proof. split; [done|]. intros x y z H1' H2' f. by rewrite H2', H1'. Qed.

Lemma keeps_mem_BClose : keeps same_mem (BClose (T := T)).
Proof.
  unfold BClose, or_fail. apply keeps_bind; [apply _|apply keeps_attempt, keeps_zoom; done|intros r].
  apply keeps_bind; [apply _|keeps|intros b]. apply keeps_bind; [apply _| |intros e; keeps].
  apply keeps_each_joined; [apply _|]. intros name b1 os. unfold on_index, idxForFork. run.
  destruct (b_indexes b1 !! name) as [idx|] eqn:E; [|done]. destruct (WClose (bi_Log idx) os) as [[r' w'] os'].
  intros f. cbn. destruct (decide (name = f)) as [<-|Hne]; [by rewrite lookup_insert_eq, E|by rewrite lookup_insert_ne].
Qed.

Lemma BLen_same_mem b b' f : same_mem b b' → BLen b' f = BLen b f.
Proof.
  intros Hm. specialize (Hm f). unfold BLen, idxForFork.
  destruct (b_indexes b' !! f) as [i'|], (b_indexes b !! f) as [i|]; cbn in *; simplify_eq; [|done]. cbn. congruence.
Qed.

(** The list of buckets without the bucket [k], which was closed before: if it was
    open, then [p] is its place in the heap and [b'] what is left there. *)
Definition dropped (k : Key) (closed : option (nat * bucket T)) bs : buckets T :=
  let bs1 := set_trailers (filter (λ kv, kv.1.1 ≠ k) (bs_trailers bs)) bs in
  let bs2 := match closed with Some (p, b') => put_bucket p b' bs1 | None => bs1 end in
  set_tree (bt_delete k (bs_tree bs)) bs2.

Lemma dropped_tree k closed bs k' :
  bt_get k' (bs_tree (dropped k closed bs)) = if decide (k = k') then None else bt_get k' (bs_tree bs).
Proof. unfold dropped. cbn. apply bt_get_delete. Qed.

Lemma dropped_list k closed bs : same_list bs (dropped k closed bs).
Proof. by destruct closed as [[]|]. Qed.

Lemma dropped_trailers k closed bs (k' : Key) f :
  k' ≠ k → bs_trailers (dropped k closed bs) !! (k', f) = bs_trailers bs !! (k', f).
Proof.
  intros Hne. assert (bs_trailers (dropped k closed bs) = filter (λ kv, kv.1.1 ≠ k) (bs_trailers bs)) as -> by (by destruct closed as [[]|]).
  destruct (bs_trailers bs !! (k', f)) as [t|] eqn:Ht.
  - by apply map_lookup_filter_Some.
  - apply map_lookup_filter_None. by left.
Qed.

(** Removing a bucket, open or closed, whatever is left of its files. *)
Lemma bs_delete_files bs os (k : Key) v :
  bt_get k (bs_tree bs) = Some v →
  (∀ p, v = Some p → ∃ b, bs_heap bs !! p = Some b ∧ b_dir b = buckPath bs k ∧ closable b) →
  clean os (buckPath bs k) (λ f, f ∈ "" :: bs_forks bs) → os_faults os = [] →
  ∃ closed os', bs_delete k bs os = (Ok tt, dropped k closed bs, os') ∧ vacant bs os' k ∧
    only_files (bucket_files (buckPath bs k)) os os' ∧ os_faults os' = [] ∧
    match v, closed with
    | Some p, Some (p', b') => p' = p ∧ ∃ b, bs_heap bs !! p = Some b ∧ same_mem b b'
    | None, None => True
    | _, _ => False
    end.
Proof.
  intros Hv Hb Hclean Hno. set (bs1 := set_trailers (filter (λ kv, kv.1.1 ≠ k) (bs_trailers bs)) bs).
  destruct v as [p|].
  - destruct (Hb p eq_refl) as (b & Hbp & Hdir & Hopen). destruct (BClose_open b os Hopen Hno) as (b' & Hclose).
    assert (same_mem b b') as Hmem by (pose proof (keeps_mem_BClose b os) as Hm; by rewrite Hclose in Hm).
    destruct (removeBucketDir_spec (dropped k (Some (p, b')) bs) (buckPath bs k) (bs_forks bs) os)
      as (os' & Hrm & Hd' & Hnone' & Hof & Hno'); [done..|].
    exists (Some (p, b')), os'. split; [|split_and!; try done; by exists b].
    unfold bs_delete, on_bucket, deref, attempt. run. rewrite Hv. run. fold bs1.
    change (bs_heap bs1) with (bs_heap bs). rewrite Hbp. cbn [of_option]. run. rewrite Hclose. cbn [err_of].
    change (set_tree _ (put_bucket p b' bs1)) with (dropped k (Some (p, b')) bs). rewrite Hdir, Hrm. done.
  - destruct (removeBucketDir_spec (dropped k None bs) (buckPath bs k) (bs_forks bs) os)
      as (os' & Hrm & Hd' & Hnone' & Hof & Hno'); [done..|].
    exists None, os'. split; [|by split_and!]. unfold bs_delete, attempt. run. rewrite Hv. run. fold bs1.
    change (set_tree _ bs1) with (dropped k None bs). by rewrite Hrm.
Qed.

(** Removing a bucket whose files are those of the queue's consumers. *)
Lemma bs_delete_at c bs os (k : Key) v q :
  bt_get k (bs_tree bs) = Some v → bucket_at c bs os k v q → (∀ f, is_Some (q !! f) → f ∈ "" :: bs_forks bs) →
  os_faults os = [] →
  ∃ closed os', bs_delete k bs os = (Ok tt, dropped k closed bs, os') ∧ vacant bs os' k ∧
    only_files (bucket_files (buckPath bs k)) os os' ∧ os_faults os' = [] ∧
    match v, closed with
    | Some p, Some (p', b') => p' = p ∧ ∃ b, bs_heap bs !! p = Some b ∧ same_mem b b'
    | None, None => True
    | _, _ => False
    end.
Proof.
  intros Hv Hat Hdom Hno. apply bs_delete_files; [done| | |done].
  - intros p ->. destruct Hat as (b & all & Hb & [Hbok _ _ _ _ _ _] & Hdir & _). exists b. split_and!; try done.
    by eapply bucket_ok_closable.
  - eapply clean_mono; [exact Hdom|]. destruct v as [p|]; [|by destruct Hat as [[]]].
    destruct Hat as (b & all & Hb & [] & <- & _). done.
Qed.

(** Removing a bucket of a queue. *)
Lemma bs_delete_ok c bs os Q (k : Key) :
  queue_ok c bs os Q → is_Some (Q !! k) → os_faults os = [] →
  ∃ bs' os', bs_delete k bs os = (Ok tt, bs', os') ∧ queue_ok c bs' os' (delete k Q) ∧ same_list bs bs' ∧
    os_faults os' = [] ∧ (trailers_ok bs Q → trailers_ok bs' (delete k Q)) ∧
    ∀ p b, bt_get k (bs_tree bs) = Some (Some p) → bs_heap bs !! p = Some b →
      ∃ b', bs_heap bs' !! p = Some b' ∧ same_mem b b'.
Proof.
  intros Hok [q HQ] Hno. destruct (queue_ok_lookup _ _ _ _ _ _ Hok HQ) as (v & Hv & Hat & Hdom & Hk).
  destruct (bs_delete_at c bs os k v q Hv Hat) as (closed & os' & Heq & Hvac & Hof & Hno' & Hclosed); [|done|].
  { intros f Hf. apply Hdom in Hf. set_solver. }
  pose proof (dropped_list k closed bs) as Hsame. exists (dropped k closed bs), os'. split; [done|]. split; [|split; [done|split; [done|split]]].
  - apply (queue_ok_update c c bs _ os os' Q _ k); try done.
    + intros k' Hne. rewrite dropped_tree, decide_False by done. split; [done|by rewrite lookup_delete_ne].
    + intros k' p' Hne Hp'. destruct v as [p|], closed as [[p0 b']|]; try done. destruct Hclosed as [-> _].
      cbn. apply list_lookup_insert_ne. intros ->. apply Hne. by eapply (qo_apart _ _ _ _ Hok).
    + intros k' p' _ _. by rewrite dropped_tree, decide_True.
    + rewrite dropped_tree, decide_True, lookup_delete_eq by done. unfold key_ok, vacant in *.
      by rewrite (buckPath_same bs).
  - intros Htr k' q' f its Hn HQ' Hf. rewrite dropped_tree in Hn. case_decide as Hk'; [done|].
    rewrite lookup_delete_ne in HQ' by done. rewrite dropped_trailers by done. by eapply Htr.
  - intros p b Hp Hb. assert (v = Some p) as -> by congruence. destruct closed as [[p' b']|]; [|done].
    destruct Hclosed as (-> & b0 & Hb0 & Hmem). assert (b0 = b) as -> by congruence. exists b'. split; [|done].
    cbn. apply list_lookup_insert_eq. by eapply lookup_lt_Some.
Qed.

(** Storing a bucket where it is changes nothing. *)
Lemma put_bucket_id p b bs : bs_heap bs !! p = Some b → put_bucket p b bs = bs.
Proof. intros Hb. unfold put_bucket, set_heap. rewrite list_insert_id by done. by destruct bs. Qed.

(** ** One bucket *)

Lemma cap_read_le its c : cap_le c (cap_read its c).
Proof. split; cbn; lia. Qed.

Lemma queue_ok_size c bs os Q k q f its :
  queue_ok c bs os Q → bt_get k (bs_tree bs) ≠ Some None → Q !! k = Some q → q !! f = Some its →
  Z.of_nat (length its) < 2 ^ 32.
Proof.
  intros Hok Hv HQ Hq. destruct (queue_ok_lookup _ _ _ _ _ _ Hok HQ) as ([p|] & Hp & Hat & _); [|done].
  destruct Hat as (b & all & _ & [Hbok _ _ _ _ _ _] & _).
  destruct (bucket_ok_lookup _ _ _ _ _ Hbok Hq) as (idx & _ & []). done.
Qed.
End remove.

(** A callback of [Read] that leaves the queue alone and answers [op]; it collects
    what it is given by [add]. *)
Definition collects {T A} (fn : Items → M (buckets T * A) ReadOp) (op : ReadOp) (add : Items → A → A) : Prop :=
  ∀ items bs acc os, fn items (bs, acc) os = (Ok op, (bs, add items acc), os).

(** What a bucket leaves of the count [n]. *)
Definition count_left (op : ReadOp) (n : Z) (out : Items) : Z :=
  match op with ReadOpPeek => n | ReadOpPop => n - Z.of_nat (length out) end.

Section read.
Context {T : Type → Type} `{BTreeLaws T} `{Host, Unix, !UnixLaws} `{MapRange, !MapRangeLaws}.
Context {A : Type} (fn : Items → M (buckets T * A) ReadOp) (op : ReadOp) (add : Items → A → A).
Context (Hcollects : collects fn op add).
Implicit Types (bs : buckets T) (b : bucket T) (q : gmap ForkName Items) (Q : gmap Key (gmap ForkName Items)) (acc : A).

Lemma BLen_count b b' os os' q f its n out rest :
  bucket_ok b os q → bucket_ok b' os' (after_read op f rest q) → q !! f = Some its → smallest n its out rest →
  Z.of_nat (length its) < 2 ^ 32 → 0 < n → is_int64 n →
  int64 (n - int64 (BLen b f - BLen b' f)) = count_left op n out.
Proof.
  intros Hok Hok' Hq [Hperm _ _ Hl] Hlen Hn Hn64. apply Permutation_length in Hperm. rewrite length_app in Hperm.
  rewrite (BLen_queue b os q f Hok), (BLen_queue b' os' _ f Hok'), Hq. unfold after_read, count_left, is_int64 in *. destruct op.
  - rewrite Hq. cbn [default from_option id]. rewrite Z.sub_diag. change (int64 0) with 0. rewrite Z.sub_0_r. by apply int64_id.
  - rewrite lookup_insert_eq. cbn [default from_option id].
    replace (Z.of_nat (length its) - Z.of_nat (length rest)) with (Z.of_nat (length out)) by lia.
    rewrite (int64_id (Z.of_nat (length out))) by (unfold is_int64; lia). apply int64_id. unfold is_int64. lia.
Qed.

Lemma read_bucket_ok c bs os Q (k : Key) p q its acc f n :
  queue_ok c bs os Q → bt_get k (bs_tree bs) = Some (Some p) → Q !! k = Some q → q !! f = Some its →
  0 < n → is_int64 n → os_faults os = [] → cap_ok (cap_read its c) →
  ∃ out rest bs' os', read_bucket fst set_fst f fn k p ((bs, acc), n) os =
      (Ok (negb (count_left op n out <=? 0)), ((bs', add out acc), count_left op n out), os') ∧
    smallest n its out rest ∧ queue_ok (cap_read its c) bs' os' (left_in k (after_read op f rest q) Q) ∧ same_list bs bs' ∧
    os_faults os' = [] ∧ (trailers_ok bs Q → trailers_ok bs' (left_in k (after_read op f rest q) Q)).
Proof.
  intros Hok Hp HQ Hq Hn Hn64 Hno Hc.
  assert (Z.of_nat (length its) < 2 ^ 32) as Hlen by (eapply queue_ok_size; [done|by rewrite Hp|done..]).
  destruct (queue_ok_open _ _ _ _ _ _ Hok Hp) as (b & q0 & all & Hb & HQ0 & Hdu & Hdir & Hbk & Hdom & Hk).
  assert (q0 = q) as -> by (pose proof (eq_trans (eq_sym HQ0) HQ) as Heq; by injection Heq).
  pose proof (du_ok _ _ _ _ _ Hdu) as Hbok.
  set (view := λ st : buckets T * A, default b (bs_heap st.1 !! p)).
  set (upd := λ b (st : buckets T * A), set_fst (put_bucket p b st.1) st).
  destruct (durable_read view upd (bs, acc) c os b q all f its n op fn (λ items, (bs, add items acc)))
    as (out & rest & b' & s' & os1 & Hread & Hs' & Hsm & Hno1 & Hdu1 & Hd1 & Hk1 & Hof1); try done.
  { unfold view. cbn. by rewrite Hb. }
  { intros items. split; [apply Hcollects|]. unfold view. cbn. by rewrite Hb. }
  assert (s' = (put_bucket p b' bs, add out acc)) as ->.
  { destruct Hs' as [->|[-> ->]]; [done|]. by rewrite put_bucket_id. }
  set (q' := after_read op f rest q) in *. set (bs1 := put_bucket p b' bs) in *.
  assert (dom_forks bs q') as Hdom1.
  { intros g. transitivity (is_Some (q !! g)); [apply Hdom|]. unfold q', after_read. destruct op; [done|].
    destruct (decide (f = g)) as [<-|Hne]; [|by rewrite lookup_insert_ne].
    rewrite lookup_insert_eq, Hq. split; intros _; by eexists. }
  assert (queue_ok (cap_read its c) bs1 os1 (<[k := q']> Q)) as Hok1
    by (apply (put_bucket_ok c _ bs os os1 Q k p b b' q' all); [done|apply cap_read_le|done..]).
  assert (bs_heap bs1 !! p = Some b') as Hb1 by (apply list_lookup_insert_eq; by eapply lookup_lt_Some).
  assert (bt_get k (bs_tree bs1) = Some (Some p)) as Hp1 by done.
  pose proof (du_ok _ _ _ _ _ Hdu1) as Hbok1.
  pose proof (BLen_count b b' os os1 q f its n out rest Hbok Hbok1 Hq Hsm Hlen Hn Hn64) as Hcount.
  assert (trailers_ok bs Q → trailers_ok bs1 (<[k := q']> Q)) as Htr1 by (intros; by apply trailers_put).
  exists out, rest. unfold read_bucket, attempt. run. cbn [fst snd]. rewrite Hb. cbn [of_option].
  fold view. fold upd. rewrite Hread. unfold set_fst. cbn [fst snd].
  rewrite Hb1. cbn [of_option]. unfold left_in. fold q'.
  destruct (AllEmpty b') eqn:Hemp.
  - pose proof (proj1 (AllEmpty_queue b' os1 q' Hbok1) Hemp) as Hnil. rewrite decide_True by done.
    destruct (bs_delete_ok _ bs1 os1 _ k Hok1 ltac:(by rewrite lookup_insert_eq) Hno1)
      as (bs2 & os2 & Hdel & Hok2 & Hsame2 & Hno2 & Htr2 & Hkeep). destruct (Hkeep p b' Hp1 Hb1) as (b2 & Hb2 & Hmem).
    unfold wrap_err. run. cbn [fst snd]. rewrite Hdel. cbn [fst snd]. rewrite Hb2. cbn [of_option].
    rewrite (BLen_same_mem _ _ f Hmem), Hcount. exists bs2, os2. rewrite delete_insert_eq in Hok2, Htr2.
    split_and!; try done; [by transitivity bs1|]. intros ?. by apply Htr2, Htr1.
  - assert (¬ ∀ g its, q' !! g = Some its → its = []) as Hnemp.
    { intros Hall. pose proof (proj2 (AllEmpty_queue b' os1 q' Hbok1) Hall). congruence. }
    rewrite decide_False by done. run. cbn [fst snd]. rewrite Hb1. cbn [of_option]. rewrite Hcount. exists bs1, os1.
    split_and!; try done.
Qed.
(** ** The loop over the buckets *)

(** The bucket list in the state of [BsRead]. *)
Definition lview (st : buckets T * A * Z) : buckets T := st.1.1.
Definition lupd (bs : buckets T) (st : buckets T * A * Z) : buckets T * A * Z := (set_fst bs st.1, st.2).

Definition read_key (f : ForkName) (key : Key) (buck : option nat) : M (buckets T * A * Z) bool :=
  match buck with
  | Some p => read_bucket fst set_fst f fn key p
  | None => lift Panic
  end.

Lemma queue_ok_mono c d bs os Q : queue_ok c bs os Q → cap_le c d → queue_ok d bs os Q.
Proof.
  intros [Hkeys Hint Hap Hforks Hdir Hnames] Hcd. split; try done. intros k Hk. specialize (Hkeys k Hk). unfold key_ok in *.
  destruct (bt_get k (bs_tree bs)), (Q !! k); try done. destruct Hkeys. split; [by eapply bucket_at_mono|done].
Qed.

(** A turn of the loop on an open or a closed bucket. *)
Lemma read_turn c bs os Q (k : Key) (ks : list Key) q its acc f n :
  queue_ok c bs os Q → Q !! k = Some q → q !! f = Some its →
  0 < n → is_int64 n → os_faults os = [] → cap_ok c → cap_ok (cap_read its c) →
  ∃ out rest bs' os', iter_keys lview lupd load (read_key f) (k :: ks) ((bs, acc), n) os =
      (if count_left op n out <=? 0 then mret tt else iter_keys lview lupd load (read_key f) ks)
        ((bs', add out acc), count_left op n out) os' ∧
    smallest n its out rest ∧ queue_ok (cap_read its c) bs' os' (left_in k (after_read op f rest q) Q) ∧ same_list bs bs' ∧
    os_faults os' = [] ∧ (trailers_ok bs Q → trailers_ok bs' (left_in k (after_read op f rest q) Q)).
Proof.
  intros Hok HQ Hq Hn Hn64 Hno Hc Hc'. destruct (queue_ok_lookup _ _ _ _ _ _ Hok HQ) as (v & Hv & _ & _ & Hk).
  assert (∃ p bs1 os1, queue_ok c bs1 os1 Q ∧ bt_get k (bs_tree bs1) = Some (Some p) ∧ same_list bs bs1 ∧
    os_faults os1 = [] ∧ (trailers_ok bs Q → trailers_ok bs1 Q) ∧
    iter_keys lview lupd load (read_key f) (k :: ks) ((bs, acc), n) os =
      (more ← read_key f k (Some p);
       if more : bool then iter_keys lview lupd load (read_key f) ks else mret tt) ((bs1, acc), n) os1)
    as (p & bs1 & os1 & Hok1 & Hp1 & Hsame1 & Hno1 & Htr1 & ->).
  { destruct v as [p|].
    - exists p, bs, os. split_and!; try done. cbn [iter_keys]. run. unfold lview at 1. cbn [fst]. by rewrite Hv.
    - destruct (forKey_ok c bs os Q k Hok Hc Hk Hno) as (p & bs1 & os1 & Hfor & Hok1 & Hp & Hsame & Hno1 & Htr).
      rewrite (with_bucket_Some _ _ _ _ HQ) in Hok1, Htr. exists p, bs1, os1. split_and!; try done.
      cbn [iter_keys]. run. unfold lview at 1. cbn [fst]. rewrite Hv. unfold lview at 1. cbn [fst].
      rewrite Hfor. unfold lupd at 1, set_fst at 1. cbn [fst snd]. done. }
  destruct (read_bucket_ok c bs1 os1 Q k p q its acc f n Hok1 Hp1 HQ Hq Hn Hn64 Hno1 Hc')
    as (out & rest & bs' & os' & Hread & Hsm & Hok' & Hsame' & Hno' & Htr').
  exists out, rest, bs', os'. split; [|split_and!; try done; [by transitivity bs1|auto]].
  cbn [read_key]. run in Hread. run. rewrite Hread. by destruct (count_left op n out <=? 0).
Qed.

Definition add_all (outs : list Items) (acc : A) : A := foldl (λ acc out, add out acc) acc outs.

(** What both kinds of loops do to the list of buckets. *)
Record read_kept (f : ForkName) bs os Q bs' os' Q' : Prop := {
  rk_others : ∀ k g, g ≠ f → queue_of Q' k g = queue_of Q k g;
  rk_items : ∀ k it, it ∈ queue_of Q' k f → it ∈ queue_of Q k f;
  rk_dom : ∀ k, is_Some (Q' !! k) → is_Some (Q !! k);
  rk_list : same_list bs bs';
  rk_faults : os_faults os = [] → os_faults os' = [];
  rk_trailers : trailers_ok bs Q → trailers_ok bs' Q';
  rk_lively : lively Q → lively Q';
}.

Lemma read_kept_trans f bs1 os1 Q1 bs2 os2 Q2 bs3 os3 Q3 :
  read_kept f bs1 os1 Q1 bs2 os2 Q2 → read_kept f bs2 os2 Q2 bs3 os3 Q3 → read_kept f bs1 os1 Q1 bs3 os3 Q3.
Proof.
  intros [Ho1 Hi1 Hd1 Hl1 Hf1 Ht1 Hv1] [Ho2 Hi2 Hd2 Hl2 Hf2 Ht2 Hv2].
  split; [intros k g Hne; by rewrite Ho2, Ho1|auto|auto|by transitivity bs2|auto|auto|auto].
Qed.

Lemma cap_read_app its its' c : cap_read its' (cap_read its c) = cap_read (its ++ its') c.
Proof. unfold cap_read. cbn. rewrite length_app. f_equal. lia. Qed.

Lemma left_kept f bs bs' os os' Q k q its out rest n :
  Q !! k = Some q → q !! f = Some its → smallest n its out rest → same_list bs bs' → os_faults os' = [] →
  (trailers_ok bs Q → trailers_ok bs' (left_in k (after_read op f rest q) Q)) →
  read_kept f bs os Q bs' os' (left_in k (after_read op f rest q) Q).
Proof.
  intros HQ Hq [Hp _ _ _] Hsame Hno Htr. split; try done; [..|apply lively_left].
  - intros k' g Hne. rewrite queue_of_left. case_decide as Hk; [|done]. subst k'. unfold queue_of. rewrite HQ. cbn.
    unfold after_read. destruct op; [done|]. by rewrite lookup_insert_ne.
  - intros k' it. rewrite queue_of_left. case_decide as Hk; [|done]. subst k'. unfold queue_of. rewrite HQ. cbn. rewrite Hq.
    unfold after_read. destruct op; [by rewrite Hq|]. rewrite lookup_insert_eq. cbn. rewrite Hp. set_solver.
  - intros k'. unfold left_in. destruct (decide (k' = k)) as [->|Hne]; [by eexists|]. 
    case_decide; [by rewrite lookup_delete_ne|by rewrite lookup_insert_ne].
Qed.

Lemma in_split_kept fn' f bs os Q bs' os' Q' :
  read_kept f bs os Q bs' os' Q' → in_split fn' Q → in_split fn' Q'.
Proof.
  intros Hkept Hin k g it Hit. apply (Hin k g it). destruct (decide (g = f)) as [->|Hne].
  - by apply (rk_items _ _ _ _ _ _ _ Hkept).
  - by rewrite <- (rk_others _ _ _ _ _ _ _ Hkept k g Hne).
Qed.

(** What the loop over the buckets [ks] hands out: the smallest items of all of
    them, or, when nothing is removed, the smallest items of each. *)
Definition read_out (f : ForkName) (n : Z) (ks : list Key) (outs : list Items) Q Q' : Prop :=
  match op with
  | ReadOpPop => smallest n (items_in ks f Q) (concat outs) (items_in ks f Q')
  | ReadOpPeek => Forall2 (λ k out, ∃ rest, smallest n (queue_of Q k f) out rest) ks outs ∧
                  ∀ k, queue_of Q' k f = queue_of Q k f
  end.

Lemma queue_of_left_this f Q k q its rest :
  q !! f = Some its →
  queue_of (left_in k (after_read op f rest q) Q) k f = match op with ReadOpPeek => its | ReadOpPop => rest end.
Proof.
  intros Hq. rewrite queue_of_left, decide_True by done. unfold after_read.
  destruct op; [by rewrite Hq|by rewrite lookup_insert_eq].
Qed.

Lemma queue_of_left_peek f Q k q its rest :
  op = ReadOpPeek → Q !! k = Some q → q !! f = Some its →
  ∀ k', queue_of (left_in k (after_read op f rest q) Q) k' f = queue_of Q k' f.
Proof.
  intros -> HQ Hq k'. rewrite queue_of_left. case_decide as Hk; [subst k'|done]. unfold queue_of. by rewrite HQ.
Qed.

Lemma read_out_stop f n k ks q its out rest Q :
  k ∉ ks → q !! f = Some its → queue_of Q k f = its → smallest n its out rest →
  count_left op n out ≤ 0 → 0 < n → all_le its (items_in ks f Q) →
  read_out f n (k :: ks) [out] Q (left_in k (after_read op f rest q) Q).
Proof.
  intros Hk Hq Hits Hsm Hstop Hn Hbelow.
  pose proof (queue_of_left_this f Q k q its rest Hq) as Hthis. unfold read_out, count_left in *.
  destruct op; [lia|]. change (items_in (k :: ks) f ?Q) with (queue_of Q k f ++ items_in ks f Q).
  rewrite Hits, Hthis, items_in_left by done. cbn [concat]. rewrite app_nil_r. apply smallest_stop; [done|lia|done].
Qed.

Lemma read_out_next f n k ks q its out rest outs Q Q' :
  k ∉ ks → Q !! k = Some q → q !! f = Some its → queue_of Q k f = its → smallest n its out rest →
  0 < count_left op n out → all_le its (items_in ks f Q) →
  Q' !! k = left_in k (after_read op f rest q) Q !! k →
  read_out f (count_left op n out) ks outs (left_in k (after_read op f rest q) Q) Q' →
  read_out f n (k :: ks) (out :: outs) Q Q'.
Proof.
  intros Hk HQ Hq Hits Hsm Hgo Hbelow HQ' Hout.
  pose proof (queue_of_left_this f Q k q its rest Hq) as Hthis.
  pose proof (queue_of_left_peek f Q k q its rest) as Hpeek.
  assert (queue_of Q' k f = queue_of (left_in k (after_read op f rest q) Q) k f) as HQ'k by (unfold queue_of; by rewrite HQ').
  unfold read_out, count_left in *. destruct op.
  - destruct Hout as [Hout Heqs]. specialize (Hpeek eq_refl HQ Hq).
    split; [|intros k'; by rewrite Heqs]. constructor; [exists rest; by rewrite Hits|].
    eapply Forall2_impl; [exact Hout|]. intros k' out' (rest' & Hsm'). exists rest'. by rewrite <- Hpeek.
  - change (items_in (k :: ks) f ?Q) with (queue_of Q k f ++ items_in ks f Q). rewrite HQ'k, Hthis, Hits.
    rewrite items_in_left in Hout by done. cbn [concat]. apply smallest_next; [done|lia|done..].
Qed.

(** The induction over the buckets. *)
Lemma read_loop fn' (f : ForkName) n c bs os Q acc (ks : list Key) :
  queue_ok c bs os Q → SplitFunc fn' → in_split fn' Q → f ∈ bs_forks bs ++ [""] →
  StronglySorted Z.lt ks → (∀ k, k ∈ ks → is_Some (Q !! k)) → 0 < n → is_int64 n → os_faults os = [] →
  cap_ok c → cap_ok (cap_read (items_in ks f Q) c) →
  ∃ outs bs' os' n' Q', iter_keys lview lupd load (read_key f) ks ((bs, acc), n) os =
      (Ok tt, ((bs', add_all outs acc), n'), os') ∧ queue_ok (cap_read (items_in ks f Q) c) bs' os' Q' ∧
    read_kept f bs os Q bs' os' Q' ∧ (∀ k, k ∉ ks → Q' !! k = Q !! k) ∧ read_out f n ks outs Q Q'.
Proof.
  revert n c bs os Q acc.
  induction ks as [|k ks IH]; intros n c bs os Q acc Hok Hsplit Hin Hf Hsorted Hdom Hn Hn64 Hno Hc Hc'.
  { exists [], bs, os, n, Q. cbn [iter_keys items_in fmap list_fmap concat].
    split_and!; try done; [destruct c; unfold cap_read; cbn; by rewrite Z.add_0_r|]. unfold read_out.
    destruct op; [by split|]. split; [done|constructor|by intros ? ? ?%elem_of_nil|cbn; lia]. }
  apply StronglySorted_inv in Hsorted as [Hsorted Hks].
  assert (k ∉ ks) as Hkks by (intros Hx; rewrite Forall_forall in Hks; specialize (Hks k Hx); lia).
  destruct (Hdom k (list_elem_of_here _ _)) as [q HQ].
  destruct (proj1 (queue_ok_uniform _ _ _ _ Hok k q HQ f) Hf) as [its Hq].
  assert (queue_of Q k f = its) as Hits by (unfold queue_of; by rewrite HQ; cbn; rewrite Hq).
  change (items_in (k :: ks) f Q) with (queue_of Q k f ++ items_in ks f Q) in *. rewrite Hits in *.
  assert (cap_ok (cap_read its c)) as Hc1.
  { destruct Hc as [[] []], Hc' as [[_ Hw] _]. cbn in Hw. rewrite length_app in Hw. split; cbn; lia. }
  destruct (read_turn c bs os Q k ks q its acc f n) as (out & rest & bs1 & os1 & -> & Hsm & Hok1 & Hsame1 & Hno1 & Htr1);
    try done.
  pose proof (left_kept f bs bs1 os os1 Q k q its out rest n HQ Hq Hsm Hsame1 Hno1 Htr1) as Hkept1.
  pose proof (in_split_below fn' Q k ks f Hsplit Hin Hks) as Hbelow. rewrite Hits in Hbelow.
  set (Q1 := left_in k (after_read op f rest q) Q) in *.
  assert (∀ k', k' ≠ k → Q1 !! k' = Q !! k') as Hleft by (intros; by apply left_other).
  destruct (Z.leb_spec (count_left op n out) 0) as [Hstop|Hgo].
  - exists [out], bs1, os1, (count_left op n out), Q1. split; [done|]. split; [|split; [done|split]].
    + rewrite <- cap_read_app. eapply queue_ok_mono, cap_read_le. exact Hok1.
    + intros k' Hk'. apply Hleft. set_solver.
    + by apply (read_out_stop f n k ks q its).
  - assert (items_in ks f Q1 = items_in ks f Q) as Hks1 by (by apply items_in_left).
    destruct (IH (count_left op n out) (cap_read its c) bs1 os1 Q1 (add out acc))
      as (outs & bs' & os' & n' & Q' & Heq & Hok' & Hkept' & Hsame' & Hout); try done.
    + by apply (in_split_kept fn' f bs os Q bs1 os1).
    + by rewrite (sl_forks _ _ Hsame1).
    + intros k' Hk'. rewrite Hleft; [apply Hdom; by right|]. by intros ->.
    + unfold count_left, is_int64 in *. destruct op; lia.
    + by rewrite Hks1, cap_read_app.
    + rewrite Hks1, cap_read_app in Hok'.
      exists (out :: outs), bs', os', n', Q'. split; [done|]. split; [done|].
      split; [by eapply read_kept_trans|]. split; [intros k' Hk'; rewrite Hsame' by set_solver; apply Hleft; set_solver|].
      apply (read_out_next f n k ks q its out rest outs Q Q'); try done. by apply Hsame'.
Qed.

(** ** The whole operation *)

Lemma queue_ok_keys c bs os Q (k : Key) : queue_ok c bs os Q → k ∈ bt_keys (bs_tree bs) ↔ is_Some (Q !! k).
Proof.
  intros Hok. rewrite bt_keys_get. split.
  - intros [v Hv]. destruct (queue_ok_get _ _ _ _ _ _ Hok Hv) as (q & ? & _). by eexists.
  - intros [q Hq]. destruct (queue_ok_lookup _ _ _ _ _ _ Hok Hq) as (v & ? & _). by eexists.
Qed.

(** The number of items that [Read] asks for. *)
Definition read_max (n : Z) : Z := if n <? 0 then maxInt else n.

(** What a read of the consumer [f] hands out. *)
Definition reads (f : ForkName) (n : Z) (outs : list Items) bs Q Q' : Prop :=
  match op with
  | ReadOpPop => smallest (read_max n) (contents f Q) (concat outs) (contents f Q')
  | ReadOpPeek => Forall2 (λ k out, ∃ rest, smallest (read_max n) (queue_of Q k f) out rest) (bt_keys (bs_tree bs)) outs ∧
                  contents f Q' ≡ₚ contents f Q
  end.

Lemma BsRead_ok fn' c bs os Q f n acc :
  queue_ok c bs os Q → SplitFunc fn' → in_split fn' Q → f ∈ bs_forks bs ++ [""] → n ≠ 0 → is_int64 n →
  os_faults os = [] → cap_ok c → cap_ok (cap_read (contents f Q) c) →
  ∃ outs bs' os' Q', BsRead fst set_fst n f fn (bs, acc) os = (Ok tt, (bs', add_all outs acc), os') ∧
    queue_ok (cap_read (contents f Q) c) bs' os' Q' ∧ reads f n outs bs Q Q' ∧
    (∀ g, g ≠ f → contents g Q' ≡ₚ contents g Q) ∧ read_kept f bs os Q bs' os' Q'.
Proof.
  intros Hok Hsplit Hin Hf Hn Hn64 Hno Hc Hc'. set (ks := bt_keys (bs_tree bs)).
  pose proof (bt_items_sorted (bs_tree bs)) as Hsorted. change (StronglySorted Z.lt ks) in Hsorted.
  assert (NoDup ks) as Hnd by apply bt_keys_NoDup.
  assert (∀ k, is_Some (Q !! k) → k ∈ ks) as Hdom by (intros k Hk; by apply (queue_ok_keys _ _ _ _ k Hok)).
  assert (∀ g, items_in ks g Q ≡ₚ contents g Q) as Hall by (intros g; by apply contents_keys).
  assert (cap_read (items_in ks f Q) c = cap_read (contents f Q) c) as Hcap
    by (unfold cap_read; by rewrite (Permutation_length (Hall f))).
  assert (0 < read_max n ∧ is_int64 (read_max n)) as [Hmax Hmax64]
    by (unfold read_max, maxInt, is_int64 in *; destruct (Z.ltb_spec n 0); lia).
  destruct (read_loop fn' f (read_max n) c bs os Q acc ks) 
    as (outs & bs' & os' & n' & Q' & Heq & Hok' & Hkept & _ & Hout); try done.
  { intros k Hk. by apply (queue_ok_keys _ _ _ _ k Hok). }
  { by rewrite Hcap. }
  rewrite Hcap in Hok'. assert (∀ g, items_in ks g Q' ≡ₚ contents g Q') as Hall'.
  { intros g. apply contents_keys; [done|]. intros k Hk. by apply Hdom, (rk_dom _ _ _ _ _ _ _ Hkept). }
  exists outs, bs', os', Q'. split; [|split; [done|split; [|split; [|done]]]].
  - unfold BsRead, with_var, iter. fold (read_max n). run. cbn [fst snd]. fold ks.
    change (iter_keys _ _ load _ ks) with (iter_keys lview lupd load (read_key f) ks). rewrite Heq. done.
  - unfold reads, read_out in *. destruct op; [destruct Hout; auto using contents_same|].
    by apply (smallest_perm _ (items_in ks f Q) _ _ (items_in ks f Q')).
  - intros g Hne. apply contents_same. intros k. by apply (rk_others _ _ _ _ _ _ _ Hkept).
Qed.
End read.

Section claims.
Context {T : Type → Type} `{BTreeLaws T} `{Host, Unix, !UnixLaws} `{MapRange, !MapRangeLaws}.
Implicit Types (bs : buckets T) (Q : gmap Key (gmap ForkName Items)).

(** C6. [Read] on a queue with a callback that takes what it is given hands out,
    bucket after bucket, the [n] items with the smallest keys of the whole queue
    in key order, all of them when [n] is negative ([n] is an int and not 0; the
    indexes of an open bucket share no array that is still appended to), and takes exactly these from
    the consumer: what other consumers have not read stays, although buckets are
    opened, closed and, once nobody needs them, deleted on the way. *)
Theorem BsRead_queue {A} (fn : Items → M (buckets T * A) ReadOp) add split c bs os Q f n acc :
  collects fn ReadOpPop add → queue_ok c bs os Q → SplitFunc split → in_split split Q → f ∈ bs_forks bs ++ [""] →
  n ≠ 0 → is_int64 n → os_faults os = [] → cap_ok c → cap_ok (cap_read (contents f Q) c) →
  ∃ outs bs' os' Q', BsRead fst set_fst n f fn (bs, acc) os = (Ok tt, (bs', add_all add outs acc), os') ∧
    queue_ok (cap_read (contents f Q) c) bs' os' Q' ∧
    smallest (read_max n) (contents f Q) (concat outs) (contents f Q') ∧
    ∀ g, g ≠ f → contents g Q' ≡ₚ contents g Q.
Proof.
  intros Hfn. intros. destruct (BsRead_ok fn ReadOpPop add Hfn split c bs os Q f n acc) as (outs & bs' & os' & Q' & ? & ? & ? & ? & _);
    try done. by exists outs, bs', os', Q'.
Qed.

(** C25. [Read] with a callback that only looks: nothing is taken from any
    consumer, but the count is not reduced from bucket to bucket, so that the [n]
    smallest items of each bucket are handed out. *)
Theorem BsRead_peek {A} (fn : Items → M (buckets T * A) ReadOp) add split c bs os Q f n acc :
  collects fn ReadOpPeek add → queue_ok c bs os Q → SplitFunc split → in_split split Q → f ∈ bs_forks bs ++ [""] →
  n ≠ 0 → is_int64 n → os_faults os = [] → cap_ok c → cap_ok (cap_read (contents f Q) c) →
  ∃ outs bs' os' Q', BsRead fst set_fst n f fn (bs, acc) os = (Ok tt, (bs', add_all add outs acc), os') ∧
    queue_ok (cap_read (contents f Q) c) bs' os' Q' ∧
    Forall2 (λ k out, ∃ rest, smallest (read_max n) (queue_of Q k f) out rest) (bt_keys (bs_tree bs)) outs ∧
    ∀ g, contents g Q' ≡ₚ contents g Q.
Proof.
  intros Hfn. intros. destruct (BsRead_ok fn ReadOpPeek add Hfn split c bs os Q f n acc)
    as (outs & bs' & os' & Q' & Heq & Hok & [Hout Hf] & Hg & _); try done.
  exists outs, bs', os', Q'. split_and!; try done. intros g. destruct (decide (g = f)) as [->|Hne]; auto.
Qed.
End claims.

(** *** Witness *)

#[local] Existing Instance Host_tiny.

(** A queue of one open bucket, which puts eight keys into each. *)
Definition ex_conf8 : Options := mkOptions SyncFull true ErrorModeAbort (FixedSizeBucketSplitConf 8) 1.

Definition ex_split8 (key : Key) : Key := int64 (int64 (Z.quot key (int64 8)) * int64 8).

Definition ex_open : buckets slist := mkBuckets ["q"] (bt_set 0 (Some 0%nat) bt_empty) [ex_kbucket false] ∅ ex_conf8 [].

Definition ex_spec : gmap Key (gmap ForkName Items) := {[ 0 := ex_kqueue false ]}.

Lemma ex_split8_ok : SplitFunc ex_split8.
Proof. destruct (FixedSize_split 8 ltac:(lia)) as (f & name & [= <- _] & Hf & _). exact Hf. Qed.

Lemma ex_open_get k : bt_get k (bs_tree ex_open) = if decide (0 = k) then Some (Some 0%nat) else None.
Proof. cbn [bs_tree ex_open]. rewrite bt_get_set, bt_get_empty. done. Qed.

Lemma ex_vacant k : is_int64 k → k ≠ 0 → vacant ex_open (ex_kos false) k.
Proof.
  intros Hk Hne. assert (Key_String 0 ≠ Key_String k) as Hs.
  { intros Heq%Key_String_inj; [by apply Hne|unfold is_int64; lia|done]. }
  change (Key_String 0) with "K00000000000000000000" in Hs.
  assert (∀ r, os_fs (ex_kos false) !! ("q" :: Key_String k :: r) = None) as Hnone.
  { intros r. unfold ex_kos, idxPath, Join, ex_kdir. cbn [os_fs].
    rewrite !lookup_insert_ne, lookup_singleton_ne; [done|..]; intros ?; simplify_eq/=. }
  split; [|intros name]; apply Hnone.
Qed.

Lemma ex_open_ok : queue_ok ex_cap ex_open (ex_kos false) ex_spec.
Proof.
  split.
  - intros k Hk. rewrite ex_open_get. unfold ex_spec. destruct (decide (0 = k)) as [<-|Hne].
    + rewrite lookup_singleton_eq. split; [|intros f; apply ex_kdom].
      exists (ex_kbucket false), ex_items. split; [done|]. split; [apply ex_durable|done].
    + rewrite lookup_singleton_ne by done. apply ex_vacant; [done|]. by apply not_eq_sym.
  - intros k. rewrite ex_open_get. unfold ex_spec. intros Hin. destruct (decide (0 = k)) as [<-|Hne]; [unfold is_int64; lia|].
    rewrite lookup_singleton_ne in Hin by done. by destruct Hin as [[]|[]].
  - intros k k' p. rewrite !ex_open_get. by repeat case_decide; subst.
  - apply NoDup_singleton.
  - intros d [e He] Hne. cbn in He. destruct d as [|c [|? ?]]; simplify_eq/=. by vm_compute.
  - intros name node Hnode. unfold ex_kos, Join, idxPath, ex_kdir in Hnode. cbn [os_fs bs_dir ex_open] in Hnode.
    rewrite !lookup_insert_Some, lookup_singleton_Some in Hnode.
    destruct Hnode as [[? _]|(_ & [[Heq _]|(_ & [[? _]|(_ & ? & _)])])]; [done| |done..]. 
    left. exists 0. split; [unfold is_int64; lia|]. by injection Heq as <-.
Qed.

Lemma ex_spec_split : in_split ex_split8 ex_spec.
Proof.
  intros k f it. unfold queue_of, ex_spec, ex_kqueue. destruct (decide (0 = k)) as [<-|Hne].
  - rewrite lookup_singleton_eq. cbn. destruct (decide ("" = f)) as [<-|Hne].
    + rewrite lookup_singleton_eq. cbn. intros [->|[->|[]%elem_of_nil]%elem_of_cons]%elem_of_cons; by vm_compute.
    + rewrite lookup_singleton_ne by done. intros []%elem_of_nil.
  - rewrite lookup_singleton_ne by done. intros []%elem_of_nil.
Qed.

Lemma note_collects {T} (op : ReadOp) :
  collects (T := T) (note op) op (λ items acc, acc ++ [items]).
Proof. done. Qed.

Lemma BsRead_queue_witness :
  ∃ outs bs' os' Q', @BsRead _ _ Host_tiny Unix_plain Range_id _ fst set_fst 1 "" (note ReadOpPop) (ex_open, []) (ex_kos false)
      = (Ok tt, (bs', add_all (λ items acc, acc ++ [items]) outs []), os') ∧
    queue_ok (cap_read (contents "" ex_spec) ex_cap) bs' os' Q' ∧
    smallest (read_max 1) (contents "" ex_spec) (concat outs) (contents "" Q') ∧
    ∀ g, g ≠ "" → contents g Q' ≡ₚ contents g ex_spec.
Proof.
  apply (@BsRead_queue _ _ _ Host_tiny Unix_plain Unix_plain_laws Range_id Range_id_laws _ (note ReadOpPop) _ ex_split8
    ex_cap ex_open); [apply note_collects|apply ex_open_ok|apply ex_split8_ok|apply ex_spec_split|by left|done
    |unfold is_int64; lia|reflexivity|apply ex_cap_ok|split; vm_compute; intuition congruence].
Defined.

Lemma BsRead_peek_witness :
  ∃ outs bs' os' Q', @BsRead _ _ Host_tiny Unix_plain Range_id _ fst set_fst 1 "" (note ReadOpPeek) (ex_open, []) (ex_kos false)
      = (Ok tt, (bs', add_all (λ items acc, acc ++ [items]) outs []), os') ∧
    queue_ok (cap_read (contents "" ex_spec) ex_cap) bs' os' Q' ∧
    Forall2 (λ k out, ∃ rest, smallest (read_max 1) (queue_of ex_spec k "") out rest) (bt_keys (bs_tree ex_open)) outs ∧
    ∀ g, contents g Q' ≡ₚ contents g ex_spec.
Proof.
  apply (@BsRead_peek _ _ _ Host_tiny Unix_plain Unix_plain_laws Range_id Range_id_laws _ (note ReadOpPeek) _ ex_split8
    ex_cap ex_open); [apply note_collects|apply ex_open_ok|apply ex_split8_ok|apply ex_spec_split|by left|done
    |unfold is_int64; lia|reflexivity|apply ex_cap_ok|split; vm_compute; intuition congruence].
Defined.
