(* ===== verification/BucketsClear.v ===== *)
(** * Syncing and clearing a queue

    [Sync] of a list of buckets changes nothing, and [Clear] removes every bucket,
    also those that are not open. *)

From S2P Require Import Prelude BTree Os Item Vlog Index IndexFile Options Bucket BucketPeek BucketPop BucketQueue.
From S2P Require Import BucketForks BucketOpen BucketCycle Names Buckets BucketsSplit BucketsClose BucketsQueue BucketsPush.
From S2P Require Import BucketsSpec BucketsRead.

Section clear.
Context {T : Type → Type} `{BTreeLaws T} `{Host, Unix, !UnixLaws} `{MapRange, !MapRangeLaws}.
Implicit Types (bs : buckets T) (b : bucket T) (q : gmap ForkName Items) (Q : gmap Key (gmap ForkName Items)).

(** ** Sync *)

Lemma sync_each names b os err force :
  (∀ f, f ∈ names → ∃ idx, b_indexes b !! f = Some idx ∧ w_open (bi_Log idx) = true) → os_faults os = [] →
  each_joined (λ name, on_index name (idx ← get; WSync (bi_Log idx) force)) err names b os = (Ok err, b, os).
Proof.
  intros Hopen Hno. induction names as [|f names IH]; cbn [each_joined]; [done|].
  destruct (Hopen f ltac:(by left)) as (idx & Hidx & Ho).
  assert (attempt (on_index f (idx ← get; WSync (bi_Log idx) force)) b os = (Ok (inr tt), b, os)) as Hsync.
  { assert (set_indexes (<[f := idx]> (b_indexes b)) b = b) as Hid by (rewrite insert_id by done; by destruct b).
    unfold attempt, on_index, idxForFork, WSync. run. rewrite Hidx. cbn [of_option]. run. rewrite Ho.
    destruct (w_sync (bi_Log idx)), force; sys_ok; by rewrite Hid. }
  run in Hsync. run. rewrite Hsync. cbn [err_of]. assert (join_opt err None = err) as -> by (by destruct err).
  run in IH. apply IH. intros g Hg. apply Hopen. by right.
Qed.

Lemma BSync_spec b os q force :
  bucket_ok b os q → os_faults os = [] → BSync force b os = (Ok tt, b, os).
Proof.
  intros Hok Hno. unfold BSync.
  assert (attempt (zoom b_log set_log (Sync force)) b os = (Ok (inr tt), b, os)) as Hlog.
  { assert (set_log (b_log b) b = b) as Hid by (by destruct b).
    unfold attempt, Sync. run. destruct (log_syncOnWrite (b_log b)), force; sys_ok; by rewrite Hid. }
  run in Hlog. run. rewrite Hlog. cbn [err_of]. destruct (range_forks_spec b) as [_ Hdom].
  assert (∀ f, f ∈ range_forks b → ∃ idx, b_indexes b !! f = Some idx ∧ w_open (bi_Log idx) = true) as Hopen.
  { intros f Hf. apply Hdom in Hf as [idx Hidx]. exists idx. split; [done|].
    destruct (bucket_ok_cases b os q f Hok) as [(idx' & its & Hidx' & _ & [_ [_ Ho _] _ _])|[? _]]; congruence. }
  pose proof (sync_each (range_forks b) b os None force Hopen Hno) as Heq. run in Heq. by rewrite Heq.
Qed.

Definition sync_loaded (_ : Key) (buck : option nat) : M (buckets T * option error) bool :=
  match buck with
  | Some p =>
      r ← attempt (zoom fst set_fst (on_bucket p (BSync true)));
      modify (λ st, set_snd (join_opt st.2 (err_of r)) st) ;;
      mret true
  | None => mret true
  end.

Lemma BsSync_loop c bs os Q (ks : list Key) :
  queue_ok c bs os Q → os_faults os = [] →
  iter_keys fst set_fst loadedOnly sync_loaded ks (bs, None) os = (Ok tt, (bs, None), os).
Proof.
  intros Hok Hno. induction ks as [|k ks IH]; cbn [iter_keys]; [done|]. run. cbn [fst].
  destruct (bt_get k (bs_tree bs)) as [[p|]|] eqn:Hp; [|done..].
  destruct (queue_ok_open _ _ _ _ _ _ Hok Hp) as (b & q & all & Hb & _ & [Hbok _ _ _ _ _ _] & _).
  assert (sync_loaded k (Some p) (bs, None) os = (Ok true, (bs, None), os)) as ->; [|done].
  unfold sync_loaded, attempt, on_bucket, deref. run. cbn [fst]. rewrite Hb. cbn [of_option].
  rewrite (BSync_spec b os q true Hbok Hno). unfold set_fst, set_snd. cbn [fst snd err_of join_opt].
  by rewrite put_bucket_id.
Qed.

Lemma BsSync_ok c bs os Q : queue_ok c bs os Q → os_faults os = [] → BsSync bs os = (Ok tt, bs, os).
Proof.
  intros Hok Hno. unfold BsSync, with_var, iter. run. cbn [fst snd].
  change (iter_keys _ _ loadedOnly _) with (iter_keys (St := buckets T * option error) fst set_fst loadedOnly sync_loaded).
  by rewrite (BsSync_loop c bs os Q) by done.
Qed.

(** ** Clear *)

(** The specification without the buckets [ks]. *)
Definition without_keys (ks : list Key) Q : gmap Key (gmap ForkName Items) := foldl (λ Q (k : Key), delete k Q) Q ks.

Lemma delete_keys c bs os Q (ks : list Key) :
  queue_ok c bs os Q → os_faults os = [] → NoDup ks → (∀ k, k ∈ ks → is_Some (Q !! k)) →
  ∃ bs' os', each bs_delete ks bs os = (Ok tt, bs', os') ∧ queue_ok c bs' os' (without_keys ks Q) ∧
    same_list bs bs' ∧ os_faults os' = [] ∧ (trailers_ok bs Q → trailers_ok bs' (without_keys ks Q)).
Proof.
  intros Hok Hno Hnd. revert bs os Q Hok Hno. induction Hnd as [|k ks Hk Hnd IH]; intros bs os Q Hok Hno Hdom; cbn [each].
  - by exists bs, os.
  - destruct (bs_delete_ok c bs os Q k Hok ltac:(apply Hdom; by left) Hno) as (bs1 & os1 & Heq & Hok1 & Hsame1 & Hno1 & Htr1 & _).
    destruct (IH bs1 os1 (delete k Q) Hok1 Hno1) as (bs' & os' & Heq' & Hok' & Hsame' & Hno' & Htr').
    { intros k' Hk'. rewrite lookup_delete_ne by (by intros ->). apply Hdom. by right. }
    exists bs', os'. run. rewrite Heq. split; [exact Heq'|]. split; [done|]. split; [by transitivity bs1|]. split; [done|auto].
Qed.

Lemma without_keys_lookup (ks : list Key) Q k :
  without_keys ks Q !! k = if decide (k ∈ ks) then None else Q !! k.
Proof.
  revert Q. induction ks as [|k' ks IH]; intros Q; [by rewrite decide_False by (by intros ?%elem_of_nil)|].
  change (without_keys (k' :: ks) Q) with (without_keys ks (delete k' Q)). rewrite IH. destruct (decide (k ∈ ks)) as [Hin|Hin]; [by rewrite decide_True by (by right)|].
  destruct (decide (k = k')) as [->|Hne]; [by rewrite lookup_delete_eq, decide_True by (by left)|].
  rewrite lookup_delete_ne by done. rewrite decide_False; [done|]. by intros [?|?]%elem_of_cons.
Qed.

(** [Clear] leaves no bucket and no trailer. *)
Lemma BsClear_ok c bs os Q :
  queue_ok c bs os Q → os_faults os = [] →
  ∃ bs' os', BsClear bs os = (Ok tt, bs', os') ∧ queue_ok c bs' os' ∅ ∧ same_list bs bs' ∧ os_faults os' = [] ∧
    (trailers_ok bs Q → trailers_ok bs' ∅).
Proof.
  intros Hok Hno.
  destruct (delete_keys c bs os Q (bt_keys (bs_tree bs)) Hok Hno) as (bs' & os' & Heq & Hok' & Hrest).
  { apply bt_keys_NoDup. }
  { intros k. by apply (queue_ok_keys _ _ _ _ k Hok). }
  assert (without_keys (bt_keys (bs_tree bs)) Q = ∅) as Hall.
  { apply map_empty. intros k. rewrite without_keys_lookup. case_decide as Hk; [done|].
    destruct (Q !! k) eqn:HQ; [|done]. destruct Hk. apply (queue_ok_keys _ _ _ _ k Hok). by eexists. }
  rewrite Hall in Hok', Hrest. by exists bs', os'.
Qed.
End clear.
