(* ===== verification/BucketsDelete.v ===== *)
(** * Deleting a range of keys from a queue

    [Delete] goes over the buckets that the range can touch, deletes from each of
    them and removes those that nobody needs any more. *)

From S2P Require Import Prelude BTree Os Item Vlog VlogIter Index IndexFile Options Bucket BucketPeek BucketPop BucketQueue.
From S2P Require Import BucketForks BucketDelete BucketOpen BucketCycle Names Buckets BucketsSplit BucketsClose BucketsQueue.
From S2P Require Import BucketsPush BucketsSpec BucketsRead BucketsClear.

(** ** One bucket *)

(** No two items below [from] have the same key. *)
Definition apart_below (from : Key) (its : Items) : Prop := NoDup (it_Key <$> below from its).

Lemma apart_app from its its' : apart_below from (its ++ its') → apart_below from its ∧ apart_below from its'.
Proof. unfold apart_below, below. rewrite filter_app, fmap_app, NoDup_app. tauto. Qed.

#[global] Instance apart_below_perm from : Proper ((≡ₚ) ==> iff) (apart_below from).
Proof. intros its its' Hp. unfold apart_below, below. by rewrite Hp. Qed.

(** Then no two batches that begin below [from] begin with the same key. *)
Lemma apart_batches l ps from (k : Key) :
  batches l ps → apart_below from (concat ps.*2) → k < from → (length (at_key k ps.*1) ≤ 1)%nat.
Proof.
  intros Hb Hnd Hk. unfold batches in Hb. induction Hb as [|[loc its] ps [[Hne _ Hkey _ _] _] Hb IH]; [cbn; lia|].
  cbn [fmap list_fmap concat fst snd] in *. destruct its as [|it its]; [done|]. injection Hkey as Hkey.
  destruct (apart_app _ _ _ Hnd) as [_ Hnd']. specialize (IH Hnd').
  destruct (decide (loc_Key loc = k)) as [Heq|Hloc]; [|by rewrite filter_cons_False].
  rewrite filter_cons_True by done. cbn [length].
  assert (at_key k ps.*1 = []) as ->; [|cbn; lia].
  apply filter_none. intros loc' (p & -> & Hp)%list_elem_of_fmap Heq'. rewrite Forall_forall in Hb.
  destruct (Hb p Hp) as [[Hne' _ Hkey' _ _] _]. destruct p as [loc' its']. cbn [fst snd] in *.
  destruct its' as [|it' its']; [done|]. injection Hkey' as Hkey'.
  unfold apart_below, below in Hnd. rewrite filter_app, fmap_app in Hnd. apply NoDup_app in Hnd as (_ & Hx & _).
  apply (Hx k); apply list_elem_of_fmap.
  - exists it. split; [congruence|]. apply list_elem_of_filter. split; [lia|by left].
  - exists it'. split; [congruence|]. apply list_elem_of_filter. split; [lia|]. apply elem_of_concat.
    exists (it' :: its'). split; [by left|]. apply list_elem_of_fmap. by exists (loc', it' :: its').
Qed.

Section delete.
Context {T : Type → Type} `{BTreeLaws T} `{Host, Unix, !UnixLaws} `{MapRange, !MapRangeLaws}.
Implicit Types (bs : buckets T) (b : bucket T) (q : gmap ForkName Items) (Q : gmap Key (gmap ForkName Items)).

Lemma durable_delete c b os q all f its from to :
  durable c b os q all → q !! f = Some its → os_faults os = [] → from ≤ to → (∀ it, it ∈ its → b_key b ≤ it_Key it) →
  apart_below from its →
  ∃ b' os', BDelete f from to b os = (Ok (Z.of_nat (length (inside from to its))), b', os') ∧
    durable (cap_read its c) b' os' (<[f := outside from to its]> q) all ∧ os_faults os' = [] ∧
    b_dir b' = b_dir b ∧ b_key b' = b_key b ∧ only_files (bucket_files (b_dir b)) os os'.
Proof.
  intros Hdu Hq Hno Hft Hkey Hnd. pose proof (du_ok _ _ _ _ _ Hdu) as Hok.
  destruct (BDelete_spec b os q f its from to Hok Hq Hno Hft Hkey)
    as (b' & os' & Heq & Hok' & Hno' & Hlog & Hdir & Hk & Hof & Hlogs).
  - intros idx k Hidx Hk. destruct (bucket_ok_lookup _ _ _ _ _ Hok Hq) as (idx' & Hidx' & [(Hwf & ps & Hps & Hb & Hits) _ _ _]).
    assert (idx' = idx) as -> by congruence. rewrite <- index_locs_at_key, <- Hps by done.
    apply (apart_batches (b_log b) ps from); [done|by rewrite <- Hits|done].
  - exists b', os'. split; [done|]. split; [by eapply durable_one|]. split_and!; try done.
    eapply only_files_mono; [|done]. intros p <-. right. by eexists.
Qed.

(** What is left of a bucket. *)
Definition cut (f : ForkName) (from to : Key) q : gmap ForkName Items := <[f := outside from to (default [] (q !! f))]> q.

Definition exhausted q : Prop := ∀ f its, q !! f = Some its → its = [].

Lemma delete_bucket_ok c bs os Q (k : Key) q its f from to :
  queue_ok c bs os Q → Q !! k = Some q → q !! f = Some its → os_faults os = [] → from ≤ to →
  (∀ it, it ∈ its → k ≤ it_Key it) → apart_below from its → cap_ok c → cap_ok (cap_read its c) →
  ∃ empty bs' os', delete_bucket f from to k bs os = (Ok (Z.of_nat (length (inside from to its)), empty), bs', os') ∧
    queue_ok (cap_read its c) bs' os' (<[k := cut f from to q]> Q) ∧ same_list bs bs' ∧ os_faults os' = [] ∧
    (trailers_ok bs Q → trailers_ok bs' (<[k := cut f from to q]> Q)) ∧ (empty = true ↔ exhausted (cut f from to q)).
Proof.
  intros Hok HQ Hq Hno Hft Hkey Hnd Hc Hc'. destruct (queue_ok_lookup _ _ _ _ _ _ Hok HQ) as (_ & _ & _ & _ & Hk).
  destruct (forKey_ok c bs os Q k Hok Hc Hk Hno) as (p & bs1 & os1 & Hfor & Hok1 & Hp & Hsame & Hno1 & Htr).
  rewrite (with_bucket_Some _ _ _ _ HQ) in Hok1, Htr.
  destruct (queue_ok_open _ _ _ _ _ _ Hok1 Hp) as (b & q0 & all & Hb & HQ0 & Hdu & Hdir & Hbk & Hdom & _).
  assert (q0 = q) as -> by (pose proof (eq_trans (eq_sym HQ0) HQ) as Heq; by injection Heq).
  destruct (durable_delete c b os1 q all f its from to Hdu Hq Hno1 Hft) as (b' & os' & Hdel & Hdu' & Hno' & Hdir' & Hkey' & Hof);
    [by rewrite Hbk|done|].
  assert (cut f from to q = <[f := outside from to its]> q) as Hcut by (unfold cut; by rewrite Hq).
  exists (AllEmpty b'), (put_bucket p b' bs1), os'. rewrite Hcut. split; [|split; [|split_and!; try done]].
  - unfold delete_bucket, on_bucket, deref, attempt. run. rewrite Hfor. run. rewrite Hb. cbn [of_option]. rewrite Hdel.
    cbn. by rewrite list_lookup_insert_eq by by eapply lookup_lt_Some.
  - apply (put_bucket_ok c _ bs1 os1 os' _ k p b b' _ all); try done; [apply cap_read_le|].
    intros g. rewrite lookup_insert_is_Some', <- (Hdom g). split; [tauto|]. intros [<-|]; [|done]. apply Hdom. by eexists.
  - by transitivity bs1.
  - intros Ht. by apply trailers_put; [apply Htr|].
  - rewrite (AllEmpty_queue b' os' _ (du_ok _ _ _ _ _ Hdu')). done.
Qed.

(** ** The loop over the buckets *)

(** The loop stops at the first bucket above the range. *)
Lemma delete_buckets_stop f from to toK (ks : list Key) n dels bs os :
  StronglySorted Z.lt ks →
  delete_buckets f from to toK ks n dels bs os = delete_buckets f from to toK (filter (λ k, k ≤ toK) ks) n dels bs os.
Proof.
  revert n dels bs os. induction ks as [|k ks IH]; intros n dels bs os Hsorted; [done|].
  apply StronglySorted_inv in Hsorted as [Hsorted Hks]. destruct (decide (k ≤ toK)) as [Hle|Hgt].
  - rewrite filter_cons_True by done. cbn [delete_buckets]. replace (toK <? k) with false by lia. run.
    destruct (attempt _ bs os) as [[[[?|[? ?]]| | |] ?] ?]; try done. by apply IH.
  - rewrite filter_cons_False by done. rewrite filter_none; [cbn [delete_buckets]; by replace (toK <? k) with true by lia|].
    intros k' Hk'. rewrite Forall_forall in Hks. specialize (Hks k' Hk'). lia.
Qed.

Lemma delete_loop f from to toK c bs os Q (ks : list Key) n dels :
  queue_ok c bs os Q → f ∈ bs_forks bs ++ [""] → from ≤ to → Forall (λ k, k ≤ toK) ks → NoDup ks →
  (∀ k, k ∈ ks → is_Some (Q !! k)) → (∀ k it, k ∈ ks → it ∈ queue_of Q k f → k ≤ it_Key it) →
  (∀ k, k ∈ ks → apart_below from (queue_of Q k f)) →
  0 ≤ n → n + Z.of_nat (length (items_in ks f Q)) < 2 ^ 63 → os_faults os = [] → cap_ok c → cap_ok (cap_read (items_in ks f Q) c) →
  ∃ es bs' os' Q', delete_buckets f from to toK ks n dels bs os =
      (Ok (n + Z.of_nat (length (inside from to (items_in ks f Q))), inr (dels ++ es)), bs', os') ∧
    queue_ok (cap_read (items_in ks f Q) c) bs' os' Q' ∧ same_list bs bs' ∧ os_faults os' = [] ∧
    (trailers_ok bs Q → trailers_ok bs' Q') ∧ (∀ k, k ∈ ks → Q' !! k = cut f from to <$> Q !! k) ∧
    (∀ k, k ∉ ks → Q' !! k = Q !! k) ∧ NoDup es ∧
    ∀ k, k ∈ es ↔ k ∈ ks ∧ ∃ q, Q !! k = Some q ∧ exhausted (cut f from to q).
Proof.
  intros Hok Hf Hft Hle Hnd. revert c bs os Q n dels Hok Hf.
  induction Hnd as [|k ks Hk Hnd IH]; intros c bs os Q n dels Hok Hf Hdom Habove Hapart Hn Hmax Hno Hc Hc'.
  { exists [], bs, os, Q. cbn [delete_buckets items_in fmap list_fmap concat]. rewrite app_nil_r.
    assert (cap_read [] c = c) as -> by (destruct c; unfold cap_read; cbn; by rewrite Z.add_0_r).
    unfold inside. cbn. rewrite Z.add_0_r. split_and!; try done; [by intros k ?%elem_of_nil|constructor|].
    intros k. split; [by intros ?%elem_of_nil|by intros [?%elem_of_nil _]]. }
  apply Forall_cons in Hle as [Hkle Hle]. specialize (IH Hle).
  destruct (Hdom k (list_elem_of_here _ _)) as [q HQ].
  destruct (proj1 (queue_ok_uniform _ _ _ _ Hok k q HQ f) Hf) as [its Hq].
  assert (queue_of Q k f = its) as Hits by (unfold queue_of; by rewrite HQ; cbn; rewrite Hq).
  change (items_in (k :: ks) f Q) with (queue_of Q k f ++ items_in ks f Q) in *. rewrite Hits in *.
  rewrite length_app, Nat2Z.inj_add in Hmax.
  assert (cap_ok (cap_read its c)) as Hc1.
  { destruct Hc as [[] []], Hc' as [[_ Hw] _]. cbn in Hw. rewrite length_app in Hw. split; cbn; lia. }
  destruct (delete_bucket_ok c bs os Q k q its f from to) as (empty & bs1 & os1 & Hdel & Hok1 & Hsame1 & Hno1 & Htr1 & Hemp);
    try done; [intros it Hit; apply (Habove k it); [by left|by rewrite Hits]|specialize (Hapart k ltac:(by left)); by rewrite Hits in Hapart|].
  set (Q1 := <[k := cut f from to q]> Q) in *.
  assert (∀ k', k' ∈ ks → Q1 !! k' = Q !! k') as Hsame'.
  { intros k' Hk'. apply lookup_insert_ne. by intros ->. }
  assert (∀ k', k' ∈ ks → queue_of Q1 k' f = queue_of Q k' f) as Hqs by (intros k' Hk'; unfold queue_of; by rewrite Hsame').
  assert (items_in ks f Q1 = items_in ks f Q) as Hks1.
  { unfold items_in. f_equal. apply list_fmap_ext. intros i k' Hk'. apply Hqs. by eapply list_elem_of_lookup_2. }
  pose proof (outside_length from to its) as Hsum.
  assert (int64 (n + Z.of_nat (length (inside from to its))) = n + Z.of_nat (length (inside from to its))) as Hadd
    by (apply int64_id; unfold is_int64; lia).
  destruct (IH (cap_read its c) bs1 os1 Q1 (n + Z.of_nat (length (inside from to its))) (if empty then dels ++ [k] else dels))
    as (es & bs' & os' & Q' & Heq & Hok' & Hsame & Hno' & Htr' & Hin & Hout & Hes & Hiff); try done.
  { by rewrite (sl_forks _ _ Hsame1). }
  { intros k' Hk'. rewrite Hsame' by done. apply Hdom. by right. }
  { intros k' it Hk'. rewrite Hqs by done. apply Habove. by right. }
  { intros k' Hk'. rewrite Hqs by done. apply Hapart. by right. }
  { lia. }
  { rewrite Hks1. lia. }
  { by rewrite Hks1, cap_read_app. }
  rewrite Hks1, cap_read_app in Hok'. rewrite Hks1 in Heq. unfold inside in *. rewrite filter_app, length_app.
  exists (if empty then k :: es else es), bs', os', Q'.
  split; [|split; [done|split; [by transitivity bs1|split; [done|split; [auto|split; [|split; [|split]]]]]]].
  - cbn [delete_buckets]. replace (toK <? k) with false by lia. unfold attempt at 1. run. rewrite Hdel. run. rewrite Hadd, Heq.
    do 4 f_equal; [lia|]. f_equal. destruct empty; [by rewrite <- app_assoc|done].
  - intros k' [->|Hk']%elem_of_cons; [rewrite Hout by done; unfold Q1; by rewrite lookup_insert_eq, HQ|].
    rewrite Hin by done. by rewrite Hsame'.
  - intros k' [Hne Hk']%not_elem_of_cons. rewrite Hout by done. by apply lookup_insert_ne.
  - destruct empty; [|done]. constructor; [|done]. by intros [? _]%Hiff.
  - intros k'. rewrite elem_of_cons.
    assert (k' ∈ es ↔ k' ∈ ks ∧ ∃ q, Q !! k' = Some q ∧ exhausted (cut f from to q)) as Hes'.
    { rewrite Hiff. split; intros [Hk' Hx]; (split; [done|]); by rewrite Hsame' in *. }
    destruct empty.
    + rewrite elem_of_cons, Hes'. split; [|tauto]. intros [->|?]; [|tauto]. split; [by left|]. exists q. split; [done|by apply Hemp].
    + rewrite Hes'. split; [tauto|]. intros [[->|Hk'] Hx]; [|tauto]. exfalso. destruct Hx as (q' & HQ' & Hx).
      assert (q' = q) as -> by (pose proof (eq_trans (eq_sym HQ') HQ) as Hqq; by injection Hqq). apply Hemp in Hx. done.
Qed.

(** ** The whole operation *)

Lemma exhausted_nil q g : exhausted q → default [] (q !! g) = [].
Proof. intros Hq. destruct (q !! g) as [its|] eqn:Hg; [|done]. by apply (Hq g). Qed.

Lemma queue_of_cut f from to q g :
  default [] (cut f from to q !! g) = if decide (g = f) then outside from to (default [] (q !! f)) else default [] (q !! g).
Proof.
  unfold cut. case_decide as Hg; [subst g; by rewrite lookup_insert_eq|]. by rewrite lookup_insert_ne.
Qed.

Lemma outside_none from to its : (∀ it, it ∈ its → ¬ (from ≤ it_Key it ∧ it_Key it ≤ to)) → outside from to its = its ∧ inside from to its = [].
Proof. intros Hnone. unfold outside, inside. split; [by apply filter_all|by apply filter_none]. Qed.

(** The items of the buckets that the loop does not visit are not in the range. *)
Lemma unvisited fn Q f from to (k : Key) :
  SplitFunc fn → in_split fn Q → is_int64 from → is_int64 to → ¬ (fn from ≤ k ∧ k ≤ fn to) →
  ∀ it, it ∈ queue_of Q k f → ¬ (from ≤ it_Key it ∧ it_Key it ≤ to).
Proof.
  intros Hsplit Hin Hf Ht Hk it Hit [Hge Hle]. destruct (Hin k f it Hit) as [Hit64 <-]. apply Hk.
  split; by apply split_mono.
Qed.

Lemma items_in_app (ks ks' : list Key) f Q : items_in (ks ++ ks') f Q = items_in ks f Q ++ items_in ks' f Q.
Proof. unfold items_in. by rewrite fmap_app, concat_app. Qed.

Lemma outside_items_in from to (ks : list Key) f g Q Q' :
  (∀ k, queue_of Q' k g = outside from to (queue_of Q k f)) → items_in ks g Q' = outside from to (items_in ks f Q).
Proof.
  intros Hout. induction ks as [|k ks IH]; [done|].
  change (items_in (k :: ks) ?g ?Q) with (queue_of Q k g ++ items_in ks g Q). by rewrite outside_app, Hout, IH.
Qed.

(** What the loop and the removal of empty buckets leave. *)
Lemma deleted_spec fn Q Q' f from to (ks es : list Key) :
  SplitFunc fn → in_split fn Q → is_int64 from → is_int64 to →
  (∀ k : Key, k ∈ ks ↔ is_Some (Q !! k) ∧ fn from ≤ k ∧ k ≤ fn to) →
  (∀ k : Key, k ∈ ks → Q' !! k = cut f from to <$> Q !! k) → (∀ k : Key, k ∉ ks → Q' !! k = Q !! k) →
  (∀ k : Key, k ∈ es ↔ k ∈ ks ∧ ∃ q, Q !! k = Some q ∧ exhausted (cut f from to q)) →
  (∀ (k : Key) g, queue_of (without_keys es Q') k g = if decide (g = f) then outside from to (queue_of Q k f) else queue_of Q k g) ∧
  (∀ k : Key, is_Some (without_keys es Q' !! k) → is_Some (Q !! k)) ∧ (lively Q → lively (without_keys es Q')).
Proof.
  intros Hsplit Hin Hf Ht Hks Hcut Hsame Hes.
  assert (∀ (k : Key) g, queue_of (without_keys es Q') k g = if decide (g = f) then outside from to (queue_of Q k f) else queue_of Q k g) as Hall.
  { intros k g. unfold queue_of at 1. rewrite without_keys_lookup. destruct (decide (k ∈ es)) as [Hk|Hk].
    - apply Hes in Hk as (_ & q & HQ & Hx). pose proof (queue_of_cut f from to q g) as Hg.
      rewrite (exhausted_nil _ g Hx) in Hg. unfold queue_of. by rewrite HQ.
    - destruct (decide (k ∈ ks)) as [Hin'|Hout].
      + rewrite Hcut by done. destruct (proj1 (Hks k) Hin') as [[q HQ] _]. rewrite HQ. cbn. rewrite queue_of_cut.
        unfold queue_of. by rewrite HQ.
      + rewrite Hsame by done. change (match Q !! k with Some q => default [] (q !! g) | None => [] end) with (queue_of Q k g).
        change (from_option (λ q, default [] (q !! g)) [] (Q !! k)) with (queue_of Q k g).
        case_decide as Hg; [subst g|done]. symmetry. apply outside_none. destruct (decide (is_Some (Q !! k))) as [HQ|HQ].
        * apply (unvisited fn Q f from to k); try done. intros ?. apply Hout, Hks. done.
        * intros it. unfold queue_of. destruct (Q !! k); [destruct HQ; by eexists|]. by intros ?%elem_of_nil. }
  assert (∀ k : Key, is_Some (without_keys es Q' !! k) → is_Some (Q !! k)) as Hdom.
  { intros k. rewrite without_keys_lookup. case_decide; [by intros []|]. destruct (decide (k ∈ ks)) as [Hk|Hk].
    - intros _. by apply Hks.
    - by rewrite Hsame. }
  split; [done|]. split; [done|]. intros Hl k Hk. pose proof (Hdom k Hk) as Hk'. rewrite without_keys_lookup in Hk.
  destruct (decide (k ∈ es)) as [|Hnes]; [by destruct Hk|]. destruct (decide (k ∈ ks)) as [Hin'|Hout].
  - destruct Hk' as [q HQ]. destruct (decide (map_Forall (λ (_ : ForkName) (its : Items), its = []) (cut f from to q))) as [Hx|Hx].
    { destruct Hnes. apply Hes. split; [done|]. by exists q. }
    apply map_not_Forall in Hx as (g & its & Hg & Hne); [|intros ? ?; apply _]. exists g. rewrite Hall.
    pose proof (queue_of_cut f from to q g) as Hcg. rewrite Hg in Hcg. cbn in Hcg. intros Hnil. apply Hne. rewrite Hcg.
    unfold queue_of in Hnil. by rewrite HQ in Hnil.
  - destruct (Hl k Hk') as [g Hg]. exists g. rewrite Hall. case_decide as Heq; [subst g|done].
    destruct (outside_none from to (queue_of Q k f)) as [-> _]; [|done].
    apply (unvisited fn Q f from to k); try done. intros ?. by apply Hout, Hks.
Qed.

(** Buckets are removed by [each]. *)
Lemma delete_keys_wrapped c bs os Q (ks : list Key) :
  queue_ok c bs os Q → os_faults os = [] → NoDup ks → (∀ k : Key, k ∈ ks → is_Some (Q !! k)) →
  ∃ bs' os', each (λ key, wrap_err "bucket delete" (bs_delete key)) ks bs os = (Ok tt, bs', os') ∧
    queue_ok c bs' os' (without_keys ks Q) ∧ same_list bs bs' ∧ os_faults os' = [] ∧
    (trailers_ok bs Q → trailers_ok bs' (without_keys ks Q)).
Proof.
  intros Hok Hno Hnd Hdom. destruct (delete_keys c bs os Q ks Hok Hno Hnd Hdom) as (bs' & os' & Heq & Hrest).
  exists bs', os'. split; [|done]. clear Hok Hno Hnd Hdom Hrest. revert bs os Heq.
  induction ks as [|k ks IH]; intros bs os Heq; cbn [each] in *; [done|]. unfold wrap_err in *. run in Heq. run.
  destruct (bs_delete k bs os) as [[[[]| | |] bs1] os1]; try done. by apply IH.
Qed.

Lemma sorted_filter (P : Key → Prop) `{∀ k, Decision (P k)} (ks : list Key) :
  StronglySorted Z.lt ks → StronglySorted Z.lt (filter P ks).
Proof.
  induction 1 as [|k ks _ IH Hks]; [constructor|]. destruct (decide (P k)); [|by rewrite filter_cons_False].
  rewrite filter_cons_True by done. constructor; [done|]. rewrite Forall_forall in *. intros k' [_ ?]%list_elem_of_filter. auto.
Qed.

Lemma BsDelete_ok fn c bs os Q f from to :
  queue_ok c bs os Q → split_func bs = Ok fn → SplitFunc fn → in_split fn Q → f ∈ bs_forks bs ++ [""] →
  from ≤ to → is_int64 from → is_int64 to → (∀ it, it ∈ contents f Q → fn (it_Key it) ≤ it_Key it) → apart_below from (contents f Q) → Z.of_nat (length (contents f Q)) < 2 ^ 63 →
  os_faults os = [] → cap_ok c → cap_ok (cap_read (contents f Q) c) →
  ∃ bs' os' Q', BsDelete f from to bs os = (Ok (Z.of_nat (length (inside from to (contents f Q))), None), bs', os') ∧
    queue_ok (cap_read (contents f Q) c) bs' os' Q' ∧ contents f Q' ≡ₚ outside from to (contents f Q) ∧
    (∀ g, g ≠ f → contents g Q' ≡ₚ contents g Q) ∧ read_kept f bs os Q bs' os' Q'.
Proof.
  intros Hok Hfn Hsplit Hin Hf Hft Hfrom64 Hto64 Hlow Hapart Hlen Hno Hc Hc'.
  set (all := bt_keys (bs_tree bs)). pose proof (bt_items_sorted (bs_tree bs)) as Hsorted. change (StronglySorted Z.lt all) in Hsorted.
  assert (NoDup all) as Hnd by apply bt_keys_NoDup.
  set (from_ks := filter (λ k, fn from ≤ k) all). set (ks := filter (λ k, k ≤ fn to) from_ks).
  assert (∀ k : Key, k ∈ all ↔ is_Some (Q !! k)) as Hall by (intros k; by apply (queue_ok_keys _ _ _ _ k Hok)).
  assert (∀ k : Key, k ∈ ks ↔ is_Some (Q !! k) ∧ fn from ≤ k ∧ k ≤ fn to) as Hks.
  { intros k. unfold ks, from_ks. rewrite !list_elem_of_filter, Hall. tauto. }
  assert (items_in all f Q ≡ₚ contents f Q) as Hcont by (apply contents_keys; [done|]; intros k; by apply Hall).
  assert (contents f Q ≡ₚ items_in ks f Q ++ items_in (filter (λ k, ¬ (fn from ≤ k ∧ k ≤ fn to)) all) f Q) as Hparts.
  { rewrite <- Hcont, <- items_in_app. apply items_in_perm; [|done..].
    rewrite <- (filter_app_complement (λ k, fn from ≤ k ∧ k ≤ fn to) all) at 1. apply Permutation_app; [|done].
    unfold ks, from_ks. rewrite list_filter_filter. erewrite list_filter_iff; [reflexivity|]. intros k. tauto. }
  assert (inside from to (contents f Q) ≡ₚ inside from to (items_in ks f Q)) as Hinside.
  { rewrite Hparts. unfold inside. rewrite filter_app. rewrite (filter_none _ (items_in (filter _ all) f Q)); [by rewrite app_nil_r|].
    intros it (l & Hit & (k & -> & [Hk _]%list_elem_of_filter)%list_elem_of_fmap)%elem_of_concat.
    by apply (unvisited fn Q f from to k). }
  pose proof (Permutation_length Hparts) as Hl. rewrite length_app in Hl.
  assert (cap_le (cap_read (items_in ks f Q) c) (cap_read (contents f Q) c)) as Hcap by (split; cbn; done || lia).
  destruct (delete_loop f from to (fn to) c bs os Q ks 0 []) as (es & bs1 & os1 & Q1 & Hloop & Hok1 & Hsame1 & Hno1 & Htr1 & Hcut & Hout & Hes & Hiff);
    try done.
  { apply Forall_forall. intros k [_ [_ ?]]%Hks. done. }
  { unfold ks, from_ks. by do 2 apply NoDup_filter. }
  { intros k [? _]%Hks. done. }
  { intros k it _ Hit. destruct (Hin k f it Hit) as [_ <-]. apply Hlow. by eapply queue_of_contents. }
  { intros k Hk. rewrite Hparts in Hapart. apply apart_app in Hapart as [Hapart _].
    apply elem_of_Permutation in Hk as [ks' Hk]. rewrite Hk in Hapart.
    change (items_in (k :: ks') f Q) with (queue_of Q k f ++ items_in ks' f Q) in Hapart. by apply apart_app in Hapart as [? _]. }
  { lia. }
  { eapply cap_ok_le; [exact Hc'|done|destruct Hc as [[] []]; cbn; lia..]. }
  destruct (delete_keys_wrapped _ bs1 os1 Q1 es Hok1 Hno1 Hes) as (bs' & os' & Hdel & Hok' & Hsame' & Hno' & Htr').
  { intros k (Hk & q & HQ & _)%Hiff. rewrite Hcut, HQ by done. by eexists. }
  destruct (deleted_spec fn Q Q1 f from to ks es) as (Hqs & Hdom & Hlive); try done.
  assert (StronglySorted Z.lt from_ks) as Hsorted' by by apply sorted_filter.
  exists bs', os', (without_keys es Q1). split; [|split; [|split; [|split]]].
  - unfold BsDelete, attempt. replace (to <? from) with false by lia. run. rewrite Hfn. cbn [of_option]. fold all from_ks.
    rewrite (delete_buckets_stop f from to (fn to) from_ks) by done.
    change (filter (λ k : Z, k ≤ fn to) from_ks) with ks. rewrite Hloop. cbn [app]. rewrite Hdel.
    by rewrite Hinside.
  - by eapply queue_ok_mono.
  - rewrite <- Hcont, <- (outside_items_in from to all f f Q (without_keys es Q1)); [|intros k; by rewrite Hqs, decide_True].
    symmetry. apply contents_keys; [done|]. intros k Hk. by apply Hall, Hdom.
  - intros g Hg. apply contents_same. intros k. by rewrite Hqs, decide_False.
  - split; try done; [| |by transitivity bs1|auto].
    + intros k g Hg. by rewrite Hqs, decide_False.
    + intros k it. rewrite Hqs, decide_True by done. by intros [_ ?]%list_elem_of_filter.
Qed.
End delete.
