(* ===== verification/BucketsFork.v ===== *)
(** * Forks of a queue

    [Fork] and [RemoveFork] on the list of buckets go over all of them, open or
    not. *)

From S2P Require Import Prelude BTree Os Item Vlog Index IndexFile Options Bucket BucketPeek BucketShare BucketPop BucketQueue.
From S2P Require Import BucketForks BucketOpen BucketCycle Names Buckets BucketForkCycle BucketsSplit BucketsClose.
From S2P Require Import BucketsQueue BucketsPush BucketsSpec BucketsRead.

Section turns.
Context {T : Type → Type} `{BTreeLaws T} `{Host, Unix, !UnixLaws} `{MapRange, !MapRangeLaws}.
Implicit Types (bs : buckets T) (b : bucket T) (q : gmap ForkName Items) (Q : gmap Key (gmap ForkName Items)).
Implicit Types (fs : list ForkName) (ks : list Key).

(** ** Operations on one bucket after the other *)

(** What is known of the bucket under one key when the consumers are [fs]. *)
Definition key_with fs (c : cap) bs (os : OS) (k : Key) (v : option (option nat)) (oq : option (gmap ForkName Items)) : Prop :=
  match v, oq with
  | Some v, Some q => bucket_at c bs os k v q ∧ ∀ f, f ∈ fs ↔ is_Some (q !! f)
  | None, None => vacant bs os k
  | _, _ => False
  end.

(** An operation that changes or removes some of the buckets [ks]. *)
Record turns ks bs (os : OS) bs' os' : Prop := {
  tn_list : same_list bs bs';
  tn_files : only_files (λ p, ∃ k, k ∈ ks ∧ bucket_files (buckPath bs k) p) os os';
  tn_tree : ∀ k, bt_get k (bs_tree bs') = bt_get k (bs_tree bs) ∨ k ∈ ks ∧ bt_get k (bs_tree bs') = None;
  tn_heap : ∀ k p, k ∉ ks → bt_get k (bs_tree bs) = Some (Some p) → bs_heap bs' !! p = bs_heap bs !! p;
  tn_trailers : ∀ (k : Key) f, bt_get k (bs_tree bs') = Some None → bs_trailers bs' !! (k, f) = bs_trailers bs !! (k, f);
}.

(** No two keys have the same bucket. *)
Definition apart bs : Prop :=
  ∀ k k' p, bt_get k (bs_tree bs) = Some (Some p) → bt_get k' (bs_tree bs) = Some (Some p) → k = k'.

Lemma turns_nil bs os : turns [] bs os bs os.
Proof. split; try done. by left. Qed.

Lemma turns_get ks bs os bs' os' k v :
  turns ks bs os bs' os' → bt_get k (bs_tree bs') = Some v → bt_get k (bs_tree bs) = Some v.
Proof. intros Ht Hv. destruct (tn_tree _ _ _ _ _ Ht k) as [<-|[_ ?]]; congruence. Qed.

Lemma turns_other ks bs os bs' os' k :
  turns ks bs os bs' os' → k ∉ ks → bt_get k (bs_tree bs') = bt_get k (bs_tree bs).
Proof. intros Ht Hk. by destruct (tn_tree _ _ _ _ _ Ht k) as [|[]]. Qed.

(** The bucket that is open under a key. *)
Definition open_at bs (k : Key) : option (bucket T) :=
  match bt_get k (bs_tree bs) with Some (Some p) => bs_heap bs !! p | _ => None end.

Lemma turns_open ks bs os bs' os' k : turns ks bs os bs' os' → k ∉ ks → open_at bs' k = open_at bs k.
Proof.
  intros Ht Hk. unfold open_at. rewrite (turns_other _ _ _ _ _ k Ht Hk).
  destruct (bt_get k (bs_tree bs)) as [[p|]|] eqn:Hp; [|done..]. by apply (tn_heap _ _ _ _ _ Ht k p).
Qed.

Lemma turns_apart ks bs os bs' os' : turns ks bs os bs' os' → apart bs → apart bs'.
Proof. intros Ht Hap k k' p Hp Hp'. by apply (Hap k k' p); eapply turns_get. Qed.

Lemma turns_cons k ks bs os bs1 os1 bs2 os2 :
  turns [k] bs os bs1 os1 → turns ks bs1 os1 bs2 os2 → turns (k :: ks) bs os bs2 os2.
Proof.
  intros Ht1 Ht2. pose proof (tn_list _ _ _ _ _ Ht1) as Hsame. split.
  - transitivity bs1; [done|by destruct Ht2].
  - transitivity os1.
    + eapply only_files_mono; [|by destruct Ht1]. intros p (k' & ->%list_elem_of_singleton & ?). exists k. split; [by left|done].
    + eapply only_files_mono; [|by destruct Ht2]. intros p (k' & ? & Hp). exists k'. split; [by right|].
      by rewrite (buckPath_same bs bs1) in Hp.
  - intros k'. destruct (tn_tree _ _ _ _ _ Ht2 k') as [->|[? ->]]; [|right; split; [by right|done]].
    destruct (tn_tree _ _ _ _ _ Ht1 k') as [->|[->%list_elem_of_singleton ->]]; [by left|right; split; [by left|done]].
  - intros k' p Hk' Hp. apply not_elem_of_cons in Hk' as [Hne Hk'].
    assert (k' ∉ [k]) as Hk1 by (by rewrite list_elem_of_singleton).
    rewrite (tn_heap _ _ _ _ _ Ht2 k' p), (tn_heap _ _ _ _ _ Ht1 k' p); [done..|]. by rewrite (turns_other _ _ _ _ _ k' Ht1).
  - intros k' f Hk'. rewrite (tn_trailers _ _ _ _ _ Ht2) by done. apply (tn_trailers _ _ _ _ _ Ht1). by eapply turns_get.
Qed.

(** The bucket under another key. *)
Lemma turns_frame ks bs os bs' os' k :
  turns ks bs os bs' os' → k ∉ ks → is_int64 k → Forall is_int64 ks → same_bucket (buckPath bs k) os os'.
Proof.
  intros Ht Hk Hk64 Hks p Hp. apply (tn_files _ _ _ _ _ Ht). intros (k' & Hk' & Hin). rewrite Forall_forall in Hks.
  apply (buckPath_apart bs k' k p); auto. by intros ->.
Qed.

Lemma key_with_frame fs c ks bs os bs' os' k oq :
  turns ks bs os bs' os' → k ∉ ks → is_int64 k → Forall is_int64 ks →
  key_with fs c bs os k (bt_get k (bs_tree bs)) oq → key_with fs c bs' os' k (bt_get k (bs_tree bs')) oq.
Proof.
  intros Ht Hk Hk64 Hks. pose proof (turns_frame _ _ _ _ _ _ Ht Hk Hk64 Hks) as Hsame.
  pose proof (tn_heap _ _ _ _ _ Ht k) as Hheap. rewrite (turns_other _ _ _ _ _ _ Ht Hk).
  pose proof (buckPath_same bs bs' k (tn_list _ _ _ _ _ Ht)) as Hpath.
  unfold key_with, bucket_at, vacant. rewrite Hpath. destruct (bt_get k (bs_tree bs)) as [[p|]|], oq as [q|]; try done.
  - intros [(b & all & Hb & Hdu & Hd & Hbk) Hdom]. split; [|done]. exists b, all. rewrite Hheap by done. split; [done|].
    split; [|done]. eapply durable_frame; [|done]. by rewrite Hd.
  - intros [Hpk Hdom]. split; [|done]. by eapply parked_frame.
  - intros [Hd Hn]. split; [rewrite Hsame; [done|left; by left]|]. intros name. rewrite Hsame; [done|left; right; by eexists].
Qed.

Lemma key_with_mono fs c d bs os k v oq : cap_le c d → key_with fs c bs os k v oq → key_with fs d bs os k v oq.
Proof.
  intros Hcd. unfold key_with. destruct v, oq; try done. intros [? ?]. split; [by eapply bucket_at_mono|done].
Qed.

(** ** The loop *)

Section loop.
Context (fn : Key → option nat → M (buckets T) bool) (fs fs' : list ForkName) (c d : cap).
Context (P : option (bucket T) → gmap ForkName Items → Prop).
Context (R : option (bucket T) → gmap ForkName Items → option (gmap ForkName Items) → Prop).

(** What the callback does to one bucket. *)
Definition turn_ok bs : Prop := ∀ bs1 os (k : Key) v q,
  same_list bs bs1 → apart bs1 → is_int64 k → bt_get k (bs_tree bs1) = Some v → bucket_at c bs1 os k v q →
  (∀ f, f ∈ fs ↔ is_Some (q !! f)) → P (open_at bs1 k) q → os_faults os = [] →
  ∃ oq bs2 os2, fn k v bs1 os = (Ok true, bs2, os2) ∧ turns [k] bs1 os bs2 os2 ∧ os_faults os2 = [] ∧
    key_with fs' d bs2 os2 k (bt_get k (bs_tree bs2)) oq ∧ R (open_at bs1 k) q oq.

Lemma turns_loop bs ks bs1 os Q :
  turn_ok bs → same_list bs bs1 → apart bs1 → NoDup ks → Forall is_int64 ks → os_faults os = [] →
  (∀ k, k ∈ ks → ∃ q, Q !! k = Some q ∧ P (open_at bs1 k) q ∧ key_with fs c bs1 os k (bt_get k (bs_tree bs1)) (Some q)) →
  ∃ Q' bs2 os2, iter_keys (λ bs, bs) (λ bs _, bs) includeNil fn ks bs1 os = (Ok tt, bs2, os2) ∧
    turns ks bs1 os bs2 os2 ∧ os_faults os2 = [] ∧ (∀ k, k ∉ ks → Q' !! k = Q !! k) ∧
    ∀ k, k ∈ ks → key_with fs' d bs2 os2 k (bt_get k (bs_tree bs2)) (Q' !! k) ∧ ∃ q, Q !! k = Some q ∧ R (open_at bs1 k) q (Q' !! k).
Proof.
  intros Hturn Hsame Hap Hnd. revert bs1 os Hsame Hap. induction Hnd as [|k ks Hk Hnd IH]; intros bs1 os Hsame Hap Hks Hno Hall.
  { exists Q, bs1, os. split_and!; try done; [apply turns_nil|by intros k ?%elem_of_nil]. }
  apply Forall_cons in Hks as [Hk64 Hks]. destruct (Hall k (list_elem_of_here _ _)) as (q & HQ & HP & Hkey).
  destruct (bt_get k (bs_tree bs1)) as [v|] eqn:Hv; [|done]. destruct Hkey as [Hat Hdom].
  destruct (Hturn bs1 os k v q Hsame Hap Hk64 Hv Hat Hdom HP Hno) as (oq & bs2 & os2 & Hfn & Ht1 & Hno2 & Hkey2 & HR).
  assert (∀ k', k' ∈ ks → k' ∉ [k]) as Hother by (intros k' Hk' ->%list_elem_of_singleton; done).
  destruct (IH bs2 os2) as (Q2 & bs3 & os3 & Hloop & Ht2 & Hno3 & HQ2 & Hkeys); try done.
  - transitivity bs1; [done|by destruct Ht1].
  - by eapply turns_apart.
  - intros k' Hk'. destruct (Hall k' ltac:(by right)) as (q' & ? & ? & Hkey'). exists q'. split; [done|]. split; [by rewrite (turns_open _ _ _ _ _ k' Ht1) by by apply Hother|].
    eapply key_with_frame; [exact Ht1|by apply Hother| |by apply Forall_singleton|done]. rewrite Forall_forall in Hks. by apply Hks.
  - exists (partial_alter (λ _, oq) k Q2), bs3, os3. split; [|split; [by eapply turns_cons|split; [done|split]]].
    + cbn [iter_keys]. run. rewrite Hv. destruct v as [p|]; by rewrite Hfn.
    + intros k' [Hne Hk']%not_elem_of_cons. rewrite lookup_partial_alter_ne by done. by apply HQ2.
    + intros k' Hk'. destruct (decide (k' = k)) as [->|Hne].
      * rewrite lookup_partial_alter_eq. split; [|by exists q]. by eapply key_with_frame.
      * rewrite lookup_partial_alter_ne by done. assert (k' ∈ ks) as Hin by (by apply elem_of_cons in Hk' as []).
        rewrite <- (turns_open _ _ _ _ _ k' Ht1) by by apply Hother. by apply Hkeys.
Qed.
End loop.

(** The queue after all buckets had their turn; the list of forks may have been
    changed before or after that. *)
Lemma queue_turns c d bs os Q fs0 fs' bs' os' Q' :
  queue_ok c bs os Q → turns (bt_keys (bs_tree bs)) (set_forks fs0 bs) os bs' os' → NoDup (fs' ++ [""]) →
  (∀ k, k ∉ bt_keys (bs_tree bs) → Q' !! k = Q !! k) →
  (∀ k, k ∈ bt_keys (bs_tree bs) → key_with (fs' ++ [""]) d bs' os' k (bt_get k (bs_tree bs')) (Q' !! k)) →
  queue_ok d (set_forks fs' bs') os' Q'.
Proof.
  intros Hok Ht Hnd Hout Hin. set (ks := bt_keys (bs_tree bs)) in *. pose proof (tn_list _ _ _ _ _ Ht) as [Hd _ Ho].
  assert (∀ k, k ∈ ks ↔ is_Some (Q !! k)) as Hks by (intros k; by apply (queue_ok_keys _ _ _ _ k Hok)).
  assert (Forall is_int64 ks) as Hks64 by (apply Forall_forall; intros k Hk; apply (qo_int _ _ _ _ Hok); right; by apply Hks).
  assert (∀ p, (∃ k, k ∈ ks ∧ bucket_files (buckPath bs k) p) → ∃ k n, k ∈ ks ∧ p = buckPath bs k ++ n) as Hshape.
  { intros p (k & Hk & [->|[name ->]]); exists k;
      [exists []; by rewrite app_nil_r|by exists [name]]. }
  split; cbn [bs_tree set_forks bs_forks bs_dir bs_opts]; try done.
  - intros k Hk. destruct (decide (k ∈ ks)) as [Hkin|Hkout]; [by apply Hin|]. rewrite Hout by done.
    assert (Q !! k = None) as HQ by (destruct (Q !! k) eqn:HQ; [destruct Hkout; apply Hks; by eexists|done]).
    pose proof (qo_keys _ _ _ _ Hok k Hk) as Hkey. rewrite HQ in *.
    assert (key_with [] c (set_forks fs0 bs) os k (bt_get k (bs_tree bs)) None) as Hkw
      by (unfold key_ok in Hkey; destruct (bt_get k (bs_tree bs)); [done|exact Hkey]).
    pose proof (key_with_frame [] c ks _ os bs' os' k None Ht Hkout Hk Hks64 Hkw) as Hkey'. unfold key_with, key_ok in *.
    by destruct (bt_get k (bs_tree bs')).
  - intros k [[v Hv]|Hk]; apply (qo_int _ _ _ _ Hok).
    + left. exists v. by apply (turns_get _ _ _ _ _ k v Ht).
    + destruct (decide (k ∈ ks)) as [Hkin|Hkout]; [right; by apply Hks|]. right. by rewrite <- Hout.
  - apply (turns_apart _ _ _ _ _ Ht). exact (qo_apart _ _ _ _ Hok).
  - rewrite Hd. intros p Hpre Hne. rewrite (proj1 (tn_files _ _ _ _ _ Ht)); [by apply (qo_dir _ _ _ _ Hok)|].
    intros (k & n & _ & ->)%Hshape. apply prefix_length in Hpre. cbn in Hpre. unfold buckPath, Join in Hpre.
    rewrite !length_app in Hpre. cbn in Hpre. lia.
  - rewrite Hd, Ho. cbn. intros name node Hnode.
    destruct (decide (name ∈ Key_String <$> ks)) as [(k & -> & Hk)%list_elem_of_fmap|Hnot].
    { left. exists k. rewrite Forall_forall in Hks64. by split; [apply Hks64|]. }
    apply (qo_names _ _ _ _ Hok). rewrite <- Hnode. symmetry. apply (tn_files _ _ _ _ _ Ht).
    intros (k & n & Hk & Heq)%Hshape. apply Hnot, list_elem_of_fmap. exists k. split; [|done]. unfold buckPath, Join in Heq.
    rewrite <- app_assoc in Heq. apply app_inv_head in Heq. cbn in Heq. by simplify_eq.
Qed.
End turns.

Section forks.
Context {T : Type → Type} `{BTreeLaws T} `{Host, Unix, !UnixLaws} `{MapRange, !MapRangeLaws}.
Implicit Types (bs : buckets T) (b : bucket T) (q : gmap ForkName Items) (Q : gmap Key (gmap ForkName Items)).

(** ** Turns *)

Lemma one_key_files bs os os' k :
  only_files (bucket_files (buckPath bs k)) os os' →
  only_files (λ p, ∃ k', k' ∈ [k] ∧ bucket_files (buckPath bs k') p) os os'.
Proof. apply only_files_mono. intros p Hp. exists k. split; [by left|done]. Qed.

(** Only files change. *)
Lemma turn_files bs os os' k : only_files (bucket_files (buckPath bs k)) os os' → turns [k] bs os bs os'.
Proof. intros Hof. split; try done; [by apply one_key_files|by left]. Qed.

Lemma turn_put bs os os' k p b :
  apart bs → bt_get k (bs_tree bs) = Some (Some p) → only_files (bucket_files (buckPath bs k)) os os' →
  turns [k] bs os (put_bucket p b bs) os'.
Proof.
  intros Hap Hp Hof. split; try done; [by apply one_key_files|by left|]. intros k' p' Hk' Hp'. cbn.
  apply list_lookup_insert_ne. intros ->. apply Hk'. rewrite (Hap k' k p'); [by left|done..].
Qed.

Lemma turn_drop bs os os' k closed :
  apart bs → (∀ p b, closed = Some (p, b) → bt_get k (bs_tree bs) = Some (Some p)) →
  only_files (bucket_files (buckPath bs k)) os os' → turns [k] bs os (dropped k closed bs) os'.
Proof.
  intros Hap Hclosed Hof. split; [apply dropped_list|by apply one_key_files| | |].
  - intros k'. rewrite dropped_tree. case_decide as Hk; [right; subst k'; split; [by left|done]|by left].
  - intros k' p' Hk' Hp'. destruct closed as [[p b]|]; [|done]. cbn. apply list_lookup_insert_ne. intros ->. apply Hk'.
    rewrite (Hap k' k p'); [by left|done|by eapply Hclosed].
  - intros k' f. rewrite dropped_tree. case_decide as Hk; [done|]. intros _. by apply dropped_trailers, not_eq_sym.
Qed.

Lemma turns_trans ks bs os bs1 os1 bs2 os2 :
  turns ks bs os bs1 os1 → turns ks bs1 os1 bs2 os2 → turns ks bs os bs2 os2.
Proof.
  intros Ht1 Ht2. pose proof (tn_list _ _ _ _ _ Ht1) as Hsame. split.
  - transitivity bs1; [done|by destruct Ht2].
  - transitivity os1; [by destruct Ht1|]. eapply only_files_mono; [|by destruct Ht2]. intros p (k & ? & Hp). exists k.
    split; [done|]. by rewrite (buckPath_same bs bs1) in Hp.
  - intros k. destruct (tn_tree _ _ _ _ _ Ht2 k) as [->|[? ->]]; [by destruct Ht1|by right].
  - intros k p Hk Hp. rewrite (tn_heap _ _ _ _ _ Ht2 k p), (tn_heap _ _ _ _ _ Ht1 k p); [done..|].
    by rewrite (turns_other _ _ _ _ _ k Ht1).
  - intros k f Hk. rewrite (tn_trailers _ _ _ _ _ Ht2) by done. apply (tn_trailers _ _ _ _ _ Ht1). by eapply turns_get.
Qed.

(** ** Fork *)

Context `{CopyPkg, !CopyLaws} `{Unicode}.

Definition fork_bucket (src dst : ForkName) (key : Key) (buck : option nat) : M (buckets T) bool :=
  match buck with
  | Some p => on_bucket p (BFork src dst) ;; mret true
  | None => bs ← get; forkOffline (Join (bs_dir bs) (Key_String key)) src dst ;; mret true
  end.

(** No list that an open bucket has in memory for this consumer has room left. *)
Definition roomless (f : ForkName) bs : Prop :=
  Forall (λ kv, match open_at bs kv.1 with Some b => no_room f b | None => True end) (bt_items (bs_tree bs)).

#[global] Instance roomless_decision f bs : Decision (roomless f bs).
Proof. unfold roomless. apply Forall_dec. intros kv. destruct (open_at bs kv.1); apply _. Defined.

Lemma roomless_at f bs k b : roomless f bs → open_at bs k = Some b → no_room f b.
Proof.
  unfold roomless. rewrite Forall_forall. intros Hr Hk. destruct (bt_get k (bs_tree bs)) as [v|] eqn:Hv; [|unfold open_at in Hk; by rewrite Hv in Hk].
  specialize (Hr (k, v) ltac:(by apply bt_items_get)). cbn in Hr. by rewrite Hk in Hr.
Qed.

(** A bucket with one more consumer. *)
Definition forked (src dst : ForkName) q : gmap ForkName Items := <[dst := default [] (q !! src)]> q.

Lemma fork_turn c d bs src dst :
  turn_ok (fork_bucket src dst) (bs_forks bs ++ [""]) ((bs_forks bs ++ [dst]) ++ [""]) c d
    (λ ob q, (∀ b, ob = Some b → no_room src b) ∧ q !! dst = None ∧ ∃ its, q !! src = Some its ∧ its ≠ [] ∧ cap_le (untold (cap_read its c)) d)
    (λ _ q oq, oq = Some (forked src dst q)) bs.
Proof.
  intros bs1 os k v q Hsame Hap Hk Hv Hat Hdom (Hroom & Hdst & its & Hsrc & Hne & Hcd) Hno.
  assert (forked src dst q = <[dst := its]> q) as Hq' by (unfold forked; by rewrite Hsrc).
  assert (∀ f, f ∈ (bs_forks bs ++ [dst]) ++ [""] ↔ is_Some (<[dst := its]> q !! f)) as Hdom'.
  { intros f. rewrite lookup_insert_is_Some', <- Hdom. set_solver. }
  destruct v as [p|].
  - destruct Hat as (b & all & Hb & Hdu & Hdir & Hbk).
    destruct (durable_fork c b os q all src dst its Hdu Hsrc Hne Hdst Hno ltac:(by apply Hroom; unfold open_at; rewrite Hv))
      as (b' & os' & Heq & Hdu' & Hdir' & Hkey' & Hof & Hno').
    exists (Some (forked src dst q)), (put_bucket p b' bs1), os'. rewrite Hdir in Hof.
    split; [unfold fork_bucket, on_bucket, deref; run; rewrite Hb; cbn [of_option]; by rewrite Heq|].
    split; [by apply turn_put|]. split; [done|]. split; [|done]. change (bs_tree (put_bucket p b' bs1)) with (bs_tree bs1).
    rewrite Hv, Hq'. split; [|done]. exists b', all. split; [cbn; apply list_lookup_insert_eq; by eapply lookup_lt_Some|].
    split; [by eapply durable_mono|]. by rewrite Hdir', Hkey'.
  - destruct (parked_fork bs1 c os (buckPath bs1 k) q src dst its Hat Hsrc Hdst Hno) as (os' & Heq & Hpk & Hof & Hno').
    exists (Some (forked src dst q)), bs1, os'.
    split; [unfold fork_bucket; run; fold (buckPath bs1 k); by rewrite Heq|].
    split; [by apply turn_files|]. split; [done|]. split; [|done]. rewrite Hv, Hq'. split; [|done].
    eapply parked_mono; [|done]. destruct Hcd as [Hw ? Ht]. cbn in *. split; [lia|done|by intros ?%Ht].
Qed.

(** The specification with one more consumer. *)
Definition fork_spec (src dst : ForkName) Q : gmap Key (gmap ForkName Items) := forked src dst <$> Q.

Lemma queue_of_forked src dst Q k f :
  queue_of (fork_spec src dst Q) k f = queue_of Q k (if decide (f = dst) then src else f).
Proof.
  unfold queue_of, fork_spec, forked. rewrite lookup_fmap. destruct (Q !! k) as [q|]; [|done]. cbn.
  case_decide as Hf; [subst f; by rewrite lookup_insert_eq|by rewrite lookup_insert_ne].
Qed.

Lemma contents_forked src dst Q f :
  contents f (fork_spec src dst Q) = contents (if decide (f = dst) then src else f) Q.
Proof.
  unfold contents, items_in. unfold fork_spec at 2. rewrite dom_fmap_L. f_equal. apply list_fmap_ext.
  intros _ k _. apply queue_of_forked.
Qed.

(** Every bucket has items of this consumer. *)
Definition busy (f : ForkName) Q : Prop := ∀ k, is_Some (Q !! k) → queue_of Q k f ≠ [].

Lemma Validate_name_ne name : Validate_name name = Ok tt → name ≠ "".
Proof. unfold Validate_name. by case_decide. Qed.

Lemma set_forks_id bs : set_forks (bs_forks bs) bs = bs.
Proof. by destruct bs. Qed.

Lemma BsFork_ok c bs os Q src dst :
  queue_ok c bs os Q → src ∈ bs_forks bs ++ [""] → dst ∉ bs_forks bs → Validate_name dst = Ok tt → busy src Q →
  roomless src bs → os_faults os = [] →
  ∃ bs' os', BsFork src dst bs os = (Ok tt, bs', os') ∧
    queue_ok (untold (cap_read (contents src Q) c)) bs' os' (fork_spec src dst Q) ∧ os_faults os' = [] ∧
    bs_dir bs' = bs_dir bs ∧ bs_opts bs' = bs_opts bs ∧ bs_forks bs' = bs_forks bs ++ [dst].
Proof.
  intros Hok Hsrc Hdst Hname Hbusy Hroom Hno. pose proof (Validate_name_ne dst Hname) as Hne.
  pose proof (queue_ok_uniform _ _ _ _ Hok) as Hu. set (ks := bt_keys (bs_tree bs)).
  destruct (turns_loop (fork_bucket src dst) _ _ _ _ _ _ bs ks bs os Q (fork_turn c (untold (cap_read (contents src Q) c)) bs src dst))
    as (Q' & bs2 & os2 & Hloop & Ht & Hno2 & Hout & Hin); [done|exact (qo_apart _ _ _ _ Hok)|apply bt_keys_NoDup| |done| |].
  { apply Forall_forall. intros k Hk. apply (qo_int _ _ _ _ Hok). right. by apply (queue_ok_keys _ _ _ _ k Hok). }
  { intros k Hk. apply (queue_ok_keys _ _ _ _ k Hok) in Hk as [q HQ]. destruct (queue_ok_lookup _ _ _ _ _ _ Hok HQ) as (v & Hv & Hat & Hdom & _).
    exists q. split; [done|]. split; [|by rewrite Hv]. split; [intros b; by apply roomless_at|]. split.
    - destruct (q !! dst) eqn:Hq; [|done]. assert (dst ∈ bs_forks bs ++ [""]) by (apply Hdom; by eexists). set_solver.
    - destruct (proj1 (Hdom src) Hsrc) as [its Hits]. exists its. split; [done|].
      assert (queue_of Q k src = its) as <- by (unfold queue_of; by rewrite HQ; cbn; rewrite Hits).
      split; [apply Hbusy; by eexists|]. pose proof (queue_of_length Q k src ltac:(by eexists)). split; cbn; lia. }
  assert (Q' = fork_spec src dst Q) as ->.
  { apply map_eq. intros k. unfold fork_spec. rewrite lookup_fmap. destruct (decide (k ∈ ks)) as [Hk|Hk].
    - destruct (Hin k Hk) as (_ & q & -> & ->). done.
    - rewrite Hout by done. destruct (Q !! k) as [q|] eqn:HQ; [|done]. destruct Hk.
      apply (queue_ok_keys _ _ _ _ k Hok). by eexists. }
  pose proof (tn_list _ _ _ _ _ Ht) as [Hd Hf Ho].
  exists (set_forks (bs_forks bs2 ++ [dst]) bs2), os2. split; [|split; [|split; [done|cbn; by rewrite Hf]]].
  - unfold BsFork, iter. run. rewrite Hname, decide_False by done. cbn [of_option].
    change (iter_keys _ _ includeNil _) with (iter_keys (λ bs, bs) (λ bs _, bs) includeNil (fork_bucket src dst)).
    fold ks. by rewrite Hloop.
  - rewrite Hf. apply (queue_turns c _ bs os Q (bs_forks bs)); [done|by rewrite set_forks_id| |done|intros k Hk; by apply Hin].
    pose proof (qo_forks _ _ _ _ Hok) as (? & Hx & _)%NoDup_app.
    apply NoDup_app; split; [apply NoDup_app; split; [done|split; [set_solver|apply NoDup_singleton]]|].
    split; [|apply NoDup_singleton]. intros f [Hf'|Hf']%elem_of_app; [by apply Hx|].
    apply list_elem_of_singleton in Hf' as ->. by rewrite list_elem_of_singleton.
Qed.

End forks.

(** ** RemoveFork *)

Section remove.
Context {T : Type → Type} `{BTreeLaws T} `{Host, Unix, !UnixLaws} `{MapRange, !MapRangeLaws} `{Unicode}.
Implicit Types (bs : buckets T) (b : bucket T) (q : gmap ForkName Items) (Q : gmap Key (gmap ForkName Items)).

Definition remove_bucket (fork : ForkName) (key : Key) (buck : option nat) : M (buckets T) bool :=
  match buck with
  | Some p =>
      on_bucket p (BRemoveFork fork) ;;
      b ← deref p;
      if negb (AllEmpty b) then mret true else bs_delete key ;; mret true
  | None => bs ← get; removeForkOffline (Join (bs_dir bs) (Key_String key)) fork ;; mret true
  end.

(** Nobody else has items. *)
Definition only_items (fork : ForkName) q : Prop := ∀ g its, delete fork q !! g = Some its → its = [].

(** A bucket with one consumer less; if it is open, it is gone if the others have
    no items. *)
Definition unforked (fork : ForkName) (ob : option (bucket T)) q (oq : option (gmap ForkName Items)) : Prop :=
  oq = Some (delete fork q) ∧ ¬ (is_Some ob ∧ only_items fork q) ∨ oq = None ∧ is_Some ob ∧ only_items fork q.

Lemma remove_turn c bs fs fork :
  bs_forks bs = filter (λ candidate, fork ≠ candidate) fs → fork ≠ "" →
  turn_ok (remove_bucket fork) (fs ++ [""]) (bs_forks bs ++ [""]) c c (λ _ q, is_Some (q !! fork)) (unforked fork) bs.
Proof.
  intros Hfs Hmain bs1 os k v q Hsame Hap Hk Hv Hat Hdom [its Hq] Hno.
  assert (∀ f, f ∈ bs_forks bs ++ [""] ↔ is_Some (delete fork q !! f)) as Hdom'.
  { intros f. rewrite lookup_delete_is_Some, <- Hdom, Hfs, !elem_of_app, list_elem_of_filter, list_elem_of_singleton.
    split; [intros [[? ?]| ->]; auto|intros [? [?| ->]]; auto]. }
  destruct v as [p|].
  - destruct Hat as (b & all & Hb & Hdu & Hdir & Hbk).
    destruct (durable_remove c b os q all fork its Hdu Hq Hno) as (b' & os' & Heq & Hdu' & Hdir' & Hkey' & Hof & Hno').
    rewrite Hdir in Hof. set (bs2 := put_bucket p b' bs1).
    assert (turns [k] bs1 os bs2 os') as Ht by by apply turn_put.
    assert (bs_heap bs2 !! p = Some b') as Hb2 by (cbn; apply list_lookup_insert_eq; by eapply lookup_lt_Some).
    assert (bucket_at c bs2 os' k (Some p) (delete fork q)) as Hat2.
    { exists b', all. split; [done|]. split; [done|]. by rewrite Hdir', Hkey'. }
    pose proof (AllEmpty_queue b' os' _ (du_ok _ _ _ _ _ Hdu')) as Hemp.
    unfold remove_bucket, on_bucket, deref. run. rewrite Hb. cbn [of_option]. rewrite Heq. fold bs2. rewrite Hb2. cbn [of_option].
    destruct (AllEmpty b') eqn:Hall; run.
    + assert (apart bs2) as Hap2 by by eapply turns_apart.
      destruct (bs_delete_at c bs2 os' k (Some p) (delete fork q)) as (closed & os2 & Hdel & Hvac & Hof2 & Hno2 & Hclosed); try done.
      { intros f Hf%Hdom'. change (bs_forks bs2) with (bs_forks bs1). rewrite (sl_forks _ _ Hsame). set_solver. }
      destruct closed as [[p' b2]|]; [|done]. destruct Hclosed as [-> _].
      exists None, (dropped k (Some (p, b2)) bs2), os2. split; [by rewrite Hdel|].
      split; [eapply turns_trans; [exact Ht|]; apply turn_drop; [done|by intros ? ? [= <- _]|done]|].
      split; [done|]. split; [|right; split; [done|split; [unfold open_at; rewrite Hv, Hb; by eexists|exact (proj1 Hemp eq_refl)]]]. rewrite dropped_tree, decide_True by done. exact Hvac.
    + exists (Some (delete fork q)), bs2, os'. split; [done|]. split; [done|]. split; [done|].
      split; [|left; split; [done|]; by intros [_ Honly%Hemp]].
      change (bs_tree bs2) with (bs_tree bs1). rewrite Hv. by split.
  - destruct (parked_remove bs1 c os (buckPath bs1 k) q fork its Hat Hq Hno) as (os' & Heq & Hpk & Hof & Hno').
    exists (Some (delete fork q)), bs1, os'. split; [unfold remove_bucket; run; fold (buckPath bs1 k); by rewrite Heq|].
    split; [by apply turn_files|]. split; [done|]. split; [by rewrite Hv|].
    left. split; [done|]. unfold open_at. rewrite Hv. by intros [[] _].
Qed.

Lemma queue_of_unforked Q Q' k q fork ob f :
  Q !! k = Some q → unforked fork ob q (Q' !! k) → f ≠ fork → queue_of Q' k f = queue_of Q k f.
Proof.
  intros HQ Hun Hne. unfold queue_of. rewrite HQ. cbn. destruct Hun as [[-> _]|(-> & _ & Hnil)]; cbn.
  - by rewrite lookup_delete_ne.
  - destruct (q !! f) as [its|] eqn:Hq; [|done]. symmetry. apply (Hnil f). by rewrite lookup_delete_ne.
Qed.

Lemma BsRemoveFork_ok c bs os Q fork :
  queue_ok c bs os Q → fork ∈ bs_forks bs → Validate_name fork = Ok tt → os_faults os = [] →
  ∃ bs' os' Q', BsRemoveFork fork bs os = (Ok tt, bs', os') ∧ queue_ok c bs' os' Q' ∧ os_faults os' = [] ∧
    bs_dir bs' = bs_dir bs ∧ bs_opts bs' = bs_opts bs ∧ bs_forks bs' = filter (λ candidate, fork ≠ candidate) (bs_forks bs) ∧
    (∀ k f, f ≠ fork → queue_of Q' k f = queue_of Q k f) ∧ (∀ k, is_Some (Q' !! k) → is_Some (Q !! k)) ∧
    (trailers_ok bs Q → trailers_ok bs' Q') ∧
    ∀ k q, Q !! k = Some q → Q' !! k = None ↔ is_Some (open_at bs k) ∧ only_items fork q.
Proof.
  intros Hok Hfork Hname Hno. pose proof (Validate_name_ne fork Hname) as Hne. set (ks := bt_keys (bs_tree bs)).
  set (bs0 := set_forks (filter (λ candidate, fork ≠ candidate) (bs_forks bs)) bs).
  assert (∀ k, k ∈ ks ↔ is_Some (Q !! k)) as Hks by (intros k; by apply (queue_ok_keys _ _ _ _ k Hok)).
  destruct (turns_loop (remove_bucket fork) _ _ _ _ _ _ bs0 ks bs0 os Q (remove_turn c bs0 (bs_forks bs) fork eq_refl Hne))
    as (Q' & bs2 & os2 & Hloop & Ht & Hno2 & Hout & Hin); [done|exact (qo_apart _ _ _ _ Hok)|apply bt_keys_NoDup| |done| |].
  { apply Forall_forall. intros k Hk. apply (qo_int _ _ _ _ Hok). right. by apply Hks. }
  { intros k Hk. apply Hks in Hk as [q HQ]. destruct (queue_ok_lookup _ _ _ _ _ _ Hok HQ) as (v & Hv & Hat & Hdom & _).
    exists q. split; [done|]. split; [apply Hdom; set_solver|]. change (bs_tree bs0) with (bs_tree bs). by rewrite Hv. }
  pose proof (tn_list _ _ _ _ _ Ht) as [Hd Hf Ho]. exists bs2, os2, Q'. split; [|split; [|split; [done|split_and!; try done]]].
  - unfold BsRemoveFork, iter. run. rewrite Hname. cbn [of_option].
    change (iter_keys _ _ includeNil _) with (iter_keys (λ bs, bs) (λ bs _, bs) includeNil (remove_bucket fork)).
    fold bs0. change (bs_tree bs0) with (bs_tree bs). fold ks. exact Hloop.
  - rewrite <- (set_forks_id bs2), Hf. eapply (queue_turns c c bs os Q); [done|exact Ht| |done|intros k Hk; by apply Hin].
    pose proof (qo_forks _ _ _ _ Hok) as (Hnd & Hx & _)%NoDup_app. apply NoDup_app. split; [by apply NoDup_filter|].
    split; [|apply NoDup_singleton]. intros f [_ Hf']%list_elem_of_filter. by apply Hx.
  - intros k f Hfne. destruct (decide (k ∈ ks)) as [Hk|Hk]; [|unfold queue_of; by rewrite Hout].
    destruct (Hin k Hk) as (_ & q & HQ & Hun). by eapply queue_of_unforked.
  - intros k Hk. destruct (decide (k ∈ ks)) as [?|Hkn]; [by apply Hks|by rewrite <- Hout].
  - intros Htr k q' f its Hn HQ' Hq'. assert (k ∈ ks) as Hk.
    { apply bt_keys_get. exists None. by apply (turns_get _ _ _ _ _ k None Ht). }
    destruct (Hin k Hk) as (_ & q & HQ & [[HQ'' _]|[HQ'' _]]); [|congruence].
    rewrite (tn_trailers _ _ _ _ _ Ht k f Hn). assert (q' = delete fork q) as -> by congruence.
    apply lookup_delete_Some in Hq' as [_ Hq']. eapply Htr; [|done..]. by apply (turns_get _ _ _ _ _ k None Ht).
  - intros k q HQ. destruct (Hin k) as (_ & q' & HQ' & Hun); [apply Hks; by eexists|]. assert (q' = q) as -> by congruence.
    change (open_at bs0 k) with (open_at bs k) in Hun. destruct Hun as [[-> Hnot]|(-> & Hopen & Honly)]; [|done]. by split.
Qed.
End remove.
