(* ===== verification/BucketsOpen.v ===== *)
(** * Opening a queue that was closed

    [loadAllBuckets] reads the directory of a queue; what the queue holds is
    determined by the files alone, so that it survives [Close] and [Open]. *)

From S2P Require Import Prelude BTree Os Item Vlog Index IndexFile Options Bucket BucketPeek BucketPop BucketQueue.
From S2P Require Import BucketForks BucketOpen BucketCycle Names Buckets BucketsLoad BucketsSplit BucketsClose BucketsQueue.
From S2P Require Import BucketsPush BucketsSpec BucketsRead.

(** ** Reading directories *)

Lemma child_spec d p node name b : child d (p, node) = Some (name, b) ↔ p = Join d name ∧ b = bool_decide (node = NDir).
Proof.
  unfold child, Join. cbn [fst snd]. split.
  - case_decide as Hp; [|done]. destruct Hp as [Hne <-]. destruct p as [|x p _] using rev_ind; [done|].
    rewrite last_snoc, removelast_last. cbn. by intros [= <- <-].
  - intros [-> ->]. rewrite decide_True; [by rewrite last_snoc|]. rewrite removelast_last. split; [|done]. by destruct d.
Qed.

Lemma ReadDir_spec {St} (s : St) (d : path) os :
  os_fs os !! d = Some NDir → os_faults os = [] →
  ∃ ents, ReadDir d s os = (Ok ents, s, os) ∧ NoDup ents.*1 ∧
    ∀ name b, (name, b) ∈ ents ↔ ∃ node, os_fs os !! Join d name = Some node ∧ b = bool_decide (node = NDir).
Proof.
  intros Hd Hno. unfold ReadDir. sys_ok. rewrite Hd. eexists. split; [done|]. split.
  - rewrite merge_sort_Permutation. pose proof (NoDup_fst_map_to_list (os_fs os)) as Hnd.
    induction (map_to_list (os_fs os)) as [|[p node] kvs IH]; [constructor|]. cbn [fmap list_fmap fst] in Hnd.
    apply NoDup_cons in Hnd as [Hp Hnd]. specialize (IH Hnd). cbn [omap list_omap].
    destruct (child d (p, node)) as [[name b]|] eqn:Hc; [|done]. apply child_spec in Hc as [-> _]. cbn [fmap list_fmap fst].
    apply NoDup_cons. split; [|done]. intros ([name' b'] & [= <-] & Hin)%list_elem_of_fmap.
    apply list_elem_of_omap in Hin as ([p' node'] & Hin & [-> _]%child_spec). apply Hp. apply list_elem_of_fmap. by exists (Join d name, node').
  - intros name b. rewrite merge_sort_Permutation, list_elem_of_omap. split.
    + intros ([p node] & Hin & [-> ->]%child_spec). apply elem_of_map_to_list in Hin. by exists node.
    + intros (node & Hnode & ->). exists (Join d name, node). split; [by apply elem_of_map_to_list|by apply child_spec].
Qed.

(** What [ReadTrailer] finds in a file with these contents. *)
Definition file_trailer (data : list byte) : Trailer :=
  mkTrailer (if Z.of_nat (length data) <? LocationSize then 0
             else be_decode (drop (length data - Z.to_nat IdxTrailerSize) data)).

Lemma ReadTrailer_Ok {St} (s : St) (p : path) data os :
  os_fs os !! p = Some (NFile data) → os_faults os = [] → ReadTrailer p s os = (Ok (file_trailer data), s, os).
Proof.
  intros Hp Hno. unfold ReadTrailer, OpenRead, file_trailer. sys_ok. rewrite Hp. sys_ok. destruct (_ <? _); [done|].
  unfold attempt. by sys_ok.
Qed.

Lemma file_trailer_total recs : file_trailer (enc_recs recs) = mkTrailer (uint32 (total_after 0 recs)).
Proof.
  set (os := mkOS {[ [""] := NFile (enc_recs recs) ]} []).
  assert (os_fs os !! ([""] : path) = Some (NFile (enc_recs recs))) as Hf by apply lookup_singleton_eq.
  pose proof (ReadTrailer_Ok tt [""] (enc_recs recs) os Hf eq_refl) as Hok.
  rewrite (ReadTrailer_total tt [""] os recs) in Hok; [congruence|done|].
  unfold read_file. by rewrite Hf.
Qed.

(** The index file of the queue's own consumer. *)
Definition main_trailer (os : OS) (d : path) : Trailer := file_trailer (default [] (read_file os (Join d "idx.log"))).

(** [ReadTrailers] of a bucket without forks. *)
Lemma ReadTrailers_main {St} (s : St) (d : path) os (fn : ForkName → Trailer → M St unit) (f : St → St) :
  os_fs os !! d = Some NDir → os_faults os = [] →
  (∀ name node, os_fs os !! Join d name = Some node → name = "dat.log" ∨ name = "idx.log" ∧ ∃ data, node = NFile data) →
  is_Some (os_fs os !! Join d "idx.log") → (∀ s, fn "" (main_trailer os d) s os = (Ok tt, f s, os)) →
  ReadTrailers d fn s os = (Ok tt, f s, os).
Proof.
  intros Hd Hno Hnames [node Hidx] Hfn. unfold ReadTrailers. destruct (ReadDir_spec s d os Hd Hno) as (ents & Heq & Hnd & Hents).
  destruct (Hnames _ _ Hidx) as [|[_ [data ->]]]; [done|].
  assert (main_trailer os d = file_trailer data) as Htr by (unfold main_trailer, read_file; by rewrite Hidx).
  run. rewrite Heq. rewrite Htr in Hfn.
  assert (∀ s, each (λ ent : string * bool,
    if negb (HasSuffix ent.1 "idx.log") then mret tt
    else trailer ← ReadTrailer (Join d ent.1); fn (consumerName ent.1) trailer) ents s os =
      (Ok tt, if decide ("idx.log" ∈ ents.*1) then f s else s, os)) as Heach.
  2: { run in Heach. rewrite Heach, decide_True; [done|]. apply list_elem_of_fmap.
       exists ("idx.log", bool_decide (NFile data = NDir)). split; [done|]. apply Hents. by exists (NFile data). }
  assert (∀ name b, (name, b) ∈ ents → name = "dat.log" ∨ name = "idx.log") as Hin
    by (intros name b (node & Hnode & _)%Hents; destruct (Hnames _ _ Hnode) as [|[? _]]; auto).
  clear Heq Hents. induction ents as [|[name b] ents IH]; intros s'; cbn [each].
  { rewrite decide_False; [done|]. by intros ?%elem_of_nil. }
  cbn [fmap list_fmap fst] in *. apply NoDup_cons in Hnd as [Hnin Hnd].
  assert (∀ name b, (name, b) ∈ ents → name = "dat.log" ∨ name = "idx.log") as Hin'
    by (intros name' b' ?; apply (Hin name' b'); by right). specialize (IH Hnd Hin'). run in IH.
  destruct (Hin name b (list_elem_of_here _ _)) as [->| ->].
  - change (HasSuffix "dat.log" "idx.log") with false. run. rewrite IH. by repeat case_decide; set_solver.
  - change (HasSuffix "idx.log" "idx.log") with true. change (consumerName "idx.log") with "". run.
    rewrite (ReadTrailer_Ok _ _ data), Hfn, IH by done. rewrite decide_False by done. rewrite decide_True by by left. done.
Qed.

(** ** The loop over the buckets *)

Lemma Key_String_not_conf k : is_int64 k → Key_String k ≠ splitConfFile.
Proof. intros Hk Heq. pose proof (KeyFromString_holds k Hk) as Hs. by rewrite Heq in Hs. Qed.

Section load.
Context {T : Type → Type} `{BTreeLaws T} `{Host, Unix, !UnixLaws} `{MapRange, !MapRangeLaws}.
Implicit Types (bs : buckets T) (b : bucket T) (q : gmap ForkName Items) (Q : gmap Key (gmap ForkName Items)).
Implicit Types (d : loading (T := T)) (opts : Options) (dir : path).

(** An entry of the directory of a queue: a bucket without forks, or the name of
    the split function. *)
Definition entry_ok (os : OS) dir (ent : string * bool) : Prop :=
  (∃ k, is_int64 k ∧ ent = (Key_String k, true) ∧ os_fs os !! Join dir ent.1 = Some NDir ∧
     is_Some (os_fs os !! Join (Join dir ent.1) "idx.log") ∧
     ∀ name node, os_fs os !! Join (Join dir ent.1) name = Some node →
       name = "dat.log" ∨ name = "idx.log" ∧ ∃ data, node = NFile data) ∨ ent = (splitConfFile, false).

(** What the entries [ents] add to the variables of the loop. *)
Record loaded (os : OS) dir (ents : list (string * bool)) d d' : Prop := {
  lo_count : ld_dirsHandled d' + ld_expectedFiles d' = ld_dirsHandled d + ld_expectedFiles d + Z.of_nat (length ents);
  lo_tree : ∀ k : Key, is_int64 k →
    bt_get k (ld_tree d') = if decide ((Key_String k, true) ∈ ents) then Some None else bt_get k (ld_tree d);
  lo_int : ∀ k : Key, is_Some (bt_get k (ld_tree d')) → is_int64 k ∨ is_Some (bt_get k (ld_tree d));
  lo_trailers : ∀ k : Key, is_int64 k →
    ld_trailers d' !! (k, "") = if decide ((Key_String k, true) ∈ ents) then Some (main_trailer os (Join dir (Key_String k)))
                                else ld_trailers d !! (k, "");
}.

Lemma loaded_nil os dir d : loaded os dir [] d d.
Proof. split; [cbn; lia|..|auto|]; intros k _; (rewrite decide_False; [done|by intros ?%elem_of_nil]). Qed.

Lemma loaded_app os dir es es' d d1 d' : loaded os dir es d d1 → loaded os dir es' d1 d' → loaded os dir (es ++ es') d d'.
Proof.
  intros [Hn Ht Hi Htr] [Hn' Ht' Hi' Htr']. split.
  - rewrite length_app. lia.
  - intros k Hk. rewrite Ht', Ht by done. repeat case_decide; set_solver.
  - intros k [?|?]%Hi'; auto.
  - intros k Hk. rewrite Htr', Htr by done. repeat case_decide; set_solver.
Qed.

Lemma load_entry_ok dir opts ent d os :
  entry_ok os dir ent → os_faults os = [] →
  ∃ d', load_entry dir opts ent d os = (Ok tt, d', os) ∧ loaded os dir [ent] d d'.
Proof.
  intros [(k & Hk & -> & Hd & Hidx & Hnames)| ->] Hno; unfold load_entry; cbn [fst snd negb] in *.
  - pose proof (Key_String_not_conf k Hk). rewrite (decide_False (P := Key_String k = splitConfFile)) by done. unfold attempt. run.
    unfold Join at 1. rewrite last_snoc. cbn [default from_option id]. rewrite KeyFromString_holds by done.
    set (t := main_trailer os (Join dir (Key_String k))).
    rewrite (ReadTrailers_main _ _ os (load_trailer k) (λ d, mkLoading (ld_expectedFiles d) (ld_dirsHandled d) (ld_tree d)
      (<[(k, "") := t]> (ld_trailers d)))); try done.
    eexists. split; [done|]. cbn [ld_dirsHandled ld_expectedFiles ld_tree ld_trailers].
    assert (∀ k', is_int64 k' → (Key_String k', true) ∈ [(Key_String k, true)] ↔ k = k') as Hone.
    { intros k' Hk'. rewrite list_elem_of_singleton. split; [|by intros ->]. intros Heq'%(f_equal fst). by apply Key_String_inj. }
    split; cbn [ld_dirsHandled ld_expectedFiles ld_tree ld_trailers length]; [lia|..].
    + intros k' Hk'. rewrite bt_get_set. specialize (Hone k' Hk'). by repeat case_decide; try tauto.
    + intros k'. rewrite bt_get_set. destruct (decide (k = k')) as [<-|]; auto.
    + intros k' Hk'. specialize (Hone k' Hk'). destruct (decide (k = k')) as [<-|Hne].
      * by rewrite lookup_insert_eq, decide_True by (by apply Hone).
      * rewrite lookup_insert_ne, decide_False by (tauto || congruence). done.
  - rewrite decide_True by done. run. eexists. split; [done|].
    split; cbn [ld_dirsHandled ld_expectedFiles ld_tree ld_trailers length]; [lia|..|by right|]; intros k _;
      (rewrite decide_False; [done|]; by intros ?%list_elem_of_singleton).
Qed.

Lemma load_entries dir opts ents d os :
  Forall (entry_ok os dir) ents → os_faults os = [] →
  ∃ d', each (load_entry dir opts) ents d os = (Ok tt, d', os) ∧ loaded os dir ents d d'.
Proof.
  intros Hents Hno. revert d. induction Hents as [|ent ents Hent _ IH]; intros d; cbn [each].
  - exists d. split; [done|apply loaded_nil].
  - destruct (load_entry_ok dir opts ent d os Hent Hno) as (d1 & Heq & Hl). run. rewrite Heq.
    destruct (IH d1) as (d' & -> & Hl'). exists d'. split; [done|]. by apply (loaded_app _ _ [ent] ents _ d1).
Qed.

(** The files of a closed bucket say how many items the queue's own consumer has. *)
Lemma main_trailer_parked c os dir q its :
  parked c os dir q → cap_told c = true → q !! "" = Some its → main_trailer os dir = mkTrailer (Z.of_nat (length its)).
Proof.
  intros [[_ _ (l & all & _ & _ & _ & _ & Hst) _] Hfiles] Ht Hq. specialize (Hst "" its Hq). rewrite Ht in Hst.
  destruct (Hfiles "") as [data Hdata]; [by eexists|]. unfold main_trailer. change (Join dir "idx.log") with (idxPath dir "").
  destruct Hst as [recs j its' [Hf _ _] _ _ _ Hlen Htold|recs [Hf _ _] _ Hrv Htold Hall|recs tail _ _ _ _ ?|Hmiss _ _];
    [| |done|congruence]; rewrite Hf; cbn [default from_option id];
    rewrite file_trailer_total, (Htold eq_refl), uint32_id; try done; [lia|].
  rewrite Hall by done. done.
Qed.

(** ** A queue on disk *)

(** The files below [dir] hold the queue [Q], which has no forks. *)
Record stored (c : cap) dir opts (os : OS) Q : Prop := {
  st_keys : ∀ k, is_int64 k →
    match Q !! k with
    | Some q => parked c os (Join dir (Key_String k)) q ∧ ∀ f, f ∈ [""] ↔ is_Some (q !! f)
    | None => os_fs os !! Join dir (Key_String k) = None ∧ ∀ name, os_fs os !! Join (Join dir (Key_String k)) name = None
    end;
  st_int : ∀ k, is_Some (Q !! k) → is_int64 k;
  st_dir : ∀ d : path, d `prefix_of` dir → d ≠ [] → os_fs os !! d = Some NDir;
  st_names : ∀ name node, os_fs os !! Join dir name = Some node →
    (∃ k, is_int64 k ∧ name = Key_String k) ∨ name = splitConfFile ∧ node = conf_node opts;
}.

(** What is on disk while the queue is open. *)
Lemma queue_ok_stored c bs os Q : queue_ok c bs os Q → bs_forks bs = [] → stored c (bs_dir bs) (bs_opts bs) os Q.
Proof.
  intros [Hkeys Hint Hap Hforks Hdir Hnames] Hno. split; try done; [|intros k Hk; apply Hint; by right].
  intros k Hk. specialize (Hkeys k Hk). unfold key_ok, dom_forks in Hkeys. rewrite Hno in Hkeys.
  destruct (bt_get k (bs_tree bs)) as [v|], (Q !! k) as [q|]; try done. destruct Hkeys as [Hat Hdom]. split; [|done].
  destruct v as [p|]; [|done]. destruct Hat as (b & all & Hb & Hdu & Hd & _). fold (buckPath bs k). rewrite <- Hd.
  by eapply durable_parked.
Qed.

(** A list of buckets none of which is open. *)
Lemma stored_queue_ok c dir opts os Q t m :
  stored c dir opts os Q → (∀ k, bt_get k t = (λ _, None) <$> Q !! k) → queue_ok c (mkBuckets dir t [] m opts []) os Q.
Proof.
  intros [Hkeys Hint Hdir Hnames] Ht. split; cbn [bs_tree bs_forks bs_dir]; try done.
  - intros k Hk. specialize (Hkeys k Hk). rewrite Ht. destruct (Q !! k); exact Hkeys.
  - intros k. rewrite Ht, fmap_is_Some. intros [?|?]; by apply Hint.
  - intros k k' p. rewrite Ht. by destruct (Q !! k).
  - apply NoDup_singleton.
Qed.

(** ** [loadAllBuckets] *)

Lemma Forks_none b os q : bucket_ok b os q → (∀ f, f ∈ [""] ↔ is_Some (q !! f)) → Forks b = [].
Proof.
  intros Hok Hdom. pose proof (Forks_NoDup b) as Hnd.
  assert (∀ f, f ∈ Forks b → f = "") as Hall.
  { intros f Hf. apply list_elem_of_singleton, Hdom, (Forks_dom b os q f Hok); [apply Hdom; by left|set_solver]. }
  destruct (Forks b) as [|f fs]; [done|]. specialize (Hall f (list_elem_of_here _ _)) as ->.
  apply NoDup_cons in Hnd as [Hnin _]. exfalso. apply Hnin. set_solver.
Qed.

Lemma fetchForks_ok c bs os Q :
  queue_ok c bs os Q → bs_forks bs = [] → (∀ k p, bt_get k (bs_tree bs) ≠ Some (Some p)) → cap_ok c → os_faults os = [] →
  ∃ bs' os', fetchForks bs os = (Ok [], bs', os') ∧ queue_ok c bs' os' Q ∧ same_list bs bs' ∧ os_faults os' = [] ∧
    (trailers_ok bs Q → trailers_ok bs' Q).
Proof.
  intros Hok Hfs Hclosed Hc Hno. unfold fetchForks. run.
  assert (default None (last (bt_items (bs_tree bs)).*2) = None) as ->.
  { destruct (last (bt_items (bs_tree bs)).*2) as [[p|]|] eqn:Hl; [|done..]. exfalso.
    apply last_Some_elem_of, list_elem_of_fmap in Hl as ([k v] & ? & Hin%bt_items_get). by eapply Hclosed; simplify_eq/=. }
  destruct (bt_keys (bs_tree bs)) as [|k ks] eqn:Hks.
  { exists bs, os. by split_and!. }
  assert (is_Some (Q !! (k : Key))) as [q HQ] by (apply (queue_ok_keys _ _ _ _ k Hok); rewrite Hks; by left).
  destruct (queue_ok_lookup _ _ _ _ _ _ Hok HQ) as (v & _ & _ & _ & Hk).
  destruct (forKey_ok c bs os Q k Hok Hc Hk Hno) as (p & bs1 & os1 & Hfor & Hok1 & Hp & Hsame & Hno1 & Htr).
  rewrite (with_bucket_Some _ _ _ _ HQ) in Hok1, Htr. rewrite Hfor.
  destruct (queue_ok_open _ _ _ _ _ _ Hok1 Hp) as (b & q' & all & Hb & _ & Hdu & _ & _ & Hdom & _).
  unfold deref. run. rewrite Hb. cbn [of_option]. exists bs1, os1.
  unfold dom_forks in Hdom. rewrite (sl_forks _ _ Hsame), Hfs in Hdom.
  rewrite (Forks_none b os1 q') by (done || by destruct Hdu). by split_and!.
Qed.

(** The files of a bucket without forks. *)
Lemma parked_names c os (dir : path) q name node :
  parked c os dir q → (∀ f, f ∈ [""] ↔ is_Some (q !! f)) → os_fs os !! Join dir name = Some node →
  name = "dat.log" ∨ name = "idx.log" ∧ ∃ data, node = NFile data.
Proof.
  intros [[_ _ _ [Hnames Hdata]] _] Hdom Hn. destruct (Hnames name (mk_is_Some _ _ Hn)) as [?|(f & Hf & Heq)]; [by left|right].
  apply Hdom, list_elem_of_singleton in Hf as ->. unfold idxPath, Join in Heq. apply app_inj_2 in Heq as [_ [= ->]]; [|done].
  split; [done|]. destruct node as [data|]; [by exists data|by destruct (Hdata "idx.log")].
Qed.

Lemma stored_entry c dir opts os Q name node :
  stored c dir opts os Q → os_fs os !! Join dir name = Some node → entry_ok os dir (name, bool_decide (node = NDir)).
Proof.
  intros [Hkeys _ _ Hnames] Hnode. destruct (Hnames name node Hnode) as [(k & Hk & ->)|[-> ->]].
  - left. exists k. specialize (Hkeys k Hk). destruct (Q !! k) as [q|]; [|destruct Hkeys; congruence].
    destruct Hkeys as [Hpark Hdom]. pose proof Hpark as [[Hd _ _ _] Hfiles]. assert (node = NDir) as -> by congruence.
    assert (is_Some (q !! "")) as Hmain by by apply Hdom, list_elem_of_singleton.
    split; [done|]. split; [done|]. split; [done|]. split; [destruct (Hfiles "" Hmain) as [data Hf]; by eexists|].
    intros name' node'. by eapply parked_names.
  - by right.
Qed.

Lemma stored_key c dir opts os Q k :
  stored c dir opts os Q → is_int64 k → is_Some (Q !! k) ↔ os_fs os !! Join dir (Key_String k) = Some NDir.
Proof.
  intros [Hkeys _ _ _] Hk. specialize (Hkeys k Hk). destruct (Q !! k) as [q|].
  - destruct Hkeys as [[[Hd _ _ _] _] _]. split; [done|by eexists].
  - destruct Hkeys as [-> _]. split; [by intros []|done].
Qed.

Lemma stored_lookup c dir opts os Q k q :
  stored c dir opts os Q → Q !! k = Some q →
  is_int64 k ∧ parked c os (Join dir (Key_String k)) q ∧ ∀ f, f ∈ [""] ↔ is_Some (q !! f).
Proof.
  intros Hst HQ. assert (is_int64 k) as Hk by (apply (st_int _ _ _ _ _ Hst); by eexists). split; [done|].
  pose proof (st_keys _ _ _ _ _ Hst k Hk) as Hkey. unfold Key in HQ, Hkey. by rewrite HQ in Hkey.
Qed.

Lemma stored_loaded c dir opts os Q ents d :
  stored c dir opts os Q →
  (∀ name (isDir : bool), (name, isDir) ∈ ents ↔ ∃ node, os_fs os !! Join dir name = Some node ∧ isDir = bool_decide (node = NDir)) →
  loaded os dir ents (mkLoading 0 0 bt_empty ∅) d →
  (∀ k, bt_get k (ld_tree d) = (λ _, None) <$> Q !! k) ∧
  ∀ k q its, cap_told c = true → Q !! k = Some q → q !! "" = Some its →
    ld_trailers d !! (k : Key, "") = Some (mkTrailer (Z.of_nat (length its))).
Proof.
  intros Hst Hents [_ Hkeys Hints Htr]. cbn [ld_dirsHandled ld_expectedFiles ld_tree ld_trailers] in *.
  assert (∀ k, is_int64 k → (Key_String k, true) ∈ ents ↔ is_Some (Q !! k)) as Hents'.
  { intros k Hk. rewrite Hents, (stored_key c dir opts os Q k Hst Hk). split; [|intros ?; by exists NDir].
    intros (node & ? & Hb). symmetry in Hb. apply bool_decide_eq_true in Hb. congruence. }
  assert (∀ k, is_Some (Q !! k) → is_int64 k) as Hint by apply (st_int _ _ _ _ _ Hst). split.
  - intros k. destruct (decide (is_int64 k)) as [Hk|Hk].
    + rewrite Hkeys, bt_get_empty by done. case_decide as Hx; rewrite Hents' in Hx by done.
      * by destruct Hx as [q ->].
      * destruct (Q !! k); [|done]. by destruct Hx.
    + destruct (Q !! k) eqn:HQ; [destruct Hk; apply Hint; by eexists|]. destruct (bt_get k (ld_tree d)) eqn:Hg; [|done].
      destruct (Hints k) as [?|[? Hx]]; [by eexists|done|]. by rewrite bt_get_empty in Hx.
  - intros k q its Ht HQ Hq. destruct (stored_lookup _ _ _ _ _ _ _ Hst HQ) as (Hk & Hoff & _). rewrite Htr by done.
    rewrite decide_True by (apply Hents'; [done|by eexists]). f_equal. by eapply main_trailer_parked.
Qed.

Lemma loadAllBuckets_ok {St} (s : St) c dir opts os Q :
  stored c dir opts os Q → dir ≠ [] → cap_ok c → os_faults os = [] →
  ∃ bs os', loadAllBuckets dir opts s os = (Ok bs, s, os') ∧ queue_ok c bs os' Q ∧
    bs_dir bs = dir ∧ bs_opts bs = opts ∧ bs_forks bs = [] ∧ os_faults os' = [] ∧
    (cap_told c = true → trailers_ok bs Q).
Proof.
  intros Hst Hne Hc Hno. assert (os_fs os !! dir = Some NDir) as Hd by by apply (st_dir _ _ _ _ _ Hst).
  destruct (ReadDir_spec s dir os Hd Hno) as (ents & Hread & _ & Hents).
  destruct (load_entries dir opts ents (mkLoading 0 0 bt_empty ∅) os) as (d & Heach & Hlo); [|done|].
  { apply Forall_forall. intros [name b] (node & Hnode & ->)%Hents. by eapply stored_entry. }
  pose proof (lo_count _ _ _ _ _ Hlo) as Hn. cbn [ld_dirsHandled ld_expectedFiles] in Hn.
  destruct (stored_loaded c dir opts os Q ents d Hst Hents Hlo) as [Htree Htr].
  set (bs0 := mkBuckets dir (ld_tree d) [] (ld_trailers d) opts []).
  pose proof (stored_queue_ok c dir opts os Q (ld_tree d) (ld_trailers d) Hst Htree) as Hok0. fold bs0 in Hok0.
  destruct (fetchForks_ok c bs0 os Q Hok0) as (bs1 & os1 & Hfetch & Hok1 & Hsame & Hno1 & Htr1); try done.
  { intros k p. cbn. rewrite Htree. by destruct (Q !! k). }
  destruct Hsame as [Hs1 Hs2 Hs3]. exists (set_forks [] bs1), os1.
  assert (set_forks [] bs1 = bs1) as -> by (destruct bs1; cbn in *; by subst).
  split; [|split_and!; try done].
  - unfold loadAllBuckets, wrap_err, with_local. run. rewrite MkdirAll_existing by done. rewrite Hread, Heach.
    assert ((if ld_dirsHandled d =? 0 then ld_expectedFiles d <? Z.of_nat (length ents) else false) = false) as ->
      by (destruct (Z.eqb_spec (ld_dirsHandled d) 0); lia).
    run. fold bs0. rewrite Hfetch. by destruct bs1; cbn in *; subst.
  - intros Ht. apply Htr1. intros k q f its _ HQ Hf. cbn [bs_trailers bs0].
    destruct (stored_lookup _ _ _ _ _ _ _ Hst HQ) as (_ & _ & Hdom). assert (f = "") as -> by (apply list_elem_of_singleton, Hdom; by eexists). by eapply Htr.
Qed.

(** ** Closing a queue *)

Definition close_loaded (_ : Key) (buck : option nat) : M (buckets T) bool :=
  match buck with
  | Some p => on_bucket p BClose ;; mret true
  | None => mret true
  end.

Lemma BsClose_loop (ks : list Z) bs os :
  NoDup ks → os_faults os = [] →
  (∀ k p, k ∈ ks → bt_get k (bs_tree bs) = Some (Some p) → ∃ b q, bs_heap bs !! p = Some b ∧ bucket_ok b os q) →
  (∀ k k' p, bt_get k (bs_tree bs) = Some (Some p) → bt_get k' (bs_tree bs) = Some (Some p) → k = k') →
  ∃ bs', iter_keys (λ bs, bs) (λ bs _, bs) loadedOnly close_loaded ks bs os = (Ok tt, bs', os) ∧ same_list bs bs'.
Proof.
  intros Hnd Hno. revert bs. induction Hnd as [|k ks Hk Hnd IH]; intros bs Hopen Hap; cbn [iter_keys]; [by exists bs|]. run.
  destruct (bt_get k (bs_tree bs)) as [[p|]|] eqn:Hp; cbn beta iota;
    [|apply IH; [intros k' p Hk'; apply Hopen; by right|done]..].
  destruct (Hopen k p (list_elem_of_here _ _) Hp) as (b & q & Hb & Hok).
  destruct (BClose_spec b os q Hok Hno) as (b' & Hclose).
  assert (close_loaded k (Some p) bs os = (Ok true, put_bucket p b' bs, os)) as ->
    by (unfold close_loaded, on_bucket, deref; run; rewrite Hb; cbn [of_option]; by rewrite Hclose).
  destruct (IH (put_bucket p b' bs)) as (bs' & -> & Hsame); [|done|by exists bs'; split; [done|etrans; [|exact Hsame]]].
  intros k' p' Hk' Hp'. destruct (Hopen k' p' ltac:(by right) Hp') as (b0 & q0 & Hb0 & Hok0). exists b0, q0. split; [|done].
  cbn. rewrite list_lookup_insert_ne; [done|]. intros ->. apply Hk. by rewrite (Hap k k' p' Hp Hp').
Qed.

Lemma BsClose_ok c bs os Q :
  queue_ok c bs os Q → os_faults os = [] → ∃ bs', BsClose bs os = (Ok tt, bs', os) ∧ same_list bs bs'.
Proof.
  intros Hok Hno. unfold BsClose, iter. cbn [mbind M_bind get]. apply BsClose_loop; [apply bt_keys_NoDup|done| |apply (qo_apart _ _ _ _ Hok)].
  intros k p _ Hp. destruct (queue_ok_open _ _ _ _ _ _ Hok Hp) as (b & q & all & Hb & _ & [] & _). by exists b, q.
Qed.
End load.

(** ** The name of the split function *)

Section open.
Context {T : Type → Type} `{BTreeLaws T} `{Host, Unix, !UnixLaws} `{MapRange, !MapRangeLaws} `{RenameIO, !RenameIOLaws}.
Implicit Types (bs : buckets T) (b : bucket T) (q : gmap ForkName Items) (Q : gmap Key (gmap ForkName Items)).
Implicit Types (opts : Options) (dir : path).

Lemma conf_path_apart bs k p :
  is_int64 k → bucket_files (buckPath bs k) p ∨ p `prefix_of` buckPath bs k → p ≠ Join (bs_dir bs) splitConfFile.
Proof.
  intros Hk Hp ->. destruct Hp as [[Heq|[name Heq]]|[r Heq]]; unfold buckPath, Join in Heq.
  - apply app_inj_2 in Heq as [_ Heq]; [|done]. injection Heq as Heq. by apply (Key_String_not_conf k Hk).
  - apply (f_equal length) in Heq. rewrite !length_app in Heq. cbn in Heq. lia.
  - pose proof (f_equal length Heq) as Hl. rewrite !length_app in Hl. cbn in Hl. destruct r; [|cbn in Hl; lia].
    rewrite app_nil_r in Heq. apply app_inj_2 in Heq as [_ Heq]; [|done]. injection Heq as Heq.
    by apply (Key_String_not_conf k Hk).
Qed.

(** Writing the name does not touch the buckets. *)
Lemma queue_ok_conf c bs os Q :
  queue_ok c bs os Q →
  queue_ok c bs (set_fs (<[Join (bs_dir bs) splitConfFile := conf_node (bs_opts bs)]> (os_fs os)) os) Q.
Proof.
  intros [Hkeys Hint Hap Hforks Hdir Hnames]. set (os' := set_fs _ os).
  assert (∀ k, is_int64 k → same_bucket (buckPath bs k) os os') as Hframe.
  { intros k Hk p Hp. cbn. apply lookup_insert_ne. apply not_eq_sym. by eapply conf_path_apart. }
  split; try done.
  - intros k Hk. specialize (Hkeys k Hk). specialize (Hframe k Hk). unfold key_ok, bucket_at, vacant in *.
    destruct (bt_get k (bs_tree bs)) as [[p|]|], (Q !! k) as [q|]; try done.
    + destruct Hkeys as [(b & all & Hb & Hdu & Hd & Hbk) Hdom]. split; [|done]. exists b, all.
      split; [done|]. split; [|done]. eapply durable_frame; [|done]. by rewrite Hd.
    + destruct Hkeys as [Hoff Hdom]. split; [|done]. by eapply parked_frame.
    + destruct Hkeys as [Hd Hn]. split; [rewrite Hframe; [done|left; by left]|].
      intros name. rewrite Hframe; [done|left; right; by eexists].
  - intros d Hd Hne. cbn. rewrite lookup_insert_ne; [by apply Hdir|]. intros <-. apply prefix_length in Hd.
    unfold Join in Hd. rewrite length_app in Hd. cbn in Hd. lia.
  - intros name node Hnode. cbn in Hnode. apply lookup_insert_Some in Hnode as [[Heq <-]|[_ Hnode]]; [|by apply Hnames].
    right. split; [|done]. unfold Join in Heq. apply app_inj_2 in Heq as [_ Heq]; [|done]. congruence.
Qed.

(** The answer of [ValidateBucketKeys] if the bucket keys are [ks]. *)
Definition keys_checked (fn : Key → Key) (ks : list Key) : res unit :=
  if forallb (λ k, fn k =? k) ks then Ok tt else Err (EWrap "bucket key" EChangedSplitFunc).

Lemma each_keys (fn : Key → Key) (conf : BucketSplitConf) (ks : list Key) bs os :
  sc_Func conf = Some fn →
  each (λ ik,
    fn ← lift (of_option (sc_Func conf));
    if fn ik =? ik then mret tt else fail (EWrap "bucket key" EChangedSplitFunc)) ks bs os = (keys_checked fn ks, bs, os).
Proof.
  intros Hfn. unfold keys_checked. induction ks as [|k ks IH]; cbn [each forallb]; [done|]. run. rewrite Hfn. cbn [of_option].
  rewrite Hfn in IH. run in IH. destruct (Z.eqb_spec (fn k) k); cbn [andb]; [apply IH|done].
Qed.

Lemma keys_checked_ok fn (ks : list Key) : (∀ k, k ∈ ks → fn k = k) → keys_checked fn ks = Ok tt.
Proof.
  intros Hks. unfold keys_checked. assert (forallb (λ k, fn k =? k) ks = true) as ->; [|done].
  apply forallb_forall. intros k Hk%list_elem_of_In. apply Z.eqb_eq. by apply Hks.
Qed.

Lemma keys_checked_bad fn (ks : list Key) (k : Key) :
  k ∈ ks → fn k ≠ k → keys_checked fn ks = Err (EWrap "bucket key" EChangedSplitFunc).
Proof.
  intros Hk Hne. unfold keys_checked. destruct (forallb _ ks) eqn:Hall; [|done]. rewrite forallb_forall in Hall.
  apply list_elem_of_In, Hall, Z.eqb_eq in Hk. done.
Qed.

Lemma ValidateBucketKeys_ok c bs os Q fn :
  queue_ok c bs os Q → bs_dir bs ≠ [] → sc_Func (opt_BucketSplitConf (bs_opts bs)) = Some fn →
  TrimSpace (String.list_byte_of_string (sc_Name (opt_BucketSplitConf (bs_opts bs)))) =
    String.list_byte_of_string (sc_Name (opt_BucketSplitConf (bs_opts bs))) → os_faults os = [] →
  ∃ os', ValidateBucketKeys (opt_BucketSplitConf (bs_opts bs)) bs os = (keys_checked fn (bt_keys (bs_tree bs)), bs, os') ∧
    queue_ok c bs os' Q ∧ os_faults os' = [].
Proof.
  intros Hok Hne Hfn Htrim Hno. set (conf := opt_BucketSplitConf (bs_opts bs)) in *.
  pose proof (each_keys fn conf (bt_keys (bs_tree bs)) bs) as Heach.
  assert (os_fs os !! bs_dir bs = Some NDir) as Hd by (by apply (qo_dir _ _ _ _ Hok)).
  destruct (os_fs os !! Join (bs_dir bs) splitConfFile) as [node|] eqn:Hnode.
  - assert (node = conf_node (bs_opts bs)) as ->.
    { destruct (qo_names _ _ _ _ Hok _ _ Hnode) as [(k & Hk & Heq)|[_ ?]]; [|done]. symmetry in Heq.
      by apply Key_String_not_conf in Heq. }
    exists os. split; [|done]. unfold ValidateBucketKeys, attempt, ReadFile, OpenRead. fold conf. run. sys_ok.
    rewrite Hnode. unfold conf_node. fold conf. sys_ok. rewrite Htrim, decide_True by done. run. by rewrite Heach.
  - exists (set_fs (<[Join (bs_dir bs) splitConfFile := conf_node (bs_opts bs)]> (os_fs os)) os).
    split; [|split; [by apply queue_ok_conf|done]].
    unfold ValidateBucketKeys, attempt, ReadFile, OpenRead, call_os. fold conf. run. sys_ok. rewrite Hnode. run.
    rewrite WriteFile_replaces; [|done|by apply Join_parent|by rewrite Hnode]. by rewrite Heach.
Qed.
End open.
