(* ===== verification/BucketsShovel.v ===== *)
(** * Moving the items of a queue

    [moveFileOrDir] of util.go and [Shovel] of buckets.go. *)

From S2P Require Import Prelude BTree Os Item Vlog Index IndexFile Options Bucket BucketOpen Names Buckets.
From S2P Require Import BucketsLoad.

(** Which paths are on one device; a rename across devices is the error EXDEV. *)
Class Devices := {
  same_device : path → path → bool;
}.

Definition EXDEV : error := EIO "rename: cross-device link".

Section move.
Context `{Devices, CopyPkg}.

(** The tree below [src] at its new place. *)
Definition moved_to (src dst p : path) : path :=
  if decide (src `prefix_of` p) then dst ++ drop (length src) p else p.

Definition move_tree (src dst : path) (fs : gmap path node) : gmap path node :=
  let rest := filter (λ kv : path * node, ¬ src `prefix_of` kv.1 ∧ ¬ dst `prefix_of` kv.1) fs in
  list_to_map ((λ kv : path * node, (moved_to src dst kv.1, kv.2)) <$>
                 map_to_list (filter (λ kv : path * node, src `prefix_of` kv.1) fs)) ∪ rest.

(** [os.Rename]: a directory is never replaced, which Go finds out before the
    system call; a file is replaced by a file only. *)
Definition Rename {St} (src dst : path) : M St unit :=
  sys "rename" ;;
  os ← get_os;
  match os_fs os !! src, os_fs os !! dst with
  | None, Some NDir => fail ENotExist
  | Some _, Some NDir => fail (EIO "rename: file exists")
  | from, to =>
      if negb (same_device src dst) then fail EXDEV
      else
        match from, to with
        | None, _ => fail ENotExist
        | Some NDir, Some (NFile _) => fail (EIO "rename: not a directory")
        | _, _ =>
            if parent_exists os dst then modify_os (set_fs (move_tree src dst (os_fs os))) else fail ENotExist
        end
  end.

(** [os.RemoveAll] *)
Definition RemoveAll {St} (p : path) : M St unit :=
  sys "remove" ;;
  modify_os (λ os, set_fs (filter (λ kv : path * node, ¬ p `prefix_of` kv.1) (os_fs os)) os).

Definition moveFileOrDir {St} (src dst : path) : M St unit :=
  r ← attempt (Rename src dst);
  match r with
  | inr _ => mret tt
  | inl e =>
      if decide (e = EXDEV) then call_os (copy_Copy src dst) ;; RemoveAll src
      else fail e
  end.
End move.

Section shovel.
Context {T : Type → Type} `{BTree T} `{Host, Unix, MapRange, SortFunc, CopyPkg, Devices}.

(** The queue that is emptied, the queue that is filled, and [ntotalcopied]. *)
Record shovel := mkShovel {
  sh_src : buckets T;
  sh_dst : buckets T;
  sh_n : Z;
}.

Definition set_src (bs : buckets T) (s : shovel) : shovel := mkShovel bs (sh_dst s) (sh_n s).

Definition set_dst (bs : buckets T) (s : shovel) : shovel := mkShovel (sh_src s) bs (sh_n s).

Definition add_n (n : Z) : M shovel unit :=
  modify (λ s, mkShovel (sh_src s) (sh_dst s) (int64 (sh_n s + n))).

(** A bucket that the destination does not have: its directory is moved. *)
Definition shovel_move (fork : ForkName) (key : Key) : M shovel unit :=
  s ← get;
  let dstPath := buckPath (sh_dst s) key in
  let srcPath := buckPath (sh_src s) key in
  zoom sh_dst set_dst (tree_set key None) ;;
  ReadTrailers srcPath (λ srcfork trailer,
    (if decide (fork = srcfork) then add_n (int64 (TotalEntries trailer)) else mret tt) ;;
    zoom sh_dst set_dst (modify (λ bs, set_trailers (<[(key, srcfork) := trailer]> (bs_trailers bs)) bs))) ;;
  moveFileOrDir srcPath dstPath.

(** A bucket that both have: its items are pushed to that of the destination. *)
Definition shovel_copy (fork : ForkName) (key : Key) : M shovel unit :=
  srcBuck ← zoom sh_src set_src (forKey key);
  dstBuck ← zoom sh_dst set_dst (forKey key);
  s ← get;
  b ← lift (of_option (bs_heap (sh_src s) !! srcBuck));
  BRead (λ s, default b (bs_heap (sh_src s) !! srcBuck)) (λ b s, set_src (put_bucket srcBuck b (sh_src s)) s)
    maxInt fork (λ items,
      zoom sh_dst set_dst (on_bucket dstBuck (BPush items true fork)) ;;
      add_n (Z.of_nat (length items)) ;;
      mret ReadOpPop).

Definition shovel_bucket (fork : ForkName) (key : Key) : M shovel bool :=
  s ← get;
  (match bt_get key (bs_tree (sh_dst s)) with
   | None => shovel_move fork key
   | Some _ => shovel_copy fork key
   end) ;;
  mret true.

(** The number of items and the error, which Go returns together.  The two queues
    are different: with one queue the mutex would be locked twice. *)
Definition BsShovel (fork : ForkName) : M shovel (Z * option error) :=
  modify (λ s, mkShovel (sh_src s) (sh_dst s) 0) ;;
  r ← attempt (iter sh_src set_src includeNil (λ key _, shovel_bucket fork key));
  s ← get;
  match r with
  | inl e => mret (sh_n s, Some e)
  | inr _ =>
      r ← attempt (zoom sh_src set_src clear);
      mret (sh_n s, err_of r)
  end.
End shovel.

(** One device. *)
Definition Devices_one : Devices := {| same_device _ _ := true |}.
