(* ===== verification/BucketsMove.v ===== *)
(** * Buckets that are moved to another queue

    What a move does to the files of a bucket, and the list of buckets that some
    were moved away from: it still has them, until it is cleared. *)

From S2P Require Import Prelude BTree Os Item Vlog Index IndexFile Options Bucket BucketPeek BucketPop BucketQueue.
From S2P Require Import BucketForks BucketOpen BucketCycle Names Buckets BucketsLoad BucketsSplit BucketsClose BucketsQueue BucketsPush.
From S2P Require Import BucketsSpec BucketsRead BucketsOpen BucketsShovel.

(** [copy.Copy] of a directory copies what is below it, over what is there. *)
Class CopyTreeLaws `{CopyPkg} : Prop := {
  copy_dir : ∀ (src dst : path) os,
    os_faults os = [] → os_fs os !! src = Some NDir → os_fs os !! dst = None → parent_exists os dst = true →
    ¬ src `prefix_of` dst → ¬ dst `prefix_of` src →
    ∃ os', copy_Copy src dst os = (Ok tt, os') ∧ os_faults os' = [] ∧
      (∀ r : path, os_fs os' !! (dst ++ r) = match os_fs os !! (src ++ r) with Some n => Some n | None => os_fs os !! (dst ++ r) end) ∧
      ∀ p : path, ¬ dst `prefix_of` p → os_fs os' !! p = os_fs os !! p;
}.

(** ** Moving a directory *)

(** The part of the file system below [src], at its new place. *)
Definition grafted (src dst : path) (fs : gmap path node) : gmap path node :=
  list_to_map ((λ kv : path * node, (moved_to src dst kv.1, kv.2)) <$>
                 map_to_list (filter (λ kv : path * node, src `prefix_of` kv.1) fs)).

Lemma moved_to_app src dst r : moved_to src dst (src ++ r) = dst ++ r.
Proof. unfold moved_to. rewrite decide_True by by eexists. by rewrite drop_app_length. Qed.

Lemma grafted_lookup (src dst r : path) fs : grafted src dst fs !! (dst ++ r) = fs !! (src ++ r).
Proof.
  apply option_eq. intros n. unfold grafted. rewrite <- elem_of_list_to_map.
  - rewrite list_elem_of_fmap. split.
    + intros ([p n'] & [= Hp ->] & [Hn [r' Hr]]%elem_of_map_to_list%map_lookup_filter_Some). cbn [fst snd] in *. subst p.
      rewrite moved_to_app in Hp. by apply app_inv_head in Hp as ->.
    + intros Hn. exists (src ++ r, n). cbn [fst snd]. rewrite moved_to_app. split; [done|].
      apply elem_of_map_to_list, map_lookup_filter_Some. split; [done|]. by eexists.
  - rewrite <- list_fmap_compose. apply NoDup_fmap_2_strong; [|apply NoDup_map_to_list].
    intros [p1 n1] [p2 n2] Hp1 Hp2 Heq. cbn in Heq.
    apply elem_of_map_to_list, map_lookup_filter_Some in Hp1 as [Hn1 [r1 Hr1]].
    apply elem_of_map_to_list, map_lookup_filter_Some in Hp2 as [Hn2 [r2 Hr2]]. cbn [fst] in *. subst p1 p2.
    rewrite !moved_to_app in Heq. apply app_inv_head in Heq as ->. congruence.
Qed.

Lemma grafted_other (src dst p : path) fs : ¬ dst `prefix_of` p → grafted src dst fs !! p = None.
Proof.
  intros Hp. apply not_elem_of_list_to_map_1. intros (kv & -> & ([p' n] & -> & Hin)%list_elem_of_fmap)%list_elem_of_fmap. cbn [fst] in Hp.
  apply elem_of_map_to_list, map_lookup_filter_Some in Hin as [_ [r Hr]]. cbn [fst] in *. subst p'. apply Hp.
  rewrite moved_to_app. by eexists.
Qed.

Lemma move_tree_grafted src dst fs :
  move_tree src dst fs = grafted src dst fs ∪ filter (λ kv : path * node, ¬ src `prefix_of` kv.1 ∧ ¬ dst `prefix_of` kv.1) fs.
Proof. done. Qed.

(** What a move of the directory [src] to [dst] does, where nothing was. *)
Record relocated (src dst : path) (os os' : OS) : Prop := {
  rl_new : ∀ r : path, os_fs os !! (dst ++ r) = None → os_fs os' !! (dst ++ r) = os_fs os !! (src ++ r);
  rl_old : ∀ p : path, src `prefix_of` p → os_fs os' !! p = None;
  rl_other : ∀ p : path, ¬ src `prefix_of` p → ¬ dst `prefix_of` p → os_fs os' !! p = os_fs os !! p;
  rl_faults : os_faults os' = [];
}.

Lemma prefix_apart (src dst p : path) :
  ¬ src `prefix_of` dst → ¬ dst `prefix_of` src → src `prefix_of` p → ¬ dst `prefix_of` p.
Proof. intros Hsd Hds Hs Hd. by destruct (prefix_weak_total _ _ _ Hs Hd). Qed.

Lemma Rename_dir {St} `{Devices} (s : St) (src dst : path) os :
  same_device src dst = true → os_faults os = [] → os_fs os !! src = Some NDir → os_fs os !! dst = None →
  parent_exists os dst = true → ¬ src `prefix_of` dst → ¬ dst `prefix_of` src →
  ∃ os', Rename src dst s os = (Ok tt, s, os') ∧ relocated src dst os os'.
Proof.
  intros Hdev Hno Hsrc Hdst Hpar Hsd Hds. set (fs := move_tree src dst (os_fs os)).
  exists (set_fs fs os). split; [unfold Rename; sys_ok; rewrite Hsrc, Hdst, Hdev, Hpar; done|].
  split; [..|done]; cbn [os_fs set_fs]; unfold fs; rewrite move_tree_grafted.
  - intros r _. apply option_eq. intros n. rewrite lookup_union_Some_raw, grafted_lookup. split; [|by left].
    intros [?|[_ [_ [_ Hn]]%map_lookup_filter_Some]]; [done|]. destruct Hn. by eexists.
  - intros p Hp. apply lookup_union_None. split; [by apply grafted_other, (prefix_apart src dst)|].
    apply map_lookup_filter_None. right. intros n _. cbn. tauto.
  - intros p Hs Hd. rewrite lookup_union_r by by apply grafted_other. 
    apply option_eq. intros n. rewrite map_lookup_filter_Some. cbn. tauto.
Qed.

(** Moving a directory, on one device or to another one. *)
Lemma moveFileOrDir_dir {St} `{Devices, CopyPkg, !CopyTreeLaws} (s : St) (src dst : path) os :
  os_faults os = [] → os_fs os !! src = Some NDir → os_fs os !! dst = None →
  parent_exists os dst = true → ¬ src `prefix_of` dst → ¬ dst `prefix_of` src →
  ∃ os', moveFileOrDir src dst s os = (Ok tt, s, os') ∧ relocated src dst os os'.
Proof.
  intros Hno Hsrc Hdst Hpar Hsd Hds. unfold moveFileOrDir, attempt. run. destruct (same_device src dst) eqn:Hdev.
  - destruct (Rename_dir s src dst os) as (os' & -> & ?); try done. by exists os'.
  - assert (Rename src dst s os = (Err EXDEV, s, os)) as -> by (unfold Rename; sys_ok; by rewrite Hsrc, Hdst, Hdev).
    rewrite decide_True by done. destruct (copy_dir src dst os) as (os1 & Hcopy & Hno1 & Hnew & Hother); try done.
    unfold call_os. run. rewrite Hcopy. unfold RemoveAll. sys_ok. eexists. split; [done|]. split; cbn [os_fs set_fs]; [..|done].
    + intros r Hr. specialize (Hnew r). rewrite Hr in Hnew. apply option_eq. intros n. rewrite map_lookup_filter_Some. cbn [fst].
      rewrite Hnew. destruct (os_fs os !! (src ++ r)); split; [by intros []| |by intros []|done].
      intros ?. split; [done|]. intros Hp. apply (prefix_apart src dst (dst ++ r)); [done..|by eexists].
    + intros p Hp. apply map_lookup_filter_None. right. intros n _ Hn. by apply Hn.
    + intros p Hs Hd. apply option_eq. intros n. rewrite map_lookup_filter_Some, Hother by done. cbn. tauto.
Qed.

Section move.
Context {T : Type → Type} `{BTreeLaws T} `{Host, Unix, !UnixLaws} `{MapRange, !MapRangeLaws}.
Implicit Types (bs : buckets T) (b : bucket T) (q : gmap ForkName Items) (Q : gmap Key (gmap ForkName Items)).

Lemma relocated_child (src dst : path) os os' name :
  relocated src dst os os' → os_fs os !! Join dst name = None → os_fs os' !! Join dst name = os_fs os !! Join src name.
Proof. intros Hrl Hnone. by apply (rl_new _ _ _ _ Hrl [name]). Qed.

Lemma Join_idx (src dst : path) name f : Join src name = idxPath src f → Join dst name = idxPath dst f.
Proof. unfold idxPath, Join. intros Heq%app_inv_head. congruence. Qed.

(** The files of a bucket that are moved stand for the same queues. *)
Lemma parked_relocated c os os' src dst q :
  parked c os src q → relocated src dst os os' → os_fs os !! dst = None → (∀ name, os_fs os !! Join dst name = None) →
  (∀ d : path, d `prefix_of` dst → d ≠ dst → d ≠ [] → os_fs os !! d = Some NDir) → ¬ src `prefix_of` dst →
  parked c os' dst q.
Proof.
  intros [[Hd _ (l & all & Hlp & [Hr Ht Hf] & Hlog & Hb & Hst) [Hnames Hdata]] Hfiles] Hrl Hnone Hchild Habove Hsd.
  assert (∀ name, os_fs os' !! Join dst name = os_fs os !! Join src name) as Hnew by (intros name; by apply relocated_child).
  assert (∀ f, os_fs os' !! idxPath dst f = os_fs os !! idxPath src f) as Hidx by (intros f; apply Hnew).
  assert (os_fs os' !! dst = Some NDir) as Hd'.
  { pose proof (rl_new _ _ _ _ Hrl []) as Hn. rewrite !app_nil_r in Hn. by etrans; [apply Hn|]. }
  split; [split; [done|..]|].
  - split; [|by right]. intros d Hpre Hne Hne0. rewrite (rl_other _ _ _ _ Hrl); [by apply Habove| |].
    + intros Hs. apply Hsd. by etrans.
    + intros Hds. apply Hne. apply (anti_symm prefix); done.
  - exists (mkLog (Join dst "dat.log") (log_open l) (log_mmap l) (log_size l) (log_syncOnWrite l) (log_isEmpty l)), all.
    split; [done|]. split; [|split; [|split; [done|]]].
    + split; [by destruct Hr|done|]. unfold read_file in *. cbn [log_path]. by rewrite Hnew, <- Hlp.
    + destruct Hlog as [[] ? ?]. by split.
    + intros f its Hq. eapply file_state_moved; [by rewrite Hidx|].
      destruct (Hst f its Hq) as [recs j its' Hrec Hn Hrep Hh Hlen|recs|recs tail|];
        [|by eapply file_unused|by eapply file_torn|by apply file_missing].
      eapply file_kept; try done. by eapply holds_same, Hh.
  - split; intros name; rewrite Hnew; [|apply Hdata]. intros Hin. destruct (Hnames name Hin) as [->|(f & Hf' & Heq)]; [by left|right].
    exists f. split; [done|]. by eapply Join_idx.
  - intros f Hf'. rewrite Hidx. by apply Hfiles.
Qed.
(** ** A list of which some buckets were moved away *)

(** The list without the buckets [M]. *)
Definition hide (M : list Key) bs : buckets T := set_tree (foldr bt_delete (bs_tree bs) M) bs.

Lemma hide_get (M : list Key) bs (k : Key) :
  bt_get k (bs_tree (hide M bs)) = if decide (k ∈ M) then None else bt_get k (bs_tree bs).
Proof.
  unfold hide. cbn [bs_tree set_tree]. induction M as [|k' M IH]; cbn [foldr].
  - rewrite decide_False; [done|]. by intros ?%elem_of_nil.
  - rewrite bt_get_delete, IH. repeat case_decide; set_solver.
Qed.

Lemma queue_ok_ext c bs bs' os Q :
  queue_ok c bs os Q → same_list bs bs' → (∀ k, bt_get k (bs_tree bs') = bt_get k (bs_tree bs)) →
  (∀ k p, bt_get k (bs_tree bs) = Some (Some p) → bs_heap bs' !! p = bs_heap bs !! p) → queue_ok c bs' os Q.
Proof.
  intros [Hkeys Hint Hap Hforks Hdir Hnames] Hsame Htree Hheap. pose proof Hsame as [Hd Hf Ho]. split; rewrite ?Hd, ?Hf, ?Ho; try done.
  - intros k Hk. specialize (Hkeys k Hk). specialize (Hheap k). unfold key_ok, bucket_at, vacant, dom_forks in *.
    rewrite (buckPath_same bs bs' k Hsame), Htree, Hf. destruct (bt_get k (bs_tree bs)) as [[p|]|]; try done.
    destruct (Q !! k); [|done]. by rewrite Hheap.
  - intros k. rewrite Htree. apply Hint.
  - intros k k' p. rewrite !Htree. apply Hap.
Qed.

(** The list [bs] of which the files of the buckets [M] are gone; the others hold
    the queue [Q]. *)
Record half (c : cap) (M : list Key) bs (os : OS) Q : Prop := {
  hf_ok : queue_ok c (hide M bs) os Q;
  hf_int : ∀ k, k ∈ M → is_int64 k;
  hf_gone : ∀ k, k ∈ M → ∃ v, bt_get k (bs_tree bs) = Some v ∧
    ∀ p, v = Some p → ∃ b, bs_heap bs !! p = Some b ∧ b_dir b = buckPath bs k ∧ closable b;
  hf_apart : ∀ k k' p, bt_get k (bs_tree bs) = Some (Some p) → bt_get k' (bs_tree bs) = Some (Some p) → k = k';
}.

Lemma half_start c bs os Q : queue_ok c bs os Q → half c [] bs os Q.
Proof.
  intros Hok. split; [|intros k []%elem_of_nil..|apply (qo_apart _ _ _ _ Hok)].
  eapply queue_ok_ext; [exact Hok|done|..]; intros k; [|done]. rewrite hide_get, decide_False; [done|]. by intros ?%elem_of_nil.
Qed.

Lemma half_frame c M bs os os' Q :
  half c M bs os Q → (∀ p, near (bs_dir bs) p → os_fs os' !! p = os_fs os !! p) → half c M bs os' Q.
Proof. intros [Hok Hint Hgone Hap] Hfs. split; try done. by eapply queue_ok_frame. Qed.

Lemma half_mono c d M bs os Q : half c M bs os Q → cap_le c d → half d M bs os Q.
Proof. intros [Hok Hint Hgone Hap] Hcd. split; try done. by eapply queue_ok_mono. Qed.

Lemma half_hidden c M bs os Q k q : half c M bs os Q → Q !! k = Some q → k ∉ M.
Proof.
  intros [Hok _ _ _] HQ Hin. destruct (queue_ok_lookup _ _ _ _ _ _ Hok HQ) as (v & Hv & _). rewrite hide_get, decide_True in Hv by done.
  done.
Qed.

Lemma half_get c M bs os Q k q :
  half c M bs os Q → Q !! k = Some q →
  ∃ v, bt_get k (bs_tree bs) = Some v ∧ bucket_at c bs os k v q ∧ dom_forks bs q ∧ is_int64 k.
Proof.
  intros Hh HQ. pose proof (half_hidden _ _ _ _ _ _ _ Hh HQ) as Hk. destruct Hh as [Hok _ _ _].
  destruct (queue_ok_lookup _ _ _ _ _ _ Hok HQ) as (v & Hv & ?). rewrite hide_get, decide_False in Hv by done. by exists v.
Qed.

(** A pointer of the list. *)
Lemma half_heap c M bs os Q k p :
  half c M bs os Q → bt_get k (bs_tree bs) = Some (Some p) → is_Some (bs_heap bs !! p).
Proof.
  intros [Hok _ Hgone _] Hp. destruct (decide (k ∈ M)) as [Hk|Hk].
  - destruct (Hgone k Hk) as (v & Hv & Hb). rewrite Hp in Hv. injection Hv as <-. destruct (Hb p eq_refl) as (b & ? & _). by eexists.
  - destruct (queue_ok_heap _ _ _ _ Hok k p) as [b Hb]; [by rewrite hide_get, decide_False|by eexists].
Qed.

(** An operation that changes the list but not which buckets it has besides [M]. *)
Lemma half_step c d M bs bs' os os' Q Q' bs0 :
  half c M bs os Q → queue_ok d bs0 os' Q' → same_list bs bs' → same_list bs0 bs' →
  (∀ k, bt_get k (bs_tree bs0) = if decide (k ∈ M) then None else bt_get k (bs_tree bs')) →
  (∀ k p, bt_get k (bs_tree bs0) = Some (Some p) → bs_heap bs' !! p = bs_heap bs0 !! p) →
  (∀ k, k ∈ M → bt_get k (bs_tree bs') = Some None ∨
     bt_get k (bs_tree bs') = bt_get k (bs_tree bs) ∧
       ∀ p, bt_get k (bs_tree bs) = Some (Some p) → bs_heap bs' !! p = bs_heap bs !! p) →
  (∀ k k' p, bt_get k (bs_tree bs') = Some (Some p) → bt_get k' (bs_tree bs') = Some (Some p) → k = k') →
  half d M bs' os' Q'.
Proof.
  intros [_ Hint Hgone _] Hok Hsame Hsame0 Htree Hheap HM Hap. split; try done.
  - eapply queue_ok_ext; [exact Hok|by destruct Hsame0|intros k; by rewrite hide_get, Htree|done].
  - intros k Hk. destruct (HM k Hk) as [Hnone|[Heq Hp]]; [by exists None|]. destruct (Hgone k Hk) as (v & Hv & Hb).
    exists v. rewrite Heq. split; [done|]. intros p ->. rewrite Hp, (buckPath_same bs bs' k Hsame) by done. by apply Hb.
Qed.

(** *** Opening and closing buckets *)

Lemma half_reap c M bs os Q (key : Key) p :
  half c M bs os Q → bt_get key (bs_tree bs) = Some (Some p) → os_faults os = [] →
  ∃ bs', reap key p None bs os = (Ok None, bs', os) ∧ half c M bs' os Q ∧ same_list bs bs' ∧
    ∀ k, bt_get k (bs_tree bs') = if decide (k = key) then Some None else bt_get k (bs_tree bs).
Proof.
  intros Hh Hp Hno. pose proof Hh as [Hok Hint Hgone Hap].
  assert (∀ b b' k, bt_get k (bs_tree (reaped key p b b' bs)) = if decide (k = key) then Some None else bt_get k (bs_tree bs)) as Htree.
  { intros b b' k. unfold reaped. cbn [bs_tree set_tree]. rewrite bt_get_set. by repeat case_decide; subst. }
  assert (∀ b b' k p', bt_get k (bs_tree bs) = Some (Some p') → k ≠ key →
    bs_heap (reaped key p b b' bs) !! p' = bs_heap bs !! p') as Hheap.
  { intros b b' k p' Hp' Hne. cbn. apply list_lookup_insert_ne. intros <-. apply Hne. by apply (Hap k key p). }
  assert (∃ b b', bs_heap bs !! p = Some b ∧ BClose b os = (Ok tt, b', os) ∧
    ∃ bs0, queue_ok c bs0 os Q ∧ same_list bs0 (reaped key p b b' bs) ∧
      (∀ k, bt_get k (bs_tree bs0) = if decide (k ∈ M) then None else bt_get k (bs_tree (reaped key p b b' bs))) ∧
      ∀ k p', bt_get k (bs_tree bs0) = Some (Some p') → bs_heap (reaped key p b b' bs) !! p' = bs_heap bs0 !! p')
    as (b & b' & Hb & Hclose & bs0 & Hok0 & Hs0 & Ht0 & Hh0).
  { destruct (decide (key ∈ M)) as [Hk|Hk].
    - destruct (Hgone key Hk) as (v & Hv & Hb). rewrite Hp in Hv. injection Hv as <-. destruct (Hb p eq_refl) as (b & Hbp & _ & Hc).
      destruct (BClose_open b os Hc Hno) as (b' & Hclose). exists b, b'. split; [done|]. split; [done|]. exists (hide M bs).
      split; [done|]. split; [done|]. split.
      + intros k. rewrite hide_get, Htree. repeat case_decide; by subst.
      + intros k p'. rewrite hide_get. case_decide as HkM; [done|]. intros Hp'. apply (Hheap _ _ k); [done|]. by intros ->.
    - destruct (reap_ok c (hide M bs) os Q key p Hok) as (b & b' & Hb & Hclose & Hok' & _); [by rewrite hide_get, decide_False|done|].
      exists b, b'. split; [done|]. split; [done|]. exists (reaped key p b b' (hide M bs)). split; [done|]. split; [done|].
      split; [|done]. intros k. rewrite Htree. unfold reaped. cbn [bs_tree set_tree]. rewrite bt_get_set, hide_get.
      by repeat case_decide; subst. }
  exists (reaped key p b b' bs). split; [by apply reap_eq|]. split; [|split; [done|apply Htree]].
  apply (half_step c c M bs _ os os Q Q bs0 Hh Hok0); try done.
  - intros k Hk. rewrite Htree. case_decide as Hkey; [by left|right]. split; [done|]. intros p' Hp'. by apply (Hheap _ _ k).
  - intros k k' p'. rewrite !Htree. repeat case_decide; try done. apply Hap.
Qed.

(** [forKey] for a bucket that was not moved. *)
Lemma half_forKey c M bs os Q k q :
  half c M bs os Q → Q !! k = Some q → cap_ok c → os_faults os = [] →
  ∃ p bs' os', forKey k bs os = (Ok p, bs', os') ∧ half c M bs' os' Q ∧ bt_get k (bs_tree bs') = Some (Some p) ∧
    same_list bs bs' ∧ os_faults os' = [] ∧ only_files (bucket_files (buckPath bs k)) os os' ∧
    ∀ k', is_Some (bt_get k' (bs_tree bs')) ↔ is_Some (bt_get k' (bs_tree bs)).
Proof.
  intros Hh HQ Hc Hno. pose proof (half_hidden _ _ _ _ _ _ _ Hh HQ) as HkM.
  destruct (half_get _ _ _ _ _ _ _ Hh HQ) as (v & Hv & _ & _ & Hk). unfold forKey. run.
  destruct v as [p|]; [by rewrite Hv; exists p, bs, os; split_and!|]. rewrite Hv.
  destruct (closeUnused_keeps (λ bs', half c M bs' os Q ∧ same_list bs bs' ∧ bt_get k (bs_tree bs') = Some None ∧
    ∀ k', is_Some (bt_get k' (bs_tree bs')) ↔ is_Some (bt_get k' (bs_tree bs))) (int64 (opt_MaxParallelOpenBuckets (bs_opts bs) - 1)) bs os)
    as (bs1 & Hclose & Hh1 & Hsame1 & Hv1 & Hdom1); [|done|].
  { intros bs1 key p (Hh1 & Hsame1 & Hv1 & Hdom1) Hp. destruct (half_reap c M bs1 os Q key p Hh1 Hp Hno) as (bs' & Heq & Hh' & Hs' & Ht').
    exists bs'. split_and!; try done; [by transitivity bs1|rewrite Ht'; by case_decide|]. intros k'. rewrite <- Hdom1, Ht'.
    case_decide as Hkey; [subst k'; rewrite Hp; split; intros _; by eexists|done]. }
  pose proof Hh1 as [Hok1 Hint1 Hgone1 Hap1].
  destruct (open_new bs1 c (hide M bs1) os Q k Hok1 Hc Hk Hno) as (b & os' & Hopen & Hok' & _ & Hof & Hno').
  { intros p. rewrite hide_get, decide_False, Hv1 by done. done. }
  rewrite (with_bucket_Some _ _ _ _ HQ) in Hok'. pose proof Hsame1 as [Hd1 Hf1 Ho1].
  assert (openBucket (buckPath bs k) (bs_forks bs) (bs_opts bs) bs1 os = (Ok b, bs1, os')) as Hopen'.
  { rewrite <- Hf1, <- Ho1, <- (buckPath_same _ _ k Hsame1). exact Hopen. }
  assert (∀ k', bt_get k' (bs_tree (opened_at k b bs1)) = if decide (k' = k) then Some (Some (length (bs_heap bs1))) else bt_get k' (bs_tree bs1))
    as Htree.
  { intros k'. unfold opened_at. cbn [bs_tree set_tree]. rewrite bt_get_set. by repeat case_decide; subst. }
  assert (∀ k' p, bt_get k' (bs_tree bs1) = Some (Some p) → bs_heap (opened_at k b bs1) !! p = bs_heap bs1 !! p) as Hheap.
  { intros k' p Hp. destruct (half_heap _ _ _ _ _ _ _ Hh1 Hp) as [b0 Hb0]. cbn. rewrite Hb0. by apply lookup_app_l_Some. }
  exists (length (bs_heap bs1)), (opened_at k b bs1), os'. split; [|split; [|split; [by rewrite Htree, decide_True|split_and!; try done]]].
  - unfold alloc, tree_set. rewrite Hclose, Hopen'. by run.
  - apply (half_step c c M bs1 _ os os' Q Q (opened_at k b (hide M bs1)) Hh1 Hok'); try done.
    + intros k'. rewrite Htree. unfold opened_at. cbn [bs_tree set_tree]. rewrite bt_get_set, hide_get.
      change (bs_heap (hide M bs1)) with (bs_heap bs1). by repeat case_decide; subst.
    + intros k' Hk'. right. rewrite Htree, decide_False by (by intros ->). split; [done|]. by apply Hheap.
    + assert (∀ k' p, bt_get k' (bs_tree bs1) = Some (Some p) → p ≠ length (bs_heap bs1)) as Hfresh.
      { intros k' p Hp ->. destruct (half_heap _ _ _ _ _ _ _ Hh1 Hp) as [b0 Hb0%lookup_lt_Some]. lia. }
      intros k1 k2 p. rewrite !Htree. repeat case_decide; subst; try done; [..|apply Hap1].
      * intros [= <-] Hp. by destruct (Hfresh _ _ Hp).
      * intros Hp [= <-]. by destruct (Hfresh _ _ Hp).
  - by rewrite <- (buckPath_same _ _ k Hsame1).
  - intros k'. rewrite <- Hdom1, Htree. case_decide as Hkey; [subst k'; rewrite Hv1; split; intros _; by eexists|done].
Qed.
(** *** Moving a bucket from one list to another *)

(** Directories that have no file in common. *)
Definition dirs_apart (d1 d2 : path) : Prop := ¬ d1 `prefix_of` d2 ∧ ¬ d2 `prefix_of` d1.

Lemma far_near (d1 d2 p : path) : dirs_apart d1 d2 → d1 `prefix_of` p → ¬ near d2 p.
Proof.
  intros [H12 H21] Hp [Hp'|Hp'].
  - by destruct (prefix_weak_total _ _ _ Hp Hp').
  - apply H12. by etrans.
Qed.

Lemma dirs_apart_sym d1 d2 : dirs_apart d1 d2 → dirs_apart d2 d1.
Proof. intros [? ?]. by split. Qed.

Lemma buckPath_prefix bs k p : buckPath bs k `prefix_of` p → bs_dir bs `prefix_of` p.
Proof. intros [r ->]. unfold buckPath, Join. rewrite <- app_assoc. by eexists. Qed.

(** The buckets of directories that are apart. *)
Lemma buckPath_dirs_apart bs1 bs2 k : dirs_apart (bs_dir bs1) (bs_dir bs2) → ¬ buckPath bs1 k `prefix_of` buckPath bs2 k.
Proof.
  intros Hap Hp%buckPath_prefix. apply (far_near _ _ _ Hap Hp). left. by eexists.
Qed.

(** Files of one list are not near the other one. *)
Lemma files_elsewhere bs1 bs2 k os os' p :
  dirs_apart (bs_dir bs1) (bs_dir bs2) → only_files (bucket_files (buckPath bs1 k)) os os' → near (bs_dir bs2) p →
  os_fs os' !! p = os_fs os !! p.
Proof.
  intros Hap Hof Hp. eapply only_bucket_files; [done|]. intros Hk%buckPath_prefix. by apply (far_near _ _ _ Hap Hk).
Qed.

Lemma half_moved c M bs os os' Q k q (dst : path) :
  half c M bs os Q → Q !! k = Some q → relocated (buckPath bs k) dst os os' → (∀ p, dst `prefix_of` p → ¬ near (bs_dir bs) p) →
  half c (k :: M) bs os' (delete k Q).
Proof.
  intros Hh HQ Hrl Hfar. destruct (half_get _ _ _ _ _ _ _ Hh HQ) as (v & Hv & Hat & _ & Hk).
  destruct Hh as [Hok Hint Hgone Hap].
  assert (∀ k', bt_get k' (bs_tree (hide (k :: M) bs)) = if decide (k' = k) then None else bt_get k' (bs_tree (hide M bs))) as Htree.
  { intros k'. rewrite !hide_get. repeat case_decide; set_solver. }
  split; try done.
  - apply (queue_ok_change c c (hide M bs) (hide (k :: M) bs) os os' Q _ k); try done.
    + intros p Hp Hkp. rewrite (rl_other _ _ _ _ Hrl); [done..|]. intros Hd. by apply (Hfar p).
    + intros k' Hne. rewrite Htree, decide_False by done. split; [done|]. by rewrite lookup_delete_ne.
    + intros k' p _ _. by rewrite Htree, decide_True.
    + rewrite Htree, decide_True, lookup_delete_eq by done. split; [|intros name]; apply (rl_old _ _ _ _ Hrl); [done|by eexists].
  - intros k' [->|Hk']%elem_of_cons; [done|by apply Hint].
  - intros k' [->|Hk']%elem_of_cons; [|by apply Hgone]. exists v. split; [done|]. intros p ->.
    destruct Hat as (b & all & Hb & Hdu & Hdir & _). exists b. split; [done|]. split; [done|]. eapply bucket_ok_closable. by destruct Hdu.
Qed.

Lemma queue_ok_received c bs os os' Q k q (src : path) m :
  queue_ok c bs os Q → Q !! k = None → is_int64 k → relocated src (buckPath bs k) os os' → parked c os src q → dom_forks bs q →
  (∀ p, src `prefix_of` p → ¬ near (bs_dir bs) p) →
  queue_ok c (set_trailers m (set_tree (bt_set k None (bs_tree bs)) bs)) os' (<[k := q]> Q).
Proof.
  intros Hok HQ Hk Hrl Hpark Hdom Hfar. set (bs' := set_trailers m _).
  assert (∀ k', bt_get k' (bs_tree bs') = if decide (k = k') then Some None else bt_get k' (bs_tree bs)) as Htree
    by (intros k'; apply bt_get_set).
  pose proof (qo_keys _ _ _ _ Hok k Hk) as Hkey. rewrite HQ in Hkey. unfold key_ok in Hkey.
  destruct (bt_get k (bs_tree bs)) eqn:Hnone; [done|]. destruct Hkey as [Hd Hn].
  apply (queue_ok_change c c bs bs' os os' Q _ k); try done.
  - intros p Hp Hkp. apply (rl_other _ _ _ _ Hrl); [|done]. intros Hs. by apply (Hfar p).
  - intros k' Hne. rewrite Htree, decide_False, lookup_insert_ne by (by apply not_eq_sym). done.
  - intros k' p _ _. by rewrite Htree, decide_True.
  - rewrite Htree, decide_True, lookup_insert_eq by done. split; [|done].
    change (parked c os' (buckPath bs k) q). eapply parked_relocated; try done; [apply buckPath_above, Hok|].
    intros Hs. apply (Hfar (buckPath bs k) Hs). left. by eexists.
Qed.
End move.

(** ** An implementation to compute with *)

#[local] Existing Instance Host_tiny.

(** Copying a file or a directory. *)
Definition Copy_tree : CopyPkg := {|
  copy_Copy src dst os :=
    match os_fs os !! src with
    | Some (NFile data) =>
        if parent_exists os dst then (Ok tt, set_fs (<[dst := NFile data]> (os_fs os)) os) else (Err ENotExist, os)
    | Some NDir =>
        if parent_exists os dst then (Ok tt, set_fs (grafted src dst (os_fs os) ∪ os_fs os) os) else (Err ENotExist, os)
    | None => (Err ENotExist, os)
    end |}.

Lemma Copy_tree_laws : @CopyTreeLaws Copy_tree.
Proof.
  split. intros src dst os Hno Hsrc Hdst Hpar Hsd Hds. cbn [copy_Copy Copy_tree]. rewrite Hsrc, Hpar. eexists. split; [done|]. split; [done|].
  cbn [os_fs set_fs]. split; [intros r; by rewrite lookup_union, grafted_lookup; destruct (os_fs os !! (src ++ r)), (os_fs os !! (dst ++ r))|].
  intros p Hp. by rewrite lookup_union_r by by apply grafted_other.
Qed.
