(* ===== verification/Api.v ===== *)
(** * api.go: queues, forks and consumers *)

From S2P Require Import Prelude BTree Os Item Vlog Index IndexFile Options Bucket BucketOpen Names Buckets.
From S2P Require Import BucketsLoad BucketsShovel.

Section api.
Context {T : Type → Type} `{BTree T} `{Host, Unix, MapRange, SortFunc, CopyPkg, RenameIO, Devices, Unicode}.

(** A [Queue] is a pointer to its bucket list. *)
Definition Open_queue {St} (dir : path) (opts : Options) : M St (buckets T) :=
  let '(e, opts) := Validate opts in
  match e with
  | Some e => fail e
  | None =>
      bs ← wrap_err "buckets" (loadAllBuckets dir opts);
      '(_, bs) ← with_local bs (ValidateBucketKeys (opt_BucketSplitConf opts));
      mret bs
  end.

(** The fork of a queue; [fk_q] is [false] when its pointer to the queue is nil,
    after [Remove]. *)
Record Fork := mkFork {
  fk_name : ForkName;
  fk_q : bool;
}.

(** ** Operations of a queue *)

(** [Transaction.Push] *)
Definition tx_Push {St} (view : St → buckets T) (upd : buckets T → St → St) (items : Items) : M St unit :=
  zoom view upd (BsPush items).

Definition Queue_Push (items : Items) : M (buckets T) unit := BsPush items.

Definition Queue_Sync : M (buckets T) unit := BsSync.

Definition Queue_Clear : M (buckets T) unit := BsClear.

Definition Queue_Shovel : M (shovel (T := T)) (Z * option error) := BsShovel "".

Definition Queue_Fork (name : ForkName) : M (buckets T) Fork :=
  BsFork "" name ;;
  mret (mkFork name true).

Definition Queue_Forks (bs : buckets T) : list ForkName := BsForks bs.

Definition Queue_Close : M (buckets T) unit := BsClose.

(** ** Operations of a fork *)

(** [Fork.Remove]: the fork forgets its queue first. *)
Definition Fork_Remove : M (buckets T * Fork) unit :=
  st ← get;
  let f := st.2 in
  if fk_q f then
    put (st.1, mkFork (fk_name f) false) ;;
    zoom fst set_fst (BsRemoveFork (fk_name f))
  else fail ENoSuchFork.

Definition Fork_Shovel (f : Fork) : M (shovel (T := T)) (Z * option error) :=
  if fk_q f then BsShovel (fk_name f) else mret (0, Some ENoSuchFork).

(** [Fork.Fork] does not check its pointer. *)
Definition Fork_Fork (f : Fork) (name : ForkName) : M (buckets T) Fork :=
  if fk_q f then
    BsFork (fk_name f) name ;;
    mret (mkFork name true)
  else lift Panic.

(** ** Consumers

    The interface [Consumer] and its two implementations.  [St] is the state that
    the callback of [Read] can reach, and [view] and [upd] are the bucket list in
    it; [Shovel] has the bucket lists of two queues for its state. *)
Record Consumer (St : Type) := mkConsumer {
  c_Read : Z → (Items → M St ReadOp) → M St unit;
  c_Delete : Key → Key → M St (Z * option error);
  c_Shovel : M (shovel (T := T)) (Z * option error);
  c_Len : M St Z;
  c_Fork : ForkName → M St Fork;
}.
Arguments c_Read {St} _ _ _.
Arguments c_Delete {St} _ _ _.
Arguments c_Shovel {St} _.
Arguments c_Len {St} _.
Arguments c_Fork {St} _ _.

Section consumer.
Context {St : Type} (view : St → buckets T) (upd : buckets T → St → St).

Definition Queue_Consumer : Consumer St :=
  mkConsumer St (λ n fn, BsRead view upd n "" fn) (λ from to, zoom view upd (BsDelete "" from to))
    Queue_Shovel (zoom view upd (BsLen "")) (λ name, zoom view upd (Queue_Fork name)).

Definition Fork_Consumer (f : Fork) : Consumer St :=
  mkConsumer St
    (λ n fn, if fk_q f then BsRead view upd n (fk_name f) fn else fail ENoSuchFork)
    (λ from to, if fk_q f then zoom view upd (BsDelete (fk_name f) from to) else mret (0, Some ENoSuchFork))
    (Fork_Shovel f)
    (if fk_q f then zoom view upd (BsLen (fk_name f)) else mret 0)
    (λ name, zoom view upd (Fork_Fork f name)).
End consumer.

(** ** Copies

    [return items, c.Read(...)]: the compiler evaluates [items] after the call,
    which the language does not promise. *)
Definition copy_items {St} (op : ReadOp) (popped : Items) : M (St * Items) ReadOp :=
  st ← get;
  copied ← lift (Items_Copy popped);
  put (st.1, st.2 ++ copied) ;;
  mret op.

(** The items and the error of [PopCopy] and [PeekCopy]. *)
Definition read_copy {St} (op : ReadOp) (c : Consumer (St * Items)) (n : Z) : M St (Items * option error) :=
  '(r, items) ← with_var [] (attempt (c_Read c n (copy_items op)));
  mret (items, err_of r).

Definition PopCopy {St} (c : Consumer (St * Items)) (n : Z) : M St (Items * option error) :=
  read_copy ReadOpPop c n.

Definition PeekCopy {St} (c : Consumer (St * Items)) (n : Z) : M St (Items * option error) :=
  read_copy ReadOpPeek c n.
End api.

Arguments c_Read {T St} _ _ _.
Arguments c_Delete {T St} _ _ _.
Arguments c_Shovel {T St} _.
Arguments c_Len {T St} _.
Arguments c_Fork {T St} _ _.
