(* ===== verification/Queue.v ===== *)
(** * The queue as a multiset per consumer

    The promise of a queue, without buckets, logs and files: [Push] adds the items
    to what every consumer has not read, [PopCopy] takes the smallest, [PeekCopy]
    looks at them, [Len] counts, [Delete] removes a range of keys, [Clear] all
    items and [Sync] none.  Every sequence of these calls of the public interface
    behaves so. *)

From S2P Require Import Prelude BTree Os Item Vlog Index IndexFile Options Bucket BucketPeek BucketPop BucketQueue.
From S2P Require Import BucketForks BucketDelete BucketOpen BucketCycle Names Buckets BucketsSplit BucketsClose BucketsQueue BucketsPush.
From S2P Require Import BucketsSpec BucketsRead BucketsClear BucketsDelete BucketsLoad BucketsOpen BucketsShovel Api.

(** ** The specification *)

(** What each consumer has not read yet. *)
Definition qspec := ForkName → Items.

Inductive call :=
  | CPush (items : Items)
  | CPop (n : Z) (f : ForkName)
  | CPeek (n : Z) (f : ForkName)
  | CLen (f : ForkName)
  | CDelete (f : ForkName) (from to : Key)
  | CSync
  | CClear.

Inductive reply :=
  | RDone
  | RItems (items : Items) (e : option error)
  | RLen (n : Z)
  | RDeleted (n : Z) (e : option error).

(** The calls of a queue with the consumers [fs]. *)
Inductive qstep (fs : list ForkName) (A : qspec) : call → reply → qspec → Prop :=
  | qstep_push items A' :
      (∀ f, f ∈ fs → A' f ≡ₚ A f ++ items) → qstep fs A (CPush items) RDone A'
  | qstep_pop n f out A' :
      smallest (read_max n) (A f) out (A' f) → (∀ g, g ≠ f → A' g ≡ₚ A g) → qstep fs A (CPop n f) (RItems out None) A'
  | qstep_peek n f out rest A' :
      smallest (read_max n) (A f) (take (Z.to_nat (read_max n)) out) rest → (∀ g, A' g ≡ₚ A g) →
      qstep fs A (CPeek n f) (RItems out None) A'
  | qstep_len f A' : (∀ g, A' g ≡ₚ A g) → qstep fs A (CLen f) (RLen (Z.of_nat (length (A f)))) A'
  | qstep_delete f (from to : Key) A' :
      from ≤ to → A' f ≡ₚ outside from to (A f) → (∀ g, g ≠ f → A' g ≡ₚ A g) →
      qstep fs A (CDelete f from to) (RDeleted (Z.of_nat (length (inside from to (A f)))) None) A'
  | qstep_range f (from to : Key) A' :
      to < from → (∀ g, A' g ≡ₚ A g) → qstep fs A (CDelete f from to) (RDeleted 0 (Some EToLtFrom)) A'
  | qstep_sync A' : (∀ g, A' g ≡ₚ A g) → qstep fs A CSync RDone A'
  | qstep_clear A' : (∀ g, A' g = []) → qstep fs A CClear RDone A'.

Inductive qsteps (fs : list ForkName) (A : qspec) : list call → list reply → qspec → Prop :=
  | qsteps_nil A' : (∀ f, A' f ≡ₚ A f) → qsteps fs A [] [] A'
  | qsteps_cons c r cs rs A1 A' : qstep fs A c r A1 → qsteps fs A1 cs rs A' → qsteps fs A (c :: cs) (r :: rs) A'.

Lemma qstep_start fs A B c r A' : (∀ f, A f ≡ₚ B f) → qstep fs A c r A' → qstep fs B c r A'.
Proof.
  intros HAB Hstep. destruct Hstep as [items A' HA|n f out A' Hsm HA|n f out rest A' Hsm HA|f A' HA|f from to A' Hft Hf HA|f from to A' Hft HA|A' HA|A' HA].
  - apply qstep_push. intros f Hf. by rewrite <- HAB, HA.
  - apply qstep_pop; [by eapply smallest_perm; [apply HAB| |]|]. intros g Hg. by rewrite <- HAB, HA.
  - apply (qstep_peek _ _ _ _ _ rest); [by eapply smallest_perm; [apply HAB| |]|]. intros g. by rewrite <- HAB, HA.
  - rewrite (HAB f). apply qstep_len. intros g. by rewrite <- HAB, HA.
  - rewrite (HAB f). apply qstep_delete; [done|by rewrite <- HAB|]. intros g Hg. by rewrite <- HAB, HA.
  - apply qstep_range; [done|]. intros g. by rewrite <- HAB, HA.
  - apply qstep_sync. intros g. by rewrite <- HAB, HA.
  - by apply qstep_clear.
Qed.

Lemma qsteps_start fs A B cs rs A' : (∀ f, A f ≡ₚ B f) → qsteps fs A cs rs A' → qsteps fs B cs rs A'.
Proof.
  intros HAB Hsteps. destruct Hsteps as [A' HA|]; [constructor; intros f; by rewrite <- HAB|].
  econstructor; [by eapply qstep_start|done].
Qed.

Lemma qsteps_app fs A cs rs A1 cs' rs' A2 :
  qsteps fs A cs rs A1 → qsteps fs A1 cs' rs' A2 → qsteps fs A (cs ++ cs') (rs ++ rs') A2.
Proof.
  intros Hsteps Hsteps'. induction Hsteps as [A A1 HA|A c r cs rs A0 A1 Hstep _ IH]; cbn.
  - eapply qsteps_start; [|exact Hsteps']. intros f. by rewrite HA.
  - econstructor; [exact Hstep|]. by apply IH.
Qed.

(** Arguments that a call may have. *)
Definition call_ok (fs : list ForkName) (c : call) : Prop :=
  match c with
  | CPush items => Forall valid_item items ∧ ∀ x y, x ∈ items → y ∈ items → is_int64 (it_Key x - it_Key y)
  | CPop n f | CPeek n f => f ∈ fs ∧ n ≠ 0 ∧ is_int64 n
  | CLen f => f ∈ fs
  | CDelete f from to => f ∈ fs ∧ is_int64 from ∧ is_int64 to
  | CSync | CClear => True
  end.

Definition pushed (c : call) : Items := match c with CPush items => items | _ => [] end.

(** ** The calls *)

Section exec.
Context {T : Type → Type} `{BTree T} `{Host, Unix, MapRange, SortFunc, CopyPkg, RenameIO, Devices, Unicode}.

(** The queue or a fork of it. *)
Definition consumer {St} (view : St → buckets T) (upd : buckets T → St → St) (f : ForkName) : Consumer St :=
  if decide (f = "") then Queue_Consumer view upd else Fork_Consumer view upd (mkFork f true).

Definition exec (c : call) : M (buckets T) reply :=
  match c with
  | CPush items => Queue_Push items ;; mret RDone
  | CPop n f => '(items, e) ← PopCopy (consumer fst set_fst f) n; mret (RItems items e)
  | CPeek n f => '(items, e) ← PeekCopy (consumer fst set_fst f) n; mret (RItems items e)
  | CLen f => n ← c_Len (consumer (λ bs, bs) (λ bs _, bs) f); mret (RLen n)
  | CDelete f from to => '(n, e) ← c_Delete (consumer (λ bs, bs) (λ bs _, bs) f) from to; mret (RDeleted n e)
  | CSync => Queue_Sync ;; mret RDone
  | CClear => Queue_Clear ;; mret RDone
  end.

Fixpoint exec_all (cs : list call) : M (buckets T) (list reply) :=
  match cs with
  | [] => mret []
  | c :: cs => r ← exec c; rs ← exec_all cs; mret (r :: rs)
  end.
End exec.

Section queue.
Context {T : Type → Type} `{BTreeLaws T} `{Host, Unix, !UnixLaws} `{MapRange, !MapRangeLaws} `{SortFunc, !SortFuncLaws}.
Context `{CopyPkg, Devices, Unicode}.
Implicit Types (bs : buckets T) (Q : gmap Key (gmap ForkName Items)).

(** A list of buckets that holds the queue [Q]. *)
Record holds_queue (c : cap) bs (os : OS) Q : Prop := {
  hq_ok : queue_ok c bs os Q;
  hq_split : ∃ fn, split_func bs = Ok fn ∧ SplitFunc fn ∧ in_split fn Q ∧ aligned fn Q;
  hq_faults : os_faults os = [];
}.

Lemma empty_spec fn : in_split fn ∅ ∧ aligned fn ∅.
Proof.
  split; [|intros k; rewrite lookup_empty; by intros []].
  intros k f it. unfold queue_of. rewrite lookup_empty. by intros ?%elem_of_nil.
Qed.

Lemma split_func_same bs bs' : same_list bs bs' → split_func bs' = split_func bs.
Proof. intros Hsame. unfold split_func. by rewrite (sl_opts _ _ Hsame). Qed.

Lemma contents_room n fs Q :
  uniform fs Q → 0 ≤ n < 2 ^ 32 → (∀ f, f ∈ fs ++ [""] → Z.of_nat (length (contents f Q)) + n < 2 ^ 32) → room n Q.
Proof.
  intros Hu Hn Hlen. split; [done|]. intros k q f its HQ Hq. assert (f ∈ fs ++ [""]) as Hf by (apply (Hu k q HQ); by eexists).
  specialize (Hlen f Hf). pose proof (queue_of_length Q k f) as Hl. unfold queue_of in Hl. rewrite HQ in Hl. cbn in Hl.
  rewrite Hq in Hl. cbn in Hl. specialize (Hl (mk_is_Some _ _ eq_refl)). lia.
Qed.

(** A push creates no bucket without items. *)
Lemma push_lively fs fn (items : Items) Q Q' :
  uniform fs Q → (∀ k f, f ∈ fs ++ [""] → queue_of Q' k f ≡ₚ queue_of Q k f ++ filter (λ it, fn (it_Key it) = k) items) →
  (∀ k, is_Some (Q' !! k) → is_Some (Q !! k) ∨ ∃ it, it ∈ items ∧ k = fn (it_Key it)) → lively Q → lively Q'.
Proof.
  intros Hu HQ' Hdom Hl k [Hk|(it & Hit & ->)]%Hdom.
  - destruct (Hl k Hk) as [f Hf]. exists f. destruct (decide (f ∈ fs ++ [""])) as [Hfs|Hfs].
    + intros Hnil. specialize (HQ' k f Hfs). rewrite Hnil in HQ'. symmetry in HQ'. apply Permutation_nil_r, app_eq_nil in HQ' as [? _]. done.
    + exfalso. destruct Hk as [q HQ]. unfold queue_of in Hf. rewrite HQ in Hf. cbn in Hf.
      destruct (q !! f) eqn:Hq; [|done]. apply Hfs, (Hu k q HQ). by eexists.
  - exists "". intros Hnil. specialize (HQ' (fn (it_Key it)) "" ltac:(set_solver)). rewrite Hnil in HQ'.
    assert (it ∈ filter (λ it', fn (it_Key it') = fn (it_Key it)) items) as Hin by by apply list_elem_of_filter.
    symmetry in HQ'. apply Permutation_nil_r, app_eq_nil in HQ' as [_ Hf]. rewrite Hf in Hin. by apply elem_of_nil in Hin.
Qed.

Lemma push_holds c bs os Q items :
  holds_queue c bs os Q → cap_ok c → cap_ok (cap_push items c) → call_ok (bs_forks bs ++ [""]) (CPush items) →
  (∀ f, f ∈ bs_forks bs ++ [""] → Z.of_nat (length (contents f Q)) + Z.of_nat (length items) < 2 ^ 32) →
  ∃ bs' os' Q', BsPush items bs os = (Ok tt, bs', os') ∧ holds_queue (cap_push items c) bs' os' Q' ∧ same_list bs bs' ∧
    (trailers_ok bs Q → trailers_ok bs' Q') ∧ (lively Q → lively Q') ∧
    ∀ f, f ∈ bs_forks bs ++ [""] → contents f Q' ≡ₚ contents f Q ++ items.
Proof.
  intros [Hok (fn & Hfn & Hsplit & Hin & Hal) Hno] Hc Hc' [Hval Hcmp] Hlen.
  pose proof (queue_ok_uniform _ _ _ _ Hok) as Hu.
  assert (room (Z.of_nat (length items)) Q) as Hroom.
  { apply (contents_room _ (bs_forks bs)); [done| |done]. specialize (Hlen "" ltac:(set_solver)). lia. }
  destruct (BsPush_ok fn c bs os Q items) as (bs' & os' & Q' & Heq & Hok' & Hsame & Hno' & Htr' & HQ' & Hdom'); try done; [apply _|].
  exists bs', os', Q'. split; [done|]. split; [|split; [done|split; [done|split; [by eapply push_lively|]]]].
  - split; [done| |done]. exists fn. split; [by rewrite (split_func_same bs)|]. split; [done|]. rewrite Forall_forall in Hval.
    split; [|intros k [?|(it & Hit & ->)]%Hdom'; [by apply Hal|by apply split_idemp, Hval]].
    intros k f it Hit. pose proof (queue_ok_uniform _ _ _ _ Hok') as Hu'. rewrite (sl_forks _ _ Hsame) in Hu'.
    destruct (decide (f ∈ bs_forks bs ++ [""])) as [Hf|Hf].
    + rewrite (HQ' k f Hf) in Hit. apply elem_of_app in Hit as [Hit|[Hk Hit]%list_elem_of_filter]; [by apply (Hin k f)|].
      split; [by apply Hval|done].
    + exfalso. unfold queue_of in Hit. destruct (Q' !! k) as [q|] eqn:HQk; cbn in Hit; [|by apply elem_of_nil in Hit].
      destruct (q !! f) as [its|] eqn:Hq; [|by apply elem_of_nil in Hit]. apply Hf, (Hu' k q HQk). by eexists.
  - intros f Hf. apply (contents_push fn). intros k. by apply HQ'.
Qed.

(** ** Reading *)

Lemma consumer_Read {St} (view : St → buckets T) upd f n fn : c_Read (consumer view upd f) n fn = BsRead view upd n f fn.
Proof. unfold consumer. by destruct (decide (f = "")) as [->|]. Qed.

Lemma consumer_Len {St} (view : St → buckets T) upd f : c_Len (consumer view upd f) = zoom view upd (BsLen f).
Proof. unfold consumer. by destruct (decide (f = "")) as [->|]. Qed.

Lemma consumer_Delete {St} (view : St → buckets T) upd f from to :
  c_Delete (consumer view upd f) from to = zoom view upd (BsDelete f from to).
Proof. unfold consumer. by destruct (decide (f = "")) as [->|]. Qed.

Lemma copy_collects (op : ReadOp) : collects (T := T) (copy_items op) op (λ items acc, acc ++ items).
Proof. intros items bs acc os. unfold copy_items. run. by rewrite Items_Copy_id. Qed.

Lemma copy_all outs acc : add_all (λ items acc, acc ++ items) outs acc = acc ++ concat outs.
Proof.
  revert acc. induction outs as [|out outs IH]; intros acc; cbn; [by rewrite app_nil_r|].
  unfold add_all in IH. by rewrite IH, app_assoc.
Qed.

(** ** Counting *)

Lemma Len_loop c bs os Q f (ks : list Key) n :
  queue_ok c bs os Q → trailers_ok bs Q → f ∈ bs_forks bs ++ [""] → (∀ k, k ∈ ks → is_Some (Q !! k)) →
  0 ≤ n → n + Z.of_nat (length (items_in ks f Q)) < 2 ^ 63 →
  iter_keys fst set_fst includeNil (λ key buck,
    st ← get;
    match buck with
    | None =>
        match bs_trailers st.1 !! (key, f) with
        | None => mret true
        | Some trailer => put (st.1, int64 (st.2 + int64 (TotalEntries trailer))) ;; mret true
        end
    | Some p =>
        b ← zoom fst set_fst (deref p);
        put (st.1, int64 (st.2 + BLen b f)) ;;
        mret true
    end) ks (bs, n) os = (Ok tt, (bs, n + Z.of_nat (length (items_in ks f Q))), os).
Proof.
  intros Hok Htr Hf. revert n. induction ks as [|k ks IH]; intros n Hdom Hn Hlen; [by cbn; rewrite Z.add_0_r|].
  change (items_in (k :: ks) f Q) with (queue_of Q k f ++ items_in ks f Q) in *. rewrite length_app, Nat2Z.inj_add in *.
  destruct (Hdom k (list_elem_of_here _ _)) as [q HQ].
  destruct (proj1 (queue_ok_uniform _ _ _ _ Hok k q HQ f) Hf) as [its Hq].
  assert (queue_of Q k f = its) as Hits by (unfold queue_of; by rewrite HQ; cbn; rewrite Hq). rewrite Hits in *.
  assert (int64 (n + Z.of_nat (length its)) = n + Z.of_nat (length its)) as Hadd by (apply int64_id; unfold is_int64; lia).
  rewrite Z.add_assoc, <- IH; [|intros k' Hk'; apply Hdom; by right|lia|lia].
  destruct (queue_ok_lookup _ _ _ _ _ _ Hok HQ) as ([p|] & Hv & Hat & _ & _); cbn [iter_keys]; run; cbn [fst snd]; rewrite Hv.
  - destruct Hat as (b & all & Hb & [Hbok _ _ _ _ _ _] & _). unfold deref. run. cbn [fst snd]. rewrite Hb. cbn [of_option].
    rewrite (BLen_queue b os q f Hbok), Hq. cbn. by rewrite Hadd.
  - cbn [fst snd]. rewrite (Htr k q f its Hv HQ Hq). cbn [TotalEntries]. rewrite (int64_id (Z.of_nat (length its))) by (unfold is_int64; lia).
    by rewrite Hadd.
Qed.

Lemma BsLen_ok c bs os Q f :
  queue_ok c bs os Q → trailers_ok bs Q → f ∈ bs_forks bs ++ [""] → Z.of_nat (length (contents f Q)) < 2 ^ 63 →
  BsLen f bs os = (Ok (Z.of_nat (length (contents f Q))), bs, os).
Proof.
  intros Hok Htr Hf Hlen.
  assert (items_in (bt_keys (bs_tree bs)) f Q ≡ₚ contents f Q) as Hperm.
  { apply contents_keys; [apply bt_keys_NoDup|]. intros k. by apply (queue_ok_keys _ _ _ _ k Hok). }
  unfold BsLen, with_var, iter. run. cbn [fst snd].
  rewrite (Len_loop c bs os Q f); try done; [|intros k; by apply (queue_ok_keys _ _ _ _ k Hok)|by rewrite Hperm].
  cbn [fst snd]. by rewrite Hperm.
Qed.

(** ** Refinement *)

(** The consumers of a queue. *)
Definition consumers bs : list ForkName := bs_forks bs ++ [""].

(** Where a range is deleted, the items of any consumer below it, also those that
    will have been pushed by then, have different keys, and no item is below the
    key [fn] of its bucket. *)
Definition separate (fn : Key → Key) (fs : list ForkName) (A : qspec) (cs : list call) : Prop :=
  ∀ f g from to, CDelete f from to ∈ cs → g ∈ fs → from ≤ to →
    apart_below from (A g ++ concat (pushed <$> cs)) ∧
    ∀ it, it ∈ A g ++ concat (pushed <$> cs) → fn (it_Key it) ≤ it_Key it.

(** Room for some calls: fewer than 2^32 items per consumer, and bytes and records
    for what is pushed and left behind; and keys as [Delete] needs them. *)
Record fits (fn : Key → Key) (c : cap) (fs : list ForkName) (A : qspec) (cs : list call) : Prop := {
  ft_cap : cap_ok c;
  ft_items : ∀ f, f ∈ fs → Z.of_nat (length (A f)) + Z.of_nat (length (concat (pushed <$> cs))) < 2 ^ 32;
  ft_weight : cap_weight c + Z.of_nat (length cs) * 2 ^ 32 < 2 ^ 63;
  ft_bytes : cap_bytes c + storages (concat (pushed <$> cs)) ≤ 2 ^ 61;
  ft_separate : separate fn fs A cs;
}.

(** What a call needs for itself. *)
Record grows (call : call) (c d : cap) : Prop := {
  gr_weight : cap_weight c ≤ cap_weight d < cap_weight c + 2 ^ 32;
  gr_bytes : cap_bytes d = cap_bytes c + storages (pushed call);
  gr_told : cap_told d = cap_told c;
}.

(** A call adds what it pushes at most. *)
Lemma qstep_covers fs A o r A' f :
  qstep fs A o r A' → f ∈ fs → ∃ rest, A f ++ pushed o ≡ₚ A' f ++ rest.
Proof.
  intros Hstep Hf. destruct Hstep as [items A' HA|n g out A' [Hp _ _ _] HA|n g out rest A' _ HA|g A' HA
    |g from to A' _ Hg HA|g from to A' _ HA|A' HA|A' HA]; cbn [pushed]; rewrite ?app_nil_r;
    [exists []; by rewrite HA, app_nil_r| |exists []; by rewrite HA, app_nil_r|exists []; by rewrite HA, app_nil_r|
    |exists []; by rewrite HA, app_nil_r|exists []; by rewrite HA, app_nil_r|exists (A f); by rewrite HA];
    (destruct (decide (f = g)) as [->|Hne]; [|exists []; by rewrite HA, app_nil_r]).
  - exists out. by rewrite Hp, Permutation_app_comm.
  - exists (inside from to (A g)). rewrite Hg, Permutation_app_comm. symmetry.
    apply (filter_app_complement (λ it, from ≤ it_Key it ∧ it_Key it ≤ to)).
Qed.

Lemma fits_next fn c d fs A o r A' cs :
  fits fn c fs A (o :: cs) → grows o c d → qstep fs A o r A' → cap_ok d ∧ fits fn d fs A' cs.
Proof.
  intros [[[Hw _] [Hb _]] Hitems Hweight Hbytes Hsep] [Hgw Hgb _] Hstep.
  unfold separate in Hsep. cbn [fmap list_fmap concat length] in *.
  rewrite storages_app in Hbytes. rewrite Nat2Z.inj_succ in Hweight.
  pose proof (storages_nonneg (pushed o)). pose proof (storages_nonneg (concat (pushed <$> cs))).
  assert (cap_ok d) as Hd by (split; lia). split; [done|]. split; [done| |lia|lia|].
  - intros f Hf. specialize (Hitems f Hf). destruct (qstep_covers fs A o r A' f Hstep Hf) as [rest Hp%Permutation_length].
    rewrite !length_app in *. lia.
  - intros f g from to Hin Hg Hft. destruct (qstep_covers fs A o r A' g Hstep Hg) as [rest Hp].
    destruct (Hsep f g from to ltac:(by right) Hg Hft) as [Hapart Hlow]. rewrite app_assoc, Hp, <- app_assoc in Hapart.
    rewrite (Permutation_app_comm rest), app_assoc in Hapart. apply apart_app in Hapart as [? _]. split; [done|].
    intros it Hit. apply Hlow. rewrite app_assoc, Hp. set_solver.
Qed.

Lemma fits_read fn c fs A o cs f Q :
  fits fn c fs A (o :: cs) → f ∈ fs → A f = contents f Q → pushed o = [] →
  cap_ok (cap_read (contents f Q) c) ∧ grows o c (cap_read (contents f Q) c).
Proof.
  intros [[[Hw _] [Hb Hb']] Hitems Hweight _ _] Hf HA Hp. specialize (Hitems f Hf). rewrite HA in Hitems.
  cbn [length] in Hweight. rewrite Nat2Z.inj_succ in Hweight. split; split; rewrite ?Hp; cbn; unfold storages; cbn; done || lia.
Qed.

Lemma grows_refl c o : pushed o = [] → grows o c c.
Proof. intros Hp. split; rewrite ?Hp; cbn; unfold storages; cbn; done || lia. Qed.

(** Whether [Len] is called. *)
Definition counts (cs : list call) : Prop := ∃ f, CLen f ∈ cs.

(** What a call with the reply [r] leaves behind. *)
Record stepped (o : call) (r : reply) (c : cap) bs Q (d : cap) bs' (os' : OS) Q' : Prop := {
  sd_holds : holds_queue d bs' os' Q';
  sd_list : same_list bs bs';
  sd_trailers : trailers_ok bs Q → trailers_ok bs' Q';
  sd_lively : lively Q → lively Q';
  sd_grows : grows o c d;
  sd_qstep : qstep (consumers bs) (λ f, contents f Q) o r (λ f, contents f Q');
}.

Lemma push_step fn c bs os Q items cs :
  holds_queue c bs os Q → call_ok (consumers bs) (CPush items) → fits fn c (consumers bs) (λ f, contents f Q) (CPush items :: cs) →
  ∃ d bs' os' Q', Queue_Push items bs os = (Ok tt, bs', os') ∧ stepped (CPush items) RDone c bs Q d bs' os' Q'.
Proof.
  intros Hh Ho [Hc Hitems Hweight Hbytes _]. cbn [fmap list_fmap concat length pushed] in *.
  rewrite length_app in *. rewrite storages_app, Nat2Z.inj_succ in *.
  pose proof (storages_nonneg items). pose proof (storages_nonneg (concat (pushed <$> cs))).
  assert (Z.of_nat (length items) < 2 ^ 32) by (specialize (Hitems "" ltac:(unfold consumers; set_solver)); lia).
  assert (cap_ok (cap_push items c)) as Hc' by (destruct Hc as [[] []]; split; cbn; lia).
  destruct (push_holds c bs os Q items) as (bs' & os' & Q' & Heq & Hh' & Hsame & Htr' & Hlive & HQ'); try done.
  { intros f Hf. specialize (Hitems f Hf). lia. }
  exists (cap_push items c), bs', os', Q'. split; [done|]. split; try done.
  - split; cbn [cap_push cap_weight cap_bytes cap_told pushed]; done || lia.
  - by apply qstep_push.
Qed.

Definition read_call (op : ReadOp) (n : Z) (f : ForkName) : call :=
  match op with ReadOpPop => CPop n f | ReadOpPeek => CPeek n f end.

(** Reading with a callback that collects what it is given. *)
Lemma read_step {A} (fn : Items → M (buckets T * A) ReadOp) op add split c bs os Q f n acc cs :
  collects fn op add → holds_queue c bs os Q → call_ok (consumers bs) (read_call op n f) →
  fits split c (consumers bs) (λ f, contents f Q) (read_call op n f :: cs) →
  ∃ outs d bs' os' Q', BsRead fst set_fst n f fn (bs, acc) os = (Ok tt, (bs', add_all add outs acc), os') ∧
    stepped (read_call op n f) (RItems (concat outs) None) c bs Q d bs' os' Q'.
Proof.
  intros Hfn [Hok (fn' & Hfn' & Hsplit & Hin & Hal) Hno] Ho Hfits.
  assert (f ∈ consumers bs ∧ n ≠ 0 ∧ is_int64 n) as (Hf & Hn & Hn64) by by destruct op.
  destruct (fits_read _ _ _ _ _ _ f Q Hfits) as [Hc' Hg]; [done|done|by destruct op|].
  destruct (BsRead_ok fn op add Hfn fn' c bs os Q f n acc) as (outs & bs' & os' & Q' & Heq & Hok' & Hreads & Hothers & Hkept);
    try done; [apply Hfits|]. pose proof (rk_list _ _ _ _ _ _ _ Hkept) as Hsame.
  eexists outs, _, bs', os', Q'. split; [exact Heq|]. split; [|done|by apply Hkept|by apply Hkept|done|].
  - split; [done| |by apply (rk_faults _ _ _ _ _ _ _ Hkept)].
    exists fn'. split; [by rewrite (split_func_same bs)|]. split; [done|]. split; [by eapply in_split_kept|].
    intros k Hk. by apply Hal, (rk_dom _ _ _ _ _ _ _ Hkept).
  - destruct op; [|by apply qstep_pop]. destruct Hreads as [Hreads Hf'].
    assert (0 ≤ read_max n ≤ read_max n) as Hmax by (unfold read_max, maxInt; destruct (Z.ltb_spec n 0); lia).
    destruct (peek_first fn' Q f (read_max n) (bt_keys (bs_tree bs)) outs Hsplit Hin (bt_items_sorted (bs_tree bs)) Hreads (read_max n) Hmax)
      as [rest Hrest].
    apply (qstep_peek _ _ _ _ _ rest); [|intros g; destruct (decide (g = f)) as [->|]; auto].
    eapply smallest_perm; [|done|exact Hrest]. apply contents_keys; [apply bt_keys_NoDup|].
    intros k. by apply (queue_ok_keys _ _ _ _ k Hok).
Qed.

Lemma read_copy_step op fn c bs os Q f n cs :
  holds_queue c bs os Q → call_ok (consumers bs) (read_call op n f) →
  fits fn c (consumers bs) (λ f, contents f Q) (read_call op n f :: cs) →
  ∃ its d bs' os' Q', read_copy op (consumer fst set_fst f) n bs os = (Ok (its, None), bs', os') ∧
    stepped (read_call op n f) (RItems its None) c bs Q d bs' os' Q'.
Proof.
  intros Hh Ho Hfits.
  destruct (read_step (copy_items op) op _ fn c bs os Q f n [] cs (copy_collects op) Hh Ho Hfits) as (outs & d & bs' & os' & Q' & Heq & Hst).
  exists (concat outs), d, bs', os', Q'. split; [|done].
  unfold read_copy, with_var, attempt. rewrite consumer_Read. run. rewrite Heq. by rewrite copy_all.
Qed.

Lemma len_step fn c bs os Q f cs :
  holds_queue c bs os Q → trailers_ok bs Q → f ∈ consumers bs → fits fn c (consumers bs) (λ f, contents f Q) (CLen f :: cs) →
  BsLen f bs os = (Ok (Z.of_nat (length (contents f Q))), bs, os) ∧
  stepped (CLen f) (RLen (Z.of_nat (length (contents f Q)))) c bs Q c bs os Q.
Proof.
  intros Hh Htr Hf [_ Hitems _ _ _]. specialize (Hitems f Hf). split.
  - apply (BsLen_ok c); [apply Hh|done|done|lia].
  - split; try done; [by apply grows_refl|by apply (qstep_len _ (λ f, contents f Q))].
Qed.

Lemma delete_step fn c bs os Q f from to cs :
  holds_queue c bs os Q → split_func bs = Ok fn → call_ok (consumers bs) (CDelete f from to) →
  fits fn c (consumers bs) (λ f, contents f Q) (CDelete f from to :: cs) →
  ∃ n e d bs' os' Q', BsDelete f from to bs os = (Ok (n, e), bs', os') ∧
    stepped (CDelete f from to) (RDeleted n e) c bs Q d bs' os' Q'.
Proof.
  intros Hh Hsp (Hf & Hfrom & Hto) Hfits. destruct (Z.ltb_spec to from) as [Hlt|Hft].
  - exists 0, (Some EToLtFrom), c, bs, os, Q. split; [unfold BsDelete; by replace (to <? from) with true by lia|].
    split; try done; [by apply grows_refl|by apply qstep_range].
  - destruct (fits_read _ _ _ _ _ _ f Q Hfits) as [Hc' Hg]; [done..|].
    pose proof Hh as [Hok (fn' & Hfn & Hsplit & Hin & Hal) Hno]. assert (fn' = fn) as -> by congruence. pose proof (ft_items _ _ _ _ _ Hfits f Hf) as Hlen.
    pose proof (ft_separate _ _ _ _ _ Hfits f f from to ltac:(by left) Hf Hft) as [Hapart Hlow].
    apply apart_app in Hapart as [Hapart _].
    destruct (BsDelete_ok fn c bs os Q f from to) as (bs' & os' & Q' & Heq & Hok' & Hf' & Hothers & Hkept); try done;
      [intros it Hit; apply Hlow; set_solver|lia|apply Hfits|].
    eexists _, None, _, bs', os', Q'. split; [exact Heq|]. pose proof (rk_list _ _ _ _ _ _ _ Hkept) as Hsame.
    split; [|done|by apply Hkept|by apply Hkept|done|by apply (qstep_delete _ (λ f, contents f Q))].
    split; [done| |by apply (rk_faults _ _ _ _ _ _ _ Hkept)].
    exists fn. split; [by rewrite (split_func_same bs)|]. split; [done|]. split; [by eapply in_split_kept|].
    intros k Hk. by apply Hal, (rk_dom _ _ _ _ _ _ _ Hkept).
Qed.

Lemma sync_step c bs os Q :
  holds_queue c bs os Q → Queue_Sync bs os = (Ok tt, bs, os) ∧ stepped CSync RDone c bs Q c bs os Q.
Proof.
  intros Hh. split; [apply (BsSync_ok c bs os Q); apply Hh|]. split; try done; [by apply grows_refl|by apply qstep_sync].
Qed.

Lemma clear_step c bs os Q :
  holds_queue c bs os Q →
  ∃ bs' os', Queue_Clear bs os = (Ok tt, bs', os') ∧ stepped CClear RDone c bs Q c bs' os' ∅.
Proof.
  intros [Hok (fn & Hfn & Hsplit & _) Hno].
  destruct (BsClear_ok c bs os Q Hok Hno) as (bs' & os' & Heq & Hok' & Hsame & Hno' & Htr').
  exists bs', os'. split; [done|]. split; try done; [|intros _ k; rewrite lookup_empty; by intros []|by apply grows_refl|by apply qstep_clear].
  split; [done| |done]. exists fn. split; [by rewrite (split_func_same bs)|]. split; [done|]. by apply empty_spec.
Qed.

(** One call. *)
Lemma exec_ok fn c bs os Q o cs :
  holds_queue c bs os Q → (counts [o] → trailers_ok bs Q) → split_func bs = Ok fn → call_ok (consumers bs) o →
  fits fn c (consumers bs) (λ f, contents f Q) (o :: cs) →
  ∃ r d bs' os' Q', exec o bs os = (Ok r, bs', os') ∧ stepped o r c bs Q d bs' os' Q'.
Proof.
  intros Hh Htr Hfn Ho Hfits. destruct o as [items|n f|n f|f|f from to| |]; cbn [exec].
  - destruct (push_step fn c bs os Q items cs Hh Ho Hfits) as (d & bs' & os' & Q' & Heq & Hst).
    exists RDone, d, bs', os', Q'. split; [run; by rewrite Heq|done].
  - destruct (read_copy_step ReadOpPop fn c bs os Q f n cs Hh Ho Hfits) as (its & d & bs' & os' & Q' & Heq & Hst).
    eexists _, d, bs', os', Q'. split; [unfold PopCopy; run; by rewrite Heq|done].
  - destruct (read_copy_step ReadOpPeek fn c bs os Q f n cs Hh Ho Hfits) as (its & d & bs' & os' & Q' & Heq & Hst).
    eexists _, d, bs', os', Q'. split; [unfold PeekCopy; run; by rewrite Heq|done].
  - destruct (len_step fn c bs os Q f cs) as [Heq Hst]; try done; [apply Htr; exists f; by left|].
    eexists _, c, bs, os, Q. split; [rewrite consumer_Len; run; by rewrite Heq|done].
  - destruct (delete_step fn c bs os Q f from to cs Hh) as (n & e & d & bs' & os' & Q' & Heq & Hst);
      [done..|].
    exists (RDeleted n e), d, bs', os', Q'. split; [rewrite consumer_Delete; run; by rewrite Heq|done].
  - destruct (sync_step c bs os Q Hh) as [Heq Hst]. exists RDone, c, bs, os, Q. split; [run; by rewrite Heq|done].
  - destruct (clear_step c bs os Q Hh) as (bs' & os' & Heq & Hst). exists RDone, c, bs', os', ∅. split; [run; by rewrite Heq|done].
Qed.

(** Some of the calls that there is room for. *)
Lemma exec_all_ok fn c bs os Q cs cs' :
  holds_queue c bs os Q → (counts cs → trailers_ok bs Q) → split_func bs = Ok fn → Forall (call_ok (consumers bs)) cs →
  fits fn c (consumers bs) (λ f, contents f Q) (cs ++ cs') →
  ∃ rs d bs' os' Q', exec_all cs bs os = (Ok rs, bs', os') ∧ holds_queue d bs' os' Q' ∧ same_list bs bs' ∧
    qsteps (consumers bs) (λ f, contents f Q) cs rs (λ f, contents f Q') ∧
    fits fn d (consumers bs) (λ f, contents f Q') cs' ∧ (lively Q → lively Q') ∧ cap_told d = cap_told c.
Proof.
  revert c bs os Q. induction cs as [|o cs IH]; intros c bs os Q Hh Htr Hfn Hcs Hfits; cbn [exec_all].
  - exists [], c, bs, os, Q. split_and!; try done. by constructor.
  - apply Forall_cons in Hcs as [Ho Hcs].
    destruct (exec_ok fn c bs os Q o (cs ++ cs') Hh) as (r & d & bs1 & os1 & Q1 & Heq & [Hh1 Hsame Htr1 Hlive1 Hg Hstep]); try done.
    { intros [f <-%list_elem_of_singleton]. apply Htr. exists f. by left. }
    destruct (fits_next _ _ _ _ _ _ _ _ _ Hfits Hg Hstep) as [_ Hfits1].
    assert (consumers bs1 = consumers bs) as Hfs by (unfold consumers; by rewrite (sl_forks _ _ Hsame)).
    rewrite <- Hfs in Hcs, Hfits1.
    destruct (IH d bs1 os1 Q1 Hh1) as (rs & d' & bs' & os' & Q' & Heq' & Hh' & Hsame' & Hsteps & Hfits' & Hlive' & Ht'); try done.
    { intros [f Hf]. apply Htr1, Htr. exists f. by right. }
    { by rewrite (split_func_same bs). }
    rewrite Hfs in Hsteps, Hfits'. exists (r :: rs), d', bs', os', Q'.
    split; [run; rewrite Heq; run; by rewrite Heq'|]. split; [done|]. split; [by transitivity bs1|]. split; [by econstructor|].
    split; [done|]. split; [auto|]. destruct Hg. congruence.
Qed.

(** C2. The queue is a family of multisets: a sequence of [Push], [PopCopy],
    [PeekCopy], [Len], [Delete], [Sync] and [Clear] on a queue and its forks
    succeeds with the results of the specification: [Push] adds the items for
    every consumer, [PopCopy] removes the smallest of one and returns them in
    order, [PeekCopy] begins with them, [Len] counts, [Delete] removes and counts a
    range, [Clear] takes everything from all.  Conditions: no system errors; no
    array that is still appended to is shared by indexes of an open bucket (as
    after [Open], or [Fork] of a [roomless] queue); right totals for [Len]; valid
    items, keys of a batch less than 2^63 apart; read counts not 0; less than 2^32
    items per consumer, limits on bytes and calls; and if a range is deleted, no
    item, present or pushed by the calls, is below the key of its bucket and no two
    of a consumer below the range have the same key (else [Delete] can lose items,
    bucket.go:546). *)
Theorem queue_refines fn c bs os Q cs :
  holds_queue c bs os Q → (counts cs → trailers_ok bs Q) → split_func bs = Ok fn → Forall (call_ok (consumers bs)) cs →
  fits fn c (consumers bs) (λ f, contents f Q) cs →
  ∃ rs d bs' os' Q', exec_all cs bs os = (Ok rs, bs', os') ∧ holds_queue d bs' os' Q' ∧
    qsteps (consumers bs) (λ f, contents f Q) cs rs (λ f, contents f Q').
Proof.
  intros Hh Htr Hfn Hcs Hfits. rewrite <- (app_nil_r cs) in Hfits.
  destruct (exec_all_ok fn c bs os Q cs [] Hh Htr Hfn Hcs Hfits) as (rs & d & bs' & os' & Q' & ? & ? & _ & ? & _).
  by exists rs, d, bs', os', Q'.
Qed.
End queue.

(** ** Closing and opening *)

Section reopen.
Context {T : Type → Type} `{BTreeLaws T} `{Host, Unix, !UnixLaws} `{MapRange, !MapRangeLaws} `{RenameIO, !RenameIOLaws}.
Implicit Types (bs : buckets T) (Q : gmap Key (gmap ForkName Items)).

(** [Open] of a directory that holds a queue: only the keys of its buckets can be
    refused. *)
Lemma Open_checked {St} (s : St) c dir opts os Q fn :
  stored c dir opts os Q → dir ≠ [] → cap_ok c → os_faults os = [] → Validate opts = (None, opts) →
  sc_Func (opt_BucketSplitConf opts) = Some fn →
  TrimSpace (String.list_byte_of_string (sc_Name (opt_BucketSplitConf opts))) =
    String.list_byte_of_string (sc_Name (opt_BucketSplitConf opts)) →
  ∃ bs os', Open_queue dir opts s os = (keys_checked fn (bt_keys (bs_tree bs)) ;; Ok bs, s, os') ∧ queue_ok c bs os' Q ∧
    bs_dir bs = dir ∧ bs_opts bs = opts ∧ bs_forks bs = [] ∧ os_faults os' = [] ∧ (cap_told c = true → trailers_ok bs Q).
Proof.
  intros Hst Hne Hc Hno Hval Hfn Htrim.
  destruct (loadAllBuckets_ok s c dir opts os Q Hst Hne Hc Hno) as (bs & os1 & Hload & Hok & Hd & Ho & Hf & Hno1 & Htr).
  destruct (ValidateBucketKeys_ok c bs os1 Q fn) as (os2 & Hkeys & Hok2 & Hno2); try done; [by rewrite Hd|by rewrite Ho..|].
  exists bs, os2. split; [|done].
  unfold Open_queue, wrap_err, with_local. rewrite Hval. run. rewrite Hload. rewrite <- Ho. rewrite Hkeys.
  unfold keys_checked. by destruct (forallb _ _).
Qed.

Lemma Open_ok {St} (s : St) c dir opts os Q fn :
  stored c dir opts os Q → dir ≠ [] → cap_ok c → os_faults os = [] → Validate opts = (None, opts) →
  sc_Func (opt_BucketSplitConf opts) = Some fn → SplitFunc fn → in_split fn Q → aligned fn Q →
  TrimSpace (String.list_byte_of_string (sc_Name (opt_BucketSplitConf opts))) =
    String.list_byte_of_string (sc_Name (opt_BucketSplitConf opts)) →
  ∃ bs os', Open_queue dir opts s os = (Ok bs, s, os') ∧ holds_queue c bs os' Q ∧
    bs_dir bs = dir ∧ bs_opts bs = opts ∧ bs_forks bs = [] ∧ (cap_told c = true → trailers_ok bs Q).
Proof.
  intros Hst Hne Hc Hno Hval Hfn Hsplit Hin Hal Htrim.
  destruct (Open_checked s c dir opts os Q fn) as (bs & os' & Hopen & Hok & Hd & Ho & Hf & Hno' & Htr); try done.
  rewrite (keys_checked_ok fn) in Hopen by (intros k Hk; by apply Hal, (queue_ok_keys _ _ _ _ k Hok)).
  exists bs, os'. split; [done|]. split; [|done]. split; [done| |done]. exists fn. split; [|done]. unfold split_func. by rewrite Ho, Hfn.
Qed.

(** Options that can be stored: they are complete and the name of the split
    function is not blank at its ends. *)
Record opts_ok (opts : Options) : Prop := {
  oo_valid : Validate opts = (None, opts);
  oo_name : TrimSpace (String.list_byte_of_string (sc_Name (opt_BucketSplitConf opts))) =
    String.list_byte_of_string (sc_Name (opt_BucketSplitConf opts));
}.

Lemma Close_Open_ok {St} (s : St) c bs os Q :
  holds_queue c bs os Q → bs_forks bs = [] → bs_dir bs ≠ [] → cap_ok c → opts_ok (bs_opts bs) →
  ∃ bs1 bs2 os2, Queue_Close bs os = (Ok tt, bs1, os) ∧
    Open_queue (bs_dir bs) (bs_opts bs) s os = (Ok bs2, s, os2) ∧ holds_queue c bs2 os2 Q ∧ same_list bs bs2 ∧
    (cap_told c = true → trailers_ok bs2 Q).
Proof.
  intros [Hok (fn & Hfn & Hsplit & Hin & Hal) Hno] Hfs Hne Hc [Hval Htrim].
  destruct (BsClose_ok c bs os Q Hok Hno) as (bs1 & Hclose & _). exists bs1.
  destruct (Open_ok s c (bs_dir bs) (bs_opts bs) os Q fn) as (bs2 & os2 & Hopen & Hh & ? & ? & ? & ?); try done.
  - by apply queue_ok_stored.
  - unfold split_func in Hfn. destruct (sc_Func _); [by injection Hfn as ->|done].
  - exists bs2, os2. split_and!; try done. split; congruence.
Qed.

(** C19. A queue without forks survives: after [Close], [Open] of its directory with
    the same options gives a queue that holds exactly what its consumer had not
    read, whichever buckets were open, and that can count it unless a file of an
    index was written as a whole. *)
Theorem Close_Open {St} (s : St) c bs os Q :
  holds_queue c bs os Q → bs_forks bs = [] → bs_dir bs ≠ [] → cap_ok c → opts_ok (bs_opts bs) →
  ∃ bs1 bs2 os2, Queue_Close bs os = (Ok tt, bs1, os) ∧
    Open_queue (bs_dir bs) (bs_opts bs) s os = (Ok bs2, s, os2) ∧ holds_queue c bs2 os2 Q ∧ same_list bs bs2 ∧
    (cap_told c = true → trailers_ok bs2 Q).
Proof. apply Close_Open_ok. Qed.

(** ** From an empty directory *)

(** A directory that exists and has nothing in it. *)
Record empty_dir (os : OS) (dir : path) : Prop := {
  ed_ne : dir ≠ [];
  ed_above : ∀ d : path, d `prefix_of` dir → d ≠ [] → os_fs os !! d = Some NDir;
  ed_below : ∀ r : path, r ≠ [] → os_fs os !! (dir ++ r) = None;
}.

Lemma stored_empty c dir opts os : empty_dir os dir → stored c dir opts os ∅.
Proof.
  intros [Hne Habove Hbelow]. split; try done.
  - intros k _. rewrite lookup_empty. unfold Join. split; [by apply Hbelow|]. intros name. rewrite <- app_assoc. by apply Hbelow.
  - intros k. rewrite lookup_empty. by intros [].
  - intros name node. unfold Join. by rewrite Hbelow.
Qed.

Lemma trailers_empty bs : trailers_ok bs ∅.
Proof. intros k q f its _. by rewrite lookup_empty. Qed.

Lemma Open_empty {St} (s : St) dir opts os fn :
  empty_dir os dir → os_faults os = [] → opts_ok opts → sc_Func (opt_BucketSplitConf opts) = Some fn → SplitFunc fn →
  ∃ bs os', Open_queue dir opts s os = (Ok bs, s, os') ∧ holds_queue (mkCap 0 0 true) bs os' ∅ ∧
    bs_dir bs = dir ∧ bs_opts bs = opts ∧ bs_forks bs = [].
Proof.
  intros Hempty Hno [Hval Htrim] Hfn Hsplit.
  destruct (Open_ok s (mkCap 0 0 true) dir opts os ∅ fn) as (bs & os' & ? & ? & ? & ? & ? & _); try done; try by apply empty_spec.
  - by apply stored_empty.
  - by destruct Hempty.
  - by exists bs, os'.
Qed.
End reopen.

Section life.
Context {T : Type → Type} `{BTreeLaws T} `{Host, Unix, !UnixLaws} `{MapRange, !MapRangeLaws} `{SortFunc, !SortFuncLaws}.
Context `{CopyPkg, Devices, Unicode} `{RenameIO, !RenameIOLaws}.

(** C1. The whole life of a queue without forks: [Open] of an empty directory, a
    sequence of calls, [Close], [Open] again and more calls succeed, with the
    results of one family of multisets that begins empty; the restart cannot be
    observed, not even by [Len], which reads the totals from the files.  This
    holds without system errors and for the calls that [call_ok] and [fits] allow:
    items are valid and the keys of one batch less than 2^63 apart; counts of items
    to read are ints and not 0; fewer than 2^32 items with at most 2^61 bytes are pushed in
    less than 2^31 calls; and if any range is deleted, no item (of all that are
    pushed) is below the key of its bucket, and no two items below the range have
    the same key: otherwise [Delete] can lose items (bucket.go:546). *)
Theorem queue_life {St} (s : St) dir opts os fn cs cs' :
  empty_dir os dir → os_faults os = [] → opts_ok opts → sc_Func (opt_BucketSplitConf opts) = Some fn → SplitFunc fn →
  Forall (call_ok [""]) (cs ++ cs') → fits fn (mkCap 0 0 true) [""] (λ _, []) (cs ++ cs') →
  ∃ (bs bs1 bs2 bs3 bs4 : buckets T) os0 os1 os3 os4 rs rs' A,
    Open_queue dir opts s os = (Ok bs, s, os0) ∧
    exec_all cs bs os0 = (Ok rs, bs1, os1) ∧
    Queue_Close bs1 os1 = (Ok tt, bs2, os1) ∧
    Open_queue dir opts s os1 = (Ok bs3, s, os3) ∧
    exec_all cs' bs3 os3 = (Ok rs', bs4, os4) ∧
    qsteps [""] (λ _, []) (cs ++ cs') (rs ++ rs') A.
Proof.
  intros Hempty Hno Hopts Hfn Hsplit [Hcs Hcs']%Forall_app Hfits.
  assert (∀ bs : buckets T, bs_opts bs = opts → split_func bs = Ok fn) as Hsp by (intros bs Ho; unfold split_func; by rewrite Ho, Hfn).
  destruct (Open_empty (T := T) s dir opts os fn) as (bs & os0 & Hopen & Hh & Hd & Ho & Hf); try done.
  assert (consumers bs = [""]) as Hfs by (unfold consumers; by rewrite Hf).
  pose proof (trailers_empty bs) as Htr.
  destruct (exec_all_ok fn (mkCap 0 0 true) bs os0 ∅ cs cs' Hh) as (rs & d & bs1 & os1 & Q1 & Hexec & Hh1 & Hsame & Hsteps & Hfits' & _ & Htold);
    [done|by apply Hsp|by rewrite Hfs|by rewrite Hfs|]. pose proof (ft_cap _ _ _ _ _ Hfits') as Hd1.
  destruct (Close_Open_ok s d bs1 os1 Q1 Hh1) as (bs2 & bs3 & os3 & Hclose & Hopen3 & Hh3 & Hsame3 & Htr3).
  { by rewrite (sl_forks _ _ Hsame). }
  { rewrite (sl_dir _ _ Hsame), Hd. by destruct Hempty. }
  { done. }
  { by rewrite (sl_opts _ _ Hsame), Ho. }
  assert (consumers bs3 = [""]) as Hfs3 by (unfold consumers; by rewrite (sl_forks _ _ Hsame3), (sl_forks _ _ Hsame), Hf).
  rewrite Hfs in Hfits', Hsteps. rewrite <- (app_nil_r cs') in Hfits'.
  destruct (exec_all_ok fn d bs3 os3 Q1 cs' [] Hh3) as (rs' & d' & bs4 & os4 & Q4 & Hexec' & _ & _ & Hsteps' & _);
    [by intros _; apply Htr3; rewrite Htold
    |apply Hsp; by rewrite (sl_opts _ _ Hsame3), (sl_opts _ _ Hsame)|by rewrite Hfs3|by rewrite Hfs3|]. rewrite Hfs3 in Hsteps'.
  rewrite (sl_dir _ _ Hsame), (sl_opts _ _ Hsame), Hd, Ho in Hopen3.
  exists bs, bs1, bs2, bs3, bs4, os0, os1, os3, os4, rs, rs', (λ f, contents f Q4). split_and!; try done.
  eapply qsteps_app; [|exact Hsteps']. eapply qsteps_start; [|exact Hsteps]. done.
Qed.
End life.

(** ** Witness *)

#[local] Existing Instance Host_tiny.

Definition ex_calls : list call :=
  [CLen ""; CPush ex_items; CPeek 1 ""; CSync; CDelete "" 0 3; CDelete "" 3 0; CPop 3 ""; CLen ""].

Lemma ex_holds_queue : holds_queue ex_cap ex_open (ex_kos false) ex_spec.
Proof.
  split; [apply ex_open_ok| |done]. exists ex_split8. split; [done|]. split; [apply ex_split8_ok|].
  split; [apply ex_spec_split|]. intros k. unfold ex_spec. destruct (decide (0 = k)) as [<-|Hne]; [done|].
  rewrite lookup_singleton_ne by done. by intros [].
Qed.

Lemma ex_trailers : trailers_ok ex_open ex_spec.
Proof. intros k q f its Hk. rewrite ex_open_get in Hk. by case_decide. Qed.

Lemma ex_keys_close x y : x ∈ ex_items → y ∈ ex_items → is_int64 (it_Key x - it_Key y).
Proof.
  intros Hx Hy. unfold is_int64. vm_compute in Hx, Hy.
  repeat first [apply elem_of_nil in Hx|apply elem_of_cons in Hx as [->|Hx]]; try done;
  repeat first [apply elem_of_nil in Hy|apply elem_of_cons in Hy as [->|Hy]]; try done; cbn; lia.
Qed.

(** Deleting from the start needs little of the keys. *)
Lemma separate_low fn fs A cs :
  (∀ f g from to, CDelete f from to ∈ cs → g ∈ fs → from ≤ to →
    Forall (λ it, from ≤ it_Key it ∧ fn (it_Key it) ≤ it_Key it) (A g ++ concat (pushed <$> cs))) → separate fn fs A cs.
Proof.
  intros Hlow f g from to Hin Hg Hft. specialize (Hlow f g from to Hin Hg Hft). rewrite Forall_forall in Hlow. split.
  - unfold apart_below, below. rewrite filter_none; [constructor|]. intros it Hit. specialize (Hlow it Hit). lia.
  - intros it Hit. by apply Hlow.
Qed.

Ltac each_call H := repeat (apply elem_of_cons in H as [H|H]; [try discriminate H|]); [..|by apply elem_of_nil in H].

Ltac ex_low := apply (bool_decide_unpack _); vm_compute; exact I.

Lemma ex_calls_ok : Forall (call_ok (consumers ex_open)) ex_calls.
Proof.
  assert ("" ∈ consumers ex_open) as Hf by by left. assert (is_int64 1 ∧ is_int64 3) as [H1 H3] by (unfold is_int64; lia).
  repeat apply Forall_cons_2; try done; (split; [apply ex_valid|apply ex_keys_close]).
Qed.

Lemma ex_calls_fit : fits ex_split8 ex_cap (consumers ex_open) (λ f, contents f ex_spec) ex_calls.
Proof.
  split; [apply ex_cap_ok| |vm_compute; intuition congruence..|].
  - intros f [->|[]%elem_of_nil]%elem_of_cons. by vm_compute.
  - apply separate_low. intros f g from to Hin [->|[]%elem_of_nil]%elem_of_cons Hft. unfold ex_calls in Hin.
    each_call Hin; injection Hin as -> -> ->; [ex_low|lia].
Qed.

Lemma queue_refines_witness :
  ∃ rs d bs' os' Q',
    @exec_all _ _ Host_tiny Unix_plain Range_id Sort_insert Copy_none Devices_one Unicode_ascii ex_calls ex_open (ex_kos false)
      = (Ok rs, bs', os') ∧ holds_queue d bs' os' Q' ∧
    qsteps (consumers ex_open) (λ f, contents f ex_spec) ex_calls rs (λ f, contents f Q').
Proof.
  apply (@queue_refines _ _ _ Host_tiny Unix_plain Unix_plain_laws Range_id Range_id_laws Sort_insert Sort_insert_laws
    Copy_none Devices_one Unicode_ascii ex_split8 ex_cap ex_open (ex_kos false) ex_spec ex_calls).
  - apply ex_holds_queue.
  - intros _. apply ex_trailers.
  - done.
  - apply ex_calls_ok.
  - apply ex_calls_fit.
Defined.

Lemma Close_Open_witness :
  ∃ bs1 bs2 os2, @Queue_Close slist _ Host_tiny Unix_plain Range_id ex_open (ex_kos false) = (Ok tt, bs1, ex_kos false) ∧
    @Open_queue slist _ Host_tiny Unix_plain Range_id RenameIO_plain unit ["q"] ex_conf8 tt (ex_kos false) = (Ok bs2, tt, os2) ∧
    holds_queue ex_cap bs2 os2 ex_spec ∧ same_list ex_open bs2 ∧ (cap_told ex_cap = true → trailers_ok bs2 ex_spec).
Proof.
  apply (@Close_Open _ _ _ Host_tiny Unix_plain Unix_plain_laws Range_id Range_id_laws RenameIO_plain RenameIO_plain_laws
    unit tt ex_cap ex_open (ex_kos false) ex_spec); [apply ex_holds_queue|done|done|apply ex_cap_ok|by split].
Defined.

(** Before and after the restart. *)
Definition ex_later : list call := [CLen ""; CPeek 2 ""; CDelete "" 0 7; CPush ex_items; CClear; CPush ex_items; CPop (-1) ""].

Lemma ex_empty_dir : empty_dir (mkOS {[ ["q"] := NDir ]} []) ["q"].
Proof.
  split; [done| |].
  - intros d [e He] Hne. cbn in He. destruct d as [|x [|? ?]]; simplify_eq/=. apply lookup_singleton_eq.
  - intros r Hr. cbn. apply lookup_singleton_ne. intros [=]. by subst.
Qed.

Lemma queue_life_witness :
  ∃ (bs bs1 bs2 bs3 bs4 : buckets slist) os0 os1 os3 os4 rs rs' A,
    @Open_queue slist _ Host_tiny Unix_plain Range_id RenameIO_plain unit ["q"] ex_conf8 tt (mkOS {[ ["q"] := NDir ]} [])
      = (Ok bs, tt, os0) ∧
    @exec_all _ _ Host_tiny Unix_plain Range_id Sort_insert Copy_none Devices_one Unicode_ascii ex_calls bs os0 = (Ok rs, bs1, os1) ∧
    @Queue_Close slist _ Host_tiny Unix_plain Range_id bs1 os1 = (Ok tt, bs2, os1) ∧
    @Open_queue slist _ Host_tiny Unix_plain Range_id RenameIO_plain unit ["q"] ex_conf8 tt os1 = (Ok bs3, tt, os3) ∧
    @exec_all _ _ Host_tiny Unix_plain Range_id Sort_insert Copy_none Devices_one Unicode_ascii ex_later bs3 os3 = (Ok rs', bs4, os4) ∧
    qsteps [""] (λ _, []) (ex_calls ++ ex_later) (rs ++ rs') A.
Proof.
  apply (@queue_life _ _ _ Host_tiny Unix_plain Unix_plain_laws Range_id Range_id_laws Sort_insert Sort_insert_laws
    Copy_none Devices_one Unicode_ascii RenameIO_plain RenameIO_plain_laws unit tt ["q"] ex_conf8 _ ex_split8).
  - apply ex_empty_dir.
  - done.
  - by split.
  - done.
  - apply ex_split8_ok.
  - assert ("" ∈ [""]) as Hf by by left.
    assert (is_int64 1 ∧ is_int64 2 ∧ is_int64 3 ∧ is_int64 (-1)) as (H1 & H2 & H3 & Hm) by (unfold is_int64; lia).
    repeat apply Forall_cons_2; try done; (split; [apply ex_valid|apply ex_keys_close]).
  - split; [split; cbn; lia| |vm_compute; intuition congruence..|].
    + intros f [->|[]%elem_of_nil]%elem_of_cons. by vm_compute.
    + apply separate_low. intros f g from to Hin [->|[]%elem_of_nil]%elem_of_cons Hft. unfold ex_calls, ex_later in Hin. cbn [app] in Hin.
      each_call Hin; injection Hin as -> -> ->; [ex_low|lia|ex_low].
Defined.
