(* ===== verification/QueueCrash.v ===== *)
(** * A queue after a crash

    The program stops in the middle of a [Push] that goes over several buckets and
    is started again: what the queue that is opened then has. *)

From S2P Require Import Prelude BTree Os Item Vlog Index IndexFile Options Bucket BucketPeek BucketPop BucketQueue.
From S2P Require Import BucketForks BucketOpen BucketFaults BucketCycle BucketCrash Names Buckets BucketsLoad BucketsSplit BucketsClose.
From S2P Require Import BucketsQueue BucketsPush BucketsSpec BucketsRead BucketsOpen BucketsShovel Api Queue.

Section spec.
Implicit Types (q : gmap ForkName Items) (Q : gmap Key (gmap ForkName Items)).

(** ** The parts of a batch *)

Lemma parts_keys fn (items : Items) k :
  k ∈ (λ g, fn (first_key g)) <$> parts fn items → k ∈ (λ it, fn (it_Key it)) <$> items.
Proof.
  intros (g & -> & Hg)%list_elem_of_fmap. pose proof (parts_one_bucket fn items) as Hone. rewrite Forall_forall in Hone.
  destruct (Hone g Hg) as [Hne _]. destruct g as [|it g]; [done|]. apply list_elem_of_fmap. exists it. split; [done|].
  rewrite <- (parts_concat fn items). apply elem_of_concat. exists (it :: g). split; [by left|done].
Qed.

(** Every part of a sorted batch goes to a bucket of its own. *)
Lemma parts_apart fn (items : Items) : split_sorted fn items → NoDup ((λ g, fn (first_key g)) <$> parts fn items).
Proof.
  intros Hs. apply increasing_NoDup. revert Hs.
  induction items as [|it items IH]; intros Hs; cbn [parts fmap list_fmap]; [constructor|].
  unfold split_sorted in Hs. cbn in Hs. apply StronglySorted_inv in Hs as [Hs Hle]. specialize (IH Hs).
  assert (∀ k, k ∈ (λ g, fn (first_key g)) <$> parts fn items → fn (it_Key it) ≤ k) as Hge.
  { intros k Hk%parts_keys. rewrite Forall_forall in Hle. by apply Hle. }
  destruct (parts fn items) as [|[|x g] gs] eqn:Hp; [repeat constructor| |].
  { pose proof (parts_one_bucket fn items) as Hone. rewrite Hp in Hone. by apply Forall_cons in Hone as [[? _] _]. }
  destruct (Z.eqb_spec (fn (it_Key it)) (fn (it_Key x))) as [Heq|Hne].
  - cbn in *. unfold first_key in *. cbn in *. by rewrite Heq.
  - constructor; [done|]. apply Forall_forall. intros k Hk. pose proof (Hge k Hk) as Hk'.
    cbn in IH, Hk. unfold first_key in *. cbn in *. apply StronglySorted_inv in IH as [_ Hgt]. rewrite Forall_forall in Hgt.
    apply elem_of_cons in Hk as [->|Hk]; [|specialize (Hgt k Hk); specialize (Hge (fn (it_Key x)) ltac:(by left))]; lia.
Qed.

(** A part is what a bucket gets of the batch. *)
Lemma part_filter fn (items g : Items) :
  split_sorted fn items → g ∈ parts fn items → g = filter (λ it, fn (it_Key it) = fn (first_key g)) items.
Proof.
  intros Hs Hg. pose proof (parts_apart fn items Hs) as Hnd. pose proof (parts_one_bucket fn items) as Hone.
  rewrite <- (parts_concat fn items) at 1. revert Hnd Hone Hg. generalize (parts fn items). intros gs Hnd Hone Hg.
  assert (∀ k gs, Forall (one_bucket fn) gs → k ∉ (λ g, fn (first_key g)) <$> gs →
    filter (λ it, fn (it_Key it) = k) (concat gs) = []) as Hnone.
  { clear. intros k gs Hone. induction Hone as [|h gs Hh _ IH]; intros Hk; [done|]. cbn in Hk |- *.
    apply not_elem_of_cons in Hk as [Hk1 Hk2]. rewrite filter_app, (one_bucket_filter fn h k Hh), IH by done.
    by rewrite decide_False. }
  induction Hone as [|h gs Hh Hone IH]; [by apply elem_of_nil in Hg|]. cbn in Hnd |- *.
  apply NoDup_cons in Hnd as [Hnin Hnd]. rewrite filter_app, (one_bucket_filter fn h _ Hh).
  apply elem_of_cons in Hg as [->|Hg].
  - by rewrite decide_True, Hnone, app_nil_r.
  - rewrite decide_False; [by apply IH|]. intros Heq. apply Hnin. rewrite Heq. apply list_elem_of_fmap. by exists g.
Qed.

(** ** Buckets that have more items *)

Lemma concat_submseteq (g h : Key → Items) (ks : list Key) :
  (∀ k, g k ⊆+ h k) → concat (g <$> ks) ⊆+ concat (h <$> ks).
Proof. intros Hgh. induction ks as [|k ks IH]; cbn; [done|]. by apply submseteq_app. Qed.

Lemma contents_submseteq f Q Q' : (∀ k, queue_of Q k f ⊆+ queue_of Q' k f) → contents f Q ⊆+ contents f Q'.
Proof.
  intros Hle. set (ks := elements (dom Q ∪ dom Q')).
  rewrite <- (contents_keys ks f Q), <- (contents_keys ks f Q'); try apply NoDup_elements.
  - by apply concat_submseteq.
  - intros k ?%elem_of_dom. apply elem_of_elements. set_solver.
  - intros k ?%elem_of_dom. apply elem_of_elements. set_solver.
Qed.
End spec.

Section crash.
Context {T : Type → Type} `{BTreeLaws T} `{Host, Unix, !UnixLaws} `{MapRange, !MapRangeLaws} `{SortFunc, !SortFuncLaws}.
Context `{RenameIO, !RenameIOLaws}.
Implicit Types (bs : buckets T) (b : bucket T) (q : gmap ForkName Items) (Q : gmap Key (gmap ForkName Items)).

(** The bucket [k] is open, [all] is in its log, and there is room for [g] in its
    files, also for a recovery of its indexes. *)
Record ready (c d : cap) bs (os : OS) Q (k : Key) (g all : Items) : Prop := {
  rd_open : ∃ p b q, bt_get k (bs_tree bs) = Some (Some p) ∧ bs_heap bs !! p = Some b ∧ Q !! k = Some q ∧
    durable c b os q all ∧ b_dir b = buckPath bs k ∧
    ∀ f its, q !! f = Some its → Z.of_nat (length (its ++ g)) < 2 ^ 32;
  rd_key : is_int64 k;
  rd_room : recoverable (cap_weight d) (all ++ g);
}.

(** The state of a bucket that [g] was being pushed to, in the files. *)
Definition part_survives (d : cap) bs (os : OS) (whole : Prop) Q Q' (k : Key) (g all : Items) : Prop :=
  ∃ q q' r, Q !! k = Some q ∧ Q' !! k = Some q' ∧ parked (T := T) (untold d) os (buckPath bs k) q' ∧
    (whole → r = Ok tt) ∧ map_Forall2 (λ _, push_survives r g all) q q'.

Lemma ready_frame c d bs bs' os os' Q k g all :
  ready c d bs os Q k g all → same_bucket (buckPath bs k) os os' → bs_tree bs' = bs_tree bs → bs_dir bs' = bs_dir bs →
  (∀ p, bt_get k (bs_tree bs) = Some (Some p) → bs_heap bs' !! p = bs_heap bs !! p) → ready c d bs' os' Q k g all.
Proof.
  intros [(p & b & q & Hp & Hb & HQ & Hdu & Hdir & Hlen) Hk Hrv] Hof Ht Hd Hh. split; [|done..].
  exists p, b, q. rewrite Ht, Hh by done. unfold buckPath. rewrite Hd. split_and!; try done.
  eapply durable_frame; [|done]. by rewrite Hdir.
Qed.

(** Nothing happened yet. *)
Lemma ready_survives c d bs os Q k g all whole :
  ready c d bs os Q k g all → cap_le c d → ¬ whole → part_survives d bs (restart os) whole Q Q k g all.
Proof.
  intros [(p & b & q & Hp & Hb & HQ & Hdu & Hdir & Hlen) Hk Hrv] Hcd Hw. exists q, q, (Err EClosed). split_and!; try done.
  - rewrite <- Hdir. apply (parked_mono c); [transitivity d; [done|apply untold_le]|]. apply (parked_frame _ os); [done|]. by eapply durable_parked.
  - intros f. destruct (q !! f) as [its|]; constructor. split; [by left|done].
Qed.

(** One turn of [push]. *)
Lemma push_bucket_crash c d bs os Q k g all :
  ready c d bs os Q k g all → cap_le (cap_push g c) d → cap_ok c → cap_ok d →
  g ≠ [] → sorted_items g → Forall valid_item g →
  ∃ r p b os' q', push_bucket k g bs os = (r, put_bucket p b bs, os') ∧ (r = Ok tt ∨ ∃ e, r = Err e) ∧
    bt_get k (bs_tree bs) = Some (Some p) ∧ only_files (bucket_files (buckPath bs k)) os (restart os') ∧
    part_survives d bs (restart os') (r = Ok tt ∧ opt_ErrorMode (bs_opts bs) = ErrorModeAbort) Q (<[k := q']> Q) k g all.
Proof.
  intros [(p & b & q & Hp & Hb & HQ & Hdu & Hdir & Hlen) Hk Hrv] Hcd Hc Hd Hne Hs Hval.
  set (c1 := mkCap (cap_weight d - Z.of_nat (length g)) (cap_bytes d - storages g) (cap_told c)).
  assert (cap_le c c1) as Hc1 by (destruct Hcd; split; cbn in *; done || lia).
  assert (cap_ok (cap_push g c1)) as Hc1' by (destruct Hd; split; cbn; lia).
  assert (untold (cap_push g c1) = untold d) as Hunt by (unfold untold; f_equal; cbn; lia).
  destruct (BPush_crash_parked c1 b os q all g "" (os_faults os)) as (r & b' & os' & q' & Heq & Hr & Hof & Hpk & Hq'); try done.
  { by eapply durable_mono. }
  { by replace (cap_weight (cap_push g c1)) with (cap_weight d) by (cbn; lia). }
  replace (mkOS (os_fs os) (os_faults os)) with os in Heq by by destruct os.
  rewrite Hunt, Hdir in *. set (m := opt_ErrorMode (bs_opts bs)).
  exists (match r with Ok _ => Ok tt | Err e => if m =? ErrorModeAbort then Err (EWrap "bucket: push" e) else Ok tt | _ => r end),
    p, b', os', q'. split; [|split; [|split; [done|split; [done|]]]].
  - unfold push_bucket, forKey, on_bucket, deref, unless_abort, attempt. run. rewrite Hp. run. rewrite Hb. cbn [of_option]. rewrite Heq.
    destruct Hr as [->|[e ->]]; [done|]. cbn. fold m. by destruct (m =? ErrorModeAbort).
  - destruct Hr as [->|[e ->]]; [by left|]. destruct (m =? ErrorModeAbort); [right; by eexists|by left].
  - exists q, q', r. rewrite lookup_insert_eq. split_and!; try done. intros [Hr' Hm]. fold m in Hm.
    destruct Hr as [->|[e ->]]; [done|]. by rewrite Hm in Hr'.
Qed.

Lemma part_survives_frame d bs os os' (w w' : Prop) Q Q' Q2 k g all :
  part_survives d bs os w Q Q' k g all → same_bucket (buckPath bs k) os os' → Q2 !! k = Q' !! k → (w' → w) →
  part_survives d bs os' w' Q Q2 k g all.
Proof.
  intros (q & q' & r & HQ & HQ' & Hpk & Hw & Hq') Hsame HQ2 Hww. exists q, q', r. split_and!; try done; [|by eapply parked_frame|auto].
  exact (eq_trans HQ2 HQ').
Qed.

(** The files that the parts [gs] do not go to. *)
Definition elsewhere fn bs (gs : list Items) (p : path) : Prop :=
  ∀ g, g ∈ gs → ¬ bucket_files (buckPath bs (fn (first_key g))) p.

Lemma elsewhere_same fn bs gs os os' k :
  (∀ p, elsewhere fn bs gs p → os_fs os' !! p = os_fs os !! p) → is_int64 k → k ∉ (λ g, fn (first_key g)) <$> gs →
  (∀ g, g ∈ gs → is_int64 (fn (first_key g))) → same_bucket (buckPath bs k) os os'.
Proof.
  intros Hof Hk Hnin Hgs p Hp. apply Hof. intros g Hg Hin.
  eapply (buckPath_apart bs (fn (first_key g)) k); [by apply Hgs|done| |done|done].
  intros <-. apply Hnin. apply list_elem_of_fmap. by exists g.
Qed.

(** All turns. *)
Lemma push_parts_crash fn c d gs bs os Q (L : Key → Items) :
  (∀ k k' p, bt_get k (bs_tree bs) = Some (Some p) → bt_get k' (bs_tree bs) = Some (Some p) → k = k') →
  NoDup ((λ g, fn (first_key g)) <$> gs) → cap_ok c → cap_ok d →
  Forall (λ g, ready c d bs os Q (fn (first_key g)) g (L (fn (first_key g))) ∧ cap_le (cap_push g c) d ∧
    g ≠ [] ∧ sorted_items g ∧ Forall valid_item g) gs →
  ∃ r bs' os' Q', each (λ g, push_bucket (fn (first_key g)) g) gs bs os = (r, bs', os') ∧ (r = Ok tt ∨ ∃ e, r = Err e) ∧
    (∀ p, elsewhere fn bs gs p → os_fs os' !! p = os_fs os !! p) ∧
    (∀ k, k ∉ (λ g, fn (first_key g)) <$> gs → Q' !! k = Q !! k) ∧
    Forall (λ g, part_survives d bs (restart os') (r = Ok tt ∧ opt_ErrorMode (bs_opts bs) = ErrorModeAbort) Q Q'
      (fn (first_key g)) g (L (fn (first_key g)))) gs.
Proof.
  intros Hap Hnd Hc Hd Hgs. revert bs os Hap Hgs. induction gs as [|g gs IH]; intros bs os Hap Hgs; cbn [each].
  { exists (Ok tt), bs, os, Q. by split_and!; [|left|..]. }
  apply Forall_cons in Hgs as [(Hg & Hgd & Hne & Hs & Hval) Hgs]. cbn in Hnd. apply NoDup_cons in Hnd as [Hnin Hnd].
  set (k := fn (first_key g)) in *. pose proof (rd_key _ _ _ _ _ _ _ _ Hg) as Hk.
  destruct (push_bucket_crash c d bs os Q k g (L k) Hg Hgd Hc Hd Hne Hs Hval) as (r & p & b & os1 & q1 & Heq & Hr & Hp & Hof & Hsv).
  rewrite Forall_forall in Hgs.
  assert (∀ h, h ∈ gs → k ≠ fn (first_key h)) as Hother.
  { intros h Hh Heq'. apply Hnin. rewrite Heq'. apply list_elem_of_fmap. by exists h. }
  assert (∀ h, h ∈ gs → ready c d (put_bucket p b bs) os1 Q (fn (first_key h)) h (L (fn (first_key h)))) as Hready.
  { intros h Hh. destruct (Hgs h Hh) as [Hrd _]. eapply ready_frame; [exact Hrd| |done|done|].
    - intros p' Hp'. apply (proj1 Hof). intros Hp1. by eapply (buckPath_apart bs k); [exact Hk|apply Hrd|by apply Hother|exact Hp1|].
    - intros p' Hp'. cbn. apply list_lookup_insert_ne. intros <-. apply (Hother h Hh). by apply (Hap _ _ p). }
  run. rewrite Heq. destruct Hr as [->|[e ->]].
  - destruct (IH Hnd (put_bucket p b bs) os1) as (r & bs' & os' & Q' & Heq' & Hr & Hof' & HQ' & Hsv'); [done| |].
    { apply Forall_forall. intros h Hh. split; [by apply Hready|apply (Hgs h Hh)]. }
    exists r, bs', os', (<[k := q1]> Q'). split; [done|]. split; [done|]. split_and!.
    + intros p' Hp'. rewrite Hof' by (intros h Hh; apply Hp'; by right). apply (proj1 Hof). apply Hp'. by left.
    + intros k' Hk'. cbn in Hk'. apply not_elem_of_cons in Hk' as [Hk1 Hk2]. rewrite lookup_insert_ne by done. by apply HQ'.
    + apply Forall_cons. split.
      * eapply part_survives_frame; [exact Hsv| |by rewrite !lookup_insert_eq|tauto].
        eapply (elsewhere_same fn (put_bucket p b bs) gs); [exact Hof'|done|done|]. intros h Hh. by destruct (Hready h Hh).
      * apply Forall_forall. intros h Hh. rewrite Forall_forall in Hsv'.
        eapply part_survives_frame; [exact (Hsv' h Hh)|done|by rewrite lookup_insert_ne by by apply Hother|done].
  - exists (Err e), (put_bucket p b bs), os1, (<[k := q1]> Q). split; [done|]. split; [right; by exists e|]. split_and!.
    + intros p' Hp'. apply (proj1 Hof). apply Hp'. by left.
    + intros k' Hk'. cbn in Hk'. apply not_elem_of_cons in Hk' as [Hk1 _]. by rewrite lookup_insert_ne by done.
    + apply Forall_cons. split; [done|]. apply Forall_forall. intros h Hh.
      eapply part_survives_frame; [apply (ready_survives c d _ os1 Q _ h _ False (Hready h Hh))|..]; try done.
      * destruct (Hgs h Hh) as (_ & Hle & _). etrans; [apply cap_push_le|exact Hle].
      * by intros [].
      * by rewrite lookup_insert_ne by by apply Hother.
      * by intros [? _].
Qed.

(** ** The queue that is opened *)

(** The files after the crash hold a queue again. *)
Lemma crash_stored fn c d bs os os' Q Q' gs whole (L : Key → Items) :
  queue_ok c bs os Q → bs_forks bs = [] → cap_le c d →
  (∀ p, elsewhere fn bs gs p → os_fs os' !! p = os_fs os !! p) →
  (∀ k, k ∉ (λ g, fn (first_key g)) <$> gs → Q' !! k = Q !! k) → (∀ g, g ∈ gs → is_int64 (fn (first_key g))) →
  Forall (λ g, part_survives d bs (restart os') whole Q Q' (fn (first_key g)) g (L (fn (first_key g)))) gs →
  stored (T := T) (untold d) (bs_dir bs) (bs_opts bs) (restart os') Q' ∧ ∀ k, is_Some (Q' !! k) ↔ is_Some (Q !! k).
Proof.
  intros Hok Hfs Hcd Hof HQ Hint Hsv. rewrite Forall_forall in Hsv.
  pose proof (queue_ok_stored c bs os Q Hok Hfs) as [Hkeys Hint' Hdir Hnames].
  assert (∀ k, is_Some (Q' !! k) ↔ is_Some (Q !! k)) as Hdom.
  { intros k. destruct (decide (k ∈ (λ g, fn (first_key g)) <$> gs)) as [(g & -> & Hg)%list_elem_of_fmap|Hk]; [|by rewrite HQ].
    destruct (Hsv g Hg) as (q & q' & r & Hq & Hq' & _). split; intros _; by eexists. }
  split; [|done]. split.
  - intros k Hk. specialize (Hkeys k Hk). destruct (decide (k ∈ (λ g, fn (first_key g)) <$> gs)) as [(g & -> & Hg)%list_elem_of_fmap|Hnin].
    + destruct (Hsv g Hg) as (q & q' & r & Hq & Hq' & Hpk & _ & Hqq). unfold Key in *. rewrite Hq in Hkeys. rewrite Hq'.
      split; [exact Hpk|]. intros f. rewrite (map_Forall2_dom _ q q' f Hqq). apply Hkeys.
    + rewrite HQ by done. assert (same_bucket (buckPath bs k) os (restart os')) as Hsame by by eapply (elsewhere_same fn bs gs).
      unfold Key in *. destruct (Q !! k) as [q|].
      * destruct Hkeys as [Hpk ?]. split; [|done]. apply (parked_mono c); [transitivity d; [done|apply untold_le]|]. by eapply parked_frame.
      * destruct Hkeys as [Hd Hn]. split; [rewrite <- Hd; apply Hsame; left; by left|].
        intros name. rewrite <- (Hn name). apply Hsame. left. right. by eexists.
  - intros k Hk%Hdom. by apply Hint'.
  - intros p Hp Hne. rewrite <- (Hdir p Hp Hne). apply Hof. intros g Hg Hin. apply prefix_length in Hp.
    destruct Hin as [->|[name ->]]; unfold buckPath, Join in Hp; rewrite !length_app in Hp; cbn in Hp; lia.
  - intros name node Hnode. destruct (decide (name ∈ (λ g, Key_String (fn (first_key g))) <$> gs)) as [(g & -> & Hg)%list_elem_of_fmap|Hno].
    + left. exists (fn (first_key g)). split; [by apply Hint|done].
    + apply Hnames. rewrite <- Hnode. symmetry. apply Hof. intros g Hg Hin. apply Hno, list_elem_of_fmap. exists g. split; [|done].
      destruct Hin as [Heq|[n Heq]]; unfold buckPath, Join in Heq.
      * apply app_inj_2 in Heq as [_ [= Heq]]; done.
      * apply (f_equal length) in Heq. rewrite !length_app in Heq. cbn in Heq. lia.
Qed.

(** What a bucket gets of a batch. *)
Definition share fn (k : Key) (items : Items) : Items := filter (λ it, fn (it_Key it) = k) (sort_func cmp_items items).

(** The buckets that a batch goes to. *)
Definition targets fn (items : Items) : list Key := (λ it, fn (it_Key it)) <$> items.

(** Each bucket has its items as they were before or as they are with its share of
    the batch, or everything in its log. *)
Definition survives fn (items : Items) (L : Key → Items) Q Q' : Prop :=
  ∀ k f, queue_of Q' k f = queue_of Q k f ∨
    k ∈ targets fn items ∧ (queue_of Q' k f = queue_of Q k f ++ share fn k items ∨ queue_of Q' k f = L k ++ share fn k items).

(** The log of a bucket has what was not read from the bucket, and nothing that
    belongs to another one. *)
Definition in_log fn Q (k : Key) (all : Items) : Prop :=
  queue_of Q k "" ⊆+ all ∧ ∀ it, it ∈ all → is_int64 (it_Key it) ∧ fn (it_Key it) = k.

Lemma part_survives_queue d bs os whole Q Q' k g all f :
  part_survives d bs os whole Q Q' k g all →
  (queue_of Q' k f = queue_of Q k f ∨ queue_of Q' k f = queue_of Q k f ++ g ∨ queue_of Q' k f = all ++ g) ∧
  (whole → is_Some (Q !! k ≫= lookup f) → queue_of Q' k f = queue_of Q k f ++ g).
Proof.
  intros (q & q' & r & HQ & HQ' & _ & Hw & Hq). unfold queue_of, Key in *. rewrite HQ, HQ'. cbn.
  destruct (Hq f) as [its its' [Hcase Hdone]|]; cbn.
  - split; [exact Hcase|]. intros Hwh _. by apply Hdone, Hw.
  - split; [by left|]. by intros _ [].
Qed.

Lemma survives_split fn items (L : Key → Items) Q Q' :
  in_split fn Q → Forall valid_item items → survives fn items L Q Q' →
  (∀ k, k ∈ targets fn items → in_log fn Q k (L k)) → in_split fn Q'.
Proof.
  intros Hin Hval Hsv HL k f it Hit. rewrite Forall_forall in Hval.
  assert (it ∈ share fn k items → is_int64 (it_Key it) ∧ fn (it_Key it) = k) as Hshare.
  { intros [Hk Hit']%list_elem_of_filter. rewrite sort_func_perm in Hit'. split; [by apply Hval|done]. }
  destruct (Hsv k f) as [Heq|[Hk [Heq|Heq]]]; rewrite Heq in Hit; [by apply (Hin k f)|..];
    apply elem_of_app in Hit as [Hit|Hit]; auto; [by apply (Hin k f)|by apply (HL k Hk)].
Qed.

Lemma survives_contents fn items (L : Key → Items) Q Q' :
  survives fn items L Q Q' → (∀ k, k ∈ targets fn items → in_log fn Q k (L k)) → contents "" Q ⊆+ contents "" Q'.
Proof.
  intros Hsv HL. apply contents_submseteq. intros k. destruct (Hsv k "") as [->|[Hk [->| ->]]]; [done|by apply submseteq_inserts_r|].
  apply submseteq_inserts_r. by apply HL.
Qed.

(** The parts of a batch, which is sorted first. *)
Lemma share_cap fn k items c : cap_le (cap_push (share fn k items) c) (cap_push items c).
Proof.
  pose proof (filter_app_complement (λ it, fn (it_Key it) = k) (sort_func cmp_items items)) as Hp.
  rewrite (sort_func_perm cmp_items items) in Hp at 3. fold (share fn k items) in Hp.
  pose proof (storages_perm _ _ Hp) as Hb. apply Permutation_length in Hp. rewrite storages_app in Hb. rewrite length_app in Hp.
  pose proof (storages_nonneg (filter (λ it, ¬ fn (it_Key it) = k) (sort_func cmp_items items))).
  split; cbn; done || lia.
Qed.

Lemma share_part fn items g :
  split_sorted fn (sort_func cmp_items items) → g ∈ parts fn (sort_func cmp_items items) →
  g = share fn (fn (first_key g)) items ∧ fn (first_key g) ∈ targets fn items.
Proof.
  intros Hs Hg. split; [by apply part_filter|]. unfold targets. rewrite <- (sort_func_perm cmp_items items).
  apply parts_keys, list_elem_of_fmap. by exists g.
Qed.

(** [Push] under any faults, and the files after it. *)
Lemma BsPush_crash fn c bs os Q items (L : Key → Items) :
  queue_ok c bs os Q → split_func bs = Ok fn → SplitMono fn → cap_ok c → cap_ok (cap_push items c) →
  call_ok [""] (CPush items) →
  (∀ k, k ∈ targets fn items → ready c (cap_push items c) bs os Q k (share fn k items) (L k)) →
  ∃ r bs' os' Q', BsPush items bs os = (r, bs', os') ∧ (r = Ok tt ∨ ∃ e, r = Err e) ∧
    let gs := parts fn (sort_func cmp_items items) in
    (∀ p, elsewhere fn bs gs p → os_fs os' !! p = os_fs os !! p) ∧
    (∀ k, k ∉ (λ g, fn (first_key g)) <$> gs → Q' !! k = Q !! k) ∧
    Forall (λ g, part_survives (cap_push items c) bs (restart os') (r = Ok tt ∧ opt_ErrorMode (bs_opts bs) = ErrorModeAbort) Q Q'
      (fn (first_key g)) g (L (fn (first_key g)))) gs.
Proof.
  intros Hok Hfn Hmono Hc Hd [Hval Hcmp] Hready. set (sorted := sort_func cmp_items items).
  assert (sorted ≡ₚ items) as Hperm by apply sort_func_perm.
  assert (sorted_items sorted) as Hs by (apply sort_func_sorted; intros x y Hx Hy; by apply cmp_items_lt, Hcmp).
  assert (Forall valid_item sorted) as Hval' by by rewrite Hperm.
  pose proof (sorted_parts_of fn sorted Hmono Hs Hval') as Hsp.
  destruct (push_parts_crash fn c (cap_push items c) (parts fn sorted) bs os Q L) as (r & bs' & os' & Q' & Heq & Hr & Hrest); try done.
  - apply (qo_apart _ _ _ _ Hok).
  - by apply parts_apart.
  - assert (∀ it, it ∈ sorted → is_int64 (fn (it_Key it))) as H64.
    { intros it Hit. rewrite Forall_forall in Hval'. apply split_int64. by apply Hval'. }
    pose proof (parts_sorted fn sorted Hs Hval' H64) as Hparts. rewrite Forall_forall in Hparts. apply Forall_forall. intros g Hg. destruct (share_part fn items g Hsp Hg) as [Hshare Hk].
    destruct (Hparts g Hg) as (? & ? & ? & _). split; [rewrite Hshare at 2; by apply Hready|]. split; [|done]. rewrite Hshare. apply share_cap.
  - exists r, bs', os', Q'. split; [|done]. rewrite <- Heq. destruct items as [|it items].
    + apply Permutation_nil_r in Hperm. by rewrite Hperm.
    + by apply pushSorted_parts_holds.
Qed.

Lemma sorted_parts_split fn items :
  SplitMono fn → call_ok [""] (CPush items) → split_sorted fn (sort_func cmp_items items).
Proof.
  intros Hmono [Hval Hcmp]. apply sorted_parts_of; [done| |by rewrite sort_func_perm].
  apply sort_func_sorted. intros x y Hx Hy. by apply cmp_items_lt, Hcmp.
Qed.

(** What the parts say about all buckets. *)
Lemma parts_survive fn d bs os whole Q Q' items (L : Key → Items) :
  split_sorted fn (sort_func cmp_items items) →
  let gs := parts fn (sort_func cmp_items items) in
  (∀ k, k ∉ (λ g, fn (first_key g)) <$> gs → Q' !! k = Q !! k) →
  Forall (λ g, part_survives d bs os whole Q Q' (fn (first_key g)) g (L (fn (first_key g)))) gs →
  survives fn items L Q Q' ∧
  (whole → uniform [] Q → ∀ k, queue_of Q' k "" ≡ₚ queue_of Q k "" ++ filter (λ it, fn (it_Key it) = k) items).
Proof.
  intros Hs gs HQ Hsv. rewrite Forall_forall in Hsv.
  assert (∀ g, g ∈ gs → g = share fn (fn (first_key g)) items ∧ fn (first_key g) ∈ targets fn items) as Hgs
    by (intros g; by apply share_part).
  assert (∀ k f, k ∉ (λ g, fn (first_key g)) <$> gs → queue_of Q' k f = queue_of Q k f) as Hother.
  { intros k f Hk. unfold queue_of. by rewrite (HQ k Hk). }
  split.
  - intros k f. destruct (decide (k ∈ (λ g, fn (first_key g)) <$> gs)) as [(g & -> & Hg)%list_elem_of_fmap|Hk]; [|left; auto].
    destruct (Hgs g Hg) as [Hshare Hk]. destruct (part_survives_queue _ _ _ _ _ _ _ _ _ f (Hsv g Hg)) as [Hcase _].
    rewrite Hshare in Hcase at 5. rewrite Hshare in Hcase at 8. destruct Hcase as [?|[?|?]]; [by left|right; auto..].
  - intros Hw Hu k. rewrite <- (sort_func_perm cmp_items items) at 1. fold (share fn k items).
    destruct (decide (k ∈ (λ g, fn (first_key g)) <$> gs)) as [(g & -> & Hg)%list_elem_of_fmap|Hk].
    + destruct (Hgs g Hg) as [Hshare _]. rewrite <- Hshare. pose proof (Hsv g Hg) as Hp.
      destruct (part_survives_queue _ _ _ _ _ _ _ _ _ "" Hp) as [_ ->]; try done.
      destruct Hp as (q & q' & r & Hq & _). unfold Key in *. rewrite Hq. cbn. apply (Hu _ q Hq). by left.
    + rewrite Hother by done. assert (share fn k items = []) as ->; [|by rewrite app_nil_r].
      unfold share. rewrite <- (parts_concat fn (sort_func cmp_items items)). fold gs. apply filter_none.
      intros it (g & Hit & Hg)%elem_of_concat Heq. apply Hk, list_elem_of_fmap. exists g. split; [|done].
      destruct (Hgs g Hg) as [Hshare _]. rewrite Hshare in Hit. apply list_elem_of_filter in Hit as [Hit _]. congruence.
Qed.

(** C5. [Push] to a queue is safe against crashes: whichever system calls fail,
    [Open] of the directory succeeds after a restart, and the queue that it gives
    has lost nothing.  Each bucket has its share of the batch or has it not (or it
    has everything in its log, if its index file ends in the middle of a record);
    if [Push] succeeded and errors are not ignored, the queue has all of the batch.
    The buckets that the batch goes to are open, the queue has no forks, and the
    first key in the log of each of these buckets, also that of the batch if the
    log is empty, is not negative: with a negative one the recovery of a torn index
    hides batches (index.go:40). *)
Theorem Push_crash {St} (s : St) fn c bs os Q items faults (L : Key → Items) :
  holds_queue c bs os Q → split_func bs = Ok fn → bs_forks bs = [] → bs_dir bs ≠ [] → opts_ok (bs_opts bs) →
  cap_ok c → cap_ok (cap_push items c) → call_ok [""] (CPush items) →
  (∀ k, k ∈ targets fn items → ready c (cap_push items c) bs os Q k (share fn k items) (L k) ∧ in_log fn Q k (L k)) →
  ∃ r bs' os' bs2 os2 Q', Queue_Push items bs (mkOS (os_fs os) faults) = (r, bs', os') ∧ (r = Ok tt ∨ ∃ e, r = Err e) ∧
    Open_queue (bs_dir bs) (bs_opts bs) s (restart os') = (Ok bs2, s, os2) ∧
    holds_queue (untold (cap_push items c)) bs2 os2 Q' ∧ survives fn items L Q Q' ∧ contents "" Q ⊆+ contents "" Q' ∧
    (r = Ok tt → opt_ErrorMode (bs_opts bs) = ErrorModeAbort → contents "" Q' ≡ₚ contents "" Q ++ items).
Proof.
  intros [Hok (fn' & Hfn' & Hsplit & Hin & Hal) _] Hfn Hfs Hne [Hopts Htrim] Hc Hd Hitems Hk. assert (fn' = fn) as -> by congruence.
  assert (queue_ok c bs (mkOS (os_fs os) faults) Q) as Hok' by by apply (queue_ok_frame _ _ os).
  pose proof (sorted_parts_split fn items _ Hitems) as Hs.
  destruct (BsPush_crash fn c bs (mkOS (os_fs os) faults) Q items L Hok' Hfn _ Hc Hd Hitems)
    as (r & bs' & os' & Q' & Heq & Hr & Hof & HQ & Hsv).
  { intros k Hk'. destruct (Hk k Hk') as [Hrd _]. by eapply ready_frame. }
  destruct (parts_survive fn _ bs _ _ Q Q' items L Hs HQ Hsv) as [Hall Hwhole].
  set (gs := parts fn (sort_func cmp_items items)) in *. set (whole := r = Ok tt ∧ _) in *.
  destruct (crash_stored fn c (cap_push items c) bs (mkOS (os_fs os) faults) os' Q Q' gs whole L) as [Hst Hdom]; try done.
  { apply cap_push_le. }
  { intros g Hg. destruct (share_part fn items g Hs Hg) as [_ Hk']. destruct (Hk _ Hk') as [Hrd _]. apply Hrd. }
  destruct (Open_ok s (untold (cap_push items c)) (bs_dir bs) (bs_opts bs) (restart os') Q' fn) as (bs2 & os2 & Hopen & Hh & _); try done.
  - by destruct Hd.
  - unfold split_func in Hfn. destruct (sc_Func _); [by injection Hfn as ->|done].
  - eapply survives_split; [done|by destruct Hitems|done|]. intros k Hk'. by apply Hk.
  - intros k Hk'%Hdom. by apply Hal.
  - exists r, bs', os', bs2, os2, Q'. split_and!; try done.
    + eapply survives_contents; [done|]. intros k Hk'. by apply Hk.
    + intros Hr' Hm. apply (contents_push fn). apply Hwhole; [done|]. rewrite <- Hfs. by eapply queue_ok_uniform.
Qed.
End crash.

(** ** Witness *)

#[local] Existing Instance Host_tiny.

Lemma ex_ready : ready ex_cap (cap_push ex_new ex_cap) ex_open (ex_kos false) ex_spec 0 ex_new ex_items.
Proof.
  split; [|unfold is_int64; lia|split; vm_compute; congruence].
  exists 0%nat, (ex_kbucket false), (ex_kqueue false). split_and!; try done; [apply ex_durable|].
  apply ex_kqueue_size. cbn. lia.
Qed.

Lemma Push_crash_witness :
  ∃ r bs' os' bs2 os2 Q',
    @Queue_Push slist _ Host_tiny Unix_plain Range_id Sort_insert ex_new ex_open (ex_failing [false; false; true]) = (r, bs', os') ∧
    (r = Ok tt ∨ ∃ e, r = Err e) ∧
    @Open_queue slist _ Host_tiny Unix_plain Range_id RenameIO_plain unit ["q"] ex_conf8 tt (restart os') = (Ok bs2, tt, os2) ∧
    holds_queue (untold (cap_push ex_new ex_cap)) bs2 os2 Q' ∧
    @survives Sort_insert ex_split8 ex_new (λ _, ex_items) ex_spec Q' ∧ contents "" ex_spec ⊆+ contents "" Q' ∧
    (r = Ok tt → opt_ErrorMode ex_conf8 = ErrorModeAbort → contents "" Q' ≡ₚ contents "" ex_spec ++ ex_new).
Proof.
  apply (@Push_crash slist _ _ Host_tiny Unix_plain Unix_plain_laws Range_id Range_id_laws Sort_insert Sort_insert_laws
    RenameIO_plain RenameIO_plain_laws unit tt ex_split8 ex_cap ex_open (ex_kos false) ex_spec ex_new); try done.
  - apply ex_holds_queue.
  - split; [apply ex_new_valid|]. intros x y ->%list_elem_of_singleton ->%list_elem_of_singleton. unfold is_int64. cbn. lia.
  - intros k ->%list_elem_of_singleton. split; [apply ex_ready|]. split; [done|]. intros it Hit. by apply (ex_spec_split 0 "").
Defined.

(** *** A batch for two buckets

    The batch of the keys 2 and 21 goes to two buckets; a write for one of them
    fails, and the program is started again: the queue has all that was there
    before, and what went to the buckets before the failure.  If errors are
    ignored, the bucket is left out, [Push] goes on and nobody is told. *)

Definition ex_begun : M (buckets slist) unit :=
  @Queue_Push slist _ Host_tiny Unix_plain Range_id Sort_insert [mkItem 1 []; mkItem 20 []].

Definition ex_second : M (buckets slist) unit :=
  @Queue_Push slist _ Host_tiny Unix_plain Range_id Sort_insert [mkItem 21 []; mkItem 2 []].

Definition ex_reopened (conf : Options) (faults : list bool) : res (option error * list Key) :=
  let open := @Open_queue slist _ Host_tiny Unix_plain Range_id RenameIO_plain unit ["q"] conf tt in
  match open (mkOS {[ ["q"] := NDir ]} []) with
  | (Ok bs, _, os) =>
      let '(_, bs, os) := ex_begun bs os in
      let '(r, _, os) := attempt ex_second bs (mkOS (os_fs os) faults) in
      match r, open (restart os) with
      | Ok r, (Ok bs, _, os) =>
          match @exec slist _ Host_tiny Unix_plain Range_id Sort_insert Copy_none Devices_one Unicode_ascii (CPeek 100 "") bs os with
          | (Ok (RItems items None), _, _) => Ok (err_of r, it_Key <$> items)
          | _ => Err EClosed
          end
      | _, _ => Err EClosed
      end
  | _ => Err EClosed
  end.

Definition ex_conf2 (mode : ErrorMode) : Options := mkOptions SyncFull true mode (FixedSizeBucketSplitConf 8) 2.

Lemma push_between_buckets :
  ex_reopened (ex_conf2 ErrorModeAbort) [] = Ok (None, [1; 2; 20; 21]) ∧
  ex_reopened (ex_conf2 ErrorModeAbort) [false; false; true] =
    Ok (Some (EWrap "bucket: push" (EWrap "push: log" (EWrap "sync" (EIO "msync")))), [1; 2; 20]) ∧
  ex_reopened (ex_conf2 ErrorModeContinue) [false; false; true] = Ok (None, [1; 2; 20]) ∧
  ex_reopened (ex_conf2 ErrorModeContinue) [true] = Ok (None, [1; 20; 21]).
Proof. split_and!; vm_compute; reflexivity. Qed.
