(* ===== verification/QueueForks.v ===== *)
(** * Forks of a queue

    What [Open] knows of forks: nothing. *)

From S2P Require Import Prelude BTree Os Item Vlog Index IndexFile Options Bucket BucketPeek BucketPop BucketQueue.
From S2P Require Import BucketForks BucketDelete BucketOpen BucketCycle Names Buckets BucketsLoad BucketsSplit BucketsClose BucketsQueue.
From S2P Require Import BucketForkCycle BucketsPush BucketsSpec BucketsRead BucketsDelete BucketsFork BucketsOpen BucketsShovel Api Queue.

(** ** Forking and removing forks *)

Section holds.
Context {T : Type → Type} `{BTreeLaws T} `{Host, Unix, !UnixLaws} `{MapRange, !MapRangeLaws} `{SortFunc, !SortFuncLaws}.
Context `{CopyPkg, !CopyLaws} `{Devices, Unicode}.
Implicit Types (bs : buckets T) (Q : gmap Key (gmap ForkName Items)).

(** No other consumer has an item that [src] does not have. *)
Definition covers (fs : list ForkName) (src : ForkName) (A : qspec) : Prop := ∀ f it, f ∈ fs → it ∈ A f → it ∈ A src.

Lemma covers_busy c bs os Q src :
  holds_queue c bs os Q → lively Q → covers (consumers bs) src (λ f, contents f Q) → busy src Q.
Proof.
  intros [Hok (fn & _ & _ & Hin & _) _] Hl Hcov k Hk Hnil. destruct (Hl k Hk) as [f Hf].
  assert (f ∈ consumers bs) as Hfs.
  { destruct Hk as [q HQ]. unfold queue_of in Hf. rewrite HQ in Hf. cbn in Hf. destruct (q !! f) eqn:Hq; [|done].
    apply (queue_ok_uniform _ _ _ _ Hok k q HQ). by eexists. }
  destruct (queue_of Q k f) as [|it its] eqn:Hits; [done|].
  assert (it ∈ queue_of Q k f) as Hit by (rewrite Hits; by left).
  pose proof (Hcov f it Hfs (queue_of_contents _ _ _ _ Hit)) as Hsrc.
  apply elem_of_concat in Hsrc as (l & Hl' & (k' & -> & _)%list_elem_of_fmap).
  destruct (Hin k f it Hit) as [_ <-], (Hin k' src it Hl') as [_ <-]. rewrite Hnil in Hl'. by apply elem_of_nil in Hl'.
Qed.

(** A consumer that the queue does not have. *)
Lemma contents_stranger c bs os Q f : queue_ok c bs os Q → f ∉ consumers bs → contents f Q = [].
Proof.
  intros Hok Hf. unfold contents, items_in. generalize (elements (dom Q)). intros ks. induction ks as [|k ks IH]; [done|].
  cbn. rewrite IH, app_nil_r. unfold queue_of. destruct (Q !! k) as [q|] eqn:HQ; [|done]. cbn.
  destruct (q !! f) eqn:Hq; [|done]. destruct Hf. apply (queue_ok_uniform _ _ _ _ Hok k q HQ). by eexists.
Qed.

(** The queue with a new consumer. *)
Definition fork_of (src dst : ForkName) (A : qspec) : qspec := λ f, if decide (f = dst) then A src else A f.

Lemma Fork_holds c bs os Q src dst :
  holds_queue c bs os Q → lively Q → src ∈ consumers bs → dst ∉ bs_forks bs → Validate_name dst = Ok tt →
  covers (consumers bs) src (λ f, contents f Q) → roomless src bs →
  ∃ bs' os' Q', c_Fork (consumer (λ bs, bs) (λ bs _, bs) src) dst bs os = (Ok (mkFork dst true), bs', os') ∧
    holds_queue (untold (cap_read (contents src Q) c)) bs' os' Q' ∧
    bs_dir bs' = bs_dir bs ∧ bs_opts bs' = bs_opts bs ∧ bs_forks bs' = bs_forks bs ++ [dst] ∧
    ∀ f, contents f Q' = fork_of src dst (λ f, contents f Q) f.
Proof.
  intros Hh Hl Hsrc Hdst Hname Hcov Hroom. pose proof (covers_busy c bs os Q src Hh Hl Hcov) as Hbusy.
  destruct Hh as [Hok (fn & Hfn & Hsplit & Hin & Hal) Hno].
  destruct (BsFork_ok c bs os Q src dst Hok Hsrc Hdst Hname Hbusy Hroom Hno) as (bs' & os' & Heq & Hok' & Hno' & Hd & Ho & Hf).
  exists bs', os', (fork_spec src dst Q). split; [|split; [|split_and!; try done]].
  - unfold consumer. destruct (decide (src = "")) as [->|Hne]; cbn; unfold Queue_Fork, Fork_Fork; run; cbn; by rewrite Heq.
  - split; [done| |done]. exists fn. split; [unfold split_func; by rewrite Ho|]. split; [done|]. split.
    + intros k f it. rewrite queue_of_forked. apply Hin.
    + intros k. unfold fork_spec. rewrite lookup_fmap, fmap_is_Some. apply Hal.
  - intros f. rewrite contents_forked. unfold fork_of. by case_decide.
Qed.

Lemma Remove_holds c bs os Q f :
  holds_queue c bs os Q → f ∈ bs_forks bs → Validate_name f = Ok tt →
  ∃ bs' os' Q', Fork_Remove (bs, mkFork f true) os = (Ok tt, (bs', mkFork f false), os') ∧
    holds_queue c bs' os' Q' ∧ (trailers_ok bs Q → trailers_ok bs' Q') ∧
    bs_dir bs' = bs_dir bs ∧ bs_opts bs' = bs_opts bs ∧ bs_forks bs' = filter (λ g, f ≠ g) (bs_forks bs) ∧
    contents f Q' = [] ∧ (∀ g, g ≠ f → contents g Q' ≡ₚ contents g Q) ∧
    ∀ k q, Q !! k = Some q → Q' !! k = None ↔ is_Some (open_at bs k) ∧ only_items f q.
Proof.
  intros [Hok (fn & Hfn & Hsplit & Hin & Hal) Hno] Hf Hname.
  destruct (BsRemoveFork_ok c bs os Q f Hok Hf Hname Hno)
    as (bs' & os' & Q' & Heq & Hok' & Hno' & Hd & Ho & Hfs & HQ' & Hdom & Htr & Hemptied). exists bs', os', Q'.
  assert (f ∉ consumers bs') as Hgone.
  { unfold consumers. rewrite Hfs, elem_of_app, list_elem_of_filter, list_elem_of_singleton.
    intros [[? _]| ->]; [done|]. by apply Validate_name_ne in Hname. }
  split; [|split; [|split; [done|split_and!; try done]]].
  - unfold Fork_Remove. run. cbn [snd fst fk_q fk_name]. by rewrite Heq.
  - split; [done| |done]. exists fn. split; [unfold split_func; by rewrite Ho|]. split; [done|]. split.
    + intros k g it Hit. destruct (decide (g = f)) as [->|Hne]; [|rewrite HQ' in Hit by done; by apply (Hin k g)].
      exfalso. apply queue_of_contents in Hit. rewrite (contents_stranger c bs' os') in Hit by done. by apply elem_of_nil in Hit.
    + intros k Hk. by apply Hal, Hdom.
  - by apply (contents_stranger c bs' os').
  - intros g Hg. apply contents_same. intros k. by apply HQ'.
Qed.

(** C8. [Fork] of the queue or of a fork of it, on a queue whose source has every
    item that any consumer has: the new consumer has the items of the source, the
    others keep theirs, and from then on both are consumers of one queue, to which
    [queue_refines] applies.  Buckets may be open or closed; in those that are
    open no list of the source in memory may have room left for an [append]
    ([roomless]), because the new consumer goes on to use the arrays of these
    lists: with room, a batch that one of them keeps can be overwritten by the
    other one.  There is no room when no bucket is open, and with the way Go
    allocates, none in a list that never had more than two batches. *)
Theorem Fork_queue c bs os Q src dst :
  holds_queue c bs os Q → lively Q → src ∈ consumers bs → dst ∉ bs_forks bs → Validate_name dst = Ok tt →
  covers (consumers bs) src (λ f, contents f Q) → roomless src bs →
  ∃ bs' os' Q', c_Fork (consumer (λ bs, bs) (λ bs _, bs) src) dst bs os = (Ok (mkFork dst true), bs', os') ∧
    holds_queue (untold (cap_read (contents src Q) c)) bs' os' Q' ∧
    bs_dir bs' = bs_dir bs ∧ bs_opts bs' = bs_opts bs ∧ bs_forks bs' = bs_forks bs ++ [dst] ∧
    ∀ f, contents f Q' = fork_of src dst (λ f, contents f Q) f.
Proof. apply Fork_holds. Qed.

(** C9. [Remove] of a fork: its handle forgets the queue, its items and files are
    gone, all other consumers keep what they have, and exactly the buckets that
    are open and in which nobody else has items are gone as well. *)
Theorem Fork_Remove_queue c bs os Q f :
  holds_queue c bs os Q → f ∈ bs_forks bs → Validate_name f = Ok tt →
  ∃ bs' os' Q', Fork_Remove (bs, mkFork f true) os = (Ok tt, (bs', mkFork f false), os') ∧
    holds_queue c bs' os' Q' ∧ (trailers_ok bs Q → trailers_ok bs' Q') ∧
    bs_dir bs' = bs_dir bs ∧ bs_opts bs' = bs_opts bs ∧ bs_forks bs' = filter (λ g, f ≠ g) (bs_forks bs) ∧
    contents f Q' = [] ∧ (∀ g, g ≠ f → contents g Q' ≡ₚ contents g Q) ∧
    ∀ k q, Q !! k = Some q → Q' !! k = None ↔ is_Some (open_at bs k) ∧ only_items f q.
Proof. apply Remove_holds. Qed.

(** [Fork.Remove] says that all operations of the fork return [ErrNoSuchFork]
    afterwards; [Len] returns 0 and [Fork] panics. *)
Lemma removed_fork (f : Fork) bs os n from to name fn :
  fk_q f = false →
  let con := Fork_Consumer (λ bs, bs) (λ bs _, bs) f in
  c_Read con n fn bs os = (Err ENoSuchFork, bs, os) ∧ c_Delete con from to bs os = (Ok (0, Some ENoSuchFork), bs, os) ∧
  Fork_Remove (bs, f) os = (Err ENoSuchFork, (bs, f), os) ∧
  c_Len con bs os = (Ok 0, bs, os) ∧ c_Fork con name bs os = (Panic, bs, os).
Proof. destruct f as [g b]. cbn [fk_q]. intros ->. repeat split. Qed.
End holds.

(** ** A queue that is forked for a while *)

Section life.
Context {T : Type → Type} `{BTreeLaws T} `{Host, Unix, !UnixLaws} `{MapRange, !MapRangeLaws} `{SortFunc, !SortFuncLaws}.
Context `{CopyPkg, !CopyLaws} `{Devices, Unicode} `{RenameIO, !RenameIOLaws}.
Implicit Types (bs : buckets T) (Q : gmap Key (gmap ForkName Items)).

(** [Open], some calls, [Fork], calls of both consumers, [Remove] of the fork, more
    calls, [Close], [Open] and the last calls. *)
Definition fork_session {St} (dir : path) (opts : Options) (dst : ForkName) (cs1 cs2 cs3 cs4 : list call)
    : M St (list reply * list reply * list reply * list reply) :=
  bs ← Open_queue (T := T) dir opts;
  '(rs, _) ← with_local bs (
    rs1 ← exec_all cs1;
    f ← Queue_Fork dst;
    rs2 ← exec_all cs2;
    with_var f Fork_Remove ;;
    rs3 ← exec_all cs3;
    Queue_Close ;;
    mret (rs1, rs2, rs3));
  bs ← Open_queue (T := T) dir opts;
  '(rs4, _) ← with_local bs (exec_all cs4);
  mret (rs, rs4).

(** What comes before the [Fork], and the buckets it leaves. *)
Definition before_fork {St} (dir : path) (opts : Options) (cs1 : list call) : M St (list reply * buckets T) :=
  bs ← Open_queue (T := T) dir opts;
  with_local bs (exec_all cs1).

(** The queue without a consumer. *)
Definition forget (f : ForkName) (A : qspec) : qspec := λ g, if decide (g = f) then [] else A g.

(** A fork takes as much room as a call. *)
Lemma fits_fork fn c fs A src dst cs :
  fits fn c fs A (CSync :: cs) → src ∈ fs → fits fn (untold (cap_read (A src) c)) (dst :: fs) (fork_of src dst A) cs.
Proof.
  intros [[[Hw _] Hb] Hitems Hweight Hbytes Hsep] Hsrc. unfold separate in Hsep. cbn [fmap list_fmap concat pushed length app] in *.
  rewrite Nat2Z.inj_succ in Hweight. pose proof (Hitems src Hsrc) as Hl.
  assert (∀ f, f ∈ dst :: fs → ∃ g, g ∈ fs ∧ fork_of src dst A f = A g) as Hof.
  { intros f Hf. unfold fork_of. case_decide as Hfd; [by exists src|]. exists f. split; [|done]. by apply elem_of_cons in Hf as []. }
  split; [split; cbn; lia| |cbn; lia|done|].
  - intros f (g & Hg & ->)%Hof. by apply Hitems.
  - intros f g from to Hin (g' & Hg & ->)%Hof Hft. by apply (Hsep f g' from to); [right|..].
Qed.

Lemma fits_fewer fn c fs fs' A A' cs :
  fits fn c fs A cs → (∀ f, f ∈ fs' → f ∈ fs ∧ A' f ≡ₚ A f) → fits fn c fs' A' cs.
Proof.
  intros [Hc Hitems Hw Hb Hsep] Hf. split; try done; [intros f [Hin ->]%Hf; by apply Hitems|].
  intros f g from to Hin [Hg Heq]%Hf Hft. destruct (Hsep f g from to Hin Hg Hft) as [Ha Hl].
  split; [by rewrite Heq|]. intros it. rewrite Heq. apply Hl.
Qed.

(** From the fork to its removal. *)
Lemma fork_calls fn c bs os Q dst cs cs' :
  holds_queue c bs os Q → split_func bs = Ok fn → lively Q → bs_forks bs = [] → Validate_name dst = Ok tt →
  Forall (call_ok [dst; ""]) cs → ¬ counts cs → fits fn c [""] (λ f, contents f Q) (CSync :: cs ++ cs') →
  roomless "" bs →
  ∃ bs1 os1 rs bs2 os2 bs3 os3 d Q3 A2, Queue_Fork dst bs os = (Ok (mkFork dst true), bs1, os1) ∧
    exec_all cs bs1 os1 = (Ok rs, bs2, os2) ∧
    Fork_Remove (bs2, mkFork dst true) os2 = (Ok tt, (bs3, mkFork dst false), os3) ∧ holds_queue d bs3 os3 Q3 ∧
    bs_dir bs3 = bs_dir bs ∧ bs_opts bs3 = bs_opts bs ∧ bs_forks bs3 = [] ∧ fits fn d [""] (λ f, contents f Q3) cs' ∧
    qsteps [dst; ""] (fork_of "" dst (λ f, contents f Q)) cs rs A2 ∧ ∀ f, forget dst A2 f ≡ₚ contents f Q3.
Proof.
  intros Hh Hfn Hl Hf Hname Hcs Hcount Hfits Hroom. assert (consumers bs = [""]) as Hfs by (unfold consumers; by rewrite Hf).
  destruct (Fork_holds c bs os Q "" dst) as (bs1 & os1 & Q1 & Hfork & Hh1 & Hd1 & Ho1 & Hf1 & HQ1); try done.
  { rewrite Hfs. by left. }
  { rewrite Hf. by intros ?%elem_of_nil. }
  { rewrite Hfs. by intros f it ->%list_elem_of_singleton. }
  rewrite Hf in Hf1. cbn in Hf1. assert (consumers bs1 = [dst; ""]) as Hfs1 by (unfold consumers; by rewrite Hf1).
  apply (fits_fork _ _ _ _ "" dst) in Hfits; [|by left].
  assert (fits fn (untold (cap_read (contents "" Q) c)) [dst; ""] (λ f, contents f Q1) (cs ++ cs')) as Hfits1.
  { eapply fits_fewer; [exact Hfits|]. intros f Hfin. by rewrite HQ1. }
  destruct (exec_all_ok fn _ bs1 os1 Q1 cs cs' Hh1) as (rs & d & bs2 & os2 & Q2 & Hexec & Hh2 & Hsame & Hsteps & Hfits2 & _);
    [done|unfold split_func; by rewrite Ho1|by rewrite Hfs1|by rewrite Hfs1|]. rewrite Hfs1 in Hsteps, Hfits2.
  destruct (Remove_holds d bs2 os2 Q2 dst Hh2) as (bs3 & os3 & Q3 & Hrm & Hh3 & _ & Hd3 & Ho3 & Hf3 & Hgone & HQ3 & _); [|done|].
  { rewrite (sl_forks _ _ Hsame), Hf1. by left. }
  assert (∀ f, forget dst (λ f, contents f Q2) f ≡ₚ contents f Q3) as Hforget.
  { intros f. unfold forget. case_decide as Hfd; [subst f; by rewrite Hgone|by rewrite HQ3]. }
  exists bs1, os1, rs, bs2, os2, bs3, os3, d, Q3, (λ f, contents f Q2).
  rewrite Hd3, Ho3, Hf3, (sl_dir _ _ Hsame), (sl_opts _ _ Hsame), (sl_forks _ _ Hsame), Hf1.
  split_and!; try done.
  - change (c_Fork _ dst bs os) with (zoom (λ bs, bs) (λ bs _, bs) (Queue_Fork dst) bs os) in Hfork.
    unfold zoom in Hfork. by destruct (Queue_Fork dst bs os) as [[] ?].
  - by rewrite filter_cons_False by (intros Hx; by apply Hx).
  - eapply fits_fewer; [exact Hfits2|]. intros f ->%list_elem_of_singleton. split; [by right; left|].
    apply HQ3. by apply not_eq_sym, Validate_name_ne.
  - eapply qsteps_start; [|exact Hsteps]. intros f. symmetry. cbn. rewrite HQ1. done.
Qed.

(** C4. A queue that is forked for a while: from an empty directory, some calls
    succeed with the results of one family of multisets; and if they leave no
    open bucket in which a list of the queue in memory has room for an [append]
    (else the fork shares arrays that are written to, and batches can be lost),
    then a [Fork], calls of both consumers, [Remove] of the fork, more calls, a
    restart and more calls all succeed with the results of that family, in which
    the fork begins with what the queue has at that time.  The calls are as in
    [queue_life] (no count of 0, keys of a batch within 2^63 of each other, room
    for all; where a range is deleted, no two items of a consumer below it have
    the same key and no item is below the key of its bucket), and [Len] is not
    called after the fork. *)
Theorem fork_life {St} (s : St) dir opts os fn dst cs1 cs2 cs3 cs4 :
  empty_dir os dir → os_faults os = [] → opts_ok opts → sc_Func (opt_BucketSplitConf opts) = Some fn → SplitFunc fn →
  Validate_name dst = Ok tt → Forall (call_ok [""]) (cs1 ++ cs3 ++ cs4) → Forall (call_ok [dst; ""]) cs2 →
  ¬ counts (cs2 ++ cs3 ++ cs4) → fits fn (mkCap 0 0 true) [""] (λ _, []) (cs1 ++ CSync :: cs2 ++ cs3 ++ cs4) →
  ∃ rs1 bs1 os1 A1, before_fork dir opts cs1 s os = (Ok (rs1, bs1), s, os1) ∧ qsteps [""] (λ _, []) cs1 rs1 A1 ∧
    (roomless "" bs1 →
     ∃ rs2 rs3 rs4 os' A2 A4,
       fork_session dir opts dst cs1 cs2 cs3 cs4 s os = (Ok (rs1, rs2, rs3, rs4), s, os') ∧
       qsteps [dst; ""] (fork_of "" dst A1) cs2 rs2 A2 ∧
       qsteps [""] (forget dst A2) (cs3 ++ cs4) (rs3 ++ rs4) A4).
Proof.
  intros Hempty Hno Hopts Hfn Hsplit Hname [Hcs1 [Hcs3 Hcs4]%Forall_app]%Forall_app Hcs2 Hcount Hfits.
  assert (¬ counts cs2 ∧ ¬ counts cs3 ∧ ¬ counts cs4) as (Hc2 & Hc3 & Hc4)
    by (split_and!; intros [f Hf]; apply Hcount; exists f; set_solver).
  assert (∀ bs : buckets T, bs_opts bs = opts → split_func bs = Ok fn) as Hsp by (intros bs Ho; unfold split_func; by rewrite Ho, Hfn).
  destruct (Open_empty (T := T) s dir opts os fn) as (bs & os0 & Hopen & Hh & Hd & Ho & Hf); try done.
  assert (consumers bs = [""]) as Hfs by (unfold consumers; by rewrite Hf).
  destruct (exec_all_ok fn _ bs os0 ∅ cs1 (CSync :: cs2 ++ cs3 ++ cs4) Hh)
    as (rs1 & d1 & bs1 & os1 & Q1 & Hexec1 & Hh1 & Hsame1 & Hsteps1 & Hfits1 & Hlive);
    [intros _; apply trailers_empty|by apply Hsp|by rewrite Hfs|by rewrite Hfs|]. rewrite Hfs in Hsteps1, Hfits1.
  exists rs1, bs1, os1, (λ f, contents f Q1).
  split; [unfold before_fork, with_local; run; by rewrite Hopen, Hexec1|]. split; [done|]. intros Hroom.
  destruct (fork_calls fn d1 bs1 os1 Q1 dst cs2 (cs3 ++ cs4) Hh1)
    as (bs2 & os2 & rs2 & bs3 & os3 & bs4 & os4 & d4 & Q4 & A2 & Hfork & Hexec2 & Hrm & Hh4 & Hd4 & Ho4 & Hf4 & Hfits4 & Hsteps2 & HA2);
    try done; [apply Hsp; by rewrite (sl_opts _ _ Hsame1)|apply Hlive; intros k; rewrite lookup_empty; by intros []|by rewrite (sl_forks _ _ Hsame1)|].
  assert (consumers bs4 = [""]) as Hfs4 by (unfold consumers; by rewrite Hf4).
  destruct (exec_all_ok fn _ bs4 os4 Q4 cs3 cs4 Hh4)
    as (rs3 & d5 & bs5 & os5 & Q5 & Hexec3 & Hh5 & Hsame5 & Hsteps3 & Hfits5 & _);
    [done|apply Hsp; by rewrite Ho4, (sl_opts _ _ Hsame1)|by rewrite Hfs4|by rewrite Hfs4|]. rewrite Hfs4 in Hsteps3, Hfits5.
  assert (bs_dir bs5 = dir ∧ bs_opts bs5 = opts ∧ bs_forks bs5 = []) as (Hd5 & Ho5 & Hf5)
    by (destruct Hsame1, Hsame5; split_and!; congruence).
  destruct (Close_Open_ok s d5 bs5 os5 Q5 Hh5 Hf5) as (bs6 & bs7 & os7 & Hclose & Hopen7 & Hh7 & Hsame7 & _);
    [by rewrite Hd5; destruct Hempty|by destruct Hfits5|by rewrite Ho5|]. rewrite Hd5, Ho5 in Hopen7.
  assert (consumers bs7 = [""]) as Hfs7 by (unfold consumers; by rewrite (sl_forks _ _ Hsame7), Hf5).
  rewrite <- (app_nil_r cs4) in Hfits5.
  destruct (exec_all_ok fn d5 bs7 os7 Q5 cs4 [] Hh7) as (rs4 & d8 & bs8 & os8 & Q8 & Hexec4 & _ & _ & Hsteps4 & _ & _);
    [done|apply Hsp; by rewrite (sl_opts _ _ Hsame7)|by rewrite Hfs7|by rewrite Hfs7|]. rewrite Hfs7 in Hsteps4.
  exists rs2, rs3, rs4, os8, A2, (λ f, contents f Q8). split; [|split; [done|]].
  - unfold fork_session, with_local, with_var. run. rewrite Hopen, Hexec1, Hfork, Hexec2, Hrm, Hexec3, Hclose, Hopen7, Hexec4. done.
  - eapply qsteps_start; [intros f; symmetry; apply HA2|]. by eapply qsteps_app.
Qed.
End life.

(** ** Opening forgets the forks *)

Section forget.
Context {T : Type → Type} `{BTreeLaws T} `{Host, Unix} `{MapRange, !MapRangeLaws} `{RenameIO}.
Implicit Types (bs : buckets T) (b : bucket T).

(** The consumers of a bucket are among [fs]. *)
Definition only_forks (fs : list ForkName) b : Prop := ∀ f, is_Some (b_indexes b !! f) → f ∈ fs.

Lemma yields_load_indexes {St} dir log opts fs (indexes : gmap ForkName (bucketIndex T)) entries :
  yields (λ ie, ∀ f, is_Some (ie.1 !! f) → is_Some (indexes !! f) ∨ f ∈ fs)
    (load_indexes (St := St) dir log opts fs indexes entries).
Proof.
  revert indexes entries. induction fs as [|g fs IH]; intros indexes entries; cbn [load_indexes].
  - apply yields_ret. cbn. auto.
  - apply yields_then. intros idx. specialize (IH (<[g := idx]> indexes) (uint64 (entries + NEntries (bi_Mem idx)))).
    intros s os. specialize (IH s os). destruct (load_indexes _ _ _ _ _ _ s os) as [[[ie| | |] ?] ?]; cbn in *; try done.
    intros f [Hf|Hf]%IH; [|right; by right]. apply lookup_insert_is_Some in Hf as [->|[_ ?]]; [right; by left|by left].
Qed.

Lemma yields_openBucket {St} dir (fs gs : list ForkName) opts :
  fs ⊆ gs → "" ∈ gs → yields (only_forks gs) (openBucket (T := T) (St := St) dir fs opts).
Proof.
  intros Hsub Hg. unfold openBucket. generalize 2%nat. intros fuel. revert fs Hsub. 
  induction fuel as [|fuel IH]; intros fs Hsub; cbn [openBucket_loop]; [by intros s os|].
  apply yields_then. intros _ s os. unfold recoverMmapError.
  match goal with |- context [?m s os] => enough (yields (only_forks gs) m) as Hm;
    [specialize (Hm s os); by destruct (m s os) as [[[] ?] ?]|] end.
  apply yields_then. intros log. eapply yields_bind; [apply yields_load_indexes|].
  intros [indexes entries] Hin. apply yields_then. intros key. case_match.
  - apply yields_then. intros _. apply yields_then. intros _. apply IH. set_solver.
  - apply yields_ret. intros f Hf. destruct (Hin f Hf) as [[? Hx]|?]; [by rewrite lookup_empty in Hx|set_solver].
Qed.

Lemma Forks_only b : only_forks [""] b → Forks b = [].
Proof.
  intros Hb. apply Permutation_nil_r. unfold Forks. rewrite merge_sort_Permutation.
  rewrite filter_none; [done|]. intros f Hf%range_forks_spec%Hb%list_elem_of_singleton. auto.
Qed.

Lemma closeUnused_none n bs os : nloaded bs = 0 → closeUnused n bs os = (Ok tt, bs, os).
Proof.
  intros Hn. unfold closeUnused. destruct (Z.ltb_spec n 0); [done|]. run. rewrite Hn. by replace (0 <=? n) with true by lia.
Qed.

(** A list of buckets without open ones finds no forks. *)
Lemma fetchForks_none bs os fs bs' os' :
  bs_forks bs = [] → (∀ k p, bt_get k (bs_tree bs) ≠ Some (Some p)) →
  fetchForks bs os = (Ok fs, bs', os') → fs = [].
Proof.
  intros Hfs Hclosed. unfold fetchForks. run.
  assert (default None (last (bt_items (bs_tree bs)).*2) = None) as ->.
  { destruct (last (bt_items (bs_tree bs)).*2) as [[p|]|] eqn:Hl; [|done..]. exfalso.
    apply last_Some_elem_of, list_elem_of_fmap in Hl as ([k v] & ? & Hin%bt_items_get). by eapply Hclosed; simplify_eq/=. }
  destruct (bt_keys (bs_tree bs)) as [|k ks]; [by intros [=]|]. unfold forKey, tree_set, alloc, deref. run.
  assert (nloaded bs = 0) as Hn.
  { unfold nloaded. destruct (omap snd (bt_items (bs_tree bs))) as [|p l] eqn:Hl; [done|]. exfalso.
    assert (p ∈ omap snd (bt_items (bs_tree bs))) as Hp by (rewrite Hl; by left).
    apply list_elem_of_omap in Hp as ([k' v] & Hin%bt_items_get & Hv). cbn in Hv. subst v. by eapply Hclosed. }
  assert (∀ p, bt_get k (bs_tree bs) ≠ Some (Some p)) as Hk by auto.
  destruct (bt_get k (bs_tree bs)) as [[p|]|]; [by destruct (Hk p)|..];
    rewrite (closeUnused_none _ bs os Hn), Hfs;
    pose proof (keeps_openBucket (St := buckets T) (T := T) (buckPath bs k) [] (bs_opts bs) bs os) as Hkeep;
    destruct (openBucket _ _ _ bs os) as [[[b| | |] bs1] os1] eqn:Hopen; try (by intros [=]); cbn in Hkeep; subst bs1;
    cbn [bs_heap set_tree set_heap bs_tree];
    rewrite lookup_app_r, Nat.sub_diag by lia; cbn; intros [= <- _ _];
    apply Forks_only; (eapply (yields_Ok _ _ _ _ _ _ _ (yields_openBucket _ _ [""] _ _ _) Hopen)).
  Unshelve. all: set_solver.
Qed.

(** The loop over the directory opens nothing. *)
Definition none_open (t : T (option nat)) : Prop := ∀ k p, bt_get k t ≠ Some (Some p).

Definition still_closed (d d' : loading (T := T)) : Prop := none_open (ld_tree d) → none_open (ld_tree d').

#[local] Instance still_closed_preorder : PreOrder still_closed.
Proof. split; [by intros d Hd|]. intros x y z H1' H2'. unfold still_closed in *. auto. Qed.

Lemma keeps_load_entry dir opts ent : keeps still_closed (load_entry dir opts ent).
Proof.
  unfold load_entry. apply keeps_bind; [apply _|case_decide; [apply keeps_modify; by intros d Hd|keeps]|intros _].
  case_match; [keeps|]. apply keeps_bind; [apply _|keeps|intros [e|key]]; [keeps|].
  apply keeps_bind; [apply _|apply keeps_modify; by intros d Hd|intros _].
  apply keeps_bind; [apply _| |intros _].
  - unfold ReadTrailers, ReadDir, ReadTrailer, OpenRead, load_trailer. keeps; apply keeps_modify; by intros d Hd.
  - apply keeps_modify. intros d Hd k p. cbn. rewrite bt_get_set. case_decide; [done|]. apply Hd.
Qed.

(** The list that [loadAllBuckets] asks for the forks. *)
Lemma loadAllBuckets_fetch {St} dir opts (s s' : St) os os' bs :
  loadAllBuckets dir opts s os = (Ok bs, s', os') →
  ∃ t trailers os1 fs bs1 os2, none_open t ∧ bs = set_forks fs bs1 ∧
    fetchForks (mkBuckets dir t [] trailers opts []) os1 = (Ok fs, bs1, os2).
Proof.
  intros Heq.
  enough (yields (λ bs, ∃ t trailers os1 fs bs1 os2, none_open t ∧ bs = set_forks fs bs1 ∧
    fetchForks (mkBuckets dir t [] trailers opts []) os1 = (Ok fs, bs1, os2)) (loadAllBuckets (St := St) dir opts)) as Hy
    by apply (yields_Ok _ _ _ _ _ _ _ Hy Heq).
  clear Heq. unfold loadAllBuckets. apply yields_then. intros _. apply yields_then. intros ents.
  apply (yields_bind (λ ud : unit * loading, none_open (ld_tree ud.2))).
  - intros s1 os1. unfold with_local.
    pose proof (keeps_each still_closed (load_entry dir opts) ents (keeps_load_entry dir opts)) as Hk.
    specialize (Hk (mkLoading 0 0 bt_empty ∅) os1). destruct (each _ ents _ os1) as [[[[]| | |] d] os2]; cbn in *; try done.
    apply Hk. intros k p. cbn. by rewrite bt_get_empty.
  - intros [[] d] Hd. cbn [snd] in Hd. case_match; [by intros s1 os1|].
    intros s1 os1. unfold with_local, wrap_err. run.
    destruct (fetchForks (mkBuckets dir (ld_tree d) [] (ld_trailers d) opts []) os1) as [[[fs| | |] bs1] os2] eqn:Hf; try done.
    by exists (ld_tree d), (ld_trailers d), os1, fs, bs1, os2.
Qed.

Lemma loadAllBuckets_none {St} dir opts (s s' : St) os os' bs :
  loadAllBuckets dir opts s os = (Ok bs, s', os') → bs_forks bs = [].
Proof.
  intros (t & trailers & os1 & fs & bs1 & os2 & Ht & -> & Hf)%loadAllBuckets_fetch. exact (fetchForks_none (mkBuckets dir t [] trailers opts []) _ _ _ _ eq_refl Ht Hf).
Qed.

Lemma keeps_ValidateBucketKeys conf : keeps eq (ValidateBucketKeys (T := T) conf).
Proof.
  unfold ValidateBucketKeys, ReadFile, OpenRead. keeps. intros bs os. unfold call_os.
  by destruct (renameio_WriteFile _ _ os).
Qed.

Lemma Open_no_forks {St} dir opts (s s' : St) os os' bs :
  Open_queue dir opts s os = (Ok bs, s', os') → bs_forks bs = [].
Proof.
  unfold Open_queue. destruct (Validate opts) as [[e|] opts']; [done|]. unfold wrap_err, with_local. run.
  destruct (loadAllBuckets dir opts' s os) as [[[bs1| | |] s1] os1] eqn:Hload; try done.
  pose proof (keeps_ValidateBucketKeys (opt_BucketSplitConf opts') bs1 os1) as Hk.
  destruct (ValidateBucketKeys _ bs1 os1) as [[[u| | |] bs2] os2]; try done. cbn in Hk. intros [= <- _ _].
  rewrite <- Hk. by eapply loadAllBuckets_none.
Qed.

(** C30. [Open] never finds the forks of an existing queue: whatever is in the
    directory, and whatever fails, a queue that was opened has no forks, because
    [fetchForks] asks a bucket that was just opened with an empty list of them. *)
Theorem Open_forgets_forks {St} dir opts (s s' : St) os os' bs :
  Open_queue dir opts s os = (Ok bs, s', os') → bs_forks bs = [].
Proof. apply Open_no_forks. Qed.
End forget.

(** ** Witnesses *)

#[local] Existing Instance Host_tiny.

Lemma ex_lively : lively ex_spec.
Proof.
  intros k. unfold ex_spec. destruct (decide (0 = k)) as [<-|Hne]; [intros _; by exists ""|].
  rewrite lookup_singleton_ne by done. by intros [].
Qed.

Lemma ex_covers : covers (consumers ex_open) "" (λ f, contents f ex_spec).
Proof. by intros f it [->|[]%elem_of_nil]%elem_of_cons. Qed.

Lemma Fork_queue_witness :
  ∃ bs' os' Q',
    c_Fork (@consumer slist _ Host_tiny Unix_plain Range_id Copy_plain Devices_one Unicode_ascii _
      (λ bs, bs) (λ bs _, bs) "") "f" ex_open (ex_kos false) = (Ok (mkFork "f" true), bs', os') ∧
    holds_queue (untold (cap_read (contents "" ex_spec) ex_cap)) bs' os' Q' ∧
    bs_dir bs' = bs_dir ex_open ∧ bs_opts bs' = bs_opts ex_open ∧ bs_forks bs' = bs_forks ex_open ++ ["f"] ∧
    ∀ f, contents f Q' = fork_of "" "f" (λ f, contents f ex_spec) f.
Proof.
  apply (@Fork_queue _ _ _ Host_tiny Unix_plain Unix_plain_laws Range_id Range_id_laws Copy_plain Copy_plain_laws
    Devices_one Unicode_ascii ex_cap ex_open (ex_kos false) ex_spec);
    [apply ex_holds_queue|apply ex_lively|by left|by intros ?%elem_of_nil|done|apply ex_covers|apply (bool_decide_unpack _); by vm_compute].
Defined.

(** The fork is removed again. *)
Lemma Fork_Remove_queue_witness :
  ∃ bs os Q, c_Fork (@consumer slist _ Host_tiny Unix_plain Range_id Copy_plain Devices_one Unicode_ascii _
      (λ bs, bs) (λ bs _, bs) "") "f" ex_open (ex_kos false) = (Ok (mkFork "f" true), bs, os) ∧
    contents "f" Q = contents "" ex_spec ∧
    ∃ bs' os' Q', @Fork_Remove slist _ Host_tiny Unix_plain Range_id Unicode_ascii (bs, mkFork "f" true) os =
        (Ok tt, (bs', mkFork "f" false), os') ∧
      holds_queue (untold (cap_read (contents "" ex_spec) ex_cap)) bs' os' Q' ∧ (trailers_ok bs Q → trailers_ok bs' Q') ∧
      bs_dir bs' = bs_dir bs ∧ bs_opts bs' = bs_opts bs ∧ bs_forks bs' = filter (λ g, "f" ≠ g) (bs_forks bs) ∧
      contents "f" Q' = [] ∧ (∀ g, g ≠ "f" → contents g Q' ≡ₚ contents g Q) ∧
      ∀ k q, Q !! k = Some q → Q' !! k = None ↔ is_Some (open_at bs k) ∧ only_items "f" q.
Proof.
  destruct (@Fork_holds _ _ _ Host_tiny Unix_plain Unix_plain_laws Range_id Range_id_laws Copy_plain Copy_plain_laws
    Devices_one Unicode_ascii ex_cap ex_open (ex_kos false) ex_spec "" "f") as (bs & os & Q & Heq & Hh & _ & _ & Hf & HQ);
    [apply ex_holds_queue|apply ex_lively|by left|by intros ?%elem_of_nil|done|apply ex_covers|apply (bool_decide_unpack _); by vm_compute|].
  exists bs, os, Q. split; [exact Heq|]. split; [by rewrite HQ|].
  apply (@Fork_Remove_queue _ _ _ Host_tiny Unix_plain Unix_plain_laws Range_id Range_id_laws Unicode_ascii
    _ bs os Q "f" Hh); [rewrite Hf; by left|done].
Defined.

(** The calls after the fork was removed and the queue was opened again. *)
Definition ex_last : list call := [CPeek 2 ""; CPush ex_items; CClear; CPush ex_items; CPop (-1) ""].

(** With a fork that reads at its own pace. *)
Definition ex_first : list call := [CPush ex_items; CLen ""].

Definition ex_both : list call := [CPop 1 "f"; CPush ex_items; CDelete "f" 0 7; CPop 3 ""].

(** The condition holds. *)
Lemma ex_first_roomless :
  match @before_fork slist _ Host_tiny Unix_plain Range_id Sort_insert Copy_plain Devices_one Unicode_ascii RenameIO_plain unit
    ["q"] ex_conf8 ex_first tt (mkOS {[ ["q"] := NDir ]} []) with
  | (Ok (_, bs), _, _) => roomless "" bs
  | _ => False
  end.
Proof.
  match goal with |- match ?r with _ => _ end =>
    assert (match r.1.1 with Ok (_, bs) => bool_decide (roomless "" bs) | _ => false end = true) as Hr by (vm_compute; reflexivity);
    revert Hr; destruct r as [[[[rs bs]| | |] s] os]; intros Hr; try discriminate Hr end.
  exact (bool_decide_eq_true_1 _ Hr).
Qed.

Lemma fork_life_witness :
  ∃ rs1 bs1 os1 A1,
    @before_fork slist _ Host_tiny Unix_plain Range_id Sort_insert Copy_plain Devices_one Unicode_ascii RenameIO_plain unit
      ["q"] ex_conf8 ex_first tt (mkOS {[ ["q"] := NDir ]} []) = (Ok (rs1, bs1), tt, os1) ∧
    qsteps [""] (λ _, []) ex_first rs1 A1 ∧
    ∃ rs2 rs3 rs4 os' A2 A4,
      @fork_session slist _ Host_tiny Unix_plain Range_id Sort_insert Copy_plain Devices_one Unicode_ascii RenameIO_plain unit
        ["q"] ex_conf8 "f" ex_first ex_both [CPeek 2 ""] ex_last
        tt (mkOS {[ ["q"] := NDir ]} []) = (Ok (rs1, rs2, rs3, rs4), tt, os') ∧
      qsteps ["f"; ""] (fork_of "" "f" A1) ex_both rs2 A2 ∧
      qsteps [""] (forget "f" A2) ([CPeek 2 ""] ++ ex_last) (rs3 ++ rs4) A4.
Proof.
  destruct (@fork_life _ _ _ Host_tiny Unix_plain Unix_plain_laws Range_id Range_id_laws Sort_insert Sort_insert_laws
    Copy_plain Copy_plain_laws Devices_one Unicode_ascii RenameIO_plain RenameIO_plain_laws unit tt ["q"] ex_conf8 (mkOS {[ ["q"] := NDir ]} []) ex_split8 "f" ex_first ex_both [CPeek 2 ""] ex_last)
    as (rs1 & bs1 & os1 & A1 & Heq & Hs & Hrest).
  - apply ex_empty_dir.
  - done.
  - by split.
  - done.
  - apply ex_split8_ok.
  - done.
  - assert ("" ∈ [""]) as Hf by by left. assert (is_int64 2 ∧ is_int64 (-1)) as [H2 Hm] by (unfold is_int64; lia).
    unfold ex_first, ex_both, ex_last. cbn [app]. repeat apply Forall_cons_2; try done; (split; [apply ex_valid|apply ex_keys_close]).
  - assert ("" ∈ ["f"; ""]) as Hf by (right; by left). assert ("f" ∈ ["f"; ""]) as Hf' by by left.
    assert (is_int64 1 ∧ is_int64 3) as [H1 H3] by (unfold is_int64; lia).
    unfold ex_first, ex_both, ex_last. cbn [app]. repeat apply Forall_cons_2; try done; (split; [apply ex_valid|apply ex_keys_close]).
  - intros [f Hf]. unfold ex_both, ex_last in Hf. cbn [app] in Hf.
    repeat (apply elem_of_cons in Hf as [?|Hf]; [done|]). by apply elem_of_nil in Hf.
  - split; [split; cbn; lia| |vm_compute; intuition congruence..|].
    + intros f [->|[]%elem_of_nil]%elem_of_cons. by vm_compute.
    + apply separate_low. intros f g from to Hin _ _. unfold ex_first, ex_both, ex_last in Hin. cbn [app] in Hin.
      each_call Hin; injection Hin as -> -> ->; ex_low.
  - exists rs1, bs1, os1, A1. split; [exact Heq|]. split; [exact Hs|].
    pose proof ex_first_roomless as Hroom. rewrite Heq in Hroom. exact (Hrest Hroom).
Defined.

(** ** An example *)

(** A fork, some items, and the queue itself is drained or not. *)
Definition ex_session (drain : bool) : M (buckets slist) (list reply) :=
  @Queue_Fork slist _ Host_tiny Unix_plain Range_id Copy_none Unicode_ascii "f" ;;
  rs ← @exec_all slist _ Host_tiny Unix_plain Range_id Sort_insert Copy_none Devices_one Unicode_ascii
         ([CPush ex_items] ++ (if drain then [CPop (-1) ""] else []) ++ [CLen ""; CLen "f"]);
  @Queue_Close slist _ Host_tiny Unix_plain Range_id ;;
  mret rs.

Definition ex_open_again (os : OS) : res (buckets slist) * unit * OS :=
  @Open_queue slist _ Host_tiny Unix_plain Range_id RenameIO_plain unit ["q"] ex_conf8 tt os.

(** The replies and the files after the session. *)
Definition ex_session_run (drain : bool) : res (list reply) * OS :=
  match ex_open_again (mkOS {[ ["q"] := NDir ]} []) with
  | (Ok bs, _, os) => let '(rs, _, os') := ex_session drain bs os in (rs, os')
  | (_, _, os) => (Panic, os)
  end.

(** What is observed of a result. *)
Definition is_ok {A} (r : res A) : bool := match r with Ok _ => true | _ => false end.
Definition the_error {A} (r : res A) : option error := match r with Err e => Some e | _ => None end.
Definition log_exists (os : OS) : bool := bool_decide (is_Some (os_fs os !! Join ex_kdir "dat.log")).

Lemma Open_forgets_forks_witness :
  ∃ bs os', ex_open_again (ex_session_run false).2 = (Ok bs, tt, os') ∧ bs_forks bs = [].
Proof.
  assert (is_ok (ex_open_again (ex_session_run false).2).1.1 = true) as Hok by vm_cast_no_check (eq_refl true).
  destruct (ex_open_again (ex_session_run false).2) as [[r []] os'] eqn:Heq. cbn in Hok.
  destruct r as [bs| | |]; try discriminate Hok. exists bs, os'. split; [reflexivity|]. unfold ex_open_again in Heq.
  exact (@Open_forgets_forks _ _ _ Host_tiny Unix_plain Range_id Range_id_laws RenameIO_plain unit _ _ _ _ _ _ _ Heq).
Defined.

(** The fork of a queue that was drained before it was closed loses its items when
    the queue is opened: the bucket seems to be empty, so that its log is removed,
    and then [Open] fails because the fork's index is still in the directory. *)
Lemma reopen_loses_fork :
  let os := (ex_session_run true).2 in let run := ex_open_again os in
  (ex_session_run true).1 = Ok [RDone; RItems ex_items None; RLen 0; RLen 2] ∧
  log_exists os = true ∧ log_exists run.2 = false ∧
  the_error run.1.1 = Some (EWrap "buckets" (EWrap "failed to fetch forks"
    (EWrap "remove for reinit" (EIO "remove: directory not empty")))).
Proof. repeat split; vm_compute; reflexivity. Qed.
