(* ===== verification/QueueLimits.v ===== *)
(** * The limit on open buckets

    No operation of a queue leaves more buckets open than the options allow, be
    it that the operation succeeds or that it fails. *)

From S2P Require Import Prelude BTree Os Item Vlog Index IndexFile Options Bucket BucketPeek BucketOpen Names Buckets.
From S2P Require Import BucketCycle BucketsLoad BucketsSplit BucketsClose BucketsShovel Api QueueForks.

(** ** Every operation respects the limit *)

Section few.
Context {T : Type → Type} `{BTreeLaws T} `{Host, Unix, MapRange, SortFunc, CopyPkg, Unicode, Devices, RenameIO}.
Implicit Types (bs : buckets T).

(** The pointers are valid, and no more buckets are open than the options allow. *)
Record few_open bs : Prop := {
  fo_heap : heap_ok bs;
  fo_few : let max := opt_MaxParallelOpenBuckets (bs_opts bs) in
    is_int64 max → 0 < max → nloaded bs ≤ max;
}.

Definition few_step bs bs' : Prop := same_conf bs bs' ∧ (few_open bs → few_open bs').

#[global] Instance few_step_preorder : PreOrder few_step.
Proof. split; [done|]. intros a b c [? ?] [? ?]. split; [by transitivity b|tauto]. Qed.

Lemma few_keeps {A} (m : M (buckets T) A) :
  keeps same_conf m → (∀ bs os, few_open bs → few_open (m bs os).1.2) → keeps few_step m.
Proof. intros Hc Hf bs os. split; [apply Hc|apply Hf]. Qed.

Lemma omap_al_set {V} k (v : option V) l :
  (length (omap snd (al_set k v l)) ≤ S (length (omap snd l)))%nat.
Proof.
  induction l as [|[k' v'] l IH]; cbn [al_set]; [cbn; destruct v; cbn; lia|].
  repeat case_decide; cbn; destruct v, v'; cbn; lia.
Qed.

Lemma length_omap_al_set_None {V} k (l : list (Z * option V)) :
  (length (omap snd (al_set k None l)) ≤ length (omap snd l))%nat.
Proof.
  induction l as [|[k' v'] l IH]; cbn [al_set]; [done|]. repeat case_decide; cbn; destruct v'; cbn; lia.
Qed.

Lemma omap_al_delete {V} k (l : list (Z * option V)) :
  (length (omap snd (al_delete k l)) ≤ length (omap snd l))%nat.
Proof.
  induction l as [|[k' v'] l IH]; cbn [al_delete]; [done|].
  repeat case_decide; cbn; destruct v'; cbn; lia.
Qed.

(** The heap has only grown and the tree is the same. *)
Lemma few_open_heap bs h :
  (length (bs_heap bs) ≤ length h)%nat → few_open bs → few_open (set_heap h bs).
Proof.
  intros Hlen [Hok Hfew]. split; [|done]. intros k p Hk. apply Hok in Hk.
  apply lookup_lt_is_Some in Hk. apply lookup_lt_is_Some. cbn. lia.
Qed.

Lemma few_on_bucket {A} p (m : M (bucket T) A) : keeps few_step (on_bucket p m).
Proof.
  unfold on_bucket, deref. keeps. apply keeps_zoom. intros bs b. split; [done|].
  apply few_open_heap. by rewrite length_insert.
Qed.

Lemma few_alloc (b : bucket T) : keeps few_step (alloc b).
Proof. intros bs os. split; [done|]. apply few_open_heap. rewrite length_app. lia. Qed.

Lemma few_eq {A} (m : M (buckets T) A) : keeps eq m → keeps few_step m.
Proof. apply keeps_eq, _. Qed.

#[local] Hint Resolve few_on_bucket few_alloc few_eq : keeps.

(** There is room for one more bucket after [closeUnused]. *)
Lemma few_room bs os :
  few_open bs →
  let max := opt_MaxParallelOpenBuckets (bs_opts bs) in
  let '(r, bs', _) := closeUnused (int64 (max - 1)) bs os in
  few_open bs' ∧ (is_int64 max → 0 < max → nloaded bs' + 1 ≤ max) ∧ unloaded bs bs' ∧ (r = Ok tt ∨ ∃ e, r = Err e).
Proof.
  intros [Hok Hfew] max. destruct (Z.ltb_spec (int64 (max - 1)) 0) as [Hneg|Hpos].
  - unfold closeUnused. replace (int64 (max - 1) <? 0) with true by lia. cbn.
    split; [by split|]. split; [|split; [done|by left]]. intros Hm Hpos. rewrite int64_id in Hneg by (unfold is_int64 in *; lia). lia.
  - destruct (closeUnused_holds bs os (int64 (max - 1)) Hok Hpos) as (r & bs' & os' & -> & Hr & Hul & Hn).
    assert (is_int64 max → 0 < max → nloaded bs' + 1 ≤ max) as Hroom.
    { intros Hm Hpos'. rewrite int64_id in Hn by (unfold is_int64 in *; lia). lia. }
    split; [split; [by eapply heap_ok_unloaded|]|by split_and!].
    cbv zeta. destruct (ul_conf _ _ Hul) as [_ ->]. fold max. intros Hm Hpos'. specialize (Hroom Hm Hpos'). lia.
Qed.

(** A new bucket in the tree. *)
Lemma few_open_new bs key (b : bucket T) :
  few_open bs →
  (let max := opt_MaxParallelOpenBuckets (bs_opts bs) in is_int64 max → 0 < max → nloaded bs + 1 ≤ max) →
  few_open (set_tree (bt_set key (Some (length (bs_heap bs))) (bs_tree bs)) (set_heap (bs_heap bs ++ [b]) bs)).
Proof.
  intros [Hok Hfew] Hroom. split.
  - intros k p. cbn. rewrite bt_get_set. case_decide.
    + intros [= <-]. rewrite lookup_app_r, Nat.sub_diag by lia. by eexists.
    + intros Hk. destruct (Hok k p Hk) as [b' Hb']. exists b'. by apply lookup_app_l_Some.
  - cbn. intros Hm Hpos. specialize (Hroom Hm Hpos). unfold nloaded in *. cbn. rewrite bt_items_set.
    pose proof (omap_al_set key (Some (length (bs_heap bs))) (bt_items (bs_tree bs))). lia.
Qed.

Lemma few_forKey key : keeps few_step (forKey (T := T) key).
Proof.
  apply few_keeps; [apply keeps_forKey|]. intros bs os Hfew. unfold forKey. run.
  pose proof (few_room bs os Hfew) as Hroom. cbv zeta in Hroom.
  destruct (closeUnused (int64 (opt_MaxParallelOpenBuckets (bs_opts bs) - 1)) bs os) as [[r bs1] os1] eqn:Ec.
  destruct Hroom as (Hfew1 & Hn1 & Hul & Hr).
  destruct (bt_get key (bs_tree bs)) as [[p|]|] eqn:Ek; [done| |].
  all: rewrite Ec; destruct Hr as [->|[e ->]]; [|done].
  all: pose proof (keeps_openBucket (T := T) (St := buckets T) (buckPath bs key) (bs_forks bs) (bs_opts bs) bs1 os1) as Hst.
  all: destruct (openBucket _ _ _ bs1 os1) as [[[b|e| |] bs2] os2]; cbn in Hst; subst bs2; try done.
  all: refine (few_open_new bs1 key b Hfew1 _); destruct (ul_conf _ _ Hul) as [_ ->]; done.
Qed.

#[local] Hint Resolve few_forKey : keeps.

Lemma few_unless_abort c r : keeps few_step (unless_abort (T := T) c r).
Proof. unfold unless_abort. keeps. Qed.

#[local] Hint Resolve few_unless_abort : keeps.

Lemma few_push_bucket key items : keeps few_step (push_bucket (T := T) key items).
Proof. unfold push_bucket. keeps. Qed.

#[local] Hint Resolve few_push_bucket : keeps.

Lemma few_BsPush items : keeps few_step (BsPush (T := T) items).
Proof.
  unfold BsPush, pushSorted. destruct items as [|it items]; [keeps|]. generalize (sort_func cmp_items (it :: items)).
  intros its. generalize (S (length its)). intros fuel. revert its.
  induction fuel as [|fuel IH]; intros its; cbn [pushSorted_loop]; keeps.
Qed.

Lemma few_open_delete bs key : few_open bs → few_open (set_tree (bt_delete key (bs_tree bs)) bs).
Proof.
  intros [Hok Hfew]. split.
  - intros k p. cbn. rewrite bt_get_delete. case_decide; [done|]. apply Hok.
  - cbn. intros Hm Hpos. specialize (Hfew Hm Hpos). unfold nloaded in *. cbn. rewrite bt_items_delete.
    pose proof (omap_al_delete key (bt_items (bs_tree bs))). lia.
Qed.

Lemma few_or_fail e : keeps few_step (or_fail (St := buckets T) e).
Proof. unfold or_fail. keeps. Qed.

#[local] Hint Resolve few_or_fail : keeps.

Lemma few_trailers f : keeps few_step (modify (λ bs, set_trailers (f bs) bs)).
Proof. apply keeps_modify. intros bs. split; [done|]. intros [? ?]. by split. Qed.

Lemma few_bs_delete key : keeps few_step (bs_delete (T := T) key).
Proof.
  unfold bs_delete, deref. keeps.
  1: apply (few_trailers (λ bs, filter (λ kv, kv.1.1 ≠ key) (bs_trailers bs))).
  all: apply keeps_modify; intros bs; split; [done|]; apply few_open_delete.
Qed.

#[local] Hint Resolve few_bs_delete : keeps.

Lemma few_BsDelete fork from to : keeps few_step (BsDelete (T := T) fork from to).
Proof.
  assert (∀ toBuckKey keys n ks, keeps few_step (delete_buckets (T := T) fork from to toBuckKey keys n ks)) as Hloop.
  { intros toBuckKey keys. induction keys as [|key keys IH]; intros n ks; cbn [delete_buckets]; [keeps|].
    unfold delete_bucket, deref. keeps. }
  unfold BsDelete. cbv zeta. keeps.
Qed.

(** *** Iteration and reading, with a state of the caller around the list *)

Definition on_view {St} (view : St → buckets T) (s s' : St) : Prop := few_step (view s) (view s').

#[local] Instance on_view_preorder {St} (view : St → buckets T) : PreOrder (on_view view).
Proof. split; [intros s; red; reflexivity|]. intros a b c ? ?. red. by transitivity (view b). Qed.

Lemma few_zoom {St A} (view : St → buckets T) upd (m : M (buckets T) A) :
  (∀ b s, view (upd b s) = b) → keeps few_step m → keeps (on_view view) (zoom view upd m).
Proof.
  intros Hlens Hm s os. specialize (Hm (view s) os). unfold zoom, on_view. destruct (m (view s) os) as [[r bs'] os'].
  cbn. by rewrite Hlens.
Qed.

Lemma keeps_iter {St} (R : St → St → Prop) `{!PreOrder R} (view : St → buckets T) upd mode fn :
  (∀ key, keeps R (zoom view upd (forKey key))) → (∀ key buck, keeps R (fn key buck)) → keeps R (iter view upd mode fn).
Proof.
  intros Hkey Hfn. unfold iter. apply keeps_bind; [apply _|keeps|intros st]. generalize (bt_keys (bs_tree (view st))).
  intros keys. induction keys as [|key keys IH]; cbn [iter_keys]; [keeps|]. cbv zeta.
  apply keeps_bind; [apply _|keeps|intros st'].
  assert (∀ m, keeps R m → keeps R (more ← m; if more : bool then iter_keys view upd mode fn keys else mret tt)) as Hcont.
  { intros m Hm. apply keeps_bind; [apply _|done|intros []]; [done|keeps]. }
  destruct (bt_get key (bs_tree (view st'))) as [[p|]|]; [| |destruct mode; apply IH].
  - destruct mode; apply Hcont, Hfn.
  - destruct mode; [apply Hcont, Hfn|apply IH|]. apply Hcont. by apply keeps_bind; [apply _| |intros p; apply Hfn].
Qed.

Lemma few_iter {St} (view : St → buckets T) upd mode fn :
  (∀ b s, view (upd b s) = b) → (∀ key buck, keeps (on_view view) (fn key buck)) →
  keeps (on_view view) (iter view upd mode fn).
Proof. intros Hlens Hfn. apply keeps_iter; [apply _|intros key; apply few_zoom; [done|apply few_forKey]|done]. Qed.

Lemma few_with_var {St U A} (view : St → buckets T) (u : U) (m : M (St * U) A) :
  keeps (on_view (λ su, view su.1)) m → keeps (on_view view) (with_var u m).
Proof.
  intros Hm s os. specialize (Hm (s, u) os). unfold with_var.
  by destruct (m (s, u) os) as [[[a|e| |] [s' u']] os'].
Qed.

(** A bucket that is read changes nothing but itself. *)
Lemma few_put_bucket p (b : bucket T) bs : few_step bs (put_bucket p b bs).
Proof. split; [done|]. apply few_open_heap. by rewrite length_insert. Qed.

Lemma keeps_BRead {St} (R : St → St → Prop) `{!PreOrder R} (view : St → bucket T) upd n fork fn :
  (∀ s b, R s (upd b s)) → (∀ items, keeps R (fn items)) → keeps R (BRead view upd n fork fn).
Proof. intros Hupd Hfn. unfold BRead. destruct (n <=? 0); [keeps|]. keeps. by apply keeps_zoom. Qed.

Lemma few_zoom_fst {St U A} (view : St → buckets T) (m : M St A) :
  keeps (on_view view) m → keeps (on_view (λ su : St * U, view su.1)) (zoom fst set_fst m).
Proof.
  intros Hm su os. specialize (Hm su.1 os). unfold zoom. by destruct (m su.1 os) as [[r s'] os'].
Qed.

Lemma few_BsRead {St} (view : St → buckets T) upd n fork fn :
  (∀ b s, view (upd b s) = b) → (∀ items, keeps (on_view view) (fn items)) →
  keeps (on_view view) (BsRead view upd n fork fn).
Proof.
  intros Hlens Hfn. unfold BsRead. cbv zeta. apply keeps_bind; [apply _| |intros [? ?]; keeps].
  apply few_with_var, few_iter; [by intros b []; cbn|]. intros key [p|]; [|keeps].
  unfold read_bucket. cbv zeta.
  apply keeps_bind; [apply _|keeps|intros st]. apply keeps_bind; [apply _|keeps|intros b].
  apply keeps_bind; [apply _|apply keeps_attempt, few_zoom_fst, keeps_BRead; [apply _|intros s b'; unfold on_view; rewrite Hlens; apply few_put_bucket|done]|intros r].
  apply keeps_bind; [apply _|keeps|intros st1]. destruct r as [e|[]]; [keeps|].
  apply keeps_bind; [apply _|keeps|intros b1]. apply keeps_bind; [apply _| |intros []].
  { destruct (AllEmpty b1); [|keeps]. apply keeps_wrap_err, few_zoom_fst, few_zoom; [done|apply few_bs_delete]. }
  intros st2 os2. run. destruct (of_option (bs_heap (view st2.1) !! p)); cbn; red; reflexivity.
Qed.

Lemma few_iter_id mode fn :
  (∀ key buck, keeps few_step (fn key buck)) → keeps few_step (iter (λ bs : buckets T, bs) (λ bs _, bs) mode fn).
Proof. apply (few_iter (λ bs, bs)). done. Qed.

Lemma few_BsClose : keeps few_step (BsClose (T := T)).
Proof. apply few_iter_id. intros key [p|]; keeps. Qed.

Lemma few_BsClear : keeps few_step (BsClear (T := T)).
Proof. unfold BsClear, clear. keeps. Qed.

Lemma few_call_os {A} (f : OS → res A * OS) : keeps few_step (call_os f).
Proof. intros bs os. unfold call_os. destruct (f os). cbn. reflexivity. Qed.

Lemma few_BsFork src dst : keeps few_step (BsFork (T := T) src dst).
Proof.
  unfold BsFork. apply keeps_bind; [apply _|keeps|intros _]. apply keeps_bind; [apply _|keeps|intros bs].
  destruct (decide (dst ∈ bs_forks bs)); [keeps|]. apply keeps_bind; [apply _| |intros _].
  - apply few_iter_id. intros key [p|]; [keeps|]. unfold forkOffline, Stat. cbv zeta. keeps. all: apply few_call_os.
  - apply keeps_modify. intros bs'. split; [done|]. intros [? ?]. by split.
Qed.

Lemma few_BsRemoveFork fork : keeps few_step (BsRemoveFork (T := T) fork).
Proof.
  unfold BsRemoveFork. apply keeps_bind; [apply _|keeps|intros _]. apply keeps_bind; [apply _| |intros _].
  - apply keeps_modify. intros bs'. split; [done|]. intros [? ?]. by split.
  - apply few_iter_id. intros key [p|]; unfold removeForkOffline, Remove, deref; keeps.
Qed.

Lemma few_BsSync : keeps few_step (BsSync (T := T)).
Proof.
  unfold BsSync. apply keeps_bind; [apply _| |intros [_ err]; keeps].
  apply (few_with_var (λ bs, bs)), few_iter; [done|]. intros key [p|]; [|keeps].
  apply keeps_bind; [apply _|apply keeps_attempt, few_zoom; [done|keeps]|intros r].
  apply keeps_bind; [apply _| |intros _; keeps]. apply keeps_modify. intros [bs e]. red. reflexivity.
Qed.

Lemma few_BsLen fork : keeps few_step (BsLen (T := T) fork).
Proof.
  unfold BsLen. apply keeps_bind; [apply _| |intros [_ len]; keeps].
  apply (few_with_var (λ bs, bs)), few_iter; [done|]. intros key buck.
  intros [bs n] os. unfold on_view, deref. run. destruct buck as [p|].
  - unfold zoom. run. repeat (case_match; cbn; try reflexivity).
  - case_match; cbn; reflexivity.
Qed.

(** *** Two queues *)

Definition on_both (s s' : shovel (T := T)) : Prop :=
  few_step (sh_src s) (sh_src s') ∧ few_step (sh_dst s) (sh_dst s').

#[local] Instance on_both_preorder : PreOrder on_both.
Proof. split; [intros s; split; reflexivity|]. intros a b c [? ?] [? ?]. split; by etransitivity. Qed.

Lemma few_src {A} (m : M (buckets T) A) : keeps few_step m → keeps on_both (zoom sh_src set_src m).
Proof. intros Hm s os. specialize (Hm (sh_src s) os). unfold zoom. destruct (m _ os) as [[r bs] os']. by split. Qed.

Lemma few_dst {A} (m : M (buckets T) A) : keeps few_step m → keeps on_both (zoom sh_dst set_dst m).
Proof. intros Hm s os. specialize (Hm (sh_dst s) os). unfold zoom. destruct (m _ os) as [[r bs] os']. by split. Qed.

Lemma few_add_n n : keeps on_both (add_n (T := T) n).
Proof. apply keeps_modify. intros s. split; reflexivity. Qed.

#[local] Hint Resolve few_src few_dst few_add_n : keeps.

(** A bucket that is not open. *)
Lemma few_tree_set_None key : keeps few_step (tree_set (T := T) key None).
Proof.
  apply keeps_modify. intros bs. split; [done|]. intros [Hok Hfew]. split.
  - intros k p. cbn. rewrite bt_get_set. case_decide; [done|]. apply Hok.
  - cbn. intros Hm Hpos. specialize (Hfew Hm Hpos). unfold nloaded in *. cbn. rewrite bt_items_set.
    pose proof (length_omap_al_set_None key (bt_items (bs_tree bs))). lia.
Qed.

Lemma few_shovel_move fork key : keeps on_both (shovel_move (T := T) fork key).
Proof.
  unfold shovel_move. cbv zeta. apply keeps_bind; [apply _|keeps|intros s].
  apply keeps_bind; [apply _|apply few_dst, few_tree_set_None|intros _]. apply keeps_bind; [apply _| |intros _].
  - unfold ReadTrailers, ReadDir, ReadTrailer, OpenRead. keeps. apply few_dst, keeps_modify.
    intros bs. split; [done|]. intros [? ?]. by split.
  - unfold moveFileOrDir, Rename, RemoveAll. keeps. intros s' os. unfold call_os. destruct (copy_Copy _ _ os). cbn. reflexivity.
Qed.

Lemma few_shovel_copy fork key : keeps on_both (shovel_copy (T := T) fork key).
Proof.
  unfold shovel_copy. apply keeps_bind; [apply _|apply few_src, few_forKey|intros srcBuck].
  apply keeps_bind; [apply _|apply few_dst, few_forKey|intros dstBuck].
  apply keeps_bind; [apply _|keeps|intros s]. apply keeps_bind; [apply _|keeps|intros b].
  apply keeps_BRead; [apply _| |intros items; keeps].
  intros s' b'. split; cbn; [apply few_put_bucket|reflexivity].
Qed.

Lemma few_BsShovel fork : keeps on_both (BsShovel (T := T) fork).
Proof.
  unfold BsShovel. apply keeps_bind; [apply _|apply keeps_modify; intros s; split; reflexivity|intros _].
  apply keeps_bind; [apply _| |intros r].
  - apply keeps_attempt, keeps_iter; [apply _|intros key; apply few_src, few_forKey|]. intros key buck.
    unfold shovel_bucket. apply keeps_bind; [apply _|keeps|intros s]. apply keeps_bind; [apply _| |intros _; keeps].
    case_match; [apply few_shovel_copy|apply few_shovel_move].
  - apply keeps_bind; [apply _|keeps|intros s]. destruct r; [keeps|].
    apply keeps_bind; [apply _|apply keeps_attempt, few_src, few_BsClear|intros r; keeps].
Qed.

(** *** A queue that was just opened *)

Lemma few_fetchForks : keeps few_step (fetchForks (T := T)).
Proof. unfold fetchForks, deref. keeps. Qed.

Lemma Open_few {St} dir opts (s s' : St) os os' bs :
  Open_queue dir opts s os = (Ok bs, s', os') → few_open bs.
Proof.
  unfold Open_queue. destruct (Validate opts) as [[e|] opts']; [done|]. unfold wrap_err, with_local. run.
  destruct (loadAllBuckets dir opts' s os) as [[[bs1| | |] s1] os1] eqn:Hload; try done.
  pose proof (keeps_ValidateBucketKeys (opt_BucketSplitConf opts') bs1 os1) as Hk.
  destruct (ValidateBucketKeys _ bs1 os1) as [[[u| | |] bs2] os2]; try done. cbn in Hk. intros [= <- _ _]. subst bs2.
  apply loadAllBuckets_fetch in Hload as (t & trailers & os3 & fs & bs2 & os4 & Ht & -> & Hf).
  pose proof (few_fetchForks (mkBuckets dir t [] trailers opts' []) os3) as [_ Hfew]. rewrite Hf in Hfew. cbn in Hfew.
  destruct Hfew as [Hok Hn]; [|by split]. split.
  - intros k p Hp. by destruct (Ht k p).
  - intros max Hm Hpos. assert (nloaded (mkBuckets dir t [] trailers opts' []) = 0) as ->; [|lia]. unfold nloaded. cbn.
    destruct (omap snd (bt_items t)) as [|p l] eqn:Hl; [done|]. exfalso.
    assert (p ∈ omap snd (bt_items t)) as Hp by (rewrite Hl; by left).
    apply list_elem_of_omap in Hp as ([k v] & Hin%bt_items_get & Hv). cbn in Hv. subst v. by eapply Ht.
Qed.

(** C24. The number of open memory maps is limited: a queue that was just opened
    has at most [MaxParallelOpenBuckets] open buckets, and if a queue has at most
    that many, then so it has after [Push], [Read], [Delete], [Len], [Sync],
    [Clear], [Close], [Fork] and [RemoveFork], and the source and the destination
    of [Shovel] both have, whether the operation succeeds, fails or panics,
    whatever system calls fail, and whatever the callback of [Read] does through
    operations that respect the limit.  The limit is a positive int. *)
Theorem open_buckets_bounded :
  (∀ St dir opts (s s' : St) os os' bs, Open_queue (T := T) dir opts s os = (Ok bs, s', os') → few_open bs) ∧
  (∀ items, keeps few_step (BsPush (T := T) items)) ∧
  (∀ fork from to, keeps few_step (BsDelete (T := T) fork from to)) ∧
  (∀ src dst, keeps few_step (BsFork (T := T) src dst)) ∧
  (∀ fork, keeps few_step (BsRemoveFork (T := T) fork)) ∧
  keeps few_step (BsClear (T := T)) ∧ keeps few_step (BsClose (T := T)) ∧
  keeps few_step (BsSync (T := T)) ∧ (∀ fork, keeps few_step (BsLen (T := T) fork)) ∧
  (∀ fork (s : shovel (T := T)) os, let s' := (BsShovel fork s os).1.2 in
    (few_open (sh_src s) → few_open (sh_src s')) ∧ (few_open (sh_dst s) → few_open (sh_dst s'))) ∧
  (∀ St (view : St → buckets T) upd n fork fn, (∀ b s, view (upd b s) = b) →
    (∀ items, keeps (on_view view) (fn items)) → keeps (on_view view) (BsRead view upd n fork fn)).
Proof.
  split_and!; intros; [by eapply Open_few|apply few_BsPush|apply few_BsDelete|apply few_BsFork|apply few_BsRemoveFork
    |apply few_BsClear|apply few_BsClose|apply few_BsSync|apply few_BsLen| |by apply few_BsRead].
  destruct (few_BsShovel fork s os) as [[_ ?] [_ ?]]. done.
Qed.
End few.

(** ** Witnesses *)

#[local] Existing Instance Host_tiny.

(** A callback of [Read] that pushes to the queue. *)
Lemma open_buckets_bounded_witness :
  (∀ b s : buckets slist, (λ b _ : buckets slist, b) b s = b) ∧
  keeps (on_view (λ bs : buckets slist, bs))
    (@BsRead _ _ Host_tiny Unix_plain Range_id _ (λ bs, bs) (λ bs _, bs) 3 ""
       (λ items, @BsPush _ _ Host_tiny Unix_plain Range_id Sort_insert (drop 1 items) ;; mret ReadOpPop)).
Proof.
  split; [done|].
  destruct (@open_buckets_bounded slist _ _ Host_tiny Unix_plain Range_id Sort_insert Copy_none Unicode_ascii Devices_one RenameIO_plain)
    as (_ & Hpush & _ & _ & _ & _ & _ & _ & _ & _ & Hread).
  apply Hread; [done|]. intros items. apply keeps_bind; [apply _|apply (Hpush (drop 1 items))|]. keeps.
Defined.
