(* ===== verification/QueueShovel.v ===== *)
(** * Shovelling one queue into another

    [Shovel] moves the buckets that the other queue does not have, pushes the items
    of those that it has, and clears the first queue: in the end the other queue
    has the items of both. *)

From S2P Require Import Prelude BTree Os Item Vlog VlogIter Index IndexFile Options Bucket BucketPeek BucketPop BucketQueue.
From S2P Require Import BucketForks BucketOpen BucketCycle Names Buckets BucketsLoad BucketsSplit BucketsClose BucketsQueue BucketsPush.
From S2P Require Import BucketsSpec BucketsRead BucketsClear BucketsOpen BucketsShovel BucketsMove Api Queue.

(** Room for the items that are read from one queue and pushed to the other. *)
Definition cap_shovel (its : Items) (c : cap) : cap := cap_push its (cap_read its c).

Lemma cap_shovel_app its its' c : cap_shovel its' (cap_shovel its c) = cap_shovel (its ++ its') c.
Proof. unfold cap_shovel, cap_push, cap_read. cbn. rewrite length_app, storages_app. f_equal; lia. Qed.

Lemma cap_shovel_perm its its' c : its ≡ₚ its' → cap_shovel its c = cap_shovel its' c.
Proof. intros Hp. unfold cap_shovel, cap_push, cap_read. by rewrite (Permutation_length Hp), Hp. Qed.

Lemma cap_shovel_le its c : cap_le c (cap_shovel its c).
Proof. pose proof (storages_nonneg its). split; cbn; lia. Qed.

Lemma cap_shovel_nil c : cap_shovel [] c = c.
Proof. destruct c. unfold cap_shovel, cap_push, cap_read. cbn. by rewrite !Z.add_0_r. Qed.

Section shovel.
Context {T : Type → Type} `{BTreeLaws T} `{Host, Unix, !UnixLaws} `{MapRange, !MapRangeLaws}.
Context `{CopyPkg, !CopyTreeLaws} `{Devices}.
Implicit Types (bs bss bsd : buckets T) (b : bucket T) (q : gmap ForkName Items) (Q Qs Qd : gmap Key (gmap ForkName Items)).

Lemma holds_valid l (i : Index T) its : holds l i its → Forall valid_item its.
Proof.
  intros (_ & ps & _ & Hb & ->). unfold batches in Hb. induction Hb as [|p ps [Hloc _] _ IH]; [constructor|].
  cbn. apply Forall_app. split; [by destruct Hloc|done].
Qed.

Lemma bucket_ok_valid b os q f its : bucket_ok b os q → q !! f = Some its → Forall valid_item its ∧ Z.of_nat (length its) < 2 ^ 32.
Proof.
  intros Hok Hq. destruct (bucket_ok_lookup _ _ _ _ _ Hok Hq) as (idx & _ & [Hh _ _ Hl]). split; [by eapply holds_valid|done].
Qed.

(** ** A bucket that the other queue does not have *)

Lemma shovel_move_ok c M bss bsd n os Qs Qd (k : Key) q its :
  half c M bss os Qs → Qs !! k = Some q → q !! "" = Some its → queue_ok c bsd os Qd → Qd !! k = None →
  bs_forks bss = [] → bs_forks bsd = [] → dirs_apart (bs_dir bss) (bs_dir bsd) → cap_told c = true → os_faults os = [] →
  Z.of_nat (length its) < 2 ^ 32 →
  ∃ bsd' os', shovel_move "" k (mkShovel bss bsd n) os = (Ok tt, mkShovel bss bsd' (int64 (n + Z.of_nat (length its))), os') ∧
    half c (k :: M) bss os' (delete k Qs) ∧ queue_ok c bsd' os' (<[k := q]> Qd) ∧ same_list bsd bsd' ∧ os_faults os' = [] ∧
    (trailers_ok bsd Qd → trailers_ok bsd' (<[k := q]> Qd)).
Proof.
  intros Hh HQs Hq Hok HQd Hfs Hfd Hap Htold Hno Hlen.
  destruct (half_get _ _ _ _ _ _ _ Hh HQs) as (v & Hv & Hat & Hdom & Hk).
  assert (parked c os (buckPath bss k) q) as Hpark.
  { destruct v as [p|]; [|done]. destruct Hat as (b & all & _ & Hdu & <- & _). by eapply durable_parked. }
  assert (∀ f, f ∈ [""] ↔ is_Some (q !! f)) as Hdom' by (unfold dom_forks in Hdom; by rewrite Hfs in Hdom).
  pose proof (pk_offline _ _ _ _ Hpark) as [Hsrc _ _ _].
  pose proof (qo_keys _ _ _ _ Hok k Hk) as Hkey. unfold key_ok, Key in *. rewrite HQd in Hkey.
  destruct (bt_get k (bs_tree bsd)) eqn:Hnone; [done|]. destruct Hkey as [Hdst Hchild].
  assert (os_fs os !! bs_dir bsd = Some NDir) as Hdd.
  { apply (qo_dir _ _ _ _ Hok); [done|]. intros Heq. destruct Hap as [_ Hds]. apply Hds. rewrite Heq. by eexists. }
  destruct (moveFileOrDir_dir (mkShovel bss
      (set_trailers (<[(k, "") := mkTrailer (Z.of_nat (length its))]> (bs_trailers bsd)) (set_tree (bt_set k None (bs_tree bsd)) bsd))
      (int64 (n + Z.of_nat (length its)))) (buckPath bss k) (buckPath bsd k) os)
    as (os' & Hmove & Hrl); try done; [by apply Join_parent|by apply buckPath_dirs_apart|by apply buckPath_dirs_apart, dirs_apart_sym|].
  eexists _, os'. split; [|split; [|split; [|split; [|split]]]].
  - unfold shovel_move, tree_set. run. cbn [sh_src sh_dst set_dst].
    rewrite (ReadTrailers_main _ _ os _ (λ s, mkShovel (sh_src s)
      (set_trailers (<[(k, "") := mkTrailer (Z.of_nat (length its))]> (bs_trailers (sh_dst s))) (sh_dst s))
      (int64 (sh_n s + Z.of_nat (length its))))); try done.
    + intros name node Hn. by eapply parked_names.
    + destruct (pk_files _ _ _ _ Hpark "") as [data Hdata]; [apply Hdom'; by left|]. by eexists.
    + intros s. rewrite (main_trailer_parked c os _ q its) by done. rewrite decide_True by done. unfold add_n, set_dst. run.
      cbn [sh_src sh_dst sh_n TotalEntries]. by rewrite (int64_id (Z.of_nat (length its))) by (unfold is_int64; lia).
  - eapply half_moved; try done. intros p Hp%buckPath_prefix. apply (far_near _ _ _ (dirs_apart_sym _ _ Hap) Hp).
  - eapply queue_ok_received; try done; [unfold dom_forks; by rewrite Hfd|].
    intros p Hp%buckPath_prefix. apply (far_near _ _ _ Hap Hp).
  - done.
  - apply (rl_faults _ _ _ _ Hrl).
  - intros Htr k' q' f its' Hn HQ' Hf. cbn [bs_tree bs_trailers set_trailers set_tree] in *. rewrite bt_get_set in Hn.
    destruct (decide (k = k')) as [<-|Hne].
    + rewrite lookup_insert_eq in HQ'. injection HQ' as <-.
      assert (f = "") as -> by (apply list_elem_of_singleton, Hdom'; by eexists). rewrite lookup_insert_eq. congruence.
    + rewrite lookup_insert_ne in HQ' by done. rewrite lookup_insert_ne by congruence. by eapply Htr.
Qed.
(** ** A bucket that both queues have *)

(** A call on an open bucket of a list that others were moved away from. *)
Lemma half_put c d M bs os os' Q (k : Key) p b b' q q' all' :
  half c M bs os Q → cap_le c d → Q !! k = Some q → bt_get k (bs_tree bs) = Some (Some p) → bs_heap bs !! p = Some b →
  durable d b' os' q' all' → b_dir b' = b_dir b → b_key b' = b_key b → only_files (bucket_files (b_dir b)) os os' →
  dom_forks bs q' → half d M (put_bucket p b' bs) os' (<[k := q']> Q).
Proof.
  intros Hh Hcd HQ Hp Hb Hdu Hdir Hkey Hof Hdom. pose proof (half_hidden _ _ _ _ _ _ _ Hh HQ) as HkM.
  pose proof Hh as [Hok Hint Hgone Hap].
  assert (queue_ok d (put_bucket p b' (hide M bs)) os' (<[k := q']> Q)) as Hok'.
  { eapply (put_bucket_ok c d (hide M bs) os os' Q k p b b' q' all'); try done. by rewrite hide_get, decide_False. }
  apply (half_step c d M bs _ os os' Q _ (put_bucket p b' (hide M bs)) Hh Hok'); try done.
  - intros k'. exact (hide_get M bs k').
  - intros k' Hk'. right. split; [done|]. intros p' Hp'. cbn. apply list_lookup_insert_ne. intros ->. apply HkM.
    by rewrite (Hap k k' p').
Qed.

(** A push to an open bucket. *)
Lemma on_push_ok c bs os Q (k : Key) p q items :
  queue_ok c bs os Q → bt_get k (bs_tree bs) = Some (Some p) → Q !! k = Some q → sorted_items items →
  Forall valid_item items → cap_ok (cap_push items c) → os_faults os = [] →
  (∀ f its, q !! f = Some its → Z.of_nat (length (its ++ items)) < 2 ^ 32) →
  ∃ bs' os', on_bucket p (BPush items true "") bs os = (Ok tt, bs', os') ∧
    queue_ok (cap_push items c) bs' os' (<[k := (.++ items) <$> q]> Q) ∧ same_list bs bs' ∧ os_faults os' = [] ∧
    (trailers_ok bs Q → trailers_ok bs' (<[k := (.++ items) <$> q]> Q)) ∧ only_files (bucket_files (buckPath bs k)) os os'.
Proof.
  intros Hok Hp HQ Hs Hval Hc Hno Hlen.
  destruct (queue_ok_open _ _ _ _ _ _ Hok Hp) as (b & q0 & all & Hb & HQ0 & Hdu & Hdir & Hbk & Hdom & _).
  assert (q0 = q) as -> by (pose proof (eq_trans (eq_sym HQ0) HQ) as Heq; by injection Heq).
  unfold on_bucket, deref. run. rewrite Hb. cbn [of_option].
  destruct (decide (items = [])) as [->|Hne].
  - assert ((.++ []) <$> q = q) as ->.
    { apply map_eq. intros f. rewrite lookup_fmap. destruct (q !! f); [|done]. cbn. by rewrite app_nil_r. }
    rewrite (insert_id Q k q HQ). exists bs, os. cbn [BPush]. run. rewrite put_bucket_id by done. split_and!; try done.
    eapply queue_ok_mono, cap_push_le. exact Hok.
  - destruct (durable_push c b os q all items "" Hdu Hne Hs Hval Hno Hc Hlen) as (b' & os' & Hpush & Hno' & Hdu' & Hd' & Hk' & Hof).
    rewrite Hpush. exists (put_bucket p b' bs), os'. rewrite <- Hdir. split_and!; try done.
    + apply (put_bucket_ok c _ bs os os' _ k p b b' _ (all ++ items)); try done; [apply cap_push_le|].
      intros f. rewrite lookup_fmap, fmap_is_Some. apply Hdom.
    + intros Htr. by apply trailers_put.
Qed.

Lemma smallest_all its out rest : smallest maxInt its out rest → Z.of_nat (length its) < 2 ^ 32 → rest = [] ∧ out ≡ₚ its.
Proof.
  intros [Hp _ _ Hl] Hlen. pose proof (Permutation_length Hp) as Hlp. rewrite length_app in Hlp. unfold maxInt in Hl.
  assert (rest = []) as -> by (apply length_zero_iff_nil; lia). rewrite app_nil_r in Hp. by symmetry in Hp.
Qed.

Lemma cap_shovel_ok its c : cap_ok c → cap_ok (cap_shovel its c) → cap_ok (cap_read its c) ∧ cap_ok (cap_push its c).
Proof.
  intros [[] []] [[_ Hw] [_ Hb]]. cbn in *. pose proof (storages_nonneg its). by split; split; cbn; lia.
Qed.

Lemma shovel_copy_ok c M bss bsd n os Qs Qd (k : Key) q its qd itd :
  half c M bss os Qs → Qs !! k = Some q → q !! "" = Some its → queue_ok c bsd os Qd → Qd !! k = Some qd → qd !! "" = Some itd →
  bs_forks bsd = [] → dirs_apart (bs_dir bss) (bs_dir bsd) → os_faults os = [] → cap_ok c → cap_ok (cap_shovel its c) →
  Z.of_nat (length itd) + Z.of_nat (length its) < 2 ^ 32 →
  ∃ bss' bsd' os' out, shovel_copy "" k (mkShovel bss bsd n) os =
      (Ok tt, mkShovel bss' bsd' (int64 (n + Z.of_nat (length its))), os') ∧ out ≡ₚ its ∧
    half (cap_shovel its c) M bss' os' (<[k := <["" := []]> q]> Qs) ∧
    queue_ok (cap_shovel its c) bsd' os' (<[k := (.++ out) <$> qd]> Qd) ∧ same_list bss bss' ∧ same_list bsd bsd' ∧
    os_faults os' = [] ∧ (trailers_ok bsd Qd → trailers_ok bsd' (<[k := (.++ out) <$> qd]> Qd)).
Proof.
  intros Hh HQs Hq Hok HQd Hqd Hfd Hap Hno Hc Hcs Hlen. destruct (cap_shovel_ok its c Hc Hcs) as [Hcr Hcp].
  destruct (half_forKey c M bss os Qs k q Hh HQs Hc Hno) as (p & bss1 & os1 & Hfor & Hh1 & Hp1 & Hs1 & Hno1 & Hof1 & _).
  apply (queue_ok_frame c bsd os os1) in Hok; [|intros r; by apply (files_elsewhere bss bsd k)].
  destruct (queue_ok_lookup _ _ _ _ _ _ Hok HQd) as (vd & _ & _ & _ & Hk).
  destruct (forKey_at c bsd os1 Qd k Hok Hc Hk Hno1) as (pd & bsd1 & os2 & Hford & Hokd & Hpd & Hsd & Hno2 & Htrd & Hofd).
  rewrite (with_bucket_Some _ _ _ _ HQd) in Hokd, Htrd.
  apply (half_frame c M bss1 os1 os2) in Hh1.
  2: { rewrite (sl_dir _ _ Hs1). intros r. apply (files_elsewhere bsd bss k); [by apply dirs_apart_sym|done]. }
  destruct (half_get _ _ _ _ _ _ _ Hh1 HQs) as (v & Hv & Hat & Hdom & _). assert (v = Some p) as -> by congruence.
  destruct Hat as (b & all & Hb & Hdu & Hdir & Hbk). pose proof (du_ok _ _ _ _ _ Hdu) as Hbok.
  destruct (bucket_ok_valid b os2 q "" its Hbok Hq) as [Hval Hlen32].
  set (view := λ s : shovel, default b (bs_heap (sh_src s) !! p)).
  set (upd := λ b (s : shovel), set_src (put_bucket p b (sh_src s)) s).
  set (fn := λ items : Items,
      zoom sh_dst set_dst (on_bucket pd (BPush items true "")) ;; add_n (Z.of_nat (length items)) ;; mret ReadOpPop).
  destruct (durable_around view upd (mkShovel bss1 bsd1 n) c os2 b q all "" its maxInt ReadOpPop fn
    (λ out s1 os3, ∃ bsd2, s1 = mkShovel bss1 bsd2 (int64 (n + Z.of_nat (length out))) ∧
       queue_ok (cap_push its c) bsd2 os3 (<[k := (.++ out) <$> qd]> Qd) ∧ same_list bsd1 bsd2 ∧
       (trailers_ok bsd1 Qd → trailers_ok bsd2 (<[k := (.++ out) <$> qd]> Qd)) ∧
       only_files (bucket_files (buckPath bsd1 k)) os2 os3))
    as (out & rest & s1 & os3 & b' & s' & os' & Hread & (bsd2 & -> & Hokd2 & Hsd2 & Htrd2 & Hof3) & Hs' & Hsm & Hno' & Hdu' & Hdir' & Hkey' & Hof');
    try done.
  { unfold view. cbn. by rewrite Hb. }
  { intros out rest Hsm. destruct (smallest_all _ _ _ Hsm Hlen32) as [-> Hout].
    assert (cap_push its c = cap_push out c) as Hcap by (unfold cap_push; by rewrite (Permutation_length Hout), Hout).
    destruct (on_push_ok c bsd1 os2 Qd k pd qd out) as (bsd2 & os3 & Hpush & Hokd2 & Hsd2 & Hno3 & Htr2 & Hof3);
      [done..|by destruct Hsm|by rewrite Hout|by rewrite <- Hcap|done| |].
    - intros f its' Hits. rewrite length_app, (Permutation_length Hout). assert (f = "") as ->; [|assert (its' = itd) as -> by congruence; lia].
      pose proof (queue_ok_uniform _ _ _ _ Hokd k qd HQd f) as Hu. rewrite (sl_forks _ _ Hsd), Hfd in Hu.
      apply list_elem_of_singleton, Hu. by eexists.
    - exists (mkShovel bss1 bsd2 (int64 (n + Z.of_nat (length out)))), os3. split; [|split; [|split; [|split; [done|]]]].
      + unfold fn. run. cbn [sh_dst]. rewrite Hpush. done.
      + exists bsd2. rewrite Hcap. by split_and!.
      + unfold view. cbn. by rewrite Hb.
      + rewrite Hdir. intros r Hr%bucket_near. apply (files_elsewhere bsd1 bss1 k os2 os3); [|done|done].
        rewrite (sl_dir _ _ Hs1), (sl_dir _ _ Hsd). by apply dirs_apart_sym. }
  destruct (smallest_all _ _ _ Hsm Hlen32) as [-> Hout].
  assert (s' = mkShovel (put_bucket p b' bss1) bsd2 (int64 (n + Z.of_nat (length its)))) as ->.
  { rewrite <- (Permutation_length Hout). destruct Hs' as [->|[-> ->]]; [done|]. by rewrite put_bucket_id. }
  exists (put_bucket p b' bss1), bsd2, os', out. split; [|split; [done|split; [|split; [|split; [by transitivity bss1|split; [by transitivity bsd1|split; [done|auto]]]]]]].
  - unfold shovel_copy. run. cbn [sh_src sh_dst set_src set_dst sh_n]. rewrite Hfor. cbn [sh_src sh_dst set_src set_dst sh_n].
    rewrite Hford. cbn [sh_src sh_dst set_src set_dst sh_n]. rewrite Hb. cbn [of_option]. exact Hread.
  - assert (half c M bss1 os3 Qs) as Hh3.
    { eapply half_frame; [exact Hh1|]. intros r. rewrite (sl_dir _ _ Hs1).
      apply (files_elsewhere bsd1 bss k os2 os3); [rewrite (sl_dir _ _ Hsd); by apply dirs_apart_sym|done]. }
    apply (half_mono (cap_read its c)); [|apply cap_push_le].
    apply (half_put c _ M bss1 os3 os' Qs k p b b' q _ all); try done; [apply cap_read_le|].
    intros f. transitivity (is_Some (q !! f)); [apply Hdom|].
    destruct (decide ("" = f)) as [<-|Hne]; [rewrite lookup_insert_eq, Hq; split; intros _; by eexists|by rewrite lookup_insert_ne].
  - apply (queue_ok_mono (cap_push its c)); [|split; cbn; [lia|lia|done]]. eapply queue_ok_frame; [exact Hokd2|].
    intros r. rewrite (sl_dir _ _ Hsd2), (sl_dir _ _ Hsd). rewrite Hdir in Hof'.
    apply (files_elsewhere bss1 bsd k os3 os'); [by rewrite (sl_dir _ _ Hs1)|done].
Qed.
(** ** All buckets *)

(** What the loop over the buckets [ks] does to the two queues. *)
Record shovels (c : cap) (ks : list Key) bss bsd Qs Qd (d : cap) M' bss' bsd' (os' : OS) Qs' Qd' : Prop := {
  sv_half : half d M' bss' os' Qs';
  sv_ok : queue_ok d bsd' os' Qd';
  sv_src : same_list bss bss';
  sv_dst : same_list bsd bsd';
  sv_faults : os_faults os' = [];
  sv_trailers : trailers_ok bsd Qd → trailers_ok bsd' Qd';
  sv_cap : d = cap_shovel (items_in ks "" Qs) c;
  sv_rest : ∀ k, k ∉ ks → Qs' !! k = Qs !! k;
  sv_items : ∀ k, queue_of Qd' k "" ≡ₚ queue_of Qd k "" ++ if decide (k ∈ ks) then queue_of Qs k "" else [];
  sv_dom : ∀ k, is_Some (Qd' !! k) → is_Some (Qd !! k) ∨ k ∈ ks;
}.

Lemma shovel_bucket_ok c M bss bsd n os Qs Qd (k : Key) q its :
  half c M bss os Qs → Qs !! k = Some q → q !! "" = Some its → queue_ok c bsd os Qd →
  bs_forks bss = [] → bs_forks bsd = [] → dirs_apart (bs_dir bss) (bs_dir bsd) → cap_told c = true → os_faults os = [] →
  cap_ok c → cap_ok (cap_shovel its c) → Z.of_nat (length (queue_of Qd k "")) + Z.of_nat (length its) < 2 ^ 32 →
  ∃ M' bss' bsd' os' Qs' Qd', shovel_bucket "" k (mkShovel bss bsd n) os =
      (Ok true, mkShovel bss' bsd' (int64 (n + Z.of_nat (length its))), os') ∧
    shovels c [k] bss bsd Qs Qd (cap_shovel its c) M' bss' bsd' os' Qs' Qd'.
Proof.
  intros Hh HQs Hq Hok Hfs Hfd Hap Htold Hno Hc Hcs Hlen.
  assert (queue_of Qs k "" = its) as Hits by (unfold queue_of; rewrite HQs; cbn; by rewrite Hq).
  assert (cap_shovel its c = cap_shovel (items_in [k] "" Qs) c) as Hcap.
  { unfold items_in. cbn [fmap list_fmap concat]. by rewrite Hits, app_nil_r. }
  assert (∀ k', k' ∉ [k] → k' ≠ k) as Hother by (intros k' Hk' ->; apply Hk'; by left).
  unfold shovel_bucket. run. cbn [sh_dst]. destruct (Qd !! k) as [qd|] eqn:HQd.
  - destruct (queue_ok_lookup _ _ _ _ _ _ Hok HQd) as (vd & Hvd & _ & Hdom & _). rewrite Hvd.
    destruct (proj1 (Hdom "") ltac:(set_solver)) as [itd Hqd].
    assert (queue_of Qd k "" = itd) as Hitd by (unfold queue_of; rewrite HQd; cbn; by rewrite Hqd). rewrite Hitd in Hlen.
    destruct (shovel_copy_ok c M bss bsd n os Qs Qd k q its qd itd)
      as (bss' & bsd' & os' & out & Heq & Hout & Hh' & Hok' & Hs & Hd & Hno' & Htr); try done.
    rewrite Heq. exists M, bss', bsd', os', (<[k := <["" := []]> q]> Qs), (<[k := (.++ out) <$> qd]> Qd). split; [done|]. split; try done.
    + intros k' Hk'%Hother. by rewrite lookup_insert_ne.
    + intros k'. unfold queue_of at 1. destruct (decide (k = k')) as [<-|Hne].
      * rewrite lookup_insert_eq. cbn. rewrite lookup_fmap, Hqd. cbn. by rewrite decide_True, Hitd, Hits, Hout by by left.
      * rewrite lookup_insert_ne, decide_False, app_nil_r by (done || by intros ->%list_elem_of_singleton). done.
    + intros k'. destruct (decide (k = k')) as [<-|Hne]; [right; by left|]. rewrite lookup_insert_ne by done. by left.
  - destruct (half_get _ _ _ _ _ _ _ Hh HQs) as (v & _ & Hat & _ & Hk).
    assert (bt_get k (bs_tree bsd) = None) as Hnone.
    { pose proof (qo_keys _ _ _ _ Hok k Hk) as Hkey. unfold key_ok, Key in *. rewrite HQd in Hkey. by destruct (bt_get k (bs_tree bsd)). }
    rewrite Hnone.
    destruct (shovel_move_ok c M bss bsd n os Qs Qd k q its) as (bsd' & os' & Heq & Hh' & Hok' & Hd & Hno' & Htr); try done; [lia|].
    rewrite Heq. exists (k :: M), bss, bsd', os', (delete k Qs), (<[k := q]> Qd). split; [done|]. split; try done.
    + eapply half_mono, cap_shovel_le. exact Hh'.
    + eapply queue_ok_mono, cap_shovel_le. exact Hok'.
    + intros k' Hk'%Hother. by rewrite lookup_delete_ne.
    + intros k'. unfold queue_of at 1. destruct (decide (k = k')) as [<-|Hne].
      * rewrite lookup_insert_eq. cbn. rewrite Hq. cbn. rewrite decide_True, Hits by by left. by rewrite queue_of_None.
      * rewrite lookup_insert_ne, decide_False, app_nil_r by (done || by intros ->%list_elem_of_singleton). done.
    + intros k'. destruct (decide (k = k')) as [<-|Hne]; [right; by left|]. rewrite lookup_insert_ne by done. by left.
Qed.

Lemma shovel_loop (ks : list Key) c M bss bsd n os Qs Qd :
  half c M bss os Qs → queue_ok c bsd os Qd → NoDup ks → (∀ k, k ∈ ks → is_Some (Qs !! k)) →
  bs_forks bss = [] → bs_forks bsd = [] → dirs_apart (bs_dir bss) (bs_dir bsd) → cap_told c = true → os_faults os = [] →
  cap_ok c → cap_ok (cap_shovel (items_in ks "" Qs) c) → 0 ≤ n → n + Z.of_nat (length (items_in ks "" Qs)) < 2 ^ 63 →
  (∀ k, k ∈ ks → Z.of_nat (length (queue_of Qd k "")) + Z.of_nat (length (queue_of Qs k "")) < 2 ^ 32) →
  ∃ d M' bss' bsd' os' Qs' Qd', iter_keys sh_src set_src includeNil (λ key _, shovel_bucket "" key) ks (mkShovel bss bsd n) os =
      (Ok tt, mkShovel bss' bsd' (n + Z.of_nat (length (items_in ks "" Qs))), os') ∧
    shovels c ks bss bsd Qs Qd d M' bss' bsd' os' Qs' Qd'.
Proof.
  intros Hh Hok Hnd. revert c M bss bsd n os Qs Qd Hh Hok.
  induction Hnd as [|k ks Hk Hnd IH]; intros c M bss bsd n os Qs Qd Hh Hok Hdom Hfs Hfd Hap Htold Hno Hc Hcs Hn Hmax Hlen.
  { exists c, M, bss, bsd, os, Qs, Qd. cbn [iter_keys]. unfold items_in. cbn [fmap list_fmap concat length]. rewrite Z.add_0_r.
    split; [done|]. split; try done; [by rewrite cap_shovel_nil| |by left]. intros k. rewrite decide_False by by intros ?%elem_of_nil.
    by rewrite app_nil_r. }
  destruct (Hdom k (list_elem_of_here _ _)) as [q HQs].
  destruct (half_get _ _ _ _ _ _ _ Hh HQs) as (v & Hv & _ & Hforks & _).
  destruct (proj1 (Hforks "") ltac:(set_solver)) as [its Hq].
  assert (queue_of Qs k "" = its) as Hits by (unfold queue_of; rewrite HQs; cbn; by rewrite Hq).
  change (items_in (k :: ks) "" Qs) with (queue_of Qs k "" ++ items_in ks "" Qs) in *. rewrite Hits in *.
  rewrite <- cap_shovel_app in Hcs. rewrite length_app, Nat2Z.inj_add in Hmax.
  assert (cap_ok (cap_shovel its c)) as Hc1.
  { eapply cap_ok_le; [exact Hcs|apply cap_shovel_le|..]; destruct Hc as [[] []]; pose proof (storages_nonneg its); cbn; lia. }
  pose proof (Hlen k (list_elem_of_here _ _)) as Hlenk. rewrite Hits in Hlenk.
  destruct (shovel_bucket_ok c M bss bsd n os Qs Qd k q its)
    as (M1 & bss1 & bsd1 & os1 & Qs1 & Qd1 & Heq & [Hh1 Hok1 Hs1 Hd1 Hno1 Htr1 _ Hrest1 Hitems1 Hdom1]); try done.
  assert (∀ k', k' ∈ ks → Qs1 !! k' = Qs !! k') as Hsame.
  { intros k' Hk'. apply Hrest1. intros ->%list_elem_of_singleton. done. }
  assert (∀ k', k' ∈ ks → queue_of Qs1 k' "" = queue_of Qs k' "") as HsameQ by (intros k' Hk'; unfold queue_of; by rewrite Hsame).
  assert (items_in ks "" Qs1 = items_in ks "" Qs) as Hks.
  { unfold items_in. f_equal. apply list_fmap_ext. intros i k' Hk'. apply HsameQ. by eapply list_elem_of_lookup_2. }
  destruct (IH (cap_shovel its c) M1 bss1 bsd1 (n + Z.of_nat (length its)) os1 Qs1 Qd1)
    as (d & M' & bss' & bsd' & os' & Qs' & Qd' & Heq' & [Hh' Hok' Hs' Hd' Hno' Htr' Hcap' Hrest' Hitems' Hdom']); try done.
  - intros k' Hk'. rewrite Hsame by done. apply Hdom. by right.
  - by rewrite (sl_forks _ _ Hs1).
  - by rewrite (sl_forks _ _ Hd1).
  - by rewrite (sl_dir _ _ Hs1), (sl_dir _ _ Hd1).
  - by rewrite Hks.
  - lia.
  - rewrite Hks. lia.
  - intros k' Hk'. rewrite HsameQ, (Hitems1 k'), decide_False, app_nil_r by (done || by intros ->%list_elem_of_singleton).
    apply Hlen. by right.
  - exists d, M', bss', bsd', os', Qs', Qd'. split; [|split; try done].
    + cbn [iter_keys]. run. cbn [sh_src]. rewrite Hv. assert (∀ A (x : A), match v with Some _ | _ => x end = x) as -> by (by destruct v).
      rewrite Heq. cbn beta iota. rewrite int64_id by (unfold is_int64; lia).
      rewrite Heq', Hks, length_app, Nat2Z.inj_add, Z.add_assoc. done.
    + by transitivity bss1.
    + by transitivity bsd1.
    + auto.
    + rewrite Hcap', Hks, cap_shovel_app, <- Hits. done.
    + intros k' Hk'. rewrite Hrest' by set_solver. apply Hrest1. set_solver.
    + intros k'. rewrite (Hitems' k'), (Hitems1 k'). destruct (decide (k' = k)) as [->|Hne].
      * rewrite (decide_False (P := k ∈ ks)), decide_True, decide_True, app_nil_r by (done || by left). done.
      * rewrite (decide_False (P := k' ∈ [k])), app_nil_r by by intros ?%list_elem_of_singleton.
        destruct (decide (k' ∈ ks)) as [Hin|Hin]; [by rewrite decide_True, HsameQ by (done || by right)|].
        rewrite decide_False; [done|]. by intros [?|?]%elem_of_cons.
    + intros k' [[?| ->%list_elem_of_singleton]%Hdom1|?]%Hdom'; [by left|right; by left|right; by right].
Qed.
(** ** Clearing the first queue *)

Lemma half_delete c M bs os Q (k : Key) v :
  half c M bs os Q → bt_get k (bs_tree bs) = Some v → os_faults os = [] →
  ∃ bs' os', bs_delete k bs os = (Ok tt, bs', os') ∧ half c (filter (λ k', k' ≠ k) M) bs' os' (delete k Q) ∧ same_list bs bs' ∧
    (∀ k', bt_get k' (bs_tree bs') = if decide (k = k') then None else bt_get k' (bs_tree bs)) ∧ os_faults os' = [] ∧
    only_files (bucket_files (buckPath bs k)) os os'.
Proof.
  intros Hh Hv Hno. pose proof Hh as [Hok Hint Hgone Hap].
  assert (is_int64 k ∧ (∀ p, v = Some p → ∃ b, bs_heap bs !! p = Some b ∧ b_dir b = buckPath bs k ∧ closable b) ∧
    clean os (buckPath bs k) (λ f, f ∈ "" :: bs_forks bs)) as (Hk & Hb & Hclean).
  { destruct (decide (k ∈ M)) as [HkM|HkM].
    - split; [by apply Hint|]. destruct (Hgone k HkM) as (v' & Hv' & Hb). assert (v' = v) as -> by congruence. split; [done|].
      pose proof (qo_keys _ _ _ _ Hok k (Hint k HkM)) as Hkey. rewrite hide_get, decide_True in Hkey by done.
      unfold key_ok, Key in *. destruct (Q !! k); [done|]. destruct Hkey as [_ Hnone]. change (buckPath (hide M bs) k) with (buckPath bs k) in Hnone.
      split; intros name; rewrite Hnone; [by intros []|done].
    - destruct (queue_ok_get c (hide M bs) os Q k v Hok) as (q & HQ & Hat & Hdom & Hk); [by rewrite hide_get, decide_False|].
      split; [done|]. split.
      + intros p ->. destruct Hat as (b & all & Hb & [Hbok _ _ _ _ _ _] & Hdir & _). exists b. split_and!; try done.
        by eapply bucket_ok_closable.
      + apply (clean_mono os _ (λ f, is_Some (q !! f))); [intros f Hf; apply Hdom in Hf; change (bs_forks (hide M bs)) with (bs_forks bs) in Hf; set_solver|].
        destruct v as [p|]; [|by destruct Hat as [[]]]. destruct Hat as (b & all & Hb & [] & Hdir & _). by rewrite Hdir in *. }
  destruct (bs_delete_files bs os k v Hv Hb Hclean Hno) as (closed & os' & Heq & Hvac & Hof & Hno' & Hclosed).
  pose proof (dropped_list k closed bs) as Hsame. exists (dropped k closed bs), os'.
  assert (∀ k', bt_get k' (bs_tree (dropped k closed bs)) = if decide (k = k') then None else bt_get k' (bs_tree bs)) as Htree
    by apply dropped_tree.
  assert (∀ k' p, k' ≠ k → bt_get k' (bs_tree bs) = Some (Some p) → bs_heap (dropped k closed bs) !! p = bs_heap bs !! p) as Hheap.
  { intros k' p' Hne Hp'. destruct v as [p|], closed as [[p0 b']|]; try done. destruct Hclosed as [-> _].
    cbn. apply list_lookup_insert_ne. intros ->. apply Hne. by apply (Hap k' k p'). }
  set (M' := filter (λ k', k' ≠ k) M).
  assert (∀ k', bt_get k' (bs_tree (hide M' (dropped k closed bs))) = if decide (k' = k) then None else bt_get k' (bs_tree (hide M bs))) as Hhide.
  { intros k'. rewrite !hide_get, Htree. destruct (decide (k' = k)) as [->|Hne].
    - rewrite (decide_True (P := k = k)) by done. by destruct (decide (k ∈ M')).
    - rewrite (decide_False (P := k = k')) by (by apply not_eq_sym). apply decide_ext. unfold M'. rewrite list_elem_of_filter. tauto. }
  split; [done|]. split; [|by split_and!]. split.
  - apply (queue_ok_update c c (hide M bs) _ os os' Q _ k); try done.
    + by destruct Hsame.
    + intros k' Hne. rewrite Hhide, decide_False by done. split; [done|by rewrite lookup_delete_ne].
    + intros k' p Hne. rewrite hide_get. case_decide; [done|]. intros Hp. by apply (Hheap k').
    + intros k' p _ _. by rewrite Hhide, decide_True.
    + rewrite Hhide, decide_True, lookup_delete_eq by done. unfold key_ok, vacant in *.
      change (buckPath (hide M' (dropped k closed bs)) k) with (buckPath (dropped k closed bs) k). by rewrite (buckPath_same bs).
  - intros k' [_ Hk']%list_elem_of_filter. by apply Hint.
  - intros k' [Hne Hk']%list_elem_of_filter. destruct (Hgone k' Hk') as (v' & Hv' & Hb'). exists v'.
    rewrite Htree, decide_False by (by apply not_eq_sym). split; [done|]. intros p ->.
    rewrite (Hheap k'), (buckPath_same bs) by done. by apply Hb'.
  - intros k1 k2 p. rewrite !Htree. repeat case_decide; try done. apply Hap.
Qed.

Lemma half_clear c M bs os Q (ks : list Key) :
  half c M bs os Q → os_faults os = [] → NoDup ks → (∀ k, k ∈ ks ↔ is_Some (bt_get k (bs_tree bs))) →
  ∃ bs' os', each bs_delete ks bs os = (Ok tt, bs', os') ∧ queue_ok c bs' os' ∅ ∧ same_list bs bs' ∧ os_faults os' = [] ∧
    ∀ p, ¬ bs_dir bs `prefix_of` p → os_fs os' !! p = os_fs os !! p.
Proof.
  intros Hh Hno Hnd. revert M bs os Q Hh Hno. induction Hnd as [|k ks Hk Hnd IH]; intros M bs os Q Hh Hno Hdom; cbn [each].
  - assert (∀ k, bt_get k (bs_tree bs) = None) as Hnone.
    { intros k. apply eq_None_not_Some. rewrite <- Hdom. by intros ?%elem_of_nil. }
    exists bs, os. split; [done|]. split; [|done]. destruct Hh as [Hok Hint Hgone _].
    assert (Q = ∅) as ->.
    { apply map_empty. intros k. destruct (Q !! k) eqn:HQ; [|done]. exfalso.
      destruct (queue_ok_lookup _ _ _ _ _ _ Hok HQ) as (v & Hv & _). rewrite hide_get, Hnone in Hv. by case_decide. }
    eapply queue_ok_ext; [exact Hok|done|..]; intros k; rewrite hide_get, Hnone; by case_decide.
  - destruct (proj1 (Hdom k) (list_elem_of_here _ _)) as [v Hv].
    destruct (half_delete c M bs os Q k v Hh Hv Hno) as (bs1 & os1 & Heq & Hh1 & Hsame1 & Htree1 & Hno1 & Hof1).
    destruct (IH _ bs1 os1 _ Hh1 Hno1) as (bs' & os' & Heq' & Hok' & Hsame' & Hno' & Hfs').
    { intros k'. rewrite Htree1. case_decide as Hkk; [subst k'; split; [done|by intros []]|]. rewrite <- Hdom, elem_of_cons.
      split; [by right|]. by intros [->|]. }
    exists bs', os'. run. rewrite Heq. split; [exact Heq'|]. split; [done|]. split; [by transitivity bs1|]. split; [done|].
    intros p Hp. rewrite Hfs' by by rewrite (sl_dir _ _ Hsame1). eapply only_bucket_files; [done|]. by intros ?%buckPath_prefix.
Qed.

(** ** The whole operation *)

Lemma BsShovel_ok c bss bsd n os Qs Qd :
  queue_ok c bss os Qs → queue_ok c bsd os Qd → bs_forks bss = [] → bs_forks bsd = [] →
  dirs_apart (bs_dir bss) (bs_dir bsd) → cap_told c = true → os_faults os = [] →
  cap_ok c → cap_ok (cap_shovel (contents "" Qs) c) →
  Z.of_nat (length (contents "" Qd)) + Z.of_nat (length (contents "" Qs)) < 2 ^ 32 →
  ∃ bss' bsd' os' Qd', BsShovel "" (mkShovel bss bsd n) os =
      (Ok (Z.of_nat (length (contents "" Qs)), None), mkShovel bss' bsd' (Z.of_nat (length (contents "" Qs))), os') ∧
    queue_ok (cap_shovel (contents "" Qs) c) bss' os' ∅ ∧ queue_ok (cap_shovel (contents "" Qs) c) bsd' os' Qd' ∧
    same_list bss bss' ∧ same_list bsd bsd' ∧ os_faults os' = [] ∧ (trailers_ok bsd Qd → trailers_ok bsd' Qd') ∧
    (∀ k, queue_of Qd' k "" ≡ₚ queue_of Qd k "" ++ queue_of Qs k "") ∧
    ∀ k, is_Some (Qd' !! k) → is_Some (Qd !! k) ∨ is_Some (Qs !! k).
Proof.
  intros Hoks Hokd Hfs Hfd Hap Htold Hno Hc Hcs Hlen. set (ks := bt_keys (bs_tree bss)).
  assert (∀ k, k ∈ ks ↔ is_Some (Qs !! (k : Key))) as Hks by (intros k; by eapply queue_ok_keys).
  assert (items_in ks "" Qs ≡ₚ contents "" Qs) as Hall by (apply contents_keys; [apply bt_keys_NoDup|]; intros k; apply Hks).
  assert (∀ Q k, (length (queue_of Q k "") ≤ length (contents "" Q))%nat) as Hlk.
  { intros Q k. destruct (Q !! (k : Key)) as [q|] eqn:HQ; [by apply queue_of_length; eexists|]. rewrite queue_of_None by done. cbn. lia. }
  destruct (shovel_loop ks c [] bss bsd 0 os Qs Qd)
    as (d & M' & bss1 & bsd1 & os1 & Qs1 & Qd1 & Heq & [Hh1 Hok1 Hs1 Hd1 Hno1 Htr1 Hcap1 Hrest1 Hitems1 Hdom1]); try done.
  { by apply half_start. }
  { apply bt_keys_NoDup. }
  { intros k. by apply Hks. }
  { by rewrite (cap_shovel_perm _ _ c Hall). }
  { rewrite (Permutation_length Hall). lia. }
  { intros k _. pose proof (Hlk Qd k). pose proof (Hlk Qs k). lia. }
  rewrite (cap_shovel_perm _ _ c Hall) in Hcap1. subst d. rewrite (Permutation_length Hall) in Heq.
  destruct (half_clear _ M' bss1 os1 Qs1 (bt_keys (bs_tree bss1)) Hh1 Hno1) as (bss' & os' & Hclear & Hoks' & Hs' & Hno' & Hfs');
    [apply bt_keys_NoDup|intros k; apply bt_keys_get|].
  exists bss', bsd1, os', Qd1. split; [|split; [done|split; [|split; [by transitivity bss1|split; [done|split; [done|split; [done|split]]]]]]].
  - unfold BsShovel, iter, attempt. run. cbn [sh_src sh_dst]. fold ks. rewrite Heq. unfold clear. run. cbn [sh_src]. rewrite Hclear. done.
  - eapply queue_ok_frame; [exact Hok1|]. intros p Hp. apply Hfs'. intros Hin.
    apply (far_near (bs_dir bss1) (bs_dir bsd1) p); [by rewrite (sl_dir _ _ Hs1), (sl_dir _ _ Hd1)|done..].
  - intros k. rewrite (Hitems1 k). case_decide as Hk; [done|].
    rewrite (queue_of_None Qs); [done|]. apply eq_None_not_Some. by rewrite <- Hks.
  - intros k [?|?%Hks]%Hdom1; auto.
Qed.
Lemma contents_sum f Q Q1 Q2 : (∀ k, queue_of Q k f ≡ₚ queue_of Q1 k f ++ queue_of Q2 k f) → contents f Q ≡ₚ contents f Q1 ++ contents f Q2.
Proof.
  intros Hsum. set (ks := elements (dom Q ∪ dom Q1 ∪ dom Q2)).
  assert (∀ Q', dom Q' ⊆ dom Q ∪ dom Q1 ∪ dom Q2 → items_in ks f Q' ≡ₚ contents f Q') as Hks.
  { intros Q' Hsub. apply contents_keys; [apply NoDup_elements|]. intros k Hk%elem_of_dom. apply elem_of_elements. by apply Hsub. }
  rewrite <- !Hks by set_solver. unfold items_in. by rewrite (concat_perm _ _ _ Hsum), items_in_app_perm.
Qed.

Lemma in_split_sum fn c bs os Q Q1 Q2 :
  queue_ok c bs os Q → bs_forks bs = [] → (∀ k, queue_of Q k "" ≡ₚ queue_of Q1 k "" ++ queue_of Q2 k "") →
  in_split fn Q1 → in_split fn Q2 → in_split fn Q.
Proof.
  intros Hok Hfs Hsum H1' H2' k f it Hit. destruct (decide (f = "")) as [->|Hne].
  - rewrite (Hsum k) in Hit. apply elem_of_app in Hit as [?|?]; [by apply (H1' k "")|by apply (H2' k "")].
  - exfalso. unfold queue_of in Hit. destruct (Q !! k) as [q|] eqn:HQ; cbn in Hit; [|by apply elem_of_nil in Hit].
    destruct (q !! f) as [its|] eqn:Hq; [|by apply elem_of_nil in Hit]. apply Hne, list_elem_of_singleton.
    pose proof (queue_ok_uniform _ _ _ _ Hok k q HQ f) as Hu. rewrite Hfs in Hu. apply Hu. by eexists.
Qed.

(** C10. [Shovel] of a queue to another one, both without forks and with the same
    split function: whichever buckets the other queue has (then their items are
    pushed) or does not have (then their directories are moved, by a rename or, to
    another device, by a copy), it ends without an error and gives the number of
    items; the other queue has the items of both, the queue itself none, and both
    can be worked with. *)
Theorem Shovel_queue fn c bss bsd n os Qs Qd :
  holds_queue c bss os Qs → holds_queue c bsd os Qd → split_func bss = Ok fn → split_func bsd = Ok fn →
  bs_forks bss = [] → bs_forks bsd = [] → dirs_apart (bs_dir bss) (bs_dir bsd) → cap_told c = true →
  cap_ok c → cap_ok (cap_shovel (contents "" Qs) c) →
  Z.of_nat (length (contents "" Qd)) + Z.of_nat (length (contents "" Qs)) < 2 ^ 32 →
  ∃ bss' bsd' os' Qd', Queue_Shovel (mkShovel bss bsd n) os =
      (Ok (Z.of_nat (length (contents "" Qs)), None), mkShovel bss' bsd' (Z.of_nat (length (contents "" Qs))), os') ∧
    contents "" Qd' ≡ₚ contents "" Qd ++ contents "" Qs ∧
    holds_queue (cap_shovel (contents "" Qs) c) bss' os' ∅ ∧ holds_queue (cap_shovel (contents "" Qs) c) bsd' os' Qd' ∧
    (trailers_ok bsd Qd → trailers_ok bsd' Qd').
Proof.
  intros [Hoks (fs & Hfns & Hsplits & Hins & Hals) Hno] [Hokd (fd & Hfnd & Hsplitd & Hind & Hald) _] Hfn Hfn'.
  assert (fs = fn) as -> by congruence. assert (fd = fn) as -> by congruence. intros Hfs Hfd. intros.
  destruct (BsShovel_ok c bss bsd n os Qs Qd) as (bss' & bsd' & os' & Qd' & Heq & Hoks' & Hokd' & Hs & Hd & Hno' & Htr & Hsum & Hdom); try done.
  exists bss', bsd', os', Qd'. split; [done|]. split; [by apply contents_sum|]. split; [|split; [|done]].
  - split; [done| |done]. exists fn. rewrite (split_func_same bss) by done. split_and!; try done; apply empty_spec.
  - split; [done| |done]. exists fn. rewrite (split_func_same bsd) by done. split; [done|]. split; [done|]. split.
    + eapply in_split_sum; [exact Hokd'|by rewrite (sl_forks _ _ Hd)|done..].
    + intros k [?|?]%Hdom; [by apply Hald|by apply Hals].
Qed.
End shovel.

(** ** The other consumers *)

Section others.
Context {T : Type → Type} `{BTreeLaws T} `{Host, Unix, MapRange, CopyPkg, Devices}.
Implicit Types (bs : buckets T).

Lemma bs_delete_tree k bs os bs' os' : bs_delete k bs os = (Ok tt, bs', os') → bs_tree bs' = bt_delete k (bs_tree bs).
Proof.
  assert (∀ err dir bs1 os1, bs_tree bs1 = bt_delete k (bs_tree bs) →
    (r ← attempt (removeBucketDir dir (bs_forks bs)); or_fail (join_opt err (err_of r))) bs1 os1 = (Ok tt, bs', os') →
    bs_tree bs' = bt_delete k (bs_tree bs)) as Hrm.
  { intros err dir bs1 os1 Htree. unfold attempt. run. pose proof (keeps_removeBucketDir dir (bs_forks bs) bs1 os1) as Hk.
    destruct (removeBucketDir dir (bs_forks bs) bs1 os1) as [[[?|?| |] bs2] os2]; cbn in Hk; subst bs2; try done;
      unfold or_fail; destruct (join_opt _ _); run; [done|congruence|done|congruence]. }
  unfold bs_delete, attempt, on_bucket, deref. run. destruct (bt_get k (bs_tree bs)) as [[p|]|]; [| |done].
  - run. cbn [bs_heap set_trailers]. destruct (bs_heap bs !! p) as [b|]; [|done]. cbn [of_option]. run.
    destruct (BClose b os) as [[[?|?| |] b'] os1]; try done; intros Heq; (eapply Hrm; [|exact Heq]); done.
  - run. intros Heq. by eapply (Hrm None); [|exact Heq].
Qed.

Lemma clear_tree bs os bs' os' : clear bs os = (Ok tt, bs', os') → ∀ k, bt_get k (bs_tree bs') = None.
Proof.
  unfold clear. run. assert (∀ (ks : list Key) bs os, each bs_delete ks bs os = (Ok tt, bs', os') →
    ∀ k, bt_get k (bs_tree bs') = if decide (k ∈ ks) then None else bt_get k (bs_tree bs)) as Hall.
  { clear bs os. induction ks as [|k' ks IH]; intros bs os; cbn [each].
    - intros [= <- _] k. rewrite decide_False; [done|]. by intros ?%elem_of_nil.
    - run. destruct (bs_delete k' bs os) as [[[[]|?| |] bs1] os1] eqn:Hdel; try done. intros Heq k.
      rewrite (IH bs1 os1 Heq), (bs_delete_tree _ _ _ _ _ Hdel), bt_get_delete. repeat case_decide; set_solver. }
  intros Heq k. rewrite (Hall _ _ _ Heq). case_decide as Hk; [done|]. apply eq_None_not_Some. by rewrite <- bt_keys_get.
Qed.

Lemma BsLen_nothing f bs os : (∀ k, bt_get k (bs_tree bs) = None) → BsLen f bs os = (Ok 0, bs, os).
Proof.
  intros Hnone. assert (bt_keys (bs_tree bs) = []) as Hks.
  { destruct (bt_keys (bs_tree bs)) as [|k ks] eqn:E; [done|]. assert (k ∈ bt_keys (bs_tree bs)) as [v Hv]%bt_keys_get by (rewrite E; by left).
    by rewrite Hnone in Hv. }
  unfold BsLen, with_var, iter. run. cbn [fst snd]. by rewrite Hks.
Qed.

(** C18. Whichever consumer [Shovel] was asked to empty, the queue or a fork of it,
    and whatever the state of the queues and the faults: if it ends without an error,
    then the queue is empty for all of its consumers, not only for that one. *)
Theorem Shovel_clears_all f sh os n sh' os' :
  BsShovel f sh os = (Ok (n, None), sh', os') → ∀ g, BsLen g (sh_src sh') os' = (Ok 0, sh_src sh', os').
Proof.
  unfold BsShovel, attempt. run. destruct (iter _ _ _ _ _ _) as [[[?|?| |] sh1] os1]; run; try done.
  destruct (clear (sh_src sh1) os1) as [[[[]|?| |] bs'] os2] eqn:Hclear; run; try done. cbn [err_of]. intros [= _ <- <-] g.
  apply BsLen_nothing. by eapply clear_tree.
Qed.
End others.

(** ** Witnesses *)

#[local] Existing Instance Host_tiny.

(** Another queue, without buckets, next to that of [ex_open]. *)
Definition ex_dst (d : string) : buckets slist := mkBuckets [d] bt_empty [] ∅ ex_conf8 [].

Definition ex_two_os : OS := mkOS (<[ ["r"] := NDir ]> (os_fs (ex_kos false))) [].

Lemma ex_dirs_apart (a b : string) : a ≠ b → dirs_apart [a] [b].
Proof. intros Hne. split; intros [r Hr]; cbn in Hr; congruence. Qed.

Lemma ex_src_holds : holds_queue ex_cap ex_open ex_two_os ex_spec.
Proof.
  destruct ex_holds_queue as [Hok Hsplit Hno]. split; [|done|done]. eapply queue_ok_frame; [exact Hok|].
  intros p Hp. cbn [os_fs ex_two_os]. apply lookup_insert_ne. intros <-. destruct Hp as [[r Hr]|[r Hr]]; cbn in Hr; congruence.
Qed.

Lemma ex_dst_holds : holds_queue ex_cap (ex_dst "r") ex_two_os ∅.
Proof.
  split; [|exists ex_split8; split; [done|split; [apply ex_split8_ok|apply empty_spec]]|done].
  assert (∀ k, bt_get k (bs_tree (ex_dst "r")) = None) as Hnone by (intros k; apply bt_get_empty).
  apply (queue_ok_frame ex_cap (ex_dst "r") (mkOS {[ ["r"] := NDir ]} [])).
  - apply queue_ok_fresh; [done|apply NoDup_singleton|..].
    + intros p Hp. cbn [os_fs]. apply lookup_singleton_ne. intros <-. by apply Hp.
    + intros d [r Hr] Hne. destruct d as [|x [|? ?]]; cbn in Hr; simplify_eq/=. by vm_compute.
  - intros p Hp. cbn [os_fs ex_two_os]. destruct (decide (["r"] = p)) as [<-|Hne]; [by rewrite lookup_insert_eq, lookup_singleton_eq|].
    rewrite lookup_insert_ne, lookup_singleton_ne by done. unfold ex_kos, idxPath, Join, ex_kdir. cbn [os_fs].
    rewrite !lookup_insert_ne, lookup_singleton_ne; [done|..]; intros <-; destruct Hp as [[r Hr]|[r Hr]]; cbn in Hr; congruence.
Qed.

Lemma Shovel_queue_witness :
  ∃ bss' bsd' os' Qd', @Queue_Shovel slist _ Host_tiny Unix_plain Range_id Copy_tree Devices_one (mkShovel ex_open (ex_dst "r") 0) ex_two_os =
      (Ok (2, None), mkShovel bss' bsd' 2, os') ∧
    contents "" Qd' ≡ₚ contents "" ∅ ++ contents "" ex_spec ∧
    holds_queue (cap_shovel (contents "" ex_spec) ex_cap) bss' os' ∅ ∧
    holds_queue (cap_shovel (contents "" ex_spec) ex_cap) bsd' os' Qd' ∧ (trailers_ok (ex_dst "r") ∅ → trailers_ok bsd' Qd').
Proof.
  apply (@Shovel_queue slist _ _ Host_tiny Unix_plain Unix_plain_laws Range_id Range_id_laws Copy_tree Copy_tree_laws Devices_one
    ex_split8 ex_cap ex_open (ex_dst "r") 0 ex_two_os ex_spec ∅).
  - apply ex_src_holds.
  - apply ex_dst_holds.
  - reflexivity.
  - reflexivity.
  - reflexivity.
  - reflexivity.
  - by apply ex_dirs_apart.
  - reflexivity.
  - apply ex_cap_ok.
  - split; vm_compute; intuition congruence.
  - by vm_compute.
Defined.

(** Two queues in directories of their own, calls on each, and then [Shovel] of the
    first one or of a fork of it; the number of items left, and what is read then. *)
Definition ex_exec (cs : list call) : M (buckets slist) (list reply) :=
  @exec_all slist _ Host_tiny Unix_plain Range_id Sort_insert Copy_tree Devices_one Unicode_ascii cs.

Definition ex_shovelling (f : option ForkName) (srcs dsts : list call)
    : M (shovel (T := slist)) (Z * option error * list reply * list reply) :=
  match f with
  | Some f => zoom sh_src set_src (@Queue_Fork slist _ Host_tiny Unix_plain Range_id Copy_tree Unicode_ascii f ;; mret tt)
  | None => mret tt
  end ;;
  zoom sh_src set_src (ex_exec srcs) ;;
  zoom sh_dst set_dst (ex_exec dsts) ;;
  r ← match f with
      | Some f => @Fork_Shovel slist _ Host_tiny Unix_plain Range_id Copy_tree Devices_one (mkFork f true)
      | None => @Queue_Shovel slist _ Host_tiny Unix_plain Range_id Copy_tree Devices_one
      end;
  rs ← zoom sh_src set_src (ex_exec [CLen ""]);
  rs' ← zoom sh_dst set_dst (ex_exec [CPop (-1) ""]);
  mret (r, rs, rs').

Definition ex_shovelled (f : option ForkName) (srcs dsts : list call) : res (Z * option error * list reply * list reply) :=
  (ex_shovelling f srcs dsts (mkShovel (ex_dst "q") (ex_dst "r") 0) (mkOS (<[ ["q"] := NDir ]> {[ ["r"] := NDir ]}) [])).1.1.

Lemma ex_sh_begin_ok : @BsShovel slist _ Host_tiny Unix_plain Range_id Copy_tree Devices_one "" (mkShovel ex_open (ex_dst "r") 0) ex_two_os =
  (Ok (2, None), (@BsShovel slist _ Host_tiny Unix_plain Range_id Copy_tree Devices_one "" (mkShovel ex_open (ex_dst "r") 0) ex_two_os).1.2,
   (@BsShovel slist _ Host_tiny Unix_plain Range_id Copy_tree Devices_one "" (mkShovel ex_open (ex_dst "r") 0) ex_two_os).2).
Proof.
  assert ((@BsShovel slist _ Host_tiny Unix_plain Range_id Copy_tree Devices_one "" (mkShovel ex_open (ex_dst "r") 0) ex_two_os).1.1
    = Ok (2, None)) as Hr by (vm_compute; reflexivity).
  destruct (@BsShovel slist _ Host_tiny Unix_plain Range_id Copy_tree Devices_one "" _ _) as [[r sh] os]. cbn in *. by rewrite Hr.
Qed.

Lemma Shovel_clears_all_witness :
  @BsLen slist _ Host_tiny Unix_plain Range_id "f" (sh_src (@BsShovel slist _ Host_tiny Unix_plain Range_id Copy_tree Devices_one "" (mkShovel ex_open (ex_dst "r") 0) ex_two_os).1.2)
    (@BsShovel slist _ Host_tiny Unix_plain Range_id Copy_tree Devices_one "" (mkShovel ex_open (ex_dst "r") 0) ex_two_os).2 =
  (Ok 0, sh_src (@BsShovel slist _ Host_tiny Unix_plain Range_id Copy_tree Devices_one "" (mkShovel ex_open (ex_dst "r") 0) ex_two_os).1.2,
   (@BsShovel slist _ Host_tiny Unix_plain Range_id Copy_tree Devices_one "" (mkShovel ex_open (ex_dst "r") 0) ex_two_os).2).
Proof.
  apply (@Shovel_clears_all slist _ _ Host_tiny Unix_plain Range_id Copy_tree Devices_one "" (mkShovel ex_open (ex_dst "r") 0) ex_two_os 2).
  apply ex_sh_begin_ok.
Defined.

(** One bucket is moved, the items of the other one are pushed. *)
Lemma ex_shovel_both :
  ex_shovelled None [CPush (mkItem 9 [] :: ex_items)] [CPush [mkItem 4 [Byte.x61]]] =
  Ok (3, None, [RLen 0], [RItems [mkItem 3 [Byte.x61]; mkItem 4 [Byte.x61]; mkItem 5 [Byte.x62; Byte.x63]; mkItem 9 []] None]).
Proof. vm_compute. reflexivity. Qed.

(** A fork that has read all is shovelled: the queue itself loses its items; they
    are in the other queue, although none are reported, if the bucket is moved, but
    the fork's index in its directory gets in the way of removing it; else they
    are nowhere. *)
Lemma Fork_Shovel_takes_all :
  ex_shovelled (Some "f") [CPush ex_items; CPop (-1) "f"] [] =
    Ok (0, None, [RLen 0], [RItems ex_items (Some (EWrap "failed to delete bucket" (EIO "remove: directory not empty")))]) ∧
  ex_shovelled (Some "f") [CPush ex_items; CPop (-1) "f"] [CPush [mkItem 4 [Byte.x61]]] =
    Ok (0, None, [RLen 0], [RItems [mkItem 4 [Byte.x61]] None]).
Proof. split; vm_compute; reflexivity. Qed.
