(* ===== verification/QueueProgress.v ===== *)
(** * What a client of a queue can rely on

    Consequences of the refinement of [Queue.v]: every call is answered in its own
    way and with values in range, and a consumer that goes on reading gets
    everything. *)

From S2P Require Import Prelude BTree Os Item Vlog Index IndexFile Options Bucket BucketPeek BucketPop BucketQueue.
From S2P Require Import BucketForks BucketDelete BucketOpen BucketCycle Names Buckets BucketsSplit BucketsClose BucketsQueue BucketsPush.
From S2P Require Import BucketsSpec BucketsRead BucketsClear BucketsDelete BucketsLoad BucketsOpen BucketsShovel Api Queue.

(** ** The types of replies *)

(** A call and what it may be answered with. *)
Inductive typed : call → reply → Prop :=
  | typed_push items : typed (CPush items) RDone
  | typed_pop n f its :
      Forall valid_item its → sorted_items its → (0 ≤ n → Z.of_nat (length its) ≤ n) → typed (CPop n f) (RItems its None)
  | typed_peek n f its :
      Forall valid_item (take (Z.to_nat (read_max n)) its) → sorted_items (take (Z.to_nat (read_max n)) its) →
      typed (CPeek n f) (RItems its None)
  | typed_len f n : 0 ≤ n < 2 ^ 32 → typed (CLen f) (RLen n)
  | typed_delete f (from to : Key) n : from ≤ to → 0 ≤ n < 2 ^ 32 → typed (CDelete f from to) (RDeleted n None)
  | typed_range f (from to : Key) : to < from → typed (CDelete f from to) (RDeleted 0 (Some EToLtFrom))
  | typed_sync : typed CSync RDone
  | typed_clear : typed CClear RDone.

(** The items of all consumers are valid. *)
Definition valid_spec (fs : list ForkName) (A : qspec) : Prop := ∀ f, f ∈ fs → Forall valid_item (A f).

Lemma read_max_bound n : 0 ≤ n → read_max n = n.
Proof. intros Hn. unfold read_max. by replace (n <? 0) with false by lia. Qed.

(** No consumer has 2^32 items, not even after the calls. *)
Definition bounded (fs : list ForkName) (A : qspec) (cs : list call) : Prop :=
  ∀ f, f ∈ fs → Z.of_nat (length (A f)) + Z.of_nat (length (concat (pushed <$> cs))) < 2 ^ 32.

Lemma qstep_typed fs A o r A' cs :
  valid_spec fs A → call_ok fs o → bounded fs A (o :: cs) → qstep fs A o r A' → typed o r ∧ valid_spec fs A' ∧ bounded fs A' cs.
Proof.
  intros Hval Ho Hitems Hstep. unfold bounded in Hitems. cbn [fmap list_fmap concat] in Hitems. split; [|split].
  - destruct Hstep as [items A' HA|n f out A' [Hp Hs _ Hl] HA|n f out rest A' [Hp Hs _ _] HA|f A' HA|f from to A' Hft Hf HA|f from to A' Hft HA|A' HA|A' HA];
      try by constructor.
    + destruct Ho as (Hf & Hn & _). constructor; [|done|].
      * specialize (Hval f Hf). rewrite Hp in Hval. by apply Forall_app in Hval as [? _].
      * intros Hpos. rewrite read_max_bound in Hl by done. lia.
    + destruct Ho as (Hf & _). constructor; [|done]. specialize (Hval f Hf). rewrite Hp in Hval. by apply Forall_app in Hval as [? _].
    + constructor. specialize (Hitems f Ho). lia.
    + constructor; [done|]. destruct Ho as [Hf' _]. specialize (Hitems f Hf'). pose proof (outside_length from to (A f)). lia.
  - intros f Hf. destruct (qstep_covers fs A o r A' f Hstep Hf) as [rest Hp].
    assert (Forall valid_item (A f ++ pushed o)) as Hall.
    { apply Forall_app. split; [by apply Hval|]. destruct o; cbn [pushed]; try constructor. apply Ho. }
    rewrite Hp in Hall. by apply Forall_app in Hall as [? _].
  - intros f Hf. destruct (qstep_covers fs A o r A' f Hstep Hf) as [rest Hp%Permutation_length]. specialize (Hitems f Hf).
    rewrite !length_app in *. lia.
Qed.

Lemma qsteps_typed fs A cs rs A' :
  valid_spec fs A → Forall (call_ok fs) cs → bounded fs A cs → qsteps fs A cs rs A' → Forall2 typed cs rs.
Proof.
  intros Hval Hok Hb Hsteps. induction Hsteps as [A A' HA|A o r cs rs A1 A' Hstep _ IH]; [constructor|].
  apply Forall_cons in Hok as [Ho Hok]. destruct (qstep_typed fs A o r A1 cs Hval Ho Hb Hstep) as (Ht & Hval1 & Hb1).
  constructor; [done|]. by apply IH.
Qed.

(** ** Reading until nothing is left *)

(** Calls that pop at most [n] items each, and what they return. *)
Definition pops (k : nat) (n : Z) (f : ForkName) : list call := replicate k (CPop n f).

Lemma qsteps_pops fs k n f A rs A' :
  n ≠ 0 → is_int64 n → qsteps fs A (pops k n f) rs A' →
  ∃ outs, rs = (λ out, RItems out None) <$> outs ∧ A f ≡ₚ concat outs ++ A' f ∧ sorted_items (concat outs) ∧
    all_le (concat outs) (A' f) ∧ (length (A' f) ≤ length (A f) - k)%nat.
Proof.
  intros Hn Hn64 Hsteps. remember (pops k n f) as cs eqn:Hcs. revert k Hcs.
  induction Hsteps as [A A' HA|A o r cs rs A1 A' Hstep _ IH]; intros [|k] Hcs; try discriminate Hcs.
  { exists []. cbn. rewrite HA. split_and!; try done; [constructor|by intros x y ?%elem_of_nil|lia]. }
  injection Hcs as -> ->. inversion Hstep as [|? ? out ? [Hp Hs Hle Hl] HA| | | | | |]; subst.
  destruct (IH k eq_refl) as (outs & -> & Hp' & Hs' & Hle' & Hl'). exists (out :: outs). cbn [concat fmap list_fmap].
  split; [done|]. split; [by rewrite Hp, Hp', app_assoc|]. split; [|split].
  - unfold sorted_items in *. rewrite fmap_app. apply StronglySorted_app_2; [|done..].
    intros a b (x & -> & Hx)%list_elem_of_fmap (y & -> & Hy)%list_elem_of_fmap. apply Hle; [done|]. rewrite Hp'. set_solver.
  - intros x y [Hx|Hx]%elem_of_app Hy; [|by apply Hle']. apply Hle; [done|]. rewrite Hp'. set_solver.
  - apply Permutation_length in Hp. rewrite length_app in Hp. unfold read_max, maxInt, is_int64 in *.
    destruct (Z.ltb_spec n 0); lia.
Qed.

Section progress.
Context {T : Type → Type} `{BTreeLaws T} `{Host, Unix, !UnixLaws} `{MapRange, !MapRangeLaws} `{SortFunc, !SortFuncLaws}.
Context `{CopyPkg, Devices, Unicode}.
Implicit Types (bs : buckets T) (Q : gmap Key (gmap ForkName Items)).

(** C12. Every call is answered in its own way and in range: [PopCopy] gives valid
    items in order, at most as many as it was asked for, [PeekCopy] begins with
    such items, [Len] and [Delete] count below 2^32, a range that is empty is the
    only error, and [Push], [Sync] and [Clear] just succeed.  The queue and the
    calls are as in [queue_refines]: no system errors, no arrays that are shared
    and appended to, right totals for [Len], valid items and keys of a batch less
    than 2^63 apart, read counts not 0, less than 2^32 items per consumer; and if a
    range is deleted, no item is below the key of its bucket and no two of a
    consumer below the range have the same key. *)
Theorem exec_typed fn c bs os Q cs :
  holds_queue c bs os Q → (counts cs → trailers_ok bs Q) → split_func bs = Ok fn →
  valid_spec (consumers bs) (λ f, contents f Q) → Forall (call_ok (consumers bs)) cs →
  fits fn c (consumers bs) (λ f, contents f Q) cs →
  ∃ rs bs' os', exec_all cs bs os = (Ok rs, bs', os') ∧ Forall2 typed cs rs.
Proof.
  intros Hh Htr Hfn Hval Hcs Hfits. pose proof (ft_items _ _ _ _ _ Hfits) as Hb. rewrite <- (app_nil_r cs) in Hfits.
  destruct (exec_all_ok fn c bs os Q cs [] Hh Htr Hfn Hcs Hfits) as (rs & d & bs' & os' & Q' & Heq & _ & _ & Hsteps & _).
  exists rs, bs', os'. split; [done|]. by eapply qsteps_typed.
Qed.

(** C11. Progress: however many items a consumer has, if it goes on popping, with
    any positive number or with all at a time, it comes to an end: after as many
    calls as there are items at most nothing is left, and it has got every item
    exactly once, in the order of the keys over all calls. *)
Theorem drain fn c bs os Q f n :
  holds_queue c bs os Q → split_func bs = Ok fn → f ∈ consumers bs → n ≠ 0 → is_int64 n →
  fits fn c (consumers bs) (λ f, contents f Q) (pops (length (contents f Q)) n f) →
  ∃ outs d bs' os' Q', exec_all (pops (length (contents f Q)) n f) bs os = (Ok ((λ out, RItems out None) <$> outs), bs', os') ∧
    concat outs ≡ₚ contents f Q ∧ sorted_items (concat outs) ∧ contents f Q' = [] ∧ holds_queue d bs' os' Q'.
Proof.
  intros Hh Hfn Hf Hn Hn64 Hfits. set (k := length (contents f Q)) in *. rewrite <- (app_nil_r (pops k n f)) in Hfits.
  assert (∀ o, o ∈ pops k n f → o = CPop n f) as Hpops by (intros o Ho; by apply elem_of_replicate in Ho as [-> _]).
  destruct (exec_all_ok fn c bs os Q (pops k n f) [] Hh) as (rs & d & bs' & os' & Q' & Heq & Hh' & _ & Hsteps & _); try done.
  { intros [g Hg%Hpops]. discriminate Hg. }
  { apply Forall_forall. intros o ->%Hpops. done. }
  destruct (qsteps_pops _ k n f _ rs _ Hn Hn64 Hsteps) as (outs & -> & Hp & Hs & _ & Hl).
  assert (contents f Q' = []) as Hnil by (apply length_zero_iff_nil; lia). rewrite Hnil, app_nil_r in Hp.
  exists outs, d, bs', os', Q'. by split_and!.
Qed.
End progress.

(** ** Witnesses *)

#[local] Existing Instance Host_tiny.

Lemma exec_typed_witness :
  ∃ rs bs' os',
    @exec_all _ _ Host_tiny Unix_plain Range_id Sort_insert Copy_none Devices_one Unicode_ascii ex_calls ex_open (ex_kos false)
      = (Ok rs, bs', os') ∧ Forall2 typed ex_calls rs.
Proof.
  apply (@exec_typed _ _ _ Host_tiny Unix_plain Unix_plain_laws Range_id Range_id_laws Sort_insert Sort_insert_laws
    Copy_none Devices_one Unicode_ascii ex_split8 ex_cap ex_open (ex_kos false) ex_spec ex_calls).
  - apply ex_holds_queue.
  - intros _. apply ex_trailers.
  - done.
  - intros f [->|[]%elem_of_nil]%elem_of_cons. apply ex_valid.
  - apply ex_calls_ok.
  - apply ex_calls_fit.
Defined.

Lemma drain_witness :
  ∃ outs d bs' os' Q',
    @exec_all _ _ Host_tiny Unix_plain Range_id Sort_insert Copy_none Devices_one Unicode_ascii
      (pops (length (contents "" ex_spec)) 1 "") ex_open (ex_kos false) = (Ok ((λ out, RItems out None) <$> outs), bs', os') ∧
    concat outs ≡ₚ contents "" ex_spec ∧ sorted_items (concat outs) ∧ contents "" Q' = [] ∧ holds_queue d bs' os' Q'.
Proof.
  apply (@drain _ _ _ Host_tiny Unix_plain Unix_plain_laws Range_id Range_id_laws Sort_insert Sort_insert_laws
    Copy_none Devices_one Unicode_ascii ex_split8 ex_cap ex_open (ex_kos false) ex_spec "" 1).
  - apply ex_holds_queue.
  - done.
  - by left.
  - done.
  - unfold is_int64; lia.
  - split; [apply ex_cap_ok| |vm_compute; intuition congruence..|].
    + intros f [->|[]%elem_of_nil]%elem_of_cons. by vm_compute.
    + intros f g from to Hin. apply elem_of_replicate in Hin as [? _]. done.
Defined.
