(* ===== verification/Cmd.v ===== *)
(** * src/cmd: the command line client

    Every command opens the queue, works on it and closes it.  The package that
    parses the arguments (urfave/cli) is not in the repository: a [cli_Context] has
    the answers of its methods, and [app_Run] runs a table of commands. *)

From S2P Require Import Prelude BTree Os Item Vlog VlogIter Options Bucket Names Buckets.
From S2P Require Import BucketsLoad BucketsShovel Api.
From stdpp Require Import pretty.
From Stdlib Require Import Ascii.
#[local] Open Scope Z_scope.

(** ** Input and output *)

(** [cli.Context]: the values of flags, by their names, and the other arguments. *)
Record cli_Context := mkContext {
  ctx_GlobalString : string → string;
  ctx_GlobalDuration : string → Z;
  ctx_String : string → string;
  ctx_Int : string → Z;
  ctx_Int64 : string → Z;
  ctx_IsSet : string → bool;
  ctx_Args : list string;
}.

(** The file that the operating system finds under a name. *)
Class Paths := {
  path_of : string → path;
}.

(** What was printed, and the errors that were reported on standard error. *)
Record stdio := mkStdio {
  std_out : list byte;
  std_err : list error;
}.

Definition bytes_of : string → list byte := String.list_byte_of_string.

Definition newline : list byte := [Byte.x0a].

Definition print (bs : list byte) : M stdio unit :=
  modify (λ io, mkStdio (std_out io ++ bs) (std_err io)).

Definition Println (bs : list byte) : M stdio unit := print (bs ++ newline).

(** [%d] and [%v] of a number. *)
Definition decimal (n : Z) : list byte := bytes_of (pretty n).

(** [Item.String] *)
Definition Item_String (i : Item) : list byte := bytes_of (Key_String (it_Key i)) ++ bytes_of ":" ++ it_Blob i.

(** ** Options *)

Definition cmd_split (bucketSize : Z) (key : Key) : Key := Z.quot key bucketSize.

Definition optionsFromCtx (ctx : cli_Context) : res Options :=
  opts ← DefaultOptions;
  let mode := ctx_GlobalString ctx "sync-mode" in
  syncMode ← (if decide (mode = "full") then Ok SyncFull
              else if decide (mode = "data") then Ok SyncData
              else if decide (mode = "index") then Ok SyncIndex
              else if decide (mode = "none") then Ok SyncNone
              else Err (EInvalid "sync mode"));
  let bucketSize := ctx_GlobalDuration ctx "bucket-size" in
  if bucketSize <=? 0 then Err (EInvalid "bucket size")
  else
    Ok (mkOptions syncMode (opt_Logger opts) (opt_ErrorMode opts)
          (mkBucketSplitConf (Some (cmd_split bucketSize)) ("cmd:" +:+ pretty bucketSize))
          (opt_MaxParallelOpenBuckets opts)).

(** ** Arguments of push *)

(** [strings.SplitN(s, sep, 2)] for one character *)
Fixpoint SplitN_2 (sep : ascii) (s : list ascii) : list (list ascii) :=
  match s with
  | [] => [[]]
  | c :: s =>
      if decide (c = sep) then [[]; s]
      else
        match SplitN_2 sep s with
        | [] => [[c]]
        | w :: ws => (c :: w) :: ws
        end
  end.

(** The body of the loop of [handlePush]. *)
Definition parse_arg (arg : string) : res Item :=
  match SplitN_2 ":"%char (chars arg) with
  | key :: blob :: _ =>
      key ← ParseInt key;
      Ok (mkItem key (Ascii.byte_of_ascii <$> blob))
  | _ => Err (EInvalid "tuple")
  end.

Fixpoint parse_args (args : list string) : res Items :=
  match args with
  | [] => Ok []
  | arg :: args => it ← parse_arg arg; its ← parse_args args; Ok (it :: its)
  end.

(** ** Commands *)

Section cmd.
Context {T : Type → Type} `{BTree T} `{Host, Unix, MapRange, SortFunc, CopyPkg, RenameIO, Devices, Unicode, Paths}.

(** A command has the queue that was opened for it. *)
Definition handler : Type := cli_Context → M (buckets T * stdio) unit.

Definition withQueue (fn : handler) (ctx : cli_Context) : M stdio unit :=
  let dir := path_of (ctx_GlobalString ctx "dir") in
  opts ← wrap_err "options" (lift (optionsFromCtx ctx));
  queue ← wrap_err "open" (Open_queue dir opts);
  zoom (λ io, (queue, io)) (λ st _, st.2) (
    r ← attempt (fn ctx);
    match r with
    | inl e => attempt (zoom fst set_fst Queue_Close) ;; fail e
    | inr _ => wrap_err "close" (zoom fst set_fst Queue_Close)
    end).

Definition handlePush : handler := λ ctx,
  items ← lift (parse_args (ctx_Args ctx));
  zoom fst set_fst (Queue_Push items).

(** The callback of [handlePopOrPeek]. *)
Definition print_items (op : ReadOp) (items : Items) : M (buckets T * stdio) ReadOp :=
  zoom snd set_snd (each (λ it, Println (Item_String it)) items) ;;
  mret op.

Definition handlePopOrPeek (op : ReadOp) : handler := λ ctx,
  let n := ctx_Int ctx "number" in
  c_Read (Queue_Consumer fst set_fst) n (print_items op).

Definition handlePop : handler := handlePopOrPeek ReadOpPop.

Definition handlePeek : handler := handlePopOrPeek ReadOpPeek.

Definition handleLen : handler := λ _,
  n ← c_Len (Queue_Consumer fst set_fst);
  zoom snd set_snd (Println (decimal n)).

Definition handleClear : handler := λ ctx,
  if negb (ctx_IsSet ctx "to") && negb (ctx_IsSet ctx "from") then
    size ← c_Len (Queue_Consumer fst set_fst);
    zoom fst set_fst Queue_Clear ;;
    zoom snd set_snd (print (bytes_of "deleted all " ++ decimal size ++ bytes_of " items" ++ newline))
  else
    let from := if ctx_IsSet ctx "from" then ctx_Int64 ctx "from" else - 2 ^ 63 in
    let to := if ctx_IsSet ctx "to" then ctx_Int64 ctx "to" else 2 ^ 63 - 1 in
    '(deleted, err) ← c_Delete (Queue_Consumer fst set_fst) from to;
    match err with
    | Some e => fail e
    | None => zoom snd set_snd (print (bytes_of "deleted " ++ decimal deleted ++ bytes_of " items" ++ newline))
    end.

(** The queue of the command and the one that [handleShovel] opens. *)
Definition two_queues (st : buckets T * stdio * buckets T) : shovel := mkShovel st.1.1 st.2 0.

Definition set_queues (sh : shovel) (st : buckets T * stdio * buckets T) : buckets T * stdio * buckets T :=
  ((sh_src sh, st.1.2), sh_dst sh).

Definition handleShovel : handler := λ ctx,
  let dstDir := path_of (ctx_String ctx "dest") in
  dstOpts ← lift (optionsFromCtx ctx);
  dstQueue ← Open_queue dstDir dstOpts;
  zoom (λ st, (st, dstQueue)) (λ st _, st.1) (
    '(nShoveled, err) ← zoom two_queues set_queues (c_Shovel (Queue_Consumer (T := T) fst (set_fst (B := stdio))));
    match err with
    | Some e =>
        r ← attempt (zoom snd set_snd Queue_Close);
        or_fail (join_errs [Some e; err_of r])
    | None =>
        zoom fst set_fst (zoom snd set_snd (print (bytes_of "moved " ++ decimal nShoveled ++ bytes_of " items" ++ newline))) ;;
        zoom snd set_snd Queue_Close
    end).

Definition handleForkCreate : handler := λ ctx,
  let name := ctx_String ctx "name" in
  zoom fst set_fst (Queue_Fork name) ;;
  mret tt.

Definition handleForkList : handler := λ _,
  st ← get;
  zoom snd set_snd (each (λ fork, Println (bytes_of fork)) (Queue_Forks st.1)).

Definition handleForkRemove : handler := λ ctx,
  let name := ctx_String ctx "name" in
  fork ← zoom fst set_fst (Queue_Fork name);
  zoom (λ st, (st.1, fork)) (λ bf st, (bf.1, st.2)) Fork_Remove.

(** The loop of [handleLogDump]; [fuel] bounds the bytes of the log. *)
Fixpoint dump_loop (fuel : nat) (log : Log) (iter : Iter) : M stdio unit :=
  match fuel with
  | O => lift NoFuel
  | S fuel =>
      '(ok, iter) ← lift (Next log iter);
      if ok : bool then
        let it := Iter_Item iter in
        print (bytes_of (Key_String (it_Key it)) ++ bytes_of ":" ++ it_Blob it ++ newline) ;;
        dump_loop fuel log iter
      else mret tt
  end.

Definition handleLogDump (ctx : cli_Context) : M stdio unit :=
  log ← Vlog.Open (path_of (ctx_String ctx "path")) true;
  let loc := mkLocation 0 0 (10 ^ 9) in
  dump_loop (S (Z.to_nat (log_size log))) log (At loc true) ;;
  zoom (λ _, log) (λ _ io, io) Vlog.Close.

(** ** The table of commands *)

(** [cli.Flag] and its kinds, without the texts of the help. *)
Inductive Flag :=
  | StringFlag (Name EnvVar Value : string) (Required : bool)
  | DurationFlag (Name EnvVar : string) (Value : Z)
  | IntFlag (Name : string) (Value : Z) (Required : bool)
  | Int64Flag (Name : string).

Inductive Command :=
  | Leaf (Name : string) (Aliases : list string) (Action : cli_Context → M stdio unit) (Flags : list Flag)
  | Group (Name : string) (Subcommands : list Command).

Record App := mkApp {
  app_Name : string;
  app_Version : string;
  app_Flags : list Flag;
  app_Commands : list Command;
}.

Definition number_flag : Flag := IntFlag "n,number" 1 false.

Definition name_flag : Flag := StringFlag "n,name" "" "" true.

Definition cli_app (cwd : string) : App :=
  mkApp "timeq" "0.0.1"
    [StringFlag "dir" "TIMEQ_DIR" cwd false;
     StringFlag "sync-mode" "TIMEQ_SYNC_MODE" "full" false;
     DurationFlag "bucket-size" "TIMEQ_BUCKET_SIZE" (30 * (60 * 10 ^ 9))]
    [Leaf "pop" [] (withQueue handlePop) [number_flag];
     Leaf "peek" [] (withQueue handlePeek) [number_flag];
     Leaf "push" [] (withQueue handlePush) [];
     Leaf "len" ["l"] (withQueue handleLen) [];
     Leaf "clear" ["c"] (withQueue handleClear) [Int64Flag "f,from"; Int64Flag "t,to"];
     Leaf "shovel" [] (withQueue handleShovel) [IntFlag "d,dest" 0 true];
     Group "fork"
       [Leaf "list" [] (withQueue handleForkList) [];
        Leaf "create" [] (withQueue handleForkCreate) [name_flag];
        Leaf "remove" [] (withQueue handleForkRemove) [name_flag]];
     Group "log"
       [Leaf "dump" [] handleLogDump [StringFlag "p,path" "" "" true]]].

(** [os.Getwd], and [App.Run] of the package. *)
Class Cli := {
  os_Getwd : string;
  app_Run : App → list string → M stdio unit;
}.

Definition Run `{Cli} (args : list string) : M stdio unit :=
  sys "getwd" ;;
  app_Run (cli_app os_Getwd) args.

(** An error is printed on standard error, and the exit status is that of success. *)
Definition report (m : M stdio unit) : M stdio unit :=
  r ← attempt m;
  match r with
  | inl e => modify (λ io, mkStdio (std_out io) (std_err io ++ [e]))
  | inr _ => mret tt
  end.

Definition main `{Cli} (os_Args : list string) : M stdio unit := report (Run os_Args).
End cmd.

(** ** Numbers *)

Lemma pretty_char (x : N) : (x < 10)%N → digit_val (pretty_N_char x) = Some (Z.of_N x).
Proof.
  intros Hx. assert (x = 0 ∨ x = 1 ∨ x = 2 ∨ x = 3 ∨ x = 4 ∨ x = 5 ∨ x = 6 ∨ x = 7 ∨ x = 8 ∨ x = 9)%N as Hd by lia.
  by repeat destruct Hd as [->|Hd]; [..|subst x].
Qed.

(** The digits that [pretty] writes in front of [s]. *)
Lemma pretty_go (x : N) s :
  ∃ ds, chars (pretty_N_go x s) = ds ++ chars s ∧ Forall (λ c, is_digit c = true) ds ∧ (x ≠ 0%N → ds ≠ []) ∧
    ∀ rest, Z.of_N x < 2 ^ 64 → ParseUint_loop 0 (ds ++ rest) = ParseUint_loop (Z.of_N x) rest.
Proof.
  revert s. induction (N.lt_wf_0 x) as [x _ IH]. intros s.
  destruct (decide (x = 0)%N) as [->|Hx]; [by exists []|]. rewrite pretty_N_go_step by lia.
  assert (x `div` 10 < x)%N as Hlt by (apply N.div_lt; lia).
  pose proof (N.mod_lt x 10 ltac:(done)) as Hm. pose proof (N.div_mod x 10 ltac:(done)) as Hdm.
  destruct (IH (x `div` 10)%N Hlt (String (pretty_N_char (x `mod` 10)) s)) as (ds & -> & Hds & _ & Hparse).
  pose proof (pretty_char _ Hm) as Hval. exists (ds ++ [pretty_N_char (x `mod` 10)]).
  split; [by rewrite <- app_assoc|]. split; [|split; [by destruct ds|]].
  - apply Forall_app. split; [done|]. apply Forall_singleton. unfold is_digit. rewrite Hval. by apply bool_decide_true.
  - intros rest Hx64. rewrite <- app_assoc, Hparse by lia. cbn [app ParseUint_loop]. rewrite Hval.
    replace (2 ^ 64 <=? Z.of_N (x `div` 10) * 10 + Z.of_N (x `mod` 10)) with false by lia. f_equal. lia.
Qed.

Lemma pretty_N_spec (x : N) :
  ∃ c ds, chars (pretty x) = c :: ds ∧ Forall (λ c, is_digit c = true) (c :: ds) ∧
    (Z.of_N x < 2 ^ 64 → ParseUint (c :: ds) = Ok (Z.of_N x)).
Proof.
  unfold pretty, pretty_N. case_decide as H0; [subst x; exists "0"%char, []; by repeat constructor|].
  destruct (pretty_go x "") as (ds & Heq & Hds & Hne & Hparse). change (chars "") with (@nil Ascii.ascii) in Heq. rewrite app_nil_r in Heq.
  destruct ds as [|c ds]; [by destruct (Hne H0)|]. exists c, ds. split; [done|]. split; [done|].
  intros Hx. unfold ParseUint. rewrite <- (app_nil_r (c :: ds)). by rewrite Hparse.
Qed.

(** Decimals consist of digits and a sign, and are read back. *)
Lemma decimal_chars (k : Z) c : c ∈ chars (pretty k) → is_digit c = true ∨ c = "-"%char.
Proof.
  destruct k as [|p|p]; [cbn; set_solver|..]; destruct (pretty_N_spec (N.pos p)) as (d & ds & Heq & Hds & _);
    rewrite Forall_forall in Hds.
  - change (pretty (Z.pos p)) with (pretty (N.pos p)). rewrite Heq. left. by apply Hds.
  - change (chars (pretty (Z.neg p))) with ("-"%char :: chars (pretty (N.pos p))). rewrite Heq.
    intros [->|Hc]%elem_of_cons; [by right|left; by apply Hds].
Qed.

Lemma ParseInt_decimal (k : Z) : is_int64 k → ParseInt (chars (pretty k)) = Ok k.
Proof.
  unfold is_int64. intros Hk. destruct k as [|p|p]; [done|..];
    destruct (pretty_N_spec (N.pos p)) as (c & ds & Heq & Hds & Hp); specialize (Hp ltac:(lia)).
  - change (pretty (Z.pos p)) with (pretty (N.pos p)). rewrite Heq. apply ParseInt_plain; [|done|lia].
    by apply Forall_inv in Hds.
  - change (chars (pretty (Z.neg p))) with ("-"%char :: chars (pretty (N.pos p))). rewrite Heq.
    by apply (ParseInt_minus _ (Z.pos p)); [|lia].
Qed.

(** ** Arguments *)

Lemma SplitN_2_none sep s : sep ∉ s → SplitN_2 sep s = [s].
Proof.
  induction s as [|c s IH]; intros Hs; [done|]. cbn. rewrite not_elem_of_cons in Hs. destruct Hs as [Hc Hs].
  by rewrite decide_False, IH by done.
Qed.

Lemma SplitN_2_at sep a b : sep ∉ a → SplitN_2 sep (a ++ sep :: b) = [a; b].
Proof.
  induction a as [|c a IH]; intros Ha; cbn; [by rewrite decide_True|]. rewrite not_elem_of_cons in Ha.
  by rewrite decide_False, IH by naive_solver.
Qed.

Lemma split_first (sep : Ascii.ascii) s : sep ∉ s ∨ ∃ a b, s = a ++ sep :: b ∧ sep ∉ a.
Proof.
  destruct (decide (sep ∈ s)) as [Hs|]; [right|by left]. apply list_elem_of_split_l in Hs as (a & b & ? & ?). by eauto.
Qed.

(** The argument of an item. *)
Definition arg_of (it : Item) : string :=
  str (chars (pretty (it_Key it)) ++ ":"%char :: (Ascii.ascii_of_byte <$> it_Blob it)).

Lemma bytes_ascii (blob : list byte) : Ascii.byte_of_ascii <$> (Ascii.ascii_of_byte <$> blob) = blob.
Proof. induction blob as [|b blob IH]; [done|]. cbn. by rewrite Ascii.byte_of_ascii_of_byte, IH. Qed.

Lemma ascii_bytes (cs : list Ascii.ascii) : Ascii.ascii_of_byte <$> (Ascii.byte_of_ascii <$> cs) = cs.
Proof. induction cs as [|c cs IH]; [done|]. cbn. by rewrite Ascii.ascii_of_byte_of_ascii, IH. Qed.

(** A number, a colon, and the blob. *)
Definition arg_is (arg : string) (it : Item) : Prop :=
  ∃ num, ":"%char ∉ num ∧ ParseInt num = Ok (it_Key it) ∧ chars arg = num ++ ":"%char :: (Ascii.ascii_of_byte <$> it_Blob it).

Lemma parse_arg_spec arg it : parse_arg arg = Ok it ↔ arg_is arg it.
Proof.
  unfold parse_arg. split.
  - destruct (split_first ":"%char (chars arg)) as [Hno|(num & blob & Heq & Hno)]; [by rewrite SplitN_2_none|].
    rewrite Heq, SplitN_2_at by done. destruct (ParseInt num) as [key| | |] eqn:Hnum; try done. run. intros [= <-].
    exists num. cbn. by rewrite ascii_bytes.
  - intros (num & Hno & Hnum & ->). rewrite SplitN_2_at, Hnum by done. run. rewrite bytes_ascii. by destruct it.
Qed.

(** The arguments of push: an argument is accepted if and only if it is a number
    of 64 bits in front of its first colon, and then the rest of it, colons and all,
    is the blob; one argument that is not accepted rejects all. *)
Theorem parse_args_spec args its :
  parse_args args = Ok its ↔
  Forall2 (λ arg it, ∃ num, ":"%char ∉ num ∧ ParseInt num = Ok (it_Key it) ∧
    chars arg = num ++ ":"%char :: (Ascii.ascii_of_byte <$> it_Blob it)) args its.
Proof.
  revert its. induction args as [|arg args IH]; intros its; cbn [parse_args].
  { split; [by intros [= <-]; constructor|]. intros Hf. by inversion Hf. }
  split.
  - destruct (parse_arg arg) as [it| | |] eqn:Harg; try done. run. destruct (parse_args args) as [its'| | |]; try done.
    intros [= <-]. constructor; [by apply parse_arg_spec|by apply IH].
  - intros Hf. inversion Hf as [|? it ? its' Harg Hargs]; subst. apply parse_arg_spec in Harg. rewrite Harg. run.
    apply IH in Hargs. by rewrite Hargs.
Qed.

Lemma parse_arg_of it : is_int64 (it_Key it) → parse_arg (arg_of it) = Ok it.
Proof.
  intros Hk%ParseInt_decimal. apply parse_arg_spec. eexists. split; [|split; [exact Hk|]].
  - by intros [?|?]%decimal_chars.
  - unfold arg_of. by rewrite chars_str.
Qed.
