(* ===== verification/CmdRun.v ===== *)
(** * Running commands

    The handlers of the client implement the calls of [Queue.v]; a sequence of
    commands, each of which opens and closes the queue, does so as well if a bucket
    holds one key.  For larger buckets the split function of the client is not
    idempotent, and its queues cannot be opened again. *)

From S2P Require Import Prelude BTree Os Item Vlog VlogIter Index IndexRecover IndexFile Options Bucket BucketPeek BucketPop BucketQueue.
From S2P Require Import BucketForks BucketDelete BucketOpen BucketCycle Names Buckets BucketsLoad BucketsSplit BucketsClose BucketsQueue.
From S2P Require Import BucketsPush BucketsSpec BucketsRead BucketsDelete BucketsOpen BucketsShovel Api Queue QueueForks Cmd.
From stdpp Require Import pretty.
From Stdlib Require Import Ascii.
#[local] Open Scope Z_scope.

(** ** Options *)

(** Bytes that [TrimSpace] keeps. *)
Definition printable (b : byte) : bool := BucketsLoad.ascii b && negb (asciiSpace b).

Lemma bytes_of_chars s : bytes_of s = Ascii.byte_of_ascii <$> chars s.
Proof. induction s as [|c s IH]; [done|]. cbn. by f_equal. Qed.

Lemma digit_printable c : is_digit c = true ∨ c = "-"%char → printable (Ascii.byte_of_ascii c) = true.
Proof. intros [Hc| ->]; [|done]. destruct c as [[] [] [] [] [] [] [] []]; try discriminate Hc; reflexivity. Qed.

Lemma TrimSpace_printable `{RenameIO} bs : Forall (λ b, printable b = true) bs → TrimSpace bs = bs.
Proof.
  intros Hbs. destruct bs as [|b bs]; [done|]. pose proof (Forall_inv Hbs) as [Ha Hs%negb_true_iff]%andb_true_iff. cbn [TrimSpace].
  rewrite Ha, Hs. cbn [negb]. apply Forall_reverse in Hbs. pose proof (reverse_involutive (b :: bs)) as Hrev.
  destruct (reverse (b :: bs)) as [|b' rs]; [done|]. pose proof (Forall_inv Hbs) as [Ha' Hs'%negb_true_iff]%andb_true_iff.
  cbn [trim_right]. by rewrite Ha', Hs'.
Qed.

Lemma bytes_of_app a b : bytes_of (a +:+ b) = bytes_of a ++ bytes_of b.
Proof. induction a as [|c a IH]; [done|]. change (Ascii.byte_of_ascii c :: bytes_of (a +:+ b) = Ascii.byte_of_ascii c :: (bytes_of a ++ bytes_of b)). by rewrite IH. Qed.

Section options.
Context `{RenameIO}.

Lemma optionsFromCtx_ok ctx opts :
  optionsFromCtx ctx = Ok opts →
  opts_ok opts ∧ 0 < ctx_GlobalDuration ctx "bucket-size" ∧
  sc_Func (opt_BucketSplitConf opts) = Some (cmd_split (ctx_GlobalDuration ctx "bucket-size")).
Proof.
  unfold optionsFromCtx. change DefaultOptions with (Ok (mkOptions SyncFull true ErrorModeAbort
    (default (mkBucketSplitConf None "") (match DefaultBucketSplitConf with Ok conf => Some conf | _ => None end)) 4)).
  cbn [mbind res_bind]. intros Hopts. set (d := ctx_GlobalDuration ctx "bucket-size") in *.
  assert (∃ sm, SyncMode_IsValid sm = true ∧ 0 < d ∧
    opts = mkOptions sm true ErrorModeAbort (mkBucketSplitConf (Some (cmd_split d)) ("cmd:" +:+ pretty d)) 4) as (sm & Hsm & Hd & ->).
  { repeat case_decide; cbn [mbind res_bind] in Hopts; try done; (destruct (Z.leb_spec d 0); [done|]); injection Hopts as <-;
      by refine (ex_intro _ _ (conj _ (conj _ eq_refl))). }
  split; [|done]. split.
  - unfold Validate. cbn. by rewrite Hsm.
  - apply TrimSpace_printable. change (String.list_byte_of_string ?s) with (bytes_of s). cbn [sc_Name opt_BucketSplitConf].
    rewrite bytes_of_app. apply Forall_app. split; [by repeat constructor|]. rewrite bytes_of_chars. apply Forall_fmap, Forall_forall.
    intros c Hc. by eapply digit_printable, decimal_chars.
Qed.
End options.

(** ** Handlers *)

Section handlers.
Context {T : Type → Type} `{BTreeLaws T} `{Host, Unix, !UnixLaws} `{MapRange, !MapRangeLaws} `{SortFunc, !SortFuncLaws}.
Context `{CopyPkg, Devices, Unicode} `{RenameIO, !RenameIOLaws} `{Paths}.
Implicit Types (bs : buckets T) (Q : gmap Key (gmap ForkName Items)).

(** What pop and peek print. *)
Definition lines (its : Items) : list byte := concat ((λ it, Item_String it ++ newline) <$> its).

Lemma lines_app its its' : lines (its ++ its') = lines its ++ lines its'.
Proof. unfold lines. by rewrite fmap_app, concat_app. Qed.

Definition printed_on (io : stdio) (bytes : list byte) : stdio := mkStdio (std_out io ++ bytes) (std_err io).

Lemma printed_nil io : printed_on io [] = io.
Proof. destruct io. unfold printed_on. by rewrite app_nil_r. Qed.

Lemma printed_app io a b : printed_on (printed_on io a) b = printed_on io (a ++ b).
Proof. unfold printed_on. cbn. by rewrite app_assoc. Qed.

Lemma Println_ok bytes io os : Println bytes io os = (Ok tt, printed_on io (bytes ++ newline), os).
Proof. done. Qed.

Lemma print_lines its io os : each (λ it, Println (Item_String it)) its io os = (Ok tt, printed_on io (lines its), os).
Proof.
  revert io. induction its as [|it its IH]; intros io; cbn [each]; [by rewrite printed_nil|].
  run. rewrite Println_ok, IH. change (lines (it :: its)) with ((Item_String it ++ newline) ++ lines its).
  by rewrite printed_app.
Qed.

Lemma print_collects op : collects (T := T) (print_items op) op (λ items io, printed_on io (lines items)).
Proof. intros items bs io os. unfold print_items. run. cbn [snd fst]. by rewrite print_lines. Qed.

Lemma print_all outs io : add_all (λ items io, printed_on io (lines items)) outs io = printed_on io (lines (concat outs)).
Proof.
  revert io. induction outs as [|out outs IH]; intros io; cbn; [by rewrite printed_nil|].
  unfold add_all in IH. rewrite IH, printed_app. unfold lines. by rewrite fmap_app, concat_app.
Qed.

(** ** Commands *)

(** The commands that need no fork and no second queue. *)
Inductive verb := VPush | VPop | VPeek | VLen | VClear.

Definition verb_handler (v : verb) : handler (T := T) :=
  match v with
  | VPush => handlePush
  | VPop => handlePop
  | VPeek => handlePeek
  | VLen => handleLen
  | VClear => handleClear
  end.

(** The calls that a command makes. *)
Definition verb_calls (v : verb) (ctx : cli_Context) : res (list call) :=
  match v with
  | VPush => items ← parse_args (ctx_Args ctx); Ok [CPush items]
  | VPop => Ok [CPop (ctx_Int ctx "number") ""]
  | VPeek => Ok [CPeek (ctx_Int ctx "number") ""]
  | VLen => Ok [CLen ""]
  | VClear =>
      if negb (ctx_IsSet ctx "to") && negb (ctx_IsSet ctx "from") then Ok [CLen ""; CClear]
      else Ok [CDelete "" (if ctx_IsSet ctx "from" then ctx_Int64 ctx "from" else - 2 ^ 63)
                 (if ctx_IsSet ctx "to" then ctx_Int64 ctx "to" else 2 ^ 63 - 1)]
  end.

(** What it prints when the replies are these, or its error. *)
Definition verb_text (rs : list reply) : list byte + error :=
  match rs with
  | [RItems its _] => inl (lines its)
  | [RLen n] => inl (decimal n ++ newline)
  | [RLen n; RDone] => inl (bytes_of "deleted all " ++ decimal n ++ bytes_of " items" ++ newline)
  | [RDeleted n None] => inl (bytes_of "deleted " ++ decimal n ++ bytes_of " items" ++ newline)
  | [RDeleted _ (Some e)] => inr e
  | _ => inl []
  end.

Definition printed_text (t : list byte + error) : list byte := match t with inl bytes => bytes | inr _ => [] end.

Definition reported (t : list byte + error) : list error := match t with inl _ => [] | inr e => [e] end.

(** ** A command on an open queue *)

(** What some calls with the replies [rs] leave behind, with room for [rest]. *)
Record handled (fn : Key → Key) (cs : list call) (rs : list reply) (rest : list call) (c : cap) bs Q (d : cap) bs' (os' : OS) Q' : Prop := {
  hd_holds : holds_queue d bs' os' Q';
  hd_list : same_list bs bs';
  hd_told : cap_told d = cap_told c;
  hd_steps : qsteps (consumers bs) (λ f, contents f Q) cs rs (λ f, contents f Q');
  hd_fits : fits fn d (consumers bs) (λ f, contents f Q') rest;
}.

Lemma handled_one fn o r rest c bs Q d bs' os' Q' :
  fits fn c (consumers bs) (λ f, contents f Q) (o :: rest) → stepped o r c bs Q d bs' os' Q' →
  handled fn [o] [r] rest c bs Q d bs' os' Q'.
Proof.
  intros Hfits [Hh Hsame _ _ Hg Hstep]. split; [done|done|by destruct Hg| |by eapply fits_next].
  econstructor; [exact Hstep|by constructor].
Qed.

Lemma handled_two fn o1 o2 r1 r2 rest c bs Q c1 bs1 os1 Q1 d bs' os' Q' :
  fits fn c (consumers bs) (λ f, contents f Q) (o1 :: o2 :: rest) →
  stepped o1 r1 c bs Q c1 bs1 os1 Q1 → stepped o2 r2 c1 bs1 Q1 d bs' os' Q' →
  handled fn [o1; o2] [r1; r2] rest c bs Q d bs' os' Q'.
Proof.
  intros Hfits [Hh1 Hsame1 _ _ Hg1 Hstep1] [Hh Hsame _ _ Hg Hstep].
  destruct (fits_next _ _ _ _ _ _ _ _ _ Hfits Hg1 Hstep1) as [_ Hfits1].
  assert (consumers bs1 = consumers bs) as Hfs by (unfold consumers; by rewrite (sl_forks _ _ Hsame1)). rewrite Hfs in Hstep.
  split; [done|by transitivity bs1|destruct Hg, Hg1; congruence| |by eapply fits_next].
  econstructor; [exact Hstep1|]. econstructor; [exact Hstep|by constructor].
Qed.

(** How a handler ends. *)
Definition ends (t : list byte + error) bs (io : stdio) (os : OS) : res unit * (buckets T * stdio) * OS :=
  match t with
  | inl bytes => (Ok tt, (bs, printed_on io bytes), os)
  | inr e => (Err e, (bs, io), os)
  end.

Lemma verb_ok fn v ctx cs rest c bs os Q io :
  verb_calls v ctx = Ok cs → holds_queue c bs os Q → trailers_ok bs Q → split_func bs = Ok fn → bs_forks bs = [] →
  Forall (call_ok [""]) cs → fits fn c [""] (λ f, contents f Q) (cs ++ rest) →
  ∃ rs d bs' os' Q', verb_handler v ctx (bs, io) os = ends (verb_text rs) bs' io os' ∧
    handled fn cs rs rest c bs Q d bs' os' Q'.
Proof.
  intros Hcs Hh Htr Hfn Hf Hok Hfits. assert (consumers bs = [""]) as Hfs by (unfold consumers; by rewrite Hf).
  rewrite <- Hfs in Hok, Hfits.
  assert (∀ op (n : Z), cs = [read_call op n ""] →
    ∃ rs d bs' os' Q', BsRead fst set_fst n "" (print_items op) (bs, io) os = ends (verb_text rs) bs' io os' ∧
      handled fn cs rs rest c bs Q d bs' os' Q') as Hread.
  { intros op n ->. apply Forall_cons_1 in Hok as [Ho _].
    destruct (read_step (print_items op) op _ fn c bs os Q "" n io rest (print_collects op) Hh Ho Hfits)
      as (outs & d & bs' & os' & Q' & Heq & Hst).
    exists [RItems (concat outs) None], d, bs', os', Q'. split; [rewrite Heq; by rewrite print_all|by apply handled_one]. }
  destruct v; cbn [verb_calls verb_handler] in *.
  - destruct (parse_args (ctx_Args ctx)) as [items| | |] eqn:Hargs; try done. injection Hcs as <-. apply Forall_cons_1 in Hok as [Ho _].
    destruct (push_step fn c bs os Q items rest Hh Ho Hfits) as (d & bs' & os' & Q' & Heq & Hst).
    exists [RDone], d, bs', os', Q'. split; [|by apply handled_one]. unfold handlePush. run. rewrite Hargs. cbn [fst]. rewrite Heq.
    cbn. by rewrite printed_nil.
  - injection Hcs as <-. by apply (Hread ReadOpPop).
  - injection Hcs as <-. by apply (Hread ReadOpPeek).
  - injection Hcs as <-. destruct (len_step fn c bs os Q "" rest) as [Heq Hst]; try done; [rewrite Hfs; by left|].
    eexists [RLen _], c, bs, os, Q. split; [|by apply handled_one]. unfold handleLen. run. cbn [c_Len Queue_Consumer]. run.
    cbn [fst]. by rewrite Heq.
  - unfold handleClear. destruct (negb (ctx_IsSet ctx "to") && negb (ctx_IsSet ctx "from")) eqn:Hflags; injection Hcs as <-.
    + destruct (len_step fn c bs os Q "" (CClear :: rest)) as [Heq Hst]; try done; [rewrite Hfs; by left|].
      destruct (clear_step c bs os Q Hh) as (bs' & os' & Heq' & Hst').
      eexists [RLen _; RDone], c, bs', os', ∅. split; [|by eapply handled_two]. run.
      cbn [c_Len Queue_Consumer]. run. cbn [fst]. rewrite Heq. cbn [set_fst fst snd]. by rewrite Heq'.
    + set (from := if ctx_IsSet ctx "from" then _ else _) in *. set (to := if ctx_IsSet ctx "to" then _ else _) in *.
      apply Forall_cons_1 in Hok as [Ho _].
      destruct (delete_step fn c bs os Q "" from to rest Hh Hfn Ho Hfits) as (n & e & d & bs' & os' & Q' & Heq & Hst).
      exists [RDeleted n e], d, bs', os', Q'. split; [|by apply handled_one]. run.
      cbn [c_Delete Queue_Consumer]. run. cbn [fst]. rewrite Heq. by destruct e.
Qed.

(** ** A command on a stored queue *)

Lemma cmd_split_1 k : cmd_split 1 k = k.
Proof. apply Z.quot_1_r. Qed.

Lemma cmd_split_1_ok : SplitFunc (cmd_split 1).
Proof. apply SplitFunc_intro; intros *; rewrite !cmd_split_1; auto. Qed.

(** A queue of the client in a directory, nobody has it open; every bucket has one
    key. *)
Record at_rest (c : cap) (dir : path) (os : OS) Q : Prop := {
  ar_stored : ∃ opts, sc_Name (opt_BucketSplitConf opts) = "cmd:1" ∧ stored c dir opts os Q;
  ar_split : BucketsSpec.in_split (cmd_split 1) Q ∧ aligned (cmd_split 1) Q;
  ar_faults : os_faults os = [];
}.

(** The flags of a command in the directory [dir] with buckets of size [d]. *)
Record accepted (dir : path) (d : Z) (ctx : cli_Context) : Prop := {
  ac_dir : path_of (ctx_GlobalString ctx "dir") = dir;
  ac_size : ctx_GlobalDuration ctx "bucket-size" = d;
  ac_mode : ctx_GlobalString ctx "sync-mode" ∈ ["full"; "data"; "index"; "none"];
}.

(** A command with buckets for single keys. *)
Record cmd_ok (dir : path) (cmd : verb * cli_Context) : Prop := {
  co_accepted : accepted dir 1 cmd.2;
  co_calls : ∀ cs, verb_calls cmd.1 cmd.2 = Ok cs → Forall (call_ok [""]) cs;
}.

Lemma stored_name c dir opts opts' os Q :
  sc_Name (opt_BucketSplitConf opts') = sc_Name (opt_BucketSplitConf opts) → stored c dir opts os Q → stored c dir opts' os Q.
Proof.
  intros Hname [Hk Hi Hd Hn]. split; try done. intros name node Hnode. unfold conf_node. rewrite Hname. by apply Hn.
Qed.

Lemma options_accepted dir d ctx :
  accepted dir d ctx → 0 < d → ∃ opts, optionsFromCtx ctx = Ok opts ∧ opts_ok opts ∧
    sc_Func (opt_BucketSplitConf opts) = Some (cmd_split d) ∧ sc_Name (opt_BucketSplitConf opts) = "cmd:" +:+ pretty d.
Proof.
  intros [_ Hsize Hmode] Hd.
  assert (∃ opts, optionsFromCtx ctx = Ok opts ∧ sc_Name (opt_BucketSplitConf opts) = "cmd:" +:+ pretty d) as (opts & Hopts & Hname).
  { unfold optionsFromCtx. rewrite Hsize. destruct (Z.leb_spec d 0); [lia|].
    repeat (apply elem_of_cons in Hmode as [->|Hmode]; [by eexists|]). by apply elem_of_nil in Hmode. }
  destruct (optionsFromCtx_ok ctx opts Hopts) as (? & _ & Hfn). rewrite Hsize in Hfn. by exists opts.
Qed.

(** A handler that leaves a queue is run between [Open] and [Close]. *)
Lemma withQueue_ok (fn : handler (T := T)) ctx c dir os Q io :
  accepted dir 1 ctx → at_rest c dir os Q → dir ≠ [] → cap_ok c →
  ∃ bs os1, holds_queue c bs os1 Q ∧ (cap_told c = true → trailers_ok bs Q) ∧ split_func bs = Ok (cmd_split 1) ∧ bs_forks bs = [] ∧
    ∀ t d bs' os' Q', fn ctx (bs, io) os1 = ends t bs' io os' → holds_queue d bs' os' Q' → same_list bs bs' →
      report (withQueue fn ctx) io os = (Ok tt, mkStdio (std_out io ++ printed_text t) (std_err io ++ reported t), os') ∧
      at_rest d dir os' Q'.
Proof.
  intros Hcmd [(opts0 & Hname0 & Hst) [Hin Hal] Hno] Hne Hc.
  destruct (options_accepted dir 1 ctx Hcmd ltac:(done)) as (opts & Hopts & [Hval Htrim] & Hfn & Hname).
  apply (stored_name _ _ _ opts) in Hst; [|by rewrite Hname, Hname0].
  destruct (Open_ok io c dir opts os Q (cmd_split 1)) as (bs & os1 & Hopen & Hh & Hd & Ho & Hf & Htr); try done;
    [apply cmd_split_1_ok|].
  assert (split_func bs = Ok (cmd_split 1)) as Hsp by (unfold split_func; by rewrite Ho, Hfn).
  exists bs, os1. split; [done|]. split; [done|]. split; [done|]. split; [done|].
  intros t d bs' os' Q' Hrun Hh' Hsame. pose proof Hh' as [Hok' (fn' & Hfn' & _ & Hin' & Hal') Hno'].
  rewrite (split_func_same bs bs' Hsame), Hsp in Hfn'. injection Hfn' as <-.
  destruct (BsClose_ok d bs' os' Q' Hok' Hno') as (bs2 & Hclose & _). split.
  - destruct Hcmd as [Hdir _ _]. unfold report, withQueue. rewrite Hdir. unfold attempt, wrap_err. run.
    rewrite Hopts, Hopen, Hrun. destruct t; cbn [ends]; run; cbn [fst snd set_fst]; unfold Queue_Close; rewrite Hclose;
      cbn [snd printed_text reported]; rewrite ?app_nil_r; by destruct io.
  - split; [|done|done]. exists opts. split; [done|]. rewrite <- Hd, <- Ho, <- (sl_dir _ _ Hsame), <- (sl_opts _ _ Hsame).
    apply queue_ok_stored; [done|]. by rewrite (sl_forks _ _ Hsame).
Qed.

(** ** Sessions *)

Definition run_verb (v : verb) : cli_Context → M stdio unit := withQueue (verb_handler v).

(** One command after the other. *)
Definition shell (cmds : list (verb * cli_Context)) : M stdio unit :=
  each (λ cmd, report (run_verb cmd.1 cmd.2)) cmds.

(** The promise: what commands print and report, if each of them does its calls on
    the same queue. *)
Inductive cmd_steps (A : qspec) : list (verb * cli_Context) → list byte → list error → qspec → Prop :=
  | cmd_done A' : (∀ f, A' f ≡ₚ A f) → cmd_steps A [] [] [] A'
  | cmd_bad v ctx e cmds out errs A' :
      verb_calls v ctx = Err e → cmd_steps A cmds out errs A' → cmd_steps A ((v, ctx) :: cmds) out (e :: errs) A'
  | cmd_run v ctx cs rs A1 cmds out errs A' :
      verb_calls v ctx = Ok cs → qsteps [""] A cs rs A1 → cmd_steps A1 cmds out errs A' →
      cmd_steps A ((v, ctx) :: cmds) (printed_text (verb_text rs) ++ out) (reported (verb_text rs) ++ errs) A'.

Definition calls_of (cmd : verb * cli_Context) : list call :=
  match verb_calls cmd.1 cmd.2 with Ok cs => cs | _ => [] end.

Lemma ParseInt_cases s : (∃ k, ParseInt s = Ok k) ∨ ∃ e, ParseInt s = Err e.
Proof.
  destruct s as [|c s]; [right; by eexists|]. cbn [ParseInt]. set (digits := if _ : bool then s else c :: s).
  assert ((∃ k, ParseUint digits = Ok k) ∨ ∃ e, ParseUint digits = Err e) as [[k ->]|[e ->]].
  { unfold ParseUint. destruct digits as [|d ds]; [right; by eexists|]. generalize 0. generalize (d :: ds). intros l.
    induction l as [|x l IH]; intros n; cbn [ParseUint_loop]; [left; by eexists|].
    destruct (digit_val x); [|right; by eexists]. destruct (_ <=? _); [right; by eexists|apply IH]. }
  - run. repeat case_match; eauto.
  - right. by eexists.
Qed.

Lemma parse_args_cases args : (∃ its, parse_args args = Ok its) ∨ ∃ e, parse_args args = Err e.
Proof.
  induction args as [|arg args IH]; cbn [parse_args]; [left; by eexists|].
  assert ((∃ it, parse_arg arg = Ok it) ∨ ∃ e, parse_arg arg = Err e) as [[it ->]|[e ->]].
  { unfold parse_arg. destruct (SplitN_2 _ _) as [|key [|blob ws]]; [right; by eexists..|].
    destruct (ParseInt_cases key) as [[k ->]|[e ->]]; run; eauto. }
  - run. destruct IH as [[its ->]|[e ->]]; eauto.
  - run. eauto.
Qed.

Lemma verb_calls_cases v ctx : (∃ cs, verb_calls v ctx = Ok cs) ∨ ∃ e, verb_calls v ctx = Err e.
Proof.
  destruct v; cbn [verb_calls]; eauto; [|case_match; eauto].
  destruct (parse_args_cases (ctx_Args ctx)) as [[its ->]|[e ->]]; run; eauto.
Qed.

Lemma shell_ok cmds c dir os Q io :
  at_rest c dir os Q → dir ≠ [] → cap_told c = true → Forall (cmd_ok dir) cmds →
  fits (cmd_split 1) c [""] (λ f, contents f Q) (concat (calls_of <$> cmds)) →
  ∃ out errs d os' Q', shell cmds io os = (Ok tt, mkStdio (std_out io ++ out) (std_err io ++ errs), os') ∧
    at_rest d dir os' Q' ∧ cmd_steps (λ f, contents f Q) cmds out errs (λ f, contents f Q').
Proof.
  intros Hrest Hne Htold Hcmds. revert c os Q io Hrest Htold.
  induction Hcmds as [|[v ctx] cmds Hcmd _ IH]; intros c os Q io Hrest Htold Hfits; unfold shell; cbn [each fmap list_fmap concat].
  { exists [], [], c, os, Q. rewrite !app_nil_r. split; [by destruct io|]. split; [done|by constructor]. }
  fold (shell cmds). cbn [fst snd]. pose proof (co_accepted _ _ Hcmd) as Hacc. cbn [snd] in Hacc. destruct (verb_calls_cases v ctx) as [[cs Hcs]|[e He]].
  - assert (calls_of (v, ctx) = cs) as Hcalls by (unfold calls_of; cbn [fst snd]; by rewrite Hcs).
    cbn [fmap list_fmap concat] in Hfits. rewrite Hcalls in Hfits.
    destruct (withQueue_ok (verb_handler v) ctx c dir os Q io Hacc Hrest Hne) as (bs & os1 & Hh & Htr & Hsp & Hf & Hrun); [apply Hfits|].
    destruct (verb_ok (cmd_split 1) v ctx cs (concat (calls_of <$> cmds)) c bs os1 Q io)
      as (rs & d & bs' & os' & Q' & Heq & [Hh' Hsame Ht Hsteps Hfits']); try done; [by apply Htr|by apply (co_calls dir (v, ctx))|].
    assert (consumers bs = [""]) as Hfs by (unfold consumers; by rewrite Hf). rewrite Hfs in Hsteps, Hfits'.
    destruct (Hrun _ _ _ _ _ Heq Hh' Hsame) as [Hrep Hrest'].
    destruct (IH d os' Q' (mkStdio (std_out io ++ printed_text (verb_text rs)) (std_err io ++ reported (verb_text rs))) Hrest')
      as (out & errs & d' & os2 & Q2 & Hshell & Hrest2 & Hcs2); [congruence|done|].
    exists (printed_text (verb_text rs) ++ out), (reported (verb_text rs) ++ errs), d', os2, Q2.
    split; [|split; [done|by eapply cmd_run]]. run. unfold run_verb. rewrite Hrep, Hshell. cbn. by rewrite <- !app_assoc.
  - assert (calls_of (v, ctx) = []) as Hcalls by (unfold calls_of; cbn [fst snd]; by rewrite He).
    cbn [fmap list_fmap concat] in Hfits. rewrite Hcalls in Hfits. cbn [app] in Hfits.
    destruct (withQueue_ok (verb_handler v) ctx c dir os Q io Hacc Hrest Hne) as (bs & os1 & Hh & Htr & Hsp & Hf & Hrun); [apply Hfits|].
    assert (verb_handler v ctx (bs, io) os1 = ends (inr e) bs io os1) as Heq.
    { destruct v; cbn [verb_calls verb_handler] in *; try done; [|by case_match].
      unfold handlePush. run. destruct (parse_args (ctx_Args ctx)) as [its| | |]; try done. by injection He as ->. }
    destruct (Hrun _ _ _ _ _ Heq Hh) as [Hrep Hrest']; [done|].
    destruct (IH c os1 Q (mkStdio (std_out io ++ []) (std_err io ++ [e])) Hrest')
      as (out & errs & d' & os2 & Q2 & Hshell & Hrest2 & Hcs2); [done|done|].
    exists out, (e :: errs), d', os2, Q2. split; [|split; [done|by apply cmd_bad]].
    run. unfold run_verb. rewrite Hrep. cbn [printed_text reported]. rewrite Hshell. cbn. by rewrite app_nil_r, <- app_assoc.
Qed.

(** C3. The client on a directory that is empty at first, with buckets for single
    keys: a session of [push], [pop], [peek], [len] and [clear] commands, every one
    of which opens the queue, works on it and closes it, prints and reports what
    its calls give on one queue that is never closed; arguments of [push] that are
    not accepted and ranges that are empty are reported and change nothing.  This
    is so without system errors and for calls as in [queue_life]: the keys of one
    [push] less than 2^63 apart, counts that are ints and not 0, less than 2^32
    items; and if the session clears a range, then no two of the items that it
    pushes below the range, ever, have the same key.  ([Delete] can lose items with
    equal keys, bucket.go:546.) *)
Theorem cmd_refines cmds dir os io :
  empty_dir os dir → os_faults os = [] → Forall (cmd_ok dir) cmds →
  fits (cmd_split 1) (mkCap 0 0 true) [""] (λ _, []) (concat (calls_of <$> cmds)) →
  ∃ out errs os' A, shell cmds io os = (Ok tt, mkStdio (std_out io ++ out) (std_err io ++ errs), os') ∧
    cmd_steps (λ _, []) cmds out errs A.
Proof.
  intros Hempty Hno Hcmds Hfits. destruct (shell_ok cmds (mkCap 0 0 true) dir os ∅ io) as (out & errs & d & os' & Q' & ? & _ & ?); try done.
  - split; [|apply empty_spec|done].
    exists (mkOptions SyncFull true ErrorModeAbort (mkBucketSplitConf None "cmd:1") 4). split; [done|by apply stored_empty].
  - by destruct Hempty.
  - by exists out, errs, os', (λ f, contents f Q').
Qed.

(** ** Larger buckets *)

Lemma cmd_split_mono d : 0 < d → SplitMono (cmd_split d).
Proof.
  intros Hd. unfold cmd_split. split.
  - intros k Hk. pose proof (quot_mul_bounds k d Hd) as (Habs & Hp & Hm). set (q := Z.quot k d) in *.
    assert (Z.abs q ≤ Z.abs (q * d)) by (rewrite Z.abs_mul; nia). assert (k ≤ 0 → q ≤ 0) by (intros ?; nia).
    unfold is_int64 in *. lia.
  - intros k k' _ _ Hle. by apply Z.quot_le_mono.
Qed.

(** Only the bucket 0 is its own bucket. *)
Lemma cmd_split_moves d k : 2 ≤ d → k ≠ 0 → cmd_split d k ≠ k.
Proof.
  intros Hd Hk Heq. unfold cmd_split in Heq. pose proof (quot_mul_bounds k d ltac:(lia)) as (Habs & _). rewrite Heq in Habs. nia.
Qed.

(** The first push of the client, with buckets of any size. *)
Lemma first_push d dir os io ctx items :
  empty_dir os dir → os_faults os = [] → 0 < d → accepted dir d ctx → parse_args (ctx_Args ctx) = Ok items →
  call_ok [""] (CPush items) → cap_ok (cap_push items (mkCap 0 0 true)) → Z.of_nat (length items) < 2 ^ 32 →
  ∃ os' Q, withQueue (T := T) handlePush ctx io os = (Ok tt, io, os') ∧ os_faults os' = [] ∧
    (∀ it, it ∈ items → is_Some (Q !! cmd_split d (it_Key it))) ∧
    ∀ opts, sc_Name (opt_BucketSplitConf opts) = "cmd:" +:+ pretty d → stored (cap_push items (mkCap 0 0 true)) dir opts os' Q.
Proof.
  intros Hempty Hno Hd Hacc Hargs [Hval Hcmp] Hcap Hlen. pose proof (ed_ne _ _ Hempty) as Hne.
  destruct (options_accepted dir d ctx Hacc Hd) as (opts & Hopts & [Hv Htrim] & Hfn & Hname).
  destruct (Open_checked io (mkCap 0 0 true) dir opts os ∅ (cmd_split d)) as (bs & os1 & Hopen & Hok & Hdir & Ho & Hf & Hno1 & _);
    try done; [by apply stored_empty|].
  rewrite (keys_checked_ok (cmd_split d)) in Hopen.
  2: { intros k Hk. apply (queue_ok_keys _ _ _ _ k Hok) in Hk. rewrite lookup_empty in Hk. by destruct Hk. }
  pose proof (cmd_split_mono d Hd) as Hmono.
  destruct (BsPush_ok (cmd_split d) (mkCap 0 0 true) bs os1 ∅ items) as (bs' & os' & Q & Hpush & Hok' & Hsame & Hno' & _ & HQ & _); try done.
  { unfold split_func. by rewrite Ho, Hfn. }
  { split; [lia|]. intros k q f its. by rewrite lookup_empty. }
  destruct (BsClose_ok _ bs' os' Q Hok' Hno') as (bs2 & Hclose & _). exists os', Q.
  split; [|split; [done|split]].
  - destruct Hacc as [Hpath _ _]. unfold withQueue. rewrite Hpath. unfold attempt, wrap_err. run. rewrite Hopts, Hopen.
    unfold handlePush. run. rewrite Hargs. cbn [fst]. unfold Queue_Push. rewrite Hpush. cbn [fst snd set_fst]. unfold Queue_Close. by rewrite Hclose.
  - intros it Hit. specialize (HQ (cmd_split d (it_Key it)) "" ltac:(set_solver)).
    destruct (Q !! cmd_split d (it_Key it)) as [q|] eqn:HQk; [by eexists|]. exfalso.
    rewrite (queue_of_None Q) in HQ by done. apply Permutation_nil_l in HQ. symmetry in HQ. apply app_eq_nil in HQ as [_ HQ].
    assert (it ∈ filter (λ it', cmd_split d (it_Key it') = cmd_split d (it_Key it)) items) as Hin by by apply list_elem_of_filter.
    rewrite HQ in Hin. by apply elem_of_nil in Hin.
  - intros opts' Hname'. apply (stored_name _ _ opts); [congruence|]. rewrite <- Hdir, <- Ho, <- (sl_dir _ _ Hsame), <- (sl_opts _ _ Hsame).
    apply queue_ok_stored; [done|]. by rewrite (sl_forks _ _ Hsame), Hf.
Qed.

(** C13. With buckets that are meant to hold several keys the client locks itself
    out: the key of a bucket is [key / size] and not a multiple of the size, so
    that it is not its own bucket; after a push that is accepted, of any item
    whose key is not below the size, every later command on the queue fails
    because the split function seems to have changed. *)
Theorem cmd_locked_out (fn : handler (T := T)) d dir os io ctx ctx' items it :
  empty_dir os dir → os_faults os = [] → 2 ≤ d → accepted dir d ctx → accepted dir d ctx' →
  parse_args (ctx_Args ctx) = Ok items → call_ok [""] (CPush items) → cap_ok (cap_push items (mkCap 0 0 true)) →
  Z.of_nat (length items) < 2 ^ 32 → it ∈ items → d ≤ Z.abs (it_Key it) →
  ∃ os1 os2, withQueue (T := T) handlePush ctx io os = (Ok tt, io, os1) ∧
    withQueue fn ctx' io os1 = (Err (EWrap "open" (EWrap "bucket key" EChangedSplitFunc)), io, os2).
Proof.
  intros Hempty Hno Hd Hacc Hacc' Hargs Hpush Hcap Hlen Hit Habs.
  destruct (first_push d dir os io ctx items) as (os1 & Q & Hrun & Hno1 & HQ & Hst); try done; [lia|].
  destruct (options_accepted dir d ctx' Hacc' ltac:(lia)) as (opts & Hopts & [Hv Htrim] & Hfn & Hname).
  destruct (Open_checked io (cap_push items (mkCap 0 0 true)) dir opts os1 Q (cmd_split d))
    as (bs & os2 & Hopen & Hok & _); try done; [by apply Hst|by destruct Hempty|].
  rewrite (keys_checked_bad _ _ (cmd_split d (it_Key it))) in Hopen.
  - exists os1, os2. split; [done|]. destruct Hacc' as [Hpath _ _]. unfold withQueue. rewrite Hpath. unfold wrap_err. run.
    by rewrite Hopts, Hopen.
  - apply (queue_ok_keys _ _ _ _ _ Hok). by apply HQ.
  - apply cmd_split_moves; [done|]. unfold cmd_split. intros Hz%Z.quot_small_iff; lia.
Qed.
End handlers.

(** ** Dumping a log *)

Section dump.
Context `{Host, Unix, !UnixLaws} `{Paths}.

Lemma dump_items l fuel li its io os :
  readable l → li_exhausted li = false → items_at l (li_currOff li) its → Forall valid_item its →
  li_currOff li + storages its = log_size l → Z.of_nat (length its) ≤ li_currLen li < 2 ^ 64 → (length its < fuel)%nat →
  dump_loop fuel l li io os = (Ok tt, printed_on io (lines its), os).
Proof.
  intros Hl. revert fuel li io. pose proof Hl as [_ Hs Hm].
  induction its as [|it its IH]; intros [|fuel] li io Hrun Hat Hval Hend Hlen Hfuel; cbn [length] in *; try lia; cbn [dump_loop].
  - assert (Next l li = Ok (false, set_exhausted li)) as ->; [|by cbn; rewrite printed_nil].
    unfold Next. rewrite Hrun, orb_false_r, uint64_id by lia. destruct (li_currLen li =? 0); [done|].
    cbn in Hend. by replace ((0 <? mmap_len l) && (log_size l <=? li_currOff li)) with true by lia.
  - apply Forall_cons in Hval as [Hv Hval]. apply (items_at_app l _ [it] its) in Hat as [Hit Hrest].
    rewrite (Next_reads l Hl li it) by (done || lia). cbn [storages foldr] in Hend. fold (storages its) in Hend.
    pose proof (storage_ge it). pose proof (storages_nonneg its). destruct Hit as [Hoff _].
    assert (li_currOff (advance (set_item it li)) = li_currOff li + storage it) as Hoff'.
    { cbn. rewrite Item_StorageSize_spec, uint64_id by lia. done. }
    run. unfold print. run. rewrite IH.
    + unfold Iter_Item. cbn [advance set_item li_item]. change (lines (it :: its)) with ((Item_String it ++ newline) ++ lines its).
      unfold printed_on, Item_String. cbn [std_out std_err]. by rewrite <- !app_assoc.
    + done.
    + rewrite Hoff'. rewrite storages_single in Hrest. apply Hrest.
    + done.
    + rewrite Hoff'. lia.
    + cbn. rewrite uint64_id; lia.
    + lia.
Qed.

(** C33. [log dump] of a log of at most 10^9 items prints all of them, in the order
    in which they were pushed, and changes nothing. *)
Theorem handleLogDump_prints l os its ctx io :
  wf_log l os → Vlog.contents l = enc_items its → Forall valid_item its → Z.of_nat (length its) ≤ 10 ^ 9 →
  path_of (ctx_String ctx "path") = log_path l → os_faults os = [] →
  handleLogDump ctx io os = (Ok tt, printed_on io (lines its), os).
Proof.
  intros Hwf Hc Hval Hlen Hpath Hno. unfold handleLogDump. run. rewrite Hpath, (Open_existing io l os its true) by done.
  pose proof (wf_readable _ _ Hwf) as Hl. set (l' := mkLog _ _ _ _ _ _).
  assert (readable l') as Hl' by (by destruct Hl).
  destruct (contents_items_at l' Hl' its Hc) as [Hat Hsize]. pose proof (storages_ge its).
  rewrite (dump_items l' _ _ its io os) by (done || (cbn [li_currLen li_currOff At loc_Len loc_Off]; lia)).
  unfold Vlog.Close, attempt. sys_ok. done.
Qed.

(** [log dump] comes to an end on every log, however damaged. *)
Lemma dump_loop_ends l fuel li io os :
  readable l → iter_sane li → 0 < log_size l - li_currOff li < Z.of_nat fuel ∨
    log_size l ≤ li_currOff li ∧ (0 < fuel)%nat →
  ∃ bytes, dump_loop fuel l li io os = (Ok tt, printed_on io bytes, os).
Proof.
  intros Hl. revert li io. induction fuel as [|fuel IH]; intros li io Hsane Hfuel; [lia|]. cbn [dump_loop].
  destruct (Next_safe l li Hl Hsane) as (ok & li' & -> & Hsane' & Hli'). run. destruct ok.
  - destruct Hli' as ([Hge Hlt] & Hstep & Hrun'). unfold print. run.
    edestruct (IH li') as [bytes ->]; [done|lia|]. unfold printed_on. cbn [std_out std_err]. rewrite <- app_assoc. by eexists.
  - exists []. by rewrite printed_nil.
Qed.

(** C34. [log dump] comes to an end on every log, however damaged it is: the
    iterator moves on with every item, or stops. *)
Theorem dump_terminates l io os :
  readable l → ∃ bytes, dump_loop (S (Z.to_nat (log_size l))) l (At (mkLocation 0 0 (10 ^ 9)) true) io os = (Ok tt, printed_on io bytes, os).
Proof.
  intros Hl. pose proof Hl as [_ Hs _]. apply dump_loop_ends; [done| |].
  - split; [unfold small_item, blob_len; cbn; lia|cbn; lia].
  - cbn [li_currOff At loc_Off]. lia.
Qed.
End dump.

(** ** Listing forks *)

Section forks.
Context {T : Type → Type} `{BTreeLaws T} `{Host, Unix} `{MapRange, !MapRangeLaws} `{SortFunc, CopyPkg, Devices, Unicode, RenameIO, Paths}.

Lemma keeps_Open_queue {St} dir opts : keeps eq (Open_queue (T := T) (St := St) dir opts).
Proof.
  unfold Open_queue. destruct (Validate opts) as [[e|] opts']; [keeps|]. unfold loadAllBuckets, ReadDir. keeps.
Qed.

(** [fork list] never prints a fork: every command opens the queue first, and
    an open queue has forgotten the forks of the commands before. *)
Theorem handleForkList_silent ctx io os : (withQueue (T := T) handleForkList ctx io os).1.2 = io.
Proof.
  unfold withQueue, attempt, wrap_err. run. destruct (optionsFromCtx ctx) as [opts| | |]; [|done..].
  pose proof (keeps_Open_queue (path_of (ctx_GlobalString ctx "dir")) opts io os) as Hkeep.
  destruct (Open_queue _ opts io os) as [[[bs| | |] io1] os1] eqn:Hopen; cbn in Hkeep; subst io1; try done.
  pose proof (Open_no_forks _ _ _ _ _ _ _ Hopen) as Hf. unfold handleForkList, Queue_Forks, BsForks. run. cbn [fst snd].
  rewrite Hf. cbn [each fst set_fst set_snd snd]. run. cbn [fst snd]. change (set_snd io (bs, io)).1 with bs. by destruct (Queue_Close bs os1) as [[[?| | |] ?] ?].
Qed.
End forks.

(** ** Witnesses *)

#[local] Existing Instance Host_tiny.

(** Names in a working directory [q]. *)
Definition Paths_flat : Paths := {| path_of s := if decide (s = "") then ["q"] else ["q"; s] |}.

(** A command with buckets of size [d], [--number] [n] and [--to] [to]. *)
Definition ex_ctx (d n : Z) (to : option Z) (args : list string) : cli_Context :=
  mkContext (λ flag, if decide (flag = "dir") then "" else "full") (λ _, d) (λ _, "dat.log") (λ _, n)
    (λ _, default 0 to) (λ flag, bool_decide (flag = "to" ∧ is_Some to)) args.

Lemma ex_accepted d n to args : @accepted Paths_flat ["q"] d (ex_ctx d n to args).
Proof. split; [reflexivity|reflexivity|by left]. Qed.

Definition ex_args : list string := arg_of <$> ex_items.

Definition ex_cmds : list (verb * cli_Context) :=
  [(VPush, ex_ctx 1 1 None ex_args); (VLen, ex_ctx 1 1 None []); (VPeek, ex_ctx 1 1 None []); (VPush, ex_ctx 1 1 None ["x"]);
   (VClear, ex_ctx 1 1 (Some 3) []); (VPop, ex_ctx 1 (-1) None []); (VClear, ex_ctx 1 1 None [])].

Lemma ex_cmds_calls :
  concat (calls_of <$> ex_cmds) = [CPush ex_items; CLen ""; CPeek 1 ""; CDelete "" (- 2 ^ 63) 3; CPop (-1) ""; CLen ""; CClear].
Proof. vm_compute. reflexivity. Qed.

Lemma ex_cmds_ok : Forall (@cmd_ok Paths_flat ["q"]) ex_cmds.
Proof.
  assert ("" ∈ [""]) as Hf by by left.
  assert (is_int64 1 ∧ is_int64 3 ∧ is_int64 (-1) ∧ is_int64 (- 2 ^ 63)) as (H1 & H3 & Hm & Hmin) by (unfold is_int64; lia).
  unfold ex_cmds. repeat apply Forall_cons_2; [..|done]; (split; [apply ex_accepted|]); intros cs Hcs; cbn [fst snd verb_calls] in Hcs.
  1: change (parse_args (ctx_Args (ex_ctx 1 1 None ex_args))) with (parse_args ex_args) in Hcs;
     assert (parse_args ex_args = Ok ex_items) as Hargs by (vm_compute; reflexivity); rewrite Hargs in Hcs; injection Hcs as <-;
     apply Forall_singleton; split; [apply ex_valid|apply ex_keys_close].
  all: try discriminate Hcs; injection Hcs as <-; by repeat constructor.
Qed.

Lemma cmd_refines_witness :
  ∃ out errs os' A,
    @shell slist _ Host_tiny Unix_plain Range_id Sort_insert Copy_none Devices_one Unicode_ascii RenameIO_plain Paths_flat ex_cmds (mkStdio [] [])
      (mkOS {[ ["q"] := NDir ]} []) = (Ok tt, mkStdio ([] ++ out) ([] ++ errs), os') ∧ cmd_steps (λ _, []) ex_cmds out errs A.
Proof.
  apply (@cmd_refines slist _ _ Host_tiny Unix_plain Unix_plain_laws Range_id Range_id_laws Sort_insert Sort_insert_laws
    Copy_none Devices_one Unicode_ascii RenameIO_plain RenameIO_plain_laws Paths_flat ex_cmds ["q"]).
  - apply ex_empty_dir.
  - reflexivity.
  - apply ex_cmds_ok.
  - rewrite ex_cmds_calls. split; [split; cbn; lia| |vm_compute; intuition congruence..|].
    + intros f [->|[]%elem_of_nil]%elem_of_cons. by vm_compute.
    + apply separate_low. intros f g from to Hin _ _. each_call Hin; injection Hin as -> -> ->; ex_low.
Defined.

Lemma cmd_locked_out_witness :
  ∃ os1 os2,
    @withQueue slist _ Host_tiny Unix_plain Range_id RenameIO_plain Paths_flat (@handlePush _ _ Host_tiny Unix_plain Range_id Sort_insert)
      (ex_ctx 2 1 None ex_args) (mkStdio [] []) (mkOS {[ ["q"] := NDir ]} []) = (Ok tt, mkStdio [] [], os1) ∧
    @withQueue slist _ Host_tiny Unix_plain Range_id RenameIO_plain Paths_flat
      (@handleLen _ _ Host_tiny Unix_plain Range_id Copy_none Devices_one Unicode_ascii)
      (ex_ctx 2 1 None []) (mkStdio [] []) os1
      = (Err (EWrap "open" (EWrap "bucket key" EChangedSplitFunc)), mkStdio [] [], os2).
Proof.
  apply (@cmd_locked_out slist _ _ Host_tiny Unix_plain Unix_plain_laws Range_id Range_id_laws Sort_insert Sort_insert_laws
    RenameIO_plain RenameIO_plain_laws Paths_flat _ 2 ["q"] _ _ _ _ ex_items (mkItem 3 [Byte.x61])).
  - apply ex_empty_dir.
  - reflexivity.
  - lia.
  - apply ex_accepted.
  - apply ex_accepted.
  - vm_compute. reflexivity.
  - split; [apply ex_valid|apply ex_keys_close].
  - split; vm_compute; intuition congruence.
  - by vm_compute.
  - by left.
  - cbn. lia.
Defined.

Lemma handleLogDump_prints_witness :
  @handleLogDump Host_tiny Unix_plain Paths_flat (ex_ctx 1 1 None []) (mkStdio [] []) ex_pushed_os =
    (Ok tt, printed_on (mkStdio [] []) (lines ex_items), ex_pushed_os).
Proof.
  apply (@handleLogDump_prints Host_tiny Unix_plain Unix_plain_laws Paths_flat ex_pushed ex_pushed_os ex_items);
    [apply ex_pushed_wf_log|vm_compute; reflexivity|apply ex_valid|by vm_compute|reflexivity|reflexivity].
Defined.

Lemma dump_terminates_witness :
  ∃ bytes, dump_loop (S (Z.to_nat (log_size ex_pushed))) ex_pushed (At (mkLocation 0 0 (10 ^ 9)) true) (mkStdio [] []) ex_pushed_os =
    (Ok tt, printed_on (mkStdio [] []) bytes, ex_pushed_os).
Proof. apply (dump_terminates ex_pushed (mkStdio [] []) ex_pushed_os). apply ex_pushed_readable. Defined.
