(* ===== verification/TestUtils.v ===== *)
(** * src/item/testutils: items for tests

    [GenItems] makes the items that the tests push; [WithTempMount], which mounts a
    file system with the tools of the operating system, is not modelled. *)

From S2P Require Import Prelude Item Cmd.
From stdpp Require Import pretty.
#[local] Open Scope Z_scope.

Definition ItemFromIndex (idx : Z) : Item := mkItem idx (decimal idx).

(** The loop of [GenItems]; [fuel] bounds the number of items. *)
Fixpoint GenItems_loop (fuel : nat) (idx stop step : Z) (its : Items) : res Items :=
  match fuel with
  | O => NoFuel
  | S fuel =>
      if (0 <? step) && (stop <=? idx) then Ok its
      else if (step <? 0) && (idx <=? stop) then Ok its
      else GenItems_loop fuel (int64 (idx + step)) stop step (its ++ [ItemFromIndex idx])
  end.

Definition GenItems (start stop step : Z) : res Items :=
  if step =? 0 then Ok []
  else GenItems_loop (S (Z.to_nat (Z.abs (stop - start)))) start stop step [].

(** ** The items of a progression *)

(** How many numbers there are from [start] to [stop], without [stop]. *)
Definition gen_count (start stop step : Z) : Z :=
  if 0 <? step then (stop - start + (step - 1)) `div` step else (start - stop + (- step - 1)) `div` (- step).

Definition progression (start step n : Z) : Items := (λ i, ItemFromIndex (start + i * step)) <$> seqZ 0 n.

(** Whether the loop stops at [idx]. *)
Definition gen_stops (stop step idx : Z) : bool := ((0 <? step) && (stop <=? idx)) || ((step <? 0) && (idx <=? stop)).

Lemma GenItems_steps fuel n start stop step its :
  (n < fuel)%nat → (∀ i, 0 ≤ i < Z.of_nat n → gen_stops stop step (start + i * step) = false) →
  gen_stops stop step (start + Z.of_nat n * step) = true → (∀ i, 0 ≤ i ≤ Z.of_nat n → is_int64 (start + i * step)) →
  GenItems_loop fuel start stop step its = Ok (its ++ progression start step (Z.of_nat n)).
Proof.
  revert fuel start its. induction n as [|n IH]; intros [|fuel] start its Hfuel Hgo Hend Hint; try lia; cbn [GenItems_loop].
  - replace (start + Z.of_nat 0 * step) with start in Hend by lia. unfold gen_stops in Hend. rewrite app_nil_r.
    destruct (_ && _); [done|]. cbn [orb] in Hend. by rewrite Hend.
  - pose proof (Hgo 0 ltac:(lia)) as H0. replace (start + 0 * step) with start in H0 by lia. unfold gen_stops in H0.
    apply orb_false_iff in H0 as [-> ->]. pose proof (Hint 1 ltac:(lia)) as H1. rewrite Z.mul_1_l in H1.
    rewrite (int64_id (start + step)) by done. rewrite (IH fuel (start + step)).
    + rewrite <- app_assoc. f_equal. f_equal. unfold progression. rewrite (seqZ_cons 0 (Z.of_nat (S n))) by lia. cbn [fmap list_fmap app].
      f_equal; [f_equal; lia|]. replace (Z.pred (Z.of_nat (S n))) with (Z.of_nat n) by lia.
      rewrite <- (fmap_add_seqZ 1 0), <- list_fmap_compose. apply list_fmap_ext. intros i x _. cbn. f_equal. ring.
    + lia.
    + intros i Hi. replace (start + step + i * step) with (start + (i + 1) * step) by ring. apply Hgo. lia.
    + replace (start + step + Z.of_nat n * step) with (start + Z.of_nat (S n) * step) by (rewrite Nat2Z.inj_succ; unfold Z.succ; ring). done.
    + intros i Hi. replace (start + step + i * step) with (start + (i + 1) * step) by ring. apply Hint. lia.
Qed.

(** [GenItems start stop step] is the progression from [start] in steps of
    [step] up to or down to [stop], without it: it ends, and no item is missing,
    unless a step from a number before [stop] can leave the range of 64 bits. *)
Theorem GenItems_progression start stop step :
  is_int64 start → is_int64 stop → step ≠ 0 → is_int64 (if 0 <? step then stop + (step - 1) else stop + (step + 1)) →
  GenItems start stop step = Ok (progression start step (gen_count start stop step)).
Proof.
  intros Hstart Hstop Hstep Hlast. unfold GenItems. replace (step =? 0) with false by lia.
  set (n := gen_count start stop step).
  assert (0 < n → (if 0 <? step then stop ≤ start + n * step ≤ stop + (step - 1) ∧ start + (n - 1) * step < stop
                   else stop + (step + 1) ≤ start + n * step ≤ stop ∧ stop < start + (n - 1) * step)) as Hn.
  { intros Hpos. unfold n, gen_count in *. destruct (Z.ltb_spec 0 step).
    - pose proof (Z.div_mod (stop - start + (step - 1)) step ltac:(lia)).
      pose proof (Z.mod_pos_bound (stop - start + (step - 1)) step ltac:(lia)). lia.
    - pose proof (Z.div_mod (start - stop + (- step - 1)) (- step) ltac:(lia)).
      pose proof (Z.mod_pos_bound (start - stop + (- step - 1)) (- step) ltac:(lia)). lia. }
  destruct (Z.le_gt_cases n 0) as [Hle|Hgt].
  - rewrite (GenItems_steps _ 0); [|lia|lia| |intros i Hi; replace i with 0 by lia; by replace (start + 0 * step) with start by lia].
    + unfold progression. by rewrite (seqZ_nil 0 n).
    + replace (start + Z.of_nat 0 * step) with start by lia. unfold gen_stops. unfold n, gen_count in Hle.
      destruct (Z.ltb_spec 0 step); [destruct (Z.leb_spec stop start); [done|]|
        destruct (Z.leb_spec start stop); [by replace (step <? 0) with true by lia|]]; exfalso.
      * pose proof (Z.div_le_mono (1 * step) (stop - start + (step - 1)) step ltac:(lia) ltac:(lia)). rewrite Z.div_mul in * by lia. lia.
      * pose proof (Z.div_le_mono (1 * - step) (start - stop + (- step - 1)) (- step) ltac:(lia) ltac:(lia)). rewrite Z.div_mul in * by lia. lia.
  - specialize (Hn Hgt). rewrite (GenItems_steps _ (Z.to_nat n)); rewrite ?Z2Nat.id by lia; [done| | | |].
    + destruct (Z.ltb_spec 0 step); nia.
    + intros i Hi. unfold gen_stops. destruct (Z.ltb_spec 0 step); cbn [andb orb].
      * assert (i * step ≤ (n - 1) * step) by nia. replace (step <? 0) with false by lia. cbn [andb]. rewrite orb_false_r. lia.
      * assert ((n - 1) * step ≤ i * step) by nia. replace (step <? 0) with true by lia. cbn [andb]. lia.
    + unfold gen_stops. destruct (Z.ltb_spec 0 step); cbn [andb orb]; [|replace (step <? 0) with true by lia; cbn [andb]]; lia.
    + intros i Hi. unfold is_int64 in *. destruct (Z.ltb_spec 0 step).
      * assert (0 ≤ i * step ≤ n * step) by nia. lia.
      * assert (n * step ≤ i * step ≤ 0) by nia. lia.
Qed.

Lemma GenItems_progression_witness :
  GenItems 10 3 (-2) = Ok (progression 10 (-2) (gen_count 10 3 (-2))).
Proof. apply (GenItems_progression 10 3 (-2)); [unfold is_int64; lia|unfold is_int64; lia|lia|cbn; unfold is_int64; lia]. Defined.

(** With a step that leaves the range, the numbers start again from the other end:
    the loop goes on. *)
Example GenItems_wraps : GenItems (2 ^ 63 - 2) (2 ^ 63 - 1) 2 = NoFuel.
Proof. vm_compute. reflexivity. Qed.
